(* ===== verification/_CoqProject ===== *)
-Q . S2P
Prelude.v
Protocol.v
Config.v
Durations.v
Maps.v
World.v
WorldOps.v
WorldInv.v
WorldSafe.v
WorldProps.v
WorldBuild.v
WorldStart.v
WorldCheck.v
WorldFleet.v
Topology.v
Redis.v
Store.v
StoreProps.v
Users.v
Elector.v
Authority.v
Node.v
NodeProps.v
Lifecycle.v
NodeProcess.v
Coordinator.v
CoordinatorProps.v
CoordinatorRuns.v
CoordinatorLost.v
Leadership.v
CoordinatorFlight.v
CoordinatorProcess.v
Handover.v
Takeover.v
Wire.v
NodeWire.v
GatewayWire.v
WireProps.v
Cluster.v
ClusterProps.v
ClusterRoutes.v
ClusterViews.v
ClusterSwitch.v
NodeRPC.v
NodeRPCProps.v
FleetPlaces.v
Loops.v
Startup.v
Envelope.v
StreamSender.v
StreamSenderProps.v
Client.v
ClientScreen.v
ClientProps.v
ClientMain.v
ClientMainProps.v
GatewayServer.v
GatewayServerProps.v
Admin.v
StreamProcess.v
StreamProcessProps.v
GatewayLogin.v
GatewayLoginProps.v
Conversation.v
Benchmark.v
BenchmarkProps.v
