(* ===== verification/Prelude.v ===== *)
(** * Warzone: a verification development for the Battleworld server

    The program ([src/src]) is a multi-player game server in four kinds of
    processes.  A *gateway* accepts players and forwards their commands; *nodes*
    host the worlds of the maps; a *coordinator*, elected among several, decides
    which node owns which map; Redis (and an SQL database for accounts) is the only
    shared state.  Correctness rests on fencing: a topology document with a version
    and an epoch per map, committed by Lua scripts under the term of the elected
    leader, and checked by the nodes before every write.

    ** Parts

    - [Prelude]: machine integers ([i32], [i64], [u64], doubles [f64]), the monad
      [ST] of stateful code that may panic with its rules [wp] (total correctness)
      and [wlp] (partial), map iteration orders, strings, the process environment.
    - [Protocol] - protocol/message.go: views, profiles, checkpoints, constants and
      the pool of world states.
    - [Config] - config/*.go: the runtime configuration and its validation.
      [Durations]: the durations of the YAML document, with [time.ParseDuration].
    - [Maps] - world/maps.go: UTF-8 grids, drawing, the three stock maps.
    - [World], [WorldOps] - world/*.go: the state of a world ([World]) and each of
      its methods as one step of the monad [W].  [WorldInv], [WorldSafe],
      [WorldProps], [WorldBuild], [WorldStart], [WorldCheck]: invariant, safety of every
      method, functional behaviour, ticks, the end of the construction, snapshots and
      checkpoints.  [WorldFleet]: many worlds that exchange profiles and checkpoints.
    - [Topology] - storage/topology*.go: documents, validation, first topology.
    - [Redis]: the keys of the program as a record, one command of a client ([cmd])
      with lost commands and lost answers, what other clients do before it.
    - [Store], [StoreProps] - storage/store.go: sessions, fences, checkpoints,
      topology commits, registry and boss, with the Lua scripts as functions on
      [Redis].  [Users]: the account methods on a table.
    - [Elector] - elector/*.go: lease, leader terms, renewal, resignation.
    - [Authority], [Node], [NodeProps] - node/*.go: the cached authority, the RPC
      methods, the loops (the body of one round each), promotion, draining.
    - [Lifecycle] - lifecycle/http.go, the gateway's callbacks.  [NodeProcess] -
      cmd/node/*.go: the process of a node with its signal and drain endpoint.
    - [Coordinator], [CoordinatorProps], [CoordinatorRuns], [CoordinatorLost] -
      coordinator/*.go: discovery, heartbeat, first topology, failover, draining
      owners, the boss.  [Leadership]: the leader's goroutine, with the elector.
      [CoordinatorFlight]: failovers and the first commit, cut at their last check.
      [CoordinatorProcess] - cmd/coordinator/main.go, [Close].  [Handover] and
      [Takeover] run a coordinator with its nodes over one Redis: a drain, a death.
    - [Cluster], [ClusterProps], [ClusterRoutes], [ClusterViews], [ClusterSwitch] -
      cluster/*.go: the gateway's routing, sessions, commands, map cache and event
      buffers.
    - [Wire], [NodeWire], [GatewayWire], [WireProps] - pb/battle.proto,
      transport/*/mapper.go: the messages between processes and their mappers.
    - [NodeRPC], [NodeRPCProps], [FleetPlaces] - node/grpc_server.go,
      cluster/grpc_client.go: the handlers, the client, and a fleet of nodes that
      implements both client interfaces and [PlayerPlaces].
    - [Loops]: the background loops of nodes, coordinators and gateways, over what
      wakes them.  [Startup] - storage/store.go, the constructors and [main] of the
      gateway and the coordinator: connections, subscription, what starts and stops.
    - [Envelope]: the frames of the game stream.  [StreamSender],
      [StreamSenderProps] - cmd/gateway/stream_sender.go: the mailbox between the
      goroutines of one stream and its writer.
    - [GatewayServer], [GatewayServerProps] - cmd/gateway/gateway*.go: error codes,
      handlers and the life of a stream over any backend.  [GatewayLogin],
      [GatewayLoginProps]: the same with [Cluster] as the backend.  [StreamProcess],
      [StreamProcessProps]: a stream's reader, handler, pump and writer as goroutines.
      [Admin] - cmd/admin/main.go.
    - [Client], [ClientScreen], [ClientProps] - cmd/client/*.go: which states are
      applied, keys, commands, frames and the screen.  [ClientMain],
      [ClientMainProps]: prompts, terminal modes, the process.  [Conversation]: a
      client, a stream and a gateway in one run.
    - [Benchmark], [BenchmarkProps] - cmd/benchmark/main.go: the load generator.
    Components meet at interfaces: a coordinator and a gateway see nodes through
    the classes [CoordinatorNodeClient] and [GatewayNodeClient]; what a gateway
    needs to know of where nodes keep players is [PlayerPlaces]; and every process
    sees Redis through [cmd], so that theorems about one process hold whatever the
    others do between its commands.  A Go field [f] of a struct is the projection
    with the struct's prefix ([w_], [pl_], [t_], [ns_], [co_], [cl_], ...); a method
    has its Go name unless several structs share it (then the file name
    disambiguates).  Errors are constructors of [store_err], [node_err],
    [coord_err] and [gw_err], not texts.

    ** What the theorems show

    - Worlds: every method is safe and keeps the invariant, given a sound profile or
      checkpoint, and in a fleet of worlds all of them are sound; moves, attacks,
      targets and revival behave as specified on every branch; construction ends,
      and it and the ticks meet their quotas; snapshots are exact; checkpoints
      round-trip up to listed exceptions (pending respawns, empty potion bags, ...).
    - Control plane: topology commits are allowed, and atomic while the migrated
      sessions fit one [unpack]; stale owners and
      deposed leaders are refused for ever, and a coordinator that lost its lease
      contributes nothing, whatever its goroutines still do, and so does a closed one,
      up to a commit that was already under way; leader
      terms are unique; a failover hands a map over only to a promoted standby, in one
      commit; a drain hands over and a dead node is replaced when nothing interferes.
    - Nodes: nothing is written without authority, exactly the operation with it;
      one writer per epoch; loops are fenced and stop when the topology expires;
      promotion grants nothing; a drain ends and is final; a process stops only drained.
    - Gateway: routing follows committed topologies only, and so does every call; the
      map cache is that of the owners unless a round is stored too late; a snapshot is a function
      of session and caches; event buffers are exact; a map switch, over
      the nodes' own operations too, keeps the player at one node up to the
      failures it cannot undo.
    - Between processes: messages round-trip; a delivered request runs exactly the
      node's operation; a request under an outdated epoch changes nothing anywhere.
    - Streams: under any interleaving controls keep their order and none accepted
      is lost to an orderly end; states are merged but never reordered; a finished
      writer ends; a client shows the last state sent; a greeted user is logged
      out exactly once; a screen is drawn unless hit points exceed their maximum;
      every request of a stream is answered once, in order, and its goroutines end;
      a client's session is carried out and answered exactly.
    - Start and stop: processes serve only with a valid configuration and working
      databases; durations are read back; every published event is handled once; the
      loops are runs of their component's operations, and end at the stop.
    - Defects the model exposes, as theorems about the code as it is: players who
      stay down after a failover, half-committed failovers, drains that skip the
      final checkpoint, failovers that are never retried, a boss that is lost,
      players duplicated by a map switch, logouts without effect, logins that lock
      their user out, a screen that panics, signals that are swallowed after a failed
      drain, a lease kept by a closed coordinator, a cluster left open at exit.

    ** Conventions, bounds and fuel

    - A method runs as one step between two Redis commands or remote calls; other
      processes act on Redis before each command ([n_other]), the commands of one
      process run one at a time.  A background loop is its round, folded over the list
      of what wakes it with what the other goroutines did before.
    - Where the code releases a lock, or has passed a check, in the middle of an
      operation and a claim depends on it, the operation is cut there: a round of the
      map cache into fetch, check and store ([gateway_step]; a run is [timely] when no
      topology comes between check and store), a failover and the first commit into what
      precedes the commit and the commit under way ([coordinator_proc_step]).
    - The calls of a gateway's commands are observed through a log that is added to
      any implementation of [GatewayNodeClient] ([logged]).
    - The stream sender is cut finer, at its locks, channel operations and the call
      of [Send]; a run is any sequence of these pieces.  A finished writer takes at
      most 71 steps: two for each of at most 32 buffered controls, and seven more.
    - Clock readings, random numbers, map orders, SCAN results, answers of the
      elector and network faults are inputs, over which the theorems quantify.
    - A JSON document is the value it decodes to, or [Corrupt]; numbers that pass
      through Lua are doubles printed with 14 digits.  Theorems about scripts ask
      for versions, epochs and terms below 10^14, where this is exact.
    - [bootstrap_npcs] and [bootstrap_treasures] take fuel for their unbounded loops.
      On a map with nine open cells five rounds are enough for the first, and some number
      for the second, when the random source keeps producing every remainder
      ([fair_source], [NewWorld_ends]); without room no fuel is ([bootstrap_stuck]).  The
      other recursions are structural.
    - When the handler of a stream has left its loop, everything is over after at most
      160 more steps, and nine for each tick still to come.  [ParseDuration] has the length of the text as
      its fuel ([parse_parts_fuel]).
    - Times are nanoseconds with 0 for Go's zero time; whole seconds of a duration
      are computed exactly, which agrees with Go's floating-point division for
      durations below 2^23 seconds.

    ** Not modelled

    The parsing of flags, listeners, the gRPC and HTTP servers and the operating
    system (their answers are inputs), generated protobuf code, the drivers of
    PostgreSQL and Redis, the SQL, bcrypt and YAML libraries (parameters), the texts of
    log lines and of the usage, and the scheduling of goroutines inside one process
    beyond the interleavings above. *)

From Stdlib Require Import ZArith Lia String Ascii.
From stdpp Require Import base gmap strings list sorting pretty option.

Open Scope Z_scope.

(** ** Machine integers *)

(** Go's [int] and [int64]: two's complement at 64 bits. *)
Definition i64 (z : Z) : Z := (z + 2^63) mod 2^64 - 2^63.
(** Go's [int32]: two's complement at 32 bits. *)
Definition i32 (z : Z) : Z := (z + 2^31) mod 2^32 - 2^31.
(** Go's [uint64]. *)
Definition u64 (z : Z) : Z := z mod 2^64.

(** The nearest IEEE 754 double of an integer (ties to even).  Every double of
    magnitude at least 2^53 is an integer, so the result is an integer again. *)
Definition f64 (z : Z) : Z :=
  let a := Z.abs z in
  if a <=? 2^53 then z else
  let s := Z.log2 a - 52 in
  let q := Z.shiftr a s in
  let r := a - Z.shiftl q s in
  let half := Z.shiftl 1 (s - 1) in
  let q' := if (half <? r) || ((half =? r) && Z.odd q) then q + 1 else q in
  Z.sgn z * Z.shiftl q' s.

Declare Scope go_scope.
Delimit Scope go_scope with go.
Notation "a '+i' b" := (i64 (a + b)) (at level 50, left associativity) : go_scope.
Notation "a '-i' b" := (i64 (a - b)) (at level 50, left associativity) : go_scope.
Notation "a '*i' b" := (i64 (a * b)) (at level 40, left associativity) : go_scope.
Notation "a '+u' b" := (u64 (a + b)) (at level 50, left associativity) : go_scope.
Notation "a '-u' b" := (u64 (a - b)) (at level 50, left associativity) : go_scope.

Definition in_i64 (z : Z) : Prop := - 2^63 <= z < 2^63.
Definition in_i32 (z : Z) : Prop := - 2^31 <= z < 2^31.
Definition in_u64 (z : Z) : Prop := 0 <= z < 2^64.

Lemma i64_id z : in_i64 z -> i64 z = z.
Proof. unfold in_i64, i64. intros. rewrite Z.mod_small; lia. Qed.

Lemma i32_id z : in_i32 z -> i32 z = z.
Proof. unfold in_i32, i32. intros. rewrite Z.mod_small; lia. Qed.

Lemma u64_id z : in_u64 z -> u64 z = z.
Proof. unfold in_u64, u64. intros. rewrite Z.mod_small; lia. Qed.

Lemma i64_range z : in_i64 (i64 z).
Proof. unfold in_i64, i64. pose proof (Z.mod_pos_bound (z + 2^63) (2^64) ltac:(lia)). lia. Qed.

Lemma i32_range z : in_i32 (i32 z).
Proof. unfold in_i32, i32. pose proof (Z.mod_pos_bound (z + 2^31) (2^32) ltac:(lia)). lia. Qed.

Lemma u64_range z : in_u64 (u64 z).
Proof. unfold in_u64, u64. pose proof (Z.mod_pos_bound z (2^64) ltac:(lia)). lia. Qed.

Lemma f64_exact z : Z.abs z <= 2^53 -> f64 z = z.
Proof. intros H. unfold f64. by rewrite (proj2 (Z.leb_le _ _) H). Qed.

(** ** Stateful code that may panic

    A Go method is modelled as a function from a state to an optional result
    and state: [None] is a run-time panic (an index out of range, a
    non-positive argument of [rand.Intn]). *)
Definition ST (S A : Type) : Type := S -> option (A * S).

#[export] Instance st_ret {S} : MRet (ST S) := fun A a s => Some (a, s).
#[export] Instance st_bind {S} : MBind (ST S) := fun A B f m s =>
  match m s with
  | Some (a, s') => f a s'
  | None => None
  end.

Section st_ops.
Context {S : Type}.

Definition gets {A} (f : S -> A) : ST S A := fun s => Some (f s, s).
Definition modify (f : S -> S) : ST S unit := fun s => Some (tt, f s).
Definition panic {A} : ST S A := fun _ => None.

(** Go's [for _, x := range l { acc = f(acc, x) }]. *)
Fixpoint foldM {A B} (f : A -> B -> ST S A) (acc : A) (l : list B) : ST S A :=
  match l with
  | [] => mret acc
  | x :: l' => acc' ← f acc x; foldM f acc' l'
  end.
End st_ops.

(** Run an operation on a component of the state. *)
Definition zoom {S T A} (get : S -> T) (put : T -> S -> S) (m : ST T A) : ST S A := fun s =>
  match m (get s) with
  | Some (a, t) => Some (a, put t s)
  | None => None
  end.

(** Total-correctness weakest precondition: the operation does not panic and
    its result and final state satisfy [Q]. *)
Definition wp {S A} (m : ST S A) (Q : A -> S -> Prop) (s : S) : Prop :=
  match m s with
  | Some (a, s') => Q a s'
  | None => False
  end.

Section wp_rules.
Context {S : Type}.

Lemma wp_ret {A} (a : A) (Q : A -> S -> Prop) s : Q a s -> wp (mret a) Q s.
Proof. done. Qed.

Lemma wp_bind {A B} (m : ST S A) (f : A -> ST S B) (Q : B -> S -> Prop) s :
  wp m (fun a => wp (f a) Q) s -> wp (m ≫= f) Q s.
Proof. unfold wp, mbind, st_bind. by destruct (m s) as [[a s']|]. Qed.

Lemma wp_gets {A} (f : S -> A) (Q : A -> S -> Prop) s : Q (f s) s -> wp (gets f) Q s.
Proof. done. Qed.

Lemma wp_modify (f : S -> S) (Q : unit -> S -> Prop) s : Q tt (f s) -> wp (modify f) Q s.
Proof. done. Qed.

Lemma wp_mono {A} (m : ST S A) (P Q : A -> S -> Prop) s :
  wp m P s -> (forall a s', P a s' -> Q a s') -> wp m Q s.
Proof. unfold wp. destruct (m s) as [[a s']|]; auto. Qed.

Lemma wp_and {A} (m : ST S A) (P Q : A -> S -> Prop) s :
  wp m P s -> wp m Q s -> wp m (fun a s' => P a s' /\ Q a s') s.
Proof. unfold wp. destruct (m s) as [[a s']|]; auto. Qed.

(** A loop whose invariant speaks of the elements already visited. *)
Lemma wp_foldM_prefix {A B} (f : A -> B -> ST S A) (I : list B -> A -> S -> Prop) (l : list B) acc s :
  (forall pre a x post t, l = pre ++ x :: post -> I pre a t -> wp (f a x) (I (pre ++ [x])) t) ->
  I [] acc s -> wp (foldM f acc l) (I l) s.
Proof.
  intros Hf. assert (H : forall post pre a t, l = pre ++ post -> I pre a t -> wp (foldM f a post) (I l) t); [|by apply H].
  induction post as [|x post IH]; intros pre a t Hl HI.
  - rewrite app_nil_r in Hl. by subst.
  - cbn [foldM]. apply wp_bind. eapply wp_mono; [by eapply Hf|]. intros a' t' HI'.
    apply (IH (pre ++ [x])); [by rewrite <- app_assoc|done].
Qed.

Lemma wp_foldM {A B} (f : A -> B -> ST S A) (I : A -> S -> Prop) (l : list B) acc s :
  (forall a x t, x ∈ l -> I a t -> wp (f a x) I t) -> I acc s -> wp (foldM f acc l) I s.
Proof.
  revert acc s. induction l as [|x l IH]; intros acc s Hf HI; [done|].
  cbn [foldM]. apply wp_bind. eapply wp_mono; [apply Hf; [left|done]|].
  intros a t Ha. apply IH; [|done]. intros; apply Hf; [by right|done].
Qed.

Lemma wp_run {A} (m : ST S A) (Q : A -> S -> Prop) s :
  wp m Q s <-> exists a s', m s = Some (a, s') /\ Q a s'.
Proof.
  unfold wp. destruct (m s) as [[a s']|]; split; [eauto| |done|].
  - by intros (? & ? & [= <- <-] & ?).
  - by intros (? & ? & ? & ?).
Qed.
End wp_rules.

Lemma wp_zoom {S T A} (get : S -> T) (put : T -> S -> S) (m : ST T A) (Q : A -> S -> Prop) s :
  wp m (fun a t => Q a (put t s)) (get s) -> wp (zoom get put m) Q s.
Proof. unfold wp, zoom. by destruct (m (get s)) as [[a t]|]. Qed.

(** Partial correctness: if the operation returns, its result and final state
    satisfy [Q].  Used where the callee may fail to return. *)
Definition wlp {S A} (m : ST S A) (Q : A -> S -> Prop) (s : S) : Prop :=
  forall a s', m s = Some (a, s') -> Q a s'.

Section wlp_rules.
Context {S : Type}.

Lemma wlp_ret {A} (a : A) (Q : A -> S -> Prop) s : Q a s -> wlp (mret a) Q s.
Proof. by intros HQ ? ? [= <- <-]. Qed.

Lemma wlp_bind {A B} (m : ST S A) (f : A -> ST S B) (Q : B -> S -> Prop) s :
  wlp m (fun a => wlp (f a) Q) s -> wlp (m ≫= f) Q s.
Proof.
  intros Hm b s'. unfold mbind, st_bind. destruct (m s) as [[a s1]|] eqn:E; [|done]. by apply (Hm a s1).
Qed.

Lemma wlp_gets {A} (f : S -> A) (Q : A -> S -> Prop) s : Q (f s) s -> wlp (gets f) Q s.
Proof. by intros HQ ? ? [= <- <-]. Qed.

Lemma wlp_modify (f : S -> S) (Q : unit -> S -> Prop) s : Q tt (f s) -> wlp (modify f) Q s.
Proof. by intros HQ ? ? [= <- <-]. Qed.

Lemma wlp_mono {A} (m : ST S A) (P Q : A -> S -> Prop) s :
  wlp m P s -> (forall a s', P a s' -> Q a s') -> wlp m Q s.
Proof. intros Hm HPQ a s' H. by apply HPQ, Hm. Qed.

Lemma wlp_run {A} (m : ST S A) (Q : A -> S -> Prop) s a s' : wlp m Q s -> m s = Some (a, s') -> Q a s'.
Proof. auto. Qed.

Lemma wlp_foldM {A B} (f : A -> B -> ST S A) (I : A -> S -> Prop) (l : list B) acc s :
  (forall a x t, x ∈ l -> I a t -> wlp (f a x) I t) -> I acc s -> wlp (foldM f acc l) I s.
Proof.
  revert acc s. induction l as [|x l IH]; intros acc s Hf HI; [by apply wlp_ret|].
  cbn [foldM]. apply wlp_bind. eapply wlp_mono; [apply Hf; [left|done]|].
  intros a t Ha. apply IH; [|done]. intros; apply Hf; [by right|done].
Qed.
End wlp_rules.

Lemma wlp_zoom {S T A} (get : S -> T) (put : T -> S -> S) (m : ST T A) (Q : A -> S -> Prop) s :
  wlp m (fun a t => Q a (put t s)) (get s) -> wlp (zoom get put m) Q s.
Proof.
  intros Hm a s'. unfold zoom. destruct (m (get s)) as [[x t]|] eqn:E; [|done]. intros [= <- <-]. by apply Hm.
Qed.

Lemma wlp_true {S A} (m : ST S A) s : wlp m (fun _ _ => True) s.
Proof. done. Qed.

(** One symbolic step of a method body. *)
Ltac wp_step :=
  lazymatch goal with
  | |- wp (_ ≫= _) _ _ => apply wp_bind
  | |- wp (mret _) _ _ => apply wp_ret
  | |- wp (gets _) _ _ => apply wp_gets; cbn [fst snd]
  | |- wp (modify _) _ _ => apply wp_modify; cbn [fst snd]
  | |- wp (let _ := _ in _) _ _ => cbv zeta
  | |- wp ((fun _ => _) _) _ _ => cbv beta
  end.
Ltac wp_steps := repeat wp_step.

(** ** Ranging over a map

    Go iterates over a map in an unspecified order.  The order is an input: a
    tape of numbers that selects, digit by digit, one of the permutations of the
    keys.  Every permutation is selected by some tape. *)
Definition insert_at {A} (n : nat) (x : A) (l : list A) : list A := take n l ++ x :: drop n l.

Fixpoint arrange {A} (tape : nat -> nat) (pos : nat) (l : list A) : list A :=
  match l with
  | [] => []
  | x :: l' =>
      let r := arrange tape (S pos) l' in
      insert_at (tape pos mod S (length r))%nat x r
  end.

Lemma insert_at_Permutation {A} n (x : A) l : insert_at n x l ≡ₚ x :: l.
Proof. unfold insert_at. by rewrite <- Permutation_middle, take_drop. Qed.

Lemma arrange_Permutation {A} tape pos (l : list A) : arrange tape pos l ≡ₚ l.
Proof.
  revert pos. induction l as [|x l IH]; intros pos; [done|].
  etransitivity; [apply insert_at_Permutation|by rewrite IH].
Qed.

Definition map_keys {A} (m : gmap string A) : list string := (map_to_list m).*1.

Lemma elem_of_map_keys {A} (m : gmap string A) k : k ∈ map_keys m <-> is_Some (m !! k).
Proof.
  unfold map_keys. rewrite list_elem_of_fmap. split.
  - intros ([k' v] & -> & H%elem_of_map_to_list). eauto.
  - intros [v H]. exists (k, v). split; [done|by apply elem_of_map_to_list].
Qed.

Lemma NoDup_map_keys {A} (m : gmap string A) : NoDup (map_keys m).
Proof. apply NoDup_fst_map_to_list. Qed.

(** ** Strings *)

Definition str_le (a b : string) : Prop := String.leb a b = true.

#[export] Instance str_le_dec : RelDecision str_le.
Proof. intros a b. unfold str_le. apply _. Defined.

Lemma ascii_compare_N a b : Ascii.compare a b = N.compare (N_of_ascii a) (N_of_ascii b).
Proof. done. Qed.

Lemma string_compare_trans a b c :
  String.compare a b <> Gt -> String.compare b c <> Gt -> String.compare a c <> Gt.
Proof.
  revert b c. induction a as [|x a IH]; intros [|y b] [|z c]; cbn; try done.
  rewrite !ascii_compare_N.
  destruct (N.compare_spec (N_of_ascii x) (N_of_ascii y));
  destruct (N.compare_spec (N_of_ascii y) (N_of_ascii z));
  destruct (N.compare_spec (N_of_ascii x) (N_of_ascii z)); try done; try lia; eauto.
Qed.

#[export] Instance str_le_trans : Transitive str_le.
Proof.
  intros a b c. unfold str_le, String.leb.
  pose proof (string_compare_trans a b c).
  destruct (String.compare a b), (String.compare b c), (String.compare a c); naive_solver.
Qed.

#[export] Instance str_le_total : Total str_le.
Proof. intros a b. unfold str_le. destruct (String.leb_total a b); auto. Qed.

#[export] Instance str_le_antisym : AntiSymm (=) str_le.
Proof. intros a b. unfold str_le. apply String.leb_antisym. Qed.

Lemma string_compare_refl a : String.compare a a = Eq.
Proof. induction a as [|x a IH]; [done|]. cbn. by rewrite ascii_compare_N, N.compare_refl. Qed.

(** [a < b] on strings, byte-wise as in Go. *)
Definition str_ltb (a b : string) : bool := String.ltb a b.

Lemma str_ltb_irrefl a : str_ltb a a = false.
Proof.
  unfold str_ltb, String.ltb.
  by rewrite string_compare_refl.
Qed.

Lemma str_ltb_not_le a b : str_ltb a b = false <-> str_le b a.
Proof.
  unfold str_ltb, String.ltb, str_le, String.leb.
  rewrite (String.compare_antisym a b). by destruct (String.compare b a).
Qed.

(** Go's [sort.Strings]. *)
Definition sort_strings : list string -> list string := merge_sort str_le.

Lemma sort_strings_Permutation l : sort_strings l ≡ₚ l.
Proof. apply merge_sort_Permutation. Qed.

Lemma sort_strings_sorted l : StronglySorted str_le (sort_strings l).
Proof. apply (StronglySorted_merge_sort _). Qed.

(** Sorting forgets the order in which the strings were collected. *)
Lemma sort_strings_unique l1 l2 : l1 ≡ₚ l2 -> sort_strings l1 = sort_strings l2.
Proof.
  intros H. apply (StronglySorted_unique str_le);
    [apply sort_strings_sorted..|]. by rewrite !sort_strings_Permutation.
Qed.

Lemma elem_of_sort_strings x l : x ∈ sort_strings l <-> x ∈ l.
Proof. by rewrite sort_strings_Permutation. Qed.

Lemma string_app_assoc (a b c : string) : (a +:+ b) +:+ c = a +:+ (b +:+ c).
Proof. induction a as [|x a IH]; [done|]. exact (f_equal (String x) IH). Qed.

Lemma string_length_app (a b : string) : String.length (a +:+ b) = (String.length a + String.length b)%nat.
Proof. induction a as [|x a IH]; [done|]. exact (f_equal Datatypes.S IH). Qed.

(** [fmt.Sprintf("%d", z)]. *)
Definition itoa (z : Z) : string := pretty z.

Definition HasPrefix (s prefix : string) : bool := String.prefix prefix s.

Definition TrimPrefix (s prefix : string) : string :=
  if HasPrefix s prefix
  then String.substring (String.length prefix) (String.length s - String.length prefix) s
  else s.

(** [strings.Contains]. *)
Fixpoint Contains (s fragment : string) : bool :=
  String.prefix fragment s ||
  match s with
  | EmptyString => false
  | String _ s' => Contains s' fragment
  end.

(** [strings.TrimSpace]: the UTF-8 encodings of the runes of Unicode's
    [White_Space], removed at both ends. *)
Definition of_bytes (l : list nat) : string := String.string_of_list_ascii (ascii_of_nat <$> l).

Definition spaces : list string :=
  of_bytes <$>
    ([[32]; [9]; [10]; [11]; [12]; [13]; [194; 133]; [194; 160]; [225; 154; 128];
      [226; 128; 168]; [226; 128; 169]; [226; 128; 175]; [226; 129; 159]; [227; 128; 128]]
     ++ ((fun n => [226; 128; 128 + n]) <$> seq 0 11))%nat.

Fixpoint strip_prefixes (ps : list string) (fuel : nat) (s : string) : string :=
  match fuel with
  | O => s
  | S fuel' =>
      match List.find (HasPrefix s) ps with
      | Some p => strip_prefixes ps fuel' (TrimPrefix s p)
      | None => s
      end
  end.

Definition string_rev (s : string) : string :=
  String.string_of_list_ascii (reverse (String.list_ascii_of_string s)).

Definition TrimSpace (s : string) : string :=
  let l := strip_prefixes spaces (String.length s) s in
  string_rev (strip_prefixes (string_rev <$> spaces) (String.length l) (string_rev l)).

Example TrimSpace_ex : TrimSpace ("  node-a " +:+ of_bytes [227; 128; 128]%nat) = "node-a".
Proof. reflexivity. Qed.

(** The test [strings.TrimSpace(s) == "" || s != strings.TrimSpace(s)] that
    the code uses to reject an identifier. *)
Definition bad_name (s : string) : bool :=
  bool_decide (TrimSpace s = EmptyString) || negb (bool_decide (s = TrimSpace s)).

(** ** The environment of a process

    What the operating system and the standard library decide: the readings of
    the clock (nanoseconds; 0 is Go's zero [time.Time]), the iteration orders of
    maps, the time zone used by [time.RFC3339], and the stream of numbers a
    seeded [math/rand] source produces. *)
Record Env := mkEnv {
  clk : nat -> Z;
  clk_pos : nat;
  ord : nat -> nat;
  ord_pos : nat;
  rfc3339 : Z -> string;
  rand_source : Z -> nat -> Z
}.

Definition Second : Z := 1000000000.
Definition Millisecond : Z := 1000000.

(** [t.Sub(u)] on times: a [time.Duration], which saturates. *)
Definition Sub (t u : Z) : Z := Z.max (- 2^63) (Z.min (2^63 - 1) (t - u)).

(** [t.IsZero()] *)
Definition IsZero (t : Z) : bool := t =? 0.

Section env_ops.
Context {S : Type} (getE : S -> Env) (putE : Env -> S -> S).

(** [time.Now()] *)
Definition now : ST S Z := fun s =>
  let e := getE s in
  Some (clk e (clk_pos e),
        putE (mkEnv (clk e) (clk_pos e + 1)%nat (ord e) (ord_pos e) (rfc3339 e) (rand_source e)) s).

(** The order in which one [for range] loop visits the given keys. *)
Definition range_order {A} (l : list A) : ST S (list A) := fun s =>
  let e := getE s in
  Some (arrange (ord e) (ord_pos e) l,
        putE (mkEnv (clk e) (clk_pos e) (ord e) (ord_pos e + length l)%nat (rfc3339 e) (rand_source e)) s).
End env_ops.

Create HintDb go.
#[export] Hint Rewrite @elem_of_map_keys elem_of_sort_strings : go.
#[export] Hint Resolve i64_range i32_range u64_range : go.
