(* ===== verification/Protocol.v ===== *)
(** * Shared domain types and constants

    The constants, read models and persistent records of [protocol/message.go],
    with the object pool's reset function. *)

From stdpp Require Import base strings list.
From S2P Require Import Prelude.

Open Scope Z_scope.

Definition GatewayAddr : string := "127.0.0.1:9310".

Definition MapWidth : Z := 56.
Definition MapHeight : Z := 24.
Definition InitHP : Z := 120.
Definition InitAttack : Z := 35.
Definition AttackRange : Z := 2.
Definition BossAtkRange : Z := 4.
Definition NPCDamage : Z := 18.
Definition HealAmount : Z := 30.
Definition MaxPotions : Z := 3.
Definition PotionCap : Z := 8.
Definition PotionPrice : Z := 3.
Definition WeaponPrice : Z := 8.
Definition WeaponBoost : Z := 6.
Definition MinNPCs : Z := 5.
Definition MaxTreasures : Z := 8.

Definition DirUp : string := "up".
Definition DirDown : string := "down".
Definition DirLeft : string := "left".
Definition DirRight : string := "right".

(** [protocol.PlayerView] *)
Record PlayerView := mkPlayerView {
  pv_Username : string;
  pv_MapID : string;
  pv_X : Z;
  pv_Y : Z;
  pv_HP : Z;
  pv_MaxHP : Z;
  pv_Attack : Z;
  pv_Potions : Z;
  pv_Treasures : Z;
  pv_Kills : Z;
  pv_Deaths : Z;
  pv_Victories : Z;
  pv_Alive : bool;
  pv_RespawnIn : Z;
  pv_LastUpdate : string
}.

(** [protocol.NPCView] *)
Record NPCView := mkNPCView {
  nv_ID : string;
  nv_Name : string;
  nv_X : Z;
  nv_Y : Z;
  nv_HP : Z;
  nv_MaxHP : Z;
  nv_Attack : Z;
  nv_Alive : bool
}.

(** [protocol.TreasureView] *)
Record TreasureView := mkTreasureView {
  tv_ID : string;
  tv_Kind : string;
  tv_X : Z;
  tv_Y : Z;
  tv_Value : Z
}.

(** [protocol.MapBrief] *)
Record MapBrief := mkMapBrief {
  mb_ID : string;
  mb_Name : string;
  mb_NodeID : string;
  mb_Players : Z;
  mb_NPCs : Z;
  mb_Treasures : Z;
  mb_Version : Z;
  mb_Primary : bool;
  mb_IsCurrent : bool;
  mb_Checkpoint : Z
}.

Definition set_mb_IsCurrent (v0 : bool) (r : MapBrief) : MapBrief :=
  mkMapBrief (mb_ID r) (mb_Name r) (mb_NodeID r) (mb_Players r) (mb_NPCs r) (mb_Treasures r) (mb_Version r) (mb_Primary r) v0 (mb_Checkpoint r).

(** [protocol.NodeView] *)
Record NodeView := mkNodeView {
  nodev_ID : string;
  nodev_Addr : string;
  nodev_Healthy : bool;
  nodev_PrimaryMaps : list string;
  nodev_LastHeartbeat : string
}.

(** [protocol.GatewayStatus] *)
Record GatewayStatus := mkGatewayStatus {
  gs_Summary : string;
  gs_RoutingReady : bool;
  gs_TopologyVersion : Z;
  gs_Nodes : list NodeView
}.

(** [protocol.MapView] *)
Record MapView := mkMapView {
  mv_ID : string;
  mv_Name : string;
  mv_NodeID : string;
  mv_Width : Z;
  mv_Height : Z;
  mv_Terrain : list string;
  mv_Players : list PlayerView;
  mv_NPCs : list NPCView;
  mv_Treasures : list TreasureView;
  mv_Version : Z
}.

(** [protocol.BossSite] *)
Record BossSite := mkBossSite {
  bs_MapID : string;
  bs_X : Z;
  bs_Y : Z
}.

(** [protocol.BossState]; [boss_RespawnAt] is a time in nanoseconds *)
Record BossState := mkBossState {
  boss_Name : string;
  boss_Alive : bool;
  boss_LastHit : string;
  boss_RespawnAt : Z;
  boss_AttackGap : Z;
  boss_Sites : list BossSite;
  boss_Version : Z
}.

(** [protocol.BossView] *)
Record BossView := mkBossView {
  bv_Name : string;
  bv_HP : Z;
  bv_MaxHP : Z;
  bv_Alive : bool;
  bv_LastHit : string;
  bv_RespawnIn : Z;
  bv_AttackGap : Z;
  bv_Sites : list BossSite;
  bv_Version : Z
}.

(** [protocol.WorldState] *)
Record WorldState := mkWorldState {
  ws_Self : PlayerView;
  ws_Map : MapView;
  ws_Maps : list MapBrief;
  ws_Nodes : list NodeView;
  ws_Boss : BossView;
  ws_Events : list string;
  ws_SessionVersion : Z;
  ws_TopologyVersion : Z;
  ws_MapEpoch : Z
}.

(** [protocol.UserProfile] *)
Record UserProfile := mkUserProfile {
  up_Username : string;
  up_PasswordHash : string;
  up_LastMap : string;
  up_LastNode : string;
  up_X : Z;
  up_Y : Z;
  up_HP : Z;
  up_MaxHP : Z;
  up_Attack : Z;
  up_Potions : Z;
  up_Treasures : Z;
  up_Kills : Z;
  up_Deaths : Z;
  up_Victories : Z;
  up_Alive : bool
}.

Definition set_up_last (v0 : string) (v1 : string) (r : UserProfile) : UserProfile :=
  mkUserProfile (up_Username r) (up_PasswordHash r) v0 v1 (up_X r) (up_Y r) (up_HP r) (up_MaxHP r) (up_Attack r) (up_Potions r) (up_Treasures r) (up_Kills r) (up_Deaths r) (up_Victories r) (up_Alive r).

(** [protocol.HotSession] *)
Record HotSession := mkHotSession {
  hs_Username : string;
  hs_MapID : string;
  hs_NodeID : string;
  hs_X : Z;
  hs_Y : Z;
  hs_HP : Z;
  hs_Treasures : Z;
  hs_SessionVersion : Z;
  hs_UpdatedAt : Z
}.

(** [protocol.MapCheckpoint] *)
Record MapCheckpoint := mkMapCheckpoint {
  cp_MapID : string;
  cp_NodeID : string;
  cp_MapEpoch : Z;
  cp_Version : Z;
  cp_Terrain : list string;
  cp_Players : list PlayerView;
  cp_NPCs : list NPCView;
  cp_Treasures : list TreasureView;
  cp_Checkpoint : Z
}.

Definition set_cp_MapEpoch (v0 : Z) (r : MapCheckpoint) : MapCheckpoint :=
  mkMapCheckpoint (cp_MapID r) (cp_NodeID r) v0 (cp_Version r) (cp_Terrain r) (cp_Players r) (cp_NPCs r) (cp_Treasures r) (cp_Checkpoint r).

(** The zero values of the structs (Go's [T{}]). *)
Definition zero_PlayerView : PlayerView := mkPlayerView "" "" 0 0 0 0 0 0 0 0 0 0 false 0 "".
Definition zero_MapView : MapView := mkMapView "" "" "" 0 0 [] [] [] [] 0.
Definition zero_BossView : BossView := mkBossView "" 0 0 false "" 0 0 [] 0.
Definition zero_BossState : BossState := mkBossState "" false "" 0 0 [] 0.
Definition zero_WorldState : WorldState :=
  mkWorldState zero_PlayerView zero_MapView [] [] zero_BossView [] 0 0 0.
Definition zero_UserProfile : UserProfile := mkUserProfile "" "" "" "" 0 0 0 0 0 0 0 0 0 0 false.
Definition zero_NPCView : NPCView := mkNPCView "" "" 0 0 0 0 0 false.
Definition zero_TreasureView : TreasureView := mkTreasureView "" "" 0 0 0.
Definition zero_MapBrief : MapBrief := mkMapBrief "" "" "" 0 0 0 0 false false 0.
Definition zero_BossSite : BossSite := mkBossSite "" 0 0.
Definition zero_NodeView : NodeView := mkNodeView "" "" false [] "".

(** [protocol.FreeWorldState], up to the call of [Put]: every slice is truncated
    to length zero and every scalar is cleared, field by field. *)
Definition FreeWorldState (ws : WorldState) : WorldState :=
  let map := mkMapView "" "" "" 0 0
               (take 0 (mv_Terrain (ws_Map ws))) (take 0 (mv_Players (ws_Map ws)))
               (take 0 (mv_NPCs (ws_Map ws))) (take 0 (mv_Treasures (ws_Map ws))) 0 in
  let boss := mkBossView "" 0 0 false "" 0 0 (take 0 (bv_Sites (ws_Boss ws))) 0 in
  mkWorldState zero_PlayerView map (take 0 (ws_Maps ws)) (take 0 (ws_Nodes ws)) boss
    (take 0 (ws_Events ws)) 0 0 0.

(** The pool keeps freed objects; [Get] returns one of them (selected by
    [choice]) or, when it has none to give, a fresh zero object. *)
Definition AllocWorldState (choice : nat) (pool : list WorldState) : WorldState * list WorldState :=
  match pool !! choice with
  | Some ws => (ws, take choice pool ++ drop (S choice) pool)
  | None => (zero_WorldState, pool)
  end.

Definition PutWorldState (ws : option WorldState) (pool : list WorldState) : list WorldState :=
  match ws with
  | None => pool
  | Some ws => FreeWorldState ws :: pool
  end.
