(* ===== verification/Config.v ===== *)
(** * Configuration

    [config/runtime.go] and [config/config.go]: the timing parameters with their
    validation, and the settings read from the process environment.  Durations
    are [int64] nanoseconds.  The YAML decoder is a third-party library and a
    parameter of the model. *)

From Stdlib Require Import ZArith Lia String Ascii.
From stdpp Require Import base gmap strings list sorting option.
From S2P Require Import Prelude.

Open Scope char_scope.
Open Scope string_scope.
Open Scope Z_scope.
Open Scope go_scope.

#[export] Instance in_i64_dec z : Decision (in_i64 z).
Proof. unfold in_i64. apply _. Defined.

(** ** Runtime parameters *)

(** [config.LeaderElectionConfig] *)
Record LeaderElectionConfig := mkLeaderElectionConfig {
  le_LeaseTTL : Z;
  le_RenewInterval : Z;
  le_CampaignRetryInterval : Z
}.

(** [config.NodeRegistryConfig] *)
Record NodeRegistryConfig := mkNodeRegistryConfig {
  nrc_HeartbeatInterval : Z;
  nrc_LeaseTTL : Z
}.

(** [config.CoordinatorConfig] *)
Record CoordinatorConfig := mkCoordinatorConfig {
  cc_DiscoveryInterval : Z;
  cc_HealthCheckInterval : Z;
  cc_NodePingTimeout : Z;
  cc_LeaderRetryInterval : Z;
  cc_BossReconcileInterval : Z
}.

(** [config.NodeConfig] *)
Record NodeConfig := mkNodeConfig {
  nc_TopologyRefreshInterval : Z;
  nc_TopologyAuthorityGrace : Z;
  nc_WorldTickInterval : Z;
  nc_HotSessionFlushInterval : Z;
  nc_DrainPollInterval : Z;
  nc_DrainTimeout : Z
}.

(** [config.GatewayConfig] *)
Record GatewayConfig := mkGatewayConfig {
  gc_TopologyRefreshInterval : Z;
  gc_MapSnapshotRefreshInterval : Z;
  gc_StreamStateInterval : Z;
  gc_NodeRPCTimeout : Z
}.

(** [config.HTTPConfig] *)
Record HTTPConfig := mkHTTPConfig {
  hc_LifecycleReadHeaderTimeout : Z;
  hc_PprofEnabled : bool;
  hc_PprofAddr : string
}.

(** [config.RuntimeConfig] *)
Record RuntimeConfig := mkRuntimeConfig {
  rc_Version : Z;
  rc_LeaderElection : LeaderElectionConfig;
  rc_NodeRegistry : NodeRegistryConfig;
  rc_Coordinator : CoordinatorConfig;
  rc_Node : NodeConfig;
  rc_Gateway : GatewayConfig;
  rc_HTTP : HTTPConfig
}.

Definition DefaultRuntime : RuntimeConfig :=
  mkRuntimeConfig 1
    (mkLeaderElectionConfig (3 * Second) Second (200 * Millisecond))
    (mkNodeRegistryConfig (3 * Second) (5 * Second))
    (mkCoordinatorConfig Second Second (500 * Millisecond) (250 * Millisecond) Second)
    (mkNodeConfig (500 * Millisecond) (2 * Second) (700 * Millisecond) (10 * Second) (100 * Millisecond) (30 * Second))
    (mkGatewayConfig (500 * Millisecond) (150 * Millisecond) (100 * Millisecond) (500 * Millisecond))
    (mkHTTPConfig (5 * Second) true "localhost:6060").

Inductive config_err :=
  | ErrConfigVersion (version : Z)
  | ErrNotPositive (name : string) (value : Z)
  | ErrRenewInterval
  | ErrHeartbeatInterval
  | ErrPingTimeout
  | ErrGrace
  | ErrPprofAddr
  | ErrConfigRead
  | ErrConfigParse
  | ErrConfigInvalid (reason : config_err).

(** The map literal that [Validate] ranges over. *)
Definition durations (c : RuntimeConfig) : list (string * Z) :=
  [("leader_election.lease_ttl", le_LeaseTTL (rc_LeaderElection c));
   ("leader_election.renew_interval", le_RenewInterval (rc_LeaderElection c));
   ("leader_election.campaign_retry_interval", le_CampaignRetryInterval (rc_LeaderElection c));
   ("node_registry.heartbeat_interval", nrc_HeartbeatInterval (rc_NodeRegistry c));
   ("node_registry.lease_ttl", nrc_LeaseTTL (rc_NodeRegistry c));
   ("coordinator.discovery_interval", cc_DiscoveryInterval (rc_Coordinator c));
   ("coordinator.health_check_interval", cc_HealthCheckInterval (rc_Coordinator c));
   ("coordinator.node_ping_timeout", cc_NodePingTimeout (rc_Coordinator c));
   ("coordinator.leader_retry_interval", cc_LeaderRetryInterval (rc_Coordinator c));
   ("coordinator.boss_reconcile_interval", cc_BossReconcileInterval (rc_Coordinator c));
   ("node.topology_refresh_interval", nc_TopologyRefreshInterval (rc_Node c));
   ("node.topology_authority_grace", nc_TopologyAuthorityGrace (rc_Node c));
   ("node.world_tick_interval", nc_WorldTickInterval (rc_Node c));
   ("node.hot_session_flush_interval", nc_HotSessionFlushInterval (rc_Node c));
   ("node.drain_poll_interval", nc_DrainPollInterval (rc_Node c));
   ("node.drain_timeout", nc_DrainTimeout (rc_Node c));
   ("gateway.topology_refresh_interval", gc_TopologyRefreshInterval (rc_Gateway c));
   ("gateway.map_snapshot_refresh_interval", gc_MapSnapshotRefreshInterval (rc_Gateway c));
   ("gateway.stream_state_interval", gc_StreamStateInterval (rc_Gateway c));
   ("gateway.node_rpc_timeout", gc_NodeRPCTimeout (rc_Gateway c));
   ("http.lifecycle_read_header_timeout", hc_LifecycleReadHeaderTimeout (rc_HTTP c))].

(** [RuntimeConfig.Validate]; [tape] is the iteration order of the map literal. *)
Definition ValidateRuntime (tape : nat -> nat) (c : RuntimeConfig) : option config_err :=
  if negb (rc_Version c =? 1) then Some (ErrConfigVersion (rc_Version c)) else
  match List.find (fun '(_, value) => value <=? 0) (arrange tape 0 (durations c)) with
  | Some (name, value) => Some (ErrNotPositive name value)
  | None =>
      if le_LeaseTTL (rc_LeaderElection c) <=? le_RenewInterval (rc_LeaderElection c) then Some ErrRenewInterval else
      if nrc_LeaseTTL (rc_NodeRegistry c) <=? nrc_HeartbeatInterval (rc_NodeRegistry c) then Some ErrHeartbeatInterval else
      if cc_HealthCheckInterval (rc_Coordinator c) <=? cc_NodePingTimeout (rc_Coordinator c) then Some ErrPingTimeout else
      if nc_TopologyAuthorityGrace (rc_Node c) <? 2 *i nc_TopologyRefreshInterval (rc_Node c) then Some ErrGrace else
      if hc_PprofEnabled (rc_HTTP c) && bool_decide (hc_PprofAddr (rc_HTTP c) = "") then Some ErrPprofAddr else None
  end.

(** What reading the file gives. *)
Inductive file := Missing | Unreadable | Content (data : string).

(** [decode defaults data] is the YAML decoder run on a value that already holds
    the defaults. *)
Definition LoadRuntimeFile (decode : RuntimeConfig -> string -> option RuntimeConfig) (tape : nat -> nat)
    (f : file) : config_err + RuntimeConfig :=
  match f with
  | Missing => inr DefaultRuntime
  | Unreadable => inl ErrConfigRead
  | Content data =>
      match decode DefaultRuntime data with
      | None => inl ErrConfigParse
      | Some cfg =>
          match ValidateRuntime tape cfg with
          | Some err => inl (ErrConfigInvalid err)
          | None => inr cfg
          end
      end
  end.

(** ** Settings from the environment *)

Section environment.
(** [os.Getenv] *)
Context (Getenv : string -> string).

Definition EnvOr (key def : string) : string :=
  let v := TrimSpace (Getenv key) in
  if bool_decide (v = "") then def else v.

Fixpoint EnvOrAny (def : string) (keys : list string) : string :=
  match keys with
  | [] => def
  | key :: rest =>
      let value := TrimSpace (Getenv key) in
      if bool_decide (value = "") then EnvOrAny def rest else value
  end.

Definition DBHost : string := EnvOrAny "127.0.0.1" ["BATTLEWORLD_STORE_ADDR"; "BW_DB_HOST"].
Definition DBUser : string := EnvOrAny "wu_han_wen" ["BATTLEWORLD_PGUSER"; "BW_DB_USER"; "PGUSER"].
Definition DBPassword : string := EnvOrAny "Wu050601&&" ["BATTLEWORLD_PGPASSWORD"; "BW_DB_PASSWORD"].
Definition DBName : string := EnvOrAny "battleworld" ["BATTLEWORLD_PGDB"; "BW_DB_NAME"].
Definition DBPort : string := EnvOrAny "5432" ["BATTLEWORLD_PGPORT"; "BW_DB_PORT"].

Definition RedisAddr : string :=
  let addr := EnvOrAny "" ["BW_REDIS_ADDR"] in
  if bool_decide (addr = "") then "127.0.0.1:" +:+ EnvOrAny "6379" ["BATTLEWORLD_REDIS_PORT"] else addr.

Definition RedisPassword : string := EnvOrAny "" ["BATTLEWORLD_REDIS_PASSWORD"; "BW_REDIS_PASSWORD"].

(** [strconv.Atoi]: an optional sign and decimal digits, within 64 bits. *)
Fixpoint digits (acc : Z) (s : string) : option Z :=
  match s with
  | EmptyString => Some acc
  | String c s' =>
      let d := Z.of_N (Ascii.N_of_ascii c) - 48 in
      if (0 <=? d) && (d <=? 9) then digits (10 * acc + d) s' else None
  end.

Definition Atoi (s : string) : option Z :=
  let signed (sign : Z) (body : string) :=
    match body with
    | EmptyString => None
    | _ => v ← digits 0 body;
           if bool_decide (in_i64 (sign * v)) then Some (sign * v) else None
    end in
  match s with
  | String "-"%char s' => signed (-1) s'
  | String "+"%char s' => signed 1 s'
  | _ => signed 1 s
  end.

Definition RedisDB : Z :=
  match Atoi (EnvOrAny "0" ["BATTLEWORLD_REDIS_DB"; "BW_REDIS_DB"]) with
  | Some db => if db <? 0 then 0 else db
  | None => 0
  end.

Definition CoordinatorID : string := EnvOrAny "" ["BATTLEWORLD_COORDINATOR_ID"; "BW_COORDINATOR_ID"].
End environment.

(** ** Specification and properties *)

(** The timings the rest of the program relies on. *)
Record runtime_ok (c : RuntimeConfig) : Prop := {
  ro_version : rc_Version c = 1;
  ro_positive : forall name value, (name, value) ∈ durations c -> 0 < value;
  ro_renew : le_RenewInterval (rc_LeaderElection c) < le_LeaseTTL (rc_LeaderElection c);
  ro_heartbeat : nrc_HeartbeatInterval (rc_NodeRegistry c) < nrc_LeaseTTL (rc_NodeRegistry c);
  ro_ping : cc_NodePingTimeout (rc_Coordinator c) < cc_HealthCheckInterval (rc_Coordinator c);
  ro_grace : 2 *i nc_TopologyRefreshInterval (rc_Node c) <= nc_TopologyAuthorityGrace (rc_Node c);
  ro_pprof : hc_PprofEnabled (rc_HTTP c) = true -> hc_PprofAddr (rc_HTTP c) <> ""
}.

Lemma find_none_positive tape c :
  List.find (fun '(_, value) => value <=? 0) (arrange tape 0 (durations c)) = None <->
  forall name value, (name, value) ∈ durations c -> 0 < value.
Proof.
  split.
  - intros H name value Hin. rewrite <- (arrange_Permutation tape 0) in Hin.
    apply list_elem_of_In in Hin. by apply (List.find_none _ _ H), Z.leb_gt in Hin.
  - intros H. destruct (List.find _ _) as [[name value]|] eqn:E; [|done].
    apply List.find_some in E as [Hin%list_elem_of_In Hle]. rewrite arrange_Permutation in Hin.
    specialize (H _ _ Hin). apply Z.leb_le in Hle. lia.
Qed.

Lemma ValidateRuntime_None tape c : ValidateRuntime tape c = None <-> runtime_ok c.
Proof.
  pose proof (find_none_positive tape c) as Hf. unfold ValidateRuntime.
  destruct (Z.eqb_spec (rc_Version c) 1) as [Hv|Hv]; cbn [negb]; [|split; [done|by intros []]].
  destruct (List.find _ _) as [[name value]|].
  { split; [done|]. intros [_ Hp _ _ _ _ _]. by apply Hf in Hp. }
  destruct (Z.leb_spec (le_LeaseTTL (rc_LeaderElection c)) (le_RenewInterval (rc_LeaderElection c)));
    [split; [done|intros []; lia]|].
  destruct (Z.leb_spec (nrc_LeaseTTL (rc_NodeRegistry c)) (nrc_HeartbeatInterval (rc_NodeRegistry c)));
    [split; [done|intros []; lia]|].
  destruct (Z.leb_spec (cc_HealthCheckInterval (rc_Coordinator c)) (cc_NodePingTimeout (rc_Coordinator c)));
    [split; [done|intros []; lia]|].
  destruct (Z.ltb_spec (nc_TopologyAuthorityGrace (rc_Node c)) (2 *i nc_TopologyRefreshInterval (rc_Node c)));
    [split; [done|intros []; lia]|].
  destruct (hc_PprofEnabled (rc_HTTP c)) eqn:Hp; cbn [andb].
  - case_bool_decide as Ha.
    + split; [done|]. intros []. by destruct ro_pprof0.
    + split; [|done]. intros _. constructor; auto. by apply Hf.
  - split; [|done]. intros _. constructor; auto; [by apply Hf|congruence].
Qed.

(** A process starts only with timings that satisfy every relation its
    protocols rely on (positive intervals, renewal within the lease, heartbeats
    within the registration, authority outliving two refreshes), whatever the
    order in which the entries are checked; a missing file means the built-in
    defaults, which satisfy them. *)
Theorem LoadRuntimeFile_ok decode tape f :
  (forall cfg, LoadRuntimeFile decode tape f = inr cfg -> runtime_ok cfg) /\
  (forall data cfg, f = Content data -> decode DefaultRuntime data = Some cfg ->
     (LoadRuntimeFile decode tape f = inr cfg <-> runtime_ok cfg)).
Proof.
  assert (Hd : runtime_ok DefaultRuntime).
  { apply (ValidateRuntime_None (fun _ => 0%nat)). vm_compute. reflexivity. }
  split.
  - intros cfg. unfold LoadRuntimeFile. destruct f; [by intros [= <-]|done|].
    destruct (decode _ _); [|done]. destruct (ValidateRuntime tape _) eqn:E; [done|].
    intros [= <-]. by apply ValidateRuntime_None in E.
  - intros data cfg -> Hdec. cbn. rewrite Hdec, <- (ValidateRuntime_None tape).
    by destruct (ValidateRuntime tape cfg).
Qed.

Lemma LoadRuntimeFile_ok_witness :
  runtime_ok DefaultRuntime /\
  (LoadRuntimeFile (fun d _ => Some d) (fun n => n) (Content "version: 1") = inr DefaultRuntime <-> runtime_ok DefaultRuntime).
Proof.
  split.
  - apply (proj1 (LoadRuntimeFile_ok (fun d _ => Some d) (fun n => n) Missing)). reflexivity.
  - apply (proj2 (LoadRuntimeFile_ok (fun d _ => Some d) (fun n => n) (Content "version: 1")) "version: 1"); reflexivity.
Defined.

Lemma Atoi_range s v : Atoi s = Some v -> in_i64 v.
Proof.
  unfold Atoi. intros H. repeat (case_match; try done); subst;
    match goal with H : _ = Some v |- _ => destruct (digits _ _); cbn in H; [|done] end;
    (case_bool_decide; [by simplify_eq|done]).
Qed.
