(* ===== verification/Durations.v ===== *)
(** * Durations in the configuration

    [Duration.UnmarshalYAML] of [config/runtime.go]: a scalar string of the YAML
    document, read by [time.ParseDuration].  Numbers are [uint64] as in the library; a
    fraction goes through doubles. *)

From Stdlib Require Import ZArith Lia String Ascii.
From stdpp Require Import base strings pretty list option.
From S2P Require Import Prelude Config.

Open Scope Z_scope.
Open Scope go_scope.

(** ** [time.ParseDuration] *)

Definition digit (c : ascii) : option Z :=
  let d := Z.of_N (N_of_ascii c) - 48 in if (0 <=? d) && (d <=? 9) then Some d else None.
Definition is_point (c : ascii) : bool := Ascii.eqb c ".".

(** The digits at the front of a text and the rest; [None] is an overflow. *)
Fixpoint leadingInt (x : Z) (s : string) : option (Z * string) :=
  match s with
  | EmptyString => Some (x, s)
  | String c s' =>
      match digit c with
      | None => Some (x, s)
      | Some d =>
          if 2^63 / 10 <? x then None else
          let x := x * 10 + d in
          if 2^63 <? x then None else leadingInt x s'
      end
  end.

(** The same for the digits after the point: their value, the power of ten it is to be
    divided by, and the rest; digits that do not fit are dropped. *)
Fixpoint leadingFraction (x scale : Z) (overflow : bool) (s : string) : Z * Z * string :=
  match s with
  | EmptyString => (x, scale, s)
  | String c s' =>
      match digit c with
      | None => (x, scale, s)
      | Some d =>
          if overflow then leadingFraction x scale overflow s' else
          if (2^63 - 1) / 10 <? x then leadingFraction x scale true s' else
          let y := x * 10 + d in
          if 2^63 <? y then leadingFraction x scale true s' else leadingFraction y (scale * 10) false s'
      end
  end.

(** The text up to the next digit or point. *)
Fixpoint unit_text (s : string) : string * string :=
  match s with
  | EmptyString => (EmptyString, s)
  | String c s' =>
      if is_point c || bool_decide (is_Some (digit c)) then (EmptyString, s)
      else let '(u, rest) := unit_text s' in (String c u, rest)
  end.

Definition micro_sign : string := of_bytes [194; 181]%nat.
Definition greek_mu : string := of_bytes [206; 188]%nat.
Definition unitMap : list (string * Z) :=
  [("ns", 1); ("us", 1000); (micro_sign +:+ "s", 1000); (greek_mu +:+ "s", 1000); ("ms", Millisecond); ("s", Second);
   ("m", 60 * Second); ("h", 3600 * Second)].

(** The double nearest to [n / d], times [2^121]: enough bits, and one for the rest. *)
Definition fdiv (n d : Z) : Z := f64 (2 * (n * 2^120 / d) + (if (n * 2^120) mod d =? 0 then 0 else 1)).

(** [uint64(float64(f) * (float64(unit) / scale))] *)
Definition fraction (f unit scale : Z) : Z := f64 (f64 f * fdiv unit scale) / 2^121.

Definition starts_number (s : string) : bool :=
  match s with String c _ => is_point c || bool_decide (is_Some (digit c)) | EmptyString => false end.

(** One number with its unit: its value and the rest of the text. *)
Definition parse_part (s : string) : option (Z * string) :=
  if negb (starts_number s) then None else
  '(v, s1) ← leadingInt 0 s;
  let pre := negb (String.length s1 =? String.length s)%nat in
  let '(f, scale, s2, post) :=
    match s1 with
    | String c s' => if is_point c then let '(f, scale, rest) := leadingFraction 0 1 false s' in
                                        (f, scale, rest, negb (String.length rest =? String.length s')%nat)
                     else (0, 1, s1, false)
    | EmptyString => (0, 1, s1, false)
    end in
  if negb pre && negb post then None else
  let '(u, rest) := unit_text s2 in
  if bool_decide (u = EmptyString) then None else
  '(_, unit) ← List.find (fun p => bool_decide (p.1 = u)) unitMap;
  if 2^63 / unit <? v then None else
  let v := v * unit in
  let v := if 0 <? f then v + fraction f unit scale else v in
  if 2^63 <? v then None else Some (v, rest).

(** The loop over the parts; every part takes at least one character. *)
Fixpoint parse_parts (fuel : nat) (d : Z) (s : string) : option Z :=
  match s, fuel with
  | EmptyString, _ => Some d
  | _, O => None
  | _, S fuel =>
      '(v, rest) ← parse_part s;
      let d := d +u v in
      if 2^63 <? d then None else parse_parts fuel d rest
  end.

(** [-Duration(d)] is exact in 64 bits also for [d] = 2^63. *)
Definition ParseDuration (text : string) : option Z :=
  let '(neg, s) :=
    match text with
    | String c s' => if Ascii.eqb c "-" then (true, s') else if Ascii.eqb c "+" then (false, s') else (false, text)
    | EmptyString => (false, text)
    end in
  if bool_decide (s = "0") then Some 0 else
  if bool_decide (s = EmptyString) then None else
  d ← parse_parts (String.length s) 0 s;
  if (neg : bool) then Some (- d) else
  if 2^63 - 1 <? d then None else Some d.

Example durations_ex : ParseDuration <$> ["500ms"; "1h30m"; "1.5s"; "-2s"; "0"; ".5m"; "1.1s"; "s"; "1"; "1x"; "9223372036854775808ns"; "-9223372036854775808ns"; "9223372036854775808ns9223372036854775808ns"; ""] =
  [Some 500000000; Some 5400000000000; Some 1500000000; Some (-2000000000); Some 0; Some 30000000000; Some 1100000000; None; None; None; None;
   Some (-9223372036854775808); Some 0; None].
Proof. vm_compute. reflexivity. Qed.

(** ** [UnmarshalYAML] *)

(** A node of the YAML document: whether it is a scalar, its tag, its text. *)
Record yaml_node := mkYamlNode {
  yn_scalar : bool;
  yn_Tag : string;
  yn_Value : string
}.

Inductive duration_err := ErrNotString | ErrBadDuration (value : string).

Definition UnmarshalYAML (value : yaml_node) : duration_err + Z :=
  if negb (yn_scalar value) || negb (bool_decide (yn_Tag value = "!!str")) then inl ErrNotString else
  match ParseDuration (yn_Value value) with
  | None => inl (ErrBadDuration (yn_Value value))
  | Some parsed => inr parsed
  end.

(** ** Every part takes something *)

Lemma leadingInt_length x s y rest : leadingInt x s = Some (y, rest) -> (String.length rest <= String.length s)%nat.
Proof.
  revert x. induction s as [|c s IH]; intros x; cbn; [by intros [= _ <-]|].
  destruct (digit c); [|by intros [= _ <-]]. do 2 (case_match; [done|]). intros Hx%IH. lia.
Qed.

Lemma leadingFraction_length x scale overflow s : (String.length (leadingFraction x scale overflow s).2 <= String.length s)%nat.
Proof.
  revert x scale overflow. induction s as [|c s IH]; intros x scale overflow; cbn; [done|].
  destruct (digit c); [|cbn; lia]. repeat case_match; etrans; try apply IH; lia.
Qed.

Lemma unit_text_length s u rest : unit_text s = (u, rest) -> (String.length rest + String.length u = String.length s)%nat.
Proof.
  revert u. induction s as [|c s IH]; intros u; cbn; [by intros [= <- <-]|].
  destruct (_ || _); [intros [= <- <-]; cbn; lia|]. destruct (unit_text s) as [u' rest'].
  intros [= <- <-]. specialize (IH u' eq_refl). cbn. lia.
Qed.

Lemma parse_part_length s v rest : parse_part s = Some (v, rest) -> (String.length rest < String.length s)%nat.
Proof.
  unfold parse_part. destruct (negb (starts_number s)); [done|]. destruct (leadingInt 0 s) as [[v0 s1]|] eqn:E1; [|done].
  apply leadingInt_length in E1. cbn [mbind option_bind].
  set (after := match s1 with EmptyString => _ | String _ _ => _ end).
  assert (H2 : (String.length after.1.2 <= String.length s1)%nat).
  { unfold after. destruct s1 as [|c s1']; [done|]. destruct (is_point c); [|done].
    pose proof (leadingFraction_length 0 1 false s1') as H. destruct (leadingFraction 0 1 false s1') as [[f scale] r]. cbn in *. lia. }
  destruct after as [[[f scale] s2] post]. cbn in H2. destruct (_ && _); [done|].
  destruct (unit_text s2) as [u r] eqn:E2. apply unit_text_length in E2. case_bool_decide as Hu; [done|].
  assert (0 < String.length u)%nat by (destruct u; [done|cbn; lia]).
  destruct (List.find _ unitMap) as [[u' unit]|]; [|done]. cbn [mbind option_bind]. do 2 (case_match; [done|]).
  intros [= _ <-]. lia.
Qed.

(** The loop has fuel enough: more of it changes nothing. *)
Lemma parse_parts_fuel fuel : forall s d, (String.length s <= fuel)%nat -> parse_parts fuel d s = parse_parts (String.length s) d s.
Proof.
  enough (H : forall f1 f2 s d, (String.length s <= f1)%nat -> (String.length s <= f2)%nat -> parse_parts f1 d s = parse_parts f2 d s)
    by (intros; by apply H).
  induction f1 as [|f1 IH]; intros f2 s d H1 H2; [destruct s; [by destruct f2|cbn in H1; lia]|].
  destruct s as [|c s]; [by destruct f2|]. destruct f2 as [|f2]; [cbn in H2; lia|].
  cbn [parse_parts]. destruct (parse_part (String c s)) as [[v rest]|] eqn:E; [|done]. apply parse_part_length in E.
  cbn [mbind option_bind]. case_match; [done|]. apply IH; cbn in *; lia.
Qed.

(** ** Bounds *)

Lemma parse_parts_range fuel d s r : 0 <= d <= 2^63 -> parse_parts fuel d s = Some r -> 0 <= r <= 2^63.
Proof.
  revert d s. induction fuel as [|fuel IH]; intros d s Hd; destruct s as [|c s]; cbn [parse_parts]; [by intros [= <-]|done|by intros [= <-]|].
  destruct (parse_part _) as [[v rest]|]; [|done]. cbn [mbind option_bind].
  destruct (Z.ltb_spec (2^63) (d +u v)); [done|]. apply IH. split; [|done]. pose proof (u64_range (d + v)). unfold in_u64 in *. lia.
Qed.

(** A duration that is read fits 64 bits. *)
Lemma ParseDuration_range text d : ParseDuration text = Some d -> in_i64 d.
Proof.
  unfold ParseDuration. set (parsed := match text with EmptyString => _ | String _ _ => _ end). destruct parsed as [neg s].
  case_bool_decide; [by intros [= <-]|]. case_bool_decide; [done|]. destruct (parse_parts _ 0 s) as [r|] eqn:E; [|done].
  apply parse_parts_range in E; [|lia]. cbn [mbind option_bind]. unfold in_i64. destruct neg; [intros [= <-]; lia|].
  destruct (Z.ltb_spec (2^63 - 1) r); [done|]. intros [= <-]. lia.
Qed.

(** ** A duration written in parts is read back *)

Lemma digit_char x : (x < 10)%N -> digit (pretty_N_char x) = Some (Z.of_N x).
Proof.
  intros H. assert (x = 0 \/ x = 1 \/ x = 2 \/ x = 3 \/ x = 4 \/ x = 5 \/ x = 6 \/ x = 7 \/ x = 8 \/ x = 9)%N as Hx by lia.
  by destruct_or! Hx; subst.
Qed.

Lemma pretty_N_go_app n s t : pretty_N_go n s +:+ t = pretty_N_go n (s +:+ t).
Proof.
  revert s. induction (N.lt_wf_0 n) as [n _ IH]; intros s. destruct (decide (n = 0%N)) as [->|Hn]; [by rewrite !pretty_N_go_0|].
  rewrite !(pretty_N_go_step n) by lia. rewrite IH by (apply N.div_lt; lia). done.
Qed.

Lemma leadingInt_go n s : Z.of_N n <= 2^63 -> leadingInt 0 (pretty_N_go n s) = leadingInt (Z.of_N n) s.
Proof.
  revert s. induction (N.lt_wf_0 n) as [n _ IH]; intros s Hn. destruct (decide (n = 0%N)) as [->|Hz]; [by rewrite pretty_N_go_0|].
  rewrite pretty_N_go_step by lia. pose proof (N.div_mod n 10 ltac:(done)) as Hdm. pose proof (N.mod_lt n 10 ltac:(done)) as Hm.
  revert Hdm Hm. generalize (n / 10)%N (n mod 10)%N. intros q r Hdm Hm.
  rewrite IH by lia. cbn [leadingInt]. rewrite digit_char by done.
  replace (Z.of_N q * 10 + Z.of_N r) with (Z.of_N n) by lia. change (2^63 / 10) with 922337203685477580.
  rewrite !(proj2 (Z.ltb_ge _ _)) by lia. done.
Qed.

Lemma starts_go n s : (0 < n)%N \/ starts_number s = true -> starts_number (pretty_N_go n s) = true.
Proof.
  revert s. induction (N.lt_wf_0 n) as [n _ IH]; intros s Hs. destruct (decide (n = 0%N)) as [->|Hn].
  { rewrite pretty_N_go_0. destruct Hs; [lia|done]. }
  rewrite pretty_N_go_step by lia. apply IH; [apply N.div_lt; lia|right]. cbn.
  rewrite digit_char by (apply N.mod_lt; lia). by rewrite orb_true_r.
Qed.

Lemma itoa_pos p : itoa (Z.pos p) = pretty_N_go (N.pos p) EmptyString.
Proof. reflexivity. Qed.

(** What the decimal text of a number followed by [s] is to the reader. *)
Lemma itoa_starts n s : 0 <= n -> starts_number (itoa n +:+ s) = true.
Proof.
  intros Hn. destruct n as [|p|p]; [done| |lia].
  rewrite itoa_pos, pretty_N_go_app. apply starts_go. left. lia.
Qed.

Lemma itoa_leading n s : 0 <= n <= 2^63 -> leadingInt 0 (itoa n +:+ s) = leadingInt n s.
Proof.
  intros Hn. destruct n as [|p|p]; [done| |lia].
  rewrite itoa_pos, pretty_N_go_app. apply (leadingInt_go (N.pos p)). lia.
Qed.

(** A part of a duration: a number and the name of a unit. *)
Definition part_text (p : Z * string) : string := itoa p.1 +:+ p.2.
Definition parts_text (ps : list (Z * string)) : string := foldr (fun p s => part_text p +:+ s) EmptyString ps.
Definition unit_of (u : string) : Z := default 0 (snd <$> List.find (fun p => bool_decide (p.1 = u)) unitMap).
Definition parts_value (ps : list (Z * string)) : Z := foldr (fun p d => p.1 * unit_of p.2 + d) 0 ps.
Definition part_ok (p : Z * string) : Prop := 0 <= p.1 /\ p.2 ∈ unitMap.*1.

Lemma unit_names u : u ∈ unitMap.*1 ->
  u = "ns" \/ u = "us" \/ u = micro_sign +:+ "s" \/ u = greek_mu +:+ "s" \/ u = "ms" \/ u = "s" \/ u = "m" \/ u = "h".
Proof. cbn [unitMap fmap list_fmap fst]. rewrite list_elem_of_In. cbn [In]. intuition congruence. Qed.

Fixpoint unit_word (u : string) : bool :=
  match u with EmptyString => true | String c u' => negb (starts_number u) && unit_word u' end.

Lemma unit_text_word u s : unit_word u = true -> unit_text s = (EmptyString, s) -> unit_text (u +:+ s) = (u, s).
Proof.
  intros Hu Hs. induction u as [|c u IH]; [done|]. change (String c u +:+ s) with (String c (u +:+ s)).
  cbn in Hu |- *. apply andb_true_iff in Hu as [Hc Hu]. apply negb_true_iff in Hc. by rewrite Hc, (IH Hu).
Qed.

Lemma unit_text_app u s : u ∈ unitMap.*1 -> s = EmptyString \/ starts_number s = true -> unit_text (u +:+ s) = (u, s).
Proof.
  intros Hu%unit_names Hs. apply unit_text_word; [by destruct_or! Hu; subst u|].
  destruct Hs as [->|Hs]; [done|]. destruct s as [|c s]; [done|]. cbn in Hs |- *. by rewrite Hs.
Qed.

Lemma unit_of_ok u : u ∈ unitMap.*1 -> exists u', List.find (fun p => bool_decide (p.1 = u)) unitMap = Some (u', unit_of u) /\ 0 < unit_of u.
Proof.
  intros Hu%unit_names. destruct_or! Hu; subst u; eexists; (split; [reflexivity|done]).
Qed.

Lemma unit_front u s : u ∈ unitMap.*1 -> exists c r, u +:+ s = String c r /\ digit c = None /\ is_point c = false.
Proof.
  intros Hu%unit_names. destruct_or! Hu; subst u; eexists _, _; (split; [reflexivity|done]).
Qed.

Lemma parse_part_text p s : part_ok p -> p.1 * unit_of p.2 <= 2^63 -> s = EmptyString \/ starts_number s = true ->
  parse_part (part_text p +:+ s) = Some (p.1 * unit_of p.2, s).
Proof.
  destruct p as [n u]. intros [Hn Hu] Hmax Hs. cbn [fst snd] in *. unfold parse_part, part_text. cbn [fst snd].
  rewrite string_app_assoc. rewrite itoa_starts by done. destruct (unit_of_ok u Hu) as (u' & Hfind & Hpos).
  rewrite itoa_leading by nia. destruct (unit_front u s Hu) as (c & r & Hus & Hc & Hp). rewrite Hus. cbn [leadingInt negb mbind option_bind].
  rewrite Hc. cbn [mbind option_bind]. rewrite Hp, <- Hus.
  assert (0 < String.length (itoa n))%nat by (pose proof (itoa_starts n EmptyString Hn); destruct (itoa n); cbn in *; [done|lia]).
  rewrite !string_length_app, (proj2 (Nat.eqb_neq _ _)) by lia. cbn [negb andb]. rewrite unit_text_app by done. rewrite bool_decide_eq_false_2 by (intros ->; apply unit_names in Hu; by destruct_or! Hu).
  rewrite Hfind. cbn [mbind option_bind].
  rewrite (proj2 (Z.ltb_ge (2^63 / _) _)) by (apply Z.div_le_lower_bound; lia).
  rewrite (proj2 (Z.ltb_ge 0 0)) by lia. by rewrite (proj2 (Z.ltb_ge _ _)) by lia.
Qed.

Lemma parts_value_nonneg ps : Forall part_ok ps -> 0 <= parts_value ps.
Proof.
  induction 1 as [|[n u] ps [Hn Hu] _ IH]; [done|]. destruct (unit_of_ok u Hu) as (? & _ & Hpos). cbn [fst snd] in *.
  change (0 <= n * unit_of u + parts_value ps). nia.
Qed.

Lemma parts_start ps : Forall part_ok ps -> parts_text ps = EmptyString \/ starts_number (parts_text ps) = true.
Proof.
  intros H. destruct H as [|[n u] ps [Hn _] _]; [by left|right]. cbn [parts_text foldr]. unfold part_text.
  rewrite string_app_assoc. by apply itoa_starts.
Qed.

Lemma parse_parts_text ps : forall fuel d, Forall part_ok ps -> (String.length (parts_text ps) <= fuel)%nat -> 0 <= d ->
  d + parts_value ps <= 2^63 -> parse_parts fuel d (parts_text ps) = Some (d + parts_value ps).
Proof.
  induction ps as [|[n u] ps IH]; intros fuel d Hok Hf Hd Hmax; [destruct fuel; cbn; f_equal; lia|].
  apply list.Forall_cons in Hok as [Hp Hok]. pose proof (parts_value_nonneg ps Hok) as Hv. pose proof Hp as [Hn Hu]. cbn [fst snd] in Hn, Hu.
  destruct (unit_of_ok u Hu) as (? & _ & Hpos). change (parts_value ((n, u) :: ps)) with (n * unit_of u + parts_value ps) in *.
  change (parts_text ((n, u) :: ps)) with (part_text (n, u) +:+ parts_text ps) in *.
  assert (Hpart : parse_part (part_text (n, u) +:+ parts_text ps) = Some (n * unit_of u, parts_text ps))
    by (apply (parse_part_text (n, u)); [done|cbn [fst snd]; lia|by apply parts_start]).
  pose proof (parse_part_length _ _ _ Hpart) as Hlen. destruct (part_text (n, u) +:+ parts_text ps) as [|c s]; [cbn in Hlen; lia|].
  destruct fuel as [|fuel]; [cbn in Hf; lia|]. cbn [parse_parts]. rewrite Hpart. cbn [mbind option_bind].
  assert (Hw : d +u n * unit_of u = d + n * unit_of u) by (apply u64_id; unfold in_u64; nia).
  rewrite Hw, (proj2 (Z.ltb_ge _ _)) by lia. rewrite IH; [f_equal; lia|done|cbn in *; lia|nia|lia].
Qed.


Lemma part_text_long p s : part_ok p -> (2 <= String.length (part_text p +:+ s))%nat.
Proof.
  intros [Hn Hu]. unfold part_text. rewrite !string_length_app.
  pose proof (itoa_starts p.1 EmptyString Hn) as Hi. destruct (itoa p.1); [done|]. cbn [String.length].
  apply unit_names in Hu. destruct_or! Hu; rewrite Hu; change (String.length (micro_sign +:+ "s")) with 3%nat;
    change (String.length (greek_mu +:+ "s")) with 3%nat; cbn [String.length]; lia.
Qed.

Lemma parts_text_front p ps : part_ok p -> exists c s, parts_text (p :: ps) = String c s /\ s <> EmptyString /\
  Ascii.eqb c "-" = false /\ Ascii.eqb c "+" = false.
Proof.
  intros Hp. change (parts_text (p :: ps)) with (part_text p +:+ parts_text ps). pose proof (part_text_long p (parts_text ps) Hp) as Hl.
  assert (Hs : starts_number (part_text p +:+ parts_text ps) = true)
    by (unfold part_text; rewrite string_app_assoc; apply itoa_starts; apply Hp).
  destruct (part_text p +:+ parts_text ps) as [|c s]; [done|]. exists c, s. split; [done|]. split; [by intros ->; cbn in Hl; lia|].
  split; apply not_true_iff_false; intros ->%Ascii.eqb_eq; done.
Qed.

(** A duration written as numbers with units, such as [1h30m], is read as their sum: with
    a sign or without, exactly when the sum fits 64 bits. *)
Theorem durations_read_back ps : ps <> [] -> Forall part_ok ps -> parts_value ps <= 2^63 ->
  let text := parts_text ps in
  UnmarshalYAML (mkYamlNode true "!!str" text) =
    (if 2^63 - 1 <? parts_value ps then inl (ErrBadDuration text) else inr (parts_value ps)) /\
  UnmarshalYAML (mkYamlNode true "!!str" ("-" +:+ text)) = inr (- parts_value ps).
Proof.
  destruct ps as [|p ps]; [done|]. intros _ Hok Hmax. cbn zeta. pose proof (parse_parts_text (p :: ps) _ 0 Hok (le_n _) (Z.le_refl 0) Hmax) as Hp.
  apply list.Forall_cons in Hok as [Hp1 _]. destruct (parts_text_front p ps Hp1) as (c & s & Ht & Hs & Hm & Hq). rewrite Ht in *.
  unfold UnmarshalYAML. cbn [yn_scalar yn_Tag yn_Value]. rewrite bool_decide_true by done. cbn [negb orb].
  unfold ParseDuration. change ("-" +:+ String c s) with (String "-" (String c s)). rewrite Hm, Hq.
  change (Ascii.eqb "-" "-") with true. cbn match. rewrite !bool_decide_eq_false_2 by congruence. rewrite Hp, Z.add_0_l. cbn [mbind option_bind].
  split; [|done]. by destruct (2^63 - 1 <? _).
Qed.

Lemma durations_read_back_witness :
  ("-1h30m" = "-" +:+ parts_text [(1, "h"); (30, "m")] /\ UnmarshalYAML (mkYamlNode true "!!str" "1h30m") = inr 5400000000000) /\
  UnmarshalYAML (mkYamlNode true "!!str" "-1h30m") = inr (-5400000000000).
Proof.
  assert (Hok : Forall part_ok [(1, "h"); (30, "m")]).
  { repeat constructor; cbn [fst snd]; try lia; vm_compute; repeat constructor. }
  destruct (durations_read_back [(1, "h"); (30, "m")] ltac:(done) Hok ltac:(vm_compute; congruence)) as [H1 H2].
  split; [split; [reflexivity|exact H1]|exact H2].
Defined.
