(* ===== verification/Maps.v ===== *)
(** * The built-in maps

    [world/maps.go]: the character grids of the three maps, drawn with the
    code's own primitives.  A grid cell is a rune (a code point); an assignment
    out of range is a panic, here [None]. *)

From Stdlib Require Import ZArith Lia String Ascii.
From stdpp Require Import base strings list option.
From S2P Require Import Prelude Protocol.

Open Scope Z_scope.

(** ** Go's conversions between strings and runes *)

Abbreviation rune := Z (only parsing).
Abbreviation grid := (list (list Z)) (only parsing).

Definition RuneError : rune := 65533.

Definition byte_of (c : ascii) : Z := Z.of_N (N_of_ascii c).
Definition ascii_of (b : Z) : ascii := ascii_of_N (Z.to_N b).

Definition in_rng (lo hi b : Z) : bool := (lo <=? b) && (b <=? hi).
Definition cont (b : Z) : bool := in_rng 128 191 b.

(** [utf8.DecodeRune] on a non-empty byte list: the rune and the number of
    further bytes it uses. *)
Definition decode_rune (b0 : Z) (rest : list Z) : rune * nat :=
  let second_ok b1 :=
    if b0 =? 224 then in_rng 160 191 b1 else
    if b0 =? 237 then in_rng 128 159 b1 else
    if b0 =? 240 then in_rng 144 191 b1 else
    if b0 =? 244 then in_rng 128 143 b1 else cont b1 in
  if b0 <? 128 then (b0, 0%nat) else
  if in_rng 194 223 b0 then
    match rest with
    | b1 :: _ => if second_ok b1 then ((b0 - 192) * 64 + (b1 - 128), 1%nat) else (RuneError, 0%nat)
    | _ => (RuneError, 0%nat)
    end else
  if in_rng 224 239 b0 then
    match rest with
    | b1 :: b2 :: _ =>
        if second_ok b1 && cont b2
        then ((b0 - 224) * 4096 + (b1 - 128) * 64 + (b2 - 128), 2%nat) else (RuneError, 0%nat)
    | _ => (RuneError, 0%nat)
    end else
  if in_rng 240 244 b0 then
    match rest with
    | b1 :: b2 :: b3 :: _ =>
        if second_ok b1 && cont b2 && cont b3
        then ((b0 - 240) * 262144 + (b1 - 128) * 4096 + (b2 - 128) * 64 + (b3 - 128), 3%nat)
        else (RuneError, 0%nat)
    | _ => (RuneError, 0%nat)
    end else (RuneError, 0%nat).

(** [[]rune(s)]; [skip] counts the bytes already consumed by the last rune. *)
Fixpoint runes_of_bytes (skip : nat) (l : list Z) : list rune :=
  match l, skip with
  | [], _ => []
  | _ :: l', S n => runes_of_bytes n l'
  | b :: l', O => let '(r, n) := decode_rune b l' in r :: runes_of_bytes n l'
  end.

Definition runes (s : string) : list rune :=
  runes_of_bytes 0 (byte_of <$> list_ascii_of_string s).

(** [string(r)] *)
Definition encode_rune (r : rune) : list Z :=
  let r := if (r <? 0) || (1114111 <? r) || in_rng 55296 57343 r then RuneError else r in
  if r <? 128 then [r] else
  if r <? 2048 then [192 + r / 64; 128 + r mod 64] else
  if r <? 65536 then [224 + r / 4096; 128 + (r / 64) mod 64; 128 + r mod 64] else
  [240 + r / 262144; 128 + (r / 4096) mod 64; 128 + (r / 64) mod 64; 128 + r mod 64].

Definition string_of_runes (l : list rune) : string :=
  string_of_list_ascii (ascii_of <$> (l ≫= encode_rune)).

Definition stringsToGrid (rows : list string) : grid := runes <$> rows.
Definition gridToStrings (g : grid) : list string := string_of_runes <$> g.

(** ** Drawing *)

Definition wall : rune := 35. (* '#' *)
Definition floor : rune := 46. (* '.' *)

Definition zlen {A} (l : list A) : Z := Z.of_nat (length l).

(** The integers from [a] (included) to [b] (excluded). *)
Definition zseq (a b : Z) : list Z := (fun n => a + Z.of_nat n) <$> seq 0 (Z.to_nat (b - a)).

(** [l[i]], with a panic out of range. *)
Definition zlookup {A} (i : Z) (l : list A) : option A :=
  if i <? 0 then None else l !! Z.to_nat i.

(** [grid[y][x] = c] *)
Definition set_cell (y x : Z) (c : rune) (g : grid) : option grid :=
  row ← zlookup y g;
  _ ← zlookup x row;
  mret (<[Z.to_nat y := <[Z.to_nat x := c]> row]> g).

Definition row_len (g : grid) (y : Z) : option Z := zlen <$> zlookup y g.

Fixpoint foldO {A B} (f : A -> B -> option A) (acc : A) (l : list B) : option A :=
  match l with
  | [] => Some acc
  | x :: l' => acc' ← f acc x; foldO f acc' l'
  end.

Definition blankGrid : grid :=
  replicate (Z.to_nat MapHeight) (replicate (Z.to_nat MapWidth) floor).

Definition drawBorder (g : grid) : option grid :=
  w ← row_len g 0;
  g ← foldO (fun g x => g ← set_cell 0 x wall g; set_cell (zlen g - 1) x wall g) g (zseq 0 w);
  foldO (fun g y => g ← set_cell y 0 wall g; n ← row_len g y; set_cell y (n - 1) wall g)
    g (zseq 0 (zlen g)).

Definition fillRect (x y width height : Z) (g : grid) : option grid :=
  foldO (fun g yy =>
      n ← row_len g yy;
      foldO (fun g xx => set_cell yy xx wall g) g (zseq x (Z.min (x + width) n)))
    g (zseq y (Z.min (y + height) (zlen g))).

Definition drawH (y fromX toX : Z) (g : grid) : option grid :=
  if (y <? 0) || (zlen g <=? y) then Some g else
  n ← row_len g y;
  foldO (fun g x => set_cell y x wall g) g (zseq (Z.max 0 fromX) (Z.min (toX + 1) n)).

Definition drawV (x fromY toY : Z) (g : grid) : option grid :=
  foldO (fun g y =>
      n ← row_len g y;
      if (0 <=? x) && (x <? n) then set_cell y x wall g else Some g)
    g (zseq (Z.max 0 fromY) (Z.min (toY + 1) (zlen g))).

Definition carve (x y : Z) (g : grid) : option grid :=
  if (0 <=? y) && (y <? zlen g) then
    n ← row_len g y;
    if (0 <=? x) && (x <? n) then set_cell y x floor g else Some g
  else Some g.

(** ** The maps *)

(** [world.MapConfig] *)
Record MapConfig := mkMapConfig {
  cfg_ID : string;
  cfg_Name : string;
  cfg_Layout : list string;
  cfg_SpawnX : Z;
  cfg_SpawnY : Z;
  cfg_BossX : Z;
  cfg_BossY : Z
}.

Definition buildGreenMap : option MapConfig :=
  g ← drawBorder blankGrid;
  g ← fillRect 8 3 14 5 g;
  g ← fillRect 33 14 14 4 g;
  g ← drawV 26 1 21 g;
  g ← drawV 45 2 13 g;
  g ← drawH 9 1 20 g;
  g ← drawH 7 30 54 g;
  g ← carve 26 5 g;
  g ← carve 26 12 g;
  g ← carve 26 18 g;
  g ← carve 45 5 g;
  g ← carve 45 10 g;
  g ← carve 6 9 g;
  g ← carve 12 9 g;
  g ← carve 18 9 g;
  g ← carve 37 7 g;
  g ← carve 44 7 g;
  g ← carve 50 7 g;
  mret (mkMapConfig "green" "青岚要塞" (gridToStrings g) 4 4 50 20).

Definition buildCaveMap : option MapConfig :=
  g ← drawBorder blankGrid;
  g ← fillRect 5 5 10 9 g;
  g ← fillRect 36 12 12 7 g;
  g ← drawV 28 1 22 g;
  g ← drawH 4 18 51 g;
  g ← drawH 18 2 25 g;
  g ← drawV 18 10 20 g;
  g ← carve 28 4 g;
  g ← carve 28 11 g;
  g ← carve 28 18 g;
  g ← carve 22 4 g;
  g ← carve 34 4 g;
  g ← carve 45 4 g;
  g ← carve 9 18 g;
  g ← carve 14 18 g;
  g ← carve 18 15 g;
  mret (mkMapConfig "cave" "玄矿地窟" (gridToStrings g) 4 20 49 20).

Definition buildRuinsMap : option MapConfig :=
  g ← drawBorder blankGrid;
  g ← drawV 12 2 20 g;
  g ← drawV 24 1 18 g;
  g ← drawV 37 5 22 g;
  g ← drawH 6 2 22 g;
  g ← drawH 13 15 40 g;
  g ← fillRect 42 3 8 5 g;
  g ← fillRect 6 15 8 4 g;
  g ← carve 12 5 g;
  g ← carve 12 11 g;
  g ← carve 12 17 g;
  g ← carve 24 4 g;
  g ← carve 24 10 g;
  g ← carve 24 16 g;
  g ← carve 37 9 g;
  g ← carve 37 17 g;
  g ← carve 8 6 g;
  g ← carve 18 6 g;
  g ← carve 19 13 g;
  g ← carve 29 13 g;
  g ← carve 44 13 g;
  mret (mkMapConfig "ruins" "残星遗迹" (gridToStrings g) 50 4 50 20).

Definition AvailableMaps : option (list MapConfig) :=
  green ← buildGreenMap; cave ← buildCaveMap; ruins ← buildRuinsMap;
  mret [green; cave; ruins].

(** The list [AvailableMaps()] returns; [maps_built] shows that it is the value
    of the code and not the default. *)
Definition available_maps : list MapConfig := default [] AvailableMaps.

Definition DefaultMapID : string := "green".

(** The search loop shared by [FindConfig], [ensureHostedMap], [nodeMapConfig]
    and [isKnownMap]: the first configuration with the given ID. *)
Definition FindConfig (id : string) : option MapConfig :=
  List.find (fun cfg => bool_decide (cfg_ID cfg = id)) available_maps.

(** ** Runes and grids *)

Definition valid_rune (r : rune) : Prop := 0 <= r <= 1114111 /\ ~ (55296 <= r <= 57343).

Lemma byte_of_range c : 0 <= byte_of c < 256.
Proof. unfold byte_of. pose proof (N_ascii_bounded c). lia. Qed.

Lemma byte_of_ascii_of b : 0 <= b < 256 -> byte_of (ascii_of b) = b.
Proof. intros H. unfold byte_of, ascii_of. rewrite N_ascii_embedding; lia. Qed.

Lemma in_rng_true a b c : in_rng a b c = true <-> a <= c <= b.
Proof. unfold in_rng. rewrite andb_true_iff, !Z.leb_le. done. Qed.

Lemma in_rng_false a b c : in_rng a b c = false <-> c < a \/ b < c.
Proof. unfold in_rng. rewrite andb_false_iff, !Z.leb_gt. done. Qed.

(** Turn the boolean byte tests of the hypotheses and the goal into bounds. *)
Ltac byte_tests :=
  repeat match goal with
  | H : in_rng _ _ _ = true |- _ => apply in_rng_true in H
  | H : in_rng _ _ _ = false |- _ => apply in_rng_false in H
  | H : (_ && _) = true |- _ => apply andb_true_iff in H as [? ?]
  | H : cont _ = true |- _ => apply in_rng_true in H
  | H : (_ <? _) = true |- _ => apply Z.ltb_lt in H
  | H : (_ <? _) = false |- _ => apply Z.ltb_ge in H
  | H : (_ =? _) = true |- _ => apply Z.eqb_eq in H
  | H : (_ =? _) = false |- _ => apply Z.eqb_neq in H
  end.

Lemma RuneError_valid : valid_rune RuneError.
Proof. unfold valid_rune, RuneError. lia. Qed.

Lemma decode_rune_valid b0 rest :
  0 <= b0 < 256 -> Forall (fun b => 0 <= b < 256) rest -> valid_rune (decode_rune b0 rest).1.
Proof.
  intros Hb Hr. unfold decode_rune.
  repeat (case_match; subst; byte_tests; cbn [fst]; try apply RuneError_valid);
    unfold valid_rune; try lia.
Qed.

Lemma runes_of_bytes_valid n l :
  Forall (fun b => 0 <= b < 256) l -> Forall valid_rune (runes_of_bytes n l).
Proof.
  revert n. induction l as [|b l IH]; intros n Hl; [constructor|]. inversion Hl; subst.
  destruct n as [|n]; cbn [runes_of_bytes]; [|by apply IH].
  pose proof (decode_rune_valid b l) as Hd. destruct (decode_rune b l) as [r k]. constructor; [by apply Hd|by apply IH].
Qed.

Lemma runes_valid s : Forall valid_rune (runes s).
Proof.
  apply runes_of_bytes_valid, Forall_fmap, Forall_forall. intros c _. apply byte_of_range.
Qed.

Lemma encode_rune_bytes r : Forall (fun b => 0 <= b < 256) (encode_rune r).
Proof.
  unfold encode_rune.
  set (r' := if _ || _ then _ else _).
  assert (0 <= r' <= 1114111) as Hr'.
  { unfold r', RuneError. destruct (Z.ltb_spec r 0); cbn; [lia|].
    destruct (Z.ltb_spec 1114111 r); cbn; [lia|]. destruct (in_rng _ _ r); lia. }
  repeat case_match; byte_tests; repeat constructor; try lia;
    Z.div_mod_to_equations; lia.
Qed.

(** Decoding what was encoded: one rune, followed by anything. *)
Lemma decode_encode r rest :
  valid_rune r -> runes_of_bytes 0 (encode_rune r ++ rest) = r :: runes_of_bytes 0 rest.
Proof.
  intros [Hr Hs]. unfold encode_rune.
  assert (E : (r <? 0) || (1114111 <? r) || in_rng 55296 57343 r = false).
  { rewrite !orb_false_iff, !Z.ltb_ge, in_rng_false. lia. }
  rewrite E. pose proof (Z.mod_pos_bound r 64 ltac:(lia)).
  pose proof (Z.mod_pos_bound (r / 64) 64 ltac:(lia)). pose proof (Z.mod_pos_bound (r / 4096) 64 ltac:(lia)).
  assert (r / 64 / 64 = r / 4096) as E1 by (by rewrite Z.div_div by lia).
  assert (r / 4096 / 64 = r / 262144) as E2 by (by rewrite Z.div_div by lia).
  pose proof (Z.div_mod r 64 ltac:(lia)). pose proof (Z.div_mod (r / 64) 64 ltac:(lia)).
  pose proof (Z.div_mod (r / 4096) 64 ltac:(lia)).
  destruct (Z.ltb_spec r 128).
  { cbn [app runes_of_bytes]. unfold decode_rune. by rewrite (proj2 (Z.ltb_lt _ _)). }
  destruct (Z.ltb_spec r 2048).
  { cbn [app runes_of_bytes]. unfold decode_rune.
    rewrite (proj2 (Z.ltb_ge _ _)), (proj2 (in_rng_true 194 223 _)) by lia.
    rewrite !(proj2 (Z.eqb_neq _ _)) by lia. unfold cont.
    rewrite (proj2 (in_rng_true 128 191 _)) by lia. f_equal. lia. }
  destruct (Z.ltb_spec r 65536).
  { cbn [app runes_of_bytes]. unfold decode_rune.
    rewrite (proj2 (Z.ltb_ge _ _)), (proj2 (in_rng_false 194 223 _)), (proj2 (in_rng_true 224 239 _)) by lia.
    unfold cont. rewrite (proj2 (in_rng_true 128 191 (128 + r mod 64))), andb_true_r by lia.
    assert (T : (if 224 + r / 4096 =? 224 then in_rng 160 191 (128 + (r / 64) mod 64)
      else if 224 + r / 4096 =? 237 then in_rng 128 159 (128 + (r / 64) mod 64)
      else if 224 + r / 4096 =? 240 then in_rng 144 191 (128 + (r / 64) mod 64)
      else if 224 + r / 4096 =? 244 then in_rng 128 143 (128 + (r / 64) mod 64)
      else in_rng 128 191 (128 + (r / 64) mod 64)) = true).
    { destruct (Z.eqb_spec (224 + r / 4096) 224); [apply in_rng_true; lia|].
      destruct (Z.eqb_spec (224 + r / 4096) 237); [apply in_rng_true; lia|].
      rewrite !(proj2 (Z.eqb_neq _ _)) by lia. apply in_rng_true. lia. }
    rewrite T. f_equal. lia. }
  cbn [app runes_of_bytes]. unfold decode_rune.
  rewrite (proj2 (Z.ltb_ge _ _)), (proj2 (in_rng_false 194 223 _)), (proj2 (in_rng_false 224 239 _)),
    (proj2 (in_rng_true 240 244 _)) by lia.
  unfold cont. rewrite (proj2 (in_rng_true 128 191 (128 + r mod 64))),
    (proj2 (in_rng_true 128 191 (128 + (r / 64) mod 64))), !andb_true_r by lia.
  assert (T : (if 240 + r / 262144 =? 224 then in_rng 160 191 (128 + (r / 4096) mod 64)
    else if 240 + r / 262144 =? 237 then in_rng 128 159 (128 + (r / 4096) mod 64)
    else if 240 + r / 262144 =? 240 then in_rng 144 191 (128 + (r / 4096) mod 64)
    else if 240 + r / 262144 =? 244 then in_rng 128 143 (128 + (r / 4096) mod 64)
    else in_rng 128 191 (128 + (r / 4096) mod 64)) = true).
  { rewrite !(proj2 (Z.eqb_neq _ 224)), !(proj2 (Z.eqb_neq _ 237)) by lia.
    destruct (Z.eqb_spec (240 + r / 262144) 240); [apply in_rng_true; lia|].
    destruct (Z.eqb_spec (240 + r / 262144) 244); [apply in_rng_true; lia|]. apply in_rng_true. lia. }
  rewrite T. f_equal. lia.
Qed.

Lemma decode_encode_list l : Forall valid_rune l -> runes_of_bytes 0 (l ≫= encode_rune) = l.
Proof. induction 1 as [|r l Hr _ IH]; [done|]. cbn [mbind list_bind]. by rewrite decode_encode, IH. Qed.

Lemma list_ascii_id l : list_ascii_of_string (string_of_list_ascii l) = l.
Proof. induction l as [|a l IH]; cbn; by f_equal. Qed.

Lemma runes_roundtrip l : Forall valid_rune l -> runes (string_of_runes l) = l.
Proof.
  intros Hl. unfold runes, string_of_runes. rewrite list_ascii_id, <- list_fmap_compose.
  rewrite (list_fmap_ext _ id).
  - rewrite list_fmap_id. by apply decode_encode_list.
  - intros i b Hb. cbn. apply byte_of_ascii_of.
    assert (Forall (fun b => 0 <= b < 256) (l ≫= encode_rune)) as HF.
    { apply Forall_bind, Forall_forall. intros r _. apply encode_rune_bytes. }
    by eapply Forall_lookup_1 in HF.
Qed.

(** A grid read from strings survives being printed and read again. *)
Lemma grid_roundtrip rows : stringsToGrid (gridToStrings (stringsToGrid rows)) = stringsToGrid rows.
Proof.
  unfold stringsToGrid, gridToStrings. rewrite <- !list_fmap_compose. apply list_fmap_ext.
  intros i s _. cbn. apply runes_roundtrip, runes_valid.
Qed.

(** ** The stock maps *)

Lemma maps_built : is_Some AvailableMaps.
Proof. vm_compute. eauto. Qed.
