(* ===== verification/World.v ===== *)
(** * The world of one map: state and geometry

    The data of [world/world.go] and the read-only routines on it: cell tests,
    spawn scoring and spawn selection, views and profiles.  A [*Player] stored in
    [w.players] is addressed by its key, so an update through the pointer is an
    update of the map entry.  Loops that only test or take a minimum over a map
    are folds over its values; loops whose result depends on the iteration order
    take the order from the environment. *)

From Stdlib Require Import ZArith Lia String.
From stdpp Require Import base gmap strings list sorting option.
From S2P Require Import Prelude Protocol Maps.

Open Scope Z_scope.
Open Scope go_scope.

(** [world.Player]; times in nanoseconds *)
Record Player := mkPlayer {
  pl_Username : string;
  pl_MapID : string;
  pl_X : Z;
  pl_Y : Z;
  pl_HP : Z;
  pl_MaxHP : Z;
  pl_Attack : Z;
  pl_Potions : Z;
  pl_Treasures : Z;
  pl_Kills : Z;
  pl_Deaths : Z;
  pl_Victories : Z;
  pl_Alive : bool;
  pl_RespawnAt : Z;
  pl_LastUpdate : Z
}.

Definition set_pl_XY (v0 : Z) (v1 : Z) (r : Player) : Player :=
  mkPlayer (pl_Username r) (pl_MapID r) v0 v1 (pl_HP r) (pl_MaxHP r) (pl_Attack r) (pl_Potions r) (pl_Treasures r) (pl_Kills r) (pl_Deaths r) (pl_Victories r) (pl_Alive r) (pl_RespawnAt r) (pl_LastUpdate r).
Definition set_pl_HP (v0 : Z) (r : Player) : Player :=
  mkPlayer (pl_Username r) (pl_MapID r) (pl_X r) (pl_Y r) v0 (pl_MaxHP r) (pl_Attack r) (pl_Potions r) (pl_Treasures r) (pl_Kills r) (pl_Deaths r) (pl_Victories r) (pl_Alive r) (pl_RespawnAt r) (pl_LastUpdate r).
Definition set_pl_Attack (v0 : Z) (r : Player) : Player :=
  mkPlayer (pl_Username r) (pl_MapID r) (pl_X r) (pl_Y r) (pl_HP r) (pl_MaxHP r) v0 (pl_Potions r) (pl_Treasures r) (pl_Kills r) (pl_Deaths r) (pl_Victories r) (pl_Alive r) (pl_RespawnAt r) (pl_LastUpdate r).
Definition set_pl_Potions (v0 : Z) (r : Player) : Player :=
  mkPlayer (pl_Username r) (pl_MapID r) (pl_X r) (pl_Y r) (pl_HP r) (pl_MaxHP r) (pl_Attack r) v0 (pl_Treasures r) (pl_Kills r) (pl_Deaths r) (pl_Victories r) (pl_Alive r) (pl_RespawnAt r) (pl_LastUpdate r).
Definition set_pl_Treasures (v0 : Z) (r : Player) : Player :=
  mkPlayer (pl_Username r) (pl_MapID r) (pl_X r) (pl_Y r) (pl_HP r) (pl_MaxHP r) (pl_Attack r) (pl_Potions r) v0 (pl_Kills r) (pl_Deaths r) (pl_Victories r) (pl_Alive r) (pl_RespawnAt r) (pl_LastUpdate r).
Definition set_pl_Kills (v0 : Z) (r : Player) : Player :=
  mkPlayer (pl_Username r) (pl_MapID r) (pl_X r) (pl_Y r) (pl_HP r) (pl_MaxHP r) (pl_Attack r) (pl_Potions r) (pl_Treasures r) v0 (pl_Deaths r) (pl_Victories r) (pl_Alive r) (pl_RespawnAt r) (pl_LastUpdate r).
Definition set_pl_Deaths (v0 : Z) (r : Player) : Player :=
  mkPlayer (pl_Username r) (pl_MapID r) (pl_X r) (pl_Y r) (pl_HP r) (pl_MaxHP r) (pl_Attack r) (pl_Potions r) (pl_Treasures r) (pl_Kills r) v0 (pl_Victories r) (pl_Alive r) (pl_RespawnAt r) (pl_LastUpdate r).
Definition set_pl_Victories (v0 : Z) (r : Player) : Player :=
  mkPlayer (pl_Username r) (pl_MapID r) (pl_X r) (pl_Y r) (pl_HP r) (pl_MaxHP r) (pl_Attack r) (pl_Potions r) (pl_Treasures r) (pl_Kills r) (pl_Deaths r) v0 (pl_Alive r) (pl_RespawnAt r) (pl_LastUpdate r).
Definition set_pl_Alive (v0 : bool) (r : Player) : Player :=
  mkPlayer (pl_Username r) (pl_MapID r) (pl_X r) (pl_Y r) (pl_HP r) (pl_MaxHP r) (pl_Attack r) (pl_Potions r) (pl_Treasures r) (pl_Kills r) (pl_Deaths r) (pl_Victories r) v0 (pl_RespawnAt r) (pl_LastUpdate r).
Definition set_pl_RespawnAt (v0 : Z) (r : Player) : Player :=
  mkPlayer (pl_Username r) (pl_MapID r) (pl_X r) (pl_Y r) (pl_HP r) (pl_MaxHP r) (pl_Attack r) (pl_Potions r) (pl_Treasures r) (pl_Kills r) (pl_Deaths r) (pl_Victories r) (pl_Alive r) v0 (pl_LastUpdate r).
Definition set_pl_LastUpdate (v0 : Z) (r : Player) : Player :=
  mkPlayer (pl_Username r) (pl_MapID r) (pl_X r) (pl_Y r) (pl_HP r) (pl_MaxHP r) (pl_Attack r) (pl_Potions r) (pl_Treasures r) (pl_Kills r) (pl_Deaths r) (pl_Victories r) (pl_Alive r) (pl_RespawnAt r) v0.

(** [world.NPC] *)
Record NPC := mkNPC {
  npc_ID : string;
  npc_Name : string;
  npc_X : Z;
  npc_Y : Z;
  npc_HP : Z;
  npc_MaxHP : Z;
  npc_Attack : Z;
  npc_Alive : bool
}.

Definition set_npc_XY (v0 : Z) (v1 : Z) (r : NPC) : NPC :=
  mkNPC (npc_ID r) (npc_Name r) v0 v1 (npc_HP r) (npc_MaxHP r) (npc_Attack r) (npc_Alive r).
Definition set_npc_HP (v0 : Z) (r : NPC) : NPC :=
  mkNPC (npc_ID r) (npc_Name r) (npc_X r) (npc_Y r) v0 (npc_MaxHP r) (npc_Attack r) (npc_Alive r).
Definition set_npc_Alive (v0 : bool) (r : NPC) : NPC :=
  mkNPC (npc_ID r) (npc_Name r) (npc_X r) (npc_Y r) (npc_HP r) (npc_MaxHP r) (npc_Attack r) v0.

(** [world.Treasure] *)
Record Treasure := mkTreasure {
  tr_ID : string;
  tr_Kind : string;
  tr_X : Z;
  tr_Y : Z;
  tr_Value : Z
}.

Definition set_tr_Value (v0 : Z) (r : Treasure) : Treasure :=
  mkTreasure (tr_ID r) (tr_Kind r) (tr_X r) (tr_Y r) v0.

(** [world.World]: [w_rng] is the stream of the seeded source, [w_rngPos] how much of it is used *)
Record World := mkWorld {
  w_cfg : MapConfig;
  w_terrain : list (list Z);
  w_players : gmap string Player;
  w_npcs : gmap string NPC;
  w_treasures : gmap string Treasure;
  w_rng : nat -> Z;
  w_rngPos : nat;
  w_version : Z;
  w_nextNPC : Z;
  w_nextTreasure : Z
}.

Definition set_terrain (v0 : list (list Z)) (r : World) : World :=
  mkWorld (w_cfg r) v0 (w_players r) (w_npcs r) (w_treasures r) (w_rng r) (w_rngPos r) (w_version r) (w_nextNPC r) (w_nextTreasure r).
Definition set_players (v0 : gmap string Player) (r : World) : World :=
  mkWorld (w_cfg r) (w_terrain r) v0 (w_npcs r) (w_treasures r) (w_rng r) (w_rngPos r) (w_version r) (w_nextNPC r) (w_nextTreasure r).
Definition set_npcs (v0 : gmap string NPC) (r : World) : World :=
  mkWorld (w_cfg r) (w_terrain r) (w_players r) v0 (w_treasures r) (w_rng r) (w_rngPos r) (w_version r) (w_nextNPC r) (w_nextTreasure r).
Definition set_treasures (v0 : gmap string Treasure) (r : World) : World :=
  mkWorld (w_cfg r) (w_terrain r) (w_players r) (w_npcs r) v0 (w_rng r) (w_rngPos r) (w_version r) (w_nextNPC r) (w_nextTreasure r).
Definition set_rngPos (v0 : nat) (r : World) : World :=
  mkWorld (w_cfg r) (w_terrain r) (w_players r) (w_npcs r) (w_treasures r) (w_rng r) v0 (w_version r) (w_nextNPC r) (w_nextTreasure r).
Definition set_version (v0 : Z) (r : World) : World :=
  mkWorld (w_cfg r) (w_terrain r) (w_players r) (w_npcs r) (w_treasures r) (w_rng r) (w_rngPos r) v0 (w_nextNPC r) (w_nextTreasure r).
Definition set_nextNPC (v0 : Z) (r : World) : World :=
  mkWorld (w_cfg r) (w_terrain r) (w_players r) (w_npcs r) (w_treasures r) (w_rng r) (w_rngPos r) (w_version r) v0 (w_nextTreasure r).
Definition set_nextTreasure (v0 : Z) (r : World) : World :=
  mkWorld (w_cfg r) (w_terrain r) (w_players r) (w_npcs r) (w_treasures r) (w_rng r) (w_rngPos r) (w_version r) (w_nextNPC r) v0.

(** Operations on a world run in a process environment. *)
Abbreviation WS := (World * Env)%type.
Abbreviation W := (ST WS).

Definition getW : W World := gets fst.
Definition modW (f : World -> World) : W unit := modify (fun s => (f s.1, s.2)).
Definition nowW : W Z := now snd (fun e s => (s.1, e)).
Definition rangeW {A} (m : gmap string A) : W (list string) :=
  range_order snd (fun e s => (s.1, e)) (map_keys m).

(** [w.version++] *)
Definition bump : W unit := modW (fun w => set_version (w_version w +i 1) w).

Definition putPlayer (k : string) (p : Player) : W unit :=
  modW (fun w => set_players (<[k := p]> (w_players w)) w).
Definition putNPC (k : string) (n : NPC) : W unit :=
  modW (fun w => set_npcs (<[k := n]> (w_npcs w)) w).
Definition putTreasure (k : string) (t : Treasure) : W unit :=
  modW (fun w => set_treasures (<[k := t]> (w_treasures w)) w).

(** [w.rng.Intn(n)]: a number in [0, n); panics when [n <= 0]. *)
Definition Intn (n : Z) : W Z := fun s =>
  if n <=? 0 then None
  else Some (w_rng s.1 (w_rngPos s.1) mod n, (set_rngPos (w_rngPos s.1 + 1)%nat s.1, s.2)).

Definition values {A} (m : gmap string A) : list A := (map_to_list m).*2.

(** ** Geometry *)

Definition valueOr (v fallback : Z) : Z := if v =? 0 then fallback else v.

(** [int(math.Abs(float64(ax-bx)) + math.Abs(float64(ay-by)))] *)
Definition distance (ax ay bx by_ : Z) : Z :=
  i64 (f64 (Z.abs (f64 (ax -i bx)) + Z.abs (f64 (ay -i by_)))).

Definition walkableForLocked (w : World) (x y : Z) (ignorePlayer : string) : bool :=
  match zlookup y (w_terrain w) with
  | None => false
  | Some row =>
      match zlookup x row with
      | None => false
      | Some c =>
          negb (c =? wall)
          && forallb (fun p => negb (negb (bool_decide (pl_Username p = ignorePlayer)) && pl_Alive p
                                     && (pl_X p =? x) && (pl_Y p =? y))) (values (w_players w))
          && forallb (fun n => negb (npc_Alive n && (npc_X n =? x) && (npc_Y n =? y))) (values (w_npcs w))
      end
  end.

Definition min_dist {A} (live : A -> bool) (d : A -> Z) (l : list A) : Z :=
  fold_left (fun best a => if live a then if d a <? best then d a else best else best)
    l (MapWidth + MapHeight).

(** Panics (on [w.terrain[0]]) when there is no terrain. *)
Definition spawnScoreLocked (w : World) (x y : Z) (preferNPC : bool) : option Z :=
  let bestNPC := min_dist npc_Alive (fun n => distance x y (npc_X n) (npc_Y n)) (values (w_npcs w)) in
  let bestPlayer := min_dist pl_Alive (fun p => distance x y (pl_X p) (pl_Y p)) (values (w_players w)) in
  let bestTreasure := min_dist (fun _ => true) (fun t => distance x y (tr_X t) (tr_Y t)) (values (w_treasures w)) in
  row0 ← zlookup 0 (w_terrain w);
  let width := zlen row0 in
  let height := zlen (w_terrain w) in
  let edgeMargin := Z.min (Z.min x (width -i 1 -i x)) (Z.min y (height -i 1 -i y)) in
  let centerDist := distance x y (Z.quot width 2) (Z.quot height 2) in
  let score := bestNPC *i 120 +i bestPlayer *i 20 +i bestTreasure *i 15 +i edgeMargin *i 30 -i centerDist *i 3 in
  mret (if preferNPC then score +i distance x y (cfg_SpawnX (w_cfg w)) (cfg_SpawnY (w_cfg w)) *i 2 else score).

Record candidate := mkCandidate { c_x : Z; c_y : Z; c_score : Z }.

(** The comparison given to [sort.Slice]: better candidates first. *)
Definition candidate_lt (a b : candidate) : bool :=
  if c_score a =? c_score b then
    if c_y a =? c_y b then c_x a <? c_x b else c_y a <? c_y b
  else c_score b <? c_score a.

Definition candidate_le (a b : candidate) : Prop := candidate_lt b a = false.

#[export] Instance candidate_le_dec : RelDecision candidate_le.
Proof. intros a b. unfold candidate_le. apply _. Defined.

(** The cells of the grid in the order of the two nested loops. *)
Definition cells (g : list (list Z)) : list (Z * Z) :=
  mjoin (imap (fun y row => imap (fun x _ => (Z.of_nat x, Z.of_nat y)) row) g).

Definition spawn_candidates (w : World) (ignorePlayer : string) (preferNPC : bool) : option (list candidate) :=
  foldO (fun acc '(x, y) =>
      if walkableForLocked w x y ignorePlayer then
        score ← spawnScoreLocked w x y preferNPC;
        mret (acc ++ [mkCandidate x y score])
      else mret acc) [] (cells (w_terrain w)).

Definition liftO {A} (o : option A) : W A := fun s =>
  match o with Some a => Some (a, s) | None => None end.

Definition bestSpawnCellLocked (ignorePlayer : string) (preferNPC : bool) : W (option (Z * Z)) :=
  w ← getW;
  _ ← liftO (zlookup 0 (w_terrain w));
  candidates ← liftO (spawn_candidates w ignorePlayer preferNPC);
  match candidates with
  | [] => mret None
  | _ =>
      let sorted := merge_sort candidate_le candidates in
      let limit := if zlen sorted <? 12 then zlen sorted else 12 in
      i ← Intn limit;
      pick ← liftO (zlookup i sorted);
      mret (Some (c_x pick, c_y pick))
  end.

Definition findSafePositionLocked (preferredX preferredY : Z) (ignorePlayer : string) : W (Z * Z) :=
  w ← getW;
  if walkableForLocked w preferredX preferredY ignorePlayer then mret (preferredX, preferredY) else
  best ← bestSpawnCellLocked ignorePlayer true;
  match best with
  | Some xy => mret xy
  | None => mret (cfg_SpawnX (w_cfg w), cfg_SpawnY (w_cfg w))
  end.

(** [randomOpenCellLocked]: 256 random probes, then a scan. *)
Fixpoint random_probe (tries : nat) (ignorePlayer : string) : W (option (Z * Z)) :=
  match tries with
  | O => mret None
  | S tries' =>
      w ← getW;
      row0 ← liftO (zlookup 0 (w_terrain w));
      x ← Intn (zlen row0);
      y ← Intn (zlen (w_terrain w));
      if walkableForLocked w x y ignorePlayer then mret (Some (x, y))
      else random_probe tries' ignorePlayer
  end.

Definition randomOpenCellLocked (ignorePlayer : string) : W (option (Z * Z)) :=
  probe ← random_probe 256 ignorePlayer;
  match probe with
  | Some xy => mret (Some xy)
  | None =>
      w ← getW;
      mret (List.find (fun '(x, y) => walkableForLocked w x y ignorePlayer) (cells (w_terrain w)))
  end.

(** The first treasure at a cell, in the iteration order of the map. *)
Definition treasureAtLocked (x y : Z) : W (option (string * Treasure)) :=
  w ← getW;
  ids ← rangeW (w_treasures w);
  mret (list_find (fun it => tr_X it.2 = x /\ tr_Y it.2 = y)
          (omap (fun id => (fun t => (id, t)) <$> w_treasures w !! id) ids) ≫= fun r => Some r.2).

(** ** Players *)

(** The whole seconds until [RespawnAt], at least 1 while it is set. *)
Definition playerRespawnInLocked (player : Player) : W Z :=
  if pl_Alive player || IsZero (pl_RespawnAt player) then mret 0 else
  t ← nowW;
  let remain := Z.quot (pl_RespawnAt player -i t) Second in
  mret (if remain <? 1 then 1 else remain).

Definition profileLocked (w : World) (player : Player) : UserProfile :=
  mkUserProfile (pl_Username player) "" (cfg_ID (w_cfg w)) "" (pl_X player) (pl_Y player)
    (pl_HP player) (pl_MaxHP player) (pl_Attack player) (pl_Potions player) (pl_Treasures player)
    (pl_Kills player) (pl_Deaths player) (pl_Victories player) (pl_Alive player).

Definition playerViewLocked (player : Player) : W PlayerView :=
  respawnIn ← playerRespawnInLocked player;
  fmt ← gets (fun s => rfc3339 s.2);
  mret (mkPlayerView (pl_Username player) (pl_MapID player) (pl_X player) (pl_Y player) (pl_HP player)
    (pl_MaxHP player) (pl_Attack player) (pl_Potions player) (pl_Treasures player) (pl_Kills player)
    (pl_Deaths player) (pl_Victories player) (pl_Alive player) respawnIn (fmt (pl_LastUpdate player))).

(** Revive the player stored under [k] when its respawn time has passed. *)
Definition refreshPlayerStateLocked (k : string) : W unit :=
  w ← getW;
  match w_players w !! k with
  | None => mret tt
  | Some player =>
      if pl_Alive player || IsZero (pl_RespawnAt player) then mret tt else
      t ← nowW;
      if t <? pl_RespawnAt player then mret tt else
      '(x, y) ← findSafePositionLocked (cfg_SpawnX (w_cfg w)) (cfg_SpawnY (w_cfg w)) (pl_Username player);
      t' ← nowW;
      let player := set_pl_XY x y player in
      let player := set_pl_HP (pl_MaxHP player) player in
      let player := set_pl_Potions (Z.max (pl_Potions player) MaxPotions) player in
      let player := set_pl_Alive true player in
      let player := set_pl_RespawnAt 0 player in
      let player := set_pl_LastUpdate t' player in
      _ ← putPlayer k player;
      bump
  end.

(** The body of [knockDownPlayerLocked], on the player it is given. *)
Definition knockDownPlayerLocked (player : Player) : W Player :=
  t ← nowW;
  t' ← nowW;
  let player := set_pl_HP 0 player in
  let player := set_pl_Alive false player in
  let player := set_pl_Deaths (pl_Deaths player +i 1) player in
  let player := set_pl_RespawnAt (t +i 4 * Second) player in
  mret (set_pl_LastUpdate t' player).
