(* ===== verification/WorldOps.v ===== *)
(** * The world of one map: player operations, tick and checkpoints

    The methods of [world/world.go], [world/tick.go] and [world/checkpoint.go],
    each as one operation of the state monad [W]; the mutex makes every method
    atomic.  The texts are the UTF-8 strings of the source. *)

From Stdlib Require Import ZArith Lia String.
From stdpp Require Import base gmap strings list sorting option.
From S2P Require Import Prelude Protocol Maps World.

Open Scope Z_scope.
Open Scope go_scope.

Definition lookupP (k : string) : W (option Player) := gets (fun s => w_players s.1 !! k).

Definition respawn_note (username before after : string) (player : Player) : W string :=
  remain ← playerRespawnInLocked player;
  mret (username +:+ before +:+ itoa remain +:+ after).

(** ** Joining and leaving *)

(** The [Player] built from a profile; a zero field counts as unset. *)
Definition joined_player (profile : UserProfile) (mapID : string) (x y t : Z) : Player :=
  let player := mkPlayer (up_Username profile) mapID x y
      (valueOr (up_HP profile) InitHP) (valueOr (up_MaxHP profile) InitHP)
      (valueOr (up_Attack profile) InitAttack) (valueOr (up_Potions profile) MaxPotions)
      (up_Treasures profile) (up_Kills profile) (up_Deaths profile) (up_Victories profile)
      (up_Alive profile) 0 t in
  let player :=
    if (up_HP profile =? 0) && negb (up_Alive profile) then set_pl_Alive false player else player in
  if pl_HP player <=? 0 then set_pl_Alive true (set_pl_HP (pl_MaxHP player) player) else player.

Definition AddOrRestorePlayer (profile : UserProfile) : W PlayerView :=
  w ← getW;
  let '(x, y) :=
    if bool_decide (up_LastMap profile = cfg_ID (w_cfg w)) then (up_X profile, up_Y profile)
    else (cfg_SpawnX (w_cfg w), cfg_SpawnY (w_cfg w)) in
  '(x, y) ← findSafePositionLocked x y "";
  t ← nowW;
  let player := joined_player profile (cfg_ID (w_cfg w)) x y t in
  _ ← putPlayer (pl_Username player) player;
  _ ← bump;
  playerViewLocked player.

Definition RemovePlayer (username : string) : W (UserProfile * bool) :=
  o ← lookupP username;
  match o with
  | None => mret (zero_UserProfile, false)
  | Some player =>
      w ← getW;
      let profile := profileLocked w player in
      _ ← modW (fun w => set_players (delete username (w_players w)) w);
      _ ← bump;
      mret (profile, true)
  end.

Definition ProfileOf (username : string) : W (UserProfile * bool) :=
  o ← lookupP username;
  match o with
  | None => mret (zero_UserProfile, false)
  | Some _ =>
      _ ← refreshPlayerStateLocked username;
      w ← getW;
      mret (default zero_UserProfile (profileLocked w <$> w_players w !! username), true)
  end.

Definition FlushProfiles (since : Z) : W (list UserProfile) :=
  w ← getW;
  ks ← rangeW (w_players w);
  foldM (fun profiles k =>
      _ ← refreshPlayerStateLocked k;
      w ← getW;
      match w_players w !! k with
      | None => mret profiles
      | Some player =>
          mret (if since <? pl_LastUpdate player then profiles ++ [profileLocked w player] else profiles)
      end) [] ks.

(** The common prologue of the player operations: look the player up, refresh
    it, and continue with it; [absent] is the answer for an unknown name. *)
Definition with_player {A} (username : string) (absent : A) (k : Player -> W A) : W A :=
  o ← lookupP username;
  match o with
  | None => mret absent
  | Some _ =>
      _ ← refreshPlayerStateLocked username;
      o' ← lookupP username;
      match o' with
      | None => mret absent
      | Some player => k player
      end
  end.

Definition reply (username text : string) : W (string * UserProfile * bool) :=
  w ← getW;
  mret (text, default zero_UserProfile (profileLocked w <$> w_players w !! username), true).

Definition no_reply : string * UserProfile * bool := ("", zero_UserProfile, false).

(** ** Moving *)

Definition step_dir (dir : string) (x y : Z) : Z * Z :=
  if bool_decide (dir = DirUp) then (x, y -i 1) else
  if bool_decide (dir = DirDown) then (x, y +i 1) else
  if bool_decide (dir = DirLeft) then (x -i 1, y) else
  if bool_decide (dir = DirRight) then (x +i 1, y) else (x, y).

Definition cell_text (x y : Z) : string := "(" +:+ itoa x +:+ "," +:+ itoa y +:+ ")".

Definition MovePlayer (username dir : string) : W (string * UserProfile * bool) :=
  with_player username no_reply (fun player =>
    if negb (pl_Alive player) then
      text ← respawn_note username " 当前倒地，" " 秒后复活" player;
      reply username text
    else
      let '(nx, ny) := step_dir dir (pl_X player) (pl_Y player) in
      w ← getW;
      if negb (walkableForLocked w nx ny (pl_Username player)) then
        reply username (username +:+ " 被墙体或单位挡住了")
      else
        t ← nowW;
        let player := set_pl_LastUpdate t (set_pl_XY nx ny player) in
        _ ← putPlayer username player;
        found ← treasureAtLocked nx ny;
        event ← match found with
          | Some (treasureID, treasure) =>
              _ ← putPlayer username (set_pl_Treasures (pl_Treasures player +i tr_Value treasure) player);
              _ ← modW (fun w => set_treasures (delete treasureID (w_treasures w)) w);
              mret (username +:+ " 在 " +:+ cell_text nx ny +:+ " 拾取了" +:+ tr_Kind treasure
                    +:+ "，战利品 +" +:+ itoa (tr_Value treasure))
          | None => mret (username +:+ " 移动到了 " +:+ cell_text nx ny)
          end;
        _ ← bump;
        reply username event).

(** ** Healing and the shop *)

Definition HealPlayer (username : string) : W (string * UserProfile * bool) :=
  with_player username no_reply (fun player =>
    if negb (pl_Alive player) then
      text ← respawn_note username " 倒地时无法使用药剂，" " 秒后复活" player;
      reply username text
    else if pl_Potions player <=? 0 then
      reply username (username +:+ " 的治疗药剂已经用完")
    else
      let player := set_pl_Potions (pl_Potions player -i 1) player in
      let before := pl_HP player in
      let player := set_pl_HP (pl_HP player +i HealAmount) player in
      let player := if pl_MaxHP player <? pl_HP player then set_pl_HP (pl_MaxHP player) player else player in
      t ← nowW;
      _ ← putPlayer username (set_pl_LastUpdate t player);
      _ ← bump;
      reply username (username +:+ " 回复了 " +:+ itoa (pl_HP player -i before) +:+ " 点生命")).

Definition BuyItem (username item : string) : W (string * UserProfile * bool) :=
  with_player username no_reply (fun player =>
    if negb (pl_Alive player) then
      text ← respawn_note username " 倒地时无法打开商店，" " 秒后复活" player;
      reply username text
    else if bool_decide (item = "potion") then
      if pl_Treasures player <? PotionPrice then
        reply username ("战利品不足，购买药剂需要 " +:+ itoa PotionPrice)
      else if PotionCap <=? pl_Potions player then
        reply username ("药剂携带已达上限 " +:+ itoa PotionCap)
      else
        let player := set_pl_Treasures (pl_Treasures player -i PotionPrice) player in
        let player := set_pl_Potions (pl_Potions player +i 1) player in
        t ← nowW;
        _ ← putPlayer username (set_pl_LastUpdate t player);
        _ ← bump;
        reply username (username +:+ " 在商店购入药剂，药剂 +1，战利品 -" +:+ itoa PotionPrice)
    else if bool_decide (item = "weapon") then
      if pl_Treasures player <? WeaponPrice then
        reply username ("战利品不足，强化武器需要 " +:+ itoa WeaponPrice)
      else
        let player := set_pl_Treasures (pl_Treasures player -i WeaponPrice) player in
        let player := set_pl_Attack (pl_Attack player +i WeaponBoost) player in
        t ← nowW;
        _ ← putPlayer username (set_pl_LastUpdate t player);
        _ ← bump;
        reply username (username +:+ " 在商店强化武器，攻击 +" +:+ itoa WeaponBoost
                        +:+ "，战利品 -" +:+ itoa WeaponPrice)
    else reply username "商店中没有这个商品").

Definition RewardPlayer (username : string) (treasureDelta victoryDelta : Z) : W (UserProfile * bool) :=
  o ← lookupP username;
  match o with
  | None => mret (zero_UserProfile, false)
  | Some player =>
      let player := set_pl_Treasures (pl_Treasures player +i treasureDelta) player in
      let player := set_pl_Victories (pl_Victories player +i victoryDelta) player in
      t ← nowW;
      let player := set_pl_LastUpdate t player in
      _ ← putPlayer username player;
      _ ← bump;
      w ← getW;
      mret (profileLocked w player, true)
  end.

(** ** Treasures *)

Definition dropTreasureLocked (x y value : Z) (kind : string) : W (option Treasure) :=
  w ← getW;
  if (x <? 0) || (y <? 0) || (zlen (w_terrain w) <=? y)
     || match zlookup y (w_terrain w) with Some row => zlen row <=? x | None => true end
  then mret None else
  found ← treasureAtLocked x y;
  match found with
  | Some (id, treasure) =>
      let treasure := set_tr_Value (tr_Value treasure +i value) treasure in
      _ ← putTreasure id treasure;
      _ ← bump;
      mret (Some treasure)
  | None =>
      let id := cfg_ID (w_cfg w) +:+ "-t-" +:+ itoa (w_nextTreasure w) in
      _ ← modW (fun w => set_nextTreasure (w_nextTreasure w +i 1) w);
      let treasure := mkTreasure id kind x y value in
      _ ← putTreasure id treasure;
      _ ← bump;
      mret (Some treasure)
  end.

Definition spawnTreasureLocked (kind : string) : W (option Treasure) :=
  best ← bestSpawnCellLocked "" false;
  match best with
  | None => mret None
  | Some (x, y) =>
      v ← Intn 4;
      dropTreasureLocked x y (1 + v) kind
  end.

Definition npc_names : list string := ["史莱姆"; "荒原狼"; "流寇"; "宝匣怪"; "石像魔"; "潜行兽"].

(** Go's [%] truncates: a negative counter would index out of range. *)
Definition spawnNPCLocked : W (option NPC) :=
  best ← bestSpawnCellLocked "" true;
  match best with
  | None => mret None
  | Some (x, y) =>
      w ← getW;
      let id := cfg_ID (w_cfg w) +:+ "-npc-" +:+ itoa (w_nextNPC w) in
      name ← liftO (zlookup (Z.rem (w_nextNPC w) (zlen npc_names)) npc_names);
      hp ← Intn 30;
      let npc := mkNPC id name x y (70 + hp) 90 NPCDamage true in
      _ ← modW (fun w => set_nextNPC (w_nextNPC w +i 1) w);
      _ ← putNPC id npc;
      _ ← bump;
      mret (Some npc)
  end.

(** ** Attacking *)

(** [best == nil || u.HP < best.HP || (u.HP == best.HP && u.ID < best.ID)] *)
Definition weaker (hp : Z) (id : string) (best : option (Z * string)) : bool :=
  match best with
  | None => true
  | Some (bhp, bid) => (hp <? bhp) || ((hp =? bhp) && str_ltb id bid)
  end.

Definition pick_target {A} (ok : A -> bool) (hp : A -> Z) (id : A -> string) (l : list A) : option A :=
  fold_left (fun best u =>
      if ok u && weaker (hp u) (id u) ((fun b => (hp b, id b)) <$> best) then Some u else best) l None.

Definition in_range (x y r ux uy : Z) : bool := distance x y ux uy <=? r.

Definition npc_target (player : Player) (l : list NPC) : option NPC :=
  pick_target (fun n => npc_Alive n && in_range (pl_X player) (pl_Y player) AttackRange (npc_X n) (npc_Y n))
    npc_HP npc_ID l.

Definition player_target (player : Player) (username : string) (l : list Player) : option Player :=
  pick_target (fun o => negb (bool_decide (pl_Username o = username)) && pl_Alive o
                        && in_range (pl_X player) (pl_Y player) AttackRange (pl_X o) (pl_Y o))
    pl_HP pl_Username l.

(** The values of a map in the order one [range] loop visits them. *)
Definition range_values {A} (m : World -> gmap string A) : W (list A) :=
  w ← getW;
  ks ← rangeW (m w);
  mret (omap (fun k => m w !! k) ks).

Definition attack_reply (username event target targetEvent : string)
    : W (string * string * string * UserProfile * bool) :=
  w ← getW;
  mret (event, target, targetEvent, default zero_UserProfile (profileLocked w <$> w_players w !! username), true).

Definition attack_npc (username : string) (player : Player) (npcTarget : NPC)
    : W (string * string * string * UserProfile * bool) :=
  let npcTarget := set_npc_HP (npc_HP npcTarget -i pl_Attack player) npcTarget in
  t ← nowW;
  let player := set_pl_LastUpdate t player in
  event ←
    if npc_HP npcTarget <=? 0 then
      _ ← modW (fun w => set_npcs (delete (npc_ID npcTarget) (w_npcs w)) w);
      _ ← putPlayer username (set_pl_Kills (pl_Kills player +i 1) player);
      v ← Intn 3;
      _ ← dropTreasureLocked (npc_X npcTarget) (npc_Y npcTarget) (2 + v) "怪物战利品";
      mret (username +:+ " 击败了 " +:+ npc_Name npcTarget +:+ "，掉落了一份战利品")
    else
      _ ← putNPC (npc_ID npcTarget) npcTarget;
      _ ← putPlayer username player;
      mret (username +:+ " 对 " +:+ npc_Name npcTarget +:+ " 造成了 " +:+ itoa (pl_Attack player) +:+ " 点伤害");
  _ ← bump;
  attack_reply username event "" "".

Definition attack_player (username : string) (player playerTarget : Player)
    : W (string * string * string * UserProfile * bool) :=
  let target := pl_Username playerTarget in
  let playerTarget := set_pl_HP (pl_HP playerTarget -i pl_Attack player) playerTarget in
  t ← nowW;
  let player := set_pl_LastUpdate t player in
  '(event, targetEvent) ←
    if pl_HP playerTarget <=? 0 then
      _ ← putPlayer username (set_pl_Kills (pl_Kills player +i 1) player);
      playerTarget ← knockDownPlayerLocked playerTarget;
      _ ← putPlayer target playerTarget;
      targetEvent ← respawn_note ("你被 " +:+ username +:+ " 击倒了，") "" " 秒后复活" playerTarget;
      mret (username +:+ " 击败了 " +:+ target, targetEvent)
    else
      _ ← putPlayer username player;
      _ ← putPlayer target playerTarget;
      mret (username +:+ " 对 " +:+ target +:+ " 造成了 " +:+ itoa (pl_Attack player) +:+ " 点伤害",
            "你遭到了 " +:+ username +:+ " 的攻击，生命 -" +:+ itoa (pl_Attack player));
  _ ← bump;
  attack_reply username event target targetEvent.

Definition Attack (username : string) : W (string * string * string * UserProfile * bool) :=
  with_player username ("", "", "", zero_UserProfile, false) (fun player =>
    if negb (pl_Alive player) then
      text ← respawn_note username " 倒地时无法发起攻击，" " 秒后复活" player;
      attack_reply username text "" ""
    else
      npcs ← range_values w_npcs;
      match npc_target player npcs with
      | Some npcTarget => attack_npc username player npcTarget
      | None =>
          others ← range_values w_players;
          match player_target player username others with
          | None => attack_reply username (username +:+ " 的攻击范围内没有目标") "" ""
          | Some playerTarget => attack_player username player playerTarget
          end
      end).

(** ** The tick *)

(** [closestPlayerLocked]: refresh every player, and keep the weakest live one
    within [radius]; the candidates are compared as they are visited. *)
Definition closestPlayerLocked (x y radius : Z) : W (option Player) :=
  w ← getW;
  ks ← rangeW (w_players w);
  foldM (fun best k =>
      _ ← refreshPlayerStateLocked k;
      o ← lookupP k;
      match o with
      | None => mret best
      | Some player =>
          if negb (pl_Alive player) || negb (in_range x y radius (pl_X player) (pl_Y player)) then mret best
          else mret (if weaker (pl_HP player) (pl_Username player)
                          ((fun b => (pl_HP b, pl_Username b)) <$> best)
                     then Some player else best)
      end) None ks.

(** [for len(w.npcs) < MinNPCs { if spawn ... else break }]; [fuel] bounds the
    iterations ([spawn_npcs_spec]: five are enough). *)
Fixpoint spawn_npcs (fuel : nat) (events : list string) : W (list string) :=
  w ← getW;
  if MinNPCs <=? Z.of_nat (size (w_npcs w)) then mret events else
  match fuel with
  | O => panic
  | S fuel' =>
      o ← spawnNPCLocked;
      match o with
      | Some npc =>
          spawn_npcs fuel' (events ++ [cfg_Name (w_cfg w) +:+ " 刷新了 " +:+ npc_Name npc +:+ "，位置 "
                                       +:+ cell_text (npc_X npc) (npc_Y npc)])
      | None => mret events
      end
  end.

(** Try the four directions from [base] on; [n] directions are left. *)
Fixpoint wander (id : string) (n : nat) (dir : Z) : W unit :=
  match n with
  | O => mret tt
  | S n' =>
      w ← getW;
      match w_npcs w !! id with
      | None => mret tt
      | Some npc =>
          let '(nx, ny) :=
            match dir mod 4 with
            | 0 => (npc_X npc, npc_Y npc -i 1)
            | 1 => (npc_X npc, npc_Y npc +i 1)
            | 2 => (npc_X npc -i 1, npc_Y npc)
            | _ => (npc_X npc +i 1, npc_Y npc)
            end in
          if walkableForLocked w nx ny "" then
            _ ← putNPC id (set_npc_XY nx ny npc);
            bump
          else wander id n' (dir + 1)
      end
  end.

(** One NPC's turn: strike the weakest adjacent player, or wander. *)
Definition npc_turn (events : list string) (id : string) : W (list string) :=
  o ← gets (fun s => w_npcs s.1 !! id);
  match o with
  | None => mret events
  | Some npc =>
      if negb (npc_Alive npc) then mret events else
      target ← closestPlayerLocked (npc_X npc) (npc_Y npc) 1;
      match target with
      | Some target =>
          let target := set_pl_HP (pl_HP target -i npc_Attack npc) target in
          t ← nowW;
          let target := set_pl_LastUpdate t target in
          events ←
            if pl_HP target <=? 0 then
              target ← knockDownPlayerLocked target;
              _ ← putPlayer (pl_Username target) target;
              mret (events ++ [pl_Username target +:+ " 被 " +:+ npc_Name npc +:+ " 击倒了"])
            else
              _ ← putPlayer (pl_Username target) target;
              mret (events ++ [npc_Name npc +:+ " 对 " +:+ pl_Username target +:+ " 造成了 "
                               +:+ itoa (npc_Attack npc) +:+ " 点伤害"]);
          _ ← bump;
          mret events
      | None =>
          base ← Intn 4;
          _ ← wander id 4 base;
          mret events
      end
  end.

Definition revive_event (events : list string) (k : string) : W (list string) :=
  before ← lookupP k;
  _ ← refreshPlayerStateLocked k;
  after ← lookupP k;
  match before, after with
  | Some p, Some p' =>
      mret (if negb (pl_Alive p) && pl_Alive p' then events ++ [pl_Username p' +:+ " 已在营地复活"] else events)
  | _, _ => mret events
  end.

Definition maybe_treasure (events : list string) : W (list string) :=
  w ← getW;
  if Z.of_nat (size (w_treasures w)) <? MaxTreasures then
    r ← Intn 100;
    if r <? 45 then
      o ← spawnTreasureLocked "野外宝箱";
      match o with
      | Some treasure =>
          mret (events ++ [cfg_Name (w_cfg w) +:+ " 刷新了宝物，位置 " +:+ cell_text (tr_X treasure) (tr_Y treasure)])
      | None => mret events
      end
    else mret events
  else mret events.

Definition BackgroundStep : W (list string) :=
  w ← getW;
  ks ← rangeW (w_players w);
  events ← foldM revive_event [] ks;
  events ← spawn_npcs (Z.to_nat MinNPCs) events;
  events ← maybe_treasure events;
  w ← getW;
  foldM npc_turn events (sort_strings (map_keys (w_npcs w))).

(** [respawnPlayer], which nothing calls. *)
Definition respawnPlayer (username : string) : W unit :=
  o ← lookupP username;
  match o with
  | None => mret tt
  | Some player =>
      if pl_Alive player then mret tt else
      w ← getW;
      '(x, y) ← findSafePositionLocked (cfg_SpawnX (w_cfg w)) (cfg_SpawnY (w_cfg w)) username;
      t ← nowW;
      let player := set_pl_HP (pl_MaxHP player) (set_pl_XY x y player) in
      let player := set_pl_Alive true (set_pl_Potions MaxPotions player) in
      _ ← putPlayer username (set_pl_LastUpdate t (set_pl_RespawnAt 0 player));
      bump
  end.

(** ** The world boss *)

Definition Sl2_WithinRange (username : string) (w : World) : bool :=
  match w_players w !! username with
  | None => false
  | Some player =>
      in_range (cfg_BossX (w_cfg w)) (cfg_BossY (w_cfg w)) BossAtkRange (pl_X player) (pl_Y player)
  end.

Definition Sl2_GetDamadge (username : string) (w : World) : Z :=
  match w_players w !! username with
  | None => 0
  | Some player => pl_Attack player
  end.

(** ** Snapshots and checkpoints *)

Definition npc_view (n : NPC) : NPCView :=
  mkNPCView (npc_ID n) (npc_Name n) (npc_X n) (npc_Y n) (npc_HP n) (npc_MaxHP n) (npc_Attack n) (npc_Alive n).
Definition treasure_view (t : Treasure) : TreasureView :=
  mkTreasureView (tr_ID t) (tr_Kind t) (tr_X t) (tr_Y t) (tr_Value t).

Definition by_key {A} (key : A -> string) (a b : A) : Prop := str_le (key a) (key b).

#[export] Instance by_key_dec {A} (key : A -> string) : RelDecision (by_key key).
Proof. intros a b. unfold by_key. apply _. Defined.

(** Panics (on [Layout[0]]) when the configured layout is empty. *)
Definition Snapshot (nodeID : string) : W MapView :=
  w ← getW;
  ks ← rangeW (w_players w);
  players ← foldM (fun acc k =>
      _ ← refreshPlayerStateLocked k;
      o ← lookupP k;
      match o with
      | None => mret acc
      | Some player => v ← playerViewLocked player; mret (acc ++ [v])
      end) [] ks;
  npcs ← range_values w_npcs;
  treasures ← range_values w_treasures;
  w ← getW;
  row0 ← liftO (zlookup 0 (cfg_Layout (w_cfg w)));
  mret (mkMapView (cfg_ID (w_cfg w)) (cfg_Name (w_cfg w)) nodeID
          (Z.of_nat (String.length row0)) (zlen (cfg_Layout (w_cfg w)))
          (gridToStrings (w_terrain w))
          (merge_sort (by_key pv_Username) players)
          (merge_sort (by_key nv_ID) (npc_view <$> npcs))
          (merge_sort (by_key tv_ID) (treasure_view <$> treasures))
          (w_version w)).

Definition Counts (w : World) : Z * Z * Z * Z :=
  (Z.of_nat (size (w_players w)), Z.of_nat (size (w_npcs w)), Z.of_nat (size (w_treasures w)), w_version w).

Definition CaptureCheckpoint (nodeID : string) : W MapCheckpoint :=
  snapshot ← Snapshot nodeID;
  t ← nowW;
  mret (mkMapCheckpoint (mv_ID snapshot) (mv_NodeID snapshot) 0 (mv_Version snapshot) (mv_Terrain snapshot)
          (mv_Players snapshot) (mv_NPCs snapshot) (mv_Treasures snapshot) t).

Definition restored_player (mapID : string) (t : Z) (v : PlayerView) : Player :=
  mkPlayer (pv_Username v) mapID (pv_X v) (pv_Y v) (pv_HP v) (pv_MaxHP v) (pv_Attack v)
    (valueOr (pv_Potions v) MaxPotions) (pv_Treasures v) (pv_Kills v) (pv_Deaths v) (pv_Victories v)
    (pv_Alive v) 0 t.

Definition restored_npc (v : NPCView) : NPC :=
  mkNPC (nv_ID v) (nv_Name v) (nv_X v) (nv_Y v) (nv_HP v) (nv_MaxHP v) (nv_Attack v) (nv_Alive v).
Definition restored_treasure (v : TreasureView) : Treasure :=
  mkTreasure (tv_ID v) (tv_Kind v) (tv_X v) (tv_Y v) (tv_Value v).

(** Later entries of the lists overwrite earlier ones with the same key. *)
Definition RestoreCheckpoint (cp : MapCheckpoint) : W unit :=
  w ← getW;
  if negb (bool_decide (cp_MapID cp = cfg_ID (w_cfg w))) || (cp_Version cp =? 0) then mret tt else
  _ ← modW (fun w => if 0 <? zlen (cp_Terrain cp) then set_terrain (stringsToGrid (cp_Terrain cp)) w else w);
  players ← foldM (fun m v =>
      t ← nowW;
      mret (<[pv_Username v := restored_player (cfg_ID (w_cfg w)) t v]> m)) ∅ (cp_Players cp);
  let npcs := foldl (fun m v => <[nv_ID v := restored_npc v]> m) ∅ (cp_NPCs cp) in
  let treasures := foldl (fun m v => <[tv_ID v := restored_treasure v]> m) ∅ (cp_Treasures cp) in
  modW (fun w =>
    let w := set_players players w in
    let w := set_npcs npcs w in
    let w := set_treasures treasures w in
    let w := set_version (cp_Version cp) w in
    let w := set_nextNPC (Z.of_nat (size npcs) + 1) w in
    set_nextTreasure (Z.of_nat (size treasures) + 1) w).

(** ** Construction *)

(** FNV-1a at 64 bits ([hash/fnv]). *)
Definition fnv64a (s : string) : Z :=
  fold_left (fun h c => u64 (Z.lxor h (byte_of c) * 1099511628211))
    (String.list_ascii_of_string s) 14695981039346656037.

(** [bootstrap]'s two loops have no exit but success: [None] when [fuel]
    iterations are not enough. *)
Fixpoint bootstrap_npcs (fuel : nat) : W unit :=
  w ← getW;
  if MinNPCs <=? Z.of_nat (size (w_npcs w)) then mret tt else
  match fuel with
  | O => panic
  | S fuel' => _ ← spawnNPCLocked; bootstrap_npcs fuel'
  end.

Fixpoint bootstrap_treasures (fuel : nat) : W unit :=
  w ← getW;
  if Z.quot MaxTreasures 2 <=? Z.of_nat (size (w_treasures w)) then mret tt else
  match fuel with
  | O => panic
  | S fuel' => _ ← spawnTreasureLocked "遗迹补给"; bootstrap_treasures fuel'
  end.

Definition bootstrap (fuel : nat) : W unit :=
  _ ← bootstrap_npcs fuel;
  bootstrap_treasures fuel.

Definition blank_world (cfg : MapConfig) (e : Env) : World :=
  mkWorld cfg (stringsToGrid (cfg_Layout cfg)) ∅ ∅ ∅ (rand_source e (i64 (fnv64a (cfg_ID cfg)))) 0 0 0 0.

Definition NewWorld (fuel : nat) (cfg : MapConfig) (e : Env) : option (World * Env) :=
  match bootstrap fuel (blank_world cfg e, e) with
  | Some (_, s) => Some s
  | None => None
  end.

Definition MapID (w : World) : string := cfg_ID (w_cfg w).
Definition MapName (w : World) : string := cfg_Name (w_cfg w).
