(* ===== verification/WorldInv.v ===== *)
(** * The world of one map: specifications of the building blocks

    The well-formedness invariant of a world and total-correctness
    specifications (in [wp] form) of the routines the operations share. *)

From Stdlib Require Import ZArith Lia String.
From stdpp Require Import base gmap strings list sorting option pretty.
From S2P Require Import Prelude Protocol Maps World WorldOps.

Open Scope Z_scope.
Open Scope go_scope.

(** ** The invariant *)

(** A cell of the grid that is not a wall. *)
Definition stands (g : list (list Z)) (x y : Z) : Prop :=
  exists row c, zlookup y g = Some row /\ zlookup x row = Some c /\ c <> wall.

Record player_wf (g : list (list Z)) (k : string) (p : Player) : Prop := {
  pw_key : pl_Username p = k;
  pw_pos : stands g (pl_X p) (pl_Y p);
  pw_max : InitHP <= pl_MaxHP p < 2^31;
  pw_hp : 0 <= pl_HP p <= pl_MaxHP p;
  pw_alive : pl_Alive p = true -> 0 < pl_HP p;
  pw_attack : 0 <= pl_Attack p < 2^63
}.

Record npc_wf (g : list (list Z)) (k : string) (n : NPC) : Prop := {
  nw_key : npc_ID n = k;
  nw_pos : stands g (npc_X n) (npc_Y n);
  nw_alive : npc_Alive n = true;
  nw_hp : 0 < npc_HP n < 2^31;
  nw_attack : 0 <= npc_Attack n < 2^31
}.

Record treasure_wf (g : list (list Z)) (k : string) (t : Treasure) : Prop := {
  tw_key : tr_ID t = k;
  tw_pos : stands g (tr_X t) (tr_Y t)
}.

Record world_wf (w : World) : Prop := {
  ww_row0 : is_Some (zlookup 0 (w_terrain w));
  ww_layout : is_Some (zlookup 0 (cfg_Layout (w_cfg w)));
  ww_spawn : stands (w_terrain w) (cfg_SpawnX (w_cfg w)) (cfg_SpawnY (w_cfg w));
  ww_players : map_Forall (player_wf (w_terrain w)) (w_players w);
  ww_npcs : map_Forall (npc_wf (w_terrain w)) (w_npcs w);
  ww_treasures : map_Forall (treasure_wf (w_terrain w)) (w_treasures w);
  ww_nextNPC : 0 <= w_nextNPC w < 2^63
}.

(** No live unit stands on the cell, and it is open. *)
Definition free_cell (w : World) (ignore : string) (x y : Z) : Prop :=
  stands (w_terrain w) x y /\
  (forall k p, w_players w !! k = Some p ->
     pl_Username p <> ignore -> pl_Alive p = true -> (pl_X p, pl_Y p) <> (x, y)) /\
  (forall k n, w_npcs w !! k = Some n -> npc_Alive n = true -> (npc_X n, npc_Y n) <> (x, y)).

(** ** Lists and maps *)

Lemma zlookup_Some {A} i (l : list A) x :
  zlookup i l = Some x -> 0 <= i < zlen l /\ l !! Z.to_nat i = Some x.
Proof.
  unfold zlookup, zlen. destruct (Z.ltb_spec i 0); [done|]. intros H'.
  pose proof (lookup_lt_Some _ _ _ H'). split; [lia|done].
Qed.

Lemma zlookup_is_Some {A} i (l : list A) : is_Some (zlookup i l) <-> 0 <= i < zlen l.
Proof.
  split.
  - intros [x H]. by apply zlookup_Some in H as [? _].
  - unfold zlookup, zlen. destruct (Z.ltb_spec i 0); [lia|]. intros. apply lookup_lt_is_Some. lia.
Qed.

Lemma zlookup_0_ne {A} (l : list A) : is_Some (zlookup 0 l) <-> l <> [].
Proof. rewrite zlookup_is_Some. unfold zlen. destruct l; cbn; split; try done; lia. Qed.

Lemma elem_of_values {A} (m : gmap string A) x : x ∈ values m <-> exists k, m !! k = Some x.
Proof.
  unfold values. rewrite list_elem_of_fmap. split.
  - intros ([k v] & -> & H%elem_of_map_to_list). eauto.
  - intros [k H]. exists (k, x). split; [done|by apply elem_of_map_to_list].
Qed.

Lemma elem_of_omap_keys {A} (m : gmap string A) (ks : list string) x :
  ks ≡ₚ map_keys m -> x ∈ omap (fun k => m !! k) ks <-> exists k, m !! k = Some x.
Proof.
  intros Hks. rewrite list_elem_of_omap. split; [by intros (k & _ & ?); eauto|].
  intros [k H]. exists k. split; [|done]. rewrite Hks. apply elem_of_map_keys. eauto.
Qed.

Lemma elem_of_cells g x y : (x, y) ∈ cells g <-> exists row, zlookup y g = Some row /\ is_Some (zlookup x row).
Proof.
  unfold cells. rewrite list_elem_of_join. split.
  - intros (l & Hin & (i & row & -> & Hrow)%elem_of_lookup_imap).
    apply elem_of_lookup_imap in Hin as (j & c & [= -> ->] & Hc).
    exists row. unfold zlookup. rewrite !Nat2Z.id.
    destruct (Z.ltb_spec (Z.of_nat i) 0); [lia|]. destruct (Z.ltb_spec (Z.of_nat j) 0); [lia|]. eauto.
  - intros (row & (Hy & Hrow)%zlookup_Some & [c (Hx & Hc)%zlookup_Some]).
    eexists. split; [|apply elem_of_lookup_imap; eexists _, _; split; [done|exact Hrow]].
    apply elem_of_lookup_imap. exists (Z.to_nat x), c. split; [|done]. f_equal; lia.
Qed.

(** ** Walkability *)

Lemma walkable_spec w x y ig :
  walkableForLocked w x y ig = true <-> free_cell w ig x y.
Proof.
  unfold walkableForLocked, free_cell, stands.
  destruct (zlookup y (w_terrain w)) as [row|] eqn:Hy; [|naive_solver].
  destruct (zlookup x row) as [c|] eqn:Hx; [|naive_solver].
  rewrite !andb_true_iff, negb_true_iff, Z.eqb_neq, !forallb_forall.
  setoid_rewrite <- list_elem_of_In. setoid_rewrite elem_of_values. split.
  - intros [[Hc Hp] Hn]. split; [eauto|]. split.
    + intros k p Hk Hu Ha [= Hpx Hpy]. specialize (Hp p (ex_intro _ k Hk)). revert Hp.
      rewrite bool_decide_eq_false_2, Ha by done. subst. by rewrite !Z.eqb_refl.
    + intros k n Hk Ha [= Hpx Hpy]. specialize (Hn n (ex_intro _ k Hk)). revert Hn.
      rewrite Ha. subst. by rewrite !Z.eqb_refl.
  - intros [(row' & c' & [= <-] & Hc' & Hw) [Hp Hn]]. simplify_eq. split_and!; [done| |].
    + intros p [k Hk]. specialize (Hp k p Hk).
      destruct (bool_decide_reflect (pl_Username p = ig)) as [?|Hu]; [done|]. cbn.
      destruct (pl_Alive p); [|done]. cbn.
      destruct (Z.eqb_spec (pl_X p) x), (Z.eqb_spec (pl_Y p) y); cbn; try done.
      exfalso. subst. by apply Hp.
    + intros n [k Hk]. specialize (Hn k n Hk). destruct (npc_Alive n); [|done]. cbn.
      destruct (Z.eqb_spec (npc_X n) x), (Z.eqb_spec (npc_Y n) y); cbn; try done.
      exfalso. subst. by apply Hn.
Qed.

Lemma free_cell_stands w ig x y : free_cell w ig x y -> stands (w_terrain w) x y.
Proof. by intros [? _]. Qed.

Lemma free_cell_cells w ig x y : free_cell w ig x y -> (x, y) ∈ cells (w_terrain w).
Proof. intros [(row & c & ? & ? & ?) _]. apply elem_of_cells. eauto. Qed.

(** ** Primitive operations *)

Section primitives.
Context {A : Type} (w : World) (e : Env).

Lemma wp_getW (Q : World -> WS -> Prop) : Q w (w, e) -> wp getW Q (w, e).
Proof. done. Qed.

Lemma wp_modW f (Q : unit -> WS -> Prop) : Q tt (f w, e) -> wp (modW f) Q (w, e).
Proof. done. Qed.

Lemma wp_nowW (Q : Z -> WS -> Prop) : (forall t e', Q t (w, e')) -> wp nowW Q (w, e).
Proof. intros H. apply H. Qed.

Lemma wp_rangeW {B} (m : gmap string B) (Q : list string -> WS -> Prop) :
  (forall ks e', ks ≡ₚ map_keys m -> Q ks (w, e')) -> wp (rangeW m) Q (w, e).
Proof. intros H. apply H. apply arrange_Permutation. Qed.

Lemma wp_range_values {B} (m : World -> gmap string B) (Q : list B -> WS -> Prop) :
  (forall l e', l ≡ₚ values (m w) -> Q l (w, e')) -> wp (range_values m) Q (w, e).
Proof.
  intros H. unfold range_values. apply wp_bind, wp_getW, wp_bind, wp_rangeW.
  intros ks e' Hks. apply wp_ret, H. rewrite Hks. unfold map_keys, values.
  assert (Hin : forall it, it ∈ map_to_list (m w) -> m w !! it.1 = Some it.2).
  { intros [k v]. apply elem_of_map_to_list. }
  induction (map_to_list (m w)) as [|[k v] l IH]; [done|].
  cbn. pose proof (Hin (k, v) ltac:(left)) as Hkv. cbn in Hkv. rewrite Hkv. f_equiv.
  apply IH. intros. apply Hin. by right.
Qed.

Lemma wp_Intn n (Q : Z -> WS -> Prop) :
  0 < n -> (forall v pos, 0 <= v < n -> Q v (set_rngPos pos w, e)) -> wp (Intn n) Q (w, e).
Proof.
  intros Hn H. unfold wp, Intn. destruct (Z.leb_spec n 0); [lia|].
  apply H. cbn. by apply Z.mod_pos_bound.
Qed.

Lemma wp_liftO (o : option A) a (Q : A -> WS -> Prop) : o = Some a -> Q a (w, e) -> wp (liftO o) Q (w, e).
Proof. intros ->. done. Qed.

Lemma wp_lookupP k (Q : option Player -> WS -> Prop) : Q (w_players w !! k) (w, e) -> wp (lookupP k) Q (w, e).
Proof. done. Qed.

Lemma wp_putPlayer k p (Q : unit -> WS -> Prop) :
  Q tt (set_players (<[k := p]> (w_players w)) w, e) -> wp (putPlayer k p) Q (w, e).
Proof. done. Qed.

Lemma wp_putNPC k n (Q : unit -> WS -> Prop) :
  Q tt (set_npcs (<[k := n]> (w_npcs w)) w, e) -> wp (putNPC k n) Q (w, e).
Proof. done. Qed.

Lemma wp_putTreasure k t (Q : unit -> WS -> Prop) :
  Q tt (set_treasures (<[k := t]> (w_treasures w)) w, e) -> wp (putTreasure k t) Q (w, e).
Proof. done. Qed.

Lemma wp_bump (Q : unit -> WS -> Prop) :
  Q tt (set_version (w_version w +i 1) w, e) -> wp bump Q (w, e).
Proof. done. Qed.
End primitives.

(** Symbolic execution of straight-line code on an explicit state [(w, e)]. *)
Ltac w_step :=
  lazymatch goal with
  | |- wp (_ ≫= _) _ _ => apply wp_bind
  | |- wp (mret _) _ _ => apply wp_ret
  | |- wp getW _ _ => apply wp_getW
  | |- wp (modW _) _ _ => apply wp_modW
  | |- wp nowW _ _ => apply wp_nowW; intros ? ?
  | |- wp (lookupP _) _ _ => apply wp_lookupP
  | |- wp (putPlayer _ _) _ _ => apply wp_putPlayer
  | |- wp (putNPC _ _) _ _ => apply wp_putNPC
  | |- wp (putTreasure _ _) _ _ => apply wp_putTreasure
  | |- wp bump _ _ => apply wp_bump
  | |- wp (gets _) _ _ => apply wp_gets
  | |- wp (let _ := _ in _) _ _ => cbv zeta
  | |- wp ((fun _ => _) _) _ _ => cbv beta
  end.
Ltac w_steps := repeat w_step.

(** ** Spawn selection *)

Lemma spawnScore_Some w x y b : is_Some (zlookup 0 (w_terrain w)) -> is_Some (spawnScoreLocked w x y b).
Proof. intros [row0 H]. unfold spawnScoreLocked. rewrite H. cbn. eauto. Qed.

Lemma foldO_candidates w ig b l acc :
  is_Some (zlookup 0 (w_terrain w)) ->
  exists l', foldO (fun acc '(x, y) =>
      if walkableForLocked w x y ig then
        score ← spawnScoreLocked w x y b; mret (acc ++ [mkCandidate x y score])
      else mret acc) acc l = Some (acc ++ l')
   /\ (forall c, c ∈ l' -> walkableForLocked w (c_x c) (c_y c) ig = true
                         /\ spawnScoreLocked w (c_x c) (c_y c) b = Some (c_score c))
   /\ (forall x y, (x, y) ∈ l -> walkableForLocked w x y ig = true ->
        exists c, c ∈ l' /\ c_x c = x /\ c_y c = y).
Proof.
  intros H0. revert acc. induction l as [|[x y] l IH]; intros acc.
  { exists []. rewrite app_nil_r. split_and!; [done|by intros ? ?%elem_of_nil|by intros ?? ?%elem_of_nil]. }
  cbn [foldO]. destruct (walkableForLocked w x y ig) eqn:Hw.
  - destruct (spawnScore_Some w x y b H0) as [s Hs]. rewrite Hs. cbn [mbind option_bind mret option_ret].
    destruct (IH (acc ++ [mkCandidate x y s])) as (l' & -> & Hl & Hc).
    exists (mkCandidate x y s :: l'). rewrite <- app_assoc. split_and!; [done| |].
    + intros c [->|Hin]%elem_of_cons; [done|auto].
    + intros x' y' [[= -> ->]|Hin]%elem_of_cons Hw'; [eexists; split; [left|done]|].
      destruct (Hc _ _ Hin Hw') as (c & ? & ?). exists c. split; [by right|done].
  - cbn [mbind option_bind mret option_ret].
    destruct (IH acc) as (l' & -> & Hl & Hc). exists l'. split_and!; [done|done|].
    intros x' y' [[= -> ->]|Hin]%elem_of_cons Hw'; [congruence|eauto].
Qed.

Lemma spawn_candidates_spec w ig b :
  is_Some (zlookup 0 (w_terrain w)) ->
  exists l, spawn_candidates w ig b = Some l
   /\ (forall c, c ∈ l -> walkableForLocked w (c_x c) (c_y c) ig = true
                         /\ spawnScoreLocked w (c_x c) (c_y c) b = Some (c_score c))
   /\ (forall x y, walkableForLocked w x y ig = true -> exists c, c ∈ l /\ c_x c = x /\ c_y c = y).
Proof.
  intros H0. destruct (foldO_candidates w ig b (cells (w_terrain w)) [] H0) as (l & Hl & Hs & Hc).
  exists l. split_and!; [exact Hl|done|].
  intros x y Hw. apply Hc; [|done]. by apply walkable_spec, free_cell_cells in Hw.
Qed.

Section blocks.
Context (w : World) (e : Env).

(** The chosen cell is free; there is no choice only when no cell is free. *)
Lemma wp_bestSpawnCell ig b (Q : option (Z * Z) -> WS -> Prop) :
  is_Some (zlookup 0 (w_terrain w)) ->
  (forall x y, free_cell w ig x y -> forall pos, Q (Some (x, y)) (set_rngPos pos w, e)) ->
  ((forall x y, ~ free_cell w ig x y) -> Q None (w, e)) ->
  wp (bestSpawnCellLocked ig b) Q (w, e).
Proof.
  intros H0 HS HN. unfold bestSpawnCellLocked. w_steps.
  destruct H0 as [row0 Hrow0]. eapply wp_liftO; [done|]. w_steps.
  destruct (spawn_candidates_spec w ig b ltac:(eauto)) as (l & Hl & Hw & Hc).
  eapply wp_liftO; [done|]. destruct l as [|c0 l'].
  - w_steps. apply HN. intros x y Hf%walkable_spec. destruct (Hc x y Hf) as (c & []%elem_of_nil & _).
  - set (l := c0 :: l') in *. cbv zeta.
    assert (Hlen : 0 < zlen (merge_sort candidate_le l)).
    { unfold zlen. rewrite (Permutation_length (merge_sort_Permutation _ _)). cbn. lia. }
    w_steps. apply wp_Intn; [case_match; lia|]. intros i pos Hi.
    destruct (proj2 (zlookup_is_Some i (merge_sort candidate_le l))) as [pick Hpick].
    { revert Hi. case_match eqn:E; [|rewrite Z.ltb_ge in E]; lia. }
    w_steps. eapply wp_liftO; [done|]. w_steps. apply HS. apply walkable_spec, Hw.
    rewrite <- (merge_sort_Permutation candidate_le l).
    apply zlookup_Some in Hpick as [_ ?]. by eapply list_elem_of_lookup_2.
Qed.

Lemma wp_findSafePosition x y ig (Q : Z * Z -> WS -> Prop) :
  is_Some (zlookup 0 (w_terrain w)) ->
  (forall x' y', free_cell w ig x' y' -> (free_cell w ig x y -> (x', y') = (x, y)) ->
     forall pos, Q (x', y') (set_rngPos pos w, e)) ->
  ((forall x' y', ~ free_cell w ig x' y') -> Q (cfg_SpawnX (w_cfg w), cfg_SpawnY (w_cfg w)) (w, e)) ->
  wp (findSafePositionLocked x y ig) Q (w, e).
Proof.
  intros H0 HS HN. unfold findSafePositionLocked. w_steps.
  destruct (walkableForLocked w x y ig) eqn:Hw.
  - apply walkable_spec in Hw. w_steps. specialize (HS x y Hw ltac:(done) (w_rngPos w)). by destruct w.
  - assert (~ free_cell w ig x y) by (rewrite <- walkable_spec; congruence).
    w_steps. apply wp_bestSpawnCell; [done| |].
    + intros. w_steps. apply HS; [done|]. by intros ?.
    + intros. w_steps. auto.
Qed.

(** ** Treasures *)

Lemma wp_treasureAt x y (Q : option (string * Treasure) -> WS -> Prop) :
  (forall id t e', w_treasures w !! id = Some t -> tr_X t = x -> tr_Y t = y -> Q (Some (id, t)) (w, e')) ->
  ((forall id t, w_treasures w !! id = Some t -> (tr_X t, tr_Y t) <> (x, y)) -> forall e', Q None (w, e')) ->
  wp (treasureAtLocked x y) Q (w, e).
Proof.
  intros HS HN. unfold treasureAtLocked. w_steps. apply wp_rangeW. intros ks e' Hks. w_steps.
  set (l := omap _ ks).
  assert (Hin : forall id t, (id, t) ∈ l <-> w_treasures w !! id = Some t).
  { intros id t. unfold l. rewrite list_elem_of_omap. split.
    - intros (k & _ & Hk). destruct (w_treasures w !! k) eqn:E; cbn in Hk; [|done]. by simplify_eq.
    - intros H. exists id. rewrite H. split; [|done]. rewrite Hks, elem_of_map_keys. eauto. }
  destruct (list_find _ l) as [[i [id t]]|] eqn:Hf; cbn.
  - apply list_find_Some in Hf as (Hl & [??] & _). apply HS; [|done..].
    apply Hin. by eapply list_elem_of_lookup_2.
  - apply list_find_None in Hf. apply HN. intros id t Ht [= ? ?].
    rewrite Forall_forall in Hf. by apply (Hf (id, t)); [apply Hin|].
Qed.
End blocks.

(** ** Preservation by single updates *)

Lemma world_wf_version v w : world_wf w -> world_wf (set_version v w).
Proof. intros []. by constructor. Qed.
Lemma world_wf_rngPos v w : world_wf w -> world_wf (set_rngPos v w).
Proof. intros []. by constructor. Qed.
Lemma world_wf_nextTreasure v w : world_wf w -> world_wf (set_nextTreasure v w).
Proof. intros []. by constructor. Qed.
Lemma world_wf_nextNPC v w : 0 <= v < 2^63 -> world_wf w -> world_wf (set_nextNPC v w).
Proof. intros ? []. by constructor. Qed.
Lemma world_wf_putPlayer k p w :
  player_wf (w_terrain w) k p -> world_wf w -> world_wf (set_players (<[k := p]> (w_players w)) w).
Proof. intros ? []. constructor; try done. by apply map_Forall_insert_2. Qed.
Lemma world_wf_putNPC k n w :
  npc_wf (w_terrain w) k n -> world_wf w -> world_wf (set_npcs (<[k := n]> (w_npcs w)) w).
Proof. intros ? []. constructor; try done. by apply map_Forall_insert_2. Qed.
Lemma world_wf_putTreasure k t w :
  treasure_wf (w_terrain w) k t -> world_wf w -> world_wf (set_treasures (<[k := t]> (w_treasures w)) w).
Proof. intros ? []. constructor; try done. by apply map_Forall_insert_2. Qed.
Lemma world_wf_delPlayer k w : world_wf w -> world_wf (set_players (delete k (w_players w)) w).
Proof. intros []. constructor; try done. by apply map_Forall_delete. Qed.
Lemma world_wf_delNPC k w : world_wf w -> world_wf (set_npcs (delete k (w_npcs w)) w).
Proof. intros []. constructor; try done. by apply map_Forall_delete. Qed.
Lemma world_wf_delTreasure k w : world_wf w -> world_wf (set_treasures (delete k (w_treasures w)) w).
Proof. intros []. constructor; try done. by apply map_Forall_delete. Qed.

Create HintDb wf.
#[export] Hint Resolve world_wf_version world_wf_rngPos world_wf_nextTreasure world_wf_nextNPC
  world_wf_putPlayer world_wf_putNPC world_wf_putTreasure world_wf_delPlayer world_wf_delNPC
  world_wf_delTreasure ww_row0 ww_layout ww_spawn ww_players ww_npcs ww_treasures : wf.

Lemma wf_player w k p : world_wf w -> w_players w !! k = Some p -> player_wf (w_terrain w) k p.
Proof. intros H. apply (ww_players _ H). Qed.
Lemma wf_npc w k n : world_wf w -> w_npcs w !! k = Some n -> npc_wf (w_terrain w) k n.
Proof. intros H. apply (ww_npcs _ H). Qed.
Lemma wf_treasure w k t : world_wf w -> w_treasures w !! k = Some t -> treasure_wf (w_terrain w) k t.
Proof. intros H. apply (ww_treasures _ H). Qed.

(** Discharge a [player_wf] of an updated player from the one it came from. *)
Ltac player_wf_tac :=
  match goal with
  | H : player_wf _ _ _ |- player_wf _ _ _ =>
      destruct H; constructor; cbn; solve [done | unfold InitHP in *; intros; lia]
  end.

(** ** Refreshing a player *)

Definition revive (x y t : Z) (p : Player) : Player :=
  set_pl_LastUpdate t (set_pl_RespawnAt 0 (set_pl_Alive true
    (set_pl_Potions (Z.max (pl_Potions p) MaxPotions) (set_pl_HP (pl_MaxHP p) (set_pl_XY x y p))))).

(** The player is down and due to be revived at some reading [t] of the clock. *)
Definition revivable (p : Player) : Prop := pl_Alive p = false /\ pl_RespawnAt p <> 0.

Lemma revive_wf g k x y t p : player_wf g k p -> stands g x y -> player_wf g k (revive x y t p).
Proof. intros H Hs. player_wf_tac. Qed.

Section refresh.
Context (w : World) (e : Env).

Lemma wp_refresh k (Q : unit -> WS -> Prop) :
  is_Some (zlookup 0 (w_terrain w)) ->
  (forall e', Q tt (w, e')) ->
  (forall p x y t pos e', w_players w !! k = Some p -> revivable p ->
     (free_cell w (pl_Username p) x y
      \/ (forall x' y', ~ free_cell w (pl_Username p) x' y')
         /\ (x, y) = (cfg_SpawnX (w_cfg w), cfg_SpawnY (w_cfg w))) ->
     Q tt (set_version (w_version w +i 1) (set_players (<[k := revive x y t p]> (w_players w)) (set_rngPos pos w)), e')) ->
  wp (refreshPlayerStateLocked k) Q (w, e).
Proof.
  intros H0 HN HS. unfold refreshPlayerStateLocked. w_steps.
  destruct (w_players w !! k) as [p|] eqn:Hp; [|w_steps; by apply HN].
  destruct (pl_Alive p || IsZero (pl_RespawnAt p)) eqn:Hc; [w_steps; apply HN|].
  apply orb_false_iff in Hc as [Ha Hz]. apply Z.eqb_neq in Hz.
  w_steps. destruct (Z.ltb_spec t (pl_RespawnAt p)); [w_steps; apply HN|].
  w_steps. apply wp_findSafePosition; [done| |].
  - intros x y Hf _ pos. w_steps. by apply (HS p x y t0 pos e'0 eq_refl (conj Ha Hz)); left.
  - intros Hnf. w_steps.
    specialize (HS p (cfg_SpawnX (w_cfg w)) (cfg_SpawnY (w_cfg w)) t0 (w_rngPos w) e'0 eq_refl
                  (conj Ha Hz) (or_intror (conj Hnf eq_refl))).
    by destruct w.
Qed.

(** After a refresh the world is well formed and only player [k] may differ. *)
Definition refreshed (k : string) (w w' : World) : Prop :=
  w' = w \/ exists p x y t pos,
    w_players w !! k = Some p /\ revivable p /\ stands (w_terrain w) x y /\
    w' = set_version (w_version w +i 1) (set_players (<[k := revive x y t p]> (w_players w)) (set_rngPos pos w)).

Lemma wp_refresh_wf k (Q : unit -> WS -> Prop) :
  world_wf w -> (forall w' e', world_wf w' -> refreshed k w w' -> Q tt (w', e')) ->
  wp (refreshPlayerStateLocked k) Q (w, e).
Proof.
  intros Hw HQ. apply wp_refresh; [by apply ww_row0| |].
  - intros. apply HQ; [done|by left].
  - intros p x y t pos e' Hp Hr Hpos.
    assert (stands (w_terrain w) x y).
    { destruct Hpos as [?%free_cell_stands|[_ [= -> ->]]]; [done|by apply ww_spawn]. }
    apply HQ; [|right; naive_solver].
    apply world_wf_version, (world_wf_putPlayer _ _ (set_rngPos pos w)); auto with wf.
    cbn. apply revive_wf; [by apply wf_player|done].
Qed.
End refresh.

Lemma refreshed_static k w w' : refreshed k w w' -> w_cfg w' = w_cfg w /\ w_terrain w' = w_terrain w
  /\ w_npcs w' = w_npcs w /\ w_treasures w' = w_treasures w /\ w_nextNPC w' = w_nextNPC w
  /\ dom (w_players w') = dom (w_players w).
Proof.
  intros [->|(p & x & y & t & pos & Hp & _ & _ & ->)]; [done|]. cbn. split_and!; try done.
  rewrite dom_insert_L. apply elem_of_dom_2 in Hp. set_solver.
Qed.

(** A loop over players that only refreshes them and reads. *)
Definition refreshes (w w' : World) : Prop :=
  w_cfg w' = w_cfg w /\ w_terrain w' = w_terrain w /\ w_npcs w' = w_npcs w
  /\ w_treasures w' = w_treasures w /\ w_nextNPC w' = w_nextNPC w /\ dom (w_players w') = dom (w_players w).

#[export] Instance refreshes_po : PreOrder refreshes.
Proof. unfold refreshes. split; [by intros ?|]. intros ??? (?&?&?&?&?&?) (?&?&?&?&?&?). split_and!; congruence. Qed.

Lemma refreshed_refreshes k w w' : refreshed k w w' -> refreshes w w'.
Proof. apply refreshed_static. Qed.
#[export] Hint Resolve refreshed_refreshes : wf.

Lemma wp_with_player {A} w e username (absent : A) k (Q : A -> WS -> Prop) :
  world_wf w ->
  (w_players w !! username = None -> Q absent (w, e)) ->
  (forall w' e' p, world_wf w' -> refreshed username w w' -> w_players w' !! username = Some p ->
     wp (k p) Q (w', e')) ->
  wp (with_player username absent k) Q (w, e).
Proof.
  intros Hw HN HS. unfold with_player. w_steps.
  destruct (w_players w !! username) as [p|] eqn:Hp; [|w_steps; auto].
  w_steps. apply wp_refresh_wf; [done|]. intros w' e' Hw' Hr. w_steps.
  destruct (w_players w' !! username) as [p'|] eqn:Hp'; [eauto|].
  exfalso. apply refreshed_static in Hr as (_&_&_&_&_&Hd).
  apply elem_of_dom_2 in Hp. rewrite <- Hd in Hp. by apply not_elem_of_dom in Hp'.
Qed.
