(* ===== verification/WorldSafe.v ===== *)
(** * The world of one map: invariant and absence of panics

    Every method of the world as a label, what its arguments must satisfy, and
    that it then terminates without a panic and preserves [world_wf]. *)

From Stdlib Require Import ZArith Lia String.
From stdpp Require Import base gmap strings list sorting option pretty.
From S2P Require Import Prelude Protocol Maps World WorldOps WorldInv.

Open Scope Z_scope.
Open Scope go_scope.

(** What an operation guarantees from the world [w0]: still well formed, and
    the map itself (configuration and terrain) untouched. *)
Definition keeps {A} (w0 : World) (_ : A) (s : WS) : Prop :=
  world_wf s.1 /\ w_cfg s.1 = w_cfg w0 /\ w_terrain s.1 = w_terrain w0.

(** Login data that respects the range of the game's own profiles. *)
Record profile_ok (p : UserProfile) : Prop := {
  po_max : InitHP <= valueOr (up_MaxHP p) InitHP < 2^31;
  po_hp : up_HP p <= valueOr (up_MaxHP p) InitHP;
  po_attack : 0 <= up_Attack p < 2^63
}.

(** ** The operations as labels *)
Inductive wop :=
  | OpAdd (profile : UserProfile)
  | OpRemove (username : string)
  | OpProfile (username : string)
  | OpFlush (since : Z)
  | OpMove (username dir : string)
  | OpHeal (username : string)
  | OpAttack (username : string)
  | OpBuy (username item : string)
  | OpReward (username : string) (treasureDelta victoryDelta : Z)
  | OpTick
  | OpSnapshot (nodeID : string)
  | OpCapture (nodeID : string)
  | OpRestore (cp : MapCheckpoint)
  | OpWithinRange (username : string)
  | OpGetDamage (username : string)
  | OpCounts.

Definition run_op (op : wop) : W unit :=
  match op with
  | OpAdd p => _ ← AddOrRestorePlayer p; mret tt
  | OpRemove u => _ ← RemovePlayer u; mret tt
  | OpProfile u => _ ← ProfileOf u; mret tt
  | OpFlush t => _ ← FlushProfiles t; mret tt
  | OpMove u d => _ ← MovePlayer u d; mret tt
  | OpHeal u => _ ← HealPlayer u; mret tt
  | OpAttack u => _ ← Attack u; mret tt
  | OpBuy u i => _ ← BuyItem u i; mret tt
  | OpReward u t v => _ ← RewardPlayer u t v; mret tt
  | OpTick => _ ← BackgroundStep; mret tt
  | OpSnapshot n => _ ← Snapshot n; mret tt
  | OpCapture n => _ ← CaptureCheckpoint n; mret tt
  | OpRestore cp => RestoreCheckpoint cp
  | OpWithinRange u => _ ← gets (fun s => Sl2_WithinRange u s.1); mret tt
  | OpGetDamage u => _ ← gets (fun s => Sl2_GetDamadge u s.1); mret tt
  | OpCounts => _ ← gets (fun s => Counts s.1); mret tt
  end.

(** ** What a checkpoint must hold *)

(** The guard of [RestoreCheckpoint]. *)
Definition restores (cp : MapCheckpoint) (w : World) : bool :=
  bool_decide (cp_MapID cp = cfg_ID (w_cfg w)) && negb (cp_Version cp =? 0).

(** The terrain after a restoration over the terrain [g]. *)
Definition restored_terrain (cp : MapCheckpoint) (g : list (list Z)) : list (list Z) :=
  if 0 <? zlen (cp_Terrain cp) then stringsToGrid (cp_Terrain cp) else g.

(** The units of the checkpoint respect the invariant on the terrain [g]. *)
Record checkpoint_ok (cfg : MapConfig) (g : list (list Z)) (cp : MapCheckpoint) : Prop := {
  ck_row0 : is_Some (zlookup 0 g);
  ck_spawn : stands g (cfg_SpawnX cfg) (cfg_SpawnY cfg);
  ck_players : Forall (fun v => player_wf g (pv_Username v) (restored_player (cfg_ID cfg) 0 v)) (cp_Players cp);
  ck_npcs : Forall (fun v => npc_wf g (nv_ID v) (restored_npc v)) (cp_NPCs cp);
  ck_treasures : Forall (fun v => treasure_wf g (tv_ID v) (restored_treasure v)) (cp_Treasures cp);
  ck_count : zlen (cp_NPCs cp) + 1 < 2^63
}.

(** The terrain an operation leaves: only a restoration changes it. *)
Definition terrain_after (op : wop) (w : World) : list (list Z) :=
  match op with
  | OpRestore cp => if restores cp w then restored_terrain cp (w_terrain w) else w_terrain w
  | _ => w_terrain w
  end.

(** The side conditions: login data in range, a checkpoint in order, and counters
    away from the ends of their 64-bit range. *)
Definition op_ok (op : wop) (w : World) : Prop :=
  match op with
  | OpAdd p => profile_ok p
  | OpBuy u _ => forall p, w_players w !! u = Some p -> pl_Attack p + WeaponBoost < 2^63
  | OpTick => w_nextNPC w + MinNPCs < 2^63
  | OpRestore cp => restores cp w = true -> checkpoint_ok (w_cfg w) (restored_terrain cp (w_terrain w)) cp
  | _ => True
  end.

(** ** Environment-only steps *)

Section env_only.
Context (w : World) (e : Env).

Lemma wp_playerRespawnIn p (Q : Z -> WS -> Prop) :
  (forall r e', Q r (w, e')) -> wp (playerRespawnInLocked p) Q (w, e).
Proof. intros H. unfold playerRespawnInLocked. case_match; w_steps; apply H. Qed.

Lemma wp_respawn_note u a b p (Q : string -> WS -> Prop) :
  (forall r e', Q r (w, e')) -> wp (respawn_note u a b p) Q (w, e).
Proof. intros H. unfold respawn_note. w_steps. apply wp_playerRespawnIn. intros. w_steps. apply H. Qed.

Lemma wp_playerView p (Q : PlayerView -> WS -> Prop) :
  (forall v e', pv_Username v = pl_Username p -> Q v (w, e')) -> wp (playerViewLocked p) Q (w, e).
Proof. intros H. unfold playerViewLocked. w_steps. apply wp_playerRespawnIn. intros. w_steps. by apply H. Qed.

Lemma wp_reply u t (Q : string * UserProfile * bool -> WS -> Prop) :
  (forall r, Q r (w, e)) -> wp (reply u t) Q (w, e).
Proof. intros H. unfold reply. w_steps. apply H. Qed.

Lemma wp_attack_reply u a b c (Q : string * string * string * UserProfile * bool -> WS -> Prop) :
  (forall r, Q r (w, e)) -> wp (attack_reply u a b c) Q (w, e).
Proof. intros H. unfold attack_reply. w_steps. apply H. Qed.

Lemma wp_knockDown p (Q : Player -> WS -> Prop) :
  (forall t t' e', Q (set_pl_LastUpdate t' (set_pl_RespawnAt (t +i 4 * Second)
      (set_pl_Deaths (pl_Deaths p +i 1) (set_pl_Alive false (set_pl_HP 0 p))))) (w, e')) ->
  wp (knockDownPlayerLocked p) Q (w, e).
Proof. intros H. unfold knockDownPlayerLocked. w_steps. apply H. Qed.
End env_only.

Lemma keeps_intro {A} w0 (a : A) w e :
  world_wf w -> w_cfg w = w_cfg w0 -> w_terrain w = w_terrain w0 -> keeps w0 a (w, e).
Proof. done. Qed.

Lemma keeps_refreshed {A} k w w' (a : A) s : refreshed k w w' -> keeps w' a s -> keeps w a s.
Proof. intros (Hc & Ht & _)%refreshed_static (? & Hc' & Ht'). split_and!; [done|congruence..]. Qed.

Lemma keeps_refreshes {A} w w' (a : A) s : refreshes w w' -> keeps w' a s -> keeps w a s.
Proof. intros (Hc & Ht & _) (? & Hc' & Ht'). split_and!; [done|congruence..]. Qed.

(** Reduce [world_wf] of an explicitly updated world to the updated entries. *)
Ltac wf_step :=
  lazymatch goal with
  | |- world_wf (set_version _ _) => apply world_wf_version
  | |- world_wf (set_rngPos _ _) => apply world_wf_rngPos
  | |- world_wf (set_nextTreasure _ _) => apply world_wf_nextTreasure
  | |- world_wf (set_players (<[_ := _]> _) _) => apply world_wf_putPlayer
  | |- world_wf (set_players (delete _ _) _) => apply world_wf_delPlayer
  | |- world_wf (set_npcs (<[_ := _]> _) _) => apply world_wf_putNPC
  | |- world_wf (set_npcs (delete _ _) _) => apply world_wf_delNPC
  | |- world_wf (set_treasures (<[_ := _]> _) _) => apply world_wf_putTreasure
  | |- world_wf (set_treasures (delete _ _) _) => apply world_wf_delTreasure
  end.

(** Close a [keeps] goal on an explicitly updated world. *)
Ltac keeps_tac :=
  apply keeps_intro; [repeat wf_step; try done | cbn in *; congruence..].

(** ** Treasures and spawning *)

Lemma stands_bounds g x y : stands g x y ->
  (x <? 0) || (y <? 0) || (zlen g <=? y)
  || match zlookup y g with Some row => zlen row <=? x | None => true end = false.
Proof.
  intros (row & c & Hy & Hx & _). rewrite Hy.
  apply zlookup_Some in Hy as [? _]. apply zlookup_Some in Hx as [? _].
  rewrite !orb_false_iff, !Z.ltb_ge, !Z.leb_gt. lia.
Qed.

(** Dropping on an open cell stores the treasure: merged into the one that
    lies there, or under a fresh counter value. *)
Lemma wp_dropTreasure w e x y v kind (Q : option Treasure -> WS -> Prop) :
  world_wf w -> stands (w_terrain w) x y ->
  (forall t w' e', world_wf w' -> w_cfg w' = w_cfg w -> w_terrain w' = w_terrain w ->
     w_players w' = w_players w -> w_npcs w' = w_npcs w -> w_nextNPC w' = w_nextNPC w ->
     tr_X t = x -> tr_Y t = y -> Q (Some t) (w', e')) ->
  wp (dropTreasureLocked x y v kind) Q (w, e).
Proof.
  intros Hw Hs HQ. unfold dropTreasureLocked. w_steps. rewrite (stands_bounds _ _ _ Hs).
  w_steps. apply wp_treasureAt.
  - intros id t e' Ht Hx Hy. w_steps. pose proof (wf_treasure _ _ _ Hw Ht) as [? ?].
    apply HQ; try done. by repeat (first [apply world_wf_version|apply world_wf_putTreasure]).
  - intros _ e'. w_steps. apply HQ; try done.
    apply world_wf_version, (world_wf_putTreasure _ _ (set_nextTreasure _ w)); by auto with wf.
Qed.

Lemma wp_spawnTreasure w e kind (Q : option Treasure -> WS -> Prop) :
  world_wf w ->
  (forall o w' e', world_wf w' -> w_cfg w' = w_cfg w -> w_terrain w' = w_terrain w ->
     w_players w' = w_players w -> w_npcs w' = w_npcs w -> Q o (w', e')) ->
  wp (spawnTreasureLocked kind) Q (w, e).
Proof.
  intros Hw HQ. unfold spawnTreasureLocked. w_steps.
  apply wp_bestSpawnCell; [by apply ww_row0| |].
  - intros x y Hf pos. w_steps. apply wp_Intn; [lia|]. intros v pos' _.
    apply wp_dropTreasure; [by auto with wf|by apply free_cell_stands in Hf|].
    intros. by apply HQ.
  - intros _. w_steps. by apply HQ.
Qed.

Lemma npc_name_Some w : world_wf w -> is_Some (zlookup (Z.rem (w_nextNPC w) (zlen npc_names)) npc_names).
Proof.
  intros [_ _ _ _ _ _ H]. apply zlookup_is_Some. change (zlen npc_names) with 6.
  apply Z.rem_bound_pos; lia.
Qed.

(** The id under which the next NPC is stored. *)
Definition npc_id (w : World) (n : Z) : string := cfg_ID (w_cfg w) +:+ "-npc-" +:+ itoa n.

Lemma wp_spawnNPC w e (Q : option NPC -> WS -> Prop) :
  world_wf w -> w_nextNPC w + 1 < 2^63 ->
  (forall npc w' e', world_wf w' -> w_cfg w' = w_cfg w -> w_terrain w' = w_terrain w ->
     w_players w' = w_players w -> w_treasures w' = w_treasures w -> w_nextNPC w' = w_nextNPC w + 1 ->
     w_npcs w' = <[npc_id w (w_nextNPC w) := npc]> (w_npcs w) ->
     free_cell w "" (npc_X npc) (npc_Y npc) ->
     w_rng w' = w_rng w -> w_nextTreasure w' = w_nextTreasure w -> Q (Some npc) (w', e')) ->
  ((forall x y, ~ free_cell w "" x y) -> Q None (w, e)) ->
  wp spawnNPCLocked Q (w, e).
Proof.
  intros Hw Hb HS HN. unfold spawnNPCLocked. w_steps.
  apply wp_bestSpawnCell; [by apply ww_row0| |].
  - intros x y Hf pos. w_steps. destruct (npc_name_Some _ Hw) as [name Hname].
    eapply wp_liftO; [exact Hname|]. w_steps. apply wp_Intn; [lia|]. intros v pos' Hv. w_steps.
    pose proof (ww_nextNPC _ Hw).
    assert (Hi : w_nextNPC w +i 1 = w_nextNPC w + 1) by (apply i64_id; unfold in_i64; lia).
    apply HS; try done.
    apply world_wf_version, (world_wf_putNPC _ _ (set_nextNPC _ (set_rngPos _ (set_rngPos _ w)))).
    + constructor; cbn; [done|by apply free_cell_stands in Hf|done|lia|unfold NPCDamage; lia].
    + apply world_wf_nextNPC; [cbn; lia|by auto with wf].
  - intros. w_steps. by apply HN.
Qed.

Lemma itoa_inj a b : itoa a = itoa b -> a = b.
Proof. unfold itoa. apply (inj pretty). Qed.

Lemma string_app_inj (p a b : string) : p +:+ a = p +:+ b -> a = b.
Proof. induction p; [done|]. cbn. intros [= ?]. auto. Qed.

Lemma npc_id_inj w a b : npc_id w a = npc_id w b -> a = b.
Proof. unfold npc_id. intros H%string_app_inj%string_app_inj. by apply itoa_inj. Qed.

(** ** The player operations *)

Section player_ops.
Context (w : World) (e : Env) (Hw : world_wf w).

Lemma joined_player_username profile m x y t : pl_Username (joined_player profile m x y t) = up_Username profile.
Proof. unfold joined_player. by repeat case_match. Qed.

Lemma joined_player_wf g profile m x y t :
  profile_ok profile -> stands g x y ->
  player_wf g (up_Username profile) (joined_player profile m x y t).
Proof.
  intros [Hmax Hhp Hatk] Hs. unfold joined_player, valueOr, InitHP, InitAttack in *.
  destruct (Z.eqb_spec (up_HP profile) 0), (up_Alive profile), (Z.eqb_spec (up_MaxHP profile) 0),
    (Z.eqb_spec (up_Attack profile) 0); cbn;
  repeat match goal with |- context [?a <=? ?b] => destruct (Z.leb_spec a b) end; cbn;
    constructor; cbn; try done; try lia.
Qed.

Lemma AddOrRestorePlayer_keeps profile :
  profile_ok profile -> wp (AddOrRestorePlayer profile) (keeps w) (w, e).
Proof.
  intros Hok. unfold AddOrRestorePlayer. w_steps.
  destruct (if bool_decide (up_LastMap profile = cfg_ID (w_cfg w)) then _ else _) as [x0 y0].
  w_steps. apply wp_findSafePosition; [by apply ww_row0| |].
  - intros x y Hf%free_cell_stands _ pos. w_steps. apply wp_playerView. intros. keeps_tac.
    rewrite joined_player_username. by apply joined_player_wf.
  - intros _. w_steps. apply wp_playerView. intros. keeps_tac.
    rewrite joined_player_username. apply joined_player_wf; [done|by apply ww_spawn].
Qed.

Lemma RemovePlayer_keeps u : wp (RemovePlayer u) (keeps w) (w, e).
Proof. unfold RemovePlayer. w_steps. case_match; w_steps; keeps_tac. Qed.

Lemma RewardPlayer_keeps u t v : wp (RewardPlayer u t v) (keeps w) (w, e).
Proof.
  unfold RewardPlayer. w_steps. case_match eqn:Hp; w_steps; keeps_tac.
  apply wf_player in Hp; [|done]. player_wf_tac.
Qed.

Lemma ProfileOf_keeps u : wp (ProfileOf u) (keeps w) (w, e).
Proof.
  unfold ProfileOf. w_steps. case_match; w_steps; [|keeps_tac].
  apply wp_refresh_wf; [done|]. intros w' e' Hw' Hr. w_steps.
  by eapply keeps_refreshed, keeps_intro.
Qed.

Lemma FlushProfiles_keeps since : wp (FlushProfiles since) (keeps w) (w, e).
Proof.
  unfold FlushProfiles. w_steps. apply wp_rangeW. intros ks e' _.
  apply (wp_foldM _ (keeps w)); [|keeps_tac].
  intros acc k [w1 e1] _ (Hw1 & ? & ?). w_steps. apply wp_refresh_wf; [done|].
  intros w2 e2 Hw2 (?&?&_)%refreshed_static. w_steps. case_match; w_steps; keeps_tac.
Qed.

Lemma with_player_keeps {A} u (absent : A) k :
  (forall w' e' p, world_wf w' -> refreshed u w w' -> w_players w' !! u = Some p ->
     player_wf (w_terrain w') u p -> wp (k p) (keeps w') (w', e')) ->
  wp (with_player u absent k) (keeps w) (w, e).
Proof.
  intros Hk. apply wp_with_player; [done|intros; by keeps_tac|].
  intros w' e' p Hw' Hr Hp. eapply wp_mono; [apply Hk; [done..|by apply wf_player]|].
  intros a s. by apply keeps_refreshed with u.
Qed.

Lemma MovePlayer_keeps u d : wp (MovePlayer u d) (keeps w) (w, e).
Proof.
  apply with_player_keeps. intros w' e' p Hw' _ Hp Hpw. case_match.
  { w_steps. apply wp_respawn_note. intros. apply wp_reply. intros. keeps_tac. }
  destruct (step_dir _ _ _) as [nx ny]. w_steps.
  destruct (walkableForLocked w' nx ny (pl_Username p)) eqn:Hf; cbn [negb]; [|apply wp_reply; intros; keeps_tac].
  apply walkable_spec, free_cell_stands in Hf. w_steps.
  assert (Hp2 : forall t z, player_wf (w_terrain w') u (set_pl_Treasures z (set_pl_LastUpdate t (set_pl_XY nx ny p))))
    by (intros; player_wf_tac).
  apply wp_treasureAt.
  - intros id t' e'' Ht Hx Hy. w_steps. apply wp_reply. intros. keeps_tac; first [apply Hp2|player_wf_tac].
  - intros _ e''. w_steps. apply wp_reply. intros. keeps_tac. player_wf_tac.
Qed.

Lemma HealPlayer_keeps u : wp (HealPlayer u) (keeps w) (w, e).
Proof.
  apply with_player_keeps. intros w' e' p Hw' _ Hp Hpw. case_match eqn:Ha.
  { w_steps. apply wp_respawn_note. intros. apply wp_reply. intros. keeps_tac. }
  case_match; [apply wp_reply; intros; keeps_tac|]. w_steps.
  apply wp_reply. intros. keeps_tac. apply negb_false_iff in Ha.
  assert (Hi : pl_HP p +i HealAmount = pl_HP p + 30)
    by (apply i64_id; destruct Hpw; unfold in_i64, HealAmount; lia).
  cbn. rewrite Hi. destruct Hpw as [? ? ? ? Hal ?].
  specialize (Hal Ha). case_match eqn:E; [apply Z.ltb_lt in E|apply Z.ltb_ge in E];
    constructor; cbn; try done; intros; lia.
Qed.

Lemma BuyItem_keeps u i :
  (forall p, w_players w !! u = Some p -> pl_Attack p + WeaponBoost < 2^63) ->
  wp (BuyItem u i) (keeps w) (w, e).
Proof.
  intros Hatk. apply with_player_keeps. intros w' e' p Hw' Hr Hp Hpw.
  assert (Hatk' : pl_Attack p + WeaponBoost < 2^63).
  { destruct Hr as [->|(p' & x & y & t & pos & Hp' & _ & _ & ->)]; [eauto|].
    cbn in Hp. rewrite lookup_insert_eq in Hp. simplify_eq. cbn. eauto. }
  case_match.
  { w_steps. apply wp_respawn_note. intros. apply wp_reply. intros. keeps_tac. }
  repeat (case_match; [|]); w_steps; try (apply wp_reply; intros; keeps_tac).
  - player_wf_tac.
  - unfold WeaponBoost in *.
    assert (Hi : pl_Attack p +i 6 = pl_Attack p + 6)
      by (apply i64_id; destruct Hpw; unfold in_i64; lia).
    destruct Hpw; constructor; cbn; try done; try lia.
Qed.

End player_ops.

(** ** Choosing a target *)

Section pick.
Context {A : Type} (ok : A -> bool) (hp : A -> Z) (id : A -> string).

Lemma pick_fold_Some (l : list A) (best : option A) u :
  fold_left (fun best u => if ok u && weaker (hp u) (id u) ((fun b => (hp b, id b)) <$> best)
                           then Some u else best) l best = Some u ->
  (u ∈ l /\ ok u = true) \/ best = Some u.
Proof.
  revert best. induction l as [|x l IH]; intros best; cbn; [auto|].
  intros [[Hin Hok]|Hb]%IH; [left; split; [by right|done]|].
  destruct (ok x) eqn:Hx; cbn in Hb; [|by right].
  case_match; [|by right]. simplify_eq. left. split; [left|done].
Qed.

Lemma pick_target_Some l u : pick_target ok hp id l = Some u -> u ∈ l /\ ok u = true.
Proof. intros [?|?]%pick_fold_Some; done. Qed.

End pick.

Lemma npc_target_Some p l n : npc_target p l = Some n -> n ∈ l /\ npc_Alive n = true.
Proof. by intros [? [? _]%andb_true_iff]%pick_target_Some. Qed.

Lemma player_target_Some p u l o :
  player_target p u l = Some o -> o ∈ l /\ pl_Username o <> u /\ pl_Alive o = true.
Proof.
  intros [? [[Hu%negb_true_iff ?]%andb_true_iff _]%andb_true_iff]%pick_target_Some.
  apply bool_decide_eq_false in Hu. done.
Qed.

Section attack.
Context (w : World) (e : Env) (Hw : world_wf w).

Lemma attack_npc_keeps u p k n :
  player_wf (w_terrain w) u p -> w_npcs w !! k = Some n ->
  wp (attack_npc u p n) (keeps w) (w, e).
Proof.
  intros Hp Hn. pose proof (wf_npc _ _ _ Hw Hn) as Hnw. unfold attack_npc. w_steps.
  assert (Hi : npc_HP n -i pl_Attack p = npc_HP n - pl_Attack p)
    by (apply i64_id; destruct Hp, Hnw; unfold in_i64; lia).
  cbn [npc_HP set_npc_HP]. destruct (Z.leb_spec (npc_HP n -i pl_Attack p) 0).
  - w_steps. apply wp_Intn; [lia|]. intros v pos _. w_steps.
    apply wp_dropTreasure.
    + repeat wf_step; [player_wf_tac|done].
    + apply (nw_pos _ _ _ Hnw).
    + intros. w_steps. apply wp_attack_reply. intros. keeps_tac.
  - w_steps. apply wp_attack_reply. intros. keeps_tac; [player_wf_tac|].
    destruct Hp, Hnw; constructor; cbn; try done; lia.
Qed.

Lemma attack_player_keeps u p k o :
  player_wf (w_terrain w) u p -> w_players w !! k = Some o -> pl_Alive o = true ->
  wp (attack_player u p o) (keeps w) (w, e).
Proof.
  intros Hp Ho Ha. pose proof (wf_player _ _ _ Hw Ho) as How. unfold attack_player. w_steps.
  assert (Hi : pl_HP o -i pl_Attack p = pl_HP o - pl_Attack p)
    by (apply i64_id; destruct Hp, How; unfold in_i64; lia).
  assert (Hk : pl_Username o = k) by apply How.
  cbn [pl_HP set_pl_HP]. destruct (Z.leb_spec (pl_HP o -i pl_Attack p) 0).
  - w_steps. apply wp_knockDown. intros. w_steps. apply wp_respawn_note. intros. w_steps.
    apply wp_attack_reply. intros. keeps_tac; [rewrite Hk|];
      [destruct How|destruct Hp]; constructor; cbn; try done; intros; lia.
  - w_steps. apply wp_attack_reply. intros.
    keeps_tac; [rewrite Hk; destruct Hp, How; constructor; cbn; try done; lia|]. player_wf_tac.
Qed.
End attack.

Lemma Attack_keeps w e u : world_wf w -> wp (Attack u) (keeps w) (w, e).
Proof.
  intros Hw. apply with_player_keeps; [done|]. intros w' e' p Hw' _ Hp Hpw. case_match.
  { w_steps. apply wp_respawn_note. intros. apply wp_attack_reply. intros. keeps_tac. }
  w_steps. apply wp_range_values. intros l e'' Hl.
  destruct (npc_target p l) as [n|] eqn:Hn.
  - apply npc_target_Some in Hn as [Hn _]. rewrite Hl, elem_of_values in Hn. destruct Hn as [k Hk].
    by eapply attack_npc_keeps.
  - w_steps. apply wp_range_values. intros l' e''' Hl'.
    destruct (player_target p u l') as [o|] eqn:Ho; [|apply wp_attack_reply; intros; keeps_tac].
    apply player_target_Some in Ho as (Ho & _ & Ha). rewrite Hl', elem_of_values in Ho.
    destruct Ho as [k Hk]. by eapply attack_player_keeps.
Qed.

(** ** The tick *)

(** A step of the tick that may run refreshes and moves: besides [keeps], the
    set of NPC ids and the NPC counter may only grow as stated. *)
Lemma wp_closestPlayer w e x y r (Q : option Player -> WS -> Prop) :
  world_wf w ->
  (forall o w' e', world_wf w' -> refreshes w w' ->
     (forall p, o = Some p -> w_players w' !! pl_Username p = Some p /\ pl_Alive p = true) -> Q o (w', e')) ->
  wp (closestPlayerLocked x y r) Q (w, e).
Proof.
  intros Hw HQ. unfold closestPlayerLocked. w_steps. apply wp_rangeW. intros ks e' _.
  eapply wp_mono; [apply (wp_foldM _ (fun o s => world_wf s.1 /\ refreshes w s.1 /\
    (forall p, o = Some p -> w_players s.1 !! pl_Username p = Some p /\ pl_Alive p = true)))|].
  - intros best k [w1 e1] _ (Hw1 & Hr1 & Hb). cbn [fst] in *. w_steps. apply wp_refresh_wf; [done|].
    intros w2 e2 Hw2 Hr2. w_steps.
    assert (Hb2 : forall p, best = Some p -> w_players w2 !! pl_Username p = Some p /\ pl_Alive p = true).
    { intros p Hp. destruct (Hb p Hp) as [Hp1 Ha]. split; [|done].
      destruct Hr2 as [->|(p' & ? & ? & ? & ? & Hp' & [Ha' _] & _ & ->)]; [done|]. cbn.
      rewrite lookup_insert_ne; [done|]. intros ->. congruence. }
    assert (Hr12 : refreshes w w2) by (etrans; [done|by eapply refreshed_refreshes]).
    destruct (w_players w2 !! k) as [p|] eqn:Hp; [|w_steps; by cbn].
    destruct (negb (pl_Alive p)) eqn:Ha; cbn [orb]; [w_steps; by cbn|].
    case_match; w_steps; [by cbn|]. cbn. split_and!; [done..|].
    case_match; [|done]. intros p' [= <-]. apply negb_false_iff in Ha. split; [|done].
    by rewrite (pw_key _ _ _ (wf_player _ _ _ Hw2 Hp)).
  - cbn. split_and!; [done..|]. done.
  - intros o [w' e''] (? & ? & ?). by apply HQ.
Qed.

Lemma wander_keeps w e id n d : world_wf w -> wp (wander id n d) (keeps w) (w, e).
Proof.
  intros Hw. revert d. induction n as [|n IH]; intros d; cbn [wander]; w_steps; [keeps_tac|].
  destruct (w_npcs w !! id) as [npc|] eqn:Hn; [|w_steps; keeps_tac].
  destruct (match d mod 4 with 0 => _ | _ => _ end) as [nx ny].
  destruct (walkableForLocked w nx ny "") eqn:Hf; [|apply IH].
  apply walkable_spec, free_cell_stands in Hf. w_steps. keeps_tac.
  apply wf_npc in Hn; [|done]. destruct Hn. by constructor.
Qed.

Lemma npc_turn_keeps w e events id : world_wf w -> wp (npc_turn events id) (keeps w) (w, e).
Proof.
  intros Hw. unfold npc_turn. w_steps. cbn [fst].
  destruct (w_npcs w !! id) as [n|] eqn:Hn; [|w_steps; keeps_tac].
  pose proof (wf_npc _ _ _ Hw Hn) as Hnw. rewrite (nw_alive _ _ _ Hnw). cbn [negb].
  w_steps. apply wp_closestPlayer; [done|]. intros o w' e' Hw' (Hc & Ht & _) Ho.
  destruct o as [p|].
  - destruct (Ho p eq_refl) as [Hp Ha]. pose proof (wf_player _ _ _ Hw' Hp) as Hpw. w_steps.
    assert (Hi : pl_HP p -i npc_Attack n = pl_HP p - npc_Attack n)
      by (apply i64_id; destruct Hpw, Hnw; unfold in_i64; lia).
    cbn [pl_HP set_pl_HP set_pl_LastUpdate]. destruct (Z.leb_spec (pl_HP p -i npc_Attack n) 0).
    + w_steps. apply wp_knockDown. intros. w_steps. keeps_tac. player_wf_tac.
    + w_steps. keeps_tac. destruct Hpw, Hnw; constructor; cbn; try done; lia.
  - w_steps. apply wp_Intn; [lia|]. intros b pos _. w_steps.
    eapply wp_mono; [apply wander_keeps; by auto with wf|].
    intros _ [w2 e2] (? & ? & ?). w_steps. keeps_tac.
Qed.

Lemma revive_event_spec w e events k (Q : list string -> WS -> Prop) :
  world_wf w -> (forall l w' e', world_wf w' -> refreshes w w' -> Q l (w', e')) ->
  wp (revive_event events k) Q (w, e).
Proof.
  intros Hw HQ. unfold revive_event. w_steps. apply wp_refresh_wf; [done|]. intros w' e' Hw' Hr. w_steps.
  repeat case_match; w_steps; eauto using refreshed_refreshes.
Qed.

Lemma ids_fill_quota w i :
  (forall j, w_nextNPC w - Z.of_nat i <= j < w_nextNPC w -> npc_id w j ∈ dom (w_npcs w)) ->
  Z.of_nat i <= Z.of_nat (size (w_npcs w)).
Proof.
  intros Hdom.
  set (ids := list_to_set ((fun j => npc_id w (w_nextNPC w - Z.of_nat j)) <$> seq 1 i) : gset string).
  assert (Hsub : ids ⊆ dom (w_npcs w)).
  { intros x. unfold ids. rewrite elem_of_list_to_set, list_elem_of_fmap.
    intros (j & -> & Hj%elem_of_seq). apply Hdom. lia. }
  apply subseteq_size in Hsub. rewrite size_dom in Hsub.
  assert (size ids = i) as H5; [|lia].
  unfold ids. rewrite size_list_to_set; [by rewrite length_fmap, length_seq|].
  apply NoDup_fmap_2; [|apply NoDup_seq]. intros a b Hab%npc_id_inj. lia.
Qed.

(** The ids handed out since the loop began stay stored when one more is added. *)
Lemma ids_extend w w' i npc :
  w_cfg w' = w_cfg w -> w_nextNPC w' = w_nextNPC w + 1 ->
  w_npcs w' = <[npc_id w (w_nextNPC w) := npc]> (w_npcs w) ->
  (forall j, w_nextNPC w - Z.of_nat i <= j < w_nextNPC w -> npc_id w j ∈ dom (w_npcs w)) ->
  forall j, w_nextNPC w' - Z.of_nat (S i) <= j < w_nextNPC w' -> npc_id w' j ∈ dom (w_npcs w').
Proof.
  intros Hc Hn Hns Hdom j Hj. unfold npc_id. rewrite Hc, Hns, dom_insert_L.
  destruct (decide (j = w_nextNPC w)) as [->|]; [set_solver|]. apply elem_of_union_r, Hdom. lia.
Qed.

(** The NPCs stored since the loop began have pairwise distinct ids, so [fuel]
    further iterations reach the quota. *)
Lemma spawn_npcs_spec w e fuel events (Q : list string -> WS -> Prop) :
  world_wf w -> w_nextNPC w + Z.of_nat fuel < 2^63 ->
  (exists i, (i + fuel = 5)%nat /\
     forall j, w_nextNPC w - Z.of_nat i <= j < w_nextNPC w -> npc_id w j ∈ dom (w_npcs w)) ->
  (forall l w' e', world_wf w' -> w_cfg w' = w_cfg w -> w_terrain w' = w_terrain w ->
     w_players w' = w_players w ->
     (MinNPCs <= Z.of_nat (size (w_npcs w')) \/ forall x y, ~ free_cell w' "" x y) -> Q l (w', e')) ->
  wp (spawn_npcs fuel events) Q (w, e).
Proof.
  revert w e events. induction fuel as [|fuel IH]; intros w e events Hw Hb (i & Hi & Hdom) HQ;
    cbn [spawn_npcs]; w_steps; destruct (Z.leb_spec MinNPCs (Z.of_nat (size (w_npcs w)))) as [|Hlt];
    try (w_steps; apply HQ; by auto).
  - exfalso. apply ids_fill_quota in Hdom. unfold MinNPCs in *. lia.
  - w_steps. apply wp_spawnNPC; [done|lia| |].
    + intros npc w' e' Hw' Hc Ht Hp Htr Hn Hns Hf _ _. apply IH; [done|lia| |].
      * exists (S i). split; [lia|]. by eapply ids_extend.
      * intros. apply HQ; try done; congruence.
    + intros Hnf. w_steps. apply HQ; auto.
Qed.

Lemma maybe_treasure_spec w e events (Q : list string -> WS -> Prop) :
  world_wf w ->
  (forall l w' e', world_wf w' -> w_cfg w' = w_cfg w -> w_terrain w' = w_terrain w ->
     w_players w' = w_players w -> w_npcs w' = w_npcs w -> Q l (w', e')) ->
  wp (maybe_treasure events) Q (w, e).
Proof.
  intros Hw HQ. unfold maybe_treasure. w_steps. case_match; [|w_steps; by apply HQ].
  w_steps. apply wp_Intn; [lia|]. intros r pos _. case_match; [|w_steps; by apply HQ; auto with wf].
  w_steps. apply wp_spawnTreasure; [by auto with wf|]. intros o w' e' ? ? ? ? ?.
  case_match; w_steps; by apply HQ.
Qed.

Lemma BackgroundStep_keeps w e :
  world_wf w -> w_nextNPC w + MinNPCs < 2^63 -> wp BackgroundStep (keeps w) (w, e).
Proof.
  intros Hw Hb. unfold BackgroundStep. w_steps. apply wp_rangeW. intros ks e' _. w_steps.
  eapply wp_mono; [apply (wp_foldM _ (fun _ s => world_wf s.1 /\ refreshes w s.1))|].
  - intros evs k [w1 e1] _ [Hw1 Hr1]. apply revive_event_spec; [done|]. intros. cbn in *.
    split; [done|by etrans].
  - by cbn.
  - intros evs [w1 e1] [Hw1 (Hc1 & Ht1 & _ & _ & Hn1 & _)]. cbn [fst] in *. w_steps.
    apply spawn_npcs_spec; [done|rewrite Hn1; unfold MinNPCs in *; lia| |].
    { exists 0%nat. split; [done|]. intros; lia. }
    intros l w2 e2 Hw2 Hc2 Ht2 _ _. w_steps. apply maybe_treasure_spec; [done|].
    intros l3 w3 e3 Hw3 Hc3 Ht3 _ _. w_steps.
    apply (wp_foldM _ (keeps w)); [|keeps_tac].
    intros acc id [w4 e4] _ (Hw4 & Hc4 & Ht4). eapply wp_mono; [by apply npc_turn_keeps|].
    intros ? s (? & ? & ?). cbn in *. split_and!; [done|congruence..].
Qed.

Lemma Snapshot_keeps w e nodeID : world_wf w -> wp (Snapshot nodeID) (keeps w) (w, e).
Proof.
  intros Hw. unfold Snapshot. w_steps. apply wp_rangeW. intros ks e' _. w_steps.
  eapply wp_mono; [apply (wp_foldM _ (fun _ s => world_wf s.1 /\ refreshes w s.1))|].
  - intros acc k [w1 e1] _ [Hw1 Hr1]. cbn [fst] in *. w_steps. apply wp_refresh_wf; [done|].
    intros w2 e2 Hw2 Hr2%refreshed_refreshes. w_steps.
    case_match; w_steps; [apply wp_playerView; intros; w_steps|]; (split; [done|by etrans]).
  - by cbn.
  - intros acc [w1 e1] [Hw1 (Hc1 & Ht1 & _)]. cbn [fst] in *. w_steps.
    apply wp_range_values. intros. w_steps. apply wp_range_values. intros. w_steps.
    destruct (ww_layout _ Hw1) as [r Hr]. eapply wp_liftO; [exact Hr|]. w_steps. keeps_tac.
Qed.

(** ** Checkpoints *)

Lemma CaptureCheckpoint_keeps w e nodeID : world_wf w -> wp (CaptureCheckpoint nodeID) (keeps w) (w, e).
Proof.
  intros Hw. unfold CaptureCheckpoint. apply wp_bind.
  eapply wp_mono; [by apply Snapshot_keeps|]. intros v [w1 e1] (? & ? & ?). w_steps. by apply keeps_intro.
Qed.

(** The lists of a checkpoint become maps whose entries satisfy what the lists do. *)
Lemma foldl_insert_Forall {V X} (key : V -> string) (f : V -> X) (P : string -> X -> Prop) l (m : gmap string X) :
  Forall (fun v => P (key v) (f v)) l -> map_Forall P m ->
  map_Forall P (foldl (fun m v => <[key v := f v]> m) m l).
Proof.
  revert m. induction l as [|v l IH]; intros m Hl Hm; [done|]. cbn. inversion Hl; subst.
  apply IH; [done|]. by apply map_Forall_insert_2.
Qed.

Lemma foldl_insert_size {V X} (key : V -> string) (f : V -> X) l (m : gmap string X) :
  (size (foldl (fun m v => <[key v := f v]> m) m l) <= size m + length l)%nat.
Proof.
  revert m. induction l as [|v l IH]; intros m; cbn; [lia|]. etrans; [apply IH|].
  rewrite map_size_insert. case_match; cbn; lia.
Qed.

(** A restoration is refused, or it replaces all units and possibly the terrain. *)
Lemma wp_RestoreCheckpoint w e cp (Q : unit -> WS -> Prop) :
  (restores cp w = false -> Q tt (w, e)) ->
  (forall players e', restores cp w = true ->
     (forall P, (forall t, Forall (fun v => P (pv_Username v) (restored_player (cfg_ID (w_cfg w)) t v)) (cp_Players cp)) ->
        map_Forall P players) ->
     let npcs := foldl (fun m v => <[nv_ID v := restored_npc v]> m) ∅ (cp_NPCs cp) in
     let treasures := foldl (fun m v => <[tv_ID v := restored_treasure v]> m) ∅ (cp_Treasures cp) in
     Q tt (mkWorld (w_cfg w) (restored_terrain cp (w_terrain w)) players npcs treasures (w_rng w) (w_rngPos w)
             (cp_Version cp) (Z.of_nat (size npcs) + 1) (Z.of_nat (size treasures) + 1), e')) ->
  wp (RestoreCheckpoint cp) Q (w, e).
Proof.
  intros Hno Hyes. unfold RestoreCheckpoint, restores in *. w_steps.
  destruct (bool_decide (cp_MapID cp = cfg_ID (w_cfg w))), (cp_Version cp =? 0); cbn [negb orb andb] in *;
    [w_steps; by apply Hno| |w_steps; by apply Hno..].
  w_steps.
  set (w1 := if 0 <? zlen (cp_Terrain cp) then set_terrain (stringsToGrid (cp_Terrain cp)) w else w).
  assert (Hw1 : w1 = set_terrain (restored_terrain cp (w_terrain w)) w)
    by (unfold w1, restored_terrain; case_match; by destruct w).
  eapply wp_mono; [apply (wp_foldM_prefix _ (fun pre (m : gmap string Player) s => s.1 = w1 /\
    forall P, (forall t, Forall (fun v => P (pv_Username v) (restored_player (cfg_ID (w_cfg w)) t v)) pre) ->
      map_Forall P m))|].
  - intros pre m v post [w2 e2] _ (Hw2 & Hm). cbn in Hw2. subst w2. w_steps. split; [done|].
    intros P HP. apply map_Forall_insert_2; [|apply Hm; intros t0; by apply (Forall_app _ pre [v])].
    specialize (HP t). apply Forall_app in HP as [_ HP]. by inversion HP.
  - split; [done|]. intros. apply map_Forall_empty.
  - intros m [w2 e2] (Hw2 & Hm). cbn in Hw2. subst w2. w_steps. rewrite Hw1. by apply Hyes.
Qed.

Lemma RestoreCheckpoint_total w e cp : wp (RestoreCheckpoint cp) (fun _ _ => True) (w, e).
Proof. by apply wp_RestoreCheckpoint. Qed.

Lemma player_wf_LastUpdate g k m t t' v :
  player_wf g k (restored_player m t v) -> player_wf g k (restored_player m t' v).
Proof. intros []. by constructor. Qed.

Lemma RestoreCheckpoint_safe w e cp :
  world_wf w -> op_ok (OpRestore cp) w ->
  wp (RestoreCheckpoint cp) (fun _ s => world_wf s.1 /\ w_cfg s.1 = w_cfg w
    /\ w_terrain s.1 = terrain_after (OpRestore cp) w) (w, e).
Proof.
  intros Hw Hok. cbn [op_ok terrain_after] in *. apply wp_RestoreCheckpoint.
  - intros Hr. rewrite Hr. done.
  - intros players e' Hr Hp npcs treasures. rewrite Hr. destruct (Hok Hr) as [H0 Hs Hpl Hn Ht Hc].
    split_and!; [|done..]. constructor; cbn; try done.
    + apply Hw.
    + apply Hp. intros t. eapply Forall_impl; [exact Hpl|]. intros v. apply player_wf_LastUpdate.
    + by apply foldl_insert_Forall.
    + by apply foldl_insert_Forall.
    + unfold zlen in Hc. pose proof (foldl_insert_size nv_ID restored_npc (cp_NPCs cp) ∅) as Hsz.
      rewrite map_size_empty in Hsz. fold npcs in Hsz. lia.
Qed.

(** ** All operations *)

Lemma run_op_spec w e op :
  world_wf w -> op_ok op w ->
  wp (run_op op) (fun _ s => world_wf s.1 /\ w_cfg s.1 = w_cfg w /\ w_terrain s.1 = terrain_after op w) (w, e).
Proof.
  intros Hw Hok. destruct op; cbn [run_op]; try (by apply RestoreCheckpoint_safe); try (by w_steps); apply wp_bind;
    (eapply wp_mono; [eauto using AddOrRestorePlayer_keeps, RemovePlayer_keeps, ProfileOf_keeps,
       FlushProfiles_keeps, MovePlayer_keeps, HealPlayer_keeps, Attack_keeps, BuyItem_keeps,
       RewardPlayer_keeps, BackgroundStep_keeps, Snapshot_keeps, CaptureCheckpoint_keeps | by intros ? [? ?] (? & ? & ?)]).
Qed.

(** Every operation but a restoration leaves the map alone. *)
Lemma run_op_keeps w e op :
  world_wf w -> op_ok op w -> terrain_after op w = w_terrain w -> wp (run_op op) (keeps w) (w, e).
Proof. intros Hw Hok Ht. unfold keeps. rewrite <- Ht. by apply run_op_spec. Qed.
