(* ===== verification/WorldProps.v ===== *)
(** * The world of one map: functional correctness

    Every method is safe; what each player operation does on every branch, and the
    choice of targets. *)

From Stdlib Require Import ZArith Lia String.
From stdpp Require Import base gmap strings list sorting option pretty relations.
From S2P Require Import Prelude Protocol Maps World WorldOps WorldInv WorldSafe.

Open Scope Z_scope.
Open Scope go_scope.

(** ** A small concrete world used by the witnesses *)

Definition demo_cfg : MapConfig :=
  mkMapConfig "demo" "演示" ["#######"; "#.....#"; "#.....#"; "#.....#"; "#######"] 1 1 5 3.
Definition demo_env : Env :=
  mkEnv (fun n => 1000 * Second + Z.of_nat n) 0 (fun n => n) 0 (fun _ => "t") (fun _ n => Z.of_nat n).
Definition demo_player (u : string) (x y hp : Z) : Player :=
  mkPlayer u "demo" x y hp 120 35 3 9 0 0 0 true 0 0.
Definition demo_down (u : string) (x y : Z) : Player :=
  mkPlayer u "demo" x y 0 120 35 3 9 0 0 0 false (999 * Second) 0.
Definition demo_npc (id : string) (x y hp : Z) : NPC := mkNPC id "流寇" x y hp 90 NPCDamage true.
Definition demo_treasure (id : string) (x y v : Z) : Treasure := mkTreasure id "遗迹补给" x y v.
Definition demo_world : World :=
  mkWorld demo_cfg (stringsToGrid (cfg_Layout demo_cfg))
    {["ann" := demo_player "ann" 2 2 100; "bob" := demo_player "bob" 4 2 20; "cid" := demo_down "cid" 5 3]}
    {["demo-npc-3" := demo_npc "demo-npc-3" 2 1 30]}
    {["demo-t-7" := demo_treasure "demo-t-7" 3 2 4]}
    (fun n => Z.of_nat n) 0 10 4 8.

(** The same camp without NPCs, for the duels. *)
Definition demo_world_pvp : World :=
  set_npcs ∅ (set_players {["ann" := demo_player "ann" 2 2 30; "bob" := demo_player "bob" 4 2 20]} demo_world).

Definition grid_cell_open (g : list (list Z)) (x y : Z) : bool :=
  match zlookup y g ≫= zlookup x with
  | Some c => negb (c =? wall)
  | None => false
  end.

(** Live units stand on pairwise different cells. *)
Definition apart (w : World) : Prop :=
  (forall k1 k2 p1 p2, w_players w !! k1 = Some p1 -> w_players w !! k2 = Some p2 -> k1 <> k2 ->
     pl_Alive p1 = true -> pl_Alive p2 = true -> (pl_X p1, pl_Y p1) <> (pl_X p2, pl_Y p2)) /\
  (forall k1 k2 n1 n2, w_npcs w !! k1 = Some n1 -> w_npcs w !! k2 = Some n2 -> k1 <> k2 ->
     npc_Alive n1 = true -> npc_Alive n2 = true -> (npc_X n1, npc_Y n1) <> (npc_X n2, npc_Y n2)) /\
  (forall k1 k2 p n, w_players w !! k1 = Some p -> w_npcs w !! k2 = Some n ->
     pl_Alive p = true -> npc_Alive n = true -> (pl_X p, pl_Y p) <> (npc_X n, npc_Y n)).

(** ** Helper lemmas *)

Lemma grid_cell_open_stands g x y : grid_cell_open g x y = true <-> stands g x y.
Proof.
  unfold grid_cell_open, stands. destruct (zlookup y g) as [row|] eqn:Hy; cbn.
  - destruct (zlookup x row) as [c|] eqn:Hx.
    + rewrite negb_true_iff, Z.eqb_neq. split; [eauto|]. intros (? & ? & [= <-] & ? & ?). congruence.
    + split; [done|]. intros (? & ? & [= <-] & ? & ?). congruence.
  - split; [done|]. by intros (? & ? & ? & _).
Qed.

Lemma demo_player_wf u x y hp :
  0 < hp <= 120 -> grid_cell_open (w_terrain demo_world) x y = true ->
  player_wf (w_terrain demo_world) u (demo_player u x y hp).
Proof. intros ? ?%grid_cell_open_stands. constructor; cbn [demo_player pl_Username pl_X pl_Y pl_HP pl_MaxHP pl_Alive pl_Attack]; try done; lia. Qed.

Lemma demo_wf : world_wf demo_world.
Proof.
  constructor.
  - eexists. reflexivity.
  - eexists. reflexivity.
  - apply grid_cell_open_stands. reflexivity.
  - apply map_Forall_insert_2; [by apply demo_player_wf|].
    apply map_Forall_insert_2; [by apply demo_player_wf|].
    apply map_Forall_singleton. constructor; cbn [demo_down pl_Username pl_X pl_Y pl_HP pl_MaxHP pl_Alive pl_Attack];
      try done; try lia. apply grid_cell_open_stands. reflexivity.
  - apply map_Forall_singleton. constructor; cbn [demo_npc npc_ID npc_X npc_Y npc_HP npc_Alive npc_Attack];
      try done; try (unfold NPCDamage; lia). apply grid_cell_open_stands. reflexivity.
  - apply map_Forall_singleton. constructor; [done|]. apply grid_cell_open_stands. reflexivity.
  - cbn [demo_world w_nextNPC]. lia.
Qed.

Lemma demo_pvp_wf : world_wf demo_world_pvp.
Proof.
  destruct demo_wf. constructor; [done..| | |done|done].
  - apply map_Forall_insert_2; [|apply map_Forall_singleton]; by apply demo_player_wf.
  - apply map_Forall_empty.
Qed.

(** The reading of the clock, where the proof needs it. *)
Lemma wp_nowW_eq w e (Q : Z -> WS -> Prop) :
  (forall e1, Q (clk e (clk_pos e)) (w, e1)) -> wp nowW Q (w, e).
Proof. intros H. apply H. Qed.

Lemma refresh_alive w e k p :
  w_players w !! k = Some p -> pl_Alive p = true -> refreshPlayerStateLocked k (w, e) = Some (tt, (w, e)).
Proof.
  intros Hp Ha. unfold refreshPlayerStateLocked, getW, gets, mbind, st_bind. cbn. by rewrite Hp, Ha.
Qed.

(** The prologue of an operation leaves a live player's world alone. *)
Lemma wp_with_live {A} w e u (absent : A) k p (Q : A -> WS -> Prop) :
  w_players w !! u = Some p -> pl_Alive p = true -> wp (k p) Q (w, e) ->
  wp (with_player u absent k) Q (w, e).
Proof.
  intros Hp Ha Hk. unfold with_player. w_steps. rewrite Hp. w_steps.
  unfold wp at 1. rewrite (refresh_alive _ _ _ _ Hp Ha). w_steps. by rewrite Hp.
Qed.

Lemma wp_reply_eq w e u t (Q : string * UserProfile * bool -> WS -> Prop) :
  Q (t, default zero_UserProfile (profileLocked w <$> w_players w !! u), true) (w, e) -> wp (reply u t) Q (w, e).
Proof. done. Qed.

(** A player operation that answers [true], as an equation on its result. *)
Lemma wp_replied (m : W (string * UserProfile * bool)) (Q : string -> UserProfile -> WS -> Prop) st :
  wp m (fun r s => r.2 = true /\ Q r.1.1 r.1.2 s) st ->
  exists text prof s, m st = Some ((text, prof, true), s) /\ Q text prof s.
Proof. intros ([[text prof] b] & s & Hs & Hb & HQ)%wp_run. cbn in *. subst b. eauto. Qed.

(** ** Safety of every operation *)

(** C1. From a well-formed world, every method of the world terminates without a
    panic (no index out of range, no empty [rand.Intn]) and leaves a well-formed
    world: keys match names, every unit and treasure stands on an open cell
    inside the grid, and hit points stay within [0, MaxHP] and are positive for
    the living; the configuration never changes, the terrain only by a
    restoration, to that of the checkpoint.  Required are a profile in range for a
    login, a checkpoint whose units respect the invariant for a restoration, and
    an attack value and an NPC counter below 2^63 for a purchase and a tick. *)
Theorem run_op_safe w e op :
  world_wf w -> op_ok op w ->
  exists s, run_op op (w, e) = Some (tt, s) /\ world_wf s.1
    /\ w_cfg s.1 = w_cfg w /\ w_terrain s.1 = terrain_after op w.
Proof.
  intros Hw Hok. pose proof (run_op_spec w e op Hw Hok) as H.
  apply wp_run in H as ([] & s & Hs & ? & ? & ?). eauto.
Qed.

(** A checkpoint with one player and one NPC. *)
Definition demo_cp : MapCheckpoint :=
  mkMapCheckpoint "demo" "node-a" 3 12 (cfg_Layout demo_cfg)
    [mkPlayerView "ann" "demo" 2 2 100 120 35 3 9 0 0 0 true 0 "t"]
    [npc_view (demo_npc "demo-npc-3" 2 1 30)] [treasure_view (demo_treasure "demo-t-7" 3 2 4)] 5.

Lemma demo_cp_ok : op_ok (OpRestore demo_cp) demo_world.
Proof.
  intros _. destruct demo_wf as [H0 _ Hs _ Hn Ht _]. constructor; [exact H0|exact Hs|..|done].
  - apply Forall_singleton. apply (demo_player_wf "ann" 2 2 100); [lia|reflexivity].
  - apply Forall_singleton. apply (Hn "demo-npc-3"). apply lookup_singleton_eq.
  - apply Forall_singleton. apply (Ht "demo-t-7"). apply lookup_singleton_eq.
Qed.

Lemma run_op_safe_witness :
  exists s, run_op (OpRestore demo_cp) (demo_world, demo_env) = Some (tt, s) /\ world_wf s.1
    /\ w_cfg s.1 = demo_cfg /\ w_terrain s.1 = stringsToGrid (cfg_Layout demo_cfg).
Proof. apply (run_op_safe demo_world demo_env (OpRestore demo_cp) demo_wf demo_cp_ok). Defined.

(** ** Moving *)

(** What a step onto a free cell does to the world: the player stands on the
    new cell, and at most one treasure of that cell changes hands. *)
Definition moved (w : World) (u : string) (p : Player) (nx ny : Z) (w' : World) : Prop :=
  exists t, let p' := set_pl_LastUpdate t (set_pl_XY nx ny p) in
  w_npcs w' = w_npcs w /\ w_terrain w' = w_terrain w /\ w_version w' = w_version w +i 1 /\
  ((exists id tr, w_treasures w !! id = Some tr /\ (tr_X tr, tr_Y tr) = (nx, ny)
      /\ w_treasures w' = delete id (w_treasures w)
      /\ w_players w' = <[u := set_pl_Treasures (pl_Treasures p +i tr_Value tr) p']> (w_players w))
   \/ (forall id tr, w_treasures w !! id = Some tr -> (tr_X tr, tr_Y tr) <> (nx, ny))
      /\ w_treasures w' = w_treasures w /\ w_players w' = <[u := p']> (w_players w)).

Lemma wp_MovePlayer w e u d p nx ny :
  w_players w !! u = Some p -> pl_Alive p = true -> step_dir d (pl_X p) (pl_Y p) = (nx, ny) ->
  wp (MovePlayer u d) (fun r s =>
    r.2 = true /\ r.1.2 = default zero_UserProfile (profileLocked s.1 <$> w_players s.1 !! u) /\
    (free_cell w (pl_Username p) nx ny -> moved w u p nx ny s.1) /\
    (~ free_cell w (pl_Username p) nx ny -> s = (w, e))) (w, e).
Proof.
  intros Hp Ha Hd. unfold MovePlayer. eapply wp_with_live; [done..|]. rewrite Ha, Hd. cbn [negb].
  w_steps. pose proof (walkable_spec w nx ny (pl_Username p)) as Hfree.
  destruct (walkableForLocked w nx ny (pl_Username p)); cbn [negb].
  - assert (free_cell w (pl_Username p) nx ny) by by apply Hfree.
    w_steps. apply wp_treasureAt.
    + cbn. intros id tr e1 Htr Hx Hy. w_steps. apply wp_reply_eq. cbn. split_and!; [done..| |done].
      intros _. exists t. cbn. split_and!; [done..|]. left. exists id, tr.
      rewrite insert_insert_eq. split_and!; [done|congruence|done..].
    + cbn. intros Hno e1. w_steps. apply wp_reply_eq. cbn. split_and!; [done..| |done].
      intros _. exists t. split_and!; [done..|]. by right.
  - assert (~ free_cell w (pl_Username p) nx ny) by (rewrite <- Hfree; done).
    apply wp_reply_eq. by split_and!.
Qed.

Lemma MovePlayer_runs w e u d p :
  w_players w !! u = Some p -> pl_Alive p = true -> exists r s, MovePlayer u d (w, e) = Some (r, s).
Proof.
  intros Hp Ha. destruct (step_dir d (pl_X p) (pl_Y p)) as [nx ny] eqn:Hd.
  pose proof (wp_MovePlayer w e u d p nx ny Hp Ha Hd) as H.
  apply wp_run in H as (r & s & ? & _). eauto.
Qed.

(** C9. A live player's move terminates without a panic; it is carried out
    exactly when the cell in that direction is an open cell of the grid without
    another live unit, picking up at most one treasure, namely one that lies on
    the new cell; otherwise nothing at all changes. *)
Theorem MovePlayer_spec w e u d p nx ny :
  w_players w !! u = Some p -> pl_Alive p = true -> step_dir d (pl_X p) (pl_Y p) = (nx, ny) ->
  exists text prof s, MovePlayer u d (w, e) = Some ((text, prof, true), s) /\
    prof = default zero_UserProfile (profileLocked s.1 <$> w_players s.1 !! u) /\
    (free_cell w (pl_Username p) nx ny -> moved w u p nx ny s.1) /\
    (~ free_cell w (pl_Username p) nx ny -> s = (w, e)).
Proof.
  intros Hp Ha Hd. by apply wp_replied, wp_MovePlayer.
Qed.

Lemma MovePlayer_spec_witness :
  exists text prof s, MovePlayer "ann" "right" (demo_world, demo_env) = Some ((text, prof, true), s) /\
    prof = default zero_UserProfile (profileLocked s.1 <$> w_players s.1 !! "ann") /\
    (free_cell demo_world "ann" 3 2 -> moved demo_world "ann" (demo_player "ann" 2 2 100) 3 2 s.1) /\
    (~ free_cell demo_world "ann" 3 2 -> s = (demo_world, demo_env)).
Proof.
  apply (MovePlayer_spec demo_world demo_env "ann" "right" (demo_player "ann" 2 2 100) 3 2); reflexivity.
Defined.

Lemma moved_apart w u p nx ny w' :
  world_wf w -> apart w -> w_players w !! u = Some p -> pl_Alive p = true ->
  free_cell w u nx ny -> moved w u p nx ny w' -> apart w'.
Proof.
  intros Hw (Hpp & Hnn & Hpn) Hp Ha (_ & Hfp & Hfn) (t & Hn & _ & _ & Hc).
  assert (exists p', w_players w' = <[u := p']> (w_players w) /\ (pl_X p', pl_Y p') = (nx, ny) /\ pl_Alive p' = true)
    as (p' & Hw' & Hxy & Ha').
  { destruct Hc as [(id & tr & _ & _ & _ & ->)|(_ & _ & ->)]; eexists; split_and!; done. }
  assert (Hne : forall k q, w_players w !! k = Some q -> k <> u -> pl_Alive q = true -> (pl_X q, pl_Y q) <> (nx, ny)).
  { intros k q Hq Hk. apply (Hfp k); [done|]. by rewrite (pw_key _ _ _ (wf_player _ _ _ Hw Hq)). }
  unfold apart. rewrite Hw', Hn. split_and!; [|done|].
  - intros k1 k2 p1 p2 H1 H2 Hk Ha1 Ha2.
    apply lookup_insert_Some in H1 as [[<- <-]|[? H1]]; apply lookup_insert_Some in H2 as [[<- <-]|[? H2]];
      [done|rewrite Hxy..|by eauto]; [apply not_eq_sym|]; eauto.
  - intros k1 k2 q n H1 H2 Ha1 Ha2. apply lookup_insert_Some in H1 as [[<- <-]|[? H1]]; [|eauto].
    rewrite Hxy. apply not_eq_sym. eauto.
Qed.

(** Moving never makes two live units (players or NPCs) share a cell. *)
Theorem MovePlayer_apart w e u d p r s :
  world_wf w -> apart w -> w_players w !! u = Some p -> pl_Alive p = true ->
  MovePlayer u d (w, e) = Some (r, s) -> apart s.1.
Proof.
  intros Hw Hap Hp Ha Hrun. destruct (step_dir d (pl_X p) (pl_Y p)) as [nx ny] eqn:Hd.
  pose proof (wp_MovePlayer w e u d p nx ny Hp Ha Hd) as H. unfold wp in H. rewrite Hrun in H.
  destruct H as (_ & _ & Hf & Hnf). rewrite (pw_key _ _ _ (wf_player _ _ _ Hw Hp)) in *.
  destruct (decide (walkableForLocked w nx ny u = true)) as [Hwk|Hwk]; rewrite walkable_spec in Hwk.
  - eapply moved_apart; eauto.
  - by rewrite Hnf.
Qed.

Lemma demo_apart : apart demo_world.
Proof.
  unfold apart. cbn [demo_world w_players w_npcs]. split_and!; intros;
    repeat match goal with
    | H : <[_ := _]> _ !! _ = Some _ |- _ => apply lookup_insert_Some in H as [[<- <-]|[_ H]]
    | H : {[ _ := _ ]} !! _ = Some _ |- _ => apply lookup_singleton_Some in H as [<- <-]
    end; cbn in *; congruence.
Qed.

Lemma MovePlayer_apart_witness :
  exists r s, MovePlayer "ann" "right" (demo_world, demo_env) = Some (r, s) /\ apart s.1.
Proof.
  destruct (MovePlayer_runs demo_world demo_env "ann" "right" (demo_player "ann" 2 2 100)
              eq_refl eq_refl) as (r & s & Hrun).
  exists r, s. split; [exact Hrun|].
  apply (MovePlayer_apart demo_world demo_env "ann" "right" (demo_player "ann" 2 2 100) r s
           demo_wf demo_apart); [reflexivity|reflexivity|exact Hrun].
Defined.

(** ** Healing *)

Definition healed (t : Z) (p : Player) : Player :=
  set_pl_LastUpdate t (set_pl_HP (Z.min (pl_HP p + HealAmount) (pl_MaxHP p)) (set_pl_Potions (pl_Potions p - 1) p)).

(** A live player with a potion heals by 30 points, never above the maximum
    and never downwards, and spends exactly one potion; without a potion nothing
    changes. *)
Theorem HealPlayer_spec w e u p :
  world_wf w -> w_players w !! u = Some p -> pl_Alive p = true -> pl_Potions p < 2^63 ->
  exists text prof s, HealPlayer u (w, e) = Some ((text, prof, true), s) /\
    (pl_Potions p <= 0 -> s = (w, e)) /\
    (0 < pl_Potions p -> exists t,
       s.1 = set_version (w_version w +i 1) (set_players (<[u := healed t p]> (w_players w)) w)
       /\ pl_HP p <= pl_HP (healed t p) <= pl_MaxHP p
       /\ prof = profileLocked w (healed t p)).
Proof.
  intros Hw Hp Ha Hpot. pose proof (wf_player _ _ _ Hw Hp) as Hpw.
  apply wp_replied. eapply wp_with_live; [done..|]. rewrite Ha. cbn [negb]. destruct (Z.leb_spec (pl_Potions p) 0).
  { apply wp_reply_eq. split_and!; [done|done|lia]. }
  w_steps. apply wp_reply_eq. split_and!; [done|lia|]. intros _. exists t. cbn [fst snd].
  destruct Hpw as [_ _ Hmax Hhp _ _]. unfold HealAmount.
  assert (pl_HP p +i 30 = pl_HP p + 30) as Hh by (apply i64_id; unfold in_i64; lia).
  assert (pl_Potions p -i 1 = pl_Potions p - 1) as Hq by (apply i64_id; unfold in_i64; lia).
  cbn. rewrite Hh, Hq, lookup_insert_eq. cbn. unfold healed, HealAmount.
  destruct (Z.ltb_spec (pl_MaxHP p) (pl_HP p + 30)).
  - rewrite Z.min_r by lia. split_and!; [done|cbn; lia..|done].
  - rewrite Z.min_l by lia. split_and!; [done|cbn; lia..|done].
Qed.

Lemma HealPlayer_spec_witness :
  exists text prof s, HealPlayer "ann" (demo_world, demo_env) = Some ((text, prof, true), s) /\
    (pl_Potions (demo_player "ann" 2 2 100) <= 0 -> s = (demo_world, demo_env)) /\
    (0 < pl_Potions (demo_player "ann" 2 2 100) -> exists t,
       s.1 = set_version (w_version demo_world +i 1)
               (set_players (<["ann" := healed t (demo_player "ann" 2 2 100)]> (w_players demo_world)) demo_world)
       /\ pl_HP (demo_player "ann" 2 2 100) <= pl_HP (healed t (demo_player "ann" 2 2 100))
            <= pl_MaxHP (demo_player "ann" 2 2 100)
       /\ prof = profileLocked demo_world (healed t (demo_player "ann" 2 2 100))).
Proof.
  apply (HealPlayer_spec demo_world demo_env "ann" (demo_player "ann" 2 2 100) demo_wf);
    [reflexivity|reflexivity|cbn [demo_player pl_Potions]; lia].
Defined.

(** ** The shop *)

(** The price list: what an item costs and what it gives, and who may buy. *)
Definition price (item : string) : option Z :=
  if bool_decide (item = "potion") then Some PotionPrice
  else if bool_decide (item = "weapon") then Some WeaponPrice else None.
Definition may_buy (item : string) (p : Player) : Prop :=
  exists c, price item = Some c /\ c <= pl_Treasures p /\ (item = "potion" -> pl_Potions p < PotionCap).

(** A purchase goes through exactly when the item exists, is paid for, and
    (for potions) the carrying cap is not reached; it then debits exactly the
    price, never into debt, keeps the cap, and changes only that player's loot,
    potions, attack and update time.  A refused purchase changes nothing. *)
Theorem BuyItem_spec w e u item p :
  w_players w !! u = Some p -> pl_Alive p = true ->
  0 <= pl_Treasures p < 2^63 -> in_i64 (pl_Potions p) -> pl_Attack p + WeaponBoost < 2^63 -> 0 <= pl_Attack p ->
  exists text prof s, BuyItem u item (w, e) = Some ((text, prof, true), s) /\
    (~ may_buy item p -> s = (w, e)) /\
    (may_buy item p -> exists c t p', price item = Some c
       /\ s.1 = set_version (w_version w +i 1) (set_players (<[u := p']> (w_players w)) w)
       /\ p' = set_pl_LastUpdate t (set_pl_Attack (pl_Attack p + if bool_decide (item = "weapon") then WeaponBoost else 0)
                 (set_pl_Potions (pl_Potions p + if bool_decide (item = "potion") then 1 else 0)
                    (set_pl_Treasures (pl_Treasures p - c) p)))
       /\ 0 <= pl_Treasures p' /\ (item = "potion" -> pl_Potions p' <= PotionCap)).
Proof.
  intros Hp Ha Ht Hpot Hatk Hatk0.
  apply wp_replied. eapply wp_with_live; [done..|]. rewrite Ha. cbn [negb].
  unfold may_buy, price, PotionCap, PotionPrice, WeaponPrice, WeaponBoost, in_i64 in *.
  destruct (bool_decide_reflect (item = "potion")) as [->|Hn1].
  - rewrite (bool_decide_eq_false_2 ("potion" = "weapon")) by done.
    destruct (Z.ltb_spec (pl_Treasures p) 3); [apply wp_reply_eq; naive_solver lia|].
    destruct (Z.leb_spec 8 (pl_Potions p)); [apply wp_reply_eq; naive_solver lia|].
    w_steps. apply wp_reply_eq. split_and!; [done|naive_solver lia|]. intros _.
    eexists 3, t, _. split_and!; [done..| |cbn; rewrite i64_id by (unfold in_i64; lia); lia|
      cbn; rewrite i64_id by (unfold in_i64; lia); lia].
    cbn. rewrite !i64_id, Z.add_0_r by (unfold in_i64; lia). by destruct p.
  - destruct (bool_decide_reflect (item = "weapon")) as [->|Hn2]; [|apply wp_reply_eq; naive_solver].
    destruct (Z.ltb_spec (pl_Treasures p) 8); [apply wp_reply_eq; naive_solver lia|].
    w_steps. apply wp_reply_eq. split_and!; [done|naive_solver lia|]. intros _.
    eexists 8, t, _. split_and!; [done..| |cbn; rewrite i64_id by (unfold in_i64; lia); lia|done].
    cbn. rewrite !i64_id, Z.add_0_r by (unfold in_i64; lia). by destruct p.
Qed.

Lemma BuyItem_spec_witness :
  exists text prof s, BuyItem "ann" "weapon" (demo_world, demo_env) = Some ((text, prof, true), s) /\
    (may_buy "weapon" (demo_player "ann" 2 2 100) -> exists c p', price "weapon" = Some c
       /\ s.1 = set_version (w_version demo_world +i 1) (set_players (<["ann" := p']> (w_players demo_world)) demo_world)
       /\ 0 <= pl_Treasures p').
Proof.
  destruct (BuyItem_spec demo_world demo_env "ann" "weapon" (demo_player "ann" 2 2 100))
    as (text & prof & s & Hs & _ & Hbuy);
    [reflexivity|reflexivity|cbn [demo_player pl_Treasures]; lia
    |unfold in_i64; cbn [demo_player pl_Potions]; lia
    |unfold WeaponBoost; cbn [demo_player pl_Attack]; lia|cbn [demo_player pl_Attack]; lia|].
  exists text, prof, s. split; [exact Hs|]. intros Hmay.
  destruct (Hbuy Hmay) as (c & t & p' & ? & ? & _ & ? & _). exists c, p'. auto.
Defined.

(** ** Choosing a target *)

(** The first unit is at least as good a target: fewer hit points, and on a tie
    the smaller identifier. *)
Definition prefer (a b : Z * string) : Prop := a.1 < b.1 \/ a.1 = b.1 /\ str_le a.2 b.2.

#[export] Instance prefer_trans : Transitive prefer.
Proof. intros a b c [?|[? H1]] [?|[? H2]]; unfold prefer; try (left; lia). right. split; [lia|by etrans]. Qed.

#[export] Instance prefer_antisym : AntiSymm (=) prefer.
Proof.
  intros [a1 a2] [b1 b2] [?|[? H1]] [?|[? H2]]; cbn in *; try lia. f_equal; [done|by apply (anti_symm str_le)].
Qed.

Lemma weaker_prefer h i b :
  (weaker h i (Some b) = true -> prefer (h, i) b) /\ (weaker h i (Some b) = false -> prefer b (h, i)).
Proof.
  destruct b as [bh bi]. unfold weaker, prefer. cbn.
  destruct (Z.ltb_spec h bh); cbn; [split; [by left|done]|].
  destruct (Z.eqb_spec h bh) as [->|]; cbn; [|split; [done|left; lia]].
  split; intros H'; right; (split; [done|]); [|by apply str_ltb_not_le].
  destruct (total str_le i bi) as [|Hc]; [done|]. apply str_ltb_not_le in Hc. congruence.
Qed.

Section pick.
Context {A : Type} (ok : A -> bool) (hp : A -> Z) (id : A -> string).

Lemma pick_fold_least (l : list A) best :
  match fold_left (fun best u => if ok u && weaker (hp u) (id u) ((fun b => (hp b, id b)) <$> best)
                                 then Some u else best) l best with
  | Some b => (forall m, m ∈ l -> ok m = true -> prefer (hp b, id b) (hp m, id m))
              /\ (forall b0, best = Some b0 -> prefer (hp b, id b) (hp b0, id b0))
  | None => best = None /\ forall m, m ∈ l -> ok m = false
  end.
Proof.
  revert best. induction l as [|x l IH]; intros best; cbn [fold_left].
  { destruct best as [b|]; [|split; [done|by intros ? ?%elem_of_nil]].
    split; [by intros ? ?%elem_of_nil|]. intros b0 [= <-]. right. split; [done|]. by apply str_ltb_not_le, str_ltb_irrefl. }
  destruct (ok x) eqn:Hx; cbn [andb].
  - set (best' := if weaker _ _ _ then _ else _).
    assert (Hbest' : exists b', best' = Some b' /\ prefer (hp b', id b') (hp x, id x)
      /\ forall b0, best = Some b0 -> prefer (hp b', id b') (hp b0, id b0)).
    { assert (Hrefl : forall a, prefer a a) by (right; split; [done|]; by apply str_ltb_not_le, str_ltb_irrefl).
      unfold best'. destruct best as [b0|]; cbn [fmap option_fmap option_map].
      - destruct (weaker_prefer (hp x) (id x) (hp b0, id b0)) as [H1 H2].
        destruct (weaker _ _ _); eexists; (split; [done|]); split; auto; intros ? [= <-]; auto.
      - exists x. split_and!; [done|apply Hrefl|done]. }
    destruct Hbest' as (b' & -> & Hbx & Hb0). specialize (IH (Some b')). destruct (fold_left _ l _) as [b|].
    + destruct IH as [Hl Hb]. specialize (Hb b' eq_refl). split.
      * intros m [->|Hm]%elem_of_cons Hok; [by etrans|auto].
      * intros b0 H0. etrans; [done|auto].
    + by destruct IH.
  - specialize (IH best). destruct (fold_left _ l _) as [b|].
    + destruct IH as [Hl Hb]. split; [|done]. intros m [->|Hm]%elem_of_cons; [congruence|auto].
    + destruct IH as [? Hl]. split; [done|]. intros m [->|Hm]%elem_of_cons; auto.
Qed.

Lemma pick_target_least l : 
  match pick_target ok hp id l with
  | Some b => b ∈ l /\ ok b = true /\ forall m, m ∈ l -> ok m = true -> prefer (hp b, id b) (hp m, id m)
  | None => forall m, m ∈ l -> ok m = false
  end.
Proof.
  pose proof (pick_fold_least l None) as H. pose proof (pick_target_Some ok hp id l) as HS.
  unfold pick_target in *. destruct (fold_left _ l None) as [b|]; [|by destruct H].
  destruct (HS b eq_refl), H. auto.
Qed.

(** With pairwise different identifiers the choice ignores the visiting order. *)
Lemma pick_target_perm l l' :
  l ≡ₚ l' -> (forall a b, a ∈ l -> b ∈ l -> id a = id b -> a = b) ->
  pick_target ok hp id l = pick_target ok hp id l'.
Proof.
  intros Hll Hinj. pose proof (pick_target_least l) as H1. pose proof (pick_target_least l') as H2.
  destruct (pick_target ok hp id l) as [a|], (pick_target ok hp id l') as [b|]; try done.
  - destruct H1 as (Ha & Hoka & H1), H2 as (Hb & Hokb & H2). rewrite <- Hll in Hb. setoid_rewrite <- Hll in H2.
    assert (Heq : (hp a, id a) = (hp b, id b)) by (apply (anti_symm prefer); auto).
    f_equal. apply Hinj; congruence.
  - destruct H1 as (Ha & Hok & _). rewrite Hll in Ha. by rewrite H2 in Hok.
  - destruct H2 as (Hb & Hok & _). rewrite <- Hll in Hb. by rewrite H1 in Hok.
Qed.
End pick.

Lemma npc_ids_inj w a b :
  world_wf w -> a ∈ values (w_npcs w) -> b ∈ values (w_npcs w) -> npc_ID a = npc_ID b -> a = b.
Proof.
  rewrite !elem_of_values. intros Hw [k1 Ha] [k2 Hb] Heq.
  pose proof (nw_key _ _ _ (wf_npc _ _ _ Hw Ha)). pose proof (nw_key _ _ _ (wf_npc _ _ _ Hw Hb)). congruence.
Qed.

Lemma player_names_inj w a b :
  world_wf w -> a ∈ values (w_players w) -> b ∈ values (w_players w) -> pl_Username a = pl_Username b -> a = b.
Proof.
  rewrite !elem_of_values. intros Hw [k1 Ha] [k2 Hb] Heq.
  pose proof (pw_key _ _ _ (wf_player _ _ _ Hw Ha)). pose proof (pw_key _ _ _ (wf_player _ _ _ Hw Hb)). congruence.
Qed.

Lemma npc_target_perm w p l :
  world_wf w -> l ≡ₚ values (w_npcs w) -> npc_target p l = npc_target p (values (w_npcs w)).
Proof.
  intros Hw Hl. symmetry. apply pick_target_perm; [done|]. intros a b ? ?. by apply (npc_ids_inj w).
Qed.

Lemma player_target_perm w p u l :
  world_wf w -> l ≡ₚ values (w_players w) ->
  player_target p u l = player_target p u (values (w_players w)).
Proof.
  intros Hw Hl. symmetry. apply pick_target_perm; [done|]. intros a b ? ?. by apply (player_names_inj w).
Qed.

Definition npc_in_reach (p : Player) (n : NPC) : Prop :=
  npc_Alive n = true /\ distance (pl_X p) (pl_Y p) (npc_X n) (npc_Y n) <= AttackRange.

(** The NPC an attack strikes is the one in reach with the fewest hit
    points, the smaller ID on a tie, whatever order the map is visited in; no NPC
    is struck only when none is in reach. *)
Theorem npc_target_least w p l :
  world_wf w -> l ≡ₚ values (w_npcs w) ->
  npc_target p l = npc_target p (values (w_npcs w)) /\
  match npc_target p l with
  | Some n => w_npcs w !! npc_ID n = Some n /\ npc_in_reach p n /\
      forall k m, w_npcs w !! k = Some m -> npc_in_reach p m ->
        prefer (npc_HP n, npc_ID n) (npc_HP m, npc_ID m)
  | None => forall k m, w_npcs w !! k = Some m -> ~ npc_in_reach p m
  end.
Proof.
  intros Hw Hl. rewrite (npc_target_perm w) by done. split; [done|].
  pose proof (pick_target_least (fun n => npc_Alive n
    && in_range (pl_X p) (pl_Y p) AttackRange (npc_X n) (npc_Y n)) npc_HP npc_ID (values (w_npcs w))) as H.
  assert (Hreach : forall n, npc_in_reach p n <->
    npc_Alive n && in_range (pl_X p) (pl_Y p) AttackRange (npc_X n) (npc_Y n) = true)
    by (intros n; unfold npc_in_reach, in_range; by rewrite andb_true_iff, Z.leb_le).
  unfold npc_target. destruct (pick_target _ _ _ _) as [n|].
  - destruct H as ([k Hn]%elem_of_values & Hr & Hmin).
    rewrite (nw_key _ _ _ (wf_npc _ _ _ Hw Hn)) at 1. split_and!; [done|by apply Hreach|].
    intros k' m Hm ?%Hreach. apply Hmin; [apply elem_of_values; eauto|done].
  - intros k m Hm Hm'%Hreach. rewrite H in Hm'; [done|]. apply elem_of_values. eauto.
Qed.

Lemma npc_target_least_witness :
  npc_target (demo_player "ann" 2 2 100) (values (w_npcs demo_world)) = Some (demo_npc "demo-npc-3" 2 1 30) /\
  match npc_target (demo_player "ann" 2 2 100) (values (w_npcs demo_world)) with
  | Some n => npc_in_reach (demo_player "ann" 2 2 100) n
  | None => False
  end.
Proof.
  split; [vm_compute; reflexivity|].
  pose proof (npc_target_least demo_world (demo_player "ann" 2 2 100) (values (w_npcs demo_world))
                demo_wf (Permutation_refl _)) as [_ H].
  destruct (npc_target (demo_player "ann" 2 2 100) (values (w_npcs demo_world))) as [n|] eqn:E;
    [apply H|vm_compute in E; discriminate E].
Defined.

(** ** What an attack does *)

(** One loot drop: a new treasure on the cell, or more loot in the one there. *)
Definition dropped (w w' : World) (x y v : Z) : Prop :=
  exists id t, w_treasures w' = <[id := t]> (w_treasures w) /\ tr_X t = x /\ tr_Y t = y /\
    (tr_Value t = v \/ exists t0, w_treasures w !! id = Some t0 /\ (tr_X t0, tr_Y t0) = (x, y)
                               /\ tr_Value t = tr_Value t0 +i v).

Lemma wp_drop_value w e x y v kind (Q : option Treasure -> WS -> Prop) :
  stands (w_terrain w) x y ->
  (forall t w' e', dropped w w' x y v -> w_players w' = w_players w -> w_npcs w' = w_npcs w ->
     w_cfg w' = w_cfg w -> Q (Some t) (w', e')) ->
  wp (dropTreasureLocked x y v kind) Q (w, e).
Proof.
  intros Hs HQ. unfold dropTreasureLocked. w_steps. rewrite (stands_bounds _ _ _ Hs).
  w_steps. apply wp_treasureAt.
  - intros id t e1 Ht Hx Hy. w_steps. apply HQ; try done.
    exists id, (set_tr_Value (tr_Value t +i v) t). split_and!; try done.
    right. exists t. split_and!; [done|congruence|done].
  - intros _ e1. w_steps. apply HQ; try done. eexists _, _. split_and!; [done..|by left].
Qed.

(** Striking an NPC: a wounded NPC loses exactly the attack value; a killed
    one disappears, the attacker's kill count rises by one, and loot worth 2 to 4
    falls on its cell.  Nothing else in the map of players or NPCs changes. *)
Theorem Attack_npc_spec w e u p n :
  world_wf w -> w_players w !! u = Some p -> pl_Alive p = true ->
  npc_target p (values (w_npcs w)) = Some n ->
  exists ev prof s t, Attack u (w, e) = Some ((ev, "", "", prof, true), s) /\
    (pl_Attack p < npc_HP n ->
       w_npcs s.1 = <[npc_ID n := set_npc_HP (npc_HP n - pl_Attack p) n]> (w_npcs w) /\
       w_players s.1 = <[u := set_pl_LastUpdate t p]> (w_players w) /\ w_treasures s.1 = w_treasures w) /\
    (npc_HP n <= pl_Attack p ->
       w_npcs s.1 = delete (npc_ID n) (w_npcs w) /\
       w_players s.1 = <[u := set_pl_Kills (pl_Kills p +i 1) (set_pl_LastUpdate t p)]> (w_players w) /\
       exists v, 2 <= v <= 4 /\ dropped w s.1 (npc_X n) (npc_Y n) v).
Proof.
  intros Hw Hp Ha Hn.
  enough (H : wp (Attack u) (fun r s => exists ev prof t, r = (ev, "", "", prof, true) /\
    (pl_Attack p < npc_HP n ->
       w_npcs s.1 = <[npc_ID n := set_npc_HP (npc_HP n - pl_Attack p) n]> (w_npcs w) /\
       w_players s.1 = <[u := set_pl_LastUpdate t p]> (w_players w) /\ w_treasures s.1 = w_treasures w) /\
    (npc_HP n <= pl_Attack p ->
       w_npcs s.1 = delete (npc_ID n) (w_npcs w) /\
       w_players s.1 = <[u := set_pl_Kills (pl_Kills p +i 1) (set_pl_LastUpdate t p)]> (w_players w) /\
       exists v, 2 <= v <= 4 /\ dropped w s.1 (npc_X n) (npc_Y n) v)) (w, e))
    by (apply wp_run in H as (r & s & Hs & ev & prof & t & -> & ?); eauto 10).
  pose proof Hn as [Hin _]%npc_target_Some. apply elem_of_values in Hin as [k Hk].
  pose proof (wf_npc _ _ _ Hw Hk) as Hnw. pose proof (wf_player _ _ _ Hw Hp) as Hpw.
  eapply wp_with_live; [done..|]. rewrite Ha. cbn [negb]. w_steps. apply wp_range_values. intros l e1 Hl.
  rewrite (npc_target_perm w), Hn by done. unfold attack_npc. w_steps.
  assert (Hi : npc_HP n -i pl_Attack p = npc_HP n - pl_Attack p)
    by (apply i64_id; destruct Hpw, Hnw; unfold in_i64; lia).
  cbn [npc_HP set_npc_HP]. rewrite Hi. destruct (Z.leb_spec (npc_HP n - pl_Attack p) 0).
  - w_steps. apply wp_Intn; [lia|]. intros v pos Hv. w_steps.
    apply wp_drop_value; [apply (nw_pos _ _ _ Hnw)|]. intros tr w' e2 Hd Hpl Hns Hc. w_steps.
    unfold attack_reply. w_steps. eexists _, _, t. split_and!; [done|lia|]. intros _.
    split_and!; [done|done|]. exists (2 + v). split; [lia|exact Hd].
  - w_steps. unfold attack_reply. w_steps. eexists _, _, t. split_and!; [done| |lia]. done.
Qed.

Lemma Attack_npc_spec_witness :
  exists ev prof s, Attack "ann" (demo_world, demo_env) = Some ((ev, "", "", prof, true), s)
    /\ w_npcs s.1 = delete "demo-npc-3" (w_npcs demo_world)
    /\ exists v, 2 <= v <= 4 /\ dropped demo_world s.1 2 1 v.
Proof.
  destruct (Attack_npc_spec demo_world demo_env "ann" (demo_player "ann" 2 2 100)
              (demo_npc "demo-npc-3" 2 1 30) demo_wf) as (ev & prof & s & t & Hs & _ & Hkill);
    [reflexivity|reflexivity|vm_compute; reflexivity|].
  exists ev, prof, s. split; [exact Hs|].
  destruct Hkill as (? & _ & ?); [cbn [demo_npc demo_player npc_HP pl_Attack]; lia|]. auto.
Defined.

(** The fallen player: no hit points, one more death, revived 4 s after [t]. *)
Definition fallen (t t' : Z) (p : Player) : Player :=
  set_pl_LastUpdate t' (set_pl_RespawnAt (t +i 4 * Second)
    (set_pl_Deaths (pl_Deaths p +i 1) (set_pl_Alive false (set_pl_HP 0 p)))).

(** With no NPC in reach, an attack strikes the weakest other live player in
    reach: that player loses exactly the attack value or falls, to be revived
    four seconds later, with one death counted and one kill credited to the
    attacker; NPCs and treasures do not change, and the victim is told. *)
Theorem Attack_player_spec w e u p o :
  world_wf w -> w_players w !! u = Some p -> pl_Alive p = true ->
  npc_target p (values (w_npcs w)) = None -> player_target p u (values (w_players w)) = Some o ->
  exists ev tev prof s t t' t'', Attack u (w, e) = Some ((ev, pl_Username o, tev, prof, true), s) /\
    w_npcs s.1 = w_npcs w /\ w_treasures s.1 = w_treasures w /\ pl_Username o <> u /\
    (pl_Attack p < pl_HP o -> w_players s.1 =
       <[pl_Username o := set_pl_HP (pl_HP o - pl_Attack p) o]> (<[u := set_pl_LastUpdate t p]> (w_players w))) /\
    (pl_HP o <= pl_Attack p -> w_players s.1 =
       <[pl_Username o := fallen t' t'' o]>
         (<[u := set_pl_Kills (pl_Kills p +i 1) (set_pl_LastUpdate t p)]> (w_players w))).
Proof.
  intros Hw Hp Ha Hn Ho.
  enough (H : wp (Attack u) (fun r s => exists ev tev prof t t' t'', r = (ev, pl_Username o, tev, prof, true) /\
    w_npcs s.1 = w_npcs w /\ w_treasures s.1 = w_treasures w /\ pl_Username o <> u /\
    (pl_Attack p < pl_HP o -> w_players s.1 =
       <[pl_Username o := set_pl_HP (pl_HP o - pl_Attack p) o]> (<[u := set_pl_LastUpdate t p]> (w_players w))) /\
    (pl_HP o <= pl_Attack p -> w_players s.1 =
       <[pl_Username o := fallen t' t'' o]>
         (<[u := set_pl_Kills (pl_Kills p +i 1) (set_pl_LastUpdate t p)]> (w_players w)))) (w, e))
    by (apply wp_run in H as (r & s & Hs & ev & tev & prof & t & t' & t'' & -> & ?); eauto 12).
  pose proof Ho as (Hin & Hne & _)%player_target_Some. apply elem_of_values in Hin as [k Hk].
  pose proof (wf_player _ _ _ Hw Hk) as How. pose proof (wf_player _ _ _ Hw Hp) as Hpw.
  eapply wp_with_live; [done..|]. rewrite Ha. cbn [negb]. w_steps. apply wp_range_values. intros l e1 Hl.
  rewrite (npc_target_perm w), Hn by done. w_steps. apply wp_range_values. intros l' e2 Hl'.
  rewrite (player_target_perm w), Ho by done. unfold attack_player. w_steps.
  assert (Hi : pl_HP o -i pl_Attack p = pl_HP o - pl_Attack p)
    by (apply i64_id; destruct Hpw, How; unfold in_i64; lia).
  cbn [pl_HP set_pl_HP]. rewrite Hi. destruct (Z.leb_spec (pl_HP o - pl_Attack p) 0).
  - w_steps. apply wp_knockDown. intros t1 t2 e3. w_steps. apply wp_respawn_note. intros r e4. w_steps.
    unfold attack_reply. w_steps. eexists _, _, _, t, t1, t2. split_and!; [done..|lia|]. done.
  - w_steps. unfold attack_reply. w_steps. eexists _, _, _, t, 0, 0. split_and!; [done..|lia].
Qed.

Lemma Attack_player_spec_witness :
  exists ev tev prof s t t' t'', Attack "bob" (demo_world_pvp, demo_env) = Some ((ev, "ann", tev, prof, true), s) /\
    w_players s.1 = <["ann" := fallen t' t'' (demo_player "ann" 2 2 30)]>
         (<["bob" := set_pl_Kills (0 +i 1) (set_pl_LastUpdate t (demo_player "bob" 4 2 20))]> (w_players demo_world_pvp)).
Proof.
  destruct (Attack_player_spec demo_world_pvp demo_env "bob" (demo_player "bob" 4 2 20) (demo_player "ann" 2 2 30)
              demo_pvp_wf) as (ev & tev & prof & s & t & t' & t'' & Hs & _ & _ & _ & _ & Hkill);
    [reflexivity|reflexivity|vm_compute; reflexivity|vm_compute; reflexivity|].
  exists ev, tev, prof, s, t, t', t''. split; [exact Hs|].
  apply Hkill. cbn [demo_player pl_HP pl_Attack]. lia.
Defined.

(** ** Reviving *)

(** C10. A fallen player is revived by the first operation that looks at the
    player at or after the respawn time, and not before: with full hit points,
    at least the initial potions, on a free cell or else at the camp, and with no
    respawn pending. *)
Theorem refresh_spec w e u p :
  world_wf w -> w_players w !! u = Some p -> pl_Alive p = false -> pl_RespawnAt p <> 0 ->
  exists s, refreshPlayerStateLocked u (w, e) = Some (tt, s) /\
    (clk e (clk_pos e) < pl_RespawnAt p -> s.1 = w) /\
    (pl_RespawnAt p <= clk e (clk_pos e) -> exists p', w_players s.1 = <[u := p']> (w_players w)
       /\ pl_Alive p' = true /\ pl_HP p' = pl_MaxHP p /\ pl_RespawnAt p' = 0 /\ MaxPotions <= pl_Potions p'
       /\ (free_cell w u (pl_X p') (pl_Y p')
           \/ (pl_X p', pl_Y p') = (cfg_SpawnX (w_cfg w), cfg_SpawnY (w_cfg w)))).
Proof.
  intros Hw Hp Ha Hr.
  enough (H : wp (refreshPlayerStateLocked u) (fun _ s =>
    (clk e (clk_pos e) < pl_RespawnAt p -> s.1 = w) /\
    (pl_RespawnAt p <= clk e (clk_pos e) -> exists p', w_players s.1 = <[u := p']> (w_players w)
       /\ pl_Alive p' = true /\ pl_HP p' = pl_MaxHP p /\ pl_RespawnAt p' = 0 /\ MaxPotions <= pl_Potions p'
       /\ (free_cell w u (pl_X p') (pl_Y p')
           \/ (pl_X p', pl_Y p') = (cfg_SpawnX (w_cfg w), cfg_SpawnY (w_cfg w))))) (w, e))
    by (apply wp_run in H as ([] & s & Hs & ?); eauto).
  unfold refreshPlayerStateLocked. w_steps. rewrite Hp, Ha. unfold IsZero.
  rewrite (proj2 (Z.eqb_neq _ _) Hr). cbn [orb].
  apply wp_bind, wp_nowW_eq. intros e1. destruct (Z.ltb_spec (clk e (clk_pos e)) (pl_RespawnAt p)).
  { w_steps. split; [done|lia]. }
  w_steps. rewrite (pw_key _ _ _ (wf_player _ _ _ Hw Hp)). apply wp_findSafePosition; [by apply ww_row0| |].
  - intros x y Hf _ pos. w_steps. split; [lia|]. intros _. eexists. split; [done|]. cbn.
    split_and!; [done..|lia|by left].
  - intros _. w_steps. split; [lia|]. intros _. eexists. split; [done|]. cbn. split_and!; [done..|lia|by right].
Qed.

Lemma refresh_spec_witness :
  exists s, refreshPlayerStateLocked "cid" (demo_world, demo_env) = Some (tt, s) /\
    exists p', w_players s.1 = <["cid" := p']> (w_players demo_world) /\ pl_Alive p' = true /\ pl_HP p' = 120.
Proof.
  destruct (refresh_spec demo_world demo_env "cid" (demo_down "cid" 5 3) demo_wf) as (s & Hs & _ & Hdue);
    [reflexivity|reflexivity|discriminate|].
  exists s. split; [exact Hs|]. destruct Hdue as (p' & ? & ? & ? & _); [vm_compute; discriminate|]. eauto.
Defined.
