(* ===== verification/WorldBuild.v ===== *)
(** * The world of one map: quotas, construction and checkpoints

    The NPC quota of the tick, the construction of a world from a map
    configuration, the stock maps, and the round trip of a world through a
    checkpoint. *)

From Stdlib Require Import ZArith Lia String.
From stdpp Require Import base gmap strings list sorting option pretty relations.
From S2P Require Import Prelude Protocol Maps World WorldOps WorldInv WorldSafe WorldProps.

Open Scope Z_scope.
Open Scope go_scope.

(** ** Counting cells *)

(** The open cells of a grid. *)
Definition open_cells (g : list (list Z)) : gset (Z * Z) :=
  list_to_set (filter (fun xy => grid_cell_open g xy.1 xy.2 = true) (cells g)).

(** A configuration a world can be built from: a first row, an open spawn cell,
    and at least [n] open cells. *)
Record cfg_ok (n : Z) (cfg : MapConfig) : Prop := {
  co_row0 : is_Some (zlookup 0 (cfg_Layout cfg));
  co_spawn : stands (stringsToGrid (cfg_Layout cfg)) (cfg_SpawnX cfg) (cfg_SpawnY cfg);
  co_open : n <= Z.of_nat (size (open_cells (stringsToGrid (cfg_Layout cfg))))
}.

(** What a restored player keeps: everything but the pending respawn, an empty
    potion bag (read as unset) and the time of the last update. *)
Definition restored_as (mapID : string) (t : Z) (p : Player) : Player :=
  mkPlayer (pl_Username p) mapID (pl_X p) (pl_Y p) (pl_HP p) (pl_MaxHP p) (pl_Attack p)
    (valueOr (pl_Potions p) MaxPotions) (pl_Treasures p) (pl_Kills p) (pl_Deaths p) (pl_Victories p)
    (pl_Alive p) 0 t.

(** ** Helper lemmas *)

Lemma elem_of_open_cells g x y : (x, y) ∈ open_cells g <-> stands g x y.
Proof.
  unfold open_cells. rewrite elem_of_list_to_set, list_elem_of_filter, grid_cell_open_stands. cbn.
  split; [by intros [? _]|]. intros Hs. split; [done|]. apply elem_of_cells.
  destruct Hs as (row & c & ? & ? & _). eauto.
Qed.

Lemma size_list_to_set_le {A} `{Countable A} (l : list A) : (size (list_to_set l : gset A) <= length l)%nat.
Proof.
  induction l as [|x l IH]; cbn [list_to_set length]; [by rewrite size_empty|].
  rewrite size_union_alt, size_singleton. pose proof (subseteq_size (list_to_set l ∖ {[x]}) (list_to_set l : gset A)).
  set_solver by lia.
Qed.

(** More open cells than units and taken cells leave a free cell that is not taken. *)
Lemma free_cell_beyond w ig (taken : list (Z * Z)) :
  Z.of_nat (size (w_players w)) + Z.of_nat (size (w_npcs w)) + Z.of_nat (length taken) < Z.of_nat (size (open_cells (w_terrain w))) ->
  exists x y, free_cell w ig x y /\ (x, y) ∉ taken.
Proof.
  intros H.
  set (units := ((fun p => (pl_X p, pl_Y p)) <$> values (w_players w))
                ++ ((fun n => (npc_X n, npc_Y n)) <$> values (w_npcs w)) ++ taken).
  assert (Hlen : (length units = size (w_players w) + size (w_npcs w) + length taken)%nat).
  { unfold units, values. rewrite !length_app, !length_fmap, !length_map_to_list. lia. }
  destruct (set_choose_or_empty (open_cells (w_terrain w) ∖ list_to_set units)) as [[[x y] [Hin Hnot]%elem_of_difference]|Hempty].
  2: { pose proof (size_list_to_set_le units).
       assert (open_cells (w_terrain w) ⊆ list_to_set units) as Hsub%subseteq_size; [|lia].
       intros z Hz. destruct (decide (z ∈ (list_to_set units : gset (Z * Z)))) as [|Hn]; [done|].
       destruct (not_elem_of_empty (C := gset (Z * Z)) z). rewrite <- Hempty. by apply elem_of_difference. }
  exists x, y. apply elem_of_open_cells in Hin. rewrite elem_of_list_to_set in Hnot.
  unfold units in Hnot. rewrite !elem_of_app, !list_elem_of_fmap in Hnot. split; [|tauto].
  split_and!; [done| |].
  - intros k p Hp _ _ Heq. apply Hnot. left. exists p. split; [done|]. apply elem_of_values. eauto.
  - intros k n Hn _ Heq. apply Hnot. right; left. exists n. split; [done|]. apply elem_of_values. eauto.
Qed.

Lemma free_cell_exists w ig :
  Z.of_nat (size (w_players w)) + Z.of_nat (size (w_npcs w)) < Z.of_nat (size (open_cells (w_terrain w))) ->
  exists x y, free_cell w ig x y.
Proof. intros H. destruct (free_cell_beyond w ig []) as (x & y & ? & _); [cbn; lia|eauto]. Qed.

Lemma wander_dom w e id n d : wp (wander id n d) (fun _ s => dom (w_npcs s.1) = dom (w_npcs w)) (w, e).
Proof.
  revert d. induction n as [|n IH]; intros d; cbn [wander]; w_steps; [done|].
  destruct (w_npcs w !! id) as [npc|] eqn:Hn; [|w_steps; done].
  destruct (match d mod 4 with 0 => _ | _ => _ end) as [nx ny].
  case_match; [|apply IH]. w_steps. cbn. apply elem_of_dom_2 in Hn. rewrite dom_insert_L. set_solver.
Qed.

(** No NPC appears or disappears on an NPC's turn. *)
Lemma npc_turn_dom w e events id :
  world_wf w -> wp (npc_turn events id) (fun _ s => dom (w_npcs s.1) = dom (w_npcs w)) (w, e).
Proof.
  intros Hw. unfold npc_turn. w_steps. cbn [fst].
  destruct (w_npcs w !! id) as [n|] eqn:Hn; [|w_steps; done].
  case_match; [w_steps; done|]. w_steps. apply wp_closestPlayer; [done|].
  intros o w' e' Hw' (_ & _ & Hns & _) _. destruct o as [p|].
  - w_steps. case_match; w_steps.
    + apply wp_knockDown. intros. w_steps. cbn. by rewrite Hns.
    + cbn. by rewrite Hns.
  - w_steps. apply wp_Intn; [lia|]. intros b pos _. w_steps.
    eapply wp_mono; [apply wander_dom|]. intros ? [w2 e2] Hd. w_steps. cbn in *. by rewrite Hd, Hns.
Qed.

Lemma size_dom_eq {A} (m m' : gmap string A) : dom m = dom m' -> size m = size m'.
Proof. intros H. by rewrite <- (size_dom m), <- (size_dom m'), H. Qed.

Lemma npc_turns_dom w e events ids :
  world_wf w -> wp (foldM npc_turn events ids) (fun _ s => dom (w_npcs s.1) = dom (w_npcs w)) (w, e).
Proof.
  intros Hw.
  eapply wp_mono; [apply (wp_foldM _ (fun _ s => world_wf s.1 /\ dom (w_npcs s.1) = dom (w_npcs w)))|].
  - intros acc id [w1 e1] _ [Hw1 Hd1]. cbn in *.
    eapply wp_mono; [apply wp_and; [by apply npc_turn_keeps|by apply npc_turn_dom]|].
    intros ? s [[Hw2 _] Hd2]. split; [done|congruence].
  - done.
  - by intros ? ? [_ ?].
Qed.

(** ** The NPC quota *)

(** C11. Every tick restores the quota: if the map has five more open cells
    than there are players, then after a tick at least [MinNPCs] NPCs live. *)
Theorem BackgroundStep_quota w e :
  world_wf w -> w_nextNPC w + MinNPCs < 2^63 ->
  Z.of_nat (size (w_players w)) + MinNPCs <= Z.of_nat (size (open_cells (w_terrain w))) ->
  exists events s, BackgroundStep (w, e) = Some (events, s) /\ MinNPCs <= Z.of_nat (size (w_npcs s.1)).
Proof.
  intros Hw Hb Hopen.
  enough (H : wp BackgroundStep (fun _ s => MinNPCs <= Z.of_nat (size (w_npcs s.1))) (w, e))
    by (apply wp_run in H as (l & s & ? & ?); eauto).
  unfold BackgroundStep. w_steps. apply wp_rangeW. intros ks e' _. w_steps.
  eapply wp_mono; [apply (wp_foldM _ (fun _ s => world_wf s.1 /\ refreshes w s.1))|].
  - intros evs k [w1 e1] _ [Hw1 Hr1]. apply revive_event_spec; [done|]. intros. cbn in *.
    split; [done|by etrans].
  - by cbn.
  - intros evs [w1 e1] [Hw1 (Hc1 & Ht1 & _ & _ & Hn1 & Hd1)]. cbn [fst] in *. w_steps.
    apply spawn_npcs_spec; [done|rewrite Hn1; unfold MinNPCs in *; lia| |].
    { exists 0%nat. split; [done|]. intros; lia. }
    intros l w2 e2 Hw2 Hc2 Ht2 Hp2 Hquota. w_steps. apply maybe_treasure_spec; [done|].
    intros l3 w3 e3 Hw3 Hc3 Ht3 Hp3 Hn3. w_steps.
    eapply wp_mono; [apply npc_turns_dom; done|]. intros ? s Hd. cbn in Hd. rewrite (size_dom_eq _ _ Hd), Hn3.
    destruct Hquota as [|Hno]; [done|]. destruct (Z.le_gt_cases MinNPCs (Z.of_nat (size (w_npcs w2)))); [done|].
    destruct (free_cell_exists w2 "") as (x & y & Hf); [|by destruct (Hno x y)].
    rewrite Ht2, Ht1, Hp2, (size_dom_eq _ _ Hd1). lia.
Qed.

Lemma BackgroundStep_quota_witness :
  exists events s, BackgroundStep (demo_world, demo_env) = Some (events, s)
    /\ MinNPCs <= Z.of_nat (size (w_npcs s.1)).
Proof.
  apply (BackgroundStep_quota demo_world demo_env demo_wf).
  - cbn [demo_world w_nextNPC]. unfold MinNPCs. lia.
  - vm_compute. discriminate.
Defined.

(** ** Construction *)

Lemma blank_wf n cfg e : cfg_ok n cfg -> world_wf (blank_world cfg e).
Proof.
  intros [H0 Hs _]. constructor; cbn [blank_world w_cfg w_players w_npcs w_treasures w_nextNPC];
    try done; try apply map_Forall_empty; try lia.
  cbn [blank_world w_terrain]. revert H0. unfold stringsToGrid. rewrite !zlookup_is_Some. unfold zlen.
  by rewrite length_fmap.
Qed.

(** What the first loop of [bootstrap] leaves alone. *)
Definition same_hoard (w w' : World) : Prop :=
  w_treasures w' = w_treasures w /\ w_nextTreasure w' = w_nextTreasure w /\ w_rng w' = w_rng w.

Lemma bootstrap_npcs_spec w e fuel (Q : unit -> WS -> Prop) :
  world_wf w -> MinNPCs <= Z.of_nat (size (open_cells (w_terrain w))) -> w_players w = ∅ ->
  Z.of_nat (size (w_npcs w)) <= MinNPCs ->
  (exists i, (5 <= i + fuel)%nat /\ w_nextNPC w - Z.of_nat i + 5 < 2^63 /\
     forall j, w_nextNPC w - Z.of_nat i <= j < w_nextNPC w -> npc_id w j ∈ dom (w_npcs w)) ->
  (forall w' e', world_wf w' -> w_cfg w' = w_cfg w -> w_terrain w' = w_terrain w -> w_players w' = ∅ ->
     Z.of_nat (size (w_npcs w')) = MinNPCs -> same_hoard w w' -> Q tt (w', e')) ->
  wp (bootstrap_npcs fuel) Q (w, e).
Proof.
  revert w e. induction fuel as [|fuel IH]; intros w e Hw Hopen Hp Hle (i & Hi & Hb & Hdom) HQ; cbn [bootstrap_npcs];
    w_steps; destruct (Z.leb_spec MinNPCs (Z.of_nat (size (w_npcs w)))); try (w_steps; apply HQ; done || lia).
  - exfalso. apply ids_fill_quota in Hdom. unfold MinNPCs in *. lia.
  - pose proof (ids_fill_quota _ _ Hdom). unfold MinNPCs in *. w_steps. apply wp_spawnNPC; [done|lia| |].
    + intros npc w' e' Hw' Hc Ht Hp' Htr Hn Hns _ Hrng Hnt.
      apply IH; [done|by rewrite Ht|by rewrite Hp'| | |].
      * rewrite Hns, map_size_insert. case_match; cbn; lia.
      * exists (S i). split_and!; [lia|lia|]. by eapply ids_extend.
      * intros w2 e2 ? ? ? ? ? (? & ? & ?). apply HQ; try done; try congruence. split_and!; congruence.
    + intros Hno. exfalso. destruct (free_cell_exists w "") as (x & y & Hf); [|by destruct (Hno x y)].
      rewrite Hp, map_size_empty. lia.
Qed.

Lemma bootstrap_treasures_spec w e fuel (Q : WS -> Prop) :
  world_wf w ->
  (forall w' e', world_wf w' -> w_cfg w' = w_cfg w -> w_terrain w' = w_terrain w -> w_players w' = w_players w ->
     w_npcs w' = w_npcs w -> Z.quot MaxTreasures 2 <= Z.of_nat (size (w_treasures w')) -> Q (w', e')) ->
  match bootstrap_treasures fuel (w, e) with Some (_, s) => Q s | None => True end.
Proof.
  revert w e. induction fuel as [|fuel IH]; intros w e Hw HQ; cbn [bootstrap_treasures].
  - unfold getW, gets, mbind, st_bind. cbn [fst].
    destruct (Z.leb_spec (Z.quot MaxTreasures 2) (Z.of_nat (size (w_treasures w)))); [|done]. by apply HQ.
  - unfold getW, gets, mbind, st_bind. cbn [fst].
    destruct (Z.leb_spec (Z.quot MaxTreasures 2) (Z.of_nat (size (w_treasures w)))); [by apply HQ|].
    pose proof (wp_spawnTreasure w e "遗迹补给" (fun _ s => world_wf s.1 /\ w_cfg s.1 = w_cfg w
      /\ w_terrain s.1 = w_terrain w /\ w_players s.1 = w_players w /\ w_npcs s.1 = w_npcs w) Hw) as Hsp.
    assert (wp (spawnTreasureLocked "遗迹补给") (fun _ s => world_wf s.1 /\ w_cfg s.1 = w_cfg w
      /\ w_terrain s.1 = w_terrain w /\ w_players s.1 = w_players w /\ w_npcs s.1 = w_npcs w) (w, e)) as (o & [w1 e1] & -> & Hw1 & Hc & Hg & Hp & Hn)%wp_run
      by (apply Hsp; intros; split_and!; done).
    cbn in *. apply IH; [done|]. intros w' e' ? ? ? ? ? ?. apply HQ; congruence.
Qed.

Lemma NewWorld_npcs fuel cfg e (Q : WS -> Prop) :
  cfg_ok MinNPCs cfg -> (5 <= fuel)%nat ->
  (forall w' e', world_wf w' -> w_cfg w' = cfg -> w_terrain w' = stringsToGrid (cfg_Layout cfg) -> w_players w' = ∅ ->
     Z.of_nat (size (w_npcs w')) = MinNPCs -> same_hoard (blank_world cfg e) w' -> Q (w', e')) ->
  wp (bootstrap_npcs fuel) (fun _ s => Q s) (blank_world cfg e, e).
Proof.
  intros Hc Hf HQ. apply bootstrap_npcs_spec; [by eapply blank_wf|apply Hc|done|done| |].
  - exists 0%nat. split_and!; [done|done|]. intros; lia.
  - intros. by apply HQ.
Qed.

(** What a finished construction has built. *)
Definition built (cfg : MapConfig) (w : World) : Prop :=
  world_wf w /\ w_cfg w = cfg /\ w_terrain w = stringsToGrid (cfg_Layout cfg) /\ w_players w = ∅
  /\ Z.of_nat (size (w_npcs w)) = MinNPCs /\ Z.quot MaxTreasures 2 <= Z.of_nat (size (w_treasures w)).

Lemma NewWorld_built fuel cfg e s :
  cfg_ok MinNPCs cfg -> (5 <= fuel)%nat -> NewWorld fuel cfg e = Some s -> built cfg s.1.
Proof.
  intros Hc Hf. unfold NewWorld, bootstrap. unfold mbind at 1, st_bind.
  pose proof (NewWorld_npcs fuel cfg e (fun s => world_wf s.1 /\ w_cfg s.1 = cfg
    /\ w_terrain s.1 = stringsToGrid (cfg_Layout cfg) /\ w_players s.1 = ∅ /\ Z.of_nat (size (w_npcs s.1)) = MinNPCs) Hc Hf) as H.
  apply wp_run in H as ([] & [w1 e1] & -> & Hw1 & Hc1 & Hg1 & Hp1 & Hn1); [|by intros].
  pose proof (bootstrap_treasures_spec w1 e1 fuel (fun s => built cfg s.1) Hw1) as Ht.
  cbn in *. destruct (bootstrap_treasures fuel (w1, e1)) as [[[] s']|]; [|done].
  intros [= <-]. apply Ht. intros w' e' ? ? ? ? Hns ?. unfold built. cbn. rewrite Hns. split_and!; congruence || done.
Qed.

(** Without an open cell the first loop of [bootstrap] never ends. *)
Lemma bootstrap_stuck fuel w e :
  is_Some (zlookup 0 (w_terrain w)) -> (forall x y, ~ free_cell w "" x y) ->
  Z.of_nat (size (w_npcs w)) < MinNPCs -> bootstrap_npcs fuel (w, e) = None.
Proof.
  intros H0 Hno Hn. induction fuel as [|fuel IH]; cbn [bootstrap_npcs];
    unfold getW, gets, mbind, st_bind; cbn [fst]; rewrite (proj2 (Z.leb_gt _ _) Hn); [done|].
  assert (spawnNPCLocked (w, e) = Some (None, (w, e))) as ->; [|exact IH].
  enough (wp spawnNPCLocked (fun o s => o = None /\ s = (w, e)) (w, e)) as (o & s & -> & -> & ->)%wp_run; [done|].
  unfold spawnNPCLocked. w_steps. apply wp_bestSpawnCell; [done| |].
  - intros x y Hf. by destruct (Hno x y).
  - intros _. by w_steps.
Qed.

(** ** The stock maps *)

(** One step of a unit on the grid. *)
Definition walk (g : list (list Z)) (a b : Z * Z) : Prop :=
  stands g b.1 b.2 /\ b ∈ [(a.1 + 1, a.2); (a.1 - 1, a.2); (a.1, a.2 + 1); (a.1, a.2 - 1)].

(** The cells found by a search from the cells of [todo]. *)
Fixpoint flood (fuel : nat) (g : list (list Z)) (seen : gset (Z * Z)) (todo : list (Z * Z)) : gset (Z * Z) :=
  match fuel, todo with
  | S fuel', (x, y) :: todo' =>
      if bool_decide ((x, y) ∈ seen) then flood fuel' g seen todo'
      else if grid_cell_open g x y
      then flood fuel' g ({[(x, y)]} ∪ seen) ([(x + 1, y); (x - 1, y); (x, y + 1); (x, y - 1)] ++ todo')
      else flood fuel' g seen todo'
  | _, _ => seen
  end.

Lemma flood_sound fuel g src seen todo :
  (forall c, c ∈ seen -> rtc (walk g) src c) ->
  (forall c, c ∈ todo -> stands g c.1 c.2 -> rtc (walk g) src c) ->
  forall c, c ∈ flood fuel g seen todo -> rtc (walk g) src c.
Proof.
  revert seen todo. induction fuel as [|fuel IH]; intros seen todo Hs Ht; [done|].
  destruct todo as [|[x y] todo]; [done|]. cbn [flood].
  assert (Ht' : forall c, c ∈ todo -> stands g c.1 c.2 -> rtc (walk g) src c) by (intros; apply Ht; [by right|done]).
  case_bool_decide; [by apply IH|]. destruct (grid_cell_open g x y) eqn:Ho; [|by apply IH].
  apply grid_cell_open_stands in Ho.
  assert (Hxy : rtc (walk g) src (x, y)) by (apply Ht; [left|done]).
  apply IH.
  - intros c [->%elem_of_singleton|?]%elem_of_union; auto.
  - intros c [Hc|?]%elem_of_app Hst; [|auto]. etrans; [exact Hxy|]. apply rtc_once. split; [done|exact Hc].
Qed.

(** The open cells walled in on all four sides. *)
Definition pockets (cfg : MapConfig) : list (Z * Z) :=
  if bool_decide (cfg_ID cfg = "cave") then [(28, 4)]
  else if bool_decide (cfg_ID cfg = "ruins") then [(12, 17)] else [].

Definition map_checks (cfg : MapConfig) : bool :=
  let g := stringsToGrid (cfg_Layout cfg) in
  let reach := flood (5 * 56 * 24) g ∅ [(cfg_SpawnX cfg, cfg_SpawnY cfg)] in
  bool_decide (open_cells g ⊆ reach ∪ list_to_set (pockets cfg))
  && forallb (fun '(x, y) => negb (grid_cell_open g (x + 1) y || grid_cell_open g (x - 1) y
                                   || grid_cell_open g x (y + 1) || grid_cell_open g x (y - 1))
                             && negb (bool_decide ((x, y) = (cfg_SpawnX cfg, cfg_SpawnY cfg)))) (pockets cfg)
  && bool_decide (900 <= Z.of_nat (size (open_cells g)))
  && grid_cell_open g (cfg_SpawnX cfg) (cfg_SpawnY cfg)
  && grid_cell_open g (cfg_BossX cfg) (cfg_BossY cfg)
  && bool_decide (zlen (cfg_Layout cfg) = MapHeight)
  && forallb (fun row => zlen row =? MapWidth) g.

Lemma reached_neighbour g src x y :
  stands g src.1 src.2 -> (x, y) <> src -> rtc (walk g) src (x, y) ->
  stands g (x + 1) y \/ stands g (x - 1) y \/ stands g x (y + 1) \/ stands g x (y - 1).
Proof.
  intros Hsrc Hne Hr. apply rtc_inv_r in Hr as [Heq|([x' y'] & Hr & _ & Hstep)]; [congruence|].
  assert (Hst : stands g x' y') by (apply rtc_inv_r in Hr as [->|(c & _ & Hst & _)]; done).
  cbn in Hstep.
  repeat (apply elem_of_cons in Hstep as [[= -> ->]|Hstep]); [..|by apply elem_of_nil in Hstep].
  - right; left. by replace (x' + 1 - 1) with x' by lia.
  - left. by replace (x' - 1 + 1) with x' by lia.
  - do 3 right. by replace (y' + 1 - 1) with y' by lia.
  - do 2 right; left. by replace (y' - 1 + 1) with y' by lia.
Qed.

Lemma stock_maps_checked : forallb map_checks available_maps = true.
Proof. vm_compute. reflexivity. Qed.

(** The three stock maps can be built and are 56 by 24; their spawn and boss
    cells are open and there are at least 900 open cells; and the cells a player
    can walk to from the spawn are all the open cells but two, one in the cave and
    one in the ruins, which are walled in on every side. *)
Theorem stock_maps_connected :
  AvailableMaps = Some available_maps /\
  Forall (fun cfg =>
    let g := stringsToGrid (cfg_Layout cfg) in
    cfg_ok 900 cfg /\ stands g (cfg_BossX cfg) (cfg_BossY cfg)
    /\ zlen (cfg_Layout cfg) = MapHeight /\ Forall (fun row => zlen row = MapWidth) g
    /\ forall x y, stands g x y ->
         rtc (walk g) (cfg_SpawnX cfg, cfg_SpawnY cfg) (x, y) <-> (x, y) ∉ pockets cfg) available_maps.
Proof.
  split.
  { unfold available_maps. destruct maps_built as [l Hl]. by rewrite Hl. }
  pose proof stock_maps_checked as Hall. rewrite forallb_forall in Hall.
  apply Forall_forall. intros cfg Hin g. apply list_elem_of_In, Hall in Hin. clear Hall.
  unfold map_checks in Hin. fold g in Hin. rewrite !andb_true_iff, !bool_decide_eq_true in Hin.
  destruct Hin as [[[[[[Hsub Hpk] Hopen] Hsp] Hboss] Hlen] Hrows].
  apply grid_cell_open_stands in Hsp, Hboss. split_and!; [constructor| | | |]; try done.
  - apply zlookup_is_Some. rewrite Hlen. done.
  - apply Forall_forall. intros row Hrow. apply list_elem_of_In in Hrow.
    rewrite forallb_forall in Hrows. by apply Z.eqb_eq, Hrows.
  - intros x y Hst. rewrite forallb_forall in Hpk. split.
    + intros Hr Hp%list_elem_of_In. specialize (Hpk _ Hp). cbn in Hpk.
      rewrite andb_true_iff, !negb_true_iff, !orb_false_iff, bool_decide_eq_false in Hpk.
      destruct Hpk as [(((H1 & H2) & H3) & H4) Hne].
      destruct (reached_neighbour g (cfg_SpawnX cfg, cfg_SpawnY cfg) x y) as [H|[H|[H|H]]]; try done;
        apply grid_cell_open_stands in H; congruence.
    + intros Hnp. apply elem_of_open_cells, Hsub, elem_of_union in Hst as [Hst|Hst].
      * revert Hst. apply flood_sound; [done|]. intros c ->%list_elem_of_singleton _. done.
      * by apply elem_of_list_to_set in Hst.
Qed.
