(* ===== verification/WorldStart.v ===== *)
(** * The world of one map: construction ends

    [NewWorld] has two loops without a bound.  The loop over the NPCs ends after five
    iterations; the loop over the treasures waits until the random source picks
    cells without a treasure, which a source that keeps producing every value does. *)

From Stdlib Require Import ZArith Lia String.
From stdpp Require Import base gmap strings list sorting option pretty relations.
From S2P Require Import Prelude Protocol Maps World WorldOps WorldInv WorldSafe WorldProps WorldBuild.

Open Scope Z_scope.
Open Scope go_scope.

(** A random source that, from every position on, has every value of [rand.Intn(k)]
    in some even distance (the loop draws twice in an iteration). *)
Definition fair_source (g : nat -> Z) : Prop :=
  forall p k i, 0 <= i < k -> k <= 12 -> exists j : nat, g (p + 2 * j)%nat mod k = i.

(** ** The cell that is picked *)

Definition candidates (w : World) : list candidate := default [] (spawn_candidates w "" false).
Definition best_candidates (w : World) : list candidate := merge_sort candidate_le (candidates w).
Definition pick_limit (w : World) : Z := if zlen (best_candidates w) <? 12 then zlen (best_candidates w) else 12.

(** The cell that the draw [r] picks. *)
Definition picked (w : World) (r : Z) : option (Z * Z) :=
  (fun c => (c_x c, c_y c)) <$> zlookup (r mod pick_limit w) (best_candidates w).

Definition treasure_cells (w : World) : gmap string (Z * Z) := (fun t => (tr_X t, tr_Y t)) <$> w_treasures w.

Lemma NoDup_imap_row (row : list Z) (y : Z) (k : nat) :
  NoDup (imap (fun x (_ : Z) => (Z.of_nat (k + x), y)) row).
Proof.
  revert k. induction row as [|c row IH]; intros k; [constructor|]. cbn. constructor.
  - rewrite elem_of_lookup_imap. intros (i & x & [= H] & _). lia.
  - specialize (IH (S k)). erewrite imap_ext; [exact IH|]. intros i x _. cbn. do 2 f_equal. lia.
Qed.

Lemma NoDup_cells g : NoDup (cells g).
Proof.
  unfold cells. enough (H : forall k, NoDup (mjoin (imap (fun y row => imap (fun x (_ : Z) => (Z.of_nat x, Z.of_nat (k + y))) row) g))) by apply (H 0%nat).
  induction g as [|row g IH]; intros k; [constructor|]. cbn. apply NoDup_app. split_and!.
  - apply (NoDup_imap_row row (Z.of_nat (k + 0)) 0).
  - intros [x y] Hx (l & Hxy & Hl)%list_elem_of_join. apply elem_of_lookup_imap in Hx as (i & c & [= -> ->] & _).
    apply elem_of_lookup_imap in Hl as (j & row' & -> & _). apply elem_of_lookup_imap in Hxy as (i' & c' & [= _ H] & _). lia.
  - specialize (IH (S k)). erewrite imap_ext; [exact IH|]. intros y r _. cbn. apply imap_ext. intros x c _. do 2 f_equal. lia.
Qed.

(** The candidates are the free cells, each once. *)
Lemma foldO_candidate_cells w b l acc acc' :
  foldO (fun acc '(x, y) =>
      if walkableForLocked w x y "" then
        score ← spawnScoreLocked w x y b; mret (acc ++ [mkCandidate x y score])
      else mret acc) acc l = Some acc' ->
  (fun c => (c_x c, c_y c)) <$> acc' = ((fun c => (c_x c, c_y c)) <$> acc) ++ filter (fun xy => walkableForLocked w xy.1 xy.2 "" = true) l.
Proof.
  revert acc. induction l as [|[x y] l IH]; intros acc; cbn [foldO]; [intros [= <-]; by rewrite app_nil_r|].
  destruct (walkableForLocked w x y "") eqn:Hw.
  - destruct (spawnScoreLocked w x y b) as [score|]; [|done]. cbn [mbind option_bind mret option_ret]. intros H%IH. rewrite H.
    rewrite fmap_app, filter_cons_True by done. cbn. by rewrite <- app_assoc.
  - cbn [mbind option_bind mret option_ret]. intros H%IH. rewrite H. rewrite filter_cons_False by (cbn; congruence). done.
Qed.

Lemma candidates_spec w : is_Some (zlookup 0 (w_terrain w)) ->
  spawn_candidates w "" false = Some (candidates w) /\
  NoDup ((fun c => (c_x c, c_y c)) <$> candidates w) /\
  (forall x y, free_cell w "" x y <-> (x, y) ∈ (fun c => (c_x c, c_y c)) <$> candidates w).
Proof.
  intros H0. destruct (spawn_candidates_spec w "" false H0) as (l & Hl & _ & _). unfold candidates. rewrite Hl. change (default [] (Some l)) with l.
  split; [done|]. pose proof (foldO_candidate_cells w false (cells (w_terrain w)) [] l Hl) as Hc.
  change ((fun c => (c_x c, c_y c)) <$> []) with (@nil (Z * Z)) in Hc. rewrite app_nil_l in Hc. rewrite Hc.
  split; [apply NoDup_filter, NoDup_cells|].
  intros x y. rewrite list_elem_of_filter, <- walkable_spec. cbn [fst snd]. split; [|by intros [? _]].
  intros Hw. split; [done|]. by eapply free_cell_cells, walkable_spec.
Qed.

(** ** The candidates depend on where the treasures lie, not on their values *)

Definition same_map (w w' : World) : Prop :=
  w_cfg w' = w_cfg w /\ w_terrain w' = w_terrain w /\ w_players w' = w_players w
  /\ w_npcs w' = w_npcs w /\ w_rng w' = w_rng w.

Lemma min_dist_perm {A} (live : A -> bool) (d : A -> Z) l l' : l ≡ₚ l' -> min_dist live d l = min_dist live d l'.
Proof.
  unfold min_dist. generalize (MapWidth + MapHeight). intros m H. revert m.
  induction H as [|x l l' _ IH|x y l|l1 l2 l3 _ IH1 _ IH2]; intros m; cbn; [done|apply IH| |by rewrite IH1].
  f_equal. repeat case_match; lia.
Qed.

Lemma min_dist_cells (m : gmap string Treasure) (d : Z * Z -> Z) :
  min_dist (fun _ => true) (fun t => d (tr_X t, tr_Y t)) (values m)
  = min_dist (fun _ => true) d (values ((fun t => (tr_X t, tr_Y t)) <$> m)).
Proof.
  unfold values. rewrite (min_dist_perm _ d _ ((fun t => (tr_X t, tr_Y t)) <$> (map_to_list m).*2)).
  - unfold min_dist. generalize (MapWidth + MapHeight). induction ((map_to_list m).*2) as [|t l IH]; intros z; [done|]. apply IH.
  - rewrite map_to_list_fmap, <- !list_fmap_compose. done.
Qed.

Lemma spawnScore_cells w w' x y b :
  same_map w w' -> treasure_cells w' = treasure_cells w -> spawnScoreLocked w' x y b = spawnScoreLocked w x y b.
Proof.
  intros (Hc & Ht & Hp & Hn & _) Htc. unfold spawnScoreLocked. rewrite Hc, Ht, Hp, Hn.
  pose proof (fun m => min_dist_cells m (fun xy => distance x y xy.1 xy.2)) as Hd. cbn [fst snd] in Hd.
  rewrite !Hd. clear Hd.
  unfold treasure_cells in Htc. by rewrite Htc.
Qed.

Lemma foldO_ext {A B} (f g : B -> A -> option B) (l : list A) (acc : B) :
  (forall b a, f b a = g b a) -> foldO f acc l = foldO g acc l.
Proof.
  intros H. revert acc. induction l as [|a l IH]; intros acc; [done|]. cbn. rewrite H.
  by destruct (g acc a); cbn.
Qed.

Lemma candidates_cells w w' : same_map w w' -> treasure_cells w' = treasure_cells w -> candidates w' = candidates w.
Proof.
  intros Hm Htc. unfold candidates, spawn_candidates. f_equal. rewrite (proj1 (proj2 Hm)).
  apply foldO_ext. intros acc [x y].
  assert (walkableForLocked w' x y "" = walkableForLocked w x y "") as ->
    by (destruct Hm as (_ & Ht & Hp & Hn & _); unfold walkableForLocked; by rewrite Ht, Hp, Hn).
  by rewrite (spawnScore_cells w w').
Qed.

(** ** A draw from an even or odd position *)

Section draws.
Context (w : World) (e : Env).

Lemma wp_Intn_eq n (Q : Z -> WS -> Prop) :
  0 < n -> Q (w_rng w (w_rngPos w) mod n) (set_rngPos (w_rngPos w + 1)%nat w, e) -> wp (Intn n) Q (w, e).
Proof. intros Hn H. unfold wp, Intn. destruct (Z.leb_spec n 0); [lia|]. done. Qed.

Lemma pick_limit_pos : candidates w <> [] -> 0 < pick_limit w <= zlen (best_candidates w).
Proof.
  intros Hne. unfold pick_limit, best_candidates, zlen.
  assert (0 < length (candidates w))%nat by (destruct (candidates w); [done|cbn; lia]).
  rewrite !(Permutation_length (merge_sort_Permutation candidate_le (candidates w))). case_match eqn:E; lia.
Qed.

Lemma picked_Some r : candidates w <> [] -> is_Some (picked w r).
Proof.
  intros Hne%pick_limit_pos. unfold picked. apply fmap_is_Some, zlookup_is_Some.
  pose proof (Z.mod_pos_bound r (pick_limit w)). lia.
Qed.

Lemma picked_candidate r xy : picked w r = Some xy -> xy ∈ (fun c => (c_x c, c_y c)) <$> candidates w.
Proof.
  unfold picked. intros (c & Hc & ->)%fmap_Some. apply (list_elem_of_fmap_2 (fun c => (c_x c, c_y c))).
  rewrite <- (merge_sort_Permutation candidate_le (candidates w)).
  apply zlookup_Some in Hc as [_ ?]. by eapply list_elem_of_lookup_2.
Qed.

(** The cell of a treasure is decided by one draw. *)
Lemma wp_bestSpawnCell_picked (Q : option (Z * Z) -> WS -> Prop) :
  is_Some (zlookup 0 (w_terrain w)) -> candidates w <> [] ->
  (forall x y, picked w (w_rng w (w_rngPos w)) = Some (x, y) -> free_cell w "" x y ->
     Q (Some (x, y)) (set_rngPos (w_rngPos w + 1)%nat w, e)) ->
  wp (bestSpawnCellLocked "" false) Q (w, e).
Proof.
  intros H0 Hne HQ. unfold bestSpawnCellLocked. w_steps.
  destruct (candidates_spec w H0) as (Hl & _ & Hfree). destruct H0 as [row0 Hrow0].
  eapply wp_liftO; [done|]. w_steps. eapply wp_liftO; [exact Hl|].
  destruct (picked_Some (w_rng w (w_rngPos w)) Hne) as [[x y] Hpick]. specialize (HQ x y Hpick).
  rewrite Hfree in HQ. specialize (HQ (picked_candidate _ _ Hpick)). pose proof (pick_limit_pos Hne) as Hpos.
  unfold picked, pick_limit, best_candidates in *. destruct (candidates w) as [|c0 l]; [done|].
  w_steps. apply wp_Intn_eq; [apply Hpos|]. apply fmap_Some in Hpick as (c & Hc & [= -> ->]).
  w_steps. eapply wp_liftO; [exact Hc|]. by w_steps.
Qed.
End draws.

(** ** One iteration of the loop *)

Definition treasure_id (w : World) (n : Z) : string := cfg_ID (w_cfg w) +:+ "-t-" +:+ itoa n.

Lemma treasure_id_inj w a b : treasure_id w a = treasure_id w b -> a = b.
Proof. unfold treasure_id. intros H%string_app_inj%string_app_inj. by apply itoa_inj. Qed.

(** The cell already has a treasure. *)
Definition taken (w : World) (xy : Z * Z) : Prop := exists id, treasure_cells w !! id = Some xy.

(** The ids from the counter on are unused. *)
Record hoard_ok (w : World) : Prop := {
  ho_wf : world_wf w;
  ho_next : w_nextTreasure w = Z.of_nat (size (w_treasures w));
  ho_fresh : forall j, w_nextTreasure w <= j -> w_treasures w !! treasure_id w j = None
}.

Lemma taken_lookup w id t : w_treasures w !! id = Some t -> taken w (tr_X t, tr_Y t).
Proof. intros H. exists id. unfold treasure_cells. by rewrite lookup_fmap, H. Qed.

(** A draw either adds a treasure, or raises the value of the one that lies there. *)
Lemma wp_spawnTreasure_draw w e kind (Q : option Treasure -> WS -> Prop) :
  hoard_ok w -> Z.of_nat (size (w_treasures w)) < 4 -> candidates w <> [] ->
  (forall o w' e' xy, picked w (w_rng w (w_rngPos w)) = Some xy -> same_map w w' -> hoard_ok w' ->
     w_rngPos w' = (w_rngPos w + 2)%nat ->
     (~ taken w xy /\ size (w_treasures w') = S (size (w_treasures w)))
     \/ (taken w xy /\ size (w_treasures w') = size (w_treasures w) /\ treasure_cells w' = treasure_cells w) ->
     Q o (w', e')) ->
  wp (spawnTreasureLocked kind) Q (w, e).
Proof.
  intros [Hw Hnext Hfresh] Hlt Hne HQ. unfold spawnTreasureLocked. w_steps.
  apply wp_bestSpawnCell_picked; [apply Hw|done|]. intros x y Hpick Hf%free_cell_stands. w_steps.
  apply wp_Intn_eq; [lia|]. cbn [set_rngPos w_rngPos w_rng].
  unfold dropTreasureLocked. w_steps. cbn [set_rngPos w_terrain]. rewrite (stands_bounds _ _ _ Hf). w_steps.
  replace (w_rngPos w + 1 + 1)%nat with (w_rngPos w + 2)%nat by lia. apply wp_treasureAt.
  - intros id t e' Ht Hx Hy. w_steps. cbn in Ht. pose proof (wf_treasure _ _ _ Hw Ht) as [? ?].
    apply (HQ _ _ _ _ Hpick); [done| |done|right; split_and!].
    + constructor; cbn.
      * apply world_wf_version, (world_wf_putTreasure _ _ (set_rngPos _ w)); [done|by apply world_wf_rngPos].
      * by rewrite map_size_insert_Some by eauto.
      * intros j Hj. change (treasure_id _ j) with (treasure_id w j).
        rewrite lookup_insert_ne; [by apply Hfresh|]. intros ->. by rewrite Hfresh in Ht.
    + rewrite <- Hx, <- Hy. by eapply taken_lookup.
    + cbn. by rewrite map_size_insert_Some by eauto.
    + unfold treasure_cells. cbn. rewrite fmap_insert. cbn. apply insert_id. by rewrite lookup_fmap, Ht.
  - intros Hno e'. w_steps. cbn in Hno.
    assert (Hi : w_nextTreasure w +i 1 = w_nextTreasure w + 1) by (apply i64_id; unfold in_i64; lia).
    change (cfg_ID _ +:+ "-t-" +:+ itoa _) with (treasure_id w (w_nextTreasure w)).
    assert (Hnone : w_treasures w !! treasure_id w (w_nextTreasure w) = None) by by apply Hfresh.
    apply (HQ _ _ _ _ Hpick); [done| |done|left; split_and!].
    + constructor; cbn.
      * apply world_wf_version, (world_wf_putTreasure _ _ (set_nextTreasure _ (set_rngPos _ w))); [done|].
        by apply world_wf_nextTreasure, world_wf_rngPos.
      * rewrite map_size_insert_None by done. cbn. lia.
      * intros j Hj. change (treasure_id _ j) with (treasure_id w j). cbn in Hj.
        rewrite lookup_insert_ne; [apply Hfresh; lia|]. intros Heq%treasure_id_inj. lia.
    + intros [id Hid]. unfold treasure_cells in Hid. rewrite lookup_fmap in Hid.
      apply fmap_Some in Hid as (t & Ht & Heq). by apply (Hno id t).
    + cbn. by rewrite map_size_insert_None.
Qed.

(** ** Some draw finds a cell without a treasure *)

Lemma taken_values w xy : taken w xy <-> xy ∈ values (treasure_cells w).
Proof. by rewrite elem_of_values. Qed.

(** Room for the units and four treasures. *)
Definition room (w : World) : Prop :=
  Z.of_nat (size (w_players w)) + Z.of_nat (size (w_npcs w)) + Z.quot MaxTreasures 2
  <= Z.of_nat (size (open_cells (w_terrain w))).

Lemma untaken_cell w :
  is_Some (zlookup 0 (w_terrain w)) -> room w -> Z.of_nat (size (w_treasures w)) < 4 ->
  exists xy, xy ∈ (fun c => (c_x c, c_y c)) <$> candidates w /\ ~ taken w xy.
Proof.
  intros H0 Hroom Hlt. unfold room in Hroom. change (Z.quot MaxTreasures 2) with 4 in Hroom.
  destruct (free_cell_beyond w "" (values (treasure_cells w))) as (x & y & Hf & Hnot).
  { unfold values. rewrite length_fmap, length_map_to_list. unfold treasure_cells. rewrite map_size_fmap. lia. }
  exists (x, y). rewrite taken_values. split; [|done]. by apply (proj2 (proj2 (candidates_spec w H0))).
Qed.

Lemma untaken_pick w :
  is_Some (zlookup 0 (w_terrain w)) -> room w -> Z.of_nat (size (w_treasures w)) < 4 ->
  exists i, (0 <= i < pick_limit w /\ pick_limit w <= 12) /\ forall r, r mod pick_limit w = i ->
    exists xy, picked w r = Some xy /\ ~ taken w xy.
Proof.
  intros H0 Hroom Hlt. destruct (untaken_cell w H0 Hroom Hlt) as (xy & Hin & Hfree).
  assert (Hne : candidates w <> []) by (intros E; rewrite E in Hin; by apply elem_of_nil in Hin).
  pose proof (pick_limit_pos w Hne) as Hpos.
  assert (H12 : pick_limit w <= 12) by (unfold pick_limit; case_match eqn:E; lia).
  set (cell := fun c : candidate => (c_x c, c_y c)) in *.
  set (l := take (Z.to_nat (pick_limit w)) (best_candidates w)).
  assert (Hlen : length l = Z.to_nat (pick_limit w)) by (unfold l, zlen in *; rewrite length_take; lia).
  destruct (decide (Exists (fun c => cell c ∉ values (treasure_cells w)) l)) as [Hex|Hall].
  - apply Exists_exists in Hex as (c & [n Hc]%list_elem_of_lookup & Hnot).
    assert (n < length l)%nat by by eapply lookup_lt_Some. exists (Z.of_nat n). split; [lia|].
    intros r Hr. exists (cell c). rewrite taken_values. split; [|done]. unfold picked. rewrite Hr.
    apply lookup_take_Some in Hc as [Hc _]. apply fmap_Some. exists c. split; [|done].
    unfold zlookup. rewrite Nat2Z.id. by case_match; [lia|].
  - exfalso. apply not_Exists_Forall in Hall; [|apply _].
    assert (Hsub : NoDup (cell <$> l)).
    { assert (NoDup (cell <$> best_candidates w)) as Hnd.
      { unfold best_candidates. rewrite (merge_sort_Permutation candidate_le (candidates w)). by apply candidates_spec. }
      rewrite <- (take_drop (Z.to_nat (pick_limit w)) (best_candidates w)), fmap_app in Hnd. by apply NoDup_app in Hnd as [? _]. }
    assert (Hle : (length (cell <$> l) <= length (values (treasure_cells w)))%nat).
    { apply submseteq_length, NoDup_submseteq; [done|]. intros z (c & -> & Hc)%list_elem_of_fmap.
      rewrite Forall_forall in Hall. specialize (Hall c Hc). cbn in Hall.
      destruct (decide (cell c ∈ values (treasure_cells w))); tauto. }
    unfold values in Hle. rewrite !length_fmap, length_map_to_list in Hle. unfold treasure_cells in Hle. rewrite map_size_fmap in Hle.
    assert (Hl : l = best_candidates w).
    { unfold l. apply take_ge. unfold pick_limit, zlen in *. case_match; lia. }
    apply Hfree. apply taken_values. apply list_elem_of_fmap in Hin as (c & -> & Hc).
    rewrite Hl in Hall. rewrite Forall_forall in Hall. specialize (Hall c). cbn in Hall.
    unfold best_candidates in Hall. rewrite (merge_sort_Permutation candidate_le (candidates w)) in Hall. specialize (Hall Hc).
    fold (cell c). destruct (decide (cell c ∈ values (treasure_cells w))); tauto.
Qed.

(** ** The loop ends *)

(** Enough iterations produce one and the same result. *)
Definition loop_ends (w : World) (e : Env) : Prop :=
  exists n s, forall fuel, (n <= fuel)%nat -> bootstrap_treasures fuel (w, e) = Some (tt, s).

Lemma loop_done w e : 4 <= Z.of_nat (size (w_treasures w)) -> loop_ends w e.
Proof.
  intros H. exists 0%nat, (w, e). intros fuel _. apply Z.leb_le in H.
  destruct fuel; cbn [bootstrap_treasures]; unfold getW, gets, mbind, st_bind; cbn [fst];
    change (Z.quot MaxTreasures 2) with 4; by rewrite H.
Qed.

Lemma loop_again w e :
  Z.of_nat (size (w_treasures w)) < 4 ->
  wp (spawnTreasureLocked "遗迹补给") (fun _ s => loop_ends s.1 s.2) (w, e) -> loop_ends w e.
Proof.
  intros H (o & [w' e'] & Hs & n & s & Hn)%wp_run. exists (S n), s. intros [|fuel] Hf; [lia|].
  cbn [bootstrap_treasures]. unfold getW, gets, mbind, st_bind. cbn [fst]. change (Z.quot MaxTreasures 2) with 4.
  rewrite (proj2 (Z.leb_gt _ _) H), Hs. apply Hn. lia.
Qed.

Section loop.
Context (g : nat -> Z) (Hfair : fair_source g).

(** The loop is at a state from which it can go on. *)
Definition ready (w : World) : Prop := hoard_ok w /\ room w /\ w_rng w = g.

Lemma ready_same w w' : same_map w w' -> hoard_ok w' -> ready w -> ready w'.
Proof. intros (_ & Ht & Hp & Hn & Hr) Ho (_ & Hroom & Hg). split_and!; [done|unfold room in *; by rewrite Ht, Hp, Hn|congruence]. Qed.

(** The [j]th pair of draws from here picks a cell without a treasure. *)
Definition hit (j : nat) (w : World) : Prop :=
  exists xy, picked w (g (w_rngPos w + 2 * j)%nat) = Some xy /\ ~ taken w xy.

Lemma hit_exists w : ready w -> Z.of_nat (size (w_treasures w)) < 4 -> exists j, hit j w.
Proof.
  intros (Ho & Hroom & _) Hlt. pose proof (ww_row0 _ (ho_wf _ Ho)) as H0.
  destruct (untaken_pick w H0 Hroom Hlt) as (i & [Hi H12] & Hpick).
  destruct (Hfair (w_rngPos w) (pick_limit w) i Hi H12) as [j Hj]. exists j. by apply Hpick.
Qed.

Lemma candidates_ne w : ready w -> Z.of_nat (size (w_treasures w)) < 4 -> candidates w <> [].
Proof.
  intros (Ho & Hroom & _) Hlt E. destruct (untaken_cell w (ww_row0 _ (ho_wf _ Ho)) Hroom Hlt) as (xy & Hin & _).
  rewrite E in Hin. by apply elem_of_nil in Hin.
Qed.

Lemma treasures_loop m w e : ready w -> 4 - Z.of_nat (size (w_treasures w)) <= Z.of_nat m -> loop_ends w e.
Proof.
  revert w e. induction m as [|m IH]; intros w e Hw Hm; [apply loop_done; lia|].
  destruct (Z.lt_ge_cases (Z.of_nat (size (w_treasures w))) 4) as [Hlt|]; [|by apply loop_done].
  destruct (hit_exists w Hw Hlt) as [j Hj]. revert w e Hw Hm Hlt Hj.
  induction j as [|j IHj]; intros w e Hw Hm Hlt (xy & Hxy & Hfree);
    (apply loop_again; [done|]; apply wp_spawnTreasure_draw; [apply Hw|done|by apply candidates_ne|];
     intros o w' e' xy' Hpick Hsame Ho' Hpos Hcase; pose proof (ready_same w w' Hsame Ho' Hw) as Hw';
     cbn [fst snd]; rewrite (proj2 (proj2 Hw)) in Hpick; destruct Hcase as [[_ Hsz]|(Ht & Hsz & Hcells)];
     [apply IH; [done|lia]|]).
  - exfalso. apply Hfree. rewrite Nat.mul_0_r, Nat.add_0_r in Hxy. by simplify_eq.
  - apply IHj; [done|lia|lia|]. exists xy. unfold picked, pick_limit, best_candidates, taken in *.
    rewrite Hcells, (candidates_cells w w') by done. rewrite Hpos.
    by replace (w_rngPos w + 2 + 2 * j)%nat with (w_rngPos w + 2 * S j)%nat by lia.
Qed.
End loop.

(** ** Construction ends *)

Lemma blank_ready cfg e w' :
  fair_source (rand_source e (i64 (fnv64a (cfg_ID cfg)))) -> cfg_ok (MinNPCs + Z.quot MaxTreasures 2) cfg ->
  world_wf w' -> w_terrain w' = stringsToGrid (cfg_Layout cfg) -> w_players w' = ∅ ->
  Z.of_nat (size (w_npcs w')) = MinNPCs -> same_hoard (blank_world cfg e) w' ->
  ready (rand_source e (i64 (fnv64a (cfg_ID cfg)))) w'.
Proof.
  intros Hfair [_ _ Hopen] Hw Ht Hp Hn (Htr & Hnt & Hrng). split_and!; [|unfold room|exact Hrng].
  - constructor; [done| |]; rewrite Htr, Hnt; cbn; [by rewrite map_size_empty|]. intros. apply lookup_empty.
  - rewrite Ht, Hp, Hn, map_size_empty. lia.
Qed.

Lemma bootstrap_npcs_more n fuel st r :
  bootstrap_npcs n st = Some r -> (n <= fuel)%nat -> bootstrap_npcs fuel st = Some r.
Proof.
  revert fuel st. induction n as [|n IH]; intros fuel st H Hf; destruct fuel as [|fuel]; cbn [bootstrap_npcs] in *;
    try lia; try done; unfold getW, gets, mbind, st_bind in *; case_match; try done.
  destruct (spawnNPCLocked st) as [[o st']|]; [|done]. apply IH; [done|lia].
Qed.

(** Enough fuel for both loops, and the same world for more. *)
Lemma NewWorld_ends cfg e :
  cfg_ok (MinNPCs + Z.quot MaxTreasures 2) cfg ->
  fair_source (rand_source e (i64 (fnv64a (cfg_ID cfg)))) ->
  is_Some (bootstrap_npcs 5 (blank_world cfg e, e)) /\
  exists n s, (forall fuel, (n <= fuel)%nat -> NewWorld fuel cfg e = Some s) /\ built cfg s.1.
Proof.
  intros Hc Hfair. assert (Hc5 : cfg_ok MinNPCs cfg) by (destruct Hc as [? ? H]; constructor; [done..|]; change (Z.quot MaxTreasures 2) with 4 in H; lia).
  assert (Hnpcs : wp (bootstrap_npcs 5) (fun _ s => ready (rand_source e (i64 (fnv64a (cfg_ID cfg)))) s.1) (blank_world cfg e, e))
    by (apply NewWorld_npcs; [done|done|]; intros; by eapply blank_ready).
  apply wp_run in Hnpcs as ([] & [w1 e1] & Hrun & Hready). split; [rewrite Hrun; eauto|].
  destruct (treasures_loop _ Hfair 4 w1 e1 Hready) as (n & s & Hn); [lia|].
  assert (H : forall fuel, (n + 5 <= fuel)%nat -> NewWorld fuel cfg e = Some s).
  { intros fuel Hf. unfold NewWorld, bootstrap, mbind, st_bind.
    rewrite (bootstrap_npcs_more 5 fuel _ _ Hrun) by lia. by rewrite Hn by lia. }
  exists (n + 5)%nat, s. split; [done|]. apply (NewWorld_built (n + 5) cfg e); [done|lia|by apply H].
Qed.

(** C12. [NewWorld] ends: on a configuration with an open spawn cell and nine open
    cells, and with a random source that keeps producing every remainder, some
    number of iterations of its two unbounded loops is enough (five for the NPCs),
    more do not change the result, nothing panics, and the world that is built is
    well formed, without players, with exactly [MinNPCs] NPCs and at least half of
    [MaxTreasures] treasures. *)
Theorem NewWorld_ready cfg e :
  cfg_ok (MinNPCs + Z.quot MaxTreasures 2) cfg ->
  fair_source (rand_source e (i64 (fnv64a (cfg_ID cfg)))) ->
  is_Some (bootstrap_npcs 5 (blank_world cfg e, e)) /\
  exists n s, (forall fuel, (n <= fuel)%nat -> NewWorld fuel cfg e = Some s) /\
    world_wf s.1 /\ w_cfg s.1 = cfg /\ w_terrain s.1 = stringsToGrid (cfg_Layout cfg) /\ w_players s.1 = ∅ /\
    Z.of_nat (size (w_npcs s.1)) = MinNPCs /\ Z.quot MaxTreasures 2 <= Z.of_nat (size (w_treasures s.1)).
Proof. apply NewWorld_ends. Qed.

(** A fair source: it counts the pairs of draws. *)
Definition pair_source (n : nat) : Z := Z.of_nat (n / 2).

Lemma pair_source_fair : fair_source pair_source.
Proof.
  intros p k i Hi _. exists (Z.to_nat ((i - pair_source p) mod k)). unfold pair_source.
  rewrite (Nat.mul_comm 2), Nat.div_add, Nat2Z.inj_add by done.
  rewrite Z2Nat.id by (apply Z.mod_pos_bound; lia). rewrite Zplus_mod_idemp_r.
  replace (_ + _) with i by lia. by apply Z.mod_small.
Qed.

Definition fair_env : Env :=
  mkEnv (fun n => 1000 * Second + Z.of_nat n) 0 (fun n => n) 0 (fun _ => "t") (fun _ => pair_source).

Lemma NewWorld_ready_witness :
  is_Some (bootstrap_npcs 5 (blank_world demo_cfg fair_env, fair_env)) /\
  exists n s, (forall fuel, (n <= fuel)%nat -> NewWorld fuel demo_cfg fair_env = Some s) /\
    world_wf s.1 /\ w_cfg s.1 = demo_cfg /\ w_terrain s.1 = stringsToGrid (cfg_Layout demo_cfg) /\ w_players s.1 = ∅ /\
    Z.of_nat (size (w_npcs s.1)) = MinNPCs /\ Z.quot MaxTreasures 2 <= Z.of_nat (size (w_treasures s.1)).
Proof.
  apply (NewWorld_ready demo_cfg fair_env); [|apply pair_source_fair]. constructor.
  - eexists. reflexivity.
  - apply grid_cell_open_stands. reflexivity.
  - vm_compute. discriminate.
Defined.
