(* ===== verification/WorldCheck.v ===== *)
(** * The world of one map: snapshots and checkpoints

    A snapshot shows every unit exactly once, sorted; a checkpoint restored into
    a fresh world brings back the world it was taken from, except for pending
    respawns, empty potion bags and times. *)

From Stdlib Require Import ZArith Lia String.
From stdpp Require Import base gmap strings list sorting option pretty relations.
From S2P Require Import Prelude Protocol Maps World WorldOps WorldInv WorldSafe WorldProps WorldBuild.

Open Scope Z_scope.
Open Scope go_scope.

(** The view [v] shows the player [p]; the two texts about time are free. *)
Definition shows (p : Player) (v : PlayerView) : Prop :=
  v = mkPlayerView (pl_Username p) (pl_MapID p) (pl_X p) (pl_Y p) (pl_HP p) (pl_MaxHP p) (pl_Attack p)
        (pl_Potions p) (pl_Treasures p) (pl_Kills p) (pl_Deaths p) (pl_Victories p) (pl_Alive p)
        (pv_RespawnIn v) (pv_LastUpdate v).

(** The player list of a snapshot of [m]: each player once, in name order. *)
Definition players_shown (m : gmap string Player) (l : list PlayerView) : Prop :=
  NoDup (pv_Username <$> l) /\ StronglySorted (by_key pv_Username) l /\
  (forall v, v ∈ l -> exists p, m !! pv_Username v = Some p /\ shows p v) /\
  (forall k p, m !! k = Some p -> exists v, v ∈ l /\ pv_Username v = k).

(** What a snapshot [v] of the world [w] contains. *)
Record snapshot_of (nodeID : string) (w : World) (v : MapView) : Prop := {
  so_ID : mv_ID v = cfg_ID (w_cfg w);
  so_Node : mv_NodeID v = nodeID;
  so_Terrain : mv_Terrain v = gridToStrings (w_terrain w);
  so_Version : mv_Version v = w_version w;
  so_Players : players_shown (w_players w) (mv_Players v);
  so_NPCs : mv_NPCs v ≡ₚ npc_view <$> values (w_npcs w);
  so_NPCs_sorted : StronglySorted (by_key nv_ID) (mv_NPCs v);
  so_Treasures : mv_Treasures v ≡ₚ treasure_view <$> values (w_treasures w);
  so_Treasures_sorted : StronglySorted (by_key tv_ID) (mv_Treasures v)
}.

(** The world in which a restored checkpoint of [w] results, in a world that was
    [fresh]: the players as [restored_as] says, the counters after the numbers of
    units, the random source untouched. *)
Definition restored_from (w fresh w' : World) : Prop :=
  w_terrain w' = w_terrain w /\ w_npcs w' = w_npcs w /\ w_treasures w' = w_treasures w /\
  w_version w' = w_version w /\ dom (w_players w') = dom (w_players w) /\
  (forall k p, w_players w !! k = Some p ->
     exists t, w_players w' !! k = Some (restored_as (cfg_ID (w_cfg w)) t p)) /\
  w_nextNPC w' = Z.of_nat (size (w_npcs w)) + 1 /\ w_nextTreasure w' = Z.of_nat (size (w_treasures w)) + 1 /\
  w_cfg w' = w_cfg fresh /\ w_rng w' = w_rng fresh /\ w_rngPos w' = w_rngPos fresh.

(** ** Sorting by a key *)

#[export] Instance by_key_trans {A} (key : A -> string) : Transitive (by_key key).
Proof. intros a b c. unfold by_key. apply str_le_trans. Qed.
#[export] Instance by_key_total {A} (key : A -> string) : Total (by_key key).
Proof. intros a b. unfold by_key. apply (total str_le). Qed.

(** ** Snapshots *)

Lemma wp_playerView_shows w e p (Q : PlayerView -> WS -> Prop) :
  (forall v e', shows p v -> Q v (w, e')) -> wp (playerViewLocked p) Q (w, e).
Proof. intros H. unfold playerViewLocked. w_steps. apply wp_playerRespawnIn. intros. w_steps. by apply H. Qed.

Lemma shows_name p v : shows p v -> pv_Username v = pl_Username p.
Proof. by intros ->. Qed.

Lemma refreshed_other k k' w w' : refreshed k w w' -> k <> k' -> w_players w' !! k' = w_players w !! k'.
Proof. intros [->|(p & x & y & t & pos & _ & _ & _ & ->)] Hne; [done|]. cbn. by rewrite lookup_insert_ne. Qed.

Lemma snapshot_players w e ks (Q : list PlayerView -> WS -> Prop) :
  world_wf w -> ks ≡ₚ map_keys (w_players w) ->
  (forall l w' e', world_wf w' -> refreshes w w' ->
     Forall2 (fun k v => exists p, w_players w' !! k = Some p /\ shows p v) ks l -> Q l (w', e')) ->
  wp (foldM (fun acc k =>
      _ ← refreshPlayerStateLocked k;
      o ← lookupP k;
      match o with
      | None => mret acc
      | Some player => v ← playerViewLocked player; mret (acc ++ [v])
      end) [] ks) Q (w, e).
Proof.
  intros Hw Hks HQ.
  assert (Hnd : NoDup ks) by (rewrite Hks; apply NoDup_map_keys).
  eapply wp_mono; [apply (wp_foldM_prefix _ (fun pre acc s => world_wf s.1 /\ refreshes w s.1 /\
    Forall2 (fun k v => exists p, w_players s.1 !! k = Some p /\ shows p v) pre acc))|].
  - intros pre acc k post [w1 e1] Hl (Hw1 & Hr1 & HF). cbn [fst] in *. w_steps.
    apply wp_refresh_wf; [done|]. intros w2 e2 Hw2 Hr2. w_steps.
    assert (Hk : is_Some (w_players w2 !! k)).
    { pose proof (refreshed_refreshes _ _ _ Hr2) as Hr12.
      assert (Hr : refreshes w w2) by by etrans. destruct Hr as (_ & _ & _ & _ & _ & Hd).
      apply elem_of_dom. rewrite Hd. apply elem_of_dom, elem_of_map_keys. rewrite <- Hks, Hl. set_solver. }
    destruct Hk as [p Hp]. rewrite Hp. w_steps. apply wp_playerView_shows. intros v e3 Hv. w_steps. cbn [fst].
    split_and!; [done|etrans; [done|by eapply refreshed_refreshes]|].
    apply Forall2_app; [|constructor; [eauto|constructor]].
    assert (Hnk : k ∉ pre) by (rewrite Hl in Hnd; apply NoDup_app in Hnd as (_ & Hnd & _); intros ?; eapply Hnd; [done|left]).
    clear -HF Hr2 Hnk. induction HF as [|k' v' pre acc (p' & Hp' & Hv') HF IH]; constructor.
    + exists p'. split; [|done]. rewrite (refreshed_other k k' w1 w2); [done|done|]. intros ->. apply Hnk. left.
    + apply IH. intros ?. apply Hnk. by right.
  - by cbn.
  - intros l [w' e'] (? & ? & ?). by apply HQ.
Qed.

Lemma players_shown_intro m ks l :
  ks ≡ₚ map_keys m -> (forall k p, m !! k = Some p -> pl_Username p = k) ->
  Forall2 (fun k v => exists p, m !! k = Some p /\ shows p v) ks l ->
  players_shown m (merge_sort (by_key pv_Username) l).
Proof.
  intros Hks Hkey HF.
  assert (Hnames : pv_Username <$> l = ks).
  { clear Hks. induction HF as [|k v ks l (p & Hp & Hv) HF IH]; [done|].
    cbn. rewrite IH. f_equal. rewrite (shows_name _ _ Hv). by apply Hkey. }
  split_and!.
  - rewrite (merge_sort_Permutation (by_key pv_Username)), Hnames, Hks. apply NoDup_map_keys.
  - apply (StronglySorted_merge_sort _).
  - intros v. rewrite (merge_sort_Permutation (by_key pv_Username)). intros (i & Hv)%list_elem_of_lookup_1.
    destruct (Forall2_lookup_r _ _ _ _ _ HF Hv) as (k & Hk & p & Hp & Hs).
    exists p. split; [|done]. rewrite (shows_name _ _ Hs). by rewrite (Hkey _ _ Hp).
  - intros k p Hp. assert (Hin : k ∈ pv_Username <$> l) by (rewrite Hnames, Hks, elem_of_map_keys; eauto).
    apply list_elem_of_fmap in Hin as (v & -> & Hv). exists v. split; [|done].
    by rewrite (merge_sort_Permutation (by_key pv_Username)).
Qed.

Lemma wp_Snapshot w e nodeID (Q : MapView -> WS -> Prop) :
  world_wf w ->
  (forall v w' e', world_wf w' -> refreshes w w' -> snapshot_of nodeID w' v -> Q v (w', e')) ->
  wp (Snapshot nodeID) Q (w, e).
Proof.
  intros Hw HQ. unfold Snapshot. w_steps. apply wp_rangeW. intros ks e1 Hks. w_steps.
  apply snapshot_players; [done..|]. intros l w' e2 Hw' Hr HF. w_steps.
  apply wp_range_values. intros npcs e3 Hn. w_steps. apply wp_range_values. intros trs e4 Ht. w_steps.
  destruct (ww_layout _ Hw') as [r0 Hr0]. eapply wp_liftO; [exact Hr0|]. w_steps.
  apply HQ; [done|done|].
  constructor; cbn; try done; try apply (StronglySorted_merge_sort _).
  - eapply players_shown_intro; [|intros k p Hp; apply (pw_key _ _ _ (wf_player _ _ _ Hw' Hp))|exact HF].
    rewrite Hks. apply NoDup_Permutation; [apply NoDup_map_keys..|]. intros x. rewrite !elem_of_map_keys, <- !elem_of_dom.
    destruct Hr as (_ & _ & _ & _ & _ & ->). done.
  - rewrite (merge_sort_Permutation (by_key nv_ID)). by rewrite Hn.
  - rewrite (merge_sort_Permutation (by_key tv_ID)). by rewrite Ht.
Qed.

(** C13. A snapshot terminates without a panic and is exact: it shows every
    player, NPC and treasure of the world exactly once, in the order of their
    identifiers, with the world's terrain and version, whatever the iteration
    orders of the maps; taking it changes nothing but due revivals. *)
Theorem Snapshot_spec w e nodeID :
  world_wf w ->
  exists v s, Snapshot nodeID (w, e) = Some (v, s) /\ snapshot_of nodeID s.1 v
    /\ world_wf s.1 /\ refreshes w s.1.
Proof.
  intros Hw. enough (H : wp (Snapshot nodeID) (fun v s => snapshot_of nodeID s.1 v /\ world_wf s.1 /\ refreshes w s.1) (w, e))
    by (apply wp_run in H as (v & s & ? & ?); eauto).
  apply wp_Snapshot; [done|]. by intros.
Qed.

Lemma Snapshot_spec_witness :
  exists v s, Snapshot "node-a" (demo_world, demo_env) = Some (v, s) /\ snapshot_of "node-a" s.1 v
    /\ world_wf s.1 /\ refreshes demo_world s.1.
Proof. apply (Snapshot_spec demo_world demo_env "node-a" demo_wf). Defined.

(** ** Rebuilding maps from lists *)

Section rebuild.
Context {V X : Type} (key : V -> string) (f : V -> X).

Lemma foldl_insert_other l (m : gmap string X) k :
  k ∉ key <$> l -> foldl (fun m v => <[key v := f v]> m) m l !! k = m !! k.
Proof.
  revert m. induction l as [|v l IH]; intros m Hk; [done|]. cbn in *.
  rewrite IH by set_solver. apply lookup_insert_ne. set_solver.
Qed.

Lemma foldl_insert_lookup l (m : gmap string X) v :
  NoDup (key <$> l) -> v ∈ l -> foldl (fun m v => <[key v := f v]> m) m l !! key v = Some (f v).
Proof.
  revert m. induction l as [|v0 l IH]; intros m Hnd Hv; [by apply elem_of_nil in Hv|].
  cbn in *. apply NoDup_cons in Hnd as [Hnk Hnd]. apply elem_of_cons in Hv as [->|Hv]; [|by apply IH].
  rewrite foldl_insert_other by done. apply lookup_insert_eq.
Qed.

(** Rebuilding a map whose entries were listed in any order. *)
Lemma foldl_insert_rebuild l (m : gmap string X) (view : X -> V) :
  l ≡ₚ view <$> values m -> (forall x, f (view x) = x) ->
  (forall k x, m !! k = Some x -> key (view x) = k) ->
  foldl (fun m v => <[key v := f v]> m) ∅ l = m.
Proof.
  intros Hl Hf Hkey.
  assert (Hkeys : key <$> l ≡ₚ map_keys m).
  { rewrite Hl. unfold values, map_keys. rewrite <- !list_fmap_compose. apply Permutation_refl'.
    apply list_fmap_ext. intros i [k x] Hx. cbn. apply Hkey, elem_of_map_to_list. by eapply list_elem_of_lookup_2. }
  apply map_eq. intros k. destruct (m !! k) as [x|] eqn:Hk.
  - rewrite <- (Hkey k x Hk), foldl_insert_lookup; [by rewrite Hf| |].
    + rewrite Hkeys. apply NoDup_map_keys.
    + rewrite Hl. apply list_elem_of_fmap_2, elem_of_values. eauto.
  - rewrite foldl_insert_other; [done|]. rewrite Hkeys, elem_of_map_keys, Hk. by intros [].
Qed.
End rebuild.

Lemma restore_players w e mapID (l : list PlayerView) (Q : gmap string Player -> WS -> Prop) :
  NoDup (pv_Username <$> l) ->
  (forall m e', dom m = list_to_set (pv_Username <$> l) ->
     (forall v, v ∈ l -> exists t, m !! pv_Username v = Some (restored_player mapID t v)) -> Q m (w, e')) ->
  wp (foldM (fun m v => t ← nowW; mret (<[pv_Username v := restored_player mapID t v]> m)) ∅ l) Q (w, e).
Proof.
  intros Hnd HQ.
  eapply wp_mono; [apply (wp_foldM_prefix _ (fun pre (m : gmap string Player) s => s.1 = w /\
    dom m = list_to_set (pv_Username <$> pre) /\
    forall v, v ∈ pre -> exists t, m !! pv_Username v = Some (restored_player mapID t v)))|].
  - intros pre m v post [w1 e1] Hl (Hw1 & Hd & Hm). cbn in Hw1. subst w1. w_steps. split_and!; [done| |].
    + rewrite dom_insert_L, Hd, fmap_app, list_to_set_app_L. cbn. set_solver.
    + intros v' [Hv'| ->%list_elem_of_singleton]%elem_of_app.
      * destruct (Hm _ Hv') as [t' Ht']. exists t'. rewrite lookup_insert_ne; [done|].
        rewrite Hl, fmap_app, fmap_cons in Hnd. apply NoDup_app in Hnd as (_ & Hnd & _).
        intros Heq. apply (Hnd (pv_Username v')); [by apply list_elem_of_fmap_2|]. rewrite Heq. left.
      * exists t. apply lookup_insert_eq.
  - split_and!; [done|by rewrite dom_empty_L|]. by intros v ?%elem_of_nil.
  - intros m [w' e'] (Hw' & ? & ?). cbn in Hw'. subst. by apply HQ.
Qed.

Lemma restored_player_shows mapID t p v :
  shows p v -> restored_player mapID t v = restored_as mapID t p.
Proof. intros ->. done. Qed.

(** Restoring a snapshot's checkpoint into a fresh world of the same map. *)
Lemma wp_Restore w rows v fresh e nodeID epoch captured (Q : unit -> WS -> Prop) :
  world_wf w -> w_terrain w = stringsToGrid rows -> w_version w <> 0 -> snapshot_of nodeID w v ->
  w_cfg fresh = w_cfg w ->
  (forall w' e', restored_from w fresh w' -> Q tt (w', e')) ->
  wp (RestoreCheckpoint (mkMapCheckpoint (mv_ID v) (mv_NodeID v) epoch (mv_Version v) (mv_Terrain v)
        (mv_Players v) (mv_NPCs v) (mv_Treasures v) captured)) Q (fresh, e).
Proof.
  intros Hw Hrows Hv [Hid Hnode Hterr Hver Hpl Hnpc _ Htr _] Hfresh HQ.
  unfold RestoreCheckpoint. cbn [cp_MapID cp_Version cp_Terrain cp_Players cp_NPCs cp_Treasures]. w_steps.
  rewrite Hid, Hver, Hfresh, bool_decide_eq_true_2 by done. rewrite (proj2 (Z.eqb_neq _ _) Hv). cbn [negb orb].
  w_steps. destruct Hpl as (Hnd & _ & Hshow & Hall).
  apply restore_players; [done|]. intros m e1 Hdom Hm. w_steps.
  assert (Hn : foldl (fun m v => <[nv_ID v := restored_npc v]> m) ∅ (mv_NPCs v) = w_npcs w).
  { eapply foldl_insert_rebuild; [exact Hnpc|by intros []|]. intros k n Hk. apply (nw_key _ _ _ (wf_npc _ _ _ Hw Hk)). }
  assert (Ht : foldl (fun m v => <[tv_ID v := restored_treasure v]> m) ∅ (mv_Treasures v) = w_treasures w).
  { eapply foldl_insert_rebuild; [exact Htr|by intros []|]. intros k n Hk. apply (tw_key _ _ _ (wf_treasure _ _ _ Hw Hk)). }
  rewrite Hn, Ht.
  assert (Hlen : 0 < zlen (mv_Terrain v)).
  { pose proof (ww_row0 _ Hw) as H0%zlookup_is_Some. rewrite Hterr. unfold gridToStrings, zlen in *.
    rewrite length_fmap. lia. }
  rewrite (proj2 (Z.ltb_lt _ _) Hlen). apply HQ.
  split_and!; cbn; try done.
  - by rewrite Hterr, Hrows, grid_roundtrip.
  - rewrite Hdom. apply set_eq. intros k. rewrite elem_of_list_to_set, list_elem_of_fmap, elem_of_dom. split.
    + intros (v' & -> & Hv'). destruct (Hshow _ Hv') as (p & Hp & _). eauto.
    + intros [p Hp]. destruct (Hall _ _ Hp) as (v' & ? & <-). eauto.
  - intros k p Hp. destruct (Hall _ _ Hp) as (v' & Hv' & <-). destruct (Hm _ Hv') as [t Hmt].
    destruct (Hshow _ Hv') as (p' & Hp' & Hs). simplify_eq. exists t. by rewrite Hmt, <- (restored_player_shows _ _ _ _ Hs).
Qed.

Lemma wp_capture_restore w e nodeID rows fresh e2 :
  world_wf w -> w_terrain w = stringsToGrid rows -> w_cfg fresh = w_cfg w ->
  wp (CaptureCheckpoint nodeID) (fun cp s => world_wf s.1 /\ refreshes w s.1 /\
    (w_version s.1 = 0 -> RestoreCheckpoint cp (fresh, e2) = Some (tt, (fresh, e2))) /\
    (w_version s.1 <> 0 -> wp (RestoreCheckpoint cp) (fun _ s2 => restored_from s.1 fresh s2.1) (fresh, e2))) (w, e).
Proof.
  intros Hw Hrows Hfresh.
  unfold CaptureCheckpoint. w_steps. apply wp_Snapshot; [done|]. intros v w' e' Hw' Hr Hsnap. w_steps.
  split_and!; [done|done| |].
  { intros Hv. unfold RestoreCheckpoint, getW, gets, mbind, st_bind. cbn [cp_MapID cp_Version fst] in *.
    rewrite (so_Version _ _ _ Hsnap), Hv, orb_true_r. done. }
  intros Hv. cbn [fst] in *. destruct Hr as (Hc & Ht & _).
  eapply wp_Restore; [done|by rewrite Ht, Hrows|done|exact Hsnap|by rewrite Hc|]. by intros.
Qed.

(** C14. Checkpoint round trip: a checkpoint captured from a world whose map was
    read from text, and restored into a fresh world of the same map, brings back
    terrain, NPCs, treasures, version and every player with position, hit points
    and counters, except that an empty potion bag is refilled, a pending respawn is
    lost and the time of the last update is that of the restoration.  The counters
    for new units continue after the number of units, the random source is that of
    the fresh world; and a checkpoint of version 0 restores nothing at all. *)
Theorem checkpoint_roundtrip w e nodeID rows fresh e2 :
  world_wf w -> w_terrain w = stringsToGrid rows -> w_cfg fresh = w_cfg w ->
  exists cp s, CaptureCheckpoint nodeID (w, e) = Some (cp, s) /\ world_wf s.1 /\ refreshes w s.1 /\
    if w_version s.1 =? 0 then RestoreCheckpoint cp (fresh, e2) = Some (tt, (fresh, e2))
    else exists s2, RestoreCheckpoint cp (fresh, e2) = Some (tt, s2) /\ restored_from s.1 fresh s2.1.
Proof.
  intros Hw Hrows Hfresh. pose proof (wp_capture_restore w e nodeID rows fresh e2 Hw Hrows Hfresh) as H.
  apply wp_run in H as (cp & s & Hs & ? & ? & H0 & H). exists cp, s. split_and!; [done..|].
  destruct (Z.eqb_spec (w_version s.1) 0) as [Hv|Hv]; [by apply H0|].
  apply H in Hv. apply wp_run in Hv as ([] & s2 & ? & ?). eauto.
Qed.

Lemma checkpoint_roundtrip_witness :
  exists cp s, CaptureCheckpoint "node-a" (demo_world, demo_env) = Some (cp, s) /\ world_wf s.1 /\
    refreshes demo_world s.1 /\
    let fresh := blank_world demo_cfg demo_env in
    if w_version s.1 =? 0 then RestoreCheckpoint cp (fresh, demo_env) = Some (tt, (fresh, demo_env))
    else exists s2, RestoreCheckpoint cp (fresh, demo_env) = Some (tt, s2) /\ restored_from s.1 fresh s2.1.
Proof.
  apply (checkpoint_roundtrip demo_world demo_env "node-a" (cfg_Layout demo_cfg) (blank_world demo_cfg demo_env) demo_env);
    [exact demo_wf|reflexivity|reflexivity].
Defined.

(** ** Stranded players *)

(** A player who is down with no respawn pending is left alone by every look at
    the player, at any time. *)
Lemma stranded_refresh w e k p :
  w_players w !! k = Some p -> pl_Alive p = false -> pl_RespawnAt p = 0 ->
  refreshPlayerStateLocked k (w, e) = Some (tt, (w, e)).
Proof.
  intros Hp Ha Hr. unfold refreshPlayerStateLocked, getW, gets, mbind, st_bind. cbn. by rewrite Hp, Ha, Hr.
Qed.

(** A player who is down when a map fails over is down for good: the
    checkpoint does not carry the respawn time, so in the restored world no clock
    reading ever revives the player. *)
Theorem failover_strands_fallen w e nodeID rows fresh e2 cp s s2 k p :
  world_wf w -> w_terrain w = stringsToGrid rows -> w_cfg fresh = w_cfg w ->
  CaptureCheckpoint nodeID (w, e) = Some (cp, s) -> w_version s.1 <> 0 ->
  RestoreCheckpoint cp (fresh, e2) = Some (tt, s2) ->
  w_players s.1 !! k = Some p -> pl_Alive p = false ->
  forall e', refreshPlayerStateLocked k (s2.1, e') = Some (tt, (s2.1, e')).
Proof.
  intros Hw Hrows Hfresh Hcap Hv Hrest Hk Ha e'.
  pose proof (wp_capture_restore w e nodeID rows fresh e2 Hw Hrows Hfresh) as H.
  unfold wp in H at 1. rewrite Hcap in H. destruct H as (_ & _ & _ & H). specialize (H Hv).
  unfold wp in H. rewrite Hrest in H. destruct H as (_ & _ & _ & _ & _ & Hp & _).
  destruct (Hp _ _ Hk) as [t Ht]. by eapply stranded_refresh.
Qed.

(** A world in which a player is down for a minute yet. *)
Definition demo_late : World :=
  set_players {["cid" := set_pl_RespawnAt (1060 * Second) (demo_down "cid" 5 3)]} demo_world.

Lemma demo_late_wf : world_wf demo_late.
Proof.
  destruct demo_wf. constructor; [done..| |done|done|done].
  apply map_Forall_singleton. constructor; cbn [demo_down set_pl_RespawnAt pl_Username pl_X pl_Y pl_HP pl_MaxHP pl_Alive pl_Attack];
    try done; try lia. apply grid_cell_open_stands. reflexivity.
Qed.

Lemma demo_late_failover :
  match CaptureCheckpoint "node-a" (demo_late, demo_env) with
  | Some (cp, s) =>
      negb (w_version s.1 =? 0)
      && match w_players s.1 !! "cid" with Some p => negb (pl_Alive p) | None => false end
      && match RestoreCheckpoint cp (blank_world demo_cfg demo_env, demo_env) with Some _ => true | None => false end
  | None => false
  end = true.
Proof. vm_compute. reflexivity. Qed.

Lemma failover_strands_fallen_witness :
  exists cp s s2, CaptureCheckpoint "node-a" (demo_late, demo_env) = Some (cp, s) /\
    RestoreCheckpoint cp (blank_world demo_cfg demo_env, demo_env) = Some (tt, s2) /\
    forall e', refreshPlayerStateLocked "cid" (s2.1, e') = Some (tt, (s2.1, e')).
Proof.
  pose proof demo_late_failover as H.
  destruct (CaptureCheckpoint "node-a" (demo_late, demo_env)) as [[cp s]|] eqn:Hcap; [|discriminate H].
  apply andb_true_iff in H as [[Hv Hcid]%andb_true_iff Hr].
  destruct (w_players s.1 !! "cid") as [p|] eqn:Hp; [|discriminate Hcid].
  destruct (RestoreCheckpoint cp (blank_world demo_cfg demo_env, demo_env)) as [[[] s2]|] eqn:Hrest; [|discriminate Hr].
  exists cp, s, s2. split; [reflexivity|]. split; [exact Hrest|].
  apply (failover_strands_fallen demo_late demo_env "node-a" (cfg_Layout demo_cfg) (blank_world demo_cfg demo_env) demo_env
           cp s s2 "cid" p); [exact demo_late_wf|reflexivity|reflexivity|exact Hcap| |exact Hrest|exact Hp|].
  - apply Z.eqb_neq, negb_true_iff, Hv.
  - apply negb_true_iff, Hcid.
Defined.

(** So is a player whose saved profile says "down, no hit points": joining
    gives full hit points but keeps the player down with no respawn pending. *)
Theorem login_strands_fallen w e profile :
  world_wf w -> up_HP profile = 0 -> up_Alive profile = false -> up_MaxHP profile = InitHP ->
  exists v s p, AddOrRestorePlayer profile (w, e) = Some (v, s)
    /\ w_players s.1 !! up_Username profile = Some p /\ pl_Alive p = false /\ pl_HP p = InitHP
    /\ forall e', refreshPlayerStateLocked (up_Username profile) (s.1, e') = Some (tt, (s.1, e')).
Proof.
  intros Hw Hhp Ha Hmax.
  enough (H : wp (AddOrRestorePlayer profile) (fun _ s => exists p, w_players s.1 !! up_Username profile = Some p
    /\ pl_Alive p = false /\ pl_HP p = InitHP /\ pl_RespawnAt p = 0) (w, e)).
  { apply wp_run in H as (v & s & Hs & p & ? & ? & ? & ?). exists v, s, p. split_and!; try done.
    intros e'. by eapply stranded_refresh. }
  assert (Hj : forall m x y t, exists p, joined_player profile m x y t = p /\ pl_Username p = up_Username profile
    /\ pl_Alive p = false /\ pl_HP p = InitHP /\ pl_RespawnAt p = 0).
  { intros. eexists. split; [done|]. unfold joined_player. rewrite Hhp, Ha, Hmax. done. }
  unfold AddOrRestorePlayer. w_steps.
  destruct (if bool_decide (up_LastMap profile = cfg_ID (w_cfg w)) then _ else _) as [x0 y0].
  w_steps. apply wp_findSafePosition; [by apply ww_row0| |].
  - intros x y _ _ pos. w_steps. apply wp_playerView. intros v e1 _. cbn.
    destruct (Hj (cfg_ID (w_cfg w)) x y t) as (p & -> & -> & ? & ? & ?). exists p. by rewrite lookup_insert_eq.
  - intros _. w_steps. apply wp_playerView. intros v e1 _. cbn.
    destruct (Hj (cfg_ID (w_cfg w)) (cfg_SpawnX (w_cfg w)) (cfg_SpawnY (w_cfg w)) t) as (p & -> & -> & ? & ? & ?).
    exists p. by rewrite lookup_insert_eq.
Qed.

Lemma login_strands_fallen_witness :
  let profile := set_up_last "demo" "" (mkUserProfile "dan" "" "demo" "" 2 2 0 120 35 3 0 0 1 0 false) in
  exists v s p, AddOrRestorePlayer profile (demo_world, demo_env) = Some (v, s)
    /\ w_players s.1 !! "dan" = Some p /\ pl_Alive p = false /\ pl_HP p = InitHP
    /\ forall e', refreshPlayerStateLocked "dan" (s.1, e') = Some (tt, (s.1, e')).
Proof.
  intros profile. apply (login_strands_fallen demo_world demo_env profile demo_wf); reflexivity.
Defined.
