(* ===== verification/WorldFleet.v ===== *)
(** * The worlds of the whole fleet

    Worlds of all maps and nodes, the profiles that are saved when players leave
    them and the checkpoints that are captured from them.  A player joins a world
    with a saved profile or as a newcomer, and a world is restored from a captured
    checkpoint; so what [WorldSafe.op_ok] asks of profiles and checkpoints is what
    the worlds themselves hand out. *)

From Stdlib Require Import ZArith Lia String.
From stdpp Require Import base gmap strings list sorting option pretty relations.
From S2P Require Import Prelude Protocol Maps World WorldOps WorldInv WorldSafe WorldProps WorldBuild WorldStart WorldCheck.

Open Scope Z_scope.
Open Scope go_scope.

(** The worlds that exist, the saved profiles, the stored checkpoints. *)
Record fleet := mkFleet {
  fl_worlds : list World;
  fl_profiles : list UserProfile;
  fl_checkpoints : list MapCheckpoint
}.

(** The profile under which [Register] enters a new player. *)
Definition newcomer (username : string) : UserProfile :=
  mkUserProfile username "" "green" "" 4 4 InitHP InitHP InitAttack MaxPotions 0 0 0 0 true.

(** A profile that says the same about hit points and attack; place, purse and
    scores may differ. *)
Definition same_fight (p q : UserProfile) : Prop :=
  up_HP q = up_HP p /\ up_MaxHP q = up_MaxHP p /\ up_Attack q = up_Attack p.

(** The checkpoint with another node, fencing epoch or time. *)
Definition same_content (cp cp' : MapCheckpoint) : Prop :=
  cp_MapID cp' = cp_MapID cp /\ cp_Version cp' = cp_Version cp /\ cp_Terrain cp' = cp_Terrain cp /\
  cp_Players cp' = cp_Players cp /\ cp_NPCs cp' = cp_NPCs cp /\ cp_Treasures cp' = cp_Treasures cp.

(** A login brings a profile of the pool, a restoration a checkpoint of the pool. *)
Definition available (f : fleet) (op : wop) : Prop :=
  match op with
  | OpAdd p => exists q, q ∈ fl_profiles f /\ same_fight q p
  | OpRestore cp => exists cp0, cp0 ∈ fl_checkpoints f /\ same_content cp0 cp
  | _ => True
  end.

(** The counters stay away from the ends of their 64-bit range. *)
Definition counters_ok (op : wop) (w : World) : Prop :=
  match op with
  | OpBuy u _ => forall p, w_players w !! u = Some p -> pl_Attack p + WeaponBoost < 2^63
  | OpTick => w_nextNPC w + MinNPCs < 2^63
  | OpRestore cp => zlen (cp_NPCs cp) + 1 < 2^63
  | _ => True
  end.

(** The steps of the fleet, on any world, with any clock and any iteration orders. *)
Inductive fleet_step (cfgs : list MapConfig) : fleet -> fleet -> Prop :=
  | fs_new f cfg fuel e s :
      cfg ∈ cfgs -> (5 <= fuel)%nat -> NewWorld fuel cfg e = Some s ->
      fleet_step cfgs f (mkFleet (s.1 :: fl_worlds f) (fl_profiles f) (fl_checkpoints f))
  | fs_op f i w op e s :
      fl_worlds f !! i = Some w -> available f op -> counters_ok op w -> run_op op (w, e) = Some (tt, s) ->
      fleet_step cfgs f (mkFleet (<[i := s.1]> (fl_worlds f)) (fl_profiles f) (fl_checkpoints f))
  | fs_capture f i w nodeID e cp s :
      fl_worlds f !! i = Some w -> CaptureCheckpoint nodeID (w, e) = Some (cp, s) ->
      fleet_step cfgs f (mkFleet (<[i := s.1]> (fl_worlds f)) (fl_profiles f) (cp :: fl_checkpoints f))
  | fs_save f i w u p :
      fl_worlds f !! i = Some w -> w_players w !! u = Some p ->
      fleet_step cfgs f (mkFleet (fl_worlds f) (profileLocked w p :: fl_profiles f) (fl_checkpoints f))
  | fs_register f u :
      fleet_step cfgs f (mkFleet (fl_worlds f) (newcomer u :: fl_profiles f) (fl_checkpoints f))
  | fs_drop f i :
      fleet_step cfgs f (mkFleet (delete i (fl_worlds f)) (fl_profiles f) (fl_checkpoints f)).

Definition no_fleet : fleet := mkFleet [] [] [].

(** ** The invariant *)

(** A world on the terrain of its configuration. *)
Definition world_at_home (cfgs : list MapConfig) (w : World) : Prop :=
  world_wf w /\ w_cfg w ∈ cfgs /\ w_terrain w = stringsToGrid (cfg_Layout (w_cfg w)).

(** A checkpoint that was captured from such a world. *)
Definition checkpoint_at_home (cfgs : list MapConfig) (cp : MapCheckpoint) : Prop :=
  exists cfg, cfg ∈ cfgs /\ cp_MapID cp = cfg_ID cfg /\
    let g := stringsToGrid (cfg_Layout cfg) in
    cp_Terrain cp = gridToStrings g /\
    Forall (fun v => player_wf g (pv_Username v) (restored_player (cfg_ID cfg) 0 v)) (cp_Players cp) /\
    Forall (fun v => npc_wf g (nv_ID v) (restored_npc v)) (cp_NPCs cp) /\
    Forall (fun v => treasure_wf g (tv_ID v) (restored_treasure v)) (cp_Treasures cp).

Definition fleet_wf (cfgs : list MapConfig) (f : fleet) : Prop :=
  Forall (world_at_home cfgs) (fl_worlds f) /\ Forall profile_ok (fl_profiles f)
  /\ Forall (checkpoint_at_home cfgs) (fl_checkpoints f).

Lemma profile_ok_fight p q : same_fight p q -> profile_ok p -> profile_ok q.
Proof. intros (H1 & H2 & H3) []. constructor; by rewrite ?H1, ?H2, ?H3. Qed.

Lemma newcomer_ok u : profile_ok (newcomer u).
Proof. constructor; cbn; unfold valueOr, InitHP, InitAttack; cbn; lia. Qed.

(** The profile of a player of a well-formed world can be used for a login. *)
Lemma saved_ok w k p : player_wf (w_terrain w) k p -> profile_ok (profileLocked w p).
Proof.
  intros []. unfold InitHP in *. constructor; unfold valueOr, InitHP; cbn; [case_match; lia| |done].
  destruct (Z.eqb_spec (pl_MaxHP p) 0); lia.
Qed.

(** The checkpoint of a well-formed world can be restored. *)
Lemma wp_Capture_home cfgs w e nodeID :
  world_at_home cfgs w ->
  wp (CaptureCheckpoint nodeID) (fun cp s => world_at_home cfgs s.1 /\ checkpoint_at_home cfgs cp) (w, e).
Proof.
  intros (Hw & Hin & Ht). unfold CaptureCheckpoint. w_steps. apply wp_Snapshot; [done|].
  intros v w' e' Hw' (Hc & Hg & _) [Hid _ Hterr _ (_ & _ & Hshow & _) Hnpc _ Htr _]. w_steps. cbn [fst].
  split; [split_and!; [done|by rewrite Hc|by rewrite Hg, Hc]|].
  exists (w_cfg w). split; [done|]. cbn. rewrite Hid, Hterr, Hg, Ht, Hc. split_and!; [done..| | |].
  - apply Forall_forall. intros pv (p & Hp & Hs)%Hshow. pose proof (wf_player _ _ _ Hw' Hp) as Hpw.
    rewrite Hg, Ht in Hpw. rewrite Hs. destruct Hpw. by constructor.
  - apply Forall_forall. intros nv Hnv. rewrite Hnpc in Hnv. apply list_elem_of_fmap in Hnv as (n & -> & Hn).
    apply elem_of_values in Hn as [k Hn]. pose proof (wf_npc _ _ _ Hw' Hn) as Hnw. rewrite Hg, Ht in Hnw.
    rewrite <- (nw_key _ _ _ Hnw) in Hnw. by destruct n.
  - apply Forall_forall. intros tv Htv. rewrite Htr in Htv. apply list_elem_of_fmap in Htv as (tr & -> & Hi).
    apply elem_of_values in Hi as [k Hi]. pose proof (wf_treasure _ _ _ Hw' Hi) as Htw. rewrite Hg, Ht in Htw.
    rewrite <- (tw_key _ _ _ Htw) in Htw. by destruct tr.
Qed.

Section fleet.
Context (cfgs : list MapConfig) (Hids : forall c c', c ∈ cfgs -> c' ∈ cfgs -> cfg_ID c = cfg_ID c' -> c = c').

Lemma restored_home w cp :
  world_at_home cfgs w -> checkpoint_at_home cfgs cp -> restores cp w = true ->
  restored_terrain cp (w_terrain w) = w_terrain w.
Proof.
  intros (_ & Hin & Hg) (cfg & Hcfg & Hid & Hterr & _) [Hm%bool_decide_eq_true _]%andb_true_iff.
  rewrite Hid in Hm. apply Hids in Hm; [|done..]. subst cfg. unfold restored_terrain. case_match; [|done].
  by rewrite Hterr, Hg, grid_roundtrip.
Qed.

(** In the fleet, the side conditions of the operations always hold. *)
Lemma available_ok f w op :
  fleet_wf cfgs f -> world_at_home cfgs w -> available f op -> counters_ok op w -> op_ok op w.
Proof.
  intros (_ & Hp & Hcp) Hw Hav Hc. pose proof (proj1 (Forall_forall _ _) Hp) as Hp'. pose proof (proj1 (Forall_forall _ _) Hcp) as Hcp'.
  destruct op; try done; cbn in *.
  - destruct Hav as (q & Hq%Hp' & Hs). by eapply profile_ok_fight.
  - destruct Hav as (cp0 & Hcp0%Hcp' & (Em & Ev & Et & Ep & En & Er)). intros Hr.
    assert (Hhome : checkpoint_at_home cfgs cp).
    { unfold checkpoint_at_home in *. by rewrite Em, Et, Ep, En, Er. }
    rewrite (restored_home w) by done. destruct Hw as (Hw & Hin & Hg), Hhome as (cfg & Hcfg & Hid & _ & ? & ? & ?).
    apply andb_true_iff in Hr as [Hm%bool_decide_eq_true _]. rewrite Hid in Hm. apply Hids in Hm; [|done..]. subst cfg.
    constructor; rewrite ?Hg; try done; rewrite <- Hg; apply Hw.
Qed.

Lemma run_op_home f w op e :
  fleet_wf cfgs f -> world_at_home cfgs w -> available f op -> counters_ok op w ->
  wp (run_op op) (fun _ s => world_at_home cfgs s.1) (w, e).
Proof.
  intros Hf Hw Hav Hc. pose proof (available_ok f w op Hf Hw Hav Hc) as Hok.
  eapply wp_mono; [apply run_op_spec; [apply Hw|exact Hok]|]. intros [] s (Hw' & Hcfg & Ht).
  assert (Hkeep : terrain_after op w = w_terrain w).
  { destruct op; try done; cbn. case_match; [|done]. destruct Hav as (cp0 & Hcp0 & (Em & Ev & Et & Ep & En & Er)).
    apply restored_home; [done| |done]. destruct Hf as (_ & _ & Hcp).
    pose proof (proj1 (Forall_forall _ _) Hcp _ Hcp0) as Hhome. unfold checkpoint_at_home in *. by rewrite Em, Et, Ep, En, Er. }
  destruct Hw as (_ & Hin & Hg). split_and!; [done|by rewrite Hcfg|]. by rewrite Ht, Hkeep, Hcfg.
Qed.

Lemma fleet_step_wf f f' :
  Forall (cfg_ok MinNPCs) cfgs -> fleet_step cfgs f f' -> fleet_wf cfgs f -> fleet_wf cfgs f'.
Proof.
  intros Hcfgs Hstep Hf. pose proof Hf as (Hw & Hp & Hcp). rewrite Forall_forall in Hcfgs. destruct Hstep; unfold fleet_wf; cbn.
  - split_and!; [|done..]. apply Forall_cons. split; [|done].
    assert (built cfg s.1) as (Hb & Hbc & Hbt & _) by (eapply NewWorld_built; eauto).
    unfold world_at_home. by rewrite Hbc.
  - split_and!; [|done..]. apply Forall_insert; [done|].
    pose proof (run_op_home f w op e Hf (Forall_lookup_1 _ _ _ _ Hw H) H0 H1) as Hrun.
    unfold wp in Hrun. by rewrite H2 in Hrun.
  - pose proof (wp_Capture_home cfgs w e nodeID (Forall_lookup_1 _ _ _ _ Hw H)) as Hrun.
    unfold wp in Hrun. rewrite H0 in Hrun. destruct Hrun. split_and!; [by apply Forall_insert|done|by constructor].
  - split_and!; [done| |done]. constructor; [|done]. eapply saved_ok, wf_player; [|done]. apply (Forall_lookup_1 _ _ _ _ Hw H).
  - split_and!; [done| |done]. constructor; [apply newcomer_ok|done].
  - split_and!; [|done..]. by apply Forall_delete.
Qed.

Lemma fleet_run_wf f f' :
  Forall (cfg_ok MinNPCs) cfgs -> rtc (fleet_step cfgs) f f' -> fleet_wf cfgs f -> fleet_wf cfgs f'.
Proof. intros Hc. induction 1; eauto using fleet_step_wf. Qed.
End fleet.

(** C2. The side conditions of the operations look after themselves: in any run of
    the fleet, in which worlds of the given maps are created, players join with a
    newcomer's profile or one saved from some world, worlds are restored from
    checkpoints captured from some world, and all other operations happen in any
    order on any world, every world is well formed, on the terrain of its map, and
    every operation that the fleet can do next ends without a panic, as long as the
    counters stay below 2^63. *)
Theorem fleet_safe cfgs f i w :
  (forall c c', c ∈ cfgs -> c' ∈ cfgs -> cfg_ID c = cfg_ID c' -> c = c') -> Forall (cfg_ok MinNPCs) cfgs ->
  rtc (fleet_step cfgs) no_fleet f -> fl_worlds f !! i = Some w ->
  world_wf w /\ w_cfg w ∈ cfgs /\ w_terrain w = stringsToGrid (cfg_Layout (w_cfg w)) /\
  forall op e, available f op -> counters_ok op w -> exists s, run_op op (w, e) = Some (tt, s).
Proof.
  intros Hids Hcfgs Hrun Hi.
  assert (Hf : fleet_wf cfgs f) by (eapply fleet_run_wf; [done..|]; split_and!; constructor).
  pose proof (Forall_lookup_1 _ _ _ _ (proj1 Hf) Hi) as Hw. split_and!; try apply Hw.
  intros op e Hav Hc. destruct (proj1 (wp_run _ _ _) (run_op_home cfgs Hids f w op e Hf Hw Hav Hc)) as ([] & s & Hs & _). eauto.
Qed.

Lemma demo_cfg_room : Forall (cfg_ok MinNPCs) [demo_cfg].
Proof.
  apply Forall_singleton. constructor; [eexists; reflexivity| |vm_compute; discriminate].
  apply grid_cell_open_stands. reflexivity.
Qed.

Lemma demo_starts : match NewWorld 9 demo_cfg fair_env with Some _ => true | None => false end = true.
Proof. vm_compute. reflexivity. Qed.

Lemma fleet_safe_witness :
  exists f w, rtc (fleet_step [demo_cfg]) no_fleet f /\ fl_worlds f = [w] /\
    world_wf w /\ w_cfg w ∈ [demo_cfg] /\ w_terrain w = stringsToGrid (cfg_Layout (w_cfg w)) /\
    forall op e, available f op -> counters_ok op w -> exists s, run_op op (w, e) = Some (tt, s).
Proof.
  pose proof demo_starts as H. destruct (NewWorld 9 demo_cfg fair_env) as [s|] eqn:Hs; [|discriminate H].
  assert (Hrun : rtc (fleet_step [demo_cfg]) no_fleet (mkFleet [s.1] [newcomer "ann"] [])).
  { eapply rtc_l; [apply (fs_new _ no_fleet demo_cfg 9 fair_env s); [left|lia|exact Hs]|].
    apply rtc_once. apply (fs_register _ (mkFleet [s.1] [] []) "ann"). }
  exists (mkFleet [s.1] [newcomer "ann"] []), s.1. split; [exact Hrun|]. split; [reflexivity|].
  apply (fleet_safe [demo_cfg] _ 0); [|exact demo_cfg_room|exact Hrun|reflexivity].
  intros c c' ->%list_elem_of_singleton ->%list_elem_of_singleton _. reflexivity.
Defined.
