(* ===== verification/Topology.v ===== *)
(** * Topology documents

    [storage/topology.go] and [storage/topology_bootstrap.go]: the versioned
    routing document, its validation, and the first document a coordinator
    derives from the registered nodes.  A nil map reads as an empty one; [Clone]
    and [Normalize] replace it by an empty one before a document is stored, so
    the model has one empty map.  Identifiers are strings, versions, epochs and
    terms are [uint64], times are nanoseconds ([UTC] does not change them). *)

From Stdlib Require Import ZArith Lia String.
From stdpp Require Import base sorting gmap strings list option.
From S2P Require Import Prelude Protocol Maps World WorldOps.

Open Scope Z_scope.
Open Scope go_scope.

(** ** Data *)

Definition TopologyRedisKey : string := "battle:topology".
Definition TopologyEventChannel : string := "events:topology".
Definition MapFenceRedisKeyPrefix : string := "battle:map:fence:".
Definition CoordinatorLeaderTermRedisKey : string := "battle:coordinator:leader:term".

(** [storage.Topology] *)
Record Topology := mkTopology {
  t_Version : Z;
  t_LeaderTerm : Z;
  t_Owners : gmap string string;
  t_MapEpochs : gmap string Z;
  t_UpdatedAt : Z
}.

Definition zero_Topology : Topology := mkTopology 0 0 ∅ ∅ 0.

(** [storage.NodeRegistryInfo] *)
Record NodeRegistryInfo := mkNodeRegistryInfo {
  nr_ID : string;
  nr_Addr : string;
  nr_MapID : string;
  nr_Draining : bool
}.

(** The sentinel errors of the package and the formatted ones. *)
Inductive store_err :=
  | ErrTopologyVersionConflict
  | ErrTopologyCorrupt
  | ErrMapFenceRejected
  | ErrGlobalSessionCorrupt
  | ErrMapEpochInvariant
  | ErrLeaderTermInvariant
  | ErrGlobalBossNotInitialized
  | ErrDatabaseUnavailable
  | ErrRedis
  | ErrDatabase
  | ErrDecode
  | ErrZeroVersion
  | ErrZeroUpdatedAt
  | ErrInvalidMapID (mapID : string)
  | ErrUnknownMap (mapID : string)
  | ErrInvalidOwner (mapID owner : string)
  | ErrNoEpoch (mapID : string)
  | ErrInitialVersion (got : Z)
  | ErrNextVersion (want got : Z)
  | ErrMigrationArgs
  | ErrCheckpointArgs
  | ErrCheckpointMismatch
  | ErrEventVersion
  | ErrNoMaps
  | ErrNodeID (id : string)
  | ErrNodeAddr (id addr : string)
  | ErrNodeDuplicate (id : string)
  | ErrNodeMapID (id mapID : string)
  | ErrNodeUnknownMap (id mapID : string)
  | ErrEmptyCredentials
  | ErrUserExists (username : string)
  | ErrNoUser (username : string)
  | ErrPassword
  | ErrHash.

#[export] Instance store_err_dec : EqDecision store_err.
Proof. solve_decision. Defined.

(** ** Operations *)

Definition cloneStringMap (source : gmap string string) : gmap string string :=
  map_fold (fun key value cloned => <[key := value]> cloned) ∅ source.

Definition cloneUint64Map (source : gmap string Z) : gmap string Z :=
  map_fold (fun key value cloned => <[key := value]> cloned) ∅ source.

Definition Clone (t : Topology) : Topology :=
  mkTopology (t_Version t) (t_LeaderTerm t) (cloneStringMap (t_Owners t)) (cloneUint64Map (t_MapEpochs t))
    (t_UpdatedAt t).

Definition Normalize (t : Topology) : Topology :=
  mkTopology (t_Version t) (t_LeaderTerm t) (t_Owners t) (t_MapEpochs t) (t_UpdatedAt t).

(** The body of the loop of [Validate]: the error for one map, if any. *)
Definition validate_map (known : option (gset string)) (t : Topology) (mapID : string) : option store_err :=
  if bad_name mapID then Some (ErrInvalidMapID mapID) else
  if match known with Some k => negb (bool_decide (mapID ∈ k)) | None => false end
  then Some (ErrUnknownMap mapID) else
  if match t_Owners t !! mapID with
     | Some owner => negb (bool_decide (owner = EmptyString)) && bad_name owner
     | None => false
     end
  then Some (ErrInvalidOwner mapID (default EmptyString (t_Owners t !! mapID))) else
  if default 0 (t_MapEpochs t !! mapID) =? 0 then Some (ErrNoEpoch mapID) else None.

Fixpoint first_error (f : string -> option store_err) (l : list string) : option store_err :=
  match l with
  | [] => None
  | x :: l' => match f x with Some e => Some e | None => first_error f l' end
  end.

(** [None] is Go's nil error. *)
Definition Validate (known : option (gset string)) (t : Topology) : option store_err :=
  if t_Version t =? 0 then Some ErrZeroVersion else
  if IsZero (t_UpdatedAt t) then Some ErrZeroUpdatedAt else
  first_error (validate_map known t) (sort_strings (elements (dom (t_Owners t) ∪ dom (t_MapEpochs t)))).

Definition prepareTopology (topology : Topology) : store_err + Topology :=
  let prepared := Normalize (Clone topology) in
  match Validate None prepared with
  | Some err => inl err
  | None => inr prepared
  end.

Definition MapFenceRedisKey (mapID : string) : string := MapFenceRedisKeyPrefix +:+ mapID.

(** ** The first topology *)

Definition minimumMapCandidates : Z := 2.

(** The loop over the registered nodes: the candidates of every map, in the
    order of the nodes, or the first error. *)
Fixpoint collect_candidates (known : gset string) (seen : gset string)
    (candidates : gmap string (list string)) (nodes : list NodeRegistryInfo)
    : store_err + gmap string (list string) :=
  match nodes with
  | [] => inr candidates
  | node :: rest =>
      if bad_name (nr_ID node) then inl (ErrNodeID (nr_ID node)) else
      if bad_name (nr_Addr node) then inl (ErrNodeAddr (nr_ID node) (nr_Addr node)) else
      if bool_decide (nr_ID node ∈ seen) then inl (ErrNodeDuplicate (nr_ID node)) else
      if bad_name (nr_MapID node) then inl (ErrNodeMapID (nr_ID node) (nr_MapID node)) else
      if negb (bool_decide (nr_MapID node ∈ known)) then inl (ErrNodeUnknownMap (nr_ID node) (nr_MapID node)) else
      collect_candidates known ({[nr_ID node]} ∪ seen)
        (<[nr_MapID node := default [] (candidates !! nr_MapID node) ++ [nr_ID node]]> candidates) rest
  end.

(** The loop over the maps: [None] as soon as a map lacks candidates. *)
Fixpoint assign_owners (candidates : gmap string (list string)) (owners : gmap string string)
    (epochs : gmap string Z) (mapIDs : list string) : option (gmap string string * gmap string Z) :=
  match mapIDs with
  | [] => Some (owners, epochs)
  | mapID :: rest =>
      match sort_strings (default [] (candidates !! mapID)) with
      | first :: _ :: _ => assign_owners candidates (<[mapID := first]> owners) (<[mapID := 1]> epochs) rest
      | _ => None
      end
  end.

(** [inr None] is "not ready".  [sort.Slice] may permute nodes with equal IDs;
    such input is rejected below in any order. *)
Definition BuildInitialTopology (known : gset string) (nodes : list NodeRegistryInfo) (now : Z)
    : store_err + option Topology :=
  let mapIDs := sort_strings (elements known) in
  match mapIDs with
  | [] => inl ErrNoMaps
  | _ =>
      match collect_candidates known ∅ ∅ (merge_sort (by_key nr_ID) nodes) with
      | inl err => inl err
      | inr candidates =>
          match assign_owners candidates ∅ ∅ mapIDs with
          | None => inr None
          | Some (owners, epochs) =>
              let topology := mkTopology 1 0 owners epochs now in
              match Validate (Some known) topology with
              | Some err => inl err
              | None => inr (Some topology)
              end
          end
      end
  end.

(** ** Specifications *)

(** What [Validate] promises. *)
Record valid_topology (known : option (gset string)) (t : Topology) : Prop := {
  vt_version : t_Version t <> 0;
  vt_updated : t_UpdatedAt t <> 0;
  vt_names : forall m, m ∈ dom (t_Owners t) ∪ dom (t_MapEpochs t) -> bad_name m = false;
  vt_known : forall k m, known = Some k -> m ∈ dom (t_Owners t) ∪ dom (t_MapEpochs t) -> m ∈ k;
  vt_owner : forall m o, t_Owners t !! m = Some o -> o = "" \/ bad_name o = false;
  vt_epoch : forall m, m ∈ dom (t_Owners t) ∪ dom (t_MapEpochs t) ->
               exists e, t_MapEpochs t !! m = Some e /\ e <> 0
}.

(** The nodes that declare a map, in name order. *)
Definition declared (nodes : list NodeRegistryInfo) (mapID : string) : list string :=
  sort_strings (nr_ID <$> filter (fun n => nr_MapID n = mapID) nodes).

(** ** Lemmas *)

Lemma map_clone {A} (m : gmap string A) : map_fold (fun k v c => <[k := v]> c) ∅ m = m.
Proof.
  apply (map_fold_weak_ind (fun c m => c = m)); [done|]. by intros k x m' r _ ->.
Qed.

Lemma Clone_id t : Clone t = t.
Proof. destruct t. unfold Clone, cloneStringMap, cloneUint64Map. cbn. by rewrite !map_clone. Qed.

Lemma Normalize_id t : Normalize t = t.
Proof. by destruct t. Qed.

Lemma first_error_None f l : first_error f l = None <-> forall x, x ∈ l -> f x = None.
Proof.
  induction l as [|x l IH]; cbn; [split; [by intros _ ? ?%elem_of_nil|done]|].
  destruct (f x) eqn:E.
  - split; [done|]. intros H. specialize (H x ltac:(left)). congruence.
  - rewrite IH. split; intros H; [intros y [->|?]%elem_of_cons; auto|intros; apply H; by right].
Qed.

Lemma validate_map_None known t m :
  validate_map known t m = None <->
  bad_name m = false /\ (forall k, known = Some k -> m ∈ k) /\
  (forall o, t_Owners t !! m = Some o -> o = "" \/ bad_name o = false) /\
  exists e, t_MapEpochs t !! m = Some e /\ e <> 0.
Proof.
  assert (HE : (if default 0 (t_MapEpochs t !! m) =? 0 then Some (ErrNoEpoch m) else None) = None
               <-> exists e, t_MapEpochs t !! m = Some e /\ e <> 0).
  { destruct (t_MapEpochs t !! m) as [ep|]; cbn; [|split; [done|by intros (? & [=] & _)]].
    destruct (Z.eqb_spec ep 0); [split; [done|by intros (? & [= <-] & ?)]|split; [eauto|done]]. }
  unfold validate_map. destruct (bad_name m); [split; [done|by intros [? _]]|].
  destruct (match known with Some k => _ | None => _ end) eqn:Hk.
  { destruct known as [k|]; [|done]. apply negb_true_iff, bool_decide_eq_false in Hk.
    split; [done|]. intros (_ & H & _). destruct Hk. by apply H. }
  assert (Hk' : forall k, known = Some k -> m ∈ k).
  { intros k ->. by apply negb_false_iff, bool_decide_eq_true in Hk. }
  destruct (t_Owners t !! m) as [o|]; [|rewrite HE; naive_solver].
  destruct (bool_decide_reflect (o = "")) as [->|Ho]; cbn [negb andb]; [rewrite HE; naive_solver|].
  destruct (bad_name o) eqn:Hb; [|rewrite HE; naive_solver].
  split; [done|]. intros (_ & _ & H & _). destruct (H o eq_refl); congruence.
Qed.

Lemma Validate_None known t : Validate known t = None <-> valid_topology known t.
Proof.
  unfold Validate, IsZero. destruct (Z.eqb_spec (t_Version t) 0); [split; [done|by intros []]|].
  destruct (Z.eqb_spec (t_UpdatedAt t) 0); [split; [done|by intros []]|].
  rewrite first_error_None. setoid_rewrite elem_of_sort_strings. setoid_rewrite elem_of_elements.
  setoid_rewrite validate_map_None. split.
  - intros H. constructor; try done.
    + intros m Hm. by apply H.
    + intros k m -> Hm. by apply H.
    + intros m o Ho. apply (H m); [|done]. apply elem_of_union_l, elem_of_dom. eauto.
    + intros m Hm. by apply H.
  - intros [] m Hm. split_and!; eauto.
Qed.

Lemma prepareTopology_inr t p : prepareTopology t = inr p <-> p = t /\ valid_topology None t.
Proof.
  unfold prepareTopology. rewrite Clone_id, Normalize_id. pose proof (Validate_None None t) as H.
  destruct (Validate None t) as [e|].
  - split; [done|]. intros [_ Hv]. apply H in Hv. done.
  - split; [intros [= <-]; split; [done|by apply H]|by intros [-> _]].
Qed.

Lemma first_error_Some f l e : first_error f l = Some e -> exists x, x ∈ l /\ f x = Some e.
Proof.
  induction l as [|x l IH]; [done|]. cbn. destruct (f x) eqn:E.
  - intros [= <-]. exists x. split; [left|done].
  - intros (y & ? & ?)%IH. exists y. split; [by right|done].
Qed.

(** Validation never reports a failure of the server. *)
Lemma prepareTopology_err t err : prepareTopology t = inl err -> err <> ErrRedis.
Proof.
  unfold prepareTopology, Validate. destruct (t_Version _ =? 0); [by intros [= <-]|].
  destruct (IsZero _); [by intros [= <-]|]. destruct (first_error _ _) as [e|] eqn:He; [|done].
  intros [= <-]. apply first_error_Some in He as (m & _ & Hm).
  unfold validate_map in Hm. repeat case_match; simplify_eq; done.
Qed.

(** ** The first topology: lemmas *)

(** A registration that the first topology may use. *)
Definition node_ok (known : gset string) (n : NodeRegistryInfo) : Prop :=
  bad_name (nr_ID n) = false /\ bad_name (nr_Addr n) = false /\ bad_name (nr_MapID n) = false /\
  nr_MapID n ∈ known.

(** What a first topology is, in terms of the registered nodes. *)
Record bootstrap_spec (known : gset string) (nodes : list NodeRegistryInfo) (now : Z) (t : Topology) : Prop := {
  bs_known : known <> ∅;
  bs_names : forall m, m ∈ known -> bad_name m = false;
  bs_nodes : Forall (node_ok known) nodes;
  bs_distinct : NoDup (nr_ID <$> nodes);
  bs_header : t_Version t = 1 /\ t_LeaderTerm t = 0 /\ t_UpdatedAt t = now /\ now <> 0;
  bs_maps : dom (t_Owners t) = known /\ dom (t_MapEpochs t) = known;
  bs_owner : forall m, m ∈ known -> exists o standby rest, declared nodes m = o :: standby :: rest
               /\ t_Owners t !! m = Some o /\ t_MapEpochs t !! m = Some 1
}.

Definition ids_of (nodes : list NodeRegistryInfo) (m : string) : list string :=
  nr_ID <$> filter (fun n => nr_MapID n = m) nodes.

Lemma collect_sound known seen cand nodes r :
  collect_candidates known seen cand nodes = inr r ->
  Forall (node_ok known) nodes /\ NoDup (nr_ID <$> nodes) /\ (forall n, n ∈ nodes -> nr_ID n ∉ seen) /\
  forall m, default [] (r !! m) = default [] (cand !! m) ++ ids_of nodes m.
Proof.
  revert seen cand. induction nodes as [|n nodes IH]; intros seen cand; cbn [collect_candidates].
  { intros [= <-]. split_and!; [constructor|constructor|by intros ? ?%elem_of_nil|].
    intros m. by rewrite app_nil_r. }
  destruct (bad_name (nr_ID n)) eqn:H1; [done|]. destruct (bad_name (nr_Addr n)) eqn:H2; [done|].
  case_bool_decide as H3; [done|]. destruct (bad_name (nr_MapID n)) eqn:H4; [done|].
  case_bool_decide as H5; [|done]. cbn [negb].
  intros (Hok & Hnd & Hseen & Hc)%IH. split_and!.
  - constructor; [by split_and!|done].
  - cbn. constructor; [|done]. intros (n' & Heq & Hn')%list_elem_of_fmap. apply (Hseen n' Hn'). set_solver.
  - intros n' [->|Hn']%elem_of_cons; [done|]. specialize (Hseen n' Hn'). set_solver.
  - intros m. rewrite Hc. unfold ids_of. rewrite filter_cons.
    destruct (decide (nr_MapID n = m)) as [->|Hne].
    + rewrite lookup_insert_eq. cbn. by rewrite <- app_assoc.
    + by rewrite lookup_insert_ne.
Qed.

Lemma collect_complete known seen cand nodes :
  Forall (node_ok known) nodes -> NoDup (nr_ID <$> nodes) -> (forall n, n ∈ nodes -> nr_ID n ∉ seen) ->
  exists r, collect_candidates known seen cand nodes = inr r.
Proof.
  revert seen cand. induction nodes as [|n nodes IH]; intros seen cand Hok Hnd Hseen; [eexists; done|].
  apply list.Forall_cons in Hok as [(H1 & H2 & H3 & H4) Hok]. cbn in Hnd. apply list.NoDup_cons in Hnd as [Hni Hnd].
  cbn [collect_candidates]. rewrite H1, H2, H3, (bool_decide_eq_false_2 (nr_ID n ∈ seen)) by (apply Hseen; left).
  rewrite bool_decide_eq_true_2 by done. cbn [negb]. apply IH; [done|done|].
  intros n' Hn'. apply not_elem_of_union. split; [|apply Hseen; by right].
  intros Heq%elem_of_singleton. apply Hni. rewrite <- Heq. by apply list_elem_of_fmap_2.
Qed.

Lemma assign_owners_spec cand owners epochs l o e :
  assign_owners cand owners epochs l = Some (o, e) <->
  (forall m, m ∈ l -> exists x y r, sort_strings (default [] (cand !! m)) = x :: y :: r) /\
  (forall m, o !! m = if decide (m ∈ l) then head (sort_strings (default [] (cand !! m))) else owners !! m) /\
  (forall m, e !! m = if decide (m ∈ l) then Some 1 else epochs !! m).
Proof.
  revert owners epochs. induction l as [|m l IH]; intros owners epochs; cbn [assign_owners].
  { split.
    - intros [= <- <-]. split_and!; [by intros ? ?%elem_of_nil|..]; intros m; by destruct (decide (m ∈ [])) as [?%elem_of_nil|].
    - intros (_ & Ho & He). do 2 f_equal; apply map_eq; intros m; [rewrite Ho|rewrite He];
        by destruct (decide (m ∈ [])) as [?%elem_of_nil|]. }
  destruct (sort_strings (default [] (cand !! m))) as [|x [|y r]] eqn:Hs.
  1, 2: split; [done|]; intros (H & _); destruct (H m ltac:(left)) as (? & ? & ? & Heq); congruence.
  rewrite IH. clear IH.
  assert (Hin : forall k, (if decide (k ∈ m :: l) then true else false) = (if decide (k = m) then true else if decide (k ∈ l) then true else false)).
  { intros k. destruct (decide (k ∈ m :: l)) as [H|H]; destruct (decide (k = m)), (decide (k ∈ l)); set_solver. }
  split; intros (H1 & H2 & H3); (split_and!; [intros k Hk|intros k; specialize (H2 k)|intros k; specialize (H3 k)]).
  - apply elem_of_cons in Hk as [->|Hk]; [rewrite Hs; eauto|by apply H1].
  - rewrite H2. specialize (Hin k). destruct (decide (k ∈ m :: l)), (decide (k ∈ l)), (decide (k = m)); try done; subst;
      rewrite ?lookup_insert_eq, ?lookup_insert_ne, ?Hs by done; done.
  - rewrite H3. specialize (Hin k). destruct (decide (k ∈ m :: l)), (decide (k ∈ l)), (decide (k = m)); try done; subst;
      rewrite ?lookup_insert_eq, ?lookup_insert_ne by done; done.
  - apply H1. by right.
  - rewrite H2. specialize (Hin k). destruct (decide (k ∈ m :: l)), (decide (k ∈ l)), (decide (k = m)); try done; subst;
      rewrite ?lookup_insert_eq, ?lookup_insert_ne, ?Hs by done; done.
  - rewrite H3. specialize (Hin k). destruct (decide (k ∈ m :: l)), (decide (k ∈ l)), (decide (k = m)); try done; subst;
      rewrite ?lookup_insert_eq, ?lookup_insert_ne by done; done.
Qed.

Lemma ids_of_perm nodes nodes' m : nodes ≡ₚ nodes' -> ids_of nodes m ≡ₚ ids_of nodes' m.
Proof. intros H. unfold ids_of. by rewrite H. Qed.

Lemma declared_perm nodes nodes' m : nodes ≡ₚ nodes' -> declared nodes m = declared nodes' m.
Proof. intros H. apply sort_strings_unique. by apply ids_of_perm. Qed.

Lemma bootstrap_spec_perm known nodes nodes' now t :
  nodes ≡ₚ nodes' -> bootstrap_spec known nodes now t -> bootstrap_spec known nodes' now t.
Proof.
  intros H []. constructor; try done; [by rewrite <- H..|].
  intros m Hm. rewrite <- (declared_perm _ _ m H). auto.
Qed.

Lemma ids_of_sorted nodes m : sort_strings (ids_of (merge_sort (by_key nr_ID) nodes) m) = declared nodes m.
Proof. apply sort_strings_unique, ids_of_perm, merge_sort_Permutation. Qed.

(** Everything the loops need, for the sorted or the given list of nodes. *)
Lemma collect_sorted known nodes r :
  collect_candidates known ∅ ∅ (merge_sort (by_key nr_ID) nodes) = inr r ->
  Forall (node_ok known) nodes /\ NoDup (nr_ID <$> nodes) /\
  forall m, sort_strings (default [] (r !! m)) = declared nodes m.
Proof.
  intros (Hok & Hnd & _ & Hc)%collect_sound. pose proof (merge_sort_Permutation (by_key nr_ID) nodes) as Hp.
  split_and!; [by rewrite <- Hp|by rewrite <- Hp|].
  intros m. rewrite Hc. rewrite lookup_empty. apply ids_of_sorted.
Qed.

Lemma sorted_elements (known : gset string) m : m ∈ sort_strings (elements known) <-> m ∈ known.
Proof. by rewrite elem_of_sort_strings, elem_of_elements. Qed.

Lemma sorted_elements_nil (known : gset string) : sort_strings (elements known) = [] <-> known = ∅.
Proof.
  split; [|by intros ->].
  intros H. apply set_eq. intros m. rewrite <- sorted_elements, H. set_solver.
Qed.

(** The result of [assign_owners] on all known maps. *)
Lemma assigned_all known cand o e :
  assign_owners cand ∅ ∅ (sort_strings (elements known)) = Some (o, e) <->
  dom o = known /\ dom e = known /\
  forall m, m ∈ known -> exists x y r, sort_strings (default [] (cand !! m)) = x :: y :: r
    /\ o !! m = Some x /\ e !! m = Some 1.
Proof.
  rewrite assign_owners_spec. split.
  - intros (H1 & H2 & H3).
    assert (Hall : forall m, m ∈ known -> exists x y r, sort_strings (default [] (cand !! m)) = x :: y :: r
      /\ o !! m = Some x /\ e !! m = Some 1).
    { intros m Hm. apply sorted_elements in Hm. destruct (H1 m Hm) as (x & y & r & Hs).
      specialize (H2 m). specialize (H3 m). destruct (decide _); [|done]. rewrite Hs in H2. eauto 8. }
    split_and!; [apply set_eq; intros m; rewrite elem_of_dom..|done].
    + split; [intros Ho|intros Hm; destruct (Hall m Hm) as (? & ? & ? & _ & -> & _); eauto].
      specialize (H2 m). destruct (decide _) as [Hm|]; [by apply sorted_elements|].
      rewrite lookup_empty in H2. rewrite H2 in Ho. by destruct Ho.
    + split; [intros He|intros Hm; destruct (Hall m Hm) as (? & ? & ? & _ & _ & ->); eauto].
      specialize (H3 m). destruct (decide _) as [Hm|]; [by apply sorted_elements|].
      rewrite lookup_empty in H3. rewrite H3 in He. by destruct He.
  - intros (Ho & He & Hall). split_and!.
    + intros m Hm%sorted_elements. destruct (Hall m Hm) as (x & y & r & ? & _). eauto.
    + intros m. destruct (decide _) as [Hm|Hm]; rewrite sorted_elements in Hm.
      * destruct (Hall m Hm) as (x & y & r & -> & -> & _). done.
      * rewrite lookup_empty. apply not_elem_of_dom. by rewrite Ho.
    + intros m. destruct (decide _) as [Hm|Hm]; rewrite sorted_elements in Hm.
      * by destruct (Hall m Hm) as (x & y & r & _ & _ & ->).
      * rewrite lookup_empty. apply not_elem_of_dom. by rewrite He.
Qed.

(** A first topology is valid for its own set of maps. *)
Lemma bootstrap_valid known nodes now t : bootstrap_spec known nodes now t -> valid_topology (Some known) t.
Proof.
  intros [Hk Hnames Hok Hnd (Hv & Ht & Hu & Hnow) [Hdo Hde] Hown].
  assert (Hdom : dom (t_Owners t) ∪ dom (t_MapEpochs t) = known) by (rewrite Hdo, Hde; clear; set_solver).
  constructor; rewrite ?Hdom; try lia; try done.
  - by intros k m [= <-].
  - intros m o Ho. right. assert (Hm : m ∈ known) by (rewrite <- Hdo; apply elem_of_dom; eauto).
    destruct (Hown m Hm) as (o' & s & r & Hdm & Ho' & _). simplify_eq.
    assert (Hin : o ∈ declared nodes m) by (rewrite Hdm; left).
    unfold declared in Hin. rewrite elem_of_sort_strings, list_elem_of_fmap in Hin.
    destruct Hin as (n & -> & [_ Hn]%list_elem_of_filter). rewrite list.Forall_forall in Hok. apply (Hok n Hn).
  - intros m Hm. destruct (Hown m Hm) as (? & ? & ? & _ & _ & ->). eauto.
Qed.

Lemma BuildInitialTopology_unfold known nodes now :
  known <> ∅ -> BuildInitialTopology known nodes now =
  match collect_candidates known ∅ ∅ (merge_sort (by_key nr_ID) nodes) with
  | inl err => inl err
  | inr candidates =>
      match assign_owners candidates ∅ ∅ (sort_strings (elements known)) with
      | None => inr None
      | Some (owners, epochs) =>
          match Validate (Some known) (mkTopology 1 0 owners epochs now) with
          | Some err => inl err
          | None => inr (Some (mkTopology 1 0 owners epochs now))
          end
      end
  end.
Proof.
  intros Hk. unfold BuildInitialTopology. destruct (sort_strings (elements known)) eqn:Hl; [|done].
  by apply sorted_elements_nil in Hl.
Qed.

Lemma bootstrap_iff known nodes now t :
  BuildInitialTopology known nodes now = inr (Some t) <-> bootstrap_spec known nodes now t.
Proof.
  destruct (decide (known = ∅)) as [->|Hk]; [split; [done|by intros []]|].
  rewrite BuildInitialTopology_unfold by done. split.
  - destruct (collect_candidates _ _ _ _) as [err|cand] eqn:Hc; [done|]. apply collect_sorted in Hc as (Hok & Hnd & Hd).
    destruct (assign_owners _ _ _ _) as [[o e]|] eqn:Ha; [|done]. apply assigned_all in Ha as (Hdo & Hde & Hall).
    destruct (Validate (Some known) (mkTopology 1 0 o e now)) eqn:Hv; [done|]. intros [= <-].
    apply Validate_None in Hv. constructor; cbn; try done.
    + intros m Hm. apply (vt_names _ _ Hv). cbn. rewrite Hdo. by apply elem_of_union_l.
    + split_and!; try done. apply (vt_updated _ _ Hv).
    + intros m Hm. rewrite <- Hd. by apply Hall.
  - intros Hb. pose proof (bootstrap_valid _ _ _ _ Hb) as Hval.
    destruct Hb as [_ Hnames Hok Hnd (Hv & Ht & Hu & Hnow) [Hdo Hde] Hown].
    pose proof (merge_sort_Permutation (by_key nr_ID) nodes) as Hp.
    destruct (collect_complete known ∅ ∅ (merge_sort (by_key nr_ID) nodes)) as [cand Hc];
      [by rewrite Hp|by rewrite Hp|intros; apply not_elem_of_empty|].
    rewrite Hc. apply collect_sorted in Hc as (_ & _ & Hd).
    assert (Ha : assign_owners cand ∅ ∅ (sort_strings (elements known)) = Some (t_Owners t, t_MapEpochs t)).
    { apply assigned_all. split_and!; [done..|]. intros m Hm. rewrite Hd. by apply Hown. }
    rewrite Ha. assert (Ht' : mkTopology 1 0 (t_Owners t) (t_MapEpochs t) now = t) by (destruct t; cbn in *; by subst).
    rewrite Ht'. by rewrite (proj2 (Validate_None _ _) Hval).
Qed.

(** ** Properties *)

(** A topology is accepted for storing exactly when it is valid, and what is
    stored is the given document: positive version, a commit time, clean map and
    owner names, and a positive epoch for every map it mentions. *)
Theorem prepareTopology_spec t p :
  (prepareTopology t = inr p <-> p = t /\ valid_topology None t) /\
  forall known, Validate known t = None <-> valid_topology known t.
Proof. split; [apply prepareTopology_inr|intros; apply Validate_None]. Qed.

(** C15. The first topology is determined by the set of registered nodes alone,
    not by their order: it exists exactly when every known map is declared by at
    least two well-formed, distinctly named nodes, and it gives each map to the
    first of its candidates by name, at epoch one. *)
Theorem BuildInitialTopology_spec known nodes now t :
  (BuildInitialTopology known nodes now = inr (Some t) <-> bootstrap_spec known nodes now t) /\
  forall nodes', nodes ≡ₚ nodes' ->
    BuildInitialTopology known nodes now = inr (Some t) -> BuildInitialTopology known nodes' now = inr (Some t).
Proof.
  split; [apply bootstrap_iff|]. intros nodes' Hp H%bootstrap_iff.
  apply bootstrap_iff. by eapply bootstrap_spec_perm.
Qed.

Definition demo_nodes : list NodeRegistryInfo :=
  [mkNodeRegistryInfo "node-b" "10.0.0.2:1" "demo" false; mkNodeRegistryInfo "node-a" "10.0.0.1:1" "demo" false].

Lemma BuildInitialTopology_spec_witness :
  BuildInitialTopology {["demo"]} (reverse demo_nodes) 7
  = inr (Some (mkTopology 1 0 {["demo" := "node-a"]} {["demo" := 1]} 7)).
Proof.
  apply (BuildInitialTopology_spec {["demo"]} demo_nodes 7 (mkTopology 1 0 {["demo" := "node-a"]} {["demo" := 1]} 7)).
  - apply Permutation_swap.
  - vm_compute. reflexivity.
Defined.
