(* ===== verification/Redis.v ===== *)
(** * The shared Redis server

    What the program keeps in Redis, and a client's view of one command.  Redis
    and the JSON libraries are not part of the repository: a key that holds a JSON
    document is modelled by the value the document decodes to, or by [Corrupt];
    keys, hashes and expiry follow the documented commands the code issues.  A
    Lua script runs atomically; its numbers are doubles, and numbers it prints
    have 14 significant digits. *)

From Stdlib Require Import ZArith Lia String.
From stdpp Require Import base sorting gmap strings list option.
From S2P Require Import Prelude Protocol Maps World WorldOps Topology.

Open Scope Z_scope.
Open Scope go_scope.

(** ** Documents and Lua numbers *)

Inductive doc (A : Type) := Good (a : A) | Corrupt.
Arguments Good {A} a.
Arguments Corrupt {A}.

(** A number inside a document: [Exp z] is printed in exponent notation, which
    Go does not accept for an integer field. *)
Inductive num := Int (z : Z) | Exp (z : Z).

Definition lua_number (n : num) : Z := match n with Int z => f64 z | Exp z => f64 z end.

(** The unit of the 14th significant digit. *)
Fixpoint unit14 (fuel : nat) (unit a : Z) : Z :=
  match fuel with
  | O => unit
  | S fuel' => if a <? 10^14 * unit then unit else unit14 fuel' (10 * unit) a
  end.

(** ["%.14g"] of an integral double. *)
Definition lua_print (d : Z) : num :=
  let a := Z.abs d in
  if a <? 10^14 then Int d else
  let unit := unit14 320 1 a in
  let q := a / unit in
  let r := a mod unit in
  let q' := if (unit <? 2 * r) || ((unit =? 2 * r) && Z.odd q) then q + 1 else q in
  Exp (Z.sgn d * (q' * unit)).

(** [tostring(n) == s], for [s] the decimal text of the integer [e]. *)
Definition lua_tostring_is (n : num) (e : Z) : bool :=
  match lua_print (lua_number n) with
  | Int z => z =? e
  | Exp _ => false
  end.

(** The value of a map's fence key, written by the topology script *)
Record fence := mkFence {
  f_Map : string;
  f_Owner : string;
  f_Epoch : num
}.


(** A value of the hash [global_sessions]; [ss_Version] is printed by Go or by Lua *)
Record stored_session := mkStoredSession {
  ss_Username : string;
  ss_MapID : string;
  ss_NodeID : string;
  ss_Version : num
}.

Definition set_ss_move (v0 : string) (v1 : num) (r : stored_session) : stored_session :=
  mkStoredSession (ss_Username r) (ss_MapID r) v0 v1.


(** The keys of the program.  Leases carry the server time at which they expire; [r_unpack]
    is the number of results Lua's [unpack] can return on the server's stack *)
Record Redis := mkRedis {
  r_topology : option (doc Topology);
  r_fences : gmap string (doc fence);
  r_sessions : gmap string (doc stored_session);
  r_checkpoints : gmap string (doc MapCheckpoint);
  r_hot : gmap string HotSession;
  r_term : option Z;
  r_lease : option (string * Z);
  r_nodes : gmap string (doc NodeRegistryInfo * Z);
  r_boss_hp : option Z;
  r_boss_state : option (doc BossState);
  r_boss_lock : option Z;
  r_published : list (string * string);
  r_clock : Z;
  r_unpack : nat
}.

Definition set_r_topology (v0 : option (doc Topology)) (r : Redis) : Redis :=
  mkRedis v0 (r_fences r) (r_sessions r) (r_checkpoints r) (r_hot r) (r_term r) (r_lease r) (r_nodes r) (r_boss_hp r) (r_boss_state r) (r_boss_lock r) (r_published r) (r_clock r) (r_unpack r).
Definition set_r_fences (v0 : gmap string (doc fence)) (r : Redis) : Redis :=
  mkRedis (r_topology r) v0 (r_sessions r) (r_checkpoints r) (r_hot r) (r_term r) (r_lease r) (r_nodes r) (r_boss_hp r) (r_boss_state r) (r_boss_lock r) (r_published r) (r_clock r) (r_unpack r).
Definition set_r_sessions (v0 : gmap string (doc stored_session)) (r : Redis) : Redis :=
  mkRedis (r_topology r) (r_fences r) v0 (r_checkpoints r) (r_hot r) (r_term r) (r_lease r) (r_nodes r) (r_boss_hp r) (r_boss_state r) (r_boss_lock r) (r_published r) (r_clock r) (r_unpack r).
Definition set_r_checkpoints (v0 : gmap string (doc MapCheckpoint)) (r : Redis) : Redis :=
  mkRedis (r_topology r) (r_fences r) (r_sessions r) v0 (r_hot r) (r_term r) (r_lease r) (r_nodes r) (r_boss_hp r) (r_boss_state r) (r_boss_lock r) (r_published r) (r_clock r) (r_unpack r).
Definition set_r_hot (v0 : gmap string HotSession) (r : Redis) : Redis :=
  mkRedis (r_topology r) (r_fences r) (r_sessions r) (r_checkpoints r) v0 (r_term r) (r_lease r) (r_nodes r) (r_boss_hp r) (r_boss_state r) (r_boss_lock r) (r_published r) (r_clock r) (r_unpack r).
Definition set_r_term (v0 : option Z) (r : Redis) : Redis :=
  mkRedis (r_topology r) (r_fences r) (r_sessions r) (r_checkpoints r) (r_hot r) v0 (r_lease r) (r_nodes r) (r_boss_hp r) (r_boss_state r) (r_boss_lock r) (r_published r) (r_clock r) (r_unpack r).
Definition set_r_lease (v0 : option (string * Z)) (r : Redis) : Redis :=
  mkRedis (r_topology r) (r_fences r) (r_sessions r) (r_checkpoints r) (r_hot r) (r_term r) v0 (r_nodes r) (r_boss_hp r) (r_boss_state r) (r_boss_lock r) (r_published r) (r_clock r) (r_unpack r).
Definition set_r_nodes (v0 : gmap string (doc NodeRegistryInfo * Z)) (r : Redis) : Redis :=
  mkRedis (r_topology r) (r_fences r) (r_sessions r) (r_checkpoints r) (r_hot r) (r_term r) (r_lease r) v0 (r_boss_hp r) (r_boss_state r) (r_boss_lock r) (r_published r) (r_clock r) (r_unpack r).
Definition set_r_boss_hp (v0 : option Z) (r : Redis) : Redis :=
  mkRedis (r_topology r) (r_fences r) (r_sessions r) (r_checkpoints r) (r_hot r) (r_term r) (r_lease r) (r_nodes r) v0 (r_boss_state r) (r_boss_lock r) (r_published r) (r_clock r) (r_unpack r).
Definition set_r_boss_state (v0 : option (doc BossState)) (r : Redis) : Redis :=
  mkRedis (r_topology r) (r_fences r) (r_sessions r) (r_checkpoints r) (r_hot r) (r_term r) (r_lease r) (r_nodes r) (r_boss_hp r) v0 (r_boss_lock r) (r_published r) (r_clock r) (r_unpack r).
Definition set_r_boss_lock (v0 : option Z) (r : Redis) : Redis :=
  mkRedis (r_topology r) (r_fences r) (r_sessions r) (r_checkpoints r) (r_hot r) (r_term r) (r_lease r) (r_nodes r) (r_boss_hp r) (r_boss_state r) v0 (r_published r) (r_clock r) (r_unpack r).
Definition set_r_published (v0 : list (string * string)) (r : Redis) : Redis :=
  mkRedis (r_topology r) (r_fences r) (r_sessions r) (r_checkpoints r) (r_hot r) (r_term r) (r_lease r) (r_nodes r) (r_boss_hp r) (r_boss_state r) (r_boss_lock r) v0 (r_clock r) (r_unpack r).
Definition set_r_clock (v0 : Z) (r : Redis) : Redis :=
  mkRedis (r_topology r) (r_fences r) (r_sessions r) (r_checkpoints r) (r_hot r) (r_term r) (r_lease r) (r_nodes r) (r_boss_hp r) (r_boss_state r) (r_boss_lock r) (r_published r) v0 (r_unpack r).
Definition set_r_unpack (v0 : nat) (r : Redis) : Redis :=
  mkRedis (r_topology r) (r_fences r) (r_sessions r) (r_checkpoints r) (r_hot r) (r_term r) (r_lease r) (r_nodes r) (r_boss_hp r) (r_boss_state r) (r_boss_lock r) (r_published r) (r_clock r) v0.

(** A key with an expiry is there until the clock reaches it. *)
Definition live {A} (r : Redis) (o : option (A * Z)) : option A :=
  match o with
  | Some (a, expiry) => if r_clock r <? expiry then Some a else None
  | None => None
  end.

(** ** One command of a client *)

(** What the network does to a command: executed and answered, not executed, or
    executed but the answer is lost. *)
Inductive fault := F_ok | F_lost | F_noreply.

(** The connection of a client: the server, the faults its commands will meet,
    and what the other clients and the clock do before each of them. *)
Record Net := mkNet {
  n_redis : Redis;
  n_fault : nat -> fault;
  n_other : nat -> Redis -> Redis;
  n_pos : nat
}.

Abbreviation RM := (ST Net).

(** [None] is an error of the command, which the client cannot tell from one
    that took effect. *)
Definition cmd {A} (f : Redis -> A * Redis) : RM (option A) := fun s =>
  let r := n_other s (n_pos s) (n_redis s) in
  let next r' := mkNet r' (n_fault s) (n_other s) (S (n_pos s)) in
  match n_fault s (n_pos s) with
  | F_ok => let '(a, r') := f r in Some (Some a, next r')
  | F_lost => Some (None, next r)
  | F_noreply => let '(_, r') := f r in Some (None, next r')
  end.

Definition read {A} (f : Redis -> A) : RM (option A) := cmd (fun r => (f r, r)).
Definition write (f : Redis -> Redis) : RM (option unit) := cmd (fun r => (tt, f r)).

(** Go's "if err != nil { return err }". *)
Definition try {S A B E} (m : ST S (E + A)) (k : A -> ST S (E + B)) : ST S (E + B) :=
  r ← m;
  match r with
  | inl err => mret (inl err)
  | inr a => k a
  end.
Notation "x ←! m ; k" := (try m (fun x => k)) (at level 20, m at level 100, k at level 200, only parsing) : go_scope.

Definition fail {S A E} (err : E) : ST S (E + A) := mret (inl err).
Definition ok {S A E} (a : A) : ST S (E + A) := mret (inr a).

(** A command whose error is reported as [err]. *)
Definition orErr {S A E} (err : E) (m : ST S (option A)) : ST S (E + A) :=
  o ← m;
  match o with
  | Some a => mret (inr a)
  | None => mret (inl err)
  end.

(** ** Rules for reasoning about a client *)

(** The server as the next command of the client finds it. *)
Definition seen (s : Net) : Redis := n_other s (n_pos s) (n_redis s).

(** The connection after the next command left the server in state [r]. *)
Definition after (s : Net) (r : Redis) : Net := mkNet r (n_fault s) (n_other s) (S (n_pos s)).

Section client_rules.
Context {A : Type}.

Lemma wp_cmd (f : Redis -> A * Redis) (Q : option A -> Net -> Prop) s :
  (n_fault s (n_pos s) = F_ok -> Q (Some (f (seen s)).1) (after s (f (seen s)).2)) ->
  (n_fault s (n_pos s) = F_lost -> Q None (after s (seen s))) ->
  (n_fault s (n_pos s) = F_noreply -> Q None (after s (f (seen s)).2)) ->
  wp (cmd f) Q s.
Proof.
  intros H1 H2 H3. unfold wp, cmd, seen, after in *. cbn.
  destruct (n_fault s (n_pos s)); destruct (f _); auto.
Qed.

Lemma wp_read (f : Redis -> A) (Q : option A -> Net -> Prop) s :
  (forall o, o = None \/ o = Some (f (seen s)) -> Q o (after s (seen s))) -> wp (read f) Q s.
Proof. intros H. apply wp_cmd; intros _; apply H; auto. Qed.

Lemma wp_orErr {S E} (err : E) (m : ST S (option A)) (Q : E + A -> S -> Prop) s :
  wp m (fun o s' => Q (match o with Some a => inr a | None => inl err end) s') s -> wp (orErr err m) Q s.
Proof. intros H. unfold orErr. apply wp_bind. eapply wp_mono; [exact H|]. by intros [a|] s' HQ. Qed.

Lemma wp_try {S B E} (m : ST S (E + A)) (k : A -> ST S (E + B)) (Q : E + B -> S -> Prop) s :
  wp m (fun r s' => match r with inl err => Q (inl err) s' | inr a => wp (k a) Q s' end) s -> wp (try m k) Q s.
Proof. intros H. unfold try. apply wp_bind. eapply wp_mono; [exact H|]. by intros [err|a] s' HQ. Qed.
End client_rules.

Lemma wp_fail {S A E} (err : E) (Q : E + A -> S -> Prop) s : Q (inl err) s -> wp (fail err) Q s.
Proof. done. Qed.

Lemma wp_ok {S A E} (a : A) (Q : E + A -> S -> Prop) s : Q (inr a) s -> wp (ok a) Q s.
Proof. done. Qed.

(** Symbolic execution of fallible code. *)
Ltac rm_step :=
  lazymatch goal with
  | |- wp (try _ _) _ _ => apply wp_try
  | |- wp (orErr _ _) _ _ => apply wp_orErr
  | |- wp (fail _) _ _ => apply wp_fail
  | |- wp (ok _) _ _ => apply wp_ok
  | _ => wp_step
  end.
Ltac rm_steps := repeat rm_step.

Lemma wp_write (f : Redis -> Redis) (Q : option unit -> Net -> Prop) s :
  (Q (Some tt) (after s (f (seen s)))) ->
  (forall r, r = seen s \/ r = f (seen s) -> Q None (after s r)) -> wp (write f) Q s.
Proof. intros H1 H2. apply wp_cmd; intros _; cbn; auto. Qed.

(** ** Lua numbers in their exact range *)

Lemma lua_print_small z : Z.abs z < 10^14 -> lua_print z = Int z.
Proof. intros H. unfold lua_print. by rewrite (proj2 (Z.ltb_lt _ _) H). Qed.

Lemma lua_number_small z : Z.abs z < 10^14 -> lua_number (Int z) = z.
Proof. intros H. apply f64_exact. lia. Qed.

Lemma lua_tostring_small z e : Z.abs z < 10^14 -> lua_tostring_is (Int z) e = true <-> z = e.
Proof.
  intros H. unfold lua_tostring_is. rewrite lua_number_small, lua_print_small by done. apply Z.eqb_eq.
Qed.

Example lua_print_ex : lua_print 1234567890123456 = Exp 1234567890123500.
Proof. reflexivity. Qed.
