(* ===== verification/Store.v ===== *)
(** * Storage: fenced topology, sessions, registry and boss

    [storage/store.go].  Every method that talks to Redis is a program of single
    commands ([cmd]); the embedded Lua scripts are functions on the server state,
    because Redis runs a script atomically.  A script that raises an error keeps
    the writes it made before. *)

From Stdlib Require Import ZArith Lia String.
From stdpp Require Import base sorting gmap strings list option.
From S2P Require Import Prelude Protocol Maps World WorldOps Topology Redis.

Open Scope Z_scope.
Open Scope go_scope.

(** ** Sessions *)

(** [storage.GlobalSession] *)
Record GlobalSession := mkGlobalSession {
  gs_Username : string;
  gs_MapID : string;
  gs_NodeID : string;
  gs_Version : Z
}.

Definition decode_session (d : doc stored_session) : option GlobalSession :=
  match d with
  | Good s =>
      match ss_Version s with
      | Int v => Some (mkGlobalSession (ss_Username s) (ss_MapID s) (ss_NodeID s) v)
      | Exp _ => None
      end
  | Corrupt => None
  end.

Definition encode_session (s : GlobalSession) : doc stored_session :=
  Good (mkStoredSession (gs_Username s) (gs_MapID s) (gs_NodeID s) (Int (gs_Version s))).

Definition SaveGlobalSession (session : GlobalSession) : RM (store_err + unit) :=
  orErr ErrRedis (write (fun r => set_r_sessions (<[gs_Username session := encode_session session]> (r_sessions r)) r)).

(** [None] is Go's [false]: absent, undecodable or unreachable. *)
Definition LoadGlobalSession (username : string) : RM (option GlobalSession) :=
  o ← read (fun r => r_sessions r !! username);
  mret (match o with
        | Some (Some d) => decode_session d
        | _ => None
        end).

Definition DeleteGlobalSession (username : string) : RM (store_err + unit) :=
  orErr ErrRedis (write (fun r => set_r_sessions (delete username (r_sessions r)) r)).

(** The order of the result is the iteration order [order] of Go's map. *)
Definition GetAllGlobalSessions (order : list string -> list string) : RM (store_err + list GlobalSession) :=
  result ←! orErr ErrRedis (read r_sessions);
  ok (omap (fun k => result !! k ≫= decode_session) (order (map_keys result))).

Definition SaveHotSession (session : HotSession) : RM (store_err + unit) :=
  orErr ErrRedis (write (fun r => set_r_hot (<[hs_Username session := session]> (r_hot r)) r)).

Definition DeleteHotSession (username : string) : RM (store_err + unit) :=
  orErr ErrRedis (write (fun r => set_r_hot (delete username (r_hot r)) r)).

(** ** Checkpoints and the map fence *)

Definition SaveCheckpoint (cp : MapCheckpoint) : RM (store_err + unit) :=
  orErr ErrRedis (write (fun r => set_r_checkpoints (<[cp_MapID cp := Good cp]> (r_checkpoints r)) r)).

(** The script [saveCheckpointIfOwner]. *)
Definition saveCheckpointIfOwner (cp : MapCheckpoint) (nodeID : string) (epoch : Z) (r : Redis) : Z * Redis :=
  match r_fences r !! cp_MapID cp with
  | None => (0, r)
  | Some Corrupt => (-1, r)
  | Some (Good decoded) =>
      if negb (bool_decide (f_Owner decoded = nodeID)) || negb (lua_tostring_is (f_Epoch decoded) epoch)
      then (0, r)
      else (1, set_r_checkpoints (<[cp_MapID cp := Good cp]> (r_checkpoints r)) r)
  end.

Definition SaveCheckpointIfOwner (cp : MapCheckpoint) (nodeID : string) (epoch : Z) : RM (store_err + unit) :=
  if bool_decide (cp_MapID cp = "") || bool_decide (nodeID = "") || (epoch =? 0) then fail ErrCheckpointArgs else
  if negb (bool_decide (cp_NodeID cp = nodeID)) || negb (cp_MapEpoch cp =? epoch) then fail ErrCheckpointMismatch else
  result ←! orErr ErrRedis (cmd (saveCheckpointIfOwner cp nodeID epoch));
  if negb (result =? 1) then fail ErrMapFenceRejected else ok tt.

(** The fence document as Go decodes it: the epoch must be a [uint64] literal. *)
Definition decode_fence (d : doc fence) : option (string * Z) :=
  match d with
  | Good f =>
      match f_Epoch f with
      | Int e => if (0 <=? e) && (e <? 2^64) then Some (f_Owner f, e) else None
      | Exp _ => None
      end
  | Corrupt => None
  end.

Definition RequireMapFence (mapID nodeID : string) (epoch : Z) : RM (store_err + unit) :=
  if bool_decide (mapID = "") || bool_decide (nodeID = "") || (epoch =? 0) then fail ErrMapFenceRejected else
  o ← read (fun r => r_fences r !! mapID);
  match o with
  | Some (Some d) =>
      match decode_fence d with
      | Some (owner, e) =>
          if negb (bool_decide (owner = nodeID)) || negb (e =? epoch) then fail ErrMapFenceRejected else ok tt
      | None => fail ErrMapFenceRejected
      end
  | _ => fail ErrMapFenceRejected
  end.

Definition LoadCheckpoint (mapID : string) : RM (option MapCheckpoint) :=
  o ← read (fun r => r_checkpoints r !! mapID);
  mret (match o with
        | Some (Some (Good cp)) => Some cp
        | _ => None
        end).

(** ** The topology document *)

(** [inr None] is "not found". *)
Definition LoadTopology : RM (store_err + option Topology) :=
  data ←! orErr ErrRedis (read r_topology);
  match data with
  | None => ok None
  | Some Corrupt => fail ErrTopologyCorrupt
  | Some (Good topology) =>
      match Validate None topology with
      | Some _ => fail ErrTopologyCorrupt
      | None => ok (Some (Normalize topology))
      end
  end.

(** [storage.sessionMigration] *)
Record sessionMigration := mkSessionMigration {
  sm_MapID : string;
  sm_OldNodeID : string;
  sm_NewNodeID : string
}.

(** What a script answers. *)
Inductive reply := Reply (code : Z) | ScriptError.

(** The check of one map of the stored topology: [true] when the transition to
    [next] is allowed. *)
Definition epoch_step_ok (cur next : Topology) (mapID : string) (currentEpoch : Z) : bool :=
  match t_MapEpochs next !! mapID with
  | None => false
  | Some nextEpoch =>
      let currentOwner := default "" (t_Owners cur !! mapID) in
      let nextOwner := default "" (t_Owners next !! mapID) in
      if negb (bool_decide (currentOwner = nextOwner))
      then f64 nextEpoch =? f64 (f64 currentEpoch + 1)
      else f64 nextEpoch =? f64 currentEpoch
  end.

Definition epochs_ok (cur next : Topology) : bool :=
  forallb (fun '(mapID, currentEpoch) => epoch_step_ok cur next mapID currentEpoch) (map_to_list (t_MapEpochs cur))
  && forallb (fun '(mapID, nextEpoch) =>
       match t_MapEpochs cur !! mapID with Some _ => true | None => f64 nextEpoch =? 1 end)
       (map_to_list (t_MapEpochs next)).

(** The codes the script can return before it writes; [None] lets it go on. *)
Definition cas_guard (expectedVersion : Z) (next : Topology) (leaderTerm : Z) (r : Redis) : option Z :=
  let durableTerm := f64 (default 0 (r_term r)) in
  if negb (leaderTerm =? 0)
     && ((durableTerm =? 0) || negb (durableTerm =? f64 leaderTerm) || negb (f64 (t_LeaderTerm next) =? durableTerm))
  then Some (-4) else
  match r_topology r with
  | None => if negb (expectedVersion =? 0) then Some 0 else None
  | Some Corrupt => Some (-1)
  | Some (Good decoded) =>
      if f64 (t_Version decoded) <? 1 then Some (-1) else
      if negb (f64 (t_Version decoded) =? f64 expectedVersion) then Some 0 else
      if f64 (t_LeaderTerm next) <? f64 (t_LeaderTerm decoded) then Some (-4) else
      if epochs_ok decoded next then None else Some (-3)
  end.

Definition moves (migration : sessionMigration) (s : stored_session) : bool :=
  bool_decide (ss_MapID s = sm_MapID migration) && bool_decide (ss_NodeID s = sm_OldNodeID migration).

Definition migrate (migration : sessionMigration) (s : stored_session) : stored_session :=
  set_ss_move (sm_NewNodeID migration) (lua_print (f64 (lua_number (ss_Version s) + 1))) s.

(** The sessions the script rewrites; [None] when one of them is corrupt. *)
Definition session_updates (migration : option sessionMigration) (r : Redis)
    : option (gmap string (doc stored_session)) :=
  match migration with
  | None => Some ∅
  | Some m =>
      if forallb (fun d => match d with Good _ => true | Corrupt => false end) (values (r_sessions r))
      then Some (omap (fun d => match d with
                                | Good s => if moves m s then Some (Good (migrate m s)) else None
                                | Corrupt => None
                                end) (r_sessions r))
      else None
  end.

Definition write_fences (next : Topology) (mapIDs : list string) (fences : gmap string (doc fence))
    : gmap string (doc fence) :=
  foldl (fun m mapID =>
      <[mapID := Good (mkFence mapID (default "" (t_Owners next !! mapID))
                         (lua_print (f64 (default 0 (t_MapEpochs next !! mapID)))))]> m) fences mapIDs.

(** The script [compareAndSetTopology]. *)
Definition compareAndSetTopology (expectedVersion : Z) (next : Topology) (migration : option sessionMigration)
    (leaderTerm : Z) (mapIDs : list string) (r : Redis) : reply * Redis :=
  match cas_guard expectedVersion next leaderTerm r with
  | Some code => (Reply code, r)
  | None =>
      match session_updates migration r with
      | None => (Reply (-2), r)
      | Some updates =>
          let r1 := set_r_topology (Some (Good next)) r in
          let r2 := set_r_fences (write_fences next mapIDs (r_fences r1)) r1 in
          if bool_decide (updates = ∅) then (Reply 1, r2)
          else if (2 * size updates <=? r_unpack r)%nat
          then (Reply 1, set_r_sessions (updates ∪ r_sessions r2) r2)
          else (ScriptError, r2)
      end
  end.

Definition cas_result (result : reply) : store_err + unit :=
  match result with
  | ScriptError => inl ErrRedis
  | Reply 1 => inr tt
  | Reply (-1) => inl ErrTopologyCorrupt
  | Reply (-2) => inl ErrGlobalSessionCorrupt
  | Reply (-3) => inl ErrMapEpochInvariant
  | Reply (-4) => inl ErrLeaderTermInvariant
  | Reply _ => inl ErrTopologyVersionConflict
  end.

Definition compareAndSaveTopology (expectedVersion : Z) (next : Topology) (migration : option sessionMigration)
    (leaderTerm : Z) : RM (store_err + unit) :=
  match prepareTopology next with
  | inl err => fail err
  | inr prepared =>
      if (expectedVersion =? 0) && negb (t_Version prepared =? 1) then fail (ErrInitialVersion (t_Version prepared)) else
      if negb (expectedVersion =? 0) && negb (t_Version prepared =? expectedVersion +u 1)
      then fail (ErrNextVersion (expectedVersion +u 1) (t_Version prepared)) else
      let mapIDs := sort_strings (elements (dom (t_Owners prepared))) in
      result ←! orErr ErrRedis (cmd (compareAndSetTopology expectedVersion prepared migration leaderTerm mapIDs));
      mret (cas_result result)
  end.

Definition CompareAndSaveTopology (expectedVersion : Z) (next : Topology) : RM (store_err + unit) :=
  compareAndSaveTopology expectedVersion next None 0.

Definition CompareAndSaveTopologyForLeader (expectedVersion : Z) (next : Topology) (term : Z) : RM (store_err + unit) :=
  if (term =? 0) || negb (t_LeaderTerm next =? term) then fail ErrLeaderTermInvariant
  else compareAndSaveTopology expectedVersion next None term.

Definition migration_args_bad (mapID oldNodeID newNodeID : string) : bool :=
  bool_decide (mapID = "") || bool_decide (oldNodeID = "") || bool_decide (newNodeID = "").

Definition CompareAndSaveTopologyAndMigrateSessions (expectedVersion : Z) (next : Topology)
    (mapID oldNodeID newNodeID : string) : RM (store_err + unit) :=
  if migration_args_bad mapID oldNodeID newNodeID then fail ErrMigrationArgs
  else compareAndSaveTopology expectedVersion next (Some (mkSessionMigration mapID oldNodeID newNodeID)) 0.

Definition CompareAndSaveTopologyAndMigrateSessionsForLeader (expectedVersion : Z) (next : Topology) (term : Z)
    (mapID oldNodeID newNodeID : string) : RM (store_err + unit) :=
  if (term =? 0) || negb (t_LeaderTerm next =? term) then fail ErrLeaderTermInvariant
  else if migration_args_bad mapID oldNodeID newNodeID then fail ErrMigrationArgs
  else compareAndSaveTopology expectedVersion next (Some (mkSessionMigration mapID oldNodeID newNodeID)) term.

Definition SaveTopology (topology : Topology) : RM (store_err + unit) :=
  found ←! LoadTopology;
  match found with
  | None => CompareAndSaveTopology 0 topology
  | Some current => CompareAndSaveTopology (t_Version current) topology
  end.

Definition PublishTopologyChanged (version : Z) : RM (store_err + unit) :=
  if version =? 0 then fail ErrEventVersion
  else orErr ErrRedis (write (fun r =>
         set_r_published (r_published r ++ [(TopologyEventChannel, itoa version)]) r)).

Definition PublishEvent (channel event : string) : RM (store_err + unit) :=
  orErr ErrRedis (write (fun r => set_r_published (r_published r ++ [(channel, event)]) r)).

(** ** The node registry *)

Definition RegisterNode (info : NodeRegistryInfo) (ttl : Z) : RM (store_err + unit) :=
  orErr ErrRedis (write (fun r => set_r_nodes (<[nr_ID info := (Good info, r_clock r + ttl)]> (r_nodes r)) r)).

Definition live_nodes (r : Redis) : list string :=
  filter (fun k => is_Some (live r (r_nodes r !! k))) (map_keys (r_nodes r)).

(** [scan] is what the SCAN iteration makes of the live keys: their order, and
    possibly repetitions; then one GET per key. *)
Definition GetActiveNodes (scan : list string -> list string) : RM (store_err + list NodeRegistryInfo) :=
  ks ←! orErr ErrRedis (read (fun r => scan (live_nodes r)));
  nodes ← foldM (fun nodes k =>
      o ← read (fun r => live r (r_nodes r !! k));
      mret (match o with
            | Some (Some (Good info)) => nodes ++ [info]
            | _ => nodes
            end)) [] ks;
  ok nodes.

(** ** The world boss *)

Definition LoadGlobalBoss : RM (store_err + BossState * Z) :=
  hpStr ←! orErr ErrRedis (read r_boss_hp);
  match hpStr with
  | None => fail ErrGlobalBossNotInitialized
  | Some hp =>
      if (hp <? - 2^31) || (2^31 <=? hp) then fail ErrDecode else
      stateJson ←! orErr ErrRedis (read r_boss_state);
      match stateJson with
      | None => fail ErrRedis
      | Some Corrupt => fail ErrDecode
      | Some (Good state) => ok (state, hp)
      end
  end.

Definition InitGlobalBoss (hp : Z) (state : BossState) : RM (store_err + unit) :=
  orErr ErrRedis (write (fun r => set_r_boss_state (Some (Good state)) (set_r_boss_hp (Some hp) r))).

Definition SaveGlobalBoss (state : BossState) : RM (store_err + unit) :=
  orErr ErrRedis (write (fun r => set_r_boss_state (Some (Good state)) r)).

(** The reply of the attack script: three elements, two elements, or an error. *)
Inductive boss_reply :=
  | BossDown (state : option (doc BossState))
  | BossHit (newHp : Z) (isKiller : bool)
  | BossScriptError.

(** A Lua number passed to a command is printed with 17 digits; DECRBY refuses a
    decrement that is not an integer literal and an overflowing result. *)
Definition attack_script (damage : Z) (r : Redis) : boss_reply * Redis :=
  let d := f64 damage in
  let hp := default 0 (r_boss_hp r) in
  if f64 hp <=? 0 then (BossDown (r_boss_state r), r) else
  if (10^17 <=? Z.abs d) || negb (bool_decide (- 2^63 <= hp - d < 2^63)) then (BossScriptError, r) else
  let newHp := f64 (hp - d) in
  let r := set_r_boss_hp (Some (hp - d)) r in
  if (newHp <=? 0) && (0 <? f64 (newHp + d))
  then (BossHit 0 true, set_r_boss_hp (Some 0) r)
  else (BossHit newHp false, r).

(** Panics when the reply has no boss state to convert to a string. *)
Definition AtomicAttackBoss (username : string) (damage : Z) : RM (store_err + Z * bool * BossState) :=
  res ←! orErr ErrRedis (cmd (attack_script damage));
  match res with
  | BossScriptError => fail ErrRedis
  | BossDown None => panic
  | BossDown (Some Corrupt) => ok (-1, false, zero_BossState)
  | BossDown (Some (Good state)) => ok (-1, false, state)
  | BossHit newHp isKiller => ok (i32 newHp, isKiller, zero_BossState)
  end.

Definition TryLockBossRespawn : RM bool :=
  o ← cmd (fun r =>
      match live r ((fun e => (tt, e)) <$> r_boss_lock r) with
      | Some _ => (false, r)
      | None => (true, set_r_boss_lock (Some (r_clock r + 10 * Second)) r)
      end);
  mret (default false o).
