(* ===== verification/StoreProps.v ===== *)
(** * Storage: atomic topology changes and fencing

    The topology script against its contract, the transitions it allows, the
    invariant that ties fences to the topology, and the consequence the fences are
    there for: a former owner of a map can never write to it again. *)

From Stdlib Require Import ZArith Lia String.
From stdpp Require Import base sorting gmap strings list option relations.
From S2P Require Import Prelude Protocol Maps World WorldOps Topology Redis Store.

Open Scope Z_scope.
Open Scope go_scope.

(** ** Specifications *)

(** Versions, terms and epochs below the range where Lua's number printing
    rounds. *)
Record small_topology (t : Topology) : Prop := {
  st_version : 0 <= t_Version t < 10^14;
  st_term : 0 <= t_LeaderTerm t < 10^14;
  st_epoch : forall m e, t_MapEpochs t !! m = Some e -> 0 <= e < 10^14
}.

(** The transitions between stored topologies that the script allows. *)
Record allowed (cur next : Topology) : Prop := {
  al_version : t_Version next = t_Version cur + 1;
  al_term : t_LeaderTerm cur <= t_LeaderTerm next;
  al_kept : forall m e, t_MapEpochs cur !! m = Some e ->
    exists e', t_MapEpochs next !! m = Some e' /\
      (default "" (t_Owners cur !! m) = default "" (t_Owners next !! m) -> e' = e) /\
      (default "" (t_Owners cur !! m) <> default "" (t_Owners next !! m) -> e' = e + 1);
  al_new : forall m e', t_MapEpochs cur !! m = None -> t_MapEpochs next !! m = Some e' -> e' = 1
}.

(** The condition under which the script commits in state [r]. *)
Definition may_commit (expectedVersion : Z) (next : Topology) (leaderTerm : Z) (r : Redis) : Prop :=
  (leaderTerm <> 0 -> r_term r = Some leaderTerm /\ t_LeaderTerm next = leaderTerm) /\
  match r_topology r with
  | None => expectedVersion = 0
  | Some Corrupt => False
  | Some (Good cur) => t_Version cur = expectedVersion /\ 1 <= t_Version cur /\ allowed cur next
  end.

(** The session map after a migration. *)
Definition migrated (migration : option sessionMigration) (d : doc stored_session) : doc stored_session :=
  match migration, d with
  | Some m, Good s => if moves m s then Good (migrate m s) else d
  | _, _ => d
  end.

(** The state a committed change leaves: the topology, the fences of all maps it
    gives an owner, and the moved sessions; nothing else. *)
Definition committed (next : Topology) (migration : option sessionMigration) (r r' : Redis) : Prop :=
  (exists fences', r' = set_r_sessions (migrated migration <$> r_sessions r)
                          (set_r_fences fences' (set_r_topology (Some (Good next)) r)) /\
     forall m, fences' !! m = match t_Owners next !! m with
                              | Some o => Some (Good (mkFence m o (Int (default 0 (t_MapEpochs next !! m)))))
                              | None => r_fences r !! m
                              end).

(** The fences agree with the stored topology: a map with an owner entry is
    fenced at exactly that owner and epoch; any other fence is older. *)
Definition fences_inv (r : Redis) : Prop :=
  match r_topology r with
  | None => r_fences r = ∅
  | Some Corrupt => False
  | Some (Good t) =>
      valid_topology None t /\ small_topology t /\
      (forall m d, r_fences r !! m = Some d -> exists o e te, d = Good (mkFence m o (Int e)) /\
         t_MapEpochs t !! m = Some te /\ 1 <= e /\ (e < te \/ e = te /\ default "" (t_Owners t !! m) = o)) /\
      (forall m o, t_Owners t !! m = Some o -> exists te, t_MapEpochs t !! m = Some te /\
         r_fences r !! m = Some (Good (mkFence m o (Int te))))
  end.

(** What everything but the topology and checkpoint scripts may do: sessions, the
    registry, the boss, the clock, and the leader lease, whose term only grows. *)
Definition undisturbed (r r' : Redis) : Prop :=
  r_topology r' = r_topology r /\ r_fences r' = r_fences r /\ r_checkpoints r' = r_checkpoints r /\
  default 0 (r_term r) <= default 0 (r_term r').

(** The server under any number of clients that go through the store. *)
Inductive redis_step : Redis -> Redis -> Prop :=
  | rs_cas expectedVersion next migration leaderTerm mapIDs r :
      prepareTopology next = inr next -> small_topology next ->
      (expectedVersion = 0 /\ t_Version next = 1 \/ t_Version next = expectedVersion + 1) ->
      mapIDs = sort_strings (elements (dom (t_Owners next))) ->
      redis_step r (compareAndSetTopology expectedVersion next migration leaderTerm mapIDs r).2
  | rs_checkpoint cp nodeID epoch r : redis_step r (saveCheckpointIfOwner cp nodeID epoch r).2
  | rs_other r r' : undisturbed r r' -> redis_step r r'.

(** One fence against a later one of the same map. *)
Definition fence_le (f f' : fence) : Prop :=
  exists e e', f_Epoch f = Int e /\ f_Epoch f' = Int e' /\ 1 <= e /\ 1 <= e' < 10^14 /\ (e < e' \/ f' = f).

(** ** Lemmas on the script *)

Lemma f64_small z : 0 <= z < 10^14 -> f64 z = z.
Proof. intros H. apply f64_exact. lia. Qed.

Lemma f64_succ z : 0 <= z < 10^14 -> f64 (z + 1) = z + 1.
Proof. intros H. apply f64_exact. lia. Qed.

Lemma write_fences_lookup next l fences m :
  write_fences next l fences !! m =
  if decide (m ∈ l) then Some (Good (mkFence m (default "" (t_Owners next !! m))
                                      (lua_print (f64 (default 0 (t_MapEpochs next !! m))))))
  else fences !! m.
Proof.
  unfold write_fences. revert fences. induction l as [|k l IH]; intros fences; cbn [foldl]; [by destruct (decide (m ∈ [])) as [?%elem_of_nil|]|].
  rewrite IH. destruct (decide (m ∈ l)), (decide (m ∈ k :: l)) as [Hm|Hm].
  - done.
  - exfalso. apply Hm. by right.
  - apply elem_of_cons in Hm as [->|]; [|done]. by rewrite lookup_insert_eq.
  - rewrite lookup_insert_ne; [done|]. intros ->. apply Hm. left.
Qed.

Lemma write_fences_owners next fences m :
  small_topology next ->
  write_fences next (sort_strings (elements (dom (t_Owners next)))) fences !! m =
  match t_Owners next !! m with
  | Some o => Some (Good (mkFence m o (Int (default 0 (t_MapEpochs next !! m)))))
  | None => fences !! m
  end.
Proof.
  intros [_ _ He]. rewrite write_fences_lookup.
  assert (Hsmall : 0 <= default 0 (t_MapEpochs next !! m) < 10^14).
  { destruct (t_MapEpochs next !! m) eqn:E; cbn; [by eapply He|lia]. }
  rewrite f64_small, lua_print_small by (rewrite ?Z.abs_eq; lia).
  destruct (decide _) as [Hm|Hm]; rewrite elem_of_sort_strings, elem_of_elements, elem_of_dom in Hm.
  - destruct Hm as [o Ho]. by rewrite Ho.
  - destruct (t_Owners next !! m); [|done]. destruct Hm. eauto.
Qed.

Lemma epoch_step_spec cur next m e :
  small_topology cur -> small_topology next -> t_MapEpochs cur !! m = Some e ->
  epoch_step_ok cur next m e = true <->
  exists e', t_MapEpochs next !! m = Some e' /\
    (default "" (t_Owners cur !! m) = default "" (t_Owners next !! m) -> e' = e) /\
    (default "" (t_Owners cur !! m) <> default "" (t_Owners next !! m) -> e' = e + 1).
Proof.
  intros Hc Hn He. pose proof (st_epoch _ Hc _ _ He) as Hes. unfold epoch_step_ok.
  destruct (t_MapEpochs next !! m) as [e'|] eqn:He'; [|split; [done|by intros (? & ? & _)]].
  pose proof (st_epoch _ Hn _ _ He') as Hes'. rewrite (f64_small e), (f64_small e'), f64_succ by done.
  destruct (bool_decide_reflect (default "" (t_Owners cur !! m) = default "" (t_Owners next !! m))) as [Ho|Ho];
    cbn [negb]; rewrite Z.eqb_eq.
  - split; [intros ->; by exists e|]. intros (x & Hx & H & _). simplify_eq. auto.
  - split; [intros ->; by eexists|]. intros (x & Hx & _ & H). simplify_eq. auto.
Qed.

Lemma epochs_ok_spec cur next :
  small_topology cur -> small_topology next -> t_Version next = t_Version cur + 1 ->
  t_LeaderTerm cur <= t_LeaderTerm next ->
  epochs_ok cur next = true <-> allowed cur next.
Proof.
  intros Hc Hn Hv Ht. unfold epochs_ok. rewrite andb_true_iff, !forallb_forall. split.
  - intros [H1 H2]. constructor; [done|done| |].
    + intros m e He. specialize (H1 (m, e)). cbn in H1. apply epoch_step_spec; [done|done|done|].
      apply H1, list_elem_of_In, elem_of_map_to_list, He.
    + intros m e' Hnone He'. specialize (H2 (m, e')). cbn in H2. rewrite Hnone in H2.
      rewrite f64_small in H2 by (by eapply st_epoch). apply Z.eqb_eq, H2, list_elem_of_In, elem_of_map_to_list, He'.
  - intros [_ _ Hk Hnew]. split; intros [m e] Hin; apply list_elem_of_In, elem_of_map_to_list in Hin.
    + apply epoch_step_spec; auto.
    + destruct (t_MapEpochs cur !! m) eqn:E; [done|]. rewrite f64_small by (by eapply st_epoch).
      apply Z.eqb_eq. by eapply Hnew.
Qed.

(** The side conditions of a call that keep all numbers exact. *)
Record cas_small (expectedVersion : Z) (next : Topology) (leaderTerm : Z) (r : Redis) : Prop := {
  cs_next : small_topology next;
  cs_cur : forall cur, r_topology r = Some (Good cur) -> small_topology cur;
  cs_expected : 0 <= expectedVersion < 10^14;
  cs_version : t_Version next = expectedVersion + 1;
  cs_leader : 0 <= leaderTerm < 10^14;
  cs_term : forall t, r_term r = Some t -> 0 <= t < 10^14
}.

(** The script's test of the leader term comes first and is independent. *)
Lemma cas_guard_split expectedVersion next leaderTerm r :
  0 <= leaderTerm < 10^14 -> 0 <= t_LeaderTerm next < 10^14 -> (forall t, r_term r = Some t -> 0 <= t < 10^14) ->
  cas_guard expectedVersion next leaderTerm r = None <->
  (leaderTerm <> 0 -> r_term r = Some leaderTerm /\ t_LeaderTerm next = leaderTerm) /\
  cas_guard expectedVersion next 0 r = None.
Proof.
  intros Hl Hn Ht. unfold cas_guard at 1.
  assert (Hterm : 0 <= default 0 (r_term r) < 10^14) by (destruct (r_term r) eqn:E; cbn; [by apply Ht|lia]).
  rewrite (f64_small (default 0 (r_term r))), (f64_small leaderTerm), (f64_small (t_LeaderTerm next)) by done.
  destruct (Z.eqb_spec leaderTerm 0) as [->|Hl0]; cbn [negb andb].
  { unfold cas_guard. rewrite (f64_small (t_LeaderTerm next)) by done. cbn [negb andb Z.eqb].
    split; [intros ->; split; done|by intros [_ ?]]. }
  destruct (Z.eqb_spec (default 0 (r_term r)) 0) as [H0|H0]; cbn [orb].
  { split; [done|]. intros [H _]. destruct (H Hl0) as [E _]. rewrite E in H0. cbn in H0. lia. }
  destruct (Z.eqb_spec (default 0 (r_term r)) leaderTerm) as [H1|H1]; cbn [negb orb].
  2: { split; [done|]. intros [H _]. destruct (H Hl0) as [E _]. by rewrite E in H1. }
  destruct (Z.eqb_spec (t_LeaderTerm next) (default 0 (r_term r))) as [H2|H2]; cbn [negb].
  2: { split; [done|]. intros [H _]. destruct (H Hl0) as [E E2]. rewrite E in H2. by rewrite E2 in H2. }
  unfold cas_guard. rewrite (f64_small (t_LeaderTerm next)) by done. cbn [negb andb Z.eqb].
  split; [intros ->|by intros [_ ?]]. split; [|done]. intros _. split; [|congruence].
  destruct (r_term r); cbn in *; congruence.
Qed.

(** The rest of the guard compares the stored topology with the next one. *)
Lemma cas_guard_topology expectedVersion next r :
  small_topology next -> (forall cur, r_topology r = Some (Good cur) -> small_topology cur) ->
  0 <= expectedVersion < 10^14 -> t_Version next = expectedVersion + 1 ->
  cas_guard expectedVersion next 0 r = None <->
  match r_topology r with
  | None => expectedVersion = 0
  | Some Corrupt => False
  | Some (Good cur) => t_Version cur = expectedVersion /\ 1 <= t_Version cur /\ allowed cur next
  end.
Proof.
  intros Hn Hc He Hv. unfold cas_guard. cbn [negb andb Z.eqb]. pose proof (st_term _ Hn).
  rewrite (f64_small (t_LeaderTerm next)), (f64_small expectedVersion) by done.
  destruct (r_topology r) as [[cur|]|] eqn:Hcur.
  - pose proof (Hc cur eq_refl) as Hcs. pose proof (st_version _ Hcs). pose proof (st_term _ Hcs).
    rewrite (f64_small (t_Version cur)), (f64_small (t_LeaderTerm cur)) by done.
    destruct (Z.ltb_spec (t_Version cur) 1); [split; [done|intros (_ & ? & _); lia]|].
    destruct (Z.eqb_spec (t_Version cur) expectedVersion); cbn [negb]; [|split; [done|by intros (? & _)]].
    destruct (Z.ltb_spec (t_LeaderTerm next) (t_LeaderTerm cur));
      [split; [done|intros (_ & _ & [_ ? _ _]); lia]|].
    pose proof (epochs_ok_spec cur next Hcs Hn ltac:(lia) ltac:(lia)) as He'.
    destruct (epochs_ok cur next); split; try done.
    + intros _. split_and!; try done. by apply He'.
    + intros (_ & _ & H'%He'). done.
  - done.
  - destruct (Z.eqb_spec expectedVersion 0); cbn [negb]; split; try done.
Qed.

(** The guard of the script decides [may_commit]. *)
Lemma cas_guard_spec expectedVersion next leaderTerm r :
  cas_small expectedVersion next leaderTerm r ->
  cas_guard expectedVersion next leaderTerm r = None <-> may_commit expectedVersion next leaderTerm r.
Proof.
  intros [Hn Hc He Hv Hl Ht]. rewrite cas_guard_split by (done || apply Hn).
  by rewrite (cas_guard_topology expectedVersion next r Hn Hc He Hv).
Qed.

Lemma session_updates_migrated migration r updates :
  session_updates migration r = Some updates -> updates ∪ r_sessions r = migrated migration <$> r_sessions r.
Proof.
  unfold session_updates. destruct migration as [m|].
  - case_match; [|done]. intros [= <-]. apply map_eq. intros k.
    rewrite lookup_union, lookup_omap, lookup_fmap. destruct (r_sessions r !! k) as [[s|]|]; cbn; [|done|done].
    by destruct (moves m s).
  - intros [= <-]. rewrite (left_id_L ∅ (∪)). symmetry. rewrite <- (map_fmap_id (r_sessions r)) at 2.
    apply map_fmap_ext. by intros k [s|] _.
Qed.

(** How many values the script hands to [unpack]. *)
Definition unpacked (migration : option sessionMigration) (r : Redis) : nat :=
  match session_updates migration r with Some updates => 2 * size updates | None => 0 end.

(** The script's contract, for calls within the limit of [unpack]. *)
Lemma script_spec expectedVersion next migration leaderTerm r :
  cas_small expectedVersion next leaderTerm r -> (unpacked migration r <= r_unpack r)%nat ->
  match compareAndSetTopology expectedVersion next migration leaderTerm
          (sort_strings (elements (dom (t_Owners next)))) r with
  | (Reply code, r') => (code = 1 -> may_commit expectedVersion next leaderTerm r /\ committed next migration r r')
                        /\ (code <> 1 -> r' = r)
  | (ScriptError, _) => False
  end.
Proof.
  intros Hs Hu. pose proof (cas_guard_spec _ _ _ _ Hs) as Hg. unfold compareAndSetTopology.
  destruct (cas_guard expectedVersion next leaderTerm r) as [code|] eqn:Hguard.
  { split; [|done]. intros ->. revert Hguard. unfold cas_guard.
    repeat case_match; try done; by intros [=]. }
  assert (Hmay : may_commit expectedVersion next leaderTerm r) by by apply Hg.
  unfold unpacked in Hu. destruct (session_updates migration r) as [updates|] eqn:Hup; [|split; [done|done]].
  assert (Hcom : committed next migration r
    (set_r_sessions (updates ∪ r_sessions r)
       (set_r_fences (write_fences next (sort_strings (elements (dom (t_Owners next)))) (r_fences r))
          (set_r_topology (Some (Good next)) r)))).
  { eexists. split; [by rewrite (session_updates_migrated _ _ _ Hup)|].
    intros m. apply write_fences_owners, Hs. }
  case_bool_decide as He.
  - split; [|done]. intros _. split; [done|]. subst updates.
    rewrite (left_id_L ∅ (∪)) in Hcom. by destruct r.
  - rewrite (proj2 (Nat.leb_le _ _) Hu). by split.
Qed.

(** ** A small concrete cluster used by the witnesses *)

Definition demo_topology : Topology :=
  mkTopology 7 2 {["demo" := "node-a"; "cave" := "node-b"]} {["demo" := 3; "cave" := 1]} 50.
Definition demo_next : Topology :=
  mkTopology 8 2 {["demo" := "node-c"; "cave" := "node-b"]} {["demo" := 4; "cave" := 1]} 60.
Definition demo_fences : gmap string (doc fence) :=
  {["demo" := Good (mkFence "demo" "node-a" (Int 3)); "cave" := Good (mkFence "cave" "node-b" (Int 1))]}.
Definition demo_sessions : gmap string (doc stored_session) :=
  {["ann" := Good (mkStoredSession "ann" "demo" "node-a" (Int 5)); "bob" := Good (mkStoredSession "bob" "cave" "node-b" (Int 1))]}.
Definition demo_redis : Redis :=
  mkRedis (Some (Good demo_topology)) demo_fences demo_sessions ∅ ∅ (Some 2) None ∅ None None None [] 100 50.
Definition quiet (r : Redis) : Net := mkNet r (fun _ => F_ok) (fun _ r => r) 0.
Definition demo_move : sessionMigration := mkSessionMigration "demo" "node-a" "node-c".

Lemma map_Forall_pair {A} (P : string -> A -> Prop) k1 v1 k2 v2 :
  P k1 v1 -> P k2 v2 -> map_Forall P ({[k1 := v1; k2 := v2]} : gmap string A).
Proof. intros. by apply map_Forall_insert_2; [|apply map_Forall_singleton]. Qed.

Lemma demo_topology_small : small_topology demo_topology.
Proof.
  constructor; cbn [demo_topology t_Version t_LeaderTerm t_MapEpochs]; [lia|lia|].
  apply (map_Forall_pair (fun _ e => 0 <= e < 10^14)); lia.
Qed.

Lemma demo_next_small : small_topology demo_next.
Proof.
  constructor; cbn [demo_next t_Version t_LeaderTerm t_MapEpochs]; [lia|lia|].
  apply (map_Forall_pair (fun _ e => 0 <= e < 10^14)); lia.
Qed.

Lemma demo_cas_small : cas_small 7 demo_next 2 demo_redis.
Proof.
  constructor; [exact demo_next_small| |lia|reflexivity|lia|].
  - intros cur [= <-]. exact demo_topology_small.
  - intros t [= <-]. lia.
Qed.

(** ** Committing a topology *)

(** What a call may leave on the server, by its result. *)
Definition cas_outcome (expectedVersion : Z) (next : Topology) (migration : option sessionMigration) (leaderTerm : Z)
    (r : Redis) (result : store_err + unit) (r' : Redis) : Prop :=
  let done_ := may_commit expectedVersion next leaderTerm r /\ committed next migration r r' in
  match result with
  | inr _ => done_
  | inl ErrRedis => r' = r \/ done_
  | inl _ => r' = r
  end.

Lemma cas_result_inr code : cas_result (Reply code) = inr tt -> code = 1.
Proof. unfold cas_result. by repeat case_match. Qed.

Lemma cas_result_cases code : code = 1 \/ exists err, cas_result (Reply code) = inl err /\ err <> ErrRedis.
Proof. destruct (decide (code = 1)) as [|Hne]; [by left|]. right. unfold cas_result. repeat case_match; try done; eauto. Qed.

Lemma wp_cas expectedVersion next migration leaderTerm s (Q : store_err + unit -> Net -> Prop) :
  cas_small expectedVersion next leaderTerm (seen s) -> (unpacked migration (seen s) <= r_unpack (seen s))%nat ->
  (forall result s', (s' = s \/ exists r', s' = after s r') ->
     (result = inr tt -> valid_topology None next) ->
     (s' = s -> exists err, result = inl err /\ err <> ErrRedis) ->
     (forall r', s' = after s r' -> cas_outcome expectedVersion next migration leaderTerm (seen s) result r') -> Q result s') ->
  wp (compareAndSaveTopology expectedVersion next migration leaderTerm) Q s.
Proof.
  intros Hs Hu HQ. unfold compareAndSaveTopology.
  assert (Hearly : forall err, err <> ErrRedis -> wp (fail err : RM (store_err + unit)) Q s).
  { intros err He. apply wp_ret, HQ; [by left|done|eauto|].
    intros r' Heq. exfalso. apply (f_equal n_pos) in Heq. cbn in Heq. lia. }
  destruct (prepareTopology next) as [err|p] eqn:Hp.
  { apply Hearly. by eapply prepareTopology_err. }
  apply prepareTopology_inr in Hp as [-> Hvalid].
  destruct ((expectedVersion =? 0) && _); [by apply Hearly|].
  destruct (negb (expectedVersion =? 0) && _); [by apply Hearly|]. cbv zeta.
  apply wp_try, wp_orErr, wp_cmd; intros _; pose proof (script_spec _ _ _ _ _ Hs Hu) as Hspec;
    destruct (compareAndSetTopology _ _ _ _ _ _) as [[code|] r'] eqn:Hrun; cbn [fst snd]; try done.
  - apply wp_ret. destruct Hspec as [H1 Hne]. apply HQ; [eauto|done| |].
    + intros Heq. apply (f_equal n_pos) in Heq. cbn in Heq. lia.
    + intros r2 Heq. assert (r2 = r') as -> by (by injection Heq).
      destruct (cas_result_cases code) as [->|(err & Herr & Hnr)]; [by apply H1|].
      rewrite Herr. assert (code <> 1) as Hc1 by (intros ->; done). unfold cas_outcome. destruct err; try done; by apply Hne.
  - apply HQ; [eauto|done| |].
    + intros Heq. apply (f_equal n_pos) in Heq. cbn in Heq. lia.
    + intros r2 Heq. left. by injection Heq.
  - destruct Hspec as [H1 Hne]. apply HQ; [eauto|done| |].
    + intros Heq. apply (f_equal n_pos) in Heq. cbn in Heq. lia.
    + intros r2 Heq. assert (r2 = r') as -> by (by injection Heq). cbn.
      destruct (decide (code = 1)) as [->|Hc]; [right; by apply H1|left; by apply Hne].
Qed.

(** The script is not atomic beyond the limit of [unpack]: when a failover
    moves more sessions than that, the new topology and its fences are stored but
    no session is, and the coordinator is told that the change failed. *)
Lemma failover_half_commit expectedVersion next migration leaderTerm s :
  prepareTopology next = inr next -> t_Version next = expectedVersion + 1 -> 0 <= expectedVersion < 10^14 ->
  cas_guard expectedVersion next leaderTerm (seen s) = None ->
  session_updates migration (seen s) <> None -> (r_unpack (seen s) < unpacked migration (seen s))%nat ->
  exists s', compareAndSaveTopology expectedVersion next migration leaderTerm s = Some (inl ErrRedis, s') /\
    (n_fault s (n_pos s) <> F_lost ->
       r_topology (n_redis s') = Some (Good next) /\ r_sessions (n_redis s') = r_sessions (seen s)).
Proof.
  intros Hp Hv He Hg Hup Hu. unfold compareAndSaveTopology. rewrite Hp.
  assert (H1 : (expectedVersion =? 0) && negb (t_Version next =? 1) = false).
  { destruct (Z.eqb_spec expectedVersion 0); cbn; [|done]. rewrite Hv. subst. done. }
  assert (H2 : negb (expectedVersion =? 0) && negb (t_Version next =? expectedVersion +u 1) = false).
  { rewrite u64_id by (unfold in_u64; lia). rewrite Hv, Z.eqb_refl. apply andb_false_r. }
  rewrite H1, H2. cbv zeta.
  assert (Hrun : compareAndSetTopology expectedVersion next migration leaderTerm
      (sort_strings (elements (dom (t_Owners next)))) (seen s)
    = (ScriptError, set_r_fences (write_fences next (sort_strings (elements (dom (t_Owners next)))) (r_fences (seen s)))
                      (set_r_topology (Some (Good next)) (seen s)))).
  { unfold compareAndSetTopology, unpacked in *. rewrite Hg. destruct (session_updates migration (seen s)) as [u|]; [|done].
    rewrite bool_decide_eq_false_2 by (intros ->; rewrite map_size_empty in Hu; lia).
    by rewrite (proj2 (Nat.leb_gt _ _) Hu). }
  unfold try, orErr, mbind, st_bind, cmd. fold (seen s). rewrite Hrun.
  destruct (n_fault s (n_pos s)); eexists; (split; [reflexivity|]); intros Hne; done.
Qed.



(** ** Fencing *)

Lemma fence_le_refl f : (exists e, f_Epoch f = Int e /\ 1 <= e < 10^14) -> fence_le f f.
Proof. intros (e & He & ?). exists e, e. split_and!; try done; try lia. by right. Qed.

Lemma fence_le_trans f g h : fence_le f g -> fence_le g h -> fence_le f h.
Proof.
  intros (e1 & e2 & H1 & H2 & ? & ? & Hfg) (e2' & e3 & H2' & H3 & ? & ? & Hgh). simplify_eq.
  exists e1, e3. split_and!; try done; try lia.
  assert (e2' = e2) as -> by congruence. destruct Hfg as [ ? | -> ], Hgh as [ ? | -> ].
  - left; lia.
  - assert (e3 = e2) by congruence. left; lia.
  - assert (e2 = e1) by congruence. left; lia.
  - by right.
Qed.

Lemma allowed_epoch_pos cur next m e : allowed cur next -> t_MapEpochs cur !! m = Some e ->
  exists e', t_MapEpochs next !! m = Some e' /\ e <= e' /\
    (forall o, t_Owners next !! m = Some o -> e' = e -> default "" (t_Owners cur !! m) = o).
Proof.
  intros [_ _ Hk _] He. destruct (Hk m e He) as (e' & He' & Hsame & Hdiff). exists e'. split_and!; [done| |].
  - destruct (decide (default "" (t_Owners cur !! m) = default "" (t_Owners next !! m))); [rewrite Hsame|rewrite Hdiff]; done || lia.
  - intros o Ho ->. destruct (decide (default "" (t_Owners cur !! m) = default "" (t_Owners next !! m))) as [Hd|Hd].
    + by rewrite Hd, Ho.
    + specialize (Hdiff Hd). lia.
Qed.

Lemma valid_epoch t m o : valid_topology None t -> small_topology t -> t_Owners t !! m = Some o ->
  exists e, t_MapEpochs t !! m = Some e /\ 1 <= e < 10^14.
Proof.
  intros Hv Hs Ho. destruct (vt_epoch _ _ Hv m) as (e & He & Hne).
  { apply elem_of_union_l, elem_of_dom. eauto. }
  exists e. split; [done|]. pose proof (st_epoch _ Hs _ _ He). lia.
Qed.

(** What the script leaves of topology and fences, in every case. *)
Lemma script_shape expectedVersion next migration leaderTerm mapIDs r :
  let r' := (compareAndSetTopology expectedVersion next migration leaderTerm mapIDs r).2 in
  r' = r \/ cas_guard expectedVersion next leaderTerm r = None /\ r_topology r' = Some (Good next)
            /\ r_fences r' = write_fences next mapIDs (r_fences r) /\ r_checkpoints r' = r_checkpoints r
            /\ r_term r' = r_term r.
Proof.
  cbn zeta. unfold compareAndSetTopology. destruct (cas_guard _ _ _ _); [by left|].
  destruct (session_updates _ _); [|by left]. right. by repeat case_match.
Qed.

Lemma cas_guard_any_term expectedVersion next leaderTerm r :
  cas_guard expectedVersion next leaderTerm r = None -> cas_guard expectedVersion next 0 r = None.
Proof.
  unfold cas_guard. destruct (negb (leaderTerm =? 0) && _); [done|]. by cbn [negb andb Z.eqb].
Qed.

Lemma fence_of_inv r m f : fences_inv r -> r_fences r !! m = Some (Good f) -> fence_le f f.
Proof.
  unfold fences_inv. intros Hinv Hf. destruct (r_topology r) as [[cur|]|]; [|done|by rewrite Hinv in Hf].
  destruct Hinv as (_ & Hs & Hold & _). destruct (Hold m _ Hf) as (o & e & te & [= ->] & Hte & ? & Hle).
  pose proof (st_epoch _ Hs _ _ Hte). apply fence_le_refl. exists e. split; [done|].
  destruct Hle as [|[-> _]]; lia.
Qed.

(** The script keeps the invariant, and every fence only moves forward. *)
Lemma script_fences expectedVersion next migration leaderTerm r :
  fences_inv r -> valid_topology None next -> small_topology next ->
  (expectedVersion = 0 /\ t_Version next = 1 \/ t_Version next = expectedVersion + 1) ->
  let r' := (compareAndSetTopology expectedVersion next migration leaderTerm
               (sort_strings (elements (dom (t_Owners next)))) r).2 in
  fences_inv r' /\
  forall m f, r_fences r !! m = Some (Good f) -> exists f', r_fences r' !! m = Some (Good f') /\ fence_le f f'.
Proof.
  intros Hinv Hval Hn Hv r'.
  pose proof (fun m f => fence_of_inv r m f Hinv) as Hfrefl.
  pose proof (script_shape expectedVersion next migration leaderTerm (sort_strings (elements (dom (t_Owners next)))) r) as Hsh.
  cbn zeta in Hsh. fold r' in Hsh. destruct Hsh as [Heq|(Hg & Htop & Hfen & _)].
  { rewrite Heq. split; [done|]. eauto. }
  assert (He : 0 <= expectedVersion < 10^14 /\ t_Version next = expectedVersion + 1).
  { pose proof (st_version _ Hn). pose proof (vt_version _ _ Hval). lia. }
  destruct He as [He Hv']. apply cas_guard_any_term, cas_guard_topology in Hg; try done.
  2: { intros cur Hcur. unfold fences_inv in Hinv. rewrite Hcur in Hinv. apply Hinv. }
  assert (Hnew : forall m o, t_Owners next !! m = Some o -> exists te, t_MapEpochs next !! m = Some te /\ 1 <= te < 10^14 /\
    r_fences r' !! m = Some (Good (mkFence m o (Int te)))).
  { intros m o Ho. destruct (valid_epoch next m o Hval Hn Ho) as (te & Hte & ?). exists te.
    split; [done|]. split; [done|].
    rewrite Hfen, write_fences_owners, Ho, Hte by done. done. }
  assert (Hold' : forall m, t_Owners next !! m = None -> r_fences r' !! m = r_fences r !! m).
  { intros m Ho. by rewrite Hfen, write_fences_owners, Ho. }
  unfold fences_inv in Hinv |- *. rewrite Htop. destruct (r_topology r) as [[cur|]|] eqn:Hcur; [|done|].
  2: { split; [|intros m f Hf; rewrite Hinv in Hf; done]. split_and!; [done|done| |].
       - intros m d Hd. destruct (t_Owners next !! m) as [o|] eqn:Ho.
         + destruct (Hnew m o Ho) as (te & Hte & ? & Hf). rewrite Hf in Hd. injection Hd as <-.
           exists o, te, te. split_and!; try done; try lia. by right.
         + rewrite Hold', Hinv in Hd by done. done.
       - intros m o Ho. destruct (Hnew m o Ho) as (te & ? & ? & ?). eauto. }
  destruct Hg as (_ & _ & Hal). destruct Hinv as (Hcv & Hcs & Hold & Hown). split; [split_and!; [done|done| |]|].
  - intros m d Hd. destruct (t_Owners next !! m) as [o|] eqn:Ho.
    + destruct (Hnew m o Ho) as (te & Hte & ? & Hf). rewrite Hf in Hd. injection Hd as <-.
      exists o, te, te. split_and!; try done; try lia. by right.
    + rewrite Hold' in Hd by done. destruct (Hold m d Hd) as (o & e & te & -> & Hte & H1 & Hlt).
      destruct (al_kept _ _ Hal m te Hte) as (te' & Hte' & Hsame & Hdiff). exists o, e, te'.
      rewrite Ho in Hsame, Hdiff. cbn in Hsame, Hdiff |- *. split_and!; try done.
      destruct (decide (default "" (t_Owners cur !! m) = "")) as [Hd0|Hd0]; [rewrite Hsame by done|rewrite Hdiff by done; left; lia].
      destruct Hlt as [|[-> Hoc]]; [by left|right; split; [done|congruence]].
  - intros m o Ho. destruct (Hnew m o Ho) as (te & ? & ? & ?). eauto.
  - intros m f Hf. destruct (Hold m _ Hf) as (o & e & te & [= ->] & Hte & H1 & Hlt). pose proof (st_epoch _ Hcs _ _ Hte).
    destruct (t_Owners next !! m) as [o'|] eqn:Ho.
    + destruct (Hnew m o' Ho) as (te' & Hte' & ? & Hf'). eexists. split; [done|].
      destruct (allowed_epoch_pos _ _ _ _ Hal Hte) as (te2 & Hte2 & Hle & Hown'). simplify_eq.
      exists e, te'. split_and!; try done; try lia. cbn.
      destruct Hlt as [|[-> Hoc]]; [left; lia|]. destruct (decide (te' = te)) as [->|]; [right|left; lia].
      specialize (Hown' o' Ho eq_refl). by subst.
    + exists (mkFence m o (Int e)). rewrite Hold' by done. split; [done|]. eauto.
Qed.

Lemma step_fences r r' : redis_step r r' -> fences_inv r ->
  fences_inv r' /\ (forall m f, r_fences r !! m = Some (Good f) -> exists f', r_fences r' !! m = Some (Good f') /\ fence_le f f')
  /\ default 0 (r_term r) <= default 0 (r_term r').
Proof.
  intros [exp next mig lt mapIDs r0 Hp Hs Hv -> | cp node ep r0 | r0 r1 (Htop & Hf & _ & Ht)] Hinv.
  - apply prepareTopology_inr in Hp as [_ Hval].
    destruct (script_fences exp next mig lt r0 Hinv Hval Hs Hv) as [H1 H2]. split_and!; [done|done|].
    pose proof (script_shape exp next mig lt (sort_strings (elements (dom (t_Owners next)))) r0) as [-> |(_ & _ & _ & _ & ->)];
      lia.
  - assert (Hsame : r_topology (saveCheckpointIfOwner cp node ep r0).2 = r_topology r0
      /\ r_fences (saveCheckpointIfOwner cp node ep r0).2 = r_fences r0
      /\ r_term (saveCheckpointIfOwner cp node ep r0).2 = r_term r0)
      by (unfold saveCheckpointIfOwner; by repeat case_match).
    destruct Hsame as (Htop & Hf & ->). unfold fences_inv in *. rewrite Htop, Hf. split_and!; [done| |lia].
    intros m f Hm. exists f. split; [done|]. by eapply fence_of_inv.
  - unfold fences_inv in *. rewrite Htop, Hf. split_and!; [done| |done].
    intros m f Hm. exists f. split; [done|]. by eapply fence_of_inv.
Qed.

Lemma steps_fences r r' : rtc redis_step r r' -> fences_inv r ->
  fences_inv r' /\ (forall m f, r_fences r !! m = Some (Good f) -> exists f', r_fences r' !! m = Some (Good f') /\ fence_le f f')
  /\ default 0 (r_term r) <= default 0 (r_term r').
Proof.
  induction 1 as [r|r1 r2 r3 Hstep _ IH]; intros Hinv.
  - split_and!; [done| |done]. intros m f Hm. exists f. split; [done|]. by eapply fence_of_inv.
  - destruct (step_fences _ _ Hstep Hinv) as (Hinv2 & Hle & Ht). destruct (IH Hinv2) as (? & Hle' & Ht').
    split_and!; [done| |lia]. intros m f (f2 & Hf2 & ?)%Hle. destruct (Hle' _ _ Hf2) as (f3 & ? & ?).
    exists f3. split; [done|]. by eapply fence_le_trans.
Qed.

(** A claim on a map that a fence has overtaken. *)
Definition overtaken (f : fence) (nodeID : string) (epoch : Z) : Prop :=
  exists e, f_Epoch f = Int e /\ (epoch < e \/ epoch = e /\ nodeID <> f_Owner f).

Lemma overtaken_later f f' nodeID epoch : fence_le f f' -> overtaken f nodeID epoch -> overtaken f' nodeID epoch.
Proof.
  intros (e & e' & He & He' & _ & _ & Hle) (e0 & He0 & Ho). assert (e0 = e) as -> by congruence.
  exists e'. split; [done|]. destruct Hle as [|Heq].
  - left. destruct Ho as [|[-> _]]; lia.
  - subst f'. assert (e' = e) as -> by congruence. exact Ho.
Qed.

Lemma overtaken_save f cp nodeID epoch r :
  r_fences r !! cp_MapID cp = Some (Good f) -> fence_le f f -> overtaken f nodeID epoch ->
  saveCheckpointIfOwner cp nodeID epoch r = (0, r).
Proof.
  intros Hf (e & e1 & He & He1 & Hpos & Hbound & _) (e' & He' & Ho). unfold saveCheckpointIfOwner. rewrite Hf.
  assert (e' = e) as -> by congruence. assert (e1 = e) as -> by congruence. rewrite He.
  assert (negb (bool_decide (f_Owner f = nodeID)) || negb (lua_tostring_is (Int e) epoch) = true) as ->; [|done].
  apply orb_true_iff. destruct Ho as [Hlt|[-> Hne]].
  - right. apply negb_true_iff, not_true_iff_false. rewrite lua_tostring_small by lia. lia.
  - left. apply negb_true_iff, bool_decide_eq_false. congruence.
Qed.

Lemma overtaken_require f m nodeID epoch s :
  r_fences (seen s) !! m = Some (Good f) -> overtaken f nodeID epoch ->
  exists s', RequireMapFence m nodeID epoch s = Some (inl ErrMapFenceRejected, s').
Proof.
  intros Hf (e & He & Ho).
  enough (H : wp (RequireMapFence m nodeID epoch) (fun res _ => res = inl ErrMapFenceRejected) s)
    by (apply wp_run in H as (res & s' & ? & ->); eauto).
  unfold RequireMapFence. case_match; [done|]. apply wp_bind, wp_read. intros o [->| ->]; [done|].
  rewrite Hf. unfold decode_fence. rewrite He. destruct (_ && _); [|done].
  destruct (bool_decide_reflect (f_Owner f = nodeID)) as [Heq|]; [|done]. cbn [negb orb].
  destruct (Z.eqb_spec e epoch); [|done]. exfalso. destruct Ho as [|[_ Hne]]; [lia|congruence].
Qed.

(** C4. Fencing: once a map's fence has moved past a node's claim (a later
    epoch, or the same epoch under another owner), then after any activity of any
    clients that go through the store, that claim is refused for ever: no
    checkpoint of the former owner is stored and its authority test fails. *)
Theorem stale_owner_fenced r r' m f nodeID epoch :
  fences_inv r -> r_fences r !! m = Some (Good f) -> overtaken f nodeID epoch -> rtc redis_step r r' ->
  (forall cp, cp_MapID cp = m -> saveCheckpointIfOwner cp nodeID epoch r' = (0, r')) /\
  forall s, seen s = r' -> exists s', RequireMapFence m nodeID epoch s = Some (inl ErrMapFenceRejected, s').
Proof.
  intros Hinv Hf Ho Hs. destruct (steps_fences _ _ Hs Hinv) as (Hinv' & Hle & _).
  destruct (Hle m f Hf) as (f' & Hf' & Hff'). pose proof (overtaken_later _ _ _ _ Hff' Ho) as Ho'. split.
  - intros cp <-. eapply overtaken_save; [done|by eapply fence_of_inv|done].
  - intros s <-. by eapply overtaken_require.
Qed.

Lemma demo_fences_inv : fences_inv demo_redis.
Proof.
  unfold fences_inv. cbn [demo_redis r_topology r_fences]. split_and!.
  - apply Validate_None. vm_compute. reflexivity.
  - exact demo_topology_small.
  - apply (map_Forall_pair (fun m d => exists o e te, d = Good (mkFence m o (Int e)) /\ _ /\ _ /\ _)).
    + exists "node-a", 3, 3. split_and!; [reflexivity|reflexivity|lia|by right].
    + exists "node-b", 1, 1. split_and!; [reflexivity|reflexivity|lia|by right].
  - apply (map_Forall_pair (fun m o => exists te, _ /\ _ = Some (Good (mkFence m o (Int te)))));
      eexists; split; reflexivity.
Qed.

Definition demo_checkpoint (epoch : Z) : MapCheckpoint := mkMapCheckpoint "demo" "node-a" epoch 9 [] [] [] [] 0.

(** The old owner of the map tries to write after the failover to node-c. *)
Lemma stale_owner_fenced_witness :
  let r' := (compareAndSetTopology 7 demo_next (Some demo_move) 2 ["cave"; "demo"] demo_redis).2 in
  rtc redis_step demo_redis r' /\ saveCheckpointIfOwner (demo_checkpoint 2) "node-a" 2 r' = (0, r').
Proof.
  intros r'.
  assert (Hr : rtc redis_step demo_redis r').
  { apply rtc_once. unfold r'. change ["cave"; "demo"] with (sort_strings (elements (dom (t_Owners demo_next)))).
    apply (rs_cas 7 demo_next (Some demo_move) 2 (sort_strings (elements (dom (t_Owners demo_next)))));
      [vm_compute; reflexivity|exact demo_next_small|right; reflexivity|reflexivity]. }
  split; [exact Hr|].
  apply (stale_owner_fenced demo_redis r' "demo" (mkFence "demo" "node-a" (Int 3)) "node-a" 2 demo_fences_inv).
  - reflexivity.
  - exists 3. split; [reflexivity|left; lia].
  - exact Hr.
  - reflexivity.
Defined.

(** ** Leader terms *)

(** A deposed leader cannot commit: once the durable term is past the term a
    coordinator was elected for, then after any activity of any clients every
    topology change it attempts for that term is refused or unanswered, and
    leaves the server untouched. *)
Theorem deposed_leader_refused r r' term :
  fences_inv r -> 0 < term < default 0 (r_term r) -> rtc redis_step r r' ->
  (forall t, r_term r' = Some t -> t < 10^14) ->
  forall s expectedVersion next migration, seen s = r' ->
  exists err s', compareAndSaveTopology expectedVersion next migration term s = Some (inl err, s')
    /\ (n_redis s' = n_redis s \/ n_redis s' = r').
Proof.
  intros Hinv Hterm Hs Hsmall s exp next mig Hseen. destruct (steps_fences _ _ Hs Hinv) as (_ & _ & Ht).
  assert (Hg : forall mapIDs next, compareAndSetTopology exp next mig term mapIDs r' = (Reply (-4), r')).
  { intros mapIDs nx. unfold compareAndSetTopology, cas_guard.
    rewrite (f64_small (default 0 (r_term r'))), (f64_small term).
    - rewrite (proj2 (Z.eqb_neq term 0)) by lia.
      assert ((default 0 (r_term r') =? term) = false) as -> by (apply Z.eqb_neq; lia). by rewrite orb_true_r.
    - destruct (r_term r') as [t|]; cbn in *; [specialize (Hsmall t eq_refl); lia|lia].
    - destruct (r_term r') as [t|]; cbn in *; [specialize (Hsmall t eq_refl); lia|lia]. }
  enough (H : wp (compareAndSaveTopology exp next mig term) (fun res s' =>
    (exists err, res = inl err) /\ (n_redis s' = n_redis s \/ n_redis s' = r')) s)
    by (apply wp_run in H as (res & s' & ? & [err ->] & ?); eauto).
  unfold compareAndSaveTopology. destruct (prepareTopology next) as [err|p]; [apply wp_ret; eauto|].
  case_match; [apply wp_ret; eauto|]. case_match; [apply wp_ret; eauto|]. cbv zeta.
  apply wp_try, wp_orErr, wp_cmd; intros _; rewrite Hseen, ?Hg; cbn [fst snd].
  - apply wp_ret. split; [by eexists|]. by right.
  - split; [by eexists|]. by right.
  - split; [by eexists|]. by right.
Qed.

Lemma deposed_leader_refused_witness :
  exists err s', compareAndSaveTopology 7 demo_next (Some demo_move) 1 (quiet demo_redis) = Some (inl err, s')
    /\ (n_redis s' = demo_redis \/ n_redis s' = demo_redis).
Proof.
  apply (deposed_leader_refused demo_redis demo_redis 1 demo_fences_inv).
  - split; reflexivity.
  - apply rtc_refl.
  - intros t [= <-]. lia.
  - reflexivity.
Defined.

(** ** The world boss *)

(** The server under a sequence of attacks, and what each attack was told. *)
Fixpoint attacks (damages : list Z) (r : Redis) : list boss_reply * Redis :=
  match damages with
  | [] => ([], r)
  | d :: rest =>
      let '(a, r1) := attack_script d r in
      let '(l, r2) := attacks rest r1 in (a :: l, r2)
  end.

Definition is_kill (a : boss_reply) : bool := match a with BossHit _ k => k | _ => false end.
Definition told_hp (a : boss_reply) : Prop := match a with BossHit hp _ => 0 <= hp < 2^31 | BossDown _ => True | BossScriptError => False end.
Definition total (l : list Z) : Z := foldr Z.add 0 l.

Lemma attack_script_spec d r hp :
  r_boss_hp r = Some hp -> 0 < d < 2^31 -> 0 <= hp < 2^31 ->
  let '(a, r') := attack_script d r in
  told_hp a /\ r_boss_hp r' = Some (Z.max 0 (hp - d)) /\ is_kill a = (0 <? hp) && (hp <=? d).
Proof.
  intros Hhp Hd Hh. unfold attack_script. rewrite Hhp. change (default 0 (Some hp)) with hp.
  rewrite (f64_exact hp), (f64_exact d) by lia. destruct (Z.leb_spec hp 0).
  { split_and!; [done|by rewrite Hhp; f_equal; lia|]. rewrite (proj2 (Z.ltb_ge 0 hp)) by lia. done. }
  rewrite (proj2 (Z.leb_gt (10^17) (Z.abs d))) by lia.
  rewrite bool_decide_eq_true_2 by lia. cbn [negb orb]. rewrite (f64_exact (hp - d)) by lia.
  rewrite (f64_exact (hp - d + d)) by lia. rewrite (proj2 (Z.ltb_lt 0 hp)) by lia.
  destruct (Z.leb_spec (hp - d) 0), (Z.leb_spec hp d); try lia; cbn [andb].
  - rewrite (proj2 (Z.ltb_lt 0 (hp - d + d))) by lia. cbn. split_and!; try done; try lia. f_equal; lia.
  - cbn. split_and!; try done; try lia. f_equal; lia.
Qed.

Lemma total_nonneg l : Forall (fun d => 0 < d < 2^31) l -> 0 <= total l.
Proof. induction 1; cbn; unfold total in *; lia. Qed.

Lemma attacks_spec ds r hp :
  r_boss_hp r = Some hp -> 0 <= hp < 2^31 -> Forall (fun d => 0 < d < 2^31) ds ->
  let '(l, r') := attacks ds r in
  Forall told_hp l /\ r_boss_hp r' = Some (Z.max 0 (hp - total ds)) /\
  length (filter (fun a => is_kill a = true) l) = (if (0 <? hp) && (hp <=? total ds) then 1%nat else 0%nat).
Proof.
  intros Hhp Hh Hds. revert r hp Hhp Hh. induction Hds as [|d ds Hd Hds IH]; intros r hp Hhp Hh; cbn [attacks].
  { split_and!; [constructor|cbn; rewrite Hhp; f_equal; lia|].
    cbn. destruct (Z.ltb_spec 0 hp), (Z.leb_spec hp 0); cbn; lia. }
  pose proof (attack_script_spec d r hp Hhp Hd Hh) as Ha. destruct (attack_script d r) as [a r1].
  destruct Ha as (Htold & Hhp1 & Hk). pose proof (IH r1 _ Hhp1 ltac:(lia)) as H. destruct (attacks ds r1) as [l r2].
  destruct H as (Hall & Hhp2 & Hlen). pose proof (total_nonneg ds Hds).
  split_and!; [by constructor|rewrite Hhp2; f_equal; unfold total in *; cbn; lia|].
  rewrite filter_cons. replace (total (d :: ds)) with (d + total ds) by done.
  destruct (Z.ltb_spec 0 hp), (Z.leb_spec hp d); cbn [andb] in Hk; rewrite Hk;
    (destruct (decide _) as [E|E]; [|]); try done; cbn [length]; rewrite Hlen;
    destruct (Z.ltb_spec 0 (Z.max 0 (hp - d))), (Z.leb_spec (Z.max 0 (hp - d)) (total ds)), (Z.leb_spec hp (d + total ds));
    cbn [andb]; lia.
Qed.

(** C8. The boss dies exactly once: in any sequence of attacks by any players,
    exactly one attack is told that it killed the boss if the damage adds up to
    the boss's hit points, and none otherwise; the stored hit points are what is
    left, never below zero, and no attack is told a negative value. *)
Theorem boss_killed_once damages r hp :
  r_boss_hp r = Some hp -> 0 < hp < 2^31 -> Forall (fun d => 0 < d < 2^31) damages ->
  let '(told, r') := attacks damages r in
  Forall told_hp told /\ r_boss_hp r' = Some (Z.max 0 (hp - total damages)) /\
  length (filter (fun a => is_kill a = true) told) = (if hp <=? total damages then 1%nat else 0%nat).
Proof.
  intros Hhp Hh Hd. pose proof (attacks_spec damages r hp Hhp ltac:(lia) Hd) as H.
  destruct (attacks damages r). by rewrite (proj2 (Z.ltb_lt 0 hp)) in H by lia.
Qed.

Lemma boss_killed_once_witness :
  let '(told, r') := attacks [35; 60; 35] (set_r_boss_hp (Some 100) demo_redis) in
  Forall told_hp told /\ r_boss_hp r' = Some 0 /\ length (filter (fun a => is_kill a = true) told) = 1%nat.
Proof.
  apply (boss_killed_once [35; 60; 35] (set_r_boss_hp (Some 100) demo_redis) 100); [reflexivity|lia|].
  repeat constructor.
Defined.
