(* ===== verification/Users.v ===== *)
(** * Storage: user accounts

    The account methods of [storage/store.go].  The SQL database is a table keyed
    by the user name whose statements may fail before or after they take effect;
    bcrypt and SHA-256 are parameters. *)

From Stdlib Require Import ZArith Lia String.
From stdpp Require Import base sorting gmap strings list option.
From S2P Require Import Prelude Protocol Maps World WorldOps Topology Redis.

Open Scope Z_scope.
Open Scope go_scope.

(** [storage.UserRecord] *)
Record UserRecord := mkUserRecord {
  ur_Username : string;
  ur_PasswordHash : string;
  ur_LastMap : string;
  ur_LastNode : string;
  ur_X : Z;
  ur_Y : Z;
  ur_HP : Z;
  ur_MaxHP : Z;
  ur_Attack : Z;
  ur_Potions : Z;
  ur_Treasures : Z;
  ur_Kills : Z;
  ur_Deaths : Z;
  ur_Victories : Z;
  ur_Alive : bool
}.

Definition set_ur_PasswordHash (v : string) (u : UserRecord) : UserRecord :=
  mkUserRecord (ur_Username u) v (ur_LastMap u) (ur_LastNode u) (ur_X u) (ur_Y u) (ur_HP u) (ur_MaxHP u)
    (ur_Attack u) (ur_Potions u) (ur_Treasures u) (ur_Kills u) (ur_Deaths u) (ur_Victories u) (ur_Alive u).

Definition toDBUser (p : UserProfile) : UserRecord :=
  mkUserRecord (up_Username p) (up_PasswordHash p) (up_LastMap p) (up_LastNode p) (up_X p) (up_Y p) (up_HP p)
    (up_MaxHP p) (up_Attack p) (up_Potions p) (up_Treasures p) (up_Kills p) (up_Deaths p) (up_Victories p) (up_Alive p).

Definition fromDBUser (u : UserRecord) : UserProfile :=
  mkUserProfile (ur_Username u) (ur_PasswordHash u) (ur_LastMap u) (ur_LastNode u) (ur_X u) (ur_Y u) (ur_HP u)
    (ur_MaxHP u) (ur_Attack u) (ur_Potions u) (ur_Treasures u) (ur_Kills u) (ur_Deaths u) (ur_Victories u) (ur_Alive u).

(** The table [users] ([None]: no database is configured) and what happens to
    the next statements. *)
Record DB := mkDB {
  db_users : option (gmap string UserRecord);
  db_fault : nat -> fault;
  db_pos : nat
}.

Abbreviation DM := (ST DB).

(** One statement; [None] is a database error. *)
Definition stmt {A} (f : gmap string UserRecord -> A * gmap string UserRecord) : DM (option A) := fun d =>
  match db_users d with
  | None => Some (None, d)
  | Some users =>
      let next u := mkDB (Some u) (db_fault d) (S (db_pos d)) in
      match db_fault d (db_pos d) with
      | F_ok => let '(a, u) := f users in Some (Some a, next u)
      | F_lost => Some (None, next users)
      | F_noreply => let '(_, u) := f users in Some (None, next u)
      end
  end.

Definition database : DM (store_err + unit) := fun d =>
  match db_users d with
  | None => Some (inl ErrDatabaseUnavailable, d)
  | Some _ => Some (inr tt, d)
  end.

Section accounts.
Context (bcrypt_generate : string -> option string) (bcrypt_compare : string -> string -> bool)
  (sha256_hex : string -> string).

Definition hashPassword (password : string) : store_err + string :=
  match bcrypt_generate password with
  | Some h => inr h
  | None => inl ErrHash
  end.

Definition verifyPassword (hash password : string) : bool :=
  if HasPrefix hash "$2" then bcrypt_compare hash password
  else bool_decide (hash = sha256_hex password).

(** The error of the count query is ignored: the count is then 0. *)
Definition Register (username password : string) : DM (store_err + unit) :=
  if bool_decide (username = "") || bool_decide (password = "") then fail ErrEmptyCredentials else
  _ ←! database;
  count ← stmt (fun users => (bool_decide (is_Some (users !! username)), users));
  if default false count then fail (ErrUserExists username) else
  match hashPassword password with
  | inl err => fail err
  | inr hashed =>
      let p := mkUserProfile username hashed "green" "" 4 4 InitHP InitHP InitAttack MaxPotions 0 0 0 0 true in
      let dbUser := toDBUser p in
      created ←! orErr ErrDatabase (stmt (fun users =>
        match users !! username with
        | Some _ => (false, users)
        | None => (true, <[ur_Username dbUser := dbUser]> users)
        end));
      if created : bool then ok tt else fail ErrDatabase
  end.

Definition Authenticate (username password : string) : DM (store_err + UserProfile) :=
  if bool_decide (username = "") || bool_decide (password = "") then fail ErrEmptyCredentials else
  _ ←! database;
  found ←! orErr ErrDatabase (stmt (fun users => (users !! username, users)));
  match found with
  | None => fail (ErrNoUser username)
  | Some user =>
      if negb (verifyPassword (ur_PasswordHash user) password) then fail ErrPassword
      else ok (fromDBUser user)
  end.

Definition LoadProfile (username : string) : DM (store_err + UserProfile) :=
  _ ←! database;
  found ←! orErr ErrDatabase (stmt (fun users => (users !! username, users)));
  match found with
  | None => fail (ErrNoUser username)
  | Some user => ok (fromDBUser user)
  end.

(** GORM's [Save] writes every column, creating the row if it is missing; an
    omitted column keeps its value. *)
Definition SaveProfile (profile : UserProfile) : DM (store_err + unit) :=
  _ ←! database;
  let dbUser := toDBUser profile in
  orErr ErrDatabase (stmt (fun users =>
    let row :=
      if bool_decide (up_PasswordHash profile = "")
      then set_ur_PasswordHash (default "" (ur_PasswordHash <$> users !! ur_Username dbUser)) dbUser
      else dbUser in
    (tt, <[ur_Username dbUser := row]> users))).

(** ** Lemmas *)

Lemma fromDBUser_toDBUser p : fromDBUser (toDBUser p) = p.
Proof. by destruct p. Qed.

Lemma toDBUser_fromDBUser u : toDBUser (fromDBUser u) = u.
Proof. by destruct u. Qed.

(** An account round trip: a registration reported successful is followed,
    on a database that answers, by a login with the same password that returns the
    starting profile; and a profile saved during play never loses the password
    (login still works and returns the saved profile), provided bcrypt accepts
    what it generated. *)
Theorem register_login_save username password d d1 profile :
  (forall h, bcrypt_generate password = Some h -> HasPrefix h "$2" = true /\ bcrypt_compare h password = true) ->
  (forall n, db_fault d n = F_ok) ->
  Register username password d = Some (inr tt, d1) ->
  up_Username profile = username -> up_PasswordHash profile = "" ->
  exists h d2 d3 d4,
    Authenticate username password d1 =
      Some (inr (mkUserProfile username h "green" "" 4 4 InitHP InitHP InitAttack MaxPotions 0 0 0 0 true), d2) /\
    SaveProfile profile d2 = Some (inr tt, d3) /\
    Authenticate username password d3 =
      Some (inr (fromDBUser (set_ur_PasswordHash h (toDBUser profile))), d4).
Proof.
  intros Hb Hf Hreg Hu Hph. destruct d as [[users|] df dp]; cbn in Hf; unfold Register in Hreg;
    destruct (bool_decide (username = "") || bool_decide (password = "")) eqn:He; try discriminate Hreg.
  unfold try, orErr, mbind, st_bind, mret, st_ret, database, stmt, ok, fail in Hreg.
  cbn in Hreg. rewrite Hf in Hreg. cbn in Hreg.
  destruct (users !! username) as [u|] eqn:Hl; cbn in Hreg; [discriminate Hreg|].
  unfold hashPassword in Hreg. destruct (bcrypt_generate password) as [h|] eqn:Hh; [|discriminate Hreg]. cbn in Hreg.
  rewrite Hf, Hl in Hreg. cbn in Hreg. injection Hreg as <-. destruct (Hb h eq_refl) as [Hpre Hcmp].
  assert (Hver : verifyPassword h password = true) by (unfold verifyPassword; by rewrite Hpre).
  exists h. eexists _, _, _. unfold Authenticate, SaveProfile. rewrite He.
  unfold try, orErr, mbind, st_bind, mret, st_ret, database, stmt, ok, fail.
  cbn -[verifyPassword]. rewrite !Hf, lookup_insert_eq. cbn -[verifyPassword]. rewrite Hver. split; [reflexivity|].
  cbn -[verifyPassword]. rewrite !Hf, Hu, Hph, lookup_insert_eq. cbn -[verifyPassword]. split; [reflexivity|].
  cbn -[verifyPassword]. rewrite !Hf, lookup_insert_eq. cbn -[verifyPassword].
  rewrite (bool_decide_eq_true_2 (EmptyString = EmptyString)) by done. cbn -[verifyPassword]. rewrite Hver. reflexivity.
Qed.
End accounts.

Lemma register_login_save_witness :
  let gen p := Some ("$2" +:+ p) in
  let cmp h p := bool_decide (h = "$2" +:+ p) in
  let d := mkDB (Some ∅) (fun _ => F_ok) 0 in
  let profile := mkUserProfile "ann" "" "cave" "node-b" 9 9 50 120 35 0 7 0 0 0 true in
  exists d1 h d2 d3 d4, Register gen "ann" "secret" d = Some (inr tt, d1) /\
    Authenticate cmp (fun p => p) "ann" "secret" d1 =
      Some (inr (mkUserProfile "ann" h "green" "" 4 4 InitHP InitHP InitAttack MaxPotions 0 0 0 0 true), d2) /\
    SaveProfile profile d2 = Some (inr tt, d3) /\
    Authenticate cmp (fun p => p) "ann" "secret" d3 =
      Some (inr (fromDBUser (set_ur_PasswordHash h (toDBUser profile))), d4).
Proof.
  intros gen cmp d profile.
  destruct (Register gen "ann" "secret" d) as [[[err|[]] d1]|] eqn:Hreg; [discriminate Hreg| |discriminate Hreg].
  exists d1. destruct (register_login_save gen cmp (fun p => p) "ann" "secret" d d1 profile) as (h & d2 & d3 & d4 & H).
  - intros h [= <-]. split; reflexivity.
  - reflexivity.
  - exact Hreg.
  - reflexivity.
  - reflexivity.
  - exists h, d2, d3, d4. split; [reflexivity|exact H].
Defined.
