(* ===== verification/Elector.v ===== *)
(** * Leader election

    [elector/elector.go], [elector/redis.go] and [elector/always_leader.go]: the
    lease and the durable term counter in Redis, an elector's local state, and
    the operations that change it.  A context is a flag that says whether it is
    still alive; the blocking loops of [Campaign] and [renewLoop] are split at
    their Redis calls, one step per iteration. *)

From Stdlib Require Import ZArith Lia String.
From stdpp Require Import base sorting gmap strings list option relations.
From S2P Require Import Prelude Protocol Maps World WorldOps Topology Redis Store StoreProps.

Open Scope Z_scope.
Open Scope go_scope.

Definition DefaultLeaseKey : string := "battle:coordinator:leader:lease".
Definition DefaultTermKey : string := CoordinatorLeaderTermRedisKey.

(** [elector.RedisOptions]; durations in nanoseconds *)
Record RedisOptions := mkRedisOptions {
  ro_LeaseKey : string;
  ro_TermKey : string;
  ro_TTL : Z;
  ro_RenewInterval : Z;
  ro_RetryInterval : Z
}.

(** [defaults] are the runtime configuration's lease, renewal and retry times. *)
Definition normalized (defaults : Z * Z * Z) (o : RedisOptions) : option RedisOptions :=
  let '(lease, renewal, retry) := defaults in
  let o := mkRedisOptions
    (if bool_decide (ro_LeaseKey o = "") then DefaultLeaseKey else ro_LeaseKey o)
    (if bool_decide (ro_TermKey o = "") then DefaultTermKey else ro_TermKey o)
    (if ro_TTL o =? 0 then lease else ro_TTL o)
    (if ro_RenewInterval o =? 0 then renewal else ro_RenewInterval o)
    (if ro_RetryInterval o =? 0 then retry else ro_RetryInterval o) in
  if (ro_TTL o <=? 0) || (ro_RenewInterval o <=? 0) || (ro_RetryInterval o <=? 0) then None else
  if ro_TTL o <=? ro_RenewInterval o then None else Some o.

(** [elector.RedisElector]; [el_leaderCtx] is the leader context, if any, and whether
    it is alive *)
Record RedisElector := mkRedisElector {
  el_instanceID : string;
  el_token : string;
  el_options : RedisOptions;
  el_leader : bool;
  el_term : Z;
  el_expiresAt : Z;
  el_leaderCtx : option bool;
  el_campaigning : bool
}.

Definition set_el_campaigning (v0 : bool) (r : RedisElector) : RedisElector :=
  mkRedisElector (el_instanceID r) (el_token r) (el_options r) (el_leader r) (el_term r) (el_expiresAt r) (el_leaderCtx r) v0.
Definition set_el_expiresAt (v0 : Z) (r : RedisElector) : RedisElector :=
  mkRedisElector (el_instanceID r) (el_token r) (el_options r) (el_leader r) (el_term r) v0 (el_leaderCtx r) (el_campaigning r).
Definition set_el_leaderCtx (v0 : option bool) (r : RedisElector) : RedisElector :=
  mkRedisElector (el_instanceID r) (el_token r) (el_options r) (el_leader r) (el_term r) (el_expiresAt r) v0 (el_campaigning r).
Definition set_el_lease (v0 : bool) (v1 : Z) (v2 : Z) (v3 : option bool) (r : RedisElector) : RedisElector :=
  mkRedisElector (el_instanceID r) (el_token r) (el_options r) v0 v1 v2 v3 (el_campaigning r).

(** The random part of the token is the hexadecimal text [raw]. *)
Definition NewRedis (defaults : Z * Z * Z) (instanceID : string) (options : RedisOptions) (raw : string)
    : option RedisElector :=
  let instanceID := TrimSpace instanceID in
  if bool_decide (instanceID = "") then None else
  options ← normalized defaults options;
  mret (mkRedisElector instanceID (instanceID +:+ ":" +:+ raw) options false 0 0 None false).

(** ** The scripts *)

(** Milliseconds, as the scripts are given them. *)
Definition Milliseconds (d : Z) : Z := Z.quot d Millisecond.

(** [None]: Redis refuses an expiry below one millisecond. *)
Definition acquireLeaseAndTerm (token : string) (ttl : Z) (r : Redis) : option Z * Redis :=
  if Milliseconds ttl <=? 0 then (None, r) else
  match live r (r_lease r) with
  | Some _ => (Some 0, r)
  | None =>
      let term := default 0 (r_term r) + 1 in
      (Some term, set_r_term (Some term) (set_r_lease (Some (token, r_clock r + Milliseconds ttl * Millisecond)) r))
  end.

Definition renewIfTokenMatches (token : string) (ttl : Z) (r : Redis) : Z * Redis :=
  match live r (r_lease r) with
  | Some t =>
      if bool_decide (t = token)
      then (1, set_r_lease (Some (token, r_clock r + Milliseconds ttl * Millisecond)) r)
      else (0, r)
  | None => (0, r)
  end.

Definition deleteIfTokenMatches (token : string) (r : Redis) : Z * Redis :=
  match live r (r_lease r) with
  | Some t => if bool_decide (t = token) then (1, set_r_lease None r) else (0, r)
  | None => (0, r)
  end.

(** ** The elector *)

Abbreviation EM := (ST (RedisElector * Net)).

Definition getE : EM RedisElector := gets fst.
Definition modE (f : RedisElector -> RedisElector) : EM unit := modify (fun s => (f s.1, s.2)).
Definition netE {A} (m : RM A) : EM A := zoom snd (fun n s => (s.1, n)) m.

Inductive elect_err := ErrCampaignInProgress | ErrContext | ErrLease.

(** The context is set and alive. *)
Definition ctx_alive (e : RedisElector) : bool := match el_leaderCtx e with Some b => b | None => false end.

Definition IsLeader (e : RedisElector) : bool := el_leader e && ctx_alive e.

Definition Term (e : RedisElector) : Z := if negb (el_leader e) || negb (ctx_alive e) then 0 else el_term e.

Definition cancel_ctx (o : option bool) : option bool := (fun _ => false) <$> o.

Definition loseLeadership : EM unit :=
  modE (fun e => set_el_lease false 0 0 (cancel_ctx (el_leaderCtx e)) e).

Definition acquire : EM (option (Z * bool)) :=
  e ← getE;
  o ← netE (cmd (acquireLeaseAndTerm (el_token e) (ro_TTL (el_options e))));
  mret (o ≫= fun reply => (fun term => (term, 0 <? term)) <$> reply).

(** The beginning of [Campaign]: [inr true] returns at once with the context in
    use, [inr false] goes on to the loop. *)
Definition Campaign_begin (ctxErr : bool) : EM (elect_err + bool) :=
  if ctxErr then fail ErrContext else
  e ← getE;
  if el_leader e && ctx_alive e then ok true else
  if el_campaigning e then fail ErrCampaignInProgress else
  _ ← modE (set_el_campaigning true);
  ok false.

(** One iteration of its loop: [inr true] is elected, [inr false] goes to sleep
    until the next attempt. *)
Definition Campaign_try (now : Z) : EM (elect_err + bool) :=
  o ← acquire;
  match o with
  | None =>
      _ ← loseLeadership;
      _ ← modE (set_el_campaigning false);
      fail ErrLease
  | Some (term, acquired) =>
      if acquired : bool then
        _ ← modE (fun e => set_el_lease true term (now +i ro_TTL (el_options e)) (Some true) e);
        _ ← modE (set_el_campaigning false);
        ok true
      else ok false
  end.

(** The context ends while it sleeps. *)
Definition Campaign_cancelled : EM (elect_err + bool) :=
  _ ← modE (set_el_campaigning false);
  fail ErrContext.

Definition renew (now : Z) : EM (option bool) :=
  e ← getE;
  result ← netE (cmd (renewIfTokenMatches (el_token e) (ro_TTL (el_options e))));
  match result with
  | None => mret None
  | Some n =>
      _ ← (if n =? 1 then modE (fun e => if el_leader e then set_el_expiresAt (now +i ro_TTL (el_options e)) e else e)
           else mret tt);
      mret (Some (n =? 1))
  end.

Definition releaseToken : EM (option unit) :=
  e ← getE;
  o ← netE (cmd (deleteIfTokenMatches (el_token e)));
  mret ((fun _ => tt) <$> o).

(** One tick of [renewLoop]. *)
Definition renewLoop_tick (now : Z) : EM unit :=
  renewed ← renew now;
  match renewed with
  | Some true => mret tt
  | _ => loseLeadership
  end.

(** [renewLoop] after the campaign's context is cancelled, which also cancels
    the leader context. *)
Definition renewLoop_cancelled : EM unit :=
  _ ← modE (fun e => set_el_leaderCtx (cancel_ctx (el_leaderCtx e)) e);
  _ ← releaseToken;
  loseLeadership.

Definition Resign : EM (elect_err + unit) :=
  _ ← loseLeadership;
  o ← releaseToken;
  match o with
  | Some _ => ok tt
  | None => fail ErrLease
  end.

(** [elector.Status] *)
Record Status := mkStatus { est_Leader : bool; est_LeaderID : string; est_Term : Z; est_LeaseRemaining : Z }.

Definition Status_of (now : Z) (e : RedisElector) : Status :=
  if IsLeader e
  then mkStatus true (el_instanceID e) (el_term e) (Z.max 0 (el_expiresAt e -i now))
  else mkStatus false (el_instanceID e) 0 0.

(** ** The elector of a single instance *)

(** [elector.AlwaysLeader] *)
Record AlwaysLeader := mkAlwaysLeader { al_leader : bool; al_leaderCtx : option bool }.

Definition NewAlwaysLeader : AlwaysLeader := mkAlwaysLeader true None.

Definition Always_Campaign (ctxErr : bool) (e : AlwaysLeader) : (elect_err + bool) * AlwaysLeader :=
  if ctxErr then (inl ErrContext, e)
  else (inr true, mkAlwaysLeader true (Some true)).

Definition Always_IsLeader (e : AlwaysLeader) : bool := al_leader e.
Definition Always_Term (e : AlwaysLeader) : Z := if negb (Always_IsLeader e) then 0 else 1.
Definition Always_Resign (e : AlwaysLeader) : AlwaysLeader :=
  mkAlwaysLeader false (cancel_ctx (al_leaderCtx e)).
Definition Always_Status (e : AlwaysLeader) : Status :=
  mkStatus (Always_IsLeader e) "single-instance" (Always_Term e) 0.

(** ** The electors of a deployment *)

Inductive eop := ECampaign (ctxErr : bool) | ETry (now : Z) | ECancelled | ERenew (now : Z) | ELoopEnds | EResign.

Definition run_eop (op : eop) : EM unit :=
  match op with
  | ECampaign c => _ ← Campaign_begin c; mret tt
  | ETry now => _ ← Campaign_try now; mret tt
  | ECancelled => _ ← Campaign_cancelled; mret tt
  | ERenew now => renewLoop_tick now
  | ELoopEnds => renewLoop_cancelled
  | EResign => _ ← Resign; mret tt
  end.

(** The electors by token, and the server they share. *)
Record Deployment := mkDeployment { dp_electors : gmap string RedisElector; dp_redis : Redis }.

(** Everything else that may happen on the server keeps lease and term; the
    clock moves at will. *)
Definition election_kept (r r' : Redis) : Prop := r_lease r' = r_lease r /\ r_term r' = r_term r.

Inductive election_step : Deployment -> Deployment -> Prop :=
  | es_run k e e' n op f d :
      dp_electors d !! k = Some e ->
      run_eop op (e, mkNet (dp_redis d) (fun _ => f) (fun _ r => r) 0) = Some (tt, (e', n)) ->
      election_step d (mkDeployment (<[k := e']> (dp_electors d)) (n_redis n))
  | es_start k e d :
      dp_electors d !! k = None -> el_token e = k -> el_leader e = false ->
      election_step d (mkDeployment (<[k := e]> (dp_electors d)) (dp_redis d))
  | es_crash k d : election_step d (mkDeployment (delete k (dp_electors d)) (dp_redis d))
  | es_other r d : election_kept (dp_redis d) r -> election_step d (mkDeployment (dp_electors d) r).

Record election_inv (d : Deployment) : Prop := {
  ei_token : forall k e, dp_electors d !! k = Some e -> el_token e = k;
  ei_range : 0 <= default 0 (r_term (dp_redis d));
  ei_term : forall k e, dp_electors d !! k = Some e -> el_leader e = true ->
    1 <= el_term e <= default 0 (r_term (dp_redis d));
  ei_distinct : forall k1 k2 e1 e2, dp_electors d !! k1 = Some e1 -> dp_electors d !! k2 = Some e2 -> k1 <> k2 ->
    el_leader e1 = true -> el_leader e2 = true -> el_term e1 <> el_term e2;
  ei_lease : forall tok x k e, r_lease (dp_redis d) = Some (tok, x) -> dp_electors d !! k = Some e ->
    el_leader e = true -> el_term e = default 0 (r_term (dp_redis d)) -> k = tok
}.

(** ** Lemmas *)

(** What one operation of the elector [e] does to it and to the server. *)
Definition elector_effect (e : RedisElector) (r : Redis) (e' : RedisElector) (r' : Redis) : Prop :=
  el_token e' = el_token e /\
  ((r_term r' = r_term r /\ (el_leader e' = true -> el_leader e = true /\ el_term e' = el_term e)
    /\ (r_lease r' = r_lease r \/ r_lease r' = None
        \/ exists x x', r_lease r = Some (el_token e, x) /\ r_lease r' = Some (el_token e, x')))
   \/ (r_term r' = Some (default 0 (r_term r) + 1) /\ (exists x, r_lease r' = Some (el_token e, x))
       /\ (el_leader e' = true -> el_term e' = default 0 (r_term r) + 1
                                  \/ el_leader e = true /\ el_term e' = el_term e))).

Ltac e_step :=
  lazymatch goal with
  | |- wp (_ ≫= _) _ _ => apply wp_bind
  | |- wp (mret _) _ _ => apply wp_ret
  | |- wp getE _ _ => apply wp_gets
  | |- wp (modE _) _ _ => apply wp_modify
  | |- wp (netE _) _ _ => apply wp_zoom
  | |- wp (let _ := _ in _) _ _ => cbv zeta
  | |- wp ((fun _ => _) _) _ _ => cbv beta
  end.
Ltac e_steps := repeat e_step.

Section effects.
Context (e : RedisElector) (r : Redis).

Lemma wp_script {A} (g : Redis -> A * Redis) f (Q : option A -> Net -> Prop) :
  (forall n, n_redis n = (g r).2 -> Q (Some (g r).1) n) -> (forall n, n_redis n = r -> Q None n) ->
  (forall n, n_redis n = (g r).2 -> Q None n) -> wp (cmd g) Q (mkNet r (fun _ => f) (fun _ r => r) 0).
Proof. intros. apply wp_cmd; cbn; auto. Qed.

Lemma acquire_cases ttl :
  let '(o, r') := acquireLeaseAndTerm (el_token e) ttl r in
  ((o = None \/ o = Some 0) /\ r' = r) \/
  (o = Some (default 0 (r_term r) + 1) /\ r_term r' = o /\ exists x, r_lease r' = Some (el_token e, x)).
Proof.
  unfold acquireLeaseAndTerm. destruct (_ <=? 0); [auto|]. destruct (live r (r_lease r)); [auto|].
  right. split; [done|]. split; [done|]. eexists. done.
Qed.

Lemma renew_cases ttl :
  let r' := (renewIfTokenMatches (el_token e) ttl r).2 in
  r' = r \/ r_term r' = r_term r /\ exists x x', r_lease r = Some (el_token e, x) /\ r_lease r' = Some (el_token e, x').
Proof.
  cbn zeta. unfold renewIfTokenMatches. destruct (live r (r_lease r)) as [t|] eqn:Hl; [|by left].
  case_bool_decide as Ht; [|by left]. right. split; [done|].
  unfold live in Hl. destruct (r_lease r) as [[t' x]|]; [|done]. case_match; [|done]. simplify_eq. eexists _, _. done.
Qed.

Lemma delete_cases :
  let r' := (deleteIfTokenMatches (el_token e) r).2 in r' = r \/ r_term r' = r_term r /\ r_lease r' = None.
Proof. cbn zeta. unfold deleteIfTokenMatches. repeat case_match; auto. Qed.

Lemma effect_same e' : el_token e' = el_token e -> (el_leader e' = true -> el_leader e = true /\ el_term e' = el_term e) ->
  elector_effect e r e' r.
Proof. intros Ht Hl. split; [done|]. left. auto. Qed.

Lemma run_eop_effect op f :
  wp (run_eop op) (fun _ s => elector_effect e r s.1 (n_redis s.2)) (e, mkNet r (fun _ => f) (fun _ r => r) 0).
Proof.
  assert (Hdel : forall e' n, el_token e' = el_token e -> el_leader e' = false ->
    (n_redis n = r \/ n_redis n = (deleteIfTokenMatches (el_token e) r).2) -> elector_effect e r e' (n_redis n)).
  { intros e' n Ht Hl [-> | ->]; [by apply effect_same; [|rewrite Hl]|].
    split; [done|]. left. destruct delete_cases as [-> |[Hterm Hlease]]; [split_and!; [done|by rewrite Hl|by left]|].
    split_and!; [done|by rewrite Hl|auto]. }
  destruct op; cbn [run_eop].
  - unfold Campaign_begin, fail, ok. e_steps. destruct ctxErr; e_steps; [by apply effect_same|].
    cbn [fst]. repeat case_match; e_steps; cbn; apply effect_same; auto.
  - unfold Campaign_try, acquire. e_steps. cbn [fst snd].
    pose proof (acquire_cases (ro_TTL (el_options e))) as Hac.
    destruct (acquireLeaseAndTerm _ _ _) as [o r'] eqn:Hrun.
    assert (Hlost : forall n e', (n_redis n = r \/ n_redis n = r') -> el_token e' = el_token e -> el_leader e' = false ->
      elector_effect e r e' (n_redis n)).
    { intros n e' Hn Ht Hl. split; [done|]. destruct Hac as [[_ ->]|(-> & Hterm & Hx)].
      - left. assert (n_redis n = r) as -> by tauto. split_and!; [done|by rewrite Hl|by left].
      - destruct Hn as [-> | ->]; [left; split_and!; [done|by rewrite Hl|by left]|].
        right. split_and!; [exact Hterm|exact Hx|by rewrite Hl]. }
    apply wp_script; rewrite ?Hrun; cbn [fst snd]; intros n Hn; e_steps; cbn [mbind option_bind fmap option_fmap option_map].
    + destruct o as [term|]; cbn.
      2: { unfold loseLeadership, fail. e_steps. apply Hlost; [by right|done|done]. }
      destruct (Z.ltb_spec 0 term); unfold ok; e_steps; cbn.
      * destruct Hac as [[[?|[= ->]] _]|([= ->] & Hterm & Hx)]; [done|lia|].
        split; [done|]. right. rewrite Hn. auto.
      * split; [done|]. destruct Hac as [[_ ->]|([= ->] & Hterm & Hx)]; rewrite Hn; [left|right]; auto.
    + unfold loseLeadership, fail. e_steps. apply Hlost; [by left|done|done].
    + unfold loseLeadership, fail. e_steps. apply Hlost; [by right|done|done].
  - unfold Campaign_cancelled, fail. e_steps. cbn. by apply effect_same.
  - unfold renewLoop_tick, renew. e_steps. cbn [fst snd]. pose proof (renew_cases (ro_TTL (el_options e))) as Hre.
    cbn zeta in Hre. destruct (renewIfTokenMatches _ _ _) as [o r'] eqn:Hrun. cbn [snd] in Hre.
    assert (Hkeep : forall n e', (n_redis n = r \/ n_redis n = r') -> el_token e' = el_token e ->
      (el_leader e' = true -> el_leader e = true /\ el_term e' = el_term e) -> elector_effect e r e' (n_redis n)).
    { intros n e' Hn Ht Hl. split; [done|]. left. destruct Hre as [-> |[Hterm Hx]].
      - assert (n_redis n = r) as -> by tauto. auto.
      - destruct Hn as [-> | ->]; auto. }
    apply wp_script; rewrite ?Hrun; cbn [fst snd]; intros n Hn; e_steps.
    + destruct (o =? 1); e_steps; [|unfold loseLeadership; e_steps]; apply Hkeep; try (by right); cbn;
        try done; destruct (el_leader e) eqn:Hle; cbn; rewrite ?Hle; done.
    + unfold loseLeadership. e_steps. apply Hkeep; [by left|done|done].
    + unfold loseLeadership. e_steps. apply Hkeep; [by right|done|done].
  - unfold renewLoop_cancelled, releaseToken, loseLeadership. e_steps. cbn [fst snd].
    apply wp_script; intros n Hn; e_steps; apply Hdel; try done; cbn; auto.
  - unfold Resign, releaseToken, loseLeadership, ok, fail. e_steps. cbn [fst snd].
    apply wp_script; intros n Hn; e_steps; apply Hdel; try done; cbn; auto.
Qed.
End effects.

Lemma effect_inv k e r e' r' es :
  es !! k = Some e -> elector_effect e r e' r' -> election_inv (mkDeployment es r) ->
  election_inv (mkDeployment (<[k := e']> es) r').
Proof.
  intros Hk [Htok Heff] [Hti Hr Hte Hd Hl]. cbn in *.
  assert (Htok' : forall k0 e0, <[k := e']> es !! k0 = Some e0 -> el_token e0 = k0).
  { intros k0 e0 [[<- <-]|[_ H]]%lookup_insert_Some; [rewrite Htok; by apply Hti|by apply Hti]. }
  destruct Heff as [(Hterm & Hlead & Hlease)|(Hterm & [x Hlease] & Hlead)].
  - assert (Hold : forall k0 e0, <[k := e']> es !! k0 = Some e0 -> el_leader e0 = true ->
      exists e1, es !! k0 = Some e1 /\ el_leader e1 = true /\ el_term e0 = el_term e1).
    { intros k0 e0 [[<- <-]|[_ H]]%lookup_insert_Some Hl0; [exists e; by destruct (Hlead Hl0)|eauto]. }
    constructor; cbn; rewrite ?Hterm; try done.
    + intros k0 e0 H0 Hl0. destruct (Hold _ _ H0 Hl0) as (e1 & ? & ? & ->). eauto.
    + intros k1 k2 e1 e2 H1 H2 Hne Hl1 Hl2. destruct (Hold _ _ H1 Hl1) as (f1 & ? & ? & ->), (Hold _ _ H2 Hl2) as (f2 & ? & ? & ->). eauto.
    + intros tok x k0 e0 Hx H0 Hl0 Ht0. destruct (Hold _ _ H0 Hl0) as (e1 & ? & ? & Heq). rewrite Heq in Ht0.
      destruct Hlease as [Hs|[Hs|(y & y' & Hy & Hs)]]; rewrite Hs in Hx; [eauto|done|]. injection Hx as <- <-. eauto.
  - assert (Hnew : forall k0 e0, <[k := e']> es !! k0 = Some e0 -> el_leader e0 = true ->
      k0 = k /\ el_term e0 = default 0 (r_term r) + 1
      \/ exists e1, es !! k0 = Some e1 /\ el_leader e1 = true /\ el_term e0 = el_term e1 /\ (k0 = k \/ k0 <> k)).
    { intros k0 e0 [[<- <-]|[Hne H]]%lookup_insert_Some Hl0; [|right; exists e0; auto].
      destruct (Hlead Hl0) as [?|[? ?]]; [by left|right; exists e; auto]. }
    assert (Hdef : default 0 (r_term r') = default 0 (r_term r) + 1) by (by rewrite Hterm).
    constructor; cbn; rewrite ?Hdef; try done; try lia.
    + intros k0 e0 H0 Hl0. destruct (Hnew _ _ H0 Hl0) as [[_ ->]|(e1 & H1 & Hl1 & -> & _)]; [lia|].
      specialize (Hte _ _ H1 Hl1). lia.
    + intros k1 k2 e1 e2 H1 H2 Hne Hl1 Hl2.
      destruct (Hnew _ _ H1 Hl1) as [[-> ->]|(f1 & Hf1 & Hg1 & -> & _)], (Hnew _ _ H2 Hl2) as [[-> ->]|(f2 & Hf2 & Hg2 & -> & _)].
      * done.
      * specialize (Hte _ _ Hf2 Hg2). lia.
      * specialize (Hte _ _ Hf1 Hg1). lia.
      * eauto.
    + intros tok y k0 e0 Hx H0 Hl0 Ht0. rewrite Hlease in Hx. injection Hx as <- <-.
      destruct (Hnew _ _ H0 Hl0) as [[-> _]|(e1 & H1 & Hl1 & Heq & _)]; [symmetry; by apply Hti|].
      specialize (Hte _ _ H1 Hl1). lia.
Qed.

Lemma election_step_inv d d' : election_step d d' -> election_inv d -> election_inv d'.
Proof.
  intros [k e e' n op f d0 Hk Hrun|k e d0 Hk Ht Hl|k d0|r d0 [Hlease Hterm]] Hinv.
  - pose proof (run_eop_effect e (dp_redis d0) op f) as H. unfold wp in H. rewrite Hrun in H. cbn in H.
    destruct d0. by eapply effect_inv.
  - destruct Hinv as [Hti Hr Hte Hd Hls]. constructor; cbn; try done.
    + intros k0 e0 [[<- <-]|[_ H]]%lookup_insert_Some; [done|eauto].
    + intros k0 e0 [[<- <-]|[_ H]]%lookup_insert_Some Hl0; [congruence|eauto].
    + intros k1 k2 e1 e2 [[<- <-]|[_ H1]]%lookup_insert_Some [[<- <-]|[_ H2]]%lookup_insert_Some ? ? ?; try congruence. eauto.
    + intros tok x k0 e0 Hx [[<- <-]|[_ H]]%lookup_insert_Some Hl0; [congruence|eauto].
  - destruct Hinv as [Hti Hr Hte Hd Hls]. constructor; cbn; try done.
    + intros k0 e0 [_ H]%lookup_delete_Some. eauto.
    + intros k0 e0 [_ H]%lookup_delete_Some. eauto.
    + intros k1 k2 e1 e2 [_ H1]%lookup_delete_Some [_ H2]%lookup_delete_Some. eauto.
    + intros tok x k0 e0 Hx [_ H]%lookup_delete_Some. eauto.
  - destruct Hinv as [Hti Hr Hte Hd Hls]. constructor; cbn; rewrite ?Hlease, ?Hterm; done.
Qed.

(** A deployment starts with an empty server or a counter left by earlier runs. *)
Lemma initial_inv r : r_lease r = None -> 0 <= default 0 (r_term r) -> election_inv (mkDeployment ∅ r).
Proof. intros Hl Ht. by constructor. Qed.

Lemma election_reachable r d :
  r_lease r = None -> 0 <= default 0 (r_term r) -> rtc election_step (mkDeployment ∅ r) d -> election_inv d.
Proof.
  intros Hl Ht Hs. pose proof (initial_inv r Hl Ht) as Hinv.
  induction Hs as [|a b c Hab _ IH]; [done|]. eauto using election_step_inv.
Qed.

(** ** Properties *)

(** C5. Leader terms are never shared: however the coordinators campaign, renew,
    lose their connection, resign, crash and restart, and however the clock moves,
    two coordinators that both believe to be leader have different terms, none
    above the durable counter; and while some coordinator's token holds the lease,
    only that coordinator can have the counter's current term. *)
Theorem leaders_have_distinct_terms r d :
  r_lease r = None -> 0 <= default 0 (r_term r) -> rtc election_step (mkDeployment ∅ r) d ->
  (forall k1 k2 e1 e2, dp_electors d !! k1 = Some e1 -> dp_electors d !! k2 = Some e2 -> k1 <> k2 ->
     IsLeader e1 = true -> IsLeader e2 = true -> Term e1 <> Term e2) /\
  (forall tok x k e, r_lease (dp_redis d) = Some (tok, x) -> dp_electors d !! k = Some e ->
     IsLeader e = true -> Term e <= default 0 (r_term (dp_redis d))
       /\ (Term e = default 0 (r_term (dp_redis d)) -> k = tok)).
Proof.
  intros Hl Ht Hs. destruct (election_reachable r d Hl Ht Hs) as [Hti Hr Hte Hd Hls].
  assert (HT : forall e, IsLeader e = true -> el_leader e = true /\ Term e = el_term e).
  { unfold IsLeader, Term. intros e [-> ->]%andb_true_iff. done. }
  split.
  - intros k1 k2 e1 e2 H1 H2 Hne [Hl1 ->]%HT [Hl2 ->]%HT. eauto.
  - intros tok x k e Hx Hk [Hl1 ->]%HT. split; [by apply (Hte k)|]. eauto.
Qed.

(** A coordinator that lost its lease to another one cannot change the
    topology any more, even if it has not noticed: every change it submits for its
    own term is refused and leaves the server as it was. *)
Theorem stale_leader_cannot_commit r d tok x k e :
  r_lease r = None -> 0 <= default 0 (r_term r) -> rtc election_step (mkDeployment ∅ r) d ->
  r_lease (dp_redis d) = Some (tok, x) -> dp_electors d !! k = Some e -> k <> tok ->
  IsLeader e = true -> default 0 (r_term (dp_redis d)) < 10^14 ->
  forall expectedVersion next migration mapIDs,
    compareAndSetTopology expectedVersion next migration (Term e) mapIDs (dp_redis d) = (Reply (-4), dp_redis d).
Proof.
  intros Hl Ht Hs Hx Hk Hne Hlead Hsmall exp next mig mapIDs.
  destruct (election_reachable r d Hl Ht Hs) as [Hti Hr Hte Hd Hls].
  assert (HT : el_leader e = true /\ Term e = el_term e).
  { revert Hlead. unfold IsLeader, Term. intros [-> ->]%andb_true_iff. done. }
  destruct HT as [Hl1 ->]. specialize (Hte _ _ Hk Hl1).
  assert (el_term e <> default 0 (r_term (dp_redis d))) by (intros Heq; apply Hne; eauto).
  unfold compareAndSetTopology, cas_guard. rewrite (f64_small (default 0 (r_term (dp_redis d)))), (f64_small (el_term e)) by lia.
  rewrite (proj2 (Z.eqb_neq (el_term e) 0)), (proj2 (Z.eqb_neq (default 0 (r_term (dp_redis d))) (el_term e))) by lia.
  by rewrite orb_true_r.
Qed.

(** ** A concrete run: "c1" is elected, its lease expires, "c2" is elected. *)

Definition empty_redis : Redis := mkRedis None ∅ ∅ ∅ ∅ None None ∅ None None None [] 100 50.
Definition demo_elector (token : string) : RedisElector :=
  mkRedisElector token token (mkRedisOptions DefaultLeaseKey DefaultTermKey (6 * Second) (2 * Second) Second)
    false 0 0 None false.

(** The state after one operation without faults. *)
Definition elector_after (op : eop) (e : RedisElector) (r : Redis) : RedisElector * Redis :=
  match run_eop op (e, mkNet r (fun _ => F_ok) (fun _ r => r) 0) with
  | Some (_, (e', n)) => (e', n_redis n)
  | None => (e, r)
  end.

Definition demo_c1 : RedisElector * Redis := elector_after (ETry 0) (demo_elector "c1") empty_redis.
Definition demo_late_redis : Redis := set_r_clock (20 * Second) demo_c1.2.
Definition demo_c2 : RedisElector * Redis := elector_after (ETry 0) (demo_elector "c2") demo_late_redis.
Definition demo_deployment : Deployment :=
  mkDeployment (<["c2" := demo_c2.1]> (<["c2" := demo_elector "c2"]> {["c1" := demo_c1.1]})) demo_c2.2.

Lemma elector_after_run op e r e' r' :
  elector_after op e r = (e', r') -> (exists x, run_eop op (e, mkNet r (fun _ => F_ok) (fun _ r => r) 0) = Some x) ->
  exists n, run_eop op (e, mkNet r (fun _ => F_ok) (fun _ r => r) 0) = Some (tt, (e', n)) /\ n_redis n = r'.
Proof.
  unfold elector_after. intros H [[[] [e1 n]] Hx]. rewrite Hx in *. injection H as <- <-. eauto.
Qed.

Lemma run_step k e op d e' r' :
  dp_electors d !! k = Some e -> elector_after op e (dp_redis d) = (e', r') ->
  election_step d (mkDeployment (<[k := e']> (dp_electors d)) r').
Proof.
  intros Hk Ha. pose proof (run_eop_effect e (dp_redis d) op F_ok) as H. apply wp_run in H as (a & s & Hs & _).
  destruct (elector_after_run _ _ _ _ _ Ha) as (n & Hn & <-); [eauto|]. by apply (es_run k e e' n op F_ok).
Qed.

Lemma demo_deployment_reached : rtc election_step (mkDeployment ∅ empty_redis) demo_deployment.
Proof.
  eapply rtc_l; [apply (es_start "c1" (demo_elector "c1")); done|].
  eapply rtc_l; [apply (run_step "c1" (demo_elector "c1") (ETry 0) _ demo_c1.1 demo_c1.2); [reflexivity|exact (surjective_pairing demo_c1)]|].
  eapply rtc_l; [apply (es_other demo_late_redis); split; reflexivity|].
  eapply rtc_l; [apply (es_start "c2" (demo_elector "c2")); done|].
  eapply rtc_l; [apply (run_step "c2" (demo_elector "c2") (ETry 0) _ demo_c2.1 demo_c2.2); [reflexivity|exact (surjective_pairing demo_c2)]|].
  apply rtc_refl.
Qed.

Lemma leaders_have_distinct_terms_witness :
  IsLeader demo_c1.1 = true /\ IsLeader demo_c2.1 = true /\ Term demo_c1.1 <> Term demo_c2.1.
Proof.
  split; [reflexivity|]. split; [reflexivity|].
  destruct (leaders_have_distinct_terms empty_redis demo_deployment) as [H _];
    [reflexivity|discriminate|exact demo_deployment_reached|].
  apply (H "c1" "c2"); [reflexivity|reflexivity|discriminate|reflexivity|reflexivity].
Defined.

Lemma stale_leader_cannot_commit_witness :
  compareAndSetTopology 0 demo_next None (Term demo_c1.1) [] demo_c2.2 = (Reply (-4), demo_c2.2).
Proof.
  apply (stale_leader_cannot_commit empty_redis demo_deployment "c2" (26 * Second) "c1" demo_c1.1);
    [reflexivity|discriminate|exact demo_deployment_reached|reflexivity|reflexivity|discriminate|reflexivity|reflexivity].
Defined.

(** The single-instance elector's term 1 is never the durable term of a server
    on which no Redis election has taken place, so it cannot commit either. *)
Lemma single_instance_cannot_commit expectedVersion next migration mapIDs r :
  r_term r = None ->
  compareAndSetTopology expectedVersion next migration (Always_Term NewAlwaysLeader) mapIDs r = (Reply (-4), r).
Proof. intros Hr. unfold compareAndSetTopology, cas_guard. by rewrite Hr. Qed.
