(* ===== verification/Authority.v ===== *)
(** * The node's authority cache

    [node/authority.go]: the last topology a node has read, how long it may act
    on it, and the tests made against it.  The cache is protected by its own lock;
    each operation is one step on the cache and the clock. *)

From Stdlib Require Import ZArith Lia String.
From stdpp Require Import base sorting gmap strings list option.
From S2P Require Import Prelude Protocol Maps World WorldOps Topology Redis.

Open Scope Z_scope.
Open Scope go_scope.

(** The errors of the package [node]; a wrapped storage error keeps its cause. *)
Inductive node_err :=
  | ErrTopologyAuthorityUnavailable
  | ErrMapAuthorityDenied
  | ErrMapPromotionDenied
  | ErrNodeDraining
  | ErrDrainTopologyUnavailable
  | ErrDrainOwnershipPending (remaining : list string)
  | ErrSaveFinal (cause : node_err)
  | ErrNodeStore (cause : store_err)
  | ErrStaleTopology (received current : Z)
  | ErrUnknownLocalMap (mapID : string)
  | ErrMapNotReady
  | ErrMapNotHosted (mapID : string)
  | ErrNoProfile
  | ErrPromotionCheckpoint (mapID : string).

#[export] Instance node_err_dec : EqDecision node_err.
Proof.
  intros a b. unfold Decision. revert b.
  induction a; intros []; try (by right); try (by left);
    try (destruct (decide (remaining = remaining0)); [left; congruence|right; congruence]);
    try (destruct (decide (mapID = mapID0)); [left; congruence|right; congruence]);
    try (destruct (decide (received = received0)); destruct (decide (current = current0));
         [left; congruence|right; congruence..]).
  - destruct (IHa cause); [left; congruence|right; congruence].
  - destruct (decide (cause = cause0)); [left; congruence|right; congruence].
Defined.

(** [node.MapAuthority] *)
Record MapAuthority := mkMapAuthority {
  ma_MapID : string;
  ma_Owner : string;
  ma_Epoch : Z
}.

(** [node.authorityCache] *)
Record authorityCache := mkAuthorityCache {
  ac_nodeID : string;
  ac_grace : Z;
  ac_topology : Topology;
  ac_loadedAt : Z;
  ac_topologyOK : bool
}.

Definition set_ac_loaded (t : Topology) (loadedAt : Z) (c : authorityCache) : authorityCache :=
  mkAuthorityCache (ac_nodeID c) (ac_grace c) t loadedAt true.

Definition newAuthorityCache (nodeID : string) (grace : Z) : authorityCache :=
  mkAuthorityCache nodeID grace zero_Topology 0 false.

Abbreviation AS := (authorityCache * Env)%type.
Abbreviation AM := (ST AS).

Definition getC : AM authorityCache := gets fst.
Definition nowC : AM Z := now snd (fun e s => (s.1, e)).

(** [authorityCache.refresh]: [loaded] is what the loader returned, [None] for a
    nil loader. *)
Definition refresh (loaded : option (store_err + option Topology)) : AM (node_err + unit) :=
  match loaded with
  | None => fail ErrTopologyAuthorityUnavailable
  | Some (inl err) => fail (ErrNodeStore err)
  | Some (inr None) => fail ErrTopologyAuthorityUnavailable
  | Some (inr (Some topology)) =>
      match Validate None topology with
      | Some err => fail (ErrNodeStore err)
      | None =>
          c ← getC;
          if ac_topologyOK c && (t_Version topology <? t_Version (ac_topology c))
          then fail (ErrStaleTopology (t_Version topology) (t_Version (ac_topology c))) else
          t ← nowC;
          _ ← modify (fun s => (set_ac_loaded (Clone topology) t s.1, s.2));
          ok tt
      end
  end.

Definition freshLocked : AM bool :=
  c ← getC;
  if negb (ac_topologyOK c) || IsZero (ac_loadedAt c) then mret false else
  t ← nowC;
  mret (Sub t (ac_loadedAt c) <=? ac_grace c).

Definition owner_of (t : Topology) (mapID : string) : string := default "" (t_Owners t !! mapID).
Definition epoch_of (t : Topology) (mapID : string) : Z := default 0 (t_MapEpochs t !! mapID).

Definition Require_ (mapID : string) (epoch : Z) : AM (node_err + unit) :=
  fresh ← freshLocked;
  if negb fresh then fail ErrTopologyAuthorityUnavailable else
  c ← getC;
  let owner := owner_of (ac_topology c) mapID in
  let currentEpoch := epoch_of (ac_topology c) mapID in
  if negb (bool_decide (owner = ac_nodeID c)) || (currentEpoch =? 0) || negb (currentEpoch =? epoch)
  then fail ErrMapAuthorityDenied else ok tt.

(** [None] is Go's [false]. *)
Definition Current (mapID : string) : AM (option MapAuthority) :=
  fresh ← freshLocked;
  if negb fresh then mret None else
  c ← getC;
  let authority := mkMapAuthority mapID (owner_of (ac_topology c) mapID) (epoch_of (ac_topology c) mapID) in
  if negb (bool_decide (ma_Owner authority = ac_nodeID c)) || (ma_Epoch authority =? 0)
  then mret None else mret (Some authority).

(** The maps of a topology whose owner is [nodeID], in no particular order. *)
Definition owned_maps (nodeID : string) (t : Topology) : list string :=
  filter (fun m => t_Owners t !! m = Some nodeID /\ 0 < epoch_of t m) (map_keys (t_Owners t)).

Definition OwnedMapIDs : AM (option (list string)) :=
  fresh ← freshLocked;
  if negb fresh then mret None else
  c ← getC;
  mret (Some (sort_strings (owned_maps (ac_nodeID c) (ac_topology c)))).

Definition Cache_RequirePromotionCandidate (mapID : string) (targetEpoch : Z) : AM (node_err + unit) :=
  fresh ← freshLocked;
  if negb fresh then fail ErrTopologyAuthorityUnavailable else
  c ← getC;
  let owner := owner_of (ac_topology c) mapID in
  let currentEpoch := epoch_of (ac_topology c) mapID in
  if bool_decide (owner = "") || bool_decide (owner = ac_nodeID c) || (currentEpoch =? 0)
     || negb (targetEpoch =? currentEpoch +u 1)
  then fail ErrMapPromotionDenied else ok tt.

(** ** What the operations decide *)

(** The clock reading of the next [time.Now()]. *)
Definition next_now (e : Env) : Z := clk e (clk_pos e).

(** The cached topology may be acted on at time [t]. *)
Definition fresh_at (c : authorityCache) (t : Z) : bool :=
  ac_topologyOK c && negb (IsZero (ac_loadedAt c)) && (Sub t (ac_loadedAt c) <=? ac_grace c).

(** The cache names this node as owner of the map at the epoch. *)
Definition cache_owns (c : authorityCache) (mapID : string) (epoch : Z) : bool :=
  bool_decide (owner_of (ac_topology c) mapID = ac_nodeID c) && negb (epoch =? 0)
  && (epoch_of (ac_topology c) mapID =? epoch).

(** The cache holds either nothing or a valid topology. *)
Definition cache_inv (c : authorityCache) : Prop :=
  ac_topologyOK c = true -> valid_topology None (ac_topology c).

(** ** Rules *)

(** The environment after some readings of the clock: time is not read twice, and
    a seed stands for the same random numbers. *)
Definition later (e e' : Env) : Prop :=
  clk e' = clk e /\ rand_source e' = rand_source e /\ (clk_pos e <= clk_pos e')%nat.

#[export] Instance later_preorder : PreOrder later.
Proof. split; [by repeat split|]. intros e1 e2 e3 (E1 & R1 & ?) (E2 & R2 & ?). repeat split; [congruence..|lia]. Qed.

Lemma wp_getC c e (Q : authorityCache -> AS -> Prop) : Q c (c, e) -> wp getC Q (c, e).
Proof. done. Qed.

Lemma wp_nowC c e (Q : Z -> AS -> Prop) : (forall e', later e e' -> Q (next_now e) (c, e')) -> wp nowC Q (c, e).
Proof. intros H. apply H. repeat split; cbn; lia. Qed.

Ltac a_step :=
  lazymatch goal with
  | |- wp getC _ _ => apply wp_getC
  | |- wp nowC _ _ => apply wp_nowC; intros ? ?
  | _ => rm_step
  end.
Ltac a_steps := repeat a_step.

Section rules.
Context (c : authorityCache) (e : Env).

(** Every test leaves the cache as it is; the clock may advance by one reading. *)
Lemma wp_fresh (Q : bool -> AS -> Prop) :
  (forall e', later e e' -> Q (fresh_at c (next_now e)) (c, e')) -> wp freshLocked Q (c, e).
Proof.
  intros HQ. unfold freshLocked. a_steps. unfold fresh_at in HQ.
  destruct (ac_topologyOK c); cbn [negb orb andb] in *; [|a_steps; by apply HQ].
  destruct (IsZero (ac_loadedAt c)); cbn [negb andb] in *; a_steps; by apply HQ.
Qed.

Lemma wp_Require mapID epoch (Q : node_err + unit -> AS -> Prop) :
  (forall e' r, later e e' -> (r = inr tt <-> fresh_at c (next_now e) = true /\ cache_owns c mapID epoch = true) ->
     (forall err, r = inl err -> err = ErrTopologyAuthorityUnavailable \/ err = ErrMapAuthorityDenied) ->
     Q r (c, e')) ->
  wp (Require_ mapID epoch) Q (c, e).
Proof.
  intros HQ. unfold Require_. a_steps. apply wp_fresh. intros e' Hl. a_steps.
  destruct (fresh_at c (next_now e)) eqn:Hf; cbn [negb]; [|apply HQ; [done|split; [done|by intros []]|naive_solver]].
  a_steps. unfold cache_owns in HQ.
  destruct (bool_decide_reflect (owner_of (ac_topology c) mapID = ac_nodeID c)) as [Ho|Ho]; cbn [negb orb andb] in *;
    [|apply HQ; [done|split; [done|by intros []]|naive_solver]].
  destruct (Z.eqb_spec (epoch_of (ac_topology c) mapID) 0) as [H0|H0]; cbn [orb].
  { apply HQ; [done|split; [done|]|naive_solver]. intros [_ [?%negb_true_iff%Z.eqb_neq ?%Z.eqb_eq]%andb_true_iff]. congruence. }
  destruct (Z.eqb_spec (epoch_of (ac_topology c) mapID) epoch) as [He|He]; cbn [negb].
  - apply HQ; [done| |by intros ? [=]]. split; [|done]. intros _. split; [done|].
    destruct (Z.eqb_spec epoch 0); [congruence|done].
  - apply HQ; [done|split; [done|]|naive_solver]. by intros [_ [_ ?]%andb_true_iff].
Qed.

Lemma wp_Current mapID (Q : option MapAuthority -> AS -> Prop) :
  (forall e' o, later e e' -> (forall a, o = Some a <-> fresh_at c (next_now e) = true /\ a = mkMapAuthority mapID (ac_nodeID c) (epoch_of (ac_topology c) mapID)
                    /\ cache_owns c mapID (ma_Epoch a) = true) -> Q o (c, e')) ->
  wp (Current mapID) Q (c, e).
Proof.
  intros HQ. unfold Current. a_steps. apply wp_fresh. intros e' Hl. a_steps.
  destruct (fresh_at c (next_now e)) eqn:Hf; cbn [negb]; [|apply HQ; [done|naive_solver]].
  a_steps. cbn [ma_Owner ma_Epoch].
  destruct (bool_decide_reflect (owner_of (ac_topology c) mapID = ac_nodeID c)) as [Ho|Ho]; cbn [negb orb].
  - destruct (Z.eqb_spec (epoch_of (ac_topology c) mapID) 0) as [H0|H0]; (apply HQ; [done|]; intros a; unfold cache_owns).
    + split; [done|]. intros (_ & -> & H). cbn in H. rewrite H0, andb_false_r in H. done.
    + rewrite Ho. split; [|by intros (_ & -> & _)]. intros [= <-]. split_and!; [done|done|]. cbn [ma_Epoch].
      rewrite bool_decide_eq_true_2, Z.eqb_refl by done. by destruct (Z.eqb_spec (epoch_of (ac_topology c) mapID) 0).
  - apply HQ; [done|]. intros a. split; [done|]. intros (_ & -> & H). unfold cache_owns in H.
    by rewrite bool_decide_eq_false_2 in H.
Qed.

Lemma wp_OwnedMapIDs (Q : option (list string) -> AS -> Prop) :
  (forall e', later e e' -> Q (if fresh_at c (next_now e) then Some (sort_strings (owned_maps (ac_nodeID c) (ac_topology c))) else None)
                (c, e')) -> wp OwnedMapIDs Q (c, e).
Proof.
  intros HQ. unfold OwnedMapIDs. a_steps. apply wp_fresh. intros e' Hl. a_steps.
  specialize (HQ e' Hl). destruct (fresh_at c (next_now e)); cbn [negb]; by a_steps.
Qed.

Lemma wp_PromotionCandidate mapID target (Q : node_err + unit -> AS -> Prop) :
  (forall e' r, later e e' ->
     (r = inr tt <-> fresh_at c (next_now e) = true /\ owner_of (ac_topology c) mapID <> "" /\
        owner_of (ac_topology c) mapID <> ac_nodeID c /\ epoch_of (ac_topology c) mapID <> 0 /\
        target = u64 (epoch_of (ac_topology c) mapID + 1)) -> Q r (c, e')) ->
  wp (Cache_RequirePromotionCandidate mapID target) Q (c, e).
Proof.
  intros HQ. unfold Cache_RequirePromotionCandidate. a_steps. apply wp_fresh. intros e' Hl. a_steps.
  destruct (fresh_at c (next_now e)) eqn:Hf; cbn [negb]; [|apply HQ; [done|split; [done|by intros []]]].
  a_steps.
  destruct (bool_decide_reflect (owner_of (ac_topology c) mapID = "")); cbn [orb]; [apply HQ; [done|]; split; [done|naive_solver]|].
  destruct (bool_decide_reflect (owner_of (ac_topology c) mapID = ac_nodeID c)); cbn [orb]; [apply HQ; [done|]; split; [done|naive_solver]|].
  destruct (Z.eqb_spec (epoch_of (ac_topology c) mapID) 0); cbn [orb]; [apply HQ; [done|]; split; [done|naive_solver]|].
  destruct (Z.eqb_spec target (u64 (epoch_of (ac_topology c) mapID + 1))); cbn [negb]; (apply HQ; [done|]; naive_solver).
Qed.

(** A refresh either leaves the cache alone or installs a valid topology whose
    version is not below the cached one. *)
Lemma wp_cache_refresh loaded (Q : node_err + unit -> AS -> Prop) :
  (forall err, Q (inl err) (c, e)) ->
  (forall t e', later e e' -> loaded = Some (inr (Some t)) -> valid_topology None t ->
     (ac_topologyOK c = true -> t_Version (ac_topology c) <= t_Version t) ->
     Q (inr tt) (set_ac_loaded t (next_now e) c, e')) ->
  wp (refresh loaded) Q (c, e).
Proof.
  intros Hl Hr. unfold refresh. destruct loaded as [[err|[t|]]|]; try apply Hl.
  destruct (Validate None t) eqn:Hv; [apply Hl|]. a_steps.
  destruct (ac_topologyOK c && _) eqn:Hst; [apply Hl|]. a_steps. rewrite Clone_id.
  apply Hr; [done|done|by apply Validate_None|]. intros Hok. rewrite Hok in Hst. cbn in Hst. lia.
Qed.
End rules.

Lemma elem_of_owned_maps nodeID t m :
  m ∈ owned_maps nodeID t <-> t_Owners t !! m = Some nodeID /\ 0 < epoch_of t m.
Proof.
  unfold owned_maps. rewrite list_elem_of_filter, elem_of_map_keys. naive_solver.
Qed.
