(* ===== verification/Node.v ===== *)
(** * The map node

    [node/node.go] and [node/drain.go]: the node service, its gated operations
    on the maps it hosts, its three background loops and the drain protocol.  A
    node runs its own operations one at a time (the locks of the code keep them
    apart); what other processes do to Redis between two of its commands is part
    of the connection.  Each background loop is modelled by the body of one round;
    a round of the world loop or of the flush loop visits the hosted maps in an
    unspecified order.  [fuel] bounds the construction of a world ([NewWorld]);
    the constructor always sets the authority cache, so the nil tests on it have
    no counterpart. *)

From Stdlib Require Import ZArith Lia String.
From stdpp Require Import base sorting gmap strings list option.
From S2P Require Import Prelude Protocol Config Maps World WorldOps Topology Redis Store Authority.

Open Scope Z_scope.
Open Scope go_scope.

(** ** State *)

(** [node.NodeService]; [ns_loops] counts the started sets of background loops *)
Record NodeService := mkNodeService {
  ns_ID : string;
  ns_Addr : string;
  ns_store : bool;
  ns_candidateMapID : string;
  ns_runtime : NodeConfig;
  ns_authority : authorityCache;
  ns_healthy : bool;
  ns_draining : bool;
  ns_lastHeartbeat : Z;
  ns_maps : gmap string World;
  ns_ln : bool;
  ns_stopped : bool;
  ns_loops : nat
}.

Definition set_ns_authority (v : authorityCache) (n : NodeService) : NodeService :=
  mkNodeService (ns_ID n) (ns_Addr n) (ns_store n) (ns_candidateMapID n) (ns_runtime n) v (ns_healthy n) (ns_draining n) (ns_lastHeartbeat n) (ns_maps n) (ns_ln n) (ns_stopped n) (ns_loops n).
Definition set_ns_health (healthy : bool) (beat : Z) (n : NodeService) : NodeService :=
  mkNodeService (ns_ID n) (ns_Addr n) (ns_store n) (ns_candidateMapID n) (ns_runtime n) (ns_authority n) healthy (ns_draining n) beat (ns_maps n) (ns_ln n) (ns_stopped n) (ns_loops n).
Definition set_ns_draining (v : bool) (n : NodeService) : NodeService :=
  mkNodeService (ns_ID n) (ns_Addr n) (ns_store n) (ns_candidateMapID n) (ns_runtime n) (ns_authority n) (ns_healthy n) v (ns_lastHeartbeat n) (ns_maps n) (ns_ln n) (ns_stopped n) (ns_loops n).
Definition set_ns_maps (v : gmap string World) (n : NodeService) : NodeService :=
  mkNodeService (ns_ID n) (ns_Addr n) (ns_store n) (ns_candidateMapID n) (ns_runtime n) (ns_authority n) (ns_healthy n) (ns_draining n) (ns_lastHeartbeat n) v (ns_ln n) (ns_stopped n) (ns_loops n).
Definition set_ns_run (ln stopped : bool) (loops : nat) (n : NodeService) : NodeService :=
  mkNodeService (ns_ID n) (ns_Addr n) (ns_store n) (ns_candidateMapID n) (ns_runtime n) (ns_authority n) (ns_healthy n) (ns_draining n) (ns_lastHeartbeat n) (ns_maps n) ln stopped loops.

(** A node, its connection to Redis and its process environment. *)
Record NodeSt := mkNodeSt {
  nd : NodeService;
  nt : Net;
  ev : Env
}.

Definition set_nd (v : NodeService) (s : NodeSt) : NodeSt := mkNodeSt v (nt s) (ev s).
Definition set_nt (v : Net) (s : NodeSt) : NodeSt := mkNodeSt (nd s) v (ev s).
Definition set_ev (v : Env) (s : NodeSt) : NodeSt := mkNodeSt (nd s) (nt s) v.

Abbreviation NM := (ST NodeSt).

Definition self {A} (f : NodeService -> A) : NM A := gets (fun s => f (nd s)).
Definition modN (f : NodeService -> NodeService) : NM unit := modify (fun s => set_nd (f (nd s)) s).
Definition nowN : NM Z := now ev set_ev.

(** A call of the store; a nil store is dereferenced. *)
Definition onNet {A} (m : RM A) : NM A := zoom nt set_nt m.
Definition onStore {A} (m : RM A) : NM A :=
  store ← self ns_store;
  if (store : bool) then onNet m else panic.

Definition onCache {A} (m : AM A) : NM A :=
  zoom (fun s : NodeSt => (ns_authority (nd s), ev s))
       (fun (ce : AS) s => mkNodeSt (set_ns_authority ce.1 (nd s)) (nt s) ce.2) m.

(** A method of a world that is not stored in the node. *)
Definition onWorld {A} (w : World) (m : W A) : NM (A * World) := fun s =>
  match m (w, ev s) with
  | Some (a, (w', e')) => Some ((a, w'), set_ev e' s)
  | None => None
  end.

(** A method of a hosted world; [absent] when the map is not hosted. *)
Definition with_instance {A} (mapID : string) (absent : NM A) (m : W A) : NM A :=
  maps ← self ns_maps;
  match maps !! mapID with
  | None => absent
  | Some instance =>
      '(a, instance') ← onWorld instance m;
      _ ← modN (fun n => set_ns_maps (<[mapID := instance']> (ns_maps n)) n);
      mret a
  end.

(** [for _, x := range l { if err := f(x); err != nil { return err } }] *)
Fixpoint each {A} (f : A -> NM (node_err + unit)) (l : list A) : NM (node_err + unit) :=
  match l with
  | [] => ok tt
  | x :: l' => _ ←! f x; each f l'
  end.

Definition NewNodeService (id addr : string) (store : bool) (runtime : NodeConfig) (candidateMapID : string)
    (now : Z) : NodeService :=
  mkNodeService id addr store candidateMapID runtime
    (newAuthorityCache id (nc_TopologyAuthorityGrace runtime)) true false now ∅ false false 0.

(** [Start]: nothing sets [n.ln], so its test never stops a second call. *)
Definition Start : NM unit :=
  n ← self id;
  if ns_ln n then mret tt else
  t ← nowN;
  modN (fun n => set_ns_run (ns_ln n) false (S (ns_loops n)) (set_ns_health true t n)).

Definition Stop : NM unit :=
  modN (fun n => set_ns_run false true (ns_loops n) (set_ns_health false (ns_lastHeartbeat n) n)).

Section node.
Context (fuel : nat).

Definition newWorld (cfg : MapConfig) : NM World := fun s =>
  match NewWorld fuel cfg (ev s) with
  | Some (w, e') => Some (w, set_ev e' s)
  | None => None
  end.

(** ** Topology and hosted maps *)

Definition restorable (mapID : string) (o : option MapCheckpoint) : option MapCheckpoint :=
  match o with
  | Some cp => if bool_decide (cp_MapID cp = mapID) && (0 <? cp_Version cp) then Some cp else None
  | None => None
  end.

Definition ensureHostedMap (mapID : string) : NM (node_err + unit) :=
  maps ← self ns_maps;
  match maps !! mapID with
  | Some _ => ok tt
  | None =>
      match FindConfig mapID with
      | None => fail (ErrUnknownLocalMap mapID)
      | Some config =>
          instance ← newWorld config;
          store ← self ns_store;
          o ← (if (store : bool) then onNet (LoadCheckpoint mapID) else mret None);
          '(_, instance) ← (match restorable mapID o with
                            | Some checkpoint => onWorld instance (RestoreCheckpoint checkpoint)
                            | None => mret (tt, instance)
                            end);
          maps ← self ns_maps;
          match maps !! mapID with
          | Some _ => ok tt
          | None => _ ← modN (fun n => set_ns_maps (<[mapID := instance]> (ns_maps n)) n); ok tt
          end
      end
  end.

Definition ensureOwnedMaps : NM (node_err + unit) :=
  o ← onCache OwnedMapIDs;
  match o with
  | None => fail ErrTopologyAuthorityUnavailable
  | Some mapIDs => each ensureHostedMap mapIDs
  end.

(** One round of [topologyRefreshLoop]. *)
Definition refreshTopology : NM (node_err + unit) :=
  store ← self ns_store;
  if negb store then fail ErrTopologyAuthorityUnavailable else
  loaded ← onNet LoadTopology;
  _ ←! onCache (refresh (Some loaded));
  ensureOwnedMaps.

(** ** The authority gate *)

Definition requireAuthority (mapID : string) (epoch : Z) : NM (node_err + unit) :=
  _ ←! onCache (Require_ mapID epoch);
  n ← self id;
  if negb (ns_store n) then fail ErrTopologyAuthorityUnavailable else
  r ← onNet (RequireMapFence mapID (ns_ID n) epoch);
  match r with
  | inl _ => fail ErrMapAuthorityDenied
  | inr _ => ok tt
  end.

Definition RequireAuthority (mapID : string) (epoch : Z) : NM (node_err + unit) :=
  draining ← self ns_draining;
  if (draining : bool) then fail ErrNodeDraining else requireAuthority mapID epoch.

(** [beginWrite]; the lock it returns is released by its caller. *)
Definition beginWrite (mapID : string) (epoch : Z) : NM (node_err + unit) :=
  draining ← self ns_draining;
  if (draining : bool) then fail ErrNodeDraining else requireAuthority mapID epoch.

Definition RequirePromotionCandidate (mapID : string) (targetEpoch : Z) : NM (node_err + unit) :=
  n ← self id;
  if ns_draining n then fail ErrNodeDraining else
  if negb (bool_decide (ns_candidateMapID n = "")) && negb (bool_decide (mapID = ns_candidateMapID n))
  then fail ErrMapPromotionDenied else
  onCache (Cache_RequirePromotionCandidate mapID targetEpoch).

(** ** Player operations *)

(** A gated operation on a hosted world: the shape shared by the player RPCs. *)
Definition gated {A} (mapID : string) (epoch : Z) (absent : A) (m : W A) : NM (node_err + A) :=
  _ ←! beginWrite mapID epoch;
  with_instance mapID (ok absent) (a ← m; ok a).

Definition AddPlayer (mapID : string) (epoch : Z) (profile : UserProfile) : NM (node_err + unit) :=
  _ ←! beginWrite mapID epoch;
  _ ←! ensureHostedMap mapID;
  with_instance mapID (fail ErrMapNotReady) (_ ← AddOrRestorePlayer profile; ok tt).

Definition RemovePlayer (mapID username : string) (epoch : Z) : NM (node_err + UserProfile * bool) :=
  gated mapID epoch (zero_UserProfile, false) (WorldOps.RemovePlayer username).

Definition MovePlayer (mapID username dir : string) (epoch : Z) : NM (node_err + string * UserProfile * bool) :=
  gated mapID epoch no_reply (WorldOps.MovePlayer username dir).

Definition Attack (mapID username : string) (epoch : Z)
    : NM (node_err + string * string * string * UserProfile * bool) :=
  gated mapID epoch ("", "", "", zero_UserProfile, false) (WorldOps.Attack username).

Definition Heal (mapID username : string) (epoch : Z) : NM (node_err + string * UserProfile * bool) :=
  gated mapID epoch no_reply (HealPlayer username).

Definition BuyItem (mapID username item : string) (epoch : Z) : NM (node_err + string * UserProfile * bool) :=
  gated mapID epoch no_reply (WorldOps.BuyItem username item).

Definition Profile (mapID username : string) : NM (UserProfile * bool) :=
  with_instance mapID (mret (zero_UserProfile, false)) (ProfileOf username).

Definition RewardPlayer (mapID username : string) (treasureDelta victoryDelta : Z) (epoch : Z)
    : NM (node_err + UserProfile * bool) :=
  gated mapID epoch (zero_UserProfile, false) (WorldOps.RewardPlayer username treasureDelta victoryDelta).

Definition manhattan (ax ay bx by_ : Z) : Z :=
  let dx := ax -i bx in
  let dx := if dx <? 0 then 0 -i dx else dx in
  let dy := ay -i by_ in
  let dy := if dy <? 0 then 0 -i dy else dy in
  dx +i dy.

(** The part of [AttackBoss] after the killing blow: the state text uses the
    name in the document read again, empty when it cannot be read. *)
Definition boss_killed (username : string) : NM string :=
  r ← onStore LoadGlobalBoss;
  let state := match r with inr (state, _) => state | inl _ => zero_BossState end in
  _ ← (if boss_Alive state then
         t ← nowN;
         let state := mkBossState (boss_Name state) false username (t + 15 * Second) (boss_AttackGap state)
                        (boss_Sites state) (boss_Version state) in
         _ ← onStore (SaveGlobalBoss state); mret tt
       else mret tt);
  mret (boss_Name state).

Definition newline : string := String (Ascii.ascii_of_nat 10) EmptyString.

Definition AttackBoss (mapID username : string) (epoch : Z) : NM (node_err + string * UserProfile * bool) :=
  _ ←! beginWrite mapID epoch;
  '(profile, hosted, found) ←
    with_instance mapID (mret (zero_UserProfile, false, false)) ('(p, found) ← ProfileOf username; mret (p, true, found));
  if negb (hosted : bool) then fail (ErrMapNotHosted mapID) else
  if negb found then fail ErrNoProfile else
  if negb (up_Alive profile) then ok ("倒地时无法攻击", profile, true) else
  r ← onStore LoadGlobalBoss;
  match r with
  | inl _ => ok ("首领还在复活倒计时", profile, true)
  | inr (state, hp) =>
      if negb (boss_Alive state) then ok ("首领还在复活倒计时", profile, true) else
      match List.find (fun site => bool_decide (bs_MapID site = mapID)) (boss_Sites state) with
      | None => ok ("当前地图没有首领的位面", profile, true)
      | Some bossSite =>
          if BossAtkRange <? manhattan (bs_X bossSite) (bs_Y bossSite) (up_X profile) (up_Y profile)
          then ok ("首领在范围外,剩余HP:" +:+ itoa hp, profile, true) else
          r ← onStore (AtomicAttackBoss username (up_Attack profile));
          match r with
          | inl err => fail (ErrNodeStore err)
          | inr (newHp, isKiller, _) =>
              if newHp =? -1 then ok ("首领还在复活倒计时", profile, true) else
              let event := username +:+ " 对 " +:+ boss_Name state +:+ " 造成了 " +:+ itoa (up_Attack profile)
                             +:+ " 点伤害！剩余HP：" +:+ itoa newHp in
              if (isKiller : bool) then
                name ← boss_killed username;
                ok (event +:+ newline +:+ "boss:" +:+ name +:+ ",已经死亡！终结者：" +:+ username, profile, true)
              else ok (event, profile, true)
          end
      end
  end.

(** ** Read operations *)

Definition Snapshot (mapID : string) : NM (node_err + MapView) :=
  id ← self ns_ID;
  with_instance mapID (fail (ErrMapNotHosted mapID)) (v ← WorldOps.Snapshot id; ok v).

Definition Counts (mapID : string) : NM (node_err + Z * Z * Z * Z) :=
  with_instance mapID (fail (ErrMapNotHosted mapID)) (w ← getW; ok (WorldOps.Counts w)).

Definition Checkpoint (mapID : string) : NM (node_err + MapCheckpoint) :=
  id ← self ns_ID;
  checkpoint ←! with_instance mapID (fail (ErrMapNotHosted mapID)) (cp ← CaptureCheckpoint id; ok cp);
  o ← onCache (Current mapID);
  match o with
  | Some authority => ok (set_cp_MapEpoch (ma_Epoch authority) checkpoint)
  | None => ok checkpoint
  end.

Definition View : NM NodeView :=
  n ← self id;
  fmt ← gets (fun s => rfc3339 (ev s));
  mret (mkNodeView (ns_ID n) (ns_Addr n) (ns_healthy n) (sort_strings (map_keys (ns_maps n))) (fmt (ns_lastHeartbeat n))).

Definition SetHealthy (healthy : bool) : NM bool :=
  n ← self id;
  t ← (if healthy then nowN else mret (ns_lastHeartbeat n));
  _ ← modN (set_ns_health healthy t);
  mret (ns_healthy n).

(** ** Hosting *)

Definition RemoveHostedMap (mapID : string) : NM unit :=
  modN (fun n => set_ns_maps (delete mapID (ns_maps n)) n).

Definition InstallPrimaryMap (cfg : MapConfig) : NM unit :=
  maps ← self ns_maps;
  match maps !! cfg_ID cfg with
  | Some _ => mret tt
  | None => w ← newWorld cfg; modN (fun n => set_ns_maps (<[cfg_ID cfg := w]> (ns_maps n)) n)
  end.

Definition RestorePrimaryMap (cfg : MapConfig) (cp : MapCheckpoint) : NM unit :=
  _ ← InstallPrimaryMap cfg;
  with_instance (cfg_ID cfg) (mret tt) (RestoreCheckpoint cp).

Definition Promote (mapID : string) (cfg : MapConfig) (checkpoint : MapCheckpoint) (targetEpoch : Z)
    : NM (node_err + unit) :=
  _ ←! RequirePromotionCandidate mapID targetEpoch;
  if negb (bool_decide (cp_MapID checkpoint = mapID)) || bool_decide (cp_NodeID checkpoint = "")
     || (cp_Version checkpoint <=? 0) || negb (cp_MapEpoch checkpoint =? targetEpoch -u 1)
  then fail (ErrPromotionCheckpoint mapID) else
  instance ← newWorld cfg;
  '(_, instance) ← onWorld instance (RestoreCheckpoint checkpoint);
  _ ← modN (fun n => set_ns_maps (<[mapID := instance]> (ns_maps n)) n);
  ok tt.

(** ** The loops *)

Definition range_maps : NM (list string) :=
  maps ← self ns_maps;
  range_order ev set_ev (map_keys maps).

(** The hot session the flush loop writes for a profile. *)
Definition hot_session (mapID nodeID : string) (t : Z) (profile : UserProfile) : HotSession :=
  mkHotSession (up_Username profile) mapID nodeID (up_X profile) (up_Y profile) (up_HP profile)
    (up_Treasures profile) 0 t.

(** One round of [flushLoop]: takes the time of the last flush, returns the new one. *)
Definition flushLoop_tick (since : Z) : NM Z :=
  t ← nowN;
  n ← self id;
  if ns_draining (n : NodeService) then mret t else
  mapIDs ← range_maps;
  _ ← foldM (fun _ mapID =>
      o ← onCache (Current mapID);
      match o with
      | None => mret tt
      | Some _ =>
          profiles ← with_instance mapID (mret []) (FlushProfiles since);
          foldM (fun _ profile =>
              _ ← onStore (SaveHotSession (hot_session mapID (ns_ID n) t profile)); mret tt) tt profiles
      end) tt mapIDs;
  mret t.

Definition publish_all (mapID : string) (events : list string) : NM unit :=
  foldM (fun _ event => _ ← onStore (PublishEvent ("events:map:" +:+ mapID) event); mret tt) tt events.

(** The body of [tickLoop] for one hosted map. *)
Definition tick_map (mapID : string) : NM unit :=
  o ← onCache (Current mapID);
  match o with
  | None => mret tt
  | Some authority =>
      r ← beginWrite mapID (ma_Epoch authority);
      match r with
      | inl _ => mret tt
      | inr _ =>
          events ← with_instance mapID (mret []) BackgroundStep;
          r ← requireAuthority mapID (ma_Epoch authority);
          match r with
          | inl _ => mret tt
          | inr _ =>
              _ ← publish_all mapID events;
              n ← self id;
              cp ← with_instance mapID (mret None) (cp ← CaptureCheckpoint (ns_ID n); mret (Some cp));
              match cp with
              | None => mret tt
              | Some cp =>
                  _ ← onStore (SaveCheckpointIfOwner (set_cp_MapEpoch (ma_Epoch authority) cp) (ns_ID n) (ma_Epoch authority));
                  mret tt
              end
          end
      end
  end.

(** One round of [tickLoop]. *)
Definition tickLoop_tick : NM unit :=
  n ← self id;
  if negb (ns_store n) then mret tt else
  mapIDs ← range_maps;
  foldM (fun _ mapID => tick_map mapID) tt mapIDs.

(** ** Draining *)

Definition saveFinalCheckpoint (mapID : string) : NM (node_err + unit) :=
  o ← onCache (Current mapID);
  match o with
  | None => ok tt
  | Some authority =>
      _ ←! requireAuthority mapID (ma_Epoch authority);
      n ← self id;
      o ← with_instance mapID (mret None) (cp ← CaptureCheckpoint (ns_ID n); mret (Some cp));
      match o with
      | None => ok tt
      | Some checkpoint =>
          r ← onStore (SaveCheckpointIfOwner (set_cp_MapEpoch (ma_Epoch authority) checkpoint) (ns_ID n) (ma_Epoch authority));
          match r with
          | inl err => fail (ErrNodeStore err)
          | inr _ => ok tt
          end
      end
  end.

Definition saveFinalCheckpoints : NM (node_err + unit) :=
  n ← self id;
  if negb (ns_store n) then fail ErrDrainTopologyUnavailable else
  o ← onCache OwnedMapIDs;
  match o with
  | None => fail ErrDrainTopologyUnavailable
  | Some ownedMapIDs => each saveFinalCheckpoint ownedMapIDs
  end.

(** The waiting loop: [between] is what the rest of the node does before each
    further poll; its end is the expiry of the context. *)
Fixpoint drain_wait (between : list (NM unit)) : NM (node_err + unit) :=
  o ← onCache OwnedMapIDs;
  match o with
  | None => fail ErrDrainTopologyUnavailable
  | Some [] => ok tt
  | Some ownedMapIDs =>
      match between with
      | [] => fail (ErrDrainOwnershipPending ownedMapIDs)
      | activity :: rest => _ ← activity; drain_wait rest
      end
  end.

(** [BeginDrain] for a context that is not nil; [time.NewTicker] panics on an
    interval that is not positive. *)
Definition BeginDrain (between : list (NM unit)) : NM (node_err + unit) :=
  alreadyDraining ← self ns_draining;
  _ ← modN (set_ns_draining true);
  r ← (if negb alreadyDraining then saveFinalCheckpoints else ok tt);
  match r with
  | inl err => fail (ErrSaveFinal err)
  | inr _ =>
      interval ← self (fun n => nc_DrainPollInterval (ns_runtime n));
      if interval <=? 0 then panic else drain_wait between
  end.

Definition StopAfterDrain (between : list (NM unit)) : NM (node_err + unit) :=
  _ ←! BeginDrain between;
  _ ← Stop;
  ok tt.
End node.

(** [node.DrainStatus] *)
Record DrainStatus := mkDrainStatus {
  ds_Draining : bool;
  ds_ActiveConnections : Z
}.

Definition DrainState (n : NodeService) : DrainStatus := mkDrainStatus (ns_draining n) 0.
Definition IsDraining (n : NodeService) : bool := ns_draining n.
Definition IsHealthy (n : NodeService) : bool := ns_healthy n.
Definition NodeID (n : NodeService) : string := ns_ID n.
