(* ===== verification/NodeProps.v ===== *)
(** * The map node: gated writes, fencing, drain and promotion

    Properties of [Node]: what the authority gate lets through, what becomes of a
    node whose cache or fence is out of date, and when a node may stop. *)

From Stdlib Require Import ZArith Lia String.
From stdpp Require Import base sorting gmap strings list option relations.
From S2P Require Import Prelude Protocol Config Maps World WorldOps WorldInv WorldSafe WorldProps WorldBuild WorldStart Topology Redis Store StoreProps Authority Node.

Open Scope Z_scope.
Open Scope go_scope.

(** ** Rules *)

Lemma set_ns_authority_id n : set_ns_authority (ns_authority n) n = n.
Proof. by destruct n. Qed.

Section rules.
Context (n : NodeService) (t : Net) (e : Env).

Lemma wp_self {A} (f : NodeService -> A) Q : Q (f n) (mkNodeSt n t e) -> wp (self f) Q (mkNodeSt n t e).
Proof. done. Qed.

Lemma wp_modN f Q : Q tt (mkNodeSt (f n) t e) -> wp (modN f) Q (mkNodeSt n t e).
Proof. done. Qed.

Lemma wp_nowN (Q : Z -> NodeSt -> Prop) :
  (forall e', later e e' -> Q (next_now e) (mkNodeSt n t e')) -> wp nowN Q (mkNodeSt n t e).
Proof. intros H. apply H. repeat split; cbn; lia. Qed.

Lemma wp_onNet {A} (m : RM A) Q : wp m (fun a t' => Q a (mkNodeSt n t' e)) t -> wp (onNet m) Q (mkNodeSt n t e).
Proof. intros H. by apply wp_zoom. Qed.

Lemma wp_onStore {A} (m : RM A) Q :
  ns_store n = true -> wp m (fun a t' => Q a (mkNodeSt n t' e)) t -> wp (onStore m) Q (mkNodeSt n t e).
Proof. intros Hs H. unfold onStore. apply wp_bind, wp_self. rewrite Hs. by apply wp_onNet. Qed.

(** A cache operation that only looks. *)
Lemma wp_onCache {A} (m : AM A) Q :
  wp m (fun a ce => ce.1 = ns_authority n /\ Q a (mkNodeSt n t ce.2)) (ns_authority n, e) ->
  wp (onCache m) Q (mkNodeSt n t e).
Proof.
  intros H. apply wp_zoom. eapply wp_mono; [exact H|]. intros a [c e'] [Hc HQ]. cbn in *. subst c.
  by rewrite set_ns_authority_id.
Qed.

Lemma wp_onCache_set {A} (m : AM A) Q :
  wp m (fun a ce => Q a (mkNodeSt (set_ns_authority ce.1 n) t ce.2)) (ns_authority n, e) ->
  wp (onCache m) Q (mkNodeSt n t e).
Proof. intros H. by apply wp_zoom. Qed.

Lemma wp_with_instance {A} mapID (absent : NM A) (m : W A) Q :
  (ns_maps n !! mapID = None -> wp absent Q (mkNodeSt n t e)) ->
  (forall w, ns_maps n !! mapID = Some w ->
     wp m (fun a we => Q a (mkNodeSt (set_ns_maps (<[mapID := we.1]> (ns_maps n)) n) t we.2)) (w, e)) ->
  wp (with_instance mapID absent m) Q (mkNodeSt n t e).
Proof.
  intros H0 H1. unfold with_instance. apply wp_bind, wp_self.
  destruct (ns_maps n !! mapID) as [w|] eqn:Hw; [|by apply H0]. specialize (H1 w eq_refl).
  apply wp_bind. unfold wp at 1, onWorld. cbn [ev]. unfold wp in H1 at 1.
  destruct (m (w, e)) as [[a [w' e']]|]; [|done]. exact H1.
Qed.
End rules.

Ltac n_step :=
  lazymatch goal with
  | |- wp (self _) _ _ => apply wp_self; cbn [nd]; unfold id
  | |- wp (modN _) _ _ => apply wp_modN
  | |- wp nowN _ _ => apply wp_nowN; intros ? ?
  | _ => rm_step
  end.
Ltac n_steps := repeat n_step.

(** ** The gate *)

(** The fence of the map, as this server state has it, names the node and epoch. *)
Definition fence_names (r : Redis) (mapID nodeID : string) (epoch : Z) : Prop :=
  exists d, r_fences r !! mapID = Some d /\ decode_fence d = Some (nodeID, epoch).

(** What it takes to pass [requireAuthority]: a fresh cached topology and the
    fence in Redis both confirm the claim, and the answer arrives. *)
Record authorised (n : NodeService) (t : Net) (e : Env) (mapID : string) (epoch : Z) : Prop := {
  au_fresh : fresh_at (ns_authority n) (next_now e) = true;
  au_owns : cache_owns (ns_authority n) mapID epoch = true;
  au_store : ns_store n = true;
  au_names : mapID <> "" /\ ns_ID n <> "";
  au_answer : n_fault t (n_pos t) = F_ok;
  au_fence : fence_names (seen t) mapID (ns_ID n) epoch
}.

Definition authorised_write (n : NodeService) (t : Net) (e : Env) (mapID : string) (epoch : Z) : Prop :=
  ns_draining n = false /\ authorised n t e mapID epoch.

(** The connection after at most one read. *)
Definition read_only (t t' : Net) : Prop := t' = t \/ t' = after t (seen t).

Definition refusal (err : node_err) : Prop :=
  err = ErrNodeDraining \/ err = ErrTopologyAuthorityUnavailable \/ err = ErrMapAuthorityDenied.

Lemma wp_RequireMapFence mapID nodeID epoch s (Q : store_err + unit -> Net -> Prop) :
  (forall r s', read_only s s' ->
     (r = inr tt <-> mapID <> "" /\ nodeID <> "" /\ epoch <> 0 /\ n_fault s (n_pos s) = F_ok
                     /\ fence_names (seen s) mapID nodeID epoch) ->
     (r = inr tt -> s' = after s (seen s)) -> Q r s') ->
  wp (RequireMapFence mapID nodeID epoch) Q s.
Proof.
  intros HQ. unfold RequireMapFence.
  destruct (bool_decide_reflect (mapID = "")); cbn [orb]; [n_steps; apply HQ; [by left|naive_solver..]|].
  destruct (bool_decide_reflect (nodeID = "")); cbn [orb]; [n_steps; apply HQ; [by left|naive_solver..]|].
  destruct (Z.eqb_spec epoch 0); [n_steps; apply HQ; [by left|naive_solver..]|].
  n_steps. apply wp_cmd; intros Hf; n_steps.
  2,3: apply HQ; [by right| |done]; split; [done|]; intros (_ & _ & _ & ? & _); congruence.
  cbn [fst snd]. destruct (r_fences (seen s) !! mapID) as [d|] eqn:Hd; cbn [fst].
  2: { n_steps. apply HQ; [by right| |done]. split; [done|]. intros (_ & _ & _ & _ & d & ? & _). congruence. }
  destruct (decode_fence d) as [[o ep]|] eqn:Hdec.
  2: { n_steps. apply HQ; [by right| |done]. split; [done|]. intros (_ & _ & _ & _ & d' & ? & ?). congruence. }
  destruct (bool_decide_reflect (o = nodeID)) as [->|]; cbn [negb orb].
  - destruct (Z.eqb_spec ep epoch) as [->|]; cbn [negb]; n_steps; (apply HQ; [by right| |done]).
    + split; [|done]. intros _. split_and!; try done. by exists d.
    + split; [done|]. intros (_ & _ & _ & _ & d' & ? & ?). congruence.
  - n_steps. apply HQ; [by right| |done]. split; [done|]. intros (_ & _ & _ & _ & d' & ? & ?). congruence.
Qed.

Lemma wp_requireAuthority mapID epoch n t e (Q : node_err + unit -> NodeSt -> Prop) :
  (forall r t' e', later e e' -> read_only t t' -> (r = inr tt <-> authorised n t e mapID epoch) ->
     (forall err, r = inl err -> refusal err) -> (r = inr tt -> t' = after t (seen t)) ->
     Q r (mkNodeSt n t' e')) ->
  wp (requireAuthority mapID epoch) Q (mkNodeSt n t e).
Proof.
  intros HQ. unfold requireAuthority. n_steps. apply wp_onCache, wp_Require.
  intros e' r Hl Hr Herr. split; [done|]. cbn [snd].
  destruct r as [err|[]].
  { apply HQ; [done|by left| |intros ? [= <-]; destruct (Herr err eq_refl); unfold refusal; auto|done].
    split; [done|]. intros []. destruct Hr as [_ Hr]. discriminate Hr. done. }
  destruct (proj1 Hr eq_refl) as [Hf Ho]. n_steps.
  destruct (ns_store n) eqn:Hs; cbn [negb].
  2: { n_steps. apply HQ; [done|by left| |intros ? [= <-]; unfold refusal; auto|done].
       split; [done|]. intros []. congruence. }
  n_steps. apply wp_onNet, wp_RequireMapFence. intros r t' Hro Hiff Haft.
  destruct r as [err|[]]; n_steps; (apply HQ; [done|done| | |]).
  - split; [done|]. intros []. destruct Hiff as [_ Hiff]. discriminate Hiff.
    unfold cache_owns in Ho. apply andb_true_iff in Ho as [[_ ?%negb_true_iff%Z.eqb_neq]%andb_true_iff _].
    naive_solver.
  - intros ? [= <-]; unfold refusal; auto.
  - done.
  - split; [|done]. intros _. destruct (proj1 Hiff eq_refl) as (? & ? & ? & ? & ?). by constructor.
  - done.
  - auto.
Qed.

Lemma wp_beginWrite mapID epoch n t e (Q : node_err + unit -> NodeSt -> Prop) :
  (forall r t' e', later e e' -> read_only t t' -> (r = inr tt <-> authorised_write n t e mapID epoch) ->
     (forall err, r = inl err -> refusal err) -> (r = inr tt -> t' = after t (seen t)) ->
     Q r (mkNodeSt n t' e')) ->
  wp (beginWrite mapID epoch) Q (mkNodeSt n t e).
Proof.
  intros HQ. unfold beginWrite. n_steps. destruct (ns_draining n) eqn:Hd.
  - n_steps. apply HQ; [done|by left| |intros ? [= <-]; by left|done]. split; [done|]. intros [? _]. congruence.
  - apply wp_requireAuthority. intros r t' e' ? ? Hr ? ?. apply HQ; try done. unfold authorised_write. naive_solver.
Qed.

(** ** Requests *)

(** The mutating requests of the data plane, for one map and epoch. *)
Inductive request :=
  | ReqAdd (profile : UserProfile)
  | ReqRemove (username : string)
  | ReqMove (username dir : string)
  | ReqAttack (username : string)
  | ReqHeal (username : string)
  | ReqBuy (username item : string)
  | ReqReward (username : string) (treasureDelta victoryDelta : Z)
  | ReqBoss (username : string).

Definition discard {A} (m : NM (node_err + A)) : NM (node_err + unit) := _ ←! m; ok tt.

Definition run_request (fuel : nat) (mapID : string) (epoch : Z) (req : request) : NM (node_err + unit) :=
  match req with
  | ReqAdd p => AddPlayer fuel mapID epoch p
  | ReqRemove u => discard (RemovePlayer mapID u epoch)
  | ReqMove u d => discard (MovePlayer mapID u d epoch)
  | ReqAttack u => discard (Attack mapID u epoch)
  | ReqHeal u => discard (Heal mapID u epoch)
  | ReqBuy u i => discard (BuyItem mapID u i epoch)
  | ReqReward u t v => discard (RewardPlayer mapID u t v epoch)
  | ReqBoss u => discard (AttackBoss mapID u epoch)
  end.

(** What the request does to the world of its map. *)
Definition request_op (req : request) : wop :=
  match req with
  | ReqAdd p => OpAdd p
  | ReqRemove u => OpRemove u
  | ReqMove u d => OpMove u d
  | ReqAttack u => OpAttack u
  | ReqHeal u => OpHeal u
  | ReqBuy u i => OpBuy u i
  | ReqReward u t v => OpReward u t v
  | ReqBoss u => OpProfile u
  end.

Lemma wp_refused {A} mapID epoch (k : unit -> NM (node_err + A)) n t e :
  ~ authorised_write n t e mapID epoch ->
  wp (try (beginWrite mapID epoch) k)
     (fun r s => exists err t' e', r = inl err /\ s = mkNodeSt n t' e' /\ refusal err /\ read_only t t' /\ later e e')
     (mkNodeSt n t e).
Proof.
  intros Hno. apply wp_try, wp_beginWrite. intros r t' e' Hl Hro Hr Herr _.
  destruct r as [err|[]]; [|destruct Hno; by apply Hr]. naive_solver.
Qed.

Lemma wp_request_refused fuel mapID epoch req n t e :
  ~ authorised_write n t e mapID epoch ->
  wp (run_request fuel mapID epoch req)
     (fun r s => exists err t' e', r = inl err /\ s = mkNodeSt n t' e' /\ refusal err /\ read_only t t' /\ later e e')
     (mkNodeSt n t e).
Proof.
  intros Hno.
  assert (H : forall A (k : unit -> NM (node_err + A)), wp (discard (try (beginWrite mapID epoch) k))
     (fun r s => exists err t' e', r = inl err /\ s = mkNodeSt n t' e' /\ refusal err /\ read_only t t' /\ later e e')
     (mkNodeSt n t e)).
  { intros A k. apply wp_try. eapply wp_mono; [by apply wp_refused|].
    intros r s (err & t' & e' & -> & -> & ?). naive_solver. }
  destruct req; [by apply wp_refused|apply H..].
Qed.

Lemma gated_run {A} mapID epoch (absent : A) (m : W A) n t e w :
  authorised_write n t e mapID epoch -> ns_maps n !! mapID = Some w ->
  (forall e0, is_Some (m (w, e0))) ->
  exists e0 a w' e', later e e0 /\ m (w, e0) = Some (a, (w', e')) /\
    gated mapID epoch absent m (mkNodeSt n t e) =
      Some (inr a, mkNodeSt (set_ns_maps (<[mapID := w']> (ns_maps n)) n) (after t (seen t)) e').
Proof.
  intros Ha Hw Hm.
  assert (H : wp (gated mapID epoch absent m) (fun r s => exists e0 a w' e', later e e0 /\ m (w, e0) = Some (a, (w', e')) /\
      r = inr a /\ s = mkNodeSt (set_ns_maps (<[mapID := w']> (ns_maps n)) n) (after t (seen t)) e') (mkNodeSt n t e)).
  { unfold gated. apply wp_try, wp_beginWrite. intros r t' e0 Hl _ Hr _ Haft.
    apply Hr in Ha as ->. rewrite (Haft eq_refl). apply wp_with_instance; [congruence|].
    intros w2 Hw2. assert (w2 = w) as -> by congruence. n_steps.
    destruct (Hm e0) as [[a [w' e']] Hrun]. unfold wp. rewrite Hrun. cbn. by exists e0, a, w', e'. }
  apply wp_run in H as (r & s & Hs & e0 & a & w' & e' & Hl & Hrun & -> & ->). by exists e0, a, w', e'.
Qed.

(** The request on a hosted map is the operation on its world. *)
Lemma request_run fuel mapID epoch req n t e w :
  authorised_write n t e mapID epoch -> ns_maps n !! mapID = Some w -> world_wf w -> op_ok (request_op req) w ->
  match req with ReqBoss _ => False | _ => True end ->
  exists e0 w' e', later e e0 /\ run_op (request_op req) (w, e0) = Some (tt, (w', e')) /\
    run_request fuel mapID epoch req (mkNodeSt n t e) =
      Some (inr tt, mkNodeSt (set_ns_maps (<[mapID := w']> (ns_maps n)) n) (after t (seen t)) e').
Proof.
  intros Ha Hw Hwf Hok Hb.
  assert (Hrun : forall e0, exists s, run_op (request_op req) (w, e0) = Some (tt, s)).
  { intros e0. pose proof (run_op_spec w e0 _ Hwf Hok) as H. apply wp_run in H as ([] & s & ? & _). eauto. }
  assert (H : forall A (absent : A) (m : W A), run_op (request_op req) = (_ ← m; mret tt) ->
    run_request fuel mapID epoch req = discard (gated mapID epoch absent m) ->
    exists e0 w' e', later e e0 /\ run_op (request_op req) (w, e0) = Some (tt, (w', e')) /\
      run_request fuel mapID epoch req (mkNodeSt n t e) =
      Some (inr tt, mkNodeSt (set_ns_maps (<[mapID := w']> (ns_maps n)) n) (after t (seen t)) e')).
  { intros A absent m Hop Hreq.
    destruct (gated_run mapID epoch absent m n t e w Ha Hw) as (e0 & a & w' & e' & Hl & Hm & Hg).
    { intros e0. destruct (Hrun e0) as [s Hs]. rewrite Hop in Hs. unfold mbind, st_bind in Hs.
      destruct (m (w, e0)) as [[]|]; [eauto|done]. }
    exists e0, w', e'. split; [done|]. split.
    - rewrite Hop. unfold mbind, st_bind. by rewrite Hm.
    - rewrite Hreq. unfold discard, try, mbind, st_bind. by rewrite Hg. }
  destruct req; try done; try (by eapply H).
  enough (Hwp : wp (run_request fuel mapID epoch (ReqAdd profile)) (fun r s => exists e0 w' e', later e e0 /\
     run_op (request_op (ReqAdd profile)) (w, e0) = Some (tt, (w', e')) /\ r = inr tt /\
     s = mkNodeSt (set_ns_maps (<[mapID := w']> (ns_maps n)) n) (after t (seen t)) e') (mkNodeSt n t e)).
  { apply wp_run in Hwp as (r & s & ? & e0 & w' & e' & ? & ? & -> & ->). by exists e0, w', e'. }
  cbn [run_request]. unfold AddPlayer. apply wp_try, wp_beginWrite. intros r t' e0 Hl _ Hr _ Haft.
  apply Hr in Ha as ->. rewrite (Haft eq_refl). apply wp_try. unfold ensureHostedMap. n_steps. rewrite Hw. n_steps.
  apply wp_with_instance; [congruence|]. intros w2 Hw2. assert (w2 = w) as -> by congruence.
  destruct (Hrun e0) as [[w' e'] Hs]. cbn [request_op run_op] in Hs |- *. unfold mbind, st_bind in Hs.
  n_steps. unfold wp. destruct (AddOrRestorePlayer profile (w, e0)) as [[v [w1 e1]]|] eqn:Hadd; [|done].
  injection Hs as -> ->. cbn. exists e0, w', e'. unfold mbind, st_bind. by rewrite Hadd.
Qed.

(** ** A small concrete node used by the witnesses *)

Definition demo_node_cfg : NodeConfig := rc_Node DefaultRuntime.
Definition demo_cache : authorityCache :=
  mkAuthorityCache "node-a" (2 * Second) demo_topology (999 * Second) true.
Definition demo_node : NodeService :=
  set_ns_authority demo_cache (set_ns_maps {["demo" := demo_world]}
    (NewNodeService "node-a" "10.0.0.1:1" true demo_node_cfg "demo" 0)).

Lemma demo_authorised : authorised_write demo_node (quiet demo_redis) demo_env "demo" 3.
Proof.
  split; [reflexivity|]. constructor; try reflexivity; [by split|].
  eexists. split; reflexivity.
Qed.

(** ** Properties of the gate *)

(** C16. No authority, no effect: a mutating request for a map and epoch that the
    node may not write (it is draining, its cached topology is out of date or
    names another owner or epoch, or the fence read from Redis does not confirm
    the claim) is answered with an error, changes nothing in the node and does
    nothing to Redis but read the fence. *)
Theorem unauthorised_write_refused fuel mapID epoch req n t e :
  ~ authorised_write n t e mapID epoch ->
  exists err t' e', run_request fuel mapID epoch req (mkNodeSt n t e) = Some (inl err, mkNodeSt n t' e')
    /\ refusal err /\ read_only t t'.
Proof.
  intros (r & s & Hs & err & t' & e' & -> & -> & ? & ? & _)%(wp_request_refused fuel mapID epoch req)%wp_run. eauto 6.
Qed.

Lemma unauthorised_write_refused_witness :
  exists err t' e', run_request 9 "demo" 2 (ReqMove "ann" "up") (mkNodeSt demo_node (quiet demo_redis) demo_env)
    = Some (inl err, mkNodeSt demo_node t' e') /\ refusal err /\ read_only (quiet demo_redis) t'.
Proof.
  apply (unauthorised_write_refused 9 "demo" 2 (ReqMove "ann" "up") demo_node (quiet demo_redis) demo_env).
  intros [_ [_ Ho _ _ _ _]]. vm_compute in Ho. discriminate Ho.
Defined.

(** C17. With authority, exactly the operation: a request the gate lets through
    runs the corresponding operation on the hosted world, once, succeeds, leaves
    every other map alone and keeps the world well formed. *)
Theorem authorised_write_applied fuel mapID epoch req n t e w :
  authorised_write n t e mapID epoch -> ns_maps n !! mapID = Some w -> world_wf w -> op_ok (request_op req) w ->
  match req with ReqBoss _ => False | _ => True end ->
  exists e0 w' e', later e e0 /\ run_op (request_op req) (w, e0) = Some (tt, (w', e')) /\ world_wf w' /\
    run_request fuel mapID epoch req (mkNodeSt n t e) =
      Some (inr tt, mkNodeSt (set_ns_maps (<[mapID := w']> (ns_maps n)) n) (after t (seen t)) e').
Proof.
  intros Ha Hw Hwf Hok Hb.
  destruct (request_run fuel mapID epoch req n t e w Ha Hw Hwf Hok Hb) as (e0 & w' & e' & Hl & Hop & Hrun).
  exists e0, w', e'. split_and!; [done|done| |done].
  pose proof (run_op_spec w e0 _ Hwf Hok) as H. apply wp_run in H as ([] & s & Hs & Hk). rewrite Hop in Hs. simplify_eq.
  apply Hk.
Qed.

Lemma authorised_write_applied_witness :
  world_wf demo_world /\
  exists e0 w' e', run_op (OpMove "ann" "right") (demo_world, e0) = Some (tt, (w', e')) /\
    run_request 9 "demo" 3 (ReqMove "ann" "right") (mkNodeSt demo_node (quiet demo_redis) demo_env) =
      Some (inr tt, mkNodeSt (set_ns_maps (<["demo" := w']> (ns_maps demo_node)) demo_node)
                      (after (quiet demo_redis) (seen (quiet demo_redis))) e').
Proof.
  split; [exact demo_wf|].
  destruct (authorised_write_applied 9 "demo" 3 (ReqMove "ann" "right") demo_node (quiet demo_redis) demo_env demo_world
    demo_authorised eq_refl demo_wf I I) as (e0 & w' & e' & _ & ? & _ & ?).
  exists e0, w', e'. split; assumption.
Defined.

Lemma fence_names_good r m id e :
  fences_inv r -> fence_names r m id e -> r_fences r !! m = Some (Good (mkFence m id (Int e))).
Proof.
  intros Hinv (d & Hd & Hdec). unfold fences_inv in Hinv.
  destruct (r_topology r) as [[tp|]|]; [|done|rewrite Hinv in Hd; by rewrite lookup_empty in Hd].
  destruct Hinv as (_ & _ & Hf & _). destruct (Hf m d Hd) as (o & e0 & te & -> & _ & _). rewrite Hd.
  cbn in Hdec. case_match; by simplify_eq.
Qed.

(** A request that is answered without an error was let through by the gate. *)
Lemma request_passed fuel mapID epoch req n t e s :
  run_request fuel mapID epoch req (mkNodeSt n t e) = Some (inr tt, s) -> authorised_write n t e mapID epoch.
Proof.
  intros Hrun.
  enough (H : wp (beginWrite mapID epoch) (fun r _ => r = inr tt <-> authorised_write n t e mapID epoch) (mkNodeSt n t e)).
  { apply wp_run in H as (r & s1 & Hs1 & Hr). apply Hr. destruct r as [err|[]]; [|done]. exfalso.
    assert (Htry : forall A (k : unit -> NM (node_err + A)), try (beginWrite mapID epoch) k (mkNodeSt n t e) = Some (inl err, s1))
      by (intros A k; unfold try, mbind, st_bind; by rewrite Hs1).
    assert (Hdis : forall A (k : unit -> NM (node_err + A)), discard (try (beginWrite mapID epoch) k) (mkNodeSt n t e) = Some (inl err, s1))
      by (intros A k; unfold discard at 1, try at 1, mbind, st_bind; by rewrite Htry).
    destruct req; cbn [run_request] in Hrun;
      first [unfold AddPlayer in Hrun; by rewrite Htry in Hrun|unfold RemovePlayer, MovePlayer, Attack, Heal, BuyItem, RewardPlayer, AttackBoss, gated in Hrun; by rewrite Hdis in Hrun]. }
  apply wp_beginWrite. by intros.
Qed.

(** C18. One writer per epoch: if a node carries out a mutating request for a map
    under some epoch, and any node carries out one for the same map at that or any
    later moment, whatever the clients of the store do in between, then the later
    epoch is not smaller, and with the same epoch it is the same node. *)
Theorem one_writer_per_epoch fuel1 req1 n1 t1 e1 epoch1 s1 fuel2 req2 n2 t2 e2 epoch2 s2 mapID :
  fences_inv (seen t1) -> rtc redis_step (seen t1) (seen t2) ->
  run_request fuel1 mapID epoch1 req1 (mkNodeSt n1 t1 e1) = Some (inr tt, s1) ->
  run_request fuel2 mapID epoch2 req2 (mkNodeSt n2 t2 e2) = Some (inr tt, s2) ->
  epoch1 <= epoch2 /\ (epoch1 = epoch2 -> ns_ID n1 = ns_ID n2).
Proof.
  intros Hinv Hs [_ H1%au_fence]%request_passed [_ H2%au_fence]%request_passed.
  destruct (steps_fences _ _ Hs Hinv) as (Hinv2 & Hle & _).
  apply fence_names_good in H1; [|done]. apply fence_names_good in H2; [|done].
  destruct (Hle _ _ H1) as (f' & Hf' & (a & b & Ha & Hb & _ & _ & Hab)).
  rewrite H2 in Hf'. injection Hf' as <-. cbn in Ha, Hb. injection Ha as <-. injection Hb as <-.
  destruct Hab as [|Heq]; [split; [lia|intros; lia]|]. injection Heq as -> ->. split; [lia|done].
Qed.

(** After a failover of the map from node-a to node-c. *)
Definition demo_failed_over : Redis :=
  (compareAndSetTopology 7 demo_next (Some demo_move) 2 (sort_strings (elements (dom (t_Owners demo_next)))) demo_redis).2.
Definition demo_node_c : NodeService :=
  set_ns_authority (mkAuthorityCache "node-c" (2 * Second) demo_next (999 * Second) true)
    (NewNodeService "node-c" "10.0.0.3:1" true demo_node_cfg "demo" 0).

Lemma demo_failover_steps : rtc redis_step demo_redis demo_failed_over.
Proof.
  apply rtc_once, (rs_cas 7 demo_next (Some demo_move) 2);
    [vm_compute; reflexivity|exact demo_next_small|right; reflexivity|reflexivity].
Qed.

Definition demo_first_write : option ((node_err + unit) * NodeSt) :=
  run_request 0 "demo" 3 (ReqMove "ann" "up") (mkNodeSt demo_node (quiet demo_redis) demo_env).
Definition demo_second_write : option ((node_err + unit) * NodeSt) :=
  run_request 0 "demo" 4 (ReqRemove "ann") (mkNodeSt demo_node_c (quiet demo_failed_over) demo_env).

Lemma demo_writes_done :
  (match demo_first_write with Some (inr tt, _) => true | _ => false end
   && match demo_second_write with Some (inr tt, _) => true | _ => false end) = true.
Proof. vm_compute. reflexivity. Qed.

Lemma one_writer_per_epoch_witness : 3 <= 4 /\ (3 = 4 -> ns_ID demo_node = ns_ID demo_node_c).
Proof.
  pose proof demo_writes_done as Hd. destruct demo_first_write as [[[|[]] s1]|] eqn:E1; [discriminate Hd| |discriminate Hd].
  destruct demo_second_write as [[[|[]] s2]|] eqn:E2; [discriminate Hd| |discriminate Hd].
  apply (one_writer_per_epoch 0 (ReqMove "ann" "up") demo_node (quiet demo_redis) demo_env 3 s1
    0 (ReqRemove "ann") demo_node_c (quiet demo_failed_over) demo_env 4 s2 "demo").
  - exact demo_fences_inv.
  - exact demo_failover_steps.
  - exact E1.
  - exact E2.
Defined.

(** ** Rounds of the world loop *)

(** The connection after any number of reads. *)
Definition reads : Net -> Net -> Prop := rtc (fun t t' => t' = after t (seen t)).

Lemma read_only_reads t t' : read_only t t' -> reads t t'.
Proof. intros [->| ->]; [apply rtc_refl|by apply rtc_once]. Qed.

Lemma wp_no_panic {S A} (m : ST S A) (Q : A -> S -> Prop) s :
  is_Some (m s) -> (forall a s', m s = Some (a, s') -> Q a s') -> wp m Q s.
Proof. intros [[a s'] H] HQ. unfold wp. rewrite H. by apply HQ. Qed.

(** A store call that answers: it does not panic and ends somewhere. *)
Lemma wp_answers {A} (m : RM A) (Q : A -> Net -> Prop) t : is_Some (m t) -> (forall a t', Q a t') -> wp m Q t.
Proof. intros H HQ. apply wp_no_panic; auto. Qed.

Lemma cmd_answers {A} (f : Redis -> A * Redis) t : is_Some (cmd f t).
Proof. unfold cmd. destruct (n_fault t (n_pos t)); [destruct (f _)| |destruct (f _)]; eauto. Qed.

Lemma PublishEvent_answers ch ev t : is_Some (PublishEvent ch ev t).
Proof.
  unfold PublishEvent, orErr, mbind, st_bind, write.
  destruct (cmd_answers (fun r => (tt, set_r_published (r_published r ++ [(ch, ev)]) r)) t) as [[[[]|] t'] ->]; cbn; eauto.
Qed.

Lemma SaveCheckpointIfOwner_answers cp id epoch t : is_Some (SaveCheckpointIfOwner cp id epoch t).
Proof.
  unfold SaveCheckpointIfOwner. case_match; [cbn; eauto|]. case_match; [cbn; eauto|].
  unfold try, orErr, mbind, st_bind.
  destruct (cmd_answers (saveCheckpointIfOwner cp id epoch) t) as [[[z|] t'] ->]; cbn; [|eauto].
  case_match; cbn; eauto.
Qed.

Lemma wp_publish_all mapID events n t e (Q : unit -> NodeSt -> Prop) :
  ns_store n = true -> (forall t', Q tt (mkNodeSt n t' e)) -> wp (publish_all mapID events) Q (mkNodeSt n t e).
Proof.
  intros Hs HQ. unfold publish_all.
  eapply wp_mono; [apply (wp_foldM _ (fun _ s => exists t', s = mkNodeSt n t' e))|].
  - intros [] x ? _ [t' ->]. n_steps. apply wp_onStore; [done|]. apply wp_answers; [apply PublishEvent_answers|].
    intros a t2. n_steps. by exists t2.
  - by exists t.
  - intros [] ? [t' ->]. apply HQ.
Qed.

Lemma wp_Capture id w e (Q : MapCheckpoint -> WS -> Prop) :
  world_wf w -> (forall cp s, keeps w cp s -> Q cp s) -> wp (CaptureCheckpoint id) Q (w, e).
Proof.
  intros Hw HQ. unfold CaptureCheckpoint. apply wp_bind.
  eapply wp_mono; [by apply Snapshot_keeps|]. intros v [w1 e1] Hk. cbn in *.
  w_steps. by apply HQ.
Qed.

Definition cached_epoch (n : NodeService) (mapID : string) : Z := epoch_of (ac_topology (ns_authority n)) mapID.

(** What follows the tick of a world, from exactly the state [mkNodeSt n1 t1 e2] the
    node is in after it: without the fence, nothing but a read; with it, the events
    of the tick are published and the world is saved under the epoch. *)
Definition after_world_tick (n n1 : NodeService) (t1 : Net) (e2 : Env) (mapID : string) (epoch : Z)
    (events : list string) (w1 : World) (s : NodeSt) : Prop :=
  (~ authorised n1 t1 e2 mapID epoch /\ nd s = n1 /\ read_only t1 (nt s)) \/
  (authorised n1 t1 e2 mapID epoch /\ exists e3 t3 cp w2 e4 r,
     publish_all mapID events (mkNodeSt n1 (after t1 (seen t1)) e3) = Some (tt, mkNodeSt n1 t3 e3) /\
     CaptureCheckpoint (ns_ID n) (w1, e3) = Some (cp, (w2, e4)) /\ world_wf w2 /\
     SaveCheckpointIfOwner (set_cp_MapEpoch epoch cp) (ns_ID n) epoch t3 = Some (r, nt s) /\
     nd s = set_ns_maps (<[mapID := w2]> (ns_maps n)) n).

(** What one round of the world loop does for one map: nothing without authority;
    with it, one tick of the world and what follows. *)
Definition tick_outcome (n : NodeService) (t : Net) (e : Env) (mapID : string) (s : NodeSt) : Prop :=
  exists e0, later e e0 /\
  ((nd s = n /\ read_only t (nt s) /\ ~ authorised_write n t e0 mapID (cached_epoch n mapID)) \/
   (nd s = n /\ nt s = t /\ ~ (fresh_at (ns_authority n) (next_now e) = true /\
      cache_owns (ns_authority n) mapID (cached_epoch n mapID) = true)) \/
   (authorised_write n t e0 mapID (cached_epoch n mapID) /\ exists w e1 events w1 e2,
      ns_maps n !! mapID = Some w /\ later e0 e1 /\ BackgroundStep (w, e1) = Some (events, (w1, e2)) /\ world_wf w1 /\
      after_world_tick n (set_ns_maps (<[mapID := w1]> (ns_maps n)) n) (after t (seen t)) e2 mapID (cached_epoch n mapID) events w1 s)).

Lemma set_ns_maps_twice m m' n : set_ns_maps m' (set_ns_maps m n) = set_ns_maps m' n.
Proof. done. Qed.

(** The second half of a round, after the tick of the world. *)
Lemma wp_after_world_tick mapID epoch events n w1 t e :
  ns_store n = true -> ns_maps n !! mapID = Some w1 -> world_wf w1 ->
  wp (r ← requireAuthority mapID epoch;
      match r with
      | inl _ => mret tt
      | inr _ =>
          _ ← publish_all mapID events;
          n ← self id;
          cp ← with_instance mapID (mret None) (cp ← CaptureCheckpoint (ns_ID n); mret (Some cp));
          match cp with
          | None => mret tt
          | Some cp => _ ← onStore (SaveCheckpointIfOwner (set_cp_MapEpoch epoch cp) (ns_ID n) epoch); mret tt
          end
      end)
     (fun _ s => after_world_tick n n t e mapID epoch events w1 s) (mkNodeSt n t e).
Proof.
  intros Hst Hw1 Hwf. n_steps. apply wp_requireAuthority. intros r t2 e3 _ Hro Hr _ Haft.
  destruct r as [err|[]].
  { n_steps. left. split; [|by split]. intros Ha. apply Hr in Ha. discriminate Ha. }
  rewrite (Haft eq_refl). n_steps.
  assert (Hpub : wp (publish_all mapID events) (fun _ s => exists t3, s = mkNodeSt n t3 e3) (mkNodeSt n (after t (seen t)) e3))
    by (apply wp_publish_all; eauto).
  apply wp_run in Hpub as ([] & s & Hpub & t3 & ->). unfold wp at 1. rewrite Hpub. n_steps.
  apply wp_with_instance; [congruence|]. intros w2 Hw2. assert (w2 = w1) as -> by congruence. n_steps.
  assert (Hcap : wp (CaptureCheckpoint (ns_ID n)) (keeps w1) (w1, e3)) by (apply wp_Capture; [done|]; by intros).
  apply wp_run in Hcap as (cp & [w3 e4] & Hcap & Hk & _). unfold wp at 1. rewrite Hcap. cbn [fst snd]. n_steps.
  apply wp_onStore; [done|]. apply wp_no_panic; [apply SaveCheckpointIfOwner_answers|]. intros r t4 Hsave. n_steps.
  right. split; [by apply Hr|]. by exists e3, t3, cp, w3, e4, r.
Qed.

Lemma wp_tick_map mapID n t e :
  (forall w, ns_maps n !! mapID = Some w -> world_wf w /\ op_ok OpTick w) -> is_Some (ns_maps n !! mapID) ->
  wp (tick_map mapID) (fun _ s => tick_outcome n t e mapID s) (mkNodeSt n t e).
Proof.
  intros Hwf [w Hw]. destruct (Hwf w Hw) as [Hww Hok]. unfold tick_map.
  n_steps. apply wp_onCache, wp_Current. intros e0 o Hl Ho. split; [done|]. cbn [snd].
  destruct o as [a|].
  2: { n_steps. exists e0. split; [done|]. right; left. split_and!; [done|done|]. intros [Hf Hc].
       assert (Hx : None = Some (mkMapAuthority mapID (ac_nodeID (ns_authority n)) (cached_epoch n mapID))) by (apply Ho; by split_and!).
       discriminate Hx. }
  destruct (proj1 (Ho a) eq_refl) as (_ & -> & _). cbn [ma_Epoch]. fold (cached_epoch n mapID).
  n_steps. apply wp_beginWrite. intros r t1 e1 Hl1 Hro Hr _ Haft.
  destruct r as [err|[]].
  { n_steps. exists e0. split; [done|left]. split_and!; [done|done|]. intros Ha. apply Hr in Ha. discriminate Ha. }
  pose proof (proj1 Hr eq_refl) as Ha. rewrite (Haft eq_refl). n_steps. apply wp_with_instance; [congruence|].
  intros w0 Hw0. assert (w0 = w) as -> by congruence.
  apply wp_no_panic.
  { pose proof (BackgroundStep_keeps w e1 Hww Hok) as H. apply wp_run in H as (? & ? & -> & _). by eexists. }
  intros events [w1 e2] Hstep. pose proof (BackgroundStep_keeps w e1 Hww Hok) as Hk. unfold wp in Hk. rewrite Hstep in Hk.
  destruct Hk as (Hw1 & _ & _). cbn [fst snd] in *.
  set (n1 := set_ns_maps (<[mapID := w1]> (ns_maps n)) n).
  eapply wp_mono; [apply (wp_after_world_tick mapID (cached_epoch n mapID) events n1 w1);
    [by destruct Ha as [_ []]|apply lookup_insert_eq|done]|].
  intros [] s Hs. exists e0. split; [done|]. right; right. split; [done|].
  exists w, e1, events, w1, e2. split_and!; [done|done|done|done|].
  destruct Hs as [Hs|(Hauth & e3 & t3 & cp & w2 & e4 & r & Hpub & Hcap & Hw2 & Hsave & Hnd)]; [by left|right].
  split; [done|]. exists e3, t3, cp, w2, e4, r. split_and!; try done. rewrite Hnd. unfold n1. cbn [set_ns_maps ns_maps].
  by rewrite insert_insert_eq.
Qed.

(** C19. A round of the world loop for a hosted map.  Without a fresh topology that
    names the node, or without a fence in Redis that confirms its cached epoch, it
    changes no world and does nothing to Redis but read.  Otherwise the world makes
    exactly one tick; then the fence is read again, and only if it still confirms
    the node are the events of that tick published and the world after it saved,
    under that epoch; if not, nothing is done to Redis but that read. *)
Theorem tick_fenced mapID n t e :
  (forall w, ns_maps n !! mapID = Some w -> world_wf w /\ op_ok OpTick w) -> is_Some (ns_maps n !! mapID) ->
  exists s, tick_map mapID (mkNodeSt n t e) = Some (tt, s) /\ tick_outcome n t e mapID s.
Proof. intros Hwf Hw. destruct (proj1 (wp_run _ _ _) (wp_tick_map mapID n t e Hwf Hw)) as ([] & s & ? & ?). eauto. Qed.

Lemma tick_fenced_witness :
  exists s, tick_map "demo" (mkNodeSt demo_node (quiet demo_redis) demo_env) = Some (tt, s)
    /\ tick_outcome demo_node (quiet demo_redis) demo_env "demo" s.
Proof.
  apply (tick_fenced "demo" demo_node (quiet demo_redis) demo_env).
  - cbn [demo_node set_ns_authority set_ns_maps ns_maps]. intros w. rewrite lookup_singleton_eq. intros [= <-].
    split; [exact demo_wf|]. cbn [op_ok demo_world w_nextNPC]. unfold MinNPCs. lia.
  - cbn [demo_node set_ns_authority set_ns_maps ns_maps]. rewrite lookup_singleton_eq. by eexists.
Defined.

(** ** A node without a current topology *)

(** The cached topology is out of date and will stay so. *)
Definition expired (n : NodeService) (e : Env) : Prop :=
  forall e', later e e' -> fresh_at (ns_authority n) (next_now e') = false.

Lemma expired_later n e e' : expired n e -> later e e' -> expired n e'.
Proof. intros H Hl e2 Hl2. apply H. by etrans. Qed.

Lemma wp_Current_expired mapID n t e (Q : option MapAuthority -> NodeSt -> Prop) :
  expired n e -> (forall e', later e e' -> Q None (mkNodeSt n t e')) -> wp (onCache (Current mapID)) Q (mkNodeSt n t e).
Proof.
  intros Hx HQ. apply wp_onCache, wp_Current. intros e' o Hl Ho. split; [done|].
  destruct o as [a|]; [|by apply HQ]. destruct (proj1 (Ho a) eq_refl) as (Hf & _).
  rewrite Hx in Hf; [done|reflexivity].
Qed.

Lemma wp_range_maps n t e (Q : list string -> NodeSt -> Prop) :
  (forall l e', later e e' -> l ≡ₚ map_keys (ns_maps n) -> Q l (mkNodeSt n t e')) -> wp range_maps Q (mkNodeSt n t e).
Proof.
  intros HQ. unfold range_maps. n_steps. unfold wp, range_order. cbn. apply HQ; [by split|apply arrange_Permutation].
Qed.

(** A loop over maps of which every one is skipped. *)
Lemma wp_skip_all (f : unit -> string -> NM unit) l n t e :
  (forall m e0, later e e0 -> wp (f tt m) (fun _ s => exists e', s = mkNodeSt n t e' /\ later e e') (mkNodeSt n t e0)) ->
  wp (foldM f tt l) (fun _ s => exists e', s = mkNodeSt n t e' /\ later e e') (mkNodeSt n t e).
Proof.
  intros Hf. apply (wp_foldM _ (fun _ s => exists e', s = mkNodeSt n t e' /\ later e e')).
  - intros [] m s _ (e0 & -> & Hl). by apply Hf.
  - exists e. split; [done|reflexivity].
Qed.

(** C20. Fail closed: while the cached topology is older than the grace period (or
    none was ever loaded), every mutating request is refused, promotion is
    refused, and the rounds of the world loop and of the flush loop change
    neither a hosted world nor Redis. *)
Theorem expired_fails_closed n t e :
  expired n e ->
  (forall fuel mapID epoch req, exists err t' e', run_request fuel mapID epoch req (mkNodeSt n t e) = Some (inl err, mkNodeSt n t' e')
     /\ refusal err /\ read_only t t') /\
  (forall mapID epoch, exists err e', RequirePromotionCandidate mapID epoch (mkNodeSt n t e) = Some (inl err, mkNodeSt n t e')) /\
  (exists e', tickLoop_tick (mkNodeSt n t e) = Some (tt, mkNodeSt n t e')) /\
  (forall since, exists now e', flushLoop_tick since (mkNodeSt n t e) = Some (now, mkNodeSt n t e')).
Proof.
  intros Hx. assert (Hnow : fresh_at (ns_authority n) (next_now e) = false) by (by apply Hx; reflexivity).
  split; [|split; [|split]].
  - intros fuel mapID epoch req. assert (Hno : ~ authorised_write n t e mapID epoch) by (intros [_ []]; congruence).
    destruct (proj1 (wp_run _ _ _) (wp_request_refused fuel mapID epoch req n t e Hno)) as (r & s & Hs & err & t' & e' & -> & -> & ? & ? & _).
    eauto 6.
  - intros mapID epoch.
    assert (H : wp (RequirePromotionCandidate mapID epoch) (fun r s => exists err e', r = inl err /\ s = mkNodeSt n t e') (mkNodeSt n t e)).
    { unfold RequirePromotionCandidate. n_steps. destruct (ns_draining n); [n_steps; eauto|].
      destruct (_ && _); [n_steps; eauto|]. apply wp_onCache, wp_PromotionCandidate. intros e' r _ Hr. split; [done|].
      destruct r as [err|[]]; [eauto|]. destruct (proj1 Hr eq_refl) as [? _]. congruence. }
    apply wp_run in H as (r & s & Hs & err & e' & -> & ->). eauto.
  - assert (H : wp tickLoop_tick (fun _ s => exists e', s = mkNodeSt n t e' /\ later e e') (mkNodeSt n t e)).
    { unfold tickLoop_tick. n_steps. destruct (negb _); [n_steps; exists e; split; [done|reflexivity]|].
      n_steps. apply wp_range_maps. intros l e0 Hl _. eapply wp_mono; [apply wp_skip_all|].
      - intros m e1 Hl1. unfold tick_map. n_steps. apply wp_Current_expired; [eapply expired_later; [done|by etrans]|].
        intros e2 Hl2. n_steps. exists e2. split; [done|by etrans].
      - intros [] s (e2 & -> & ?). exists e2. split; [done|by etrans]. }
    apply wp_run in H as ([] & s & Hs & e' & -> & _). eauto.
  - intros since.
    assert (H : wp (flushLoop_tick since) (fun _ s => exists e', s = mkNodeSt n t e') (mkNodeSt n t e)).
    { unfold flushLoop_tick. n_steps. destruct (ns_draining n); [n_steps; eauto|].
      n_steps. apply wp_range_maps. intros l e0 Hl _. n_steps. eapply wp_mono; [apply wp_skip_all|].
      - intros m e1 Hl1. n_steps. apply wp_Current_expired; [eapply expired_later; [done|by etrans; [|etrans]]|].
        intros e2 Hl2. n_steps. exists e2. split; [done|by etrans].
      - intros [] s (e2 & -> & ?). n_steps. eauto. }
    apply wp_run in H as (x & s & Hs & e' & ->). eauto.
Qed.

(** A node cut off from Redis for longer than its grace period. *)
Definition demo_cut_off : NodeService :=
  set_ns_authority (mkAuthorityCache "node-a" (2 * Second) demo_topology (997 * Second) true) demo_node.

Lemma demo_cut_off_expired : expired demo_cut_off demo_env.
Proof.
  intros e' [Hc _]. unfold fresh_at, next_now. rewrite Hc. cbn [demo_env clk demo_cut_off set_ns_authority ns_authority
    ac_topologyOK ac_loadedAt ac_grace IsZero]. apply andb_false_iff. right. apply Z.leb_gt. unfold Sub, Second. lia.
Qed.

Lemma expired_fails_closed_witness :
  exists e', tickLoop_tick (mkNodeSt demo_cut_off (quiet demo_redis) demo_env)
             = Some (tt, mkNodeSt demo_cut_off (quiet demo_redis) e').
Proof. apply (expired_fails_closed demo_cut_off (quiet demo_redis) demo_env demo_cut_off_expired). Defined.

(** ** Promotion *)

(** When a node accepts to prepare a map for the next epoch. *)
Record promotable (n : NodeService) (e : Env) (mapID : string) (cp : MapCheckpoint) (target : Z) : Prop := {
  pm_serving : ns_draining n = false;
  pm_declared : ns_candidateMapID n = "" \/ mapID = ns_candidateMapID n;
  pm_fresh : fresh_at (ns_authority n) (next_now e) = true;
  pm_owner : owner_of (ac_topology (ns_authority n)) mapID <> ""
             /\ owner_of (ac_topology (ns_authority n)) mapID <> ac_nodeID (ns_authority n);
  pm_epoch : cached_epoch n mapID <> 0 /\ target = u64 (cached_epoch n mapID + 1);
  pm_checkpoint : cp_MapID cp = mapID /\ cp_NodeID cp <> "" /\ 0 < cp_Version cp /\ cp_MapEpoch cp = u64 (target - 1)
}.

Lemma wp_RequirePromotionCandidate mapID target n t e (Q : node_err + unit -> NodeSt -> Prop) :
  (forall r e', later e e' ->
     (r = inr tt <-> ns_draining n = false /\ (ns_candidateMapID n = "" \/ mapID = ns_candidateMapID n)
        /\ fresh_at (ns_authority n) (next_now e) = true /\ owner_of (ac_topology (ns_authority n)) mapID <> ""
        /\ owner_of (ac_topology (ns_authority n)) mapID <> ac_nodeID (ns_authority n)
        /\ cached_epoch n mapID <> 0 /\ target = u64 (cached_epoch n mapID + 1)) ->
     Q r (mkNodeSt n t e')) ->
  wp (RequirePromotionCandidate mapID target) Q (mkNodeSt n t e).
Proof.
  intros HQ. unfold RequirePromotionCandidate. n_steps.
  destruct (ns_draining n) eqn:Hd; [n_steps; apply HQ; [reflexivity|naive_solver]|].
  destruct (bool_decide_reflect (ns_candidateMapID n = "")) as [Hc|Hc]; cbn [negb andb].
  - apply wp_onCache, wp_PromotionCandidate. intros e' r Hl Hr. split; [done|]. apply HQ; [done|].
    rewrite Hr. unfold cached_epoch. naive_solver.
  - destruct (bool_decide_reflect (mapID = ns_candidateMapID n)) as [Hm|Hm]; cbn [negb andb].
    + apply wp_onCache, wp_PromotionCandidate. intros e' r Hl Hr. split; [done|]. apply HQ; [done|].
      rewrite Hr. unfold cached_epoch. naive_solver.
    + n_steps. apply HQ; [reflexivity|]. split; [done|]. intros (_ & [?|?] & _); congruence.
Qed.

(** The checkpoint a promotion accepts, as the test of [Promote]. *)
Lemma promote_test mapID cp target :
  negb (bool_decide (cp_MapID cp = mapID)) || bool_decide (cp_NodeID cp = "") || (cp_Version cp <=? 0)
    || negb (cp_MapEpoch cp =? u64 (target - 1)) = false <->
  cp_MapID cp = mapID /\ cp_NodeID cp <> "" /\ 0 < cp_Version cp /\ cp_MapEpoch cp = u64 (target - 1).
Proof.
  rewrite !orb_false_iff, !negb_false_iff, bool_decide_eq_true, bool_decide_eq_false, Z.eqb_eq, Z.leb_gt. tauto.
Qed.

Lemma Promote_run mapID cfg cp target n t e :
  exists e0, later e e0 /\ forall fuel,
  (promotable n e mapID cp target ->
     Promote fuel mapID cfg cp target (mkNodeSt n t e) =
     match NewWorld fuel cfg e0 with
     | Some (w, e1) =>
         match RestoreCheckpoint cp (w, e1) with
         | Some (_, (w', e2)) => Some (inr tt, mkNodeSt (set_ns_maps (<[mapID := w']> (ns_maps n)) n) t e2)
         | None => None
         end
     | None => None
     end) /\
  (~ promotable n e mapID cp target ->
     exists err, Promote fuel mapID cfg cp target (mkNodeSt n t e) = Some (inl err, mkNodeSt n t e0)).
Proof.
  assert (H : wp (RequirePromotionCandidate mapID target) (fun r s => exists e0, later e e0 /\ s = mkNodeSt n t e0 /\
    (r = inr tt <-> ns_draining n = false /\ (ns_candidateMapID n = "" \/ mapID = ns_candidateMapID n)
        /\ fresh_at (ns_authority n) (next_now e) = true /\ owner_of (ac_topology (ns_authority n)) mapID <> ""
        /\ owner_of (ac_topology (ns_authority n)) mapID <> ac_nodeID (ns_authority n)
        /\ cached_epoch n mapID <> 0 /\ target = u64 (cached_epoch n mapID + 1))) (mkNodeSt n t e))
    by (apply wp_RequirePromotionCandidate; eauto).
  apply wp_run in H as (r & s & Hs & e0 & Hl & -> & Hr). exists e0. split; [done|]. intros fuel.
  unfold Promote, try, mbind, st_bind. rewrite Hs. pose proof (promote_test mapID cp target) as Ht.
  destruct r as [err|[]].
  - split; [|by eexists]. intros []. destruct Hr as [_ Hr]. discriminate Hr. naive_solver.
  - destruct (_ || _) eqn:E in |- *.
    + split; [|by eexists]. intros []. by rewrite (proj2 Ht) in E.
    + split.
      * intros _. unfold newWorld, onWorld. cbn [ev].
        destruct (NewWorld fuel cfg e0) as [[w e1]|]; [|done]. cbn [set_ev ev nd nt].
        by destruct (RestoreCheckpoint cp (w, e1)) as [[[] [w' e2]]|].
      * intros Hno. destruct Hno. destruct (proj1 Hr eq_refl) as (? & ? & ? & ? & ? & ? & ?).
        constructor; auto. by apply Ht.
Qed.

Lemma promotable_decide n e mapID cp target : Decision (promotable n e mapID cp target).
Proof.
  refine (cast_if (decide (ns_draining n = false /\ (ns_candidateMapID n = "" \/ mapID = ns_candidateMapID n)
    /\ fresh_at (ns_authority n) (next_now e) = true
    /\ (owner_of (ac_topology (ns_authority n)) mapID <> ""
        /\ owner_of (ac_topology (ns_authority n)) mapID <> ac_nodeID (ns_authority n))
    /\ (cached_epoch n mapID <> 0 /\ target = u64 (cached_epoch n mapID + 1))
    /\ (cp_MapID cp = mapID /\ cp_NodeID cp <> "" /\ 0 < cp_Version cp /\ cp_MapEpoch cp = u64 (target - 1)))));
    [abstract (destruct_and!; by constructor)|abstract (intros []; tauto)].
Defined.

(** A node that another owner's map was prepared on may not write to it. *)
Lemma promotable_not_owner n e mapID cp target maps t2 e2 epoch :
  promotable n e mapID cp target -> ~ authorised_write (set_ns_maps maps n) t2 e2 mapID epoch.
Proof.
  intros Hp [_ [_ Ho _ _ _ _]]. unfold cache_owns in Ho. cbn [set_ns_maps ns_authority] in Ho.
  apply andb_true_iff in Ho as [[Ho%bool_decide_eq_true _]%andb_true_iff _]. by apply (pm_owner _ _ _ _ _ Hp).
Qed.

(** C21. Promotion prepares a node and grants nothing.  On a configuration with
    room, with a random source that keeps producing every remainder and enough
    fuel for the loops of the construction, a promotion ends without a panic; it is
    accepted exactly from a serving node that declares the map (or declares none),
    whose fresh topology shows another owner, for the next epoch and with a
    checkpoint of the epoch before.  Refused, it leaves the node as it was; accepted,
    it installs a new world of the configuration into which the checkpoint was
    restored, and the node still may not write to the map at any epoch.  Redis is
    not touched at all. *)
Theorem Promote_grants_nothing mapID cfg cp target n t e :
  cfg_ok (MinNPCs + Z.quot MaxTreasures 2) cfg -> fair_source (rand_source e (i64 (fnv64a (cfg_ID cfg)))) ->
  exists enough, forall fuel, (enough <= fuel)%nat ->
  exists r s', Promote fuel mapID cfg cp target (mkNodeSt n t e) = Some (r, s') /\ nt s' = t /\
    (r = inr tt <-> promotable n e mapID cp target) /\
    (r <> inr tt -> nd s' = n) /\
    (r = inr tt ->
       (exists e0 w e1 w', NewWorld fuel cfg e0 = Some (w, e1) /\ world_wf w /\ w_cfg w = cfg /\ w_players w = ∅ /\
          RestoreCheckpoint cp (w, e1) = Some (tt, (w', ev s')) /\ nd s' = set_ns_maps (<[mapID := w']> (ns_maps n)) n) /\
       forall t2 e2 epoch, ~ authorised_write (nd s') t2 e2 mapID epoch).
Proof.
  intros Hcfg Hfair. destruct (Promote_run mapID cfg cp target n t e) as (e0 & (_ & Hsrc & _) & Hrun).
  rewrite <- Hsrc in Hfair. destruct (NewWorld_ends cfg e0 Hcfg Hfair) as (_ & enough & [w e1] & Hnew & Hbuilt).
  exists enough. intros fuel Hf. destruct (Hrun fuel) as [Hyes Hno]. rewrite (Hnew fuel Hf) in Hyes.
  destruct (proj1 (wp_run _ _ _) (RestoreCheckpoint_total w e1 cp)) as ([] & [w' e2] & Hre & _). rewrite Hre in Hyes.
  destruct (promotable_decide n e mapID cp target) as [Hp|Hp].
  - rewrite (Hyes Hp). eexists _, _. split; [done|]. cbn [nd nt ev].
    split; [done|]. split; [by split|]. split; [by intros []|].
    intros _. destruct Hbuilt as (? & ? & _ & ? & _). split; [exists e0, w, e1, w'; auto 10|].
    intros t2 e3 epoch. by eapply promotable_not_owner.
  - destruct (Hno Hp) as [err Herr]. rewrite Herr. eexists _, _. split; [done|]. cbn [nd nt ev].
    split; [done|]. split; [split; [done|by intros ?%Hp]|by split].
Qed.

(** node-c prepares the map of node-a for epoch 4. *)
Definition demo_standby : NodeService :=
  set_ns_authority (mkAuthorityCache "node-c" (2 * Second) demo_topology (999 * Second) true)
    (NewNodeService "node-c" "10.0.0.3:1" true demo_node_cfg "demo" 0).

Lemma demo_promotable : promotable demo_standby fair_env "demo" (demo_checkpoint 3) 4.
Proof.
  constructor; try reflexivity.
  - right. reflexivity.
  - split; vm_compute; discriminate.
  - split; [vm_compute; discriminate|reflexivity].
  - split_and!; [reflexivity|discriminate|reflexivity|reflexivity].
Qed.

Lemma demo_cfg_open : cfg_ok (MinNPCs + Z.quot MaxTreasures 2) demo_cfg.
Proof.
  constructor; [eexists; reflexivity| |vm_compute; discriminate]. apply grid_cell_open_stands. reflexivity.
Qed.

Lemma Promote_grants_nothing_witness :
  exists enough, forall fuel, (enough <= fuel)%nat ->
  exists s', Promote fuel "demo" demo_cfg (demo_checkpoint 3) 4 (mkNodeSt demo_standby (quiet demo_redis) fair_env) = Some (inr tt, s') /\
    is_Some (ns_maps (nd s') !! "demo") /\ forall t2 e2 epoch, ~ authorised_write (nd s') t2 e2 "demo" epoch.
Proof.
  destruct (Promote_grants_nothing "demo" demo_cfg (demo_checkpoint 3) 4 demo_standby (quiet demo_redis) fair_env
    demo_cfg_open (pair_source_fair)) as [enough H].
  exists enough. intros fuel Hf. destruct (H fuel Hf) as (r & s' & Hrun & _ & [_ Hr] & _ & Hyes). clear H.
  specialize (Hr demo_promotable). subst r. destruct (Hyes eq_refl) as [(e0 & w & e1 & w' & _ & _ & _ & _ & _ & Hnd) Hno].
  exists s'. split; [exact Hrun|]. split; [|exact Hno]. rewrite Hnd. exists w'. apply lookup_insert_eq.
Defined.

(** ** Draining *)

Definition hosted_wf (n : NodeService) : Prop := forall m w, ns_maps n !! m = Some w -> world_wf w.

(** A state that differs from [n] at most in the content of its hosted worlds. *)
Definition only_worlds (n : NodeService) (s : NodeSt) : Prop :=
  exists maps, nd s = set_ns_maps maps n /\ hosted_wf (nd s).

Lemma only_worlds_refl n t e : hosted_wf n -> only_worlds n (mkNodeSt n t e).
Proof. intros H. exists (ns_maps n). split; [by destruct n|done]. Qed.

Lemma only_worlds_trans n n' t e s : only_worlds n (mkNodeSt n' t e) -> only_worlds n' s -> only_worlds n s.
Proof. intros (m1 & Hn & _) (m2 & Hs & Hw). cbn [nd] in Hn. subst n'. by exists m2. Qed.

Lemma only_worlds_put n m w t e : hosted_wf n -> world_wf w ->
  only_worlds n (mkNodeSt (set_ns_maps (<[m := w]> (ns_maps n)) n) t e).
Proof.
  intros Hh Hw. eexists. split; [done|]. intros k v. cbn [nd set_ns_maps ns_maps].
  rewrite lookup_insert_Some. intros [[_ <-]|[_ ?]]; [done|by eapply Hh].
Qed.

Lemma saveFinalCheckpoint_total m n t e :
  hosted_wf n -> wp (saveFinalCheckpoint m) (fun _ s => only_worlds n s) (mkNodeSt n t e).
Proof.
  intros Hh. unfold saveFinalCheckpoint. n_steps. apply wp_onCache, wp_Current. intros e0 o _ _. split; [done|].
  destruct o as [a|]; [|n_steps; by apply only_worlds_refl].
  n_steps. apply wp_requireAuthority. intros r t1 e1 _ _ Hr _ _.
  destruct r as [err|[]]; [by apply only_worlds_refl|]. n_steps.
  apply wp_with_instance; [intros _; n_steps; by apply only_worlds_refl|].
  intros w Hw. n_steps. apply wp_Capture; [by eapply Hh|]. intros cp [w1 e2] (Hw1 & _). cbn [fst snd] in *. n_steps.
  apply wp_onStore; [apply Hr; done|]. apply wp_answers; [apply SaveCheckpointIfOwner_answers|].
  intros [x|x] t4; n_steps; by apply only_worlds_put.
Qed.

Lemma wp_each {A} (f : A -> NM (node_err + unit)) (I : NodeSt -> Prop) l s :
  (forall x s, I s -> wp (f x) (fun _ => I) s) -> I s -> wp (each f l) (fun _ => I) s.
Proof.
  intros Hf. revert s. induction l as [|x l IH]; intros s HI; [done|]. cbn [each]. apply wp_try.
  eapply wp_mono; [by apply Hf|]. intros [err|[]] s' HI'; [done|by apply IH].
Qed.

Lemma saveFinalCheckpoints_total n t e :
  hosted_wf n -> wp saveFinalCheckpoints (fun _ s => only_worlds n s) (mkNodeSt n t e).
Proof.
  intros Hh. unfold saveFinalCheckpoints. n_steps. destruct (negb _); [n_steps; by apply only_worlds_refl|].
  n_steps. apply wp_onCache, wp_OwnedMapIDs. intros e' _. split; [done|].
  destruct (fresh_at _ _); [|n_steps; by apply only_worlds_refl].
  apply wp_each; [|by apply only_worlds_refl].
  intros m [n1 t1 e1] Hs. eapply wp_mono; [apply saveFinalCheckpoint_total; by destruct Hs as (? & _ & ?)|].
  intros r s2 Hs2. by eapply only_worlds_trans.
Qed.

(** The node owns nothing, according to a topology that is still current. *)
Definition disowned (n : NodeService) (e : Env) : Prop :=
  fresh_at (ns_authority n) (next_now e) = true /\
  forall m, t_Owners (ac_topology (ns_authority n)) !! m = Some (ac_nodeID (ns_authority n)) ->
            epoch_of (ac_topology (ns_authority n)) m <= 0.

Lemma owned_nil nodeID t :
  sort_strings (owned_maps nodeID t) = [] <-> forall m, t_Owners t !! m = Some nodeID -> epoch_of t m <= 0.
Proof.
  split.
  - intros H m Hm. apply Z.le_ngt. intros Hlt.
    assert (m ∈ sort_strings (owned_maps nodeID t)) as Hin by by apply elem_of_sort_strings, elem_of_owned_maps.
    rewrite H in Hin. by apply elem_of_nil in Hin.
  - intros H. destruct (sort_strings _) as [|m l] eqn:E; [done|].
    assert (m ∈ sort_strings (owned_maps nodeID t)) as [? ?]%elem_of_sort_strings%elem_of_owned_maps by (rewrite E; left).
    pose proof (H m ltac:(done)). lia.
Qed.

(** What the rest of the node does while a drain waits: it comes back and leaves
    the node draining. *)
Definition background (m : NM unit) : Prop :=
  forall s, ns_draining (nd s) = true -> exists s', m s = Some (tt, s') /\ ns_draining (nd s') = true.

Definition drain_post (r : node_err + unit) (s : NodeSt) : Prop :=
  ns_draining (nd s) = true /\ (r = inr tt -> exists e, later e (ev s) /\ disowned (nd s) e).

Lemma wp_drain_wait between n t e :
  Forall background between -> ns_draining n = true -> wp (drain_wait between) drain_post (mkNodeSt n t e).
Proof.
  intros Hb. revert n t e. induction Hb as [|act rest Hact _ IH]; intros n t e Hd; cbn [drain_wait];
    n_steps; apply wp_onCache, wp_OwnedMapIDs; intros e' Hl; (split; [done|]);
    (destruct (fresh_at (ns_authority n) (next_now e)) eqn:Hf; [|n_steps; by split]);
    (destruct (sort_strings _) as [|m l] eqn:E;
       [n_steps; split; [done|]; intros _; exists e; split; [done|]; split; [done|]; by apply owned_nil|]).
  - n_steps. by split.
  - n_steps. destruct (Hact (mkNodeSt n t e') Hd) as ([n1 t1 e1] & Hrun & Hd1). unfold wp at 1. cbn [snd]. rewrite Hrun.
    by apply IH.
Qed.

(** A drain ends, never reopens the node, and reports success only when a
    topology that is still current gives the node no map; whatever the rest of
    the node does while it waits. *)
Theorem BeginDrain_safe between n t e :
  hosted_wf n -> 0 < nc_DrainPollInterval (ns_runtime n) -> Forall background between ->
  exists r s, BeginDrain between (mkNodeSt n t e) = Some (r, s) /\ drain_post r s.
Proof.
  intros Hh Hi Hb.
  enough (H : wp (BeginDrain between) drain_post (mkNodeSt n t e)) by (apply wp_run in H as (r & s & ? & ?); eauto).
  unfold BeginDrain. n_steps.
  assert (Hh' : hosted_wf (set_ns_draining true n)) by exact Hh.
  assert (H : wp (if negb (ns_draining n) then saveFinalCheckpoints else ok tt)
            (fun _ s => only_worlds (set_ns_draining true n) s) (mkNodeSt (set_ns_draining true n) t e)).
  { destruct (negb _); [by apply saveFinalCheckpoints_total|n_steps; by apply only_worlds_refl]. }
  eapply wp_mono; [exact H|]. intros r [n1 t1 e1] (maps & Hn & _). cbn [nd] in Hn. subst n1.
  destruct r as [err|[]]; n_steps; [by split|]. cbn [set_ns_maps set_ns_draining ns_runtime].
  destruct (Z.leb_spec (nc_DrainPollInterval (ns_runtime n)) 0); [lia|]. by apply wp_drain_wait.
Qed.

(** The maps of node-a after the topology moved them to other nodes. *)
Definition demo_disowned : NodeService :=
  set_ns_authority (mkAuthorityCache "node-a" (2 * Second) demo_next (999 * Second) true) demo_node.

Lemma BeginDrain_safe_witness :
  exists r s, BeginDrain [mret tt] (mkNodeSt demo_disowned (quiet demo_redis) demo_env) = Some (r, s) /\ drain_post r s.
Proof.
  apply (BeginDrain_safe [mret tt] demo_disowned (quiet demo_redis) demo_env).
  - intros m w. cbn [demo_disowned demo_node set_ns_authority set_ns_maps ns_maps].
    rewrite lookup_singleton_Some. intros [_ <-]. exact demo_wf.
  - reflexivity.
  - constructor; [|constructor]. intros s Hs. exists s. by split.
Defined.

(** A failed final checkpoint is never made up for: a first attempt to drain
    while the topology is out of date fails to save and leaves the node draining
    (so its loops save nothing any more), and every later attempt reports success,
    without a single command to Redis, as soon as the topology shows the node
    without maps. *)
Theorem drain_retry_skips_checkpoint between n t e :
  ns_store n = true -> ns_draining n = false -> fresh_at (ns_authority n) (next_now e) = false ->
  (exists e', BeginDrain between (mkNodeSt n t e) =
     Some (inl (ErrSaveFinal ErrDrainTopologyUnavailable), mkNodeSt (set_ns_draining true n) t e')) /\
  forall n2 t2 e2, ns_draining n2 = true -> 0 < nc_DrainPollInterval (ns_runtime n2) -> disowned n2 e2 ->
    exists e', BeginDrain [] (mkNodeSt n2 t2 e2) = Some (inr tt, mkNodeSt n2 t2 e').
Proof.
  intros Hs Hd Hf. split.
  - enough (H : wp (BeginDrain between) (fun r s => r = inl (ErrSaveFinal ErrDrainTopologyUnavailable) /\
      exists e', s = mkNodeSt (set_ns_draining true n) t e') (mkNodeSt n t e))
      by (apply wp_run in H as (r & s & ? & -> & e' & ->); eauto).
    unfold BeginDrain. n_steps. rewrite Hd. cbn [negb]. unfold saveFinalCheckpoints. n_steps.
    cbn [set_ns_draining ns_store]. rewrite Hs. cbn [negb]. n_steps.
    apply wp_onCache, wp_OwnedMapIDs. intros e' _. split; [done|]. cbn [set_ns_draining ns_authority].
    rewrite Hf. n_steps. eauto.
  - intros n2 t2 e2 Hd2 Hi [Hf2 Ho].
    enough (H : wp (BeginDrain []) (fun r s => r = inr tt /\ exists e', s = mkNodeSt n2 t2 e') (mkNodeSt n2 t2 e2))
      by (apply wp_run in H as (r & s & ? & -> & e' & ->); eauto).
    assert (Hn : set_ns_draining true n2 = n2) by (destruct n2; cbn in *; by subst).
    unfold BeginDrain. n_steps. rewrite Hn, Hd2. cbn [negb]. n_steps.
    destruct (Z.leb_spec (nc_DrainPollInterval (ns_runtime n2)) 0); [lia|]. cbn [drain_wait]. n_steps.
    apply wp_onCache, wp_OwnedMapIDs. intros e' _. split; [done|]. rewrite Hf2, (proj2 (owned_nil _ _) Ho).
    n_steps. eauto.
Qed.

(** The cut-off node is told to drain; later the maps have moved to other nodes. *)
Lemma drain_retry_skips_checkpoint_witness :
  (exists e', BeginDrain [] (mkNodeSt demo_cut_off (quiet demo_redis) demo_env) =
     Some (inl (ErrSaveFinal ErrDrainTopologyUnavailable), mkNodeSt (set_ns_draining true demo_cut_off) (quiet demo_redis) e')) /\
  exists e', BeginDrain [] (mkNodeSt (set_ns_draining true demo_disowned) (quiet demo_failed_over) demo_env)
    = Some (inr tt, mkNodeSt (set_ns_draining true demo_disowned) (quiet demo_failed_over) e').
Proof.
  destruct (drain_retry_skips_checkpoint [] demo_cut_off (quiet demo_redis) demo_env eq_refl eq_refl
    (demo_cut_off_expired demo_env (reflexivity demo_env))) as [H1 H2].
  split; [exact H1|]. apply H2; [reflexivity|reflexivity|]. split; [vm_compute; reflexivity|].
  apply owned_nil. vm_compute. reflexivity.
Defined.

(** ** What no operation of a node undoes *)

(** The identity of a node is fixed, draining is for good, and the cached topology
    is valid and never replaced by an older one. *)
Record advances (n n' : NodeService) : Prop := {
  av_id : ns_ID n' = ns_ID n /\ ns_store n' = ns_store n /\ ns_candidateMapID n' = ns_candidateMapID n
          /\ ns_runtime n' = ns_runtime n /\ ac_nodeID (ns_authority n') = ac_nodeID (ns_authority n)
          /\ ac_grace (ns_authority n') = ac_grace (ns_authority n);
  av_drain : ns_draining n = true -> ns_draining n' = true;
  av_valid : cache_inv (ns_authority n) -> cache_inv (ns_authority n');
  av_version : ac_topologyOK (ns_authority n) = true ->
    ac_topologyOK (ns_authority n') = true
    /\ t_Version (ac_topology (ns_authority n)) <= t_Version (ac_topology (ns_authority n'))
}.

#[export] Instance advances_preorder : PreOrder advances.
Proof.
  split.
  - intros n. constructor; [by split_and!|auto|auto|intros; split; [done|apply Z.le_refl]].
  - intros n1 n2 n3 [I1 D1 V1 W1] [I2 D2 V2 W2]. constructor; [|auto..|].
    + destruct I1 as (? & ? & ? & ? & ? & ?), I2 as (? & ? & ? & ? & ? & ?). split_and!; congruence.
    + intros H. destruct (W1 H) as [H1 ?]. destruct (W2 H1). split; [done|lia].
Qed.

Definition forward {A} (m : NM A) : Prop := forall s a s', m s = Some (a, s') -> advances (nd s) (nd s').

Create HintDb forward.

Lemma forward_ret {A} (a : A) : forward (mret a).
Proof. intros s ? ? [= <- <-]. done. Qed.
Lemma forward_panic {A} : forward (panic (A := A)).
Proof. done. Qed.
Lemma forward_ok {A} (a : A) : forward (ok (E := node_err) a).
Proof. intros s ? ? [= <- <-]. done. Qed.
Lemma forward_fail {A} (err : node_err) : forward (fail (A := A) err).
Proof. intros s ? ? [= <- <-]. done. Qed.

Lemma forward_bind {A B} (m : NM A) (f : A -> NM B) : forward m -> (forall a, forward (f a)) -> forward (m ≫= f).
Proof.
  intros Hm Hf s b s'. unfold mbind, st_bind. destruct (m s) as [[a s1]|] eqn:E; [|done]. intros H.
  etrans; [by eapply Hm|by eapply Hf].
Qed.

Lemma forward_try {A B} (m : NM (node_err + A)) (k : A -> NM (node_err + B)) :
  forward m -> (forall a, forward (k a)) -> forward (try m k).
Proof. intros Hm Hk. apply forward_bind; [done|]. intros [err|a]; [intros s ? ? [= <- <-]; done|apply Hk]. Qed.

Lemma forward_self {A} (f : NodeService -> A) : forward (self f).
Proof. intros s ? ? [= <- <-]. done. Qed.

Lemma forward_gets {A} (f : NodeSt -> A) : forward (gets f).
Proof. intros s ? ? [= <- <-]. done. Qed.

Lemma forward_same {A} (m : NM A) : (forall s a s', m s = Some (a, s') -> nd s' = nd s) -> forward m.
Proof. intros H s a s' ->%H. done. Qed.

Lemma forward_onNet {A} (m : RM A) : forward (onNet m).
Proof. apply forward_same. intros s a s'. unfold onNet, zoom. by destruct (m (nt s)) as [[? ?]|]; intros [= _ <-]. Qed.

Lemma forward_onStore {A} (m : RM A) : forward (onStore m).
Proof.
  apply forward_bind; [apply forward_self|]. intros []; [apply forward_onNet|done].
Qed.

Lemma forward_foldM {A B} (f : A -> B -> NM A) acc l : (forall a x, forward (f a x)) -> forward (foldM f acc l).
Proof.
  intros Hf. revert acc. induction l as [|x l IH]; intros acc; [apply forward_ret|].
  apply forward_bind; [apply Hf|]. intros; apply IH.
Qed.

Lemma forward_each {A} (f : A -> NM (node_err + unit)) l : (forall x, forward (f x)) -> forward (each f l).
Proof. intros Hf. induction l as [|x l IH]; [apply forward_ok|]. by apply forward_try. Qed.

Lemma forward_onWorld {A} w (m : W A) : forward (onWorld w m).
Proof. apply forward_same. intros s a s'. unfold onWorld. destruct (m _) as [[? [? ?]]|]; by intros [= _ <-]. Qed.

Lemma forward_onCache {A} (m : AM A) :
  (forall s a s', m s = Some (a, s') -> s'.1 = s.1) -> forward (onCache m).
Proof.
  intros Hm. apply forward_same. intros s a s'. unfold onCache, zoom.
  destruct (m _) as [[x ce]|] eqn:E; [|done]. intros [= _ <-]. apply Hm in E. cbn in *.
  by rewrite E, set_ns_authority_id.
Qed.

Lemma forward_modN f : (forall n, advances n (f n)) -> forward (modN f).
Proof. intros Hf s ? ? [= <- <-]. apply Hf. Qed.

Lemma forward_nowN : forward nowN.
Proof. apply forward_same. by intros s ? ? [= _ <-]. Qed.

Lemma advances_maps m n : advances n (set_ns_maps m n).
Proof. constructor; [by split_and!|auto|auto|intros; split; [done|apply Z.le_refl]]. Qed.
Lemma advances_draining n : advances n (set_ns_draining true n).
Proof. constructor; [by split_and!|auto|auto|intros; split; [done|apply Z.le_refl]]. Qed.
Lemma advances_run ln st k n : advances n (set_ns_run ln st k n).
Proof. constructor; [by split_and!|auto|auto|intros; split; [done|apply Z.le_refl]]. Qed.
Lemma advances_health h b n : advances n (set_ns_health h b n).
Proof. constructor; [by split_and!|auto|auto|intros; split; [done|apply Z.le_refl]]. Qed.

Lemma forward_with_instance {A} mapID (absent : NM A) m : forward absent -> forward (with_instance mapID absent m).
Proof.
  intros Ha. apply forward_bind; [apply forward_self|]. intros maps. case_match; [|done].
  apply forward_bind; [apply forward_onWorld|]. intros [a w2]. apply forward_bind; [|intros; apply forward_ret].
  apply forward_modN. intros; apply advances_maps.
Qed.

Lemma forward_newWorld fuel cfg : forward (newWorld fuel cfg).
Proof. apply forward_same. intros s a s'. unfold newWorld. destruct (NewWorld _ _ _) as [[? ?]|]; by intros [= _ <-]. Qed.

Lemma forward_range_maps : forward range_maps.
Proof. apply forward_bind; [apply forward_self|]. intros m. apply forward_same. by intros s ? ? [= _ <-]. Qed.

(** The tests leave the cache alone. *)
Lemma wp_keeps_cache {A} (m : AM A) :
  (forall c e, wp m (fun _ s => s.1 = c) (c, e)) -> forall s a s', m s = Some (a, s') -> s'.1 = s.1.
Proof. intros H [c e] a s' E. specialize (H c e). unfold wp in H. by rewrite E in H. Qed.

Lemma forward_tests mapID epoch :
  forward (onCache (Require_ mapID epoch)) /\ forward (onCache (Current mapID)) /\ forward (onCache OwnedMapIDs)
  /\ forward (onCache (Cache_RequirePromotionCandidate mapID epoch)).
Proof.
  split_and!; apply forward_onCache, wp_keeps_cache; intros c e;
    [apply wp_Require|apply wp_Current|apply wp_OwnedMapIDs|apply wp_PromotionCandidate]; done.
Qed.

Lemma forward_refresh loaded : forward (onCache (refresh loaded)).
Proof.
  intros [n t e] a s'. assert (H : wp (onCache (refresh loaded)) (fun _ s => advances n (nd s)) (mkNodeSt n t e)).
  { apply wp_onCache_set, wp_cache_refresh.
    - intros err. cbn. by rewrite set_ns_authority_id.
    - intros tp e' _ _ Hv Hle. cbn. constructor; cbn; [by split_and!|auto|by intros _ _|auto]. }
  unfold wp in H. intros E. by rewrite E in H.
Qed.

#[export] Hint Resolve forward_ret forward_panic forward_ok forward_fail forward_self forward_gets forward_onNet forward_onStore forward_onWorld
  forward_nowN forward_newWorld forward_range_maps forward_refresh forward_tests : forward.

Ltac forward :=
  repeat first
    [ progress intros
    | match goal with
      | |- forward (match ?x with _ => _ end) => destruct x
      | |- forward (_ ≫= _) => apply forward_bind
      | |- forward (try _ _) => apply forward_try
      | |- forward (foldM _ _ _) => apply forward_foldM
      | |- forward (each _ _) => apply forward_each
      | |- forward (with_instance _ _ _) => apply forward_with_instance
      | |- forward (modN _) => apply forward_modN; intros; solve [apply advances_maps | apply advances_draining | (etrans; [apply advances_health|apply advances_run]) | apply advances_health]
      | |- forward (onCache (Require_ ?m ?ep)) => apply (forward_tests m ep)
      | |- forward (onCache (Current ?m)) => apply (forward_tests m 0)
      | |- forward (onCache OwnedMapIDs) => apply (forward_tests "" 0)
      | |- forward (onCache (Cache_RequirePromotionCandidate ?m ?ep)) => apply (forward_tests m ep)
      end
    | solve [auto with forward] ].

(** Everything a node does: its requests, reads, hosting operations, one round of
    each loop, draining and life cycle. *)
Inductive node_op :=
  | NodeRequest (mapID : string) (epoch : Z) (req : request)
  | NodeProfile (mapID username : string)
  | NodeSnapshot (mapID : string)
  | NodeCheckpoint (mapID : string)
  | NodePromote (mapID : string) (cfg : MapConfig) (cp : MapCheckpoint) (target : Z)
  | NodeInstall (cfg : MapConfig)
  | NodeRestore (cfg : MapConfig) (cp : MapCheckpoint)
  | NodeRemove (mapID : string)
  | NodeRefresh
  | NodeFlush (since : Z)
  | NodeTick
  | NodeBeginDrain
  | NodeSetHealthy (healthy : bool)
  | NodeStart
  | NodeStop.

Definition void {A} (m : NM A) : NM unit := _ ← m; mret tt.

Definition run_node_op (fuel : nat) (op : node_op) : NM unit :=
  match op with
  | NodeRequest m ep req => void (run_request fuel m ep req)
  | NodeProfile m u => void (Profile m u)
  | NodeSnapshot m => void (Snapshot m)
  | NodeCheckpoint m => void (Checkpoint m)
  | NodePromote m cfg cp target => void (Promote fuel m cfg cp target)
  | NodeInstall cfg => InstallPrimaryMap fuel cfg
  | NodeRestore cfg cp => RestorePrimaryMap fuel cfg cp
  | NodeRemove m => RemoveHostedMap m
  | NodeRefresh => void (refreshTopology fuel)
  | NodeFlush since => void (flushLoop_tick since)
  | NodeTick => tickLoop_tick
  | NodeBeginDrain => void (BeginDrain [])
  | NodeSetHealthy h => void (SetHealthy h)
  | NodeStart => Start
  | NodeStop => Stop
  end.

(** A step of the node, or of the world around it. *)
Inductive node_step (fuel : nat) : NodeSt -> NodeSt -> Prop :=
  | ns_op op s s' : run_node_op fuel op s = Some (tt, s') -> node_step fuel s s'
  | ns_around s t e : later (ev s) e -> node_step fuel s (mkNodeSt (nd s) t e).

Lemma forward_gate mapID epoch : forward (requireAuthority mapID epoch) /\ forward (beginWrite mapID epoch).
Proof.
  assert (forward (requireAuthority mapID epoch)) by (unfold requireAuthority; forward).
  split; [done|]. unfold beginWrite. forward.
Qed.

Lemma forward_ensureHostedMap fuel mapID : forward (ensureHostedMap fuel mapID).
Proof. unfold ensureHostedMap. forward. Qed.

#[export] Hint Resolve forward_ensureHostedMap : forward.
#[export] Hint Extern 1 (forward (requireAuthority ?m ?ep)) => exact (proj1 (forward_gate m ep)) : forward.
#[export] Hint Extern 1 (forward (beginWrite ?m ?ep)) => exact (proj2 (forward_gate m ep)) : forward.

Lemma forward_request fuel mapID epoch req : forward (run_request fuel mapID epoch req).
Proof.
  destruct req; cbn [run_request];
    unfold AddPlayer, discard, RemovePlayer, MovePlayer, Attack, Heal, BuyItem, RewardPlayer, gated, AttackBoss, boss_killed;
    forward.
Qed.

Lemma forward_rounds fuel since :
  forward (refreshTopology fuel) /\ forward (flushLoop_tick since) /\ forward tickLoop_tick /\ forward (BeginDrain []).
Proof.
  split_and!.
  - unfold refreshTopology, ensureOwnedMaps. forward.
  - unfold flushLoop_tick. forward.
  - unfold tickLoop_tick, tick_map, publish_all. forward.
  - unfold BeginDrain, saveFinalCheckpoints, saveFinalCheckpoint. cbn [drain_wait]. forward.
Qed.

Lemma forward_op fuel op : forward (run_node_op fuel op).
Proof.
  destruct op; cbn [run_node_op]; unfold void;
    try (apply forward_bind; [|intros; apply forward_ret]);
    try apply forward_request; try apply (forward_rounds fuel 0); try apply forward_rounds;
    unfold Profile, Snapshot, Checkpoint, Promote, RequirePromotionCandidate, InstallPrimaryMap, RestorePrimaryMap,
      InstallPrimaryMap, RemoveHostedMap, SetHealthy, Start, Stop;
    forward.
Qed.

(** Over the life of a node, whatever it is asked to do and whatever happens
    around it: its identity is fixed, draining is for good, and its cached topology
    is always a valid one and only ever replaced by one of at least its version. *)
Theorem node_advances fuel s s' :
  rtc (node_step fuel) s s' -> advances (nd s) (nd s').
Proof.
  induction 1 as [s|s1 s2 s3 Hstep _ IH]; [done|]. etrans; [|exact IH].
  destruct Hstep as [op s s2 Hrun|]; [|done]. by eapply forward_op.
Qed.

Lemma node_advances_witness :
  exists s', rtc (node_step 30) (mkNodeSt demo_node (quiet demo_failed_over) demo_env) s' /\ advances demo_node (nd s').
Proof.
  destruct (BeginDrain_safe [] demo_node (quiet demo_failed_over) demo_env) as (r & s & Hs & _).
  - intros m w. cbn [demo_node set_ns_authority set_ns_maps ns_maps]. rewrite lookup_singleton_Some. intros [_ <-]. exact demo_wf.
  - reflexivity.
  - constructor.
  - exists s. assert (H : rtc (node_step 30) (mkNodeSt demo_node (quiet demo_failed_over) demo_env) s).
    { apply rtc_once, (ns_op _ NodeBeginDrain). cbn [run_node_op]. unfold void, mbind, st_bind. rewrite Hs. reflexivity. }
    split; [exact H|]. exact (node_advances 30 _ _ H).
Defined.
