(* ===== verification/Lifecycle.v ===== *)
(** * The life-cycle endpoints

    [lifecycle/http.go]: the three routes every process offers to its scheduler,
    over callbacks of the process; and the callbacks of the gateway
    ([cmd/gateway/main.go]), whose drain is a flag and the start of the graceful
    stop.  Those of a node and of a coordinator are in [NodeProcess] and
    [CoordinatorProcess]. *)

From Stdlib Require Import ZArith Lia String.
From stdpp Require Import base strings list option relations.
From S2P Require Import Prelude.

Open Scope Z_scope.
Open Scope go_scope.

(** [lifecycle.Status] *)
Record LifeStatus := mkLifeStatus {
  ls_Draining : bool;
  ls_ActiveConnections : Z
}.

(** What an error body says; [ErrDrain] carries the error of the callback. *)
Inductive lifecycle_err {E : Type} :=
  | ErrMethodNotAllowed
  | ErrDrainNotSupported
  | ErrDrain (err : E).
Arguments lifecycle_err : clear implicits.

(** The JSON document of an answer. *)
Inductive life_payload {E : Type} :=
  | StatusBody (status : LifeStatus)
  | ErrorBody (err : lifecycle_err E).
Arguments life_payload : clear implicits.

(** An answer: status code, the headers [Allow] and [Content-Type], the body. *)
Record LifeResponse {E : Type} := mkLifeResponse {
  lr_Code : Z;
  lr_Allow : option string;
  lr_ContentType : string;
  lr_Body : life_payload E
}.
Arguments LifeResponse : clear implicits.
Arguments mkLifeResponse {E}.

Definition StatusOK : Z := 200.
Definition StatusAccepted : Z := 202.
Definition StatusMethodNotAllowed : Z := 405.
Definition StatusConflict : Z := 409.
Definition StatusNotImplemented : Z := 501.
Definition StatusServiceUnavailable : Z := 503.
Definition MethodGet : string := "GET".
Definition MethodPost : string := "POST".

Section handler.
Context {S E : Type}.

(** [lifecycle.Callbacks]; a nil function is [None].  The request's context, which
    no process looks at, is left out. *)
Record Callbacks := mkCallbacks {
  cb_Status : option (ST S LifeStatus);
  cb_Ready : option (ST S bool);
  cb_Drain : option (ST S (E + unit))
}.

Definition writeJSON (status : Z) (payload : life_payload E) : LifeResponse E :=
  mkLifeResponse status None "application/json" payload.

Definition life_writeError (status : Z) (err : lifecycle_err E) : LifeResponse E := writeJSON status (ErrorBody err).

Definition methodNotAllowed : LifeResponse E :=
  mkLifeResponse StatusMethodNotAllowed (Some (MethodGet +:+ ", " +:+ MethodPost)) "application/json" (ErrorBody ErrMethodNotAllowed).

Definition currentStatus (callbacks : Callbacks) : ST S LifeStatus :=
  match cb_Status callbacks with
  | None => mret (mkLifeStatus false 0)
  | Some f => f
  end.

Definition healthz (callbacks : Callbacks) (method : string) : ST S (LifeResponse E) :=
  if negb (bool_decide (method = MethodGet)) then mret methodNotAllowed else
  status ← currentStatus callbacks;
  mret (writeJSON StatusOK (StatusBody status)).

Definition readyz (callbacks : Callbacks) (method : string) : ST S (LifeResponse E) :=
  if negb (bool_decide (method = MethodGet)) then mret methodNotAllowed else
  status ← currentStatus callbacks;
  if ls_Draining status then mret (writeJSON StatusServiceUnavailable (StatusBody status)) else
  ready ← (match cb_Ready callbacks with None => mret false | Some f => f end);
  if negb ready then mret (writeJSON StatusServiceUnavailable (StatusBody status)) else
  mret (writeJSON StatusOK (StatusBody status)).

Definition drain (callbacks : Callbacks) (method : string) : ST S (LifeResponse E) :=
  if negb (bool_decide (method = MethodPost)) then mret methodNotAllowed else
  match cb_Drain callbacks with
  | None => mret (life_writeError StatusNotImplemented ErrDrainNotSupported)
  | Some f =>
      r ← f;
      match r with
      | inl err => mret (life_writeError StatusConflict (ErrDrain err))
      | inr _ =>
          status ← currentStatus callbacks;
          mret (writeJSON StatusAccepted (StatusBody status))
      end
  end.

(** [NewHandler]; [None] is the multiplexer's own answer to any other path. *)
Definition NewHandler (callbacks : Callbacks) (path method : string) : ST S (option (LifeResponse E)) :=
  if bool_decide (path = "/healthz") then (r ← healthz callbacks method; mret (Some r)) else
  if bool_decide (path = "/readyz") then (r ← readyz callbacks method; mret (Some r)) else
  if bool_decide (path = "/drain") then (r ← drain callbacks method; mret (Some r)) else mret None.
End handler.
Arguments Callbacks : clear implicits.

(** An answer that tells a scheduler that the process takes no new work. *)
Definition refuses_work {E} (status : LifeStatus) (o : option (LifeResponse E)) : Prop :=
  exists r, o = Some r /\ lr_Code r = StatusServiceUnavailable /\ lr_Body r = StatusBody status.

(** A process whose status says draining is not ready, whatever its callback says. *)
Lemma draining_not_ready {S E} (callbacks : Callbacks S E) (f : ST S LifeStatus) status (s : S) :
  cb_Status callbacks = Some f -> f s = Some (status, s) -> ls_Draining status = true ->
  exists o, NewHandler callbacks "/readyz" MethodGet s = Some (o, s) /\ refuses_work status o.
Proof.
  intros Hc Hf Hd. eexists. split.
  - unfold NewHandler, readyz, currentStatus. rewrite Hc.
    rewrite (bool_decide_eq_false_2 ("/readyz" = "/healthz")), !bool_decide_eq_true_2 by done. cbn [negb]. cbv [mbind st_bind mret st_ret].
    by rewrite Hf, Hd.
  - eexists. by split_and!.
Qed.

(** What every callback keeps, a request keeps. *)
Definition keeps {S A} (I : S -> Prop) (m : ST S A) : Prop := forall s, I s -> wlp m (fun _ => I) s.

Lemma NewHandler_keeps {S E} (callbacks : Callbacks S E) (I : S -> Prop) path method s :
  (forall f, cb_Status callbacks = Some f -> keeps I f) -> (forall f, cb_Ready callbacks = Some f -> keeps I f) ->
  (forall f, cb_Drain callbacks = Some f -> keeps I f) -> I s -> wlp (NewHandler callbacks path method) (fun _ => I) s.
Proof.
  intros Hst Hre Hdr. assert (Hcur : keeps I (currentStatus callbacks)).
  { intros t Ht. unfold currentStatus. destruct (cb_Status callbacks) as [f|]; [by apply Hst|by apply wlp_ret]. }
  assert (Hthen : forall {A B} (m : ST S A) (k : A -> ST S B), keeps I m -> (forall a, keeps I (k a)) -> keeps I (m ≫= k)).
  { intros A B m k Hm Hk t Ht. apply wlp_bind. eapply wlp_mono; [by apply Hm|]. intros a t' Ht'. by apply Hk. }
  assert (Hret : forall {A} (a : A), keeps I (mret a)) by (intros A a t Ht; by apply wlp_ret).
  revert s. enough (H : keeps I (NewHandler callbacks path method)) by exact H.
  unfold NewHandler, healthz, readyz, drain.
  repeat (first [apply Hthen; [|intros] | apply Hcur | apply Hret | case_match]); eauto.
Qed.

(** ** The gateway *)

(** What [cmd/gateway/main.go] keeps for its life cycle: the flag, the calls of
    [GracefulStop] started, whether a signal has been taken.  The server and its
    streams are gRPC's. *)
Record GatewayProc := mkGatewayProc {
  gp_draining : bool;
  gp_stops : nat;
  gp_signalled : bool
}.

(** [serveGatewayLifecycle] *)
Definition gateway_callbacks : Callbacks GatewayProc Empty_set := {|
  cb_Status := Some (draining ← gets gp_draining; mret (mkLifeStatus draining 0));
  cb_Ready := Some (draining ← gets gp_draining; mret (negb draining));
  cb_Drain := Some (
    draining ← gets gp_draining;
    if (draining : bool) then mret (inr tt) else
    _ ← modify (fun p => mkGatewayProc true (S (gp_stops p)) (gp_signalled p));
    mret (inr tt))
|}.

(** The goroutine that waits for one signal. *)
Definition gateway_signal (p : GatewayProc) : GatewayProc :=
  if gp_signalled p then p else mkGatewayProc (gp_draining p) (S (gp_stops p)) true.

(** Requests to the endpoints, and signals. *)
Inductive gateway_life_event :=
  | GatewayRequest (path method : string)
  | GatewaySignal.

Definition gateway_life (ev : gateway_life_event) : ST GatewayProc (option (LifeResponse Empty_set)) :=
  match ev with
  | GatewayRequest path method => NewHandler gateway_callbacks path method
  | GatewaySignal => _ ← modify gateway_signal; mret None
  end.

Inductive gateway_life_step : GatewayProc -> GatewayProc -> Prop :=
  | gls_event ev p o p' : gateway_life ev p = Some (o, p') -> gateway_life_step p p'.

(** Every request is answered, and only an accepted drain or the first signal
    change anything. *)
Lemma gateway_life_run ev p :
  exists o p', gateway_life ev p = Some (o, p') /\
    (p' = p \/ ev = GatewayRequest "/drain" MethodPost /\ gp_draining p = false /\ p' = mkGatewayProc true (S (gp_stops p)) (gp_signalled p)
     \/ ev = GatewaySignal /\ p' = gateway_signal p).
Proof.
  destruct ev as [path method|]; [|by eauto 10]. cbn [gateway_life]. unfold NewHandler.
  case_bool_decide; [unfold healthz; case_bool_decide; eexists _, _; by eauto|].
  case_bool_decide.
  { unfold readyz. case_bool_decide; cbn [negb]; [|by eauto]. destruct p as [[] stops sig]; eexists _, _; split; by eauto. }
  case_bool_decide; [|by eauto]. unfold drain. case_bool_decide; cbn [negb]; [|by eauto]. subst.
  destruct p as [[] stops sig]; eexists _, _; (split; [reflexivity|]); by eauto.
Qed.

(** Whatever is asked of a gateway and however often: the graceful stop is started
    by a drain once and by a signal once, and a gateway that has begun to drain
    tells its scheduler so for ever. *)
Lemma gateway_stops_bounded p p' :
  rtc gateway_life_step p p' ->
  (gp_stops p' + Nat.b2n (gp_draining p) + Nat.b2n (gp_signalled p)
   = gp_stops p + Nat.b2n (gp_draining p') + Nat.b2n (gp_signalled p'))%nat /\
  (gp_draining p = true -> gp_draining p' = true).
Proof.
  induction 1 as [|p1 p2 p3 [ev q o q' Hrun] _ [IH1 IH2]]; [done|].
  destruct (gateway_life_run ev q) as (o' & q'' & Hrun' & Hq). rewrite Hrun' in Hrun. injection Hrun as <- <-.
  destruct Hq as [->|[(-> & Hd & ->)|(-> & ->)]]; [done| |].
  - cbn in *. rewrite Hd in *. cbn. split; [lia|done].
  - unfold gateway_signal in *. destruct (gp_signalled q) eqn:E; cbn in *; rewrite ?E in *; cbn in *; (split; [lia|done]).
Qed.
