(* ===== verification/NodeProcess.v ===== *)
(** * The process of a node

    [cmd/node/main.go] and [cmd/node/lifecycle.go]: the start of a node, the
    goroutine that registers it, the endpoints of its life cycle and the goroutine
    that waits for a signal.  A process stops serving only after a drain that ended
    with a current topology without maps for it; a drain that fails uses up the one
    signal the process listens to. *)

From Stdlib Require Import ZArith Lia String.
From stdpp Require Import base sorting gmap strings list option relations.
From S2P Require Import Prelude Protocol Config Maps World WorldOps WorldProps Topology Redis Store StoreProps Authority Node NodeProps Lifecycle.

Open Scope Z_scope.
Open Scope go_scope.

(** The variables of [main] the goroutines use. *)
Record NodeMain := mkNodeMain {
  nm_nodeID : string;
  nm_nodeAddr : string;
  nm_declaredMap : string;
  nm_lifecycleAddr : string;
  nm_drainTimeout : Z;
  nm_LeaseTTL : Z
}.

(** The process: its node, whether a signal is in the channel, whether the goroutine
    that takes signals has returned, and whether the server has not been told to
    stop. *)
Record NodeProc := mkNodeProc {
  np_main : NodeMain;
  np_st : NodeSt;
  np_sigCh : bool;
  np_sigDone : bool;
  np_serving : bool
}.

Definition set_np_st (s : NodeSt) (p : NodeProc) : NodeProc :=
  mkNodeProc (np_main p) s (np_sigCh p) (np_sigDone p) (np_serving p).
Definition set_np_signal (buffered done : bool) (p : NodeProc) : NodeProc :=
  mkNodeProc (np_main p) (np_st p) buffered done (np_serving p).

Abbreviation PM := (ST NodeProc).
Definition onNode {A} (m : NM A) : PM A := zoom np_st set_np_st m.

Definition isKnownMap (mapID : string) : bool := match FindConfig mapID with Some _ => true | None => false end.

Section process.
Context (fuel : nat).

(** [main] up to the call of [Serve]; [None] is an exit.  [runtime] is what
    [LoadRuntime] returns, [store] whether [NewStore] succeeded, [listening] whether
    the address could be bound. *)
Definition node_main (nodeID nodeAddr declaredMap lifecycleAddr : string) (drainTimeout : Z)
    (runtime : option RuntimeConfig) (store listening : bool) (t : Net) (e : Env) : option NodeProc :=
  match runtime with
  | None => None
  | Some runtime =>
      let drainTimeout := if drainTimeout =? 0 then nc_DrainTimeout (rc_Node runtime) else drainTimeout in
      let declaredMap := TrimSpace declaredMap in
      if negb (isKnownMap declaredMap) then None else
      '(created, e) ← now id (fun e _ => e) e;
      let ns := NewNodeService nodeID nodeAddr store (rc_Node runtime) declaredMap created in
      '(_, s) ← Start (mkNodeSt ns t e);
      if negb listening then None else
      Some (mkNodeProc (mkNodeMain nodeID nodeAddr declaredMap lifecycleAddr drainTimeout (nrc_LeaseTTL (rc_NodeRegistry runtime)))
              s false false true)
  end.

(** One round of the goroutine that registers the node. *)
Definition register (main : NodeMain) : NM (store_err + unit) :=
  draining ← self IsDraining;
  onNet (RegisterNode (mkNodeRegistryInfo (nm_nodeID main) (nm_nodeAddr main) (nm_declaredMap main) draining) (nm_LeaseTTL main)).

(** What goes on in the process while a drain waits. *)
Inductive activity :=
  | ActNode (op : node_op)
  | ActRegister.

Definition run_activity (main : NodeMain) (a : activity) : NM unit :=
  match a with
  | ActNode op => run_node_op fuel op
  | ActRegister => void (register main)
  end.

(** [ns.BeginDrain] under the timeout of the process: [between] is what happens
    until it succeeds, fails or runs out of time. *)
Definition begin_drain (between : list activity) : PM (node_err + unit) :=
  main ← gets np_main;
  onNode (BeginDrain (run_activity main <$> between)).

(** The callbacks of [serveLifecycle]. *)
Definition node_callbacks (between : list activity) : Callbacks NodeProc node_err := {|
  cb_Status := Some (state ← onNode (self DrainState); mret (mkLifeStatus (ds_Draining state) (ds_ActiveConnections state)));
  cb_Ready := Some (draining ← onNode (self IsDraining); mret (negb draining));
  cb_Drain := Some (begin_drain between)
|}.

(** The goroutine that takes one signal; [GracefulStop] makes [Serve] return and
    ends the process. *)
Definition take_signal (between : list activity) : PM unit :=
  _ ← modify (fun p => set_np_signal false true p);
  r ← begin_drain between;
  match r with
  | inl _ => mret tt
  | inr _ => modify (fun p => mkNodeProc (np_main p) (np_st p) (np_sigCh p) (np_sigDone p) false)
  end.

(** A node's operation, a registration, a request to the endpoints, the delivery of
    a signal (which the channel drops when it holds one), the goroutine taking it. *)
Inductive proc_event :=
  | ProcNode (op : node_op)
  | ProcRegister
  | ProcRequest (path method : string) (between : list activity)
  | ProcSignal
  | ProcTakeSignal (between : list activity).

Definition proc_enabled (p : NodeProc) (ev : proc_event) : bool :=
  match ev with
  | ProcRegister => ns_store (nd (np_st p))
  | ProcRequest _ _ _ => negb (bool_decide (nm_lifecycleAddr (np_main p) = ""))
  | ProcTakeSignal _ => np_sigCh p && negb (np_sigDone p)
  | ProcNode _ | ProcSignal => true
  end.

Definition run_event (ev : proc_event) : PM (option (LifeResponse node_err)) :=
  match ev with
  | ProcNode op => _ ← onNode (run_node_op fuel op); mret None
  | ProcRegister => main ← gets np_main; _ ← onNode (register main); mret None
  | ProcRequest path method between => NewHandler (node_callbacks between) path method
  | ProcSignal => _ ← modify (fun p => set_np_signal true (np_sigDone p) p); mret None
  | ProcTakeSignal between => _ ← take_signal between; mret None
  end.

Inductive proc_step : NodeProc -> NodeProc -> Prop :=
  | ps_event ev o p p' : proc_enabled p ev = true -> run_event ev p = Some (o, p') -> proc_step p p'
  | ps_around p t e : later (Node.ev (np_st p)) e -> proc_step p (set_np_st (mkNodeSt (nd (np_st p)) t e) p).

(** ** Drains *)

Lemma wp_wlp {S A} (m : ST S A) Q s : wp m Q s -> wlp m Q s.
Proof. unfold wp, wlp. intros H a s' E. by rewrite E in H. Qed.

Lemma wlp_OwnedMapIDs s (Q : option (list string) -> NodeSt -> Prop) :
  (forall e', later (ev s) e' ->
     Q (if fresh_at (ns_authority (nd s)) (next_now (ev s))
        then Some (sort_strings (owned_maps (ac_nodeID (ns_authority (nd s))) (ac_topology (ns_authority (nd s))))) else None)
       (mkNodeSt (nd s) (nt s) e')) -> wlp (onCache OwnedMapIDs) Q s.
Proof. destruct s as [n t e]. intros H. apply wp_wlp, wp_onCache, wp_OwnedMapIDs. intros e' Hl. split; [done|]. by apply H. Qed.

(** A drain that reports success has seen a current topology without maps for the
    node, whatever went on in between. *)
Definition drained (r : node_err + unit) (s : NodeSt) : Prop := r = inr tt -> exists e, later e (ev s) /\ disowned (nd s) e.

Lemma drain_wait_drained between s : wlp (drain_wait between) drained s.
Proof.
  revert s. induction between as [|act rest IH]; intros s; cbn [drain_wait]; apply wlp_bind, wlp_OwnedMapIDs; intros e' Hl;
    (destruct (fresh_at _ _) eqn:Hf; [|by apply wlp_ret]);
    (destruct (sort_strings _) as [|m l] eqn:E;
       [apply wlp_ret; intros _; exists (ev s); split; [done|]; split; [done|]; by apply owned_nil|]).
  - by apply wlp_ret.
  - apply wlp_bind. eapply wlp_mono; [apply wlp_true|]. intros [] s' _. apply IH.
Qed.

Lemma BeginDrain_drained between s : wlp (BeginDrain between) drained s.
Proof.
  unfold BeginDrain. apply wlp_bind, wlp_gets, wlp_bind, wlp_modify, wlp_bind. eapply wlp_mono; [apply wlp_true|].
  intros [err|[]] s' _; [by apply wlp_ret|]. apply wlp_bind, wlp_gets. case_match; [done|]. apply drain_wait_drained.
Qed.

Lemma forward_drain_wait between : Forall forward between -> forward (drain_wait between).
Proof. induction 1; cbn [drain_wait]; forward; done. Qed.

Lemma forward_final : forward saveFinalCheckpoints.
Proof. unfold saveFinalCheckpoints, saveFinalCheckpoint. forward. Qed.

(** Once it has begun, the node is draining whatever comes of it. *)
Lemma BeginDrain_draining between s :
  Forall forward between -> wlp (BeginDrain between) (fun _ s' => advances (nd s) (nd s') /\ ns_draining (nd s') = true) s.
Proof.
  intros Hb. unfold BeginDrain. apply wlp_bind, wlp_gets, wlp_bind, wlp_modify. cbn [set_nd nd].
  set (s1 := set_nd _ s).
  enough (H : forall m : NM (node_err + unit), forward m -> wlp m (fun _ s' => advances (nd s) (nd s') /\ ns_draining (nd s') = true) s1).
  { apply H. pose proof forward_final. pose proof (forward_drain_wait _ Hb). forward; auto. }
  intros m Hm r s' E. specialize (Hm _ _ _ E). split; [|by apply Hm]. etrans; [|exact Hm]. apply advances_draining.
Qed.

(** ** The process *)

Lemma forward_activity main a : forward (run_activity main a).
Proof.
  destruct a as [op|]; [apply forward_op|]. cbn [run_activity]. unfold void, register. forward.
Qed.

Lemma forward_activities main between : Forall forward (run_activity main <$> between).
Proof. apply Forall_fmap, Forall_true. intros a. apply forward_activity. Qed.

(** What a step of the process leaves alone or only moves forward. *)
Record proceeds (p p' : NodeProc) : Prop := {
  pr_main : np_main p' = np_main p;
  pr_node : advances (nd (np_st p)) (nd (np_st p'));
  pr_sigDone : np_sigDone p = true -> np_sigDone p' = true
}.

#[export] Instance proceeds_preorder : PreOrder proceeds.
Proof.
  split; [by intros p|]. intros p1 p2 p3 [M1 N1 S1] [M2 N2 S2]. constructor; [congruence|by etrans|auto].
Qed.

(** The server is told to stop only by a drain that succeeded just before. *)
Definition stops_drained (p p' : NodeProc) : Prop :=
  np_serving p' = np_serving p \/
  np_sigDone p = false /\ exists e, later e (ev (np_st p')) /\ disowned (nd (np_st p')) e.

Abbreviation fine p := (fun _ p' => proceeds p p' /\ stops_drained p p').

Lemma wlp_onNode {A} (m : NM A) Q p : wlp m (fun a s => Q a (set_np_st s p)) (np_st p) -> wlp (onNode m) Q p.
Proof. apply wlp_zoom. Qed.

Lemma fine_forward {A} (m : NM A) p : forward m -> wlp (onNode m) (fine p) p.
Proof. intros Hm. apply wlp_onNode. intros a s' E. split; [constructor; cbn; [done|by eapply Hm|done]|by left]. Qed.

Lemma begin_drain_fine between p :
  wlp (begin_drain between) (fun r p' => proceeds p p' /\ np_serving p' = np_serving p /\ np_sigCh p' = np_sigCh p
      /\ drained r (np_st p') /\ ns_draining (nd (np_st p')) = true) p.
Proof.
  unfold begin_drain. apply wlp_bind, wlp_gets, wlp_onNode. intros r s' E.
  destruct (BeginDrain_draining _ (np_st p) (forward_activities (np_main p) between) _ _ E) as [Ha Hd].
  pose proof (BeginDrain_drained _ _ _ _ E). split_and!; [by constructor|done..].
Qed.

Lemma NewHandler_fine path method between p :
  wlp (NewHandler (node_callbacks between) path method) (fun _ p' => proceeds p p' /\ np_serving p' = np_serving p) p.
Proof.
  apply (NewHandler_keeps _ (fun p' => proceeds p p' /\ np_serving p' = np_serving p)); [..|done];
    intros f [= <-] p1 [Hp Hs].
  - destruct p1. by intros a p2 [= _ <-].
  - destruct p1. by intros a p2 [= _ <-].
  - eapply wlp_mono; [apply begin_drain_fine|]. intros r p2 (Hp2 & Hs2 & _). split; [by etrans|congruence].
Qed.

Lemma run_event_fine event p : proc_enabled p event = true -> wlp (run_event event) (fine p) p.
Proof.
  intros Hen. destruct event as [op| |path method between| |between]; cbn [run_event].
  - apply wlp_bind. eapply wlp_mono; [apply fine_forward, forward_op|]. intros ? ? ?. by apply wlp_ret.
  - apply wlp_bind, wlp_gets, wlp_bind. eapply wlp_mono; [apply fine_forward; unfold register; forward|].
    intros ? ? ?. by apply wlp_ret.
  - eapply wlp_mono; [apply NewHandler_fine|]. intros ? ? [? ?]. split; [done|by left].
  - apply wlp_bind, wlp_modify, wlp_ret. split; [by constructor|by left].
  - cbn [proc_enabled] in Hen. apply andb_true_iff in Hen as [_ Hdone%negb_true_iff].
    unfold take_signal. apply wlp_bind, wlp_bind, wlp_modify, wlp_bind. eapply wlp_mono; [apply begin_drain_fine|].
    intros r p' ([M N D] & Hs & _ & Hdr & _).
    assert (Hp : proceeds p p') by (constructor; [exact M|exact N|intros _; by apply D]).
    destruct r as [err|[]]; [by apply wlp_ret, wlp_ret; split; [|left]|]. apply wlp_modify, wlp_ret.
    destruct Hp. split; [by constructor|]. right. split; [done|]. by apply Hdr.
Qed.

Lemma proc_step_fine p p' : proc_step p p' -> proceeds p p' /\ stops_drained p p'.
Proof.
  intros [event o p1 p2 Hen Hrun|p1 t e _]; [by eapply run_event_fine|]. split; [by constructor|by left].
Qed.

Lemma proc_run_fine p p' : rtc proc_step p p' -> proceeds p p'.
Proof. induction 1 as [|p1 p2 p3 Hstep _ IH]; [done|]. etrans; [by apply proc_step_fine|done]. Qed.

(** The moment a process was told to stop. *)
Definition stopped_drained (p p' : NodeProc) : Prop :=
  exists p1 e, rtc proc_step p p1 /\ rtc proc_step p1 p' /\ later e (ev (np_st p1)) /\ disowned (nd (np_st p1)) e.

Lemma run_stops_drained p p' : rtc proc_step p p' -> np_serving p = true -> np_serving p' = false -> stopped_drained p p'.
Proof.
  induction 1 as [|p1 p2 p3 Hstep Hrun IH]; [congruence|]. intros H1 H3.
  destruct (proc_step_fine _ _ Hstep) as [_ [Hs|(_ & e & Hl & Hd)]].
  - destruct IH as (p & e & ? & ? & ?); [congruence|done|]. exists p, e. split; [by eapply rtc_l|done].
  - exists p2, e. split; [by apply rtc_once|done].
Qed.

Lemma node_main_started nodeID nodeAddr declaredMap lifecycleAddr drainTimeout runtime store listening t e p :
  node_main nodeID nodeAddr declaredMap lifecycleAddr drainTimeout runtime store listening t e = Some p ->
  np_serving p = true /\ nm_nodeID (np_main p) = nodeID /\ nm_declaredMap (np_main p) = TrimSpace declaredMap /\
  isKnownMap (TrimSpace declaredMap) = true.
Proof.
  unfold node_main. destruct runtime as [runtime|]; [|done]. destruct (isKnownMap _); [|done].
  cbn. destruct listening; [|done]. cbn. by intros [= <-].
Qed.

Lemma draining_refuses between p :
  ns_draining (nd (np_st p)) = true ->
  exists o, NewHandler (node_callbacks between) "/readyz" MethodGet p = Some (o, p) /\ refuses_work (mkLifeStatus true 0) o.
Proof.
  intros Hd. eapply draining_not_ready; [reflexivity| |done].
  destruct p as [main [n t e] ch done_ srv]. cbn in *. unfold onNode, zoom, self, gets, mbind, st_bind, DrainState. cbn. by rewrite Hd.
Qed.

Lemma register_draining p s :
  ns_draining (nd (np_st p)) = true -> register (np_main p) (np_st p) = Some (inr tt, s) ->
  exists expiry, r_nodes (n_redis (nt s)) !! nm_nodeID (np_main p) =
    Some (Good (mkNodeRegistryInfo (nm_nodeID (np_main p)) (nm_nodeAddr (np_main p)) (nm_declaredMap (np_main p)) true), expiry).
Proof.
  destruct p as [main [n t e] ch done_ srv]. cbn. intros Hd.
  unfold register, self, gets, mbind at 1, st_bind at 1. cbn. unfold IsDraining. rewrite Hd.
  unfold onNet, zoom, RegisterNode, orErr, write, cmd, mbind, st_bind. cbn.
  destruct (n_fault t (n_pos t)); cbn; [|done|done]. intros [= <-]. cbn. rewrite lookup_insert_eq. eauto.
Qed.

(** C22. A node's process gives up its maps before it ends.  Whatever it is asked to
    do, over its endpoints, by signals and by other processes, and whatever happens
    on the network: it stops serving only at a moment when a topology that is still
    current gives the node no map; and once a drain has begun, successful or not, it
    tells its scheduler for ever that it takes no work, and every registration that
    succeeds says that it is draining. *)
Theorem process_stops_drained nodeID nodeAddr declaredMap lifecycleAddr drainTimeout runtime store listening t e p0 p :
  node_main nodeID nodeAddr declaredMap lifecycleAddr drainTimeout runtime store listening t e = Some p0 ->
  rtc proc_step p0 p ->
  (np_serving p = false -> stopped_drained p0 p) /\
  (ns_draining (nd (np_st p)) = true -> forall p', rtc proc_step p p' ->
     (forall between, exists o, NewHandler (node_callbacks between) "/readyz" MethodGet p' = Some (o, p') /\
        refuses_work (mkLifeStatus true 0) o) /\
     (forall s, register (np_main p') (np_st p') = Some (inr tt, s) ->
        exists info expiry, r_nodes (n_redis (nt s)) !! nodeID = Some (Good info, expiry) /\ nr_Draining info = true)).
Proof.
  intros Hm Hrun. destruct (node_main_started _ _ _ _ _ _ _ _ _ _ _ Hm) as (Hsrv & Hid & _). split.
  - by apply run_stops_drained.
  - intros Hd p' Hrun'. assert (Hd' : ns_draining (nd (np_st p')) = true) by by apply (pr_node _ _ (proc_run_fine _ _ Hrun')).
    split; [intros between; by apply draining_refuses|]. intros s Hs.
    destruct (register_draining _ _ Hd' Hs) as [expiry Hx].
    rewrite (pr_main _ _ (proc_run_fine _ _ Hrun')), (pr_main _ _ (proc_run_fine _ _ Hrun)), Hid in Hx. eauto.
Qed.

(** A failed drain uses up the signal: whatever signals arrive afterwards, and
    whatever drains succeed over the endpoints, the process goes on serving until
    it is killed. *)
Theorem failed_drain_swallows_signals p p' :
  np_sigDone p = true -> np_serving p = true -> rtc proc_step p p' -> np_serving p' = true.
Proof.
  intros Hd Hs Hrun. revert Hd Hs. induction Hrun as [|p1 p2 p3 Hstep _ IH]; [done|]. intros Hd Hs.
  destruct (proc_step_fine _ _ Hstep) as [[_ _ Hdone] [Heq|[? _]]]; [|congruence]. apply IH; [auto|congruence].
Qed.
End process.

(** ** Concrete processes *)

(** A run given by its events. *)
Fixpoint run_events (fuel : nat) (events : list proc_event) (p : NodeProc) : option NodeProc :=
  match events with
  | [] => Some p
  | event :: rest =>
      if proc_enabled p event then '(_, p') ← run_event fuel event p; run_events fuel rest p' else None
  end.

Lemma run_events_steps fuel events p p' : run_events fuel events p = Some p' -> rtc (proc_step fuel) p p'.
Proof.
  revert p. induction events as [|event rest IH]; intros p; cbn [run_events]; [by intros [= <-]|].
  destruct (proc_enabled p event) eqn:Hen; [|done]. destruct (run_event fuel event p) as [[o p1]|] eqn:Hrun; [|done]. cbn.
  intros H. eapply rtc_l; [by eapply ps_event|by apply IH].
Qed.

(** node-z starts for the map "green", reads a topology that gives it no map, and
    is told to stop. *)
Definition demo_start : option NodeProc :=
  node_main "node-z" "10.0.0.9:1" " green " "" 0 (Some DefaultRuntime) true true (quiet demo_redis) demo_env.
Definition demo_events : list proc_event := [ProcRegister; ProcNode NodeRefresh; ProcSignal; ProcTakeSignal []].

Lemma demo_stop_runs : exists p0 p, demo_start = Some p0 /\ run_events 30 demo_events p0 = Some p /\ np_serving p = false.
Proof.
  assert (H : match demo_start ≫= run_events 30 demo_events with Some p => negb (np_serving p) | None => false end = true)
    by (vm_compute; reflexivity).
  destruct demo_start as [p0|]; [|discriminate]. cbn [mbind option_bind] in H.
  destruct (run_events 30 demo_events p0) as [p|] eqn:E; [|discriminate].
  exists p0, p. split_and!; [done|exact E|]. by apply negb_true_iff.
Qed.

Lemma process_stops_drained_witness :
  exists p0 p, rtc (proc_step 30) p0 p /\ np_serving p = false /\ stopped_drained 30 p0 p.
Proof.
  destruct demo_stop_runs as (p0 & p & Hm & Hrun & Hs). exists p0, p. pose proof (run_events_steps _ _ _ _ Hrun) as Hrtc.
  split; [exact Hrtc|]. split; [exact Hs|].
  exact (proj1 (process_stops_drained 30 "node-z" "10.0.0.9:1" " green " "" 0 (Some DefaultRuntime) true true
    (quiet demo_redis) demo_env p0 p Hm Hrtc) Hs).
Defined.

(** The process of node-a while the topology is out of its reach: the drain of the
    first signal fails.  The topology comes back and gives its maps to others, but a
    second signal finds nobody. *)
Definition demo_cut_process : NodeProc :=
  mkNodeProc (mkNodeMain "node-a" "10.0.0.1:1" "demo" "127.0.0.1:9411" (30 * Second) (5 * Second))
    (mkNodeSt demo_cut_off (quiet demo_failed_over) demo_env) false false true.

Lemma demo_signals_run :
  exists p p', run_events 30 [ProcSignal; ProcTakeSignal []] demo_cut_process = Some p /\
    run_events 30 [ProcNode NodeRefresh; ProcSignal; ProcRequest "/drain" MethodPost []] p = Some p' /\
    np_sigDone p = true /\ np_serving p = true.
Proof.
  assert (H : match run_events 30 [ProcSignal; ProcTakeSignal []] demo_cut_process with
    | Some p => match run_events 30 [ProcNode NodeRefresh; ProcSignal; ProcRequest "/drain" MethodPost []] p with
                | Some _ => np_sigDone p && np_serving p | None => false end
    | None => false end = true) by (vm_compute; reflexivity).
  destruct (run_events _ _ demo_cut_process) as [p|] eqn:E; [|discriminate].
  destruct (run_events _ _ p) as [p'|] eqn:E'; [|discriminate]. apply andb_true_iff in H as [Hd Hs].
  exists p, p'. by split_and!.
Qed.

Lemma failed_drain_swallows_signals_witness :
  exists p p', rtc (proc_step 30) demo_cut_process p /\ rtc (proc_step 30) p p' /\ np_sigDone p = true /\ np_serving p' = true.
Proof.
  destruct demo_signals_run as (p & p' & H1 & H2 & Hd & Hs). exists p, p'.
  pose proof (run_events_steps _ _ _ _ H1) as R1. pose proof (run_events_steps _ _ _ _ H2) as R2.
  split; [exact R1|]. split; [exact R2|]. split; [exact Hd|].
  exact (failed_drain_swallows_signals 30 p p' Hd Hs R2).
Defined.
