(* ===== verification/Coordinator.v ===== *)
(** * The coordinator

    [coordinator/*.go]: node discovery, health checks, the first topology, failover
    of maps and the life cycle of the world boss.  The answers of the elector at
    successive queries and the results of SCAN are inputs; the clients of the nodes
    are an interface ([CoordinatorNodeClient]) whose implementation is a remote
    node.  A goroutine that a handler starts is put into the list of jobs; the
    loops are modelled by the body of one round. *)

From Stdlib Require Import ZArith Lia String.
From stdpp Require Import base sorting gmap strings list option.
From S2P Require Import Prelude Protocol Config Maps World WorldOps Topology Redis Store.

Open Scope Z_scope.
Open Scope go_scope.

(** ** The clients of the nodes *)

(** [cluster.CoordinatorNodeClient]: a client is known by the node it was dialled
    for; [S] is what lies behind the clients.  [Dial] is the factory. *)
Record client := mkClient {
  cl_NodeID : string;
  cl_Addr : string
}.

Class CoordinatorNodeClient (S : Type) := {
  Dial : string -> string -> ST S bool;
  Ping : client -> ST S bool;
  PromoteRPC : client -> string -> MapConfig -> MapCheckpoint -> Z -> ST S bool;
  CloseClient : client -> ST S unit
}.

(** ** State *)

(** [coordinator.nodeConnection] *)
Record nodeConnection := mkNodeConnection {
  nc_client : client;
  nc_healthy : bool
}.

(** A goroutine that has been started. *)
Inductive job :=
  | JobConnect (info : NodeRegistryInfo)
  | JobFailover (nodeID : string).

(** [coordinator.Coordinator]; the intervals only pace the loops *)
Record Coordinator := mkCoordinator {
  co_configs : gmap string MapConfig;
  co_nodes : gmap string nodeConnection;
  co_connecting : gset string;
  co_started : bool;
  co_closed : bool;
  co_jobs : list job
}.

Definition set_co_nodes (v : gmap string nodeConnection) (c : Coordinator) : Coordinator :=
  mkCoordinator (co_configs c) v (co_connecting c) (co_started c) (co_closed c) (co_jobs c).
Definition set_co_connecting (v : gset string) (c : Coordinator) : Coordinator :=
  mkCoordinator (co_configs c) (co_nodes c) v (co_started c) (co_closed c) (co_jobs c).
Definition set_co_started (v : bool) (c : Coordinator) : Coordinator :=
  mkCoordinator (co_configs c) (co_nodes c) (co_connecting c) v (co_closed c) (co_jobs c).
Definition set_co_closed (v : bool) (c : Coordinator) : Coordinator :=
  mkCoordinator (co_configs c) (co_nodes c) (co_connecting c) (co_started c) v (co_jobs c).
Definition set_co_jobs (v : list job) (c : Coordinator) : Coordinator :=
  mkCoordinator (co_configs c) (co_nodes c) (co_connecting c) (co_started c) (co_closed c) v.

(** The inputs of the coordinator: what its elector answers, and what SCAN makes
    of the registered keys. *)
Record Inputs := mkInputs {
  in_Term : nat -> Z;
  in_IsLeader : nat -> bool;
  in_pos : nat;
  in_scan : nat -> list string -> list string;
  in_scan_pos : nat
}.

Inductive coord_err :=
  | CErrNil
  | CErrClosed
  | CErrNotLeader
  | CErrStore (cause : store_err)
  | CErrNoTopology
  | CErrNoEpoch (mapID : string)
  | CErrNoStandby (mapID : string)
  | CErrCheckpoint (standbyID : string)
  | CErrUnknownMap (mapID : string)
  | CErrPromote (standbyID : string)
  | CErrLostLease
  | CErrCommit (cause : store_err)
  | CErrPublish (cause : store_err).

(** [newCoordinatorWithRuntimeConfig], for a store, an elector and a factory that
    are not nil: a later configuration with the same ID replaces an earlier one. *)
Definition newCoordinator (configs : list MapConfig) : Coordinator :=
  mkCoordinator (foldl (fun m cfg => <[cfg_ID cfg := cfg]> m) ∅ configs) ∅ ∅ false false [].

Section coordinator.
Context {S : Type} {clients : CoordinatorNodeClient S}.

(** The coordinator, its connection to Redis, its environment and inputs, and the
    nodes behind its clients. *)
Record CoordSt := mkCoordSt {
  co : Coordinator;
  ct : Net;
  ce : Env;
  ci : Inputs;
  peers : S
}.

Abbreviation CM := (ST CoordSt).

Definition selfC {A} (f : Coordinator -> A) : CM A := gets (fun s => f (co s)).
Definition modCo (f : Coordinator -> Coordinator) : CM unit :=
  modify (fun s => mkCoordSt (f (co s)) (ct s) (ce s) (ci s) (peers s)).
Definition onRedis {A} (m : RM A) : CM A :=
  zoom ct (fun t s => mkCoordSt (co s) t (ce s) (ci s) (peers s)) m.
Definition onPeers {A} (m : ST S A) : CM A :=
  zoom peers (fun p s => mkCoordSt (co s) (ct s) (ce s) (ci s) p) m.
Definition nowCo : CM Z := now ce (fun e s => mkCoordSt (co s) (ct s) e (ci s) (peers s)).
Definition rangeCo {A} (l : list A) : CM (list A) :=
  range_order ce (fun e s => mkCoordSt (co s) (ct s) e (ci s) (peers s)) l.

(** One query of the elector. *)
Definition ask {A} (f : Inputs -> nat -> A) : CM A := fun s =>
  let i := ci s in
  Some (f i (in_pos i),
        mkCoordSt (co s) (ct s) (ce s)
          (mkInputs (in_Term i) (in_IsLeader i) (in_pos i + 1)%nat (in_scan i) (in_scan_pos i)) (peers s)).

Definition scan_order : CM (list string -> list string) := fun s =>
  let i := ci s in
  Some (in_scan i (in_scan_pos i),
        mkCoordSt (co s) (ct s) (ce s)
          (mkInputs (in_Term i) (in_IsLeader i) (in_pos i) (in_scan i) (in_scan_pos i + 1)%nat) (peers s)).

Definition storeErr {A} (wrap : store_err -> coord_err) (m : RM (store_err + A)) : CM (coord_err + A) :=
  r ← onRedis m;
  match r with
  | inl err => fail (wrap err)
  | inr a => ok a
  end.

(** ** Leadership *)

(** [None] is Go's [false].  [term > 0 &&] guards the second query. *)
Definition currentLeaderTerm : CM (option Z) :=
  term ← ask in_Term;
  if negb (0 <? term) then mret None else
  leader ← ask in_IsLeader;
  mret (if (leader : bool) then Some term else None).

Definition hasLeaderTerm (term : Z) : CM bool :=
  if negb (0 <? term) then mret false else
  leader ← ask in_IsLeader;
  if negb leader then mret false else
  current ← ask in_Term;
  mret (current =? term).

(** [if _, leader := c.currentLeaderTerm(); !leader { return absent }] *)
Definition when_leader {A} (absent : A) (m : CM A) : CM A :=
  o ← currentLeaderTerm;
  match o with
  | None => mret absent
  | Some _ => m
  end.

(** ** Discovery *)

Definition finishNodeConnection (nodeID : string) : CM unit :=
  modCo (fun c => set_co_connecting (co_connecting c ∖ {[nodeID]}) c).

Definition discoverNode (c : Coordinator) (info : NodeRegistryInfo) : Coordinator :=
  if nr_Draining info then c else
  if bool_decide (is_Some (co_nodes c !! nr_ID info)) then c else
  if bool_decide (nr_ID info ∈ co_connecting c) then c else
  set_co_jobs (co_jobs c ++ [JobConnect info]) (set_co_connecting ({[nr_ID info]} ∪ co_connecting c) c).

Definition discoverNodes (activeNodes : list NodeRegistryInfo) : CM unit :=
  modCo (fun c => if co_closed c then c else foldl discoverNode c activeNodes).

Definition connectDiscoveredNode (info : NodeRegistryInfo) : CM unit :=
  let cl := mkClient (nr_ID info) (nr_Addr info) in
  dialled ← onPeers (Dial (nr_ID info) (nr_Addr info));
  if negb dialled then finishNodeConnection (nr_ID info) else
  pong ← onPeers (Ping cl);
  if negb pong then _ ← onPeers (CloseClient cl); finishNodeConnection (nr_ID info) else
  _ ← finishNodeConnection (nr_ID info);
  c ← selfC id;
  if co_closed c then onPeers (CloseClient cl) else
  if bool_decide (is_Some (co_nodes c !! nr_ID info)) then onPeers (CloseClient cl) else
  modCo (fun c => set_co_nodes (<[nr_ID info := mkNodeConnection cl true]> (co_nodes c)) c).

Definition healthyNode (c : Coordinator) (nodeID : string) : option client :=
  match co_nodes c !! nodeID with
  | Some connection => if nc_healthy connection then Some (nc_client connection) else None
  | None => None
  end.

Definition connectedNodeRegistrations (c : Coordinator) (activeNodes : list NodeRegistryInfo) : list NodeRegistryInfo :=
  filter (fun info => nr_Draining info = false /\ is_Some (healthyNode c (nr_ID info))) activeNodes.

Definition knownMapIDs (c : Coordinator) : gset string := dom (co_configs c).
Definition mapConfig (c : Coordinator) (mapID : string) : option MapConfig := co_configs c !! mapID.

Definition activeNodes : CM (coord_err + list NodeRegistryInfo) :=
  scan ← scan_order;
  storeErr CErrStore (GetActiveNodes scan).

(** ** The first topology *)

Definition set_t_LeaderTerm (term : Z) (t : Topology) : Topology :=
  mkTopology (t_Version t) term (t_Owners t) (t_MapEpochs t) (t_UpdatedAt t).

Definition bootstrapTopologyIfAbsent (nodes : list NodeRegistryInfo) : CM (coord_err + unit) :=
  o ← currentLeaderTerm;
  match o with
  | None => ok tt
  | Some term =>
      found ←! storeErr CErrStore LoadTopology;
      match found with
      | Some _ => ok tt
      | None =>
          t ← nowCo;
          c ← selfC id;
          match BuildInitialTopology (knownMapIDs c) nodes t with
          | inl err => fail (CErrStore err)
          | inr None => ok tt
          | inr (Some initial) =>
              still ← hasLeaderTerm term;
              if negb still then ok tt else
              r ← onRedis (CompareAndSaveTopologyForLeader 0 (set_t_LeaderTerm term initial) term);
              match r with
              | inl ErrTopologyVersionConflict => ok tt
              | inl err => fail (CErrCommit err)
              | inr _ => storeErr CErrPublish (PublishTopologyChanged (t_Version initial))
              end
          end
      end
  end.

(** ** Failover *)

(** The candidates among the registrations, each once. *)
Definition standby_candidates (c : Coordinator) (mapID excludedNodeID : string) (registrations : list NodeRegistryInfo)
    : list string :=
  foldl (fun (candidateIDs : list string) registration =>
      if bool_decide (nr_ID registration = excludedNodeID) || nr_Draining registration
         || negb (bool_decide (nr_MapID registration = mapID)) then candidateIDs else
      if bool_decide (nr_ID registration ∈ candidateIDs) then candidateIDs else
      match healthyNode c (nr_ID registration) with
      | None => candidateIDs
      | Some _ => (candidateIDs ++ [nr_ID registration])%list
      end) [] registrations.

Definition selectStandby (mapID excludedNodeID : string) : CM (coord_err + string * option client) :=
  registrations ←! activeNodes;
  c ← selfC id;
  match sort_strings (standby_candidates c mapID excludedNodeID registrations) with
  | [] => fail (CErrNoStandby mapID)
  | standbyID :: _ => c ← selfC id; ok (standbyID, healthyNode c standbyID)
  end.

(** The checkpoint a standby may be promoted with. *)
Definition promotable_checkpoint (mapID failedNodeID : string) (oldEpoch : Z) (o : option MapCheckpoint) : option MapCheckpoint :=
  match o with
  | Some cp =>
      if negb (bool_decide (cp_MapID cp = mapID)) || negb (bool_decide (cp_NodeID cp = failedNodeID))
         || negb (cp_MapEpoch cp =? oldEpoch) || (cp_Version cp <=? 0)
      then None else Some cp
  | None => None
  end.

(** The topology after moving one map. *)
Definition moved_topology (topology : Topology) (mapID standbyID : string) (nextEpoch term updated : Z) : Topology :=
  mkTopology (t_Version topology +u 1) term (<[mapID := standbyID]> (t_Owners (Clone topology)))
    (<[mapID := nextEpoch]> (t_MapEpochs (Clone topology))) updated.

(** A nil client is dereferenced when the standby lost its health between the two
    looks at the pool. *)
Definition failoverMap (mapID failedNodeID : string) : CM (coord_err + unit) :=
  o ← currentLeaderTerm;
  match o with
  | None => fail CErrNotLeader
  | Some term =>
      found ←! storeErr CErrStore LoadTopology;
      match found with
      | None => fail CErrNoTopology
      | Some topology =>
          if negb (bool_decide (default "" (t_Owners topology !! mapID) = failedNodeID)) then ok tt else
          let oldEpoch := default 0 (t_MapEpochs topology !! mapID) in
          if oldEpoch =? 0 then fail (CErrNoEpoch mapID) else
          selected ←! selectStandby mapID failedNodeID;
          let '(standbyID, standby) := selected in
          loaded ← onRedis (LoadCheckpoint mapID);
          match promotable_checkpoint mapID failedNodeID oldEpoch loaded with
          | None => fail (CErrCheckpoint standbyID)
          | Some checkpoint =>
              c ← selfC id;
              match mapConfig c mapID with
              | None => fail (CErrUnknownMap mapID)
              | Some config =>
                  let nextEpoch := oldEpoch +u 1 in
                  match standby with
                  | None => panic
                  | Some standby =>
                      promoted ← onPeers (PromoteRPC standby mapID config checkpoint nextEpoch);
                      if negb promoted then fail (CErrPromote standbyID) else
                      t ← nowCo;
                      let next := moved_topology topology mapID standbyID nextEpoch term t in
                      still ← hasLeaderTerm term;
                      if negb still then fail CErrLostLease else
                      _ ←! storeErr CErrCommit
                             (CompareAndSaveTopologyAndMigrateSessionsForLeader (t_Version topology) next term
                                mapID failedNodeID standbyID);
                      storeErr CErrPublish (PublishTopologyChanged (t_Version next))
                  end
              end
          end
      end
  end.

(** The maps a topology gives to a node, sorted. *)
Definition maps_of (topology : Topology) (nodeID : string) : list string :=
  sort_strings (filter (fun m => t_Owners topology !! m = Some nodeID) (map_keys (t_Owners topology))).

Definition failoverNode (failedNodeID : string) : CM unit :=
  when_leader tt (
    r ← storeErr CErrStore LoadTopology;
    match r with
    | inr (Some topology) =>
        foldM (fun _ mapID => _ ← failoverMap mapID failedNodeID; mret tt) tt (maps_of topology failedNodeID)
    | _ => mret tt
    end).

Definition spawn (j : job) : CM unit := modCo (fun c => set_co_jobs (co_jobs c ++ [j]) c).

(** ** Health *)

Definition setNodeHealth (nodeID : string) (healthy : bool) : CM unit :=
  when_leader tt (
    c ← selfC id;
    match co_nodes c !! nodeID with
    | None => mret tt
    | Some connection =>
        if bool_decide (nc_healthy connection = healthy) then mret tt else
        _ ← modCo (fun c => set_co_nodes (<[nodeID := mkNodeConnection (nc_client connection) healthy]> (co_nodes c)) c);
        if healthy then mret tt else spawn (JobFailover nodeID)
    end).

(** One round of [heartbeatLoop]. *)
Definition heartbeatOnce : CM unit :=
  when_leader tt (
    c ← selfC id;
    nodes ← rangeCo (map_to_list (co_nodes c)).*2;
    foldM (fun _ connection =>
        pong ← onPeers (Ping (nc_client connection));
        setNodeHealth (cl_NodeID (nc_client connection)) pong) tt nodes).

(** ** Draining nodes *)

Definition reconcileDrainingNodes (activeNodes : list NodeRegistryInfo) : CM unit :=
  when_leader tt (
    r ← storeErr CErrStore LoadTopology;
    match r with
    | inr (Some topology) =>
        let drainingOwners := nr_ID <$> filter (fun info => nr_Draining info = true) activeNodes in
        if bool_decide (drainingOwners = []) then mret tt else
        mapIDs ← rangeCo (map_keys (t_Owners topology));
        foldM (fun _ mapID =>
            let ownerID := default "" (t_Owners topology !! mapID) in
            if bool_decide (ownerID ∈ drainingOwners) then spawn (JobFailover ownerID) else mret tt) tt mapIDs
    | _ => mret tt
    end).

(** One round of [discoveryLoop]. *)
Definition discoverOnce : CM unit :=
  when_leader tt (
    r ← activeNodes;
    match r with
    | inl _ => mret tt
    | inr nodes =>
        _ ← discoverNodes nodes;
        _ ← reconcileDrainingNodes nodes;
        c ← selfC id;
        _ ← bootstrapTopologyIfAbsent (connectedNodeRegistrations c nodes);
        mret tt
    end).

(** ** The world boss *)

Definition defaultBossHP : Z := 1600.

Definition bossSites (c : Coordinator) : list BossSite :=
  omap (fun mapID => (fun cfg => mkBossSite mapID (cfg_BossX cfg) (cfg_BossY cfg)) <$> co_configs c !! mapID)
    (sort_strings (map_keys (co_configs c))).

Definition first_boss (c : Coordinator) : BossState := mkBossState "王子文" true "" 0 2000 (bossSites c) 1.

Definition ensureBoss : CM (coord_err + unit) :=
  when_leader (inr tt) (
    r ← onRedis LoadGlobalBoss;
    match r with
    | inr _ => ok tt
    | inl ErrGlobalBossNotInitialized =>
        c ← selfC id;
        storeErr CErrStore (InitGlobalBoss defaultBossHP (first_boss c))
    | inl err => fail (CErrStore err)
    end).

(** The boss brought back: [state.Version++] on an [int64]. *)
Definition revived_boss (state : BossState) : BossState :=
  mkBossState (boss_Name state) true "" 0 (boss_AttackGap state) (boss_Sites state) (boss_Version state +i 1).

(** [state.Alive || state.RespawnAt.After(time.Now())]: the clock is read only for
    a boss that is down. *)
Definition boss_not_due (state : BossState) : CM bool :=
  if boss_Alive state then mret true else
  t ← nowCo;
  mret (t <? boss_RespawnAt state).

(** One round of [bossLoop]. *)
Definition restoreBossIfDue : CM unit :=
  when_leader tt (
    r ← onRedis LoadGlobalBoss;
    match r with
    | inl _ => mret tt
    | inr (state, _) =>
        wait ← boss_not_due state;
        if (wait : bool) then mret tt else
        locked ← onRedis TryLockBossRespawn;
        if negb locked then mret tt else
        r ← onRedis LoadGlobalBoss;
        match r with
        | inl _ => mret tt
        | inr (state, hp) =>
            wait ← boss_not_due state;
            if (wait : bool) then mret tt else
            let hp := if hp <=? 0 then defaultBossHP else hp in
            r ← onRedis (InitGlobalBoss hp (revived_boss state));
            match r with
            | inl _ => mret tt
            | inr _ =>
                _ ← onRedis (PublishEvent "events:global"
                       ("世界首领【" +:+ boss_Name state +:+ "】重新降临，所有服务器均可参与讨伐"));
                mret tt
            end
        end
    end).

(** ** Life cycle *)

(** [Start]; the result says whether the leader loop is started by this call. *)
Definition StartCoordinator : CM (coord_err + bool) :=
  c ← selfC id;
  if co_closed c then fail CErrClosed else
  if co_started c then ok false else
  _ ← modCo (set_co_started true);
  ok true.

(** [Close]; the resignation is the elector's ([Elector.Resign]).  The clients are
    closed in the iteration order of the pool. *)
Definition CloseCoordinator : CM unit :=
  c ← selfC id;
  if co_closed c then mret tt else
  connections ← rangeCo (map_to_list (co_nodes c)).*2;
  _ ← modCo (fun c => mkCoordinator (co_configs c) ∅ ∅ (co_started c) true (co_jobs c));
  foldM (fun _ connection => onPeers (CloseClient (nc_client connection))) tt connections.

(** Run the [i]-th job. *)
Definition run_job (i : nat) : CM unit :=
  c ← selfC id;
  match co_jobs c !! i with
  | None => mret tt
  | Some j =>
      _ ← modCo (set_co_jobs (take i (co_jobs c) ++ drop (Datatypes.S i) (co_jobs c)));
      match j with
      | JobConnect info => connectDiscoveredNode info
      | JobFailover nodeID => failoverNode nodeID
      end
  end.
End coordinator.

Arguments CoordSt S : clear implicits.
