(* ===== verification/CoordinatorProps.v ===== *)
(** * The coordinator: safe failover, and what it never repairs

    Properties of [Coordinator]: the choice of a standby, what a failover commits
    and when, the maps no round of the coordinator ever switches, and the life of
    the world boss. *)

From Stdlib Require Import ZArith Lia String.
From stdpp Require Import base sorting gmap strings list option relations.
From S2P Require Import Prelude Protocol Config Maps World WorldOps WorldProps Topology Redis Store StoreProps Authority Node NodeProps Coordinator.

Open Scope Z_scope.
Open Scope go_scope.

(** ** Reading from Redis *)

Lemma reads_refl t : reads t t.
Proof. apply rtc_refl. Qed.
Lemma reads_step t t' : reads t t' -> reads t (after t' (seen t')).
Proof. intros H. etrans; [exact H|by apply rtc_once]. Qed.

#[export] Hint Resolve reads_refl reads_step : go.

Lemma wp_reads {A} (f : Redis -> A) t (Q : option A -> Net -> Prop) :
  (forall o, o = None \/ o = Some (f (seen t)) -> Q o (after t (seen t))) -> wp (read f) Q t.
Proof. apply wp_read. Qed.

Lemma wp_LoadTopology t (Q : store_err + option Topology -> Net -> Prop) :
  (forall r, (forall tp, r = inr (Some tp) -> r_topology (seen t) = Some (Good tp) /\ valid_topology None tp) ->
     Q r (after t (seen t))) -> wp LoadTopology Q t.
Proof.
  intros HQ. unfold LoadTopology. rm_steps. apply wp_reads. intros o [->| ->]; [apply HQ; done|].
  destruct (r_topology (seen t)) as [[tp|]|] eqn:E; [|apply HQ; done..].
  destruct (Validate None tp) eqn:Hv; [apply HQ; done|]. rm_steps. apply HQ. intros tp' [= <-].
  rewrite Normalize_id. split; [done|by apply Validate_None].
Qed.

Lemma wp_LoadCheckpoint m t (Q : option MapCheckpoint -> Net -> Prop) :
  (forall o, (forall cp, o = Some cp -> r_checkpoints (seen t) !! m = Some (Good cp)) -> Q o (after t (seen t))) ->
  wp (LoadCheckpoint m) Q t.
Proof.
  intros HQ. unfold LoadCheckpoint. rm_steps. apply wp_reads. intros o [->| ->]; rm_steps; apply HQ; [done|].
  intros cp. repeat case_match; naive_solver.
Qed.

(** A registration that was live at some moment of a reading run. *)
Definition registered (t : Net) (info : NodeRegistryInfo) : Prop :=
  exists t1 k, reads t t1 /\ live (seen t1) (r_nodes (seen t1) !! k) = Some (Good info).

Lemma registered_later t t' info : reads t t' -> registered t' info -> registered t info.
Proof. intros H (t1 & k & H1 & ?). exists t1, k. split; [by etrans|done]. Qed.

Lemma wp_GetActiveNodes scan t (Q : store_err + list NodeRegistryInfo -> Net -> Prop) :
  (forall r t', reads t t' -> (forall nodes info, r = inr nodes -> info ∈ nodes -> registered t info) -> Q r t') ->
  wp (GetActiveNodes scan) Q t.
Proof.
  intros HQ. unfold GetActiveNodes. rm_steps. apply wp_reads. intros o [->| ->]; [apply HQ; [auto with go|done]|].
  rm_steps. eapply wp_mono; [apply (wp_foldM _ (fun nodes t' => reads t t' /\ forall info, info ∈ nodes -> registered t info))|].
  - intros nodes k t1 _ [Hr Hn]. rm_steps. apply wp_reads. intros o [->| ->]; rm_steps; (split; [auto with go|]); [done|].
    destruct (live _ _) as [[info|]|] eqn:E; [|done..]. intros i [?|Hi]%elem_of_app; [by apply Hn|].
    apply list_elem_of_singleton in Hi as ->. by exists t1, k.
  - split; [auto with go|]. by intros ? ?%elem_of_nil.
  - intros nodes t' [? Hn]. rm_steps. apply HQ; [done|]. intros ? info [= <-]. apply Hn.
Qed.

(** ** The choice of a standby *)

Definition eligible (c : Coordinator) (mapID excluded : string) (info : NodeRegistryInfo) : Prop :=
  nr_ID info <> excluded /\ nr_Draining info = false /\ nr_MapID info = mapID /\ is_Some (healthyNode c (nr_ID info)).

Lemma standby_candidates_spec c mapID excluded regs :
  NoDup (standby_candidates c mapID excluded regs) /\
  forall x, x ∈ standby_candidates c mapID excluded regs <-> exists info, info ∈ regs /\ eligible c mapID excluded info /\ x = nr_ID info.
Proof.
  unfold standby_candidates.
  assert (H : forall acc, NoDup acc ->
    let f := foldl (fun (candidateIDs : list string) registration =>
      if bool_decide (nr_ID registration = excluded) || nr_Draining registration
         || negb (bool_decide (nr_MapID registration = mapID)) then candidateIDs else
      if bool_decide (nr_ID registration ∈ candidateIDs) then candidateIDs else
      match healthyNode c (nr_ID registration) with
      | None => candidateIDs
      | Some _ => (candidateIDs ++ [nr_ID registration])%list
      end) acc regs in
    NoDup f /\ forall x, x ∈ f <-> x ∈ acc \/ exists info, info ∈ regs /\ eligible c mapID excluded info /\ x = nr_ID info).
  2: { destruct (H [] ltac:(constructor)) as [Hn Hx]. split; [exact Hn|]. intros x. rewrite Hx, elem_of_nil. naive_solver. }
  induction regs as [|info regs IH]; intros acc Hacc; cbn [foldl].
  { split; [done|]. intros x. split; [by left|]. intros [?|(? & ?%elem_of_nil & _)]; done. }
  assert (Hskip : ~ eligible c mapID excluded info \/ nr_ID info ∈ acc ->
    forall x, (x ∈ acc \/ exists i, i ∈ regs /\ eligible c mapID excluded i /\ x = nr_ID i) <->
              (x ∈ acc \/ exists i, i ∈ info :: regs /\ eligible c mapID excluded i /\ x = nr_ID i)).
  { intros Hs x. split; intros [?|(i & Hi & He & ->)]; [by left|right; exists i; split; [by right|done]|by left|].
    apply elem_of_cons in Hi as [->|Hi]; [|right; by exists i]. destruct Hs; [done|by left]. }
  destruct (bool_decide_reflect (nr_ID info = excluded)) as [He|He]; cbn [orb].
  { destruct (IH acc Hacc) as [Hn Hx]. split; [exact Hn|]. intros x. rewrite Hx. apply Hskip. left. by intros [? _]. }
  destruct (nr_Draining info) eqn:Hd; cbn [orb].
  { destruct (IH acc Hacc) as [Hn Hx]. split; [exact Hn|]. intros x. rewrite Hx. apply Hskip. left. intros (_ & ? & _). congruence. }
  destruct (bool_decide_reflect (nr_MapID info = mapID)) as [Hm|Hm]; cbn [negb].
  2: { destruct (IH acc Hacc) as [Hn Hx]. split; [exact Hn|]. intros x. rewrite Hx. apply Hskip. left. by intros (_ & _ & ? & _). }
  destruct (bool_decide_reflect (nr_ID info ∈ acc)) as [Hin|Hin].
  { destruct (IH acc Hacc) as [Hn Hx]. split; [exact Hn|]. intros x. rewrite Hx. apply Hskip. by right. }
  destruct (healthyNode c (nr_ID info)) as [cl|] eqn:Hh.
  2: { destruct (IH acc Hacc) as [Hn Hx]. split; [exact Hn|]. intros x. rewrite Hx. apply Hskip. left.
       intros (_ & _ & _ & [? ?]). congruence. }
  assert (Hacc' : NoDup (acc ++ [nr_ID info])).
  { apply list.NoDup_app. split_and!; [done| |apply NoDup_singleton]. intros x Hx ->%list_elem_of_singleton. done. }
  destruct (IH _ Hacc') as [Hn Hx]. split; [exact Hn|]. intros x. rewrite Hx, elem_of_app, list_elem_of_singleton.
  assert (eligible c mapID excluded info) by (split_and!; eauto). split.
  - intros [[?| ->]|(i & ? & ? & ?)]; [by left|right; exists info; split; [left|done]|right; exists i; split; [by right|done]].
  - intros [?|(i & [->|?]%elem_of_cons & ? & ->)]; [by left; left|by left; right|right; eauto].
Qed.

(** What the sorted candidates begin with. *)
Lemma least_candidate c mapID excluded regs :
  match sort_strings (standby_candidates c mapID excluded regs) with
  | [] => forall info, info ∈ regs -> ~ eligible c mapID excluded info
  | x :: _ => (exists info, info ∈ regs /\ eligible c mapID excluded info /\ x = nr_ID info)
              /\ forall info, info ∈ regs -> eligible c mapID excluded info -> str_le x (nr_ID info)
  end.
Proof.
  destruct (standby_candidates_spec c mapID excluded regs) as [_ Hx].
  assert (Hs : forall x, x ∈ sort_strings (standby_candidates c mapID excluded regs) <->
    exists info, info ∈ regs /\ eligible c mapID excluded info /\ x = nr_ID info) by (intros; by rewrite elem_of_sort_strings).
  pose proof (sort_strings_sorted (standby_candidates c mapID excluded regs)) as Hsort.
  destruct (sort_strings _) as [|x l].
  - intros info Hi He. assert (nr_ID info ∈ @nil string) as []%elem_of_nil by (apply Hs; eauto).
  - split; [apply Hs; left|]. intros info Hi He. assert (nr_ID info ∈ x :: l) as Hin by (apply Hs; eauto).
    apply elem_of_cons in Hin as [->|Hin]; [unfold str_le, String.leb; by rewrite string_compare_refl|].
    apply StronglySorted_inv in Hsort as [_ Hall]. by eapply list.Forall_forall in Hall.
Qed.

Section coordinator_props.
Context {S : Type} {clients : CoordinatorNodeClient S}.

(** ** Rules *)

Section rules.
Context (c : Coordinator) (t : Net) (e : Env) (i : Inputs) (p : S).

Lemma wp_selfC {A} (f : Coordinator -> A) Q : Q (f c) (mkCoordSt c t e i p) -> wp (selfC f) Q (mkCoordSt c t e i p).
Proof. done. Qed.

Lemma wp_modCo f Q : Q tt (mkCoordSt (f c) t e i p) -> wp (modCo f) Q (mkCoordSt c t e i p).
Proof. done. Qed.

Lemma wp_nowCo (Q : Z -> CoordSt S -> Prop) :
  (forall e', later e e' -> Q (next_now e) (mkCoordSt c t e' i p)) -> wp nowCo Q (mkCoordSt c t e i p).
Proof. intros H. apply H. repeat split; cbn; lia. Qed.

Lemma wp_onRedis {A} (m : RM A) Q :
  wp m (fun a t' => Q a (mkCoordSt c t' e i p)) t -> wp (onRedis m) Q (mkCoordSt c t e i p).
Proof. intros H. by apply wp_zoom. Qed.

Lemma wp_onPeers {A} (m : ST S A) Q :
  wp m (fun a p' => Q a (mkCoordSt c t e i p')) p -> wp (onPeers m) Q (mkCoordSt c t e i p).
Proof. intros H. by apply wp_zoom. Qed.

Lemma wp_ask {A} (f : Inputs -> nat -> A) Q :
  (forall a i', Q a (mkCoordSt c t e i' p)) -> wp (ask f) Q (mkCoordSt c t e i p).
Proof. intros H. apply H. Qed.

Lemma wp_storeErr {A} wrap (m : RM (store_err + A)) Q :
  wp m (fun r t' => match r with
                    | inl err => Q (inl (wrap err)) (mkCoordSt c t' e i p)
                    | inr a => Q (inr a) (mkCoordSt c t' e i p)
                    end) t -> wp (storeErr wrap m) Q (mkCoordSt c t e i p).
Proof. intros H. unfold storeErr. apply wp_bind, wp_onRedis. eapply wp_mono; [exact H|]. by intros [err|a] t'. Qed.

End rules.

Section leader_rules.
Context (c : Coordinator) (t : Net) (e : Env) (i : Inputs) (p : S).

Lemma wp_currentLeaderTerm (Q : option Z -> CoordSt S -> Prop) :
  (forall o i', (forall term, o = Some term -> 0 < term /\ exists k, term = in_Term i k) -> Q o (mkCoordSt c t e i' p)) ->
  wp currentLeaderTerm Q (mkCoordSt c t e i p).
Proof.
  intros HQ. unfold currentLeaderTerm. apply wp_bind. unfold wp at 1, ask. cbn [ci co ct ce peers].
  destruct (Z.ltb_spec 0 (in_Term i (in_pos i))); cbn [negb]; [|apply wp_ret, HQ; done].
  apply wp_bind, wp_ask. intros leader i2. apply wp_ret, HQ. destruct leader; naive_solver.
Qed.

Lemma wp_hasLeaderTerm term (Q : bool -> CoordSt S -> Prop) :
  (forall b i', Q b (mkCoordSt c t e i' p)) -> wp (hasLeaderTerm term) Q (mkCoordSt c t e i p).
Proof.
  intros HQ. unfold hasLeaderTerm. destruct (negb _); [apply wp_ret, HQ|].
  apply wp_bind, wp_ask. intros leader i1. destruct (negb _); [apply wp_ret, HQ|].
  apply wp_bind, wp_ask. intros current i2. apply wp_ret, HQ.
Qed.

Lemma wp_activeNodes (Q : coord_err + list NodeRegistryInfo -> CoordSt S -> Prop) :
  (forall r t' i', reads t t' ->
     (forall nodes info, r = inr nodes -> info ∈ nodes -> registered t info) ->
     (forall err, r = inl err -> exists cause, err = CErrStore cause) -> Q r (mkCoordSt c t' e i' p)) ->
  wp activeNodes Q (mkCoordSt c t e i p).
Proof.
  intros HQ. unfold activeNodes. apply wp_bind. unfold wp at 1, scan_order. cbn [ci co ct ce peers].
  apply wp_storeErr, wp_GetActiveNodes. intros [err|nodes] t' Hr Hn; (apply HQ; [done| |]); try done.
  - intros ? [= <-]. eauto.
  - intros ? info [= <-]. by apply Hn.
Qed.
End leader_rules.

Ltac c_step :=
  lazymatch goal with
  | |- wp (selfC _) _ _ => apply wp_selfC; unfold id
  | |- wp (modCo _) _ _ => apply wp_modCo
  | |- wp (storeErr _ _) _ _ => apply wp_storeErr
  | |- wp (onRedis _) _ _ => apply wp_onRedis
  | |- wp (onPeers _) _ _ => apply wp_onPeers
  | _ => rm_step
  end.
Ltac c_steps := repeat c_step.

(** ** Failover *)

(** Numbers the scripts handle exactly, also one step further. *)
Record exact (r : Redis) : Prop := {
  ex_topology : forall cur, r_topology r = Some (Good cur) ->
    0 <= t_Version cur < 10^14 - 1 /\ 0 <= t_LeaderTerm cur < 10^14 /\
    (forall m e, t_MapEpochs cur !! m = Some e -> 0 <= e < 10^14 - 1);
  ex_term : forall term, r_term r = Some term -> 0 <= term < 10^14;
  ex_unpack : (2 * size (r_sessions r) <= r_unpack r)%nat
}.

(** The server stays within them whatever the other clients do. *)
Definition exact_net (t : Net) : Prop := exact (n_redis t) /\ forall k r, exact r -> exact (n_other t k r).

Lemma exact_seen t : exact_net t -> exact (seen t).
Proof. intros [H1 H2]. by apply H2. Qed.

Lemma exact_reads t t' : reads t t' -> exact_net t -> exact_net t'.
Proof. induction 1 as [|t1 t2 t3 -> _ IH]; [done|]. intros H. apply IH. split; [by apply exact_seen|apply H]. Qed.

Lemma unpacked_exact m r : exact r -> (unpacked m r <= r_unpack r)%nat.
Proof.
  intros H. pose proof (ex_unpack _ H) as Hu. unfold unpacked, session_updates.
  destruct m as [m|]; [|rewrite map_size_empty; lia]. destruct (forallb _ _); [|lia].
  etrans; [|exact Hu]. apply Nat.mul_le_mono_l. rewrite <- !size_dom. apply subseteq_size.
  intros k. rewrite !elem_of_dom, lookup_omap. by destruct (r_sessions r !! k).
Qed.

(** The parties to a handover of the map from [failed] to [standbyID], which
    prepared it with the checkpoint [cp]. *)
Record handover (c : Coordinator) (t : Net) (mapID failed : string) (topology : Topology) (cp : MapCheckpoint)
    (standbyID : string) : Prop := {
  ho_owner : default "" (t_Owners topology !! mapID) = failed;
  ho_valid : valid_topology None topology;
  ho_epoch : default 0 (t_MapEpochs topology !! mapID) <> 0;
  ho_standby : exists info, registered t info /\ eligible c mapID failed info /\ nr_ID info = standbyID;
  ho_checkpoint : cp_MapID cp = mapID /\ cp_NodeID cp = failed
    /\ cp_MapEpoch cp = default 0 (t_MapEpochs topology !! mapID) /\ 0 < cp_Version cp;
  ho_promoted : exists cl cfg p p', healthyNode c standbyID = Some cl /\ mapConfig c mapID = Some cfg /\
    PromoteRPC cl mapID cfg cp (u64 (default 0 (t_MapEpochs topology !! mapID) + 1)) p = Some (true, p')
}.

(** What the failover read from the store: the topology, then the checkpoint under
    the map's key, and after more reads it sends the commit over [t1]. *)
Definition sources (t : Net) (mapID : string) (topology : Topology) (cp : MapCheckpoint) (t1 : Net) : Prop :=
  exists t_top t_cp, reads t t_top /\ r_topology (seen t_top) = Some (Good topology) /\
    reads t_top t_cp /\ r_checkpoints (seen t_cp) !! mapID = Some (Good cp) /\ reads t_cp t1.

(** A committed handover: exactly this map moves, at the next epoch, on top of the
    topology the coordinator had read, to the node that was prepared with the stored
    checkpoint; the commit takes the server from [seen t1] to [r1]. *)
Definition handed_over (c : Coordinator) (t : Net) (mapID failed : string) (next : Topology) (t1 : Net) (r1 : Redis) : Prop :=
  exists topology cp standbyID term updated,
    sources t mapID topology cp t1 /\ handover c t mapID failed topology cp standbyID /\
    next = moved_topology topology mapID standbyID (default 0 (t_MapEpochs topology !! mapID) + 1) term updated /\
    may_commit (t_Version topology) next term (seen t1) /\
    committed next (Some (mkSessionMigration mapID failed standbyID)) (seen t1) r1.

(** The connection after the notification of the new version. *)
Definition notified (next : Topology) (t : Net) : Net :=
  after t (set_r_published (r_published (seen t) ++ [(TopologyEventChannel, itoa (t_Version next))])%list (seen t)).

(** The commit is the last command that changes anything but the notifications. *)
Definition failover_outcome (c : Coordinator) (t : Net) (mapID failed : string) (r : coord_err + unit) (t' : Net) : Prop :=
  match r with
  | inr _ => reads t t' \/ exists next t1 r1, handed_over c t mapID failed next t1 r1 /\ t' = notified next (after t1 r1)
  | inl (CErrPublish _) => exists next t1 r1, handed_over c t mapID failed next t1 r1 /\
      (t' = after (after t1 r1) (seen (after t1 r1)) \/ t' = notified next (after t1 r1))
  | inl (CErrCommit ErrRedis) => reads t t' \/ exists next t1 r1, handed_over c t mapID failed next t1 r1 /\ t' = after t1 r1
  | inl _ => reads t t'
  end.

Lemma promotable_spec m f e o cp : promotable_checkpoint m f e o = Some cp ->
  o = Some cp /\ cp_MapID cp = m /\ cp_NodeID cp = f /\ cp_MapEpoch cp = e /\ 0 < cp_Version cp.
Proof.
  unfold promotable_checkpoint. destruct o as [cp'|]; [|done]. destruct (_ || _) eqn:E; [done|]. intros [= ->].
  rewrite !orb_false_iff, !negb_false_iff, !bool_decide_eq_true, Z.eqb_eq, Z.leb_gt in E. naive_solver.
Qed.

Lemma u64_small z : 0 <= z < 10^14 -> u64 z = z.
Proof. intros. apply u64_id. unfold in_u64. lia. Qed.

Lemma moved_small r topology m standby term updated :
  exact r -> r_topology r = Some (Good topology) -> 0 <= term < 10^14 ->
  small_topology (moved_topology topology m standby (default 0 (t_MapEpochs topology !! m) + 1) term updated).
Proof.
  intros Hr Ht Hterm. destruct (ex_topology _ Hr _ Ht) as (Hv & _ & He). unfold moved_topology. rewrite Clone_id.
  constructor; cbn [t_Version t_LeaderTerm t_MapEpochs]; [rewrite u64_small; lia|lia|].
  intros k ep. rewrite lookup_insert_Some. intros [[_ <-]|[_ Hk]]; [|apply He in Hk; lia].
  destruct (t_MapEpochs topology !! m) eqn:E; cbn; [apply He in E; lia|lia].
Qed.

Lemma cas_small_moved r r1 topology m standby term updated :
  exact r -> r_topology r = Some (Good topology) -> exact r1 -> 0 <= term < 10^14 ->
  cas_small (t_Version topology) (moved_topology topology m standby (default 0 (t_MapEpochs topology !! m) + 1) term updated) term r1.
Proof.
  intros Hr Ht Hr1 Hterm. destruct (ex_topology _ Hr _ Ht) as (Hv & _ & _). constructor; try done.
  - by apply (moved_small r).
  - intros cur Hc. destruct (ex_topology _ Hr1 _ Hc) as (? & ? & He). constructor; [lia|done|]. intros k ep Hk%He. lia.
  - lia.
  - cbn. rewrite u64_small; lia.
  - apply Hr1.
Qed.

Lemma failover_commit c t t1 e i p m failed topology cp standbyID term updated :
  exact_net t -> sources t m topology cp t1 -> valid_topology None topology ->
  0 < term < 10^14 -> handover c t m failed topology cp standbyID ->
  let next := moved_topology topology m standbyID (u64 (default 0 (t_MapEpochs topology !! m) + 1)) term updated in
  wp (_ ←! storeErr CErrCommit (CompareAndSaveTopologyAndMigrateSessionsForLeader (t_Version topology) next term m failed standbyID);
      storeErr CErrPublish (PublishTopologyChanged (t_Version next)))
     (fun r (s : CoordSt S) => co s = c /\ failover_outcome c t m failed r (ct s)) (mkCoordSt c t1 e i p).
Proof.
  intros Hx Hsrc Hv Hterm Hho next. pose proof Hsrc as (t_top & t_cp & Htop & Ht & Hcp & _ & Hlast).
  assert (Hr : reads t t1) by (do 2 (etrans; [done|]); done).
  pose proof (exact_seen _ (exact_reads _ _ Htop Hx)) as Hxs. pose proof (exact_seen _ (exact_reads _ _ Hr Hx)) as Hx1.
  assert (Hep : 0 <= default 0 (t_MapEpochs topology !! m) < 10^14 - 1).
  { destruct (ex_topology _ Hxs _ Ht) as (_ & _ & He). destruct (t_MapEpochs topology !! m) eqn:E; cbn; [by eapply He|lia]. }
  assert (Hnext : next = moved_topology topology m standbyID (default 0 (t_MapEpochs topology !! m) + 1) term updated)
    by (unfold next; by rewrite u64_small by lia).
  assert (Hsmall : cas_small (t_Version topology) next term (seen t1)).
  { rewrite Hnext. apply (cas_small_moved (seen t_top)); done || lia. }
  c_steps. unfold CompareAndSaveTopologyAndMigrateSessionsForLeader.
  assert (Hfail : forall err, err <> ErrRedis -> co (mkCoordSt c t1 e i p) = c /\
    failover_outcome c t m failed (inl (CErrCommit err)) (ct (mkCoordSt c t1 e i p))).
  { intros err Herr. split; [done|]. cbn. by destruct err. }
  destruct (_ || _); [c_steps; by apply Hfail|]. destruct (migration_args_bad _ _ _); [c_steps; by apply Hfail|].
  apply wp_cas; [done|by apply unpacked_exact|]. intros result t2 Hshape _ Hearly Hout.
  destruct Hshape as [->|[r1 ->]].
  { destruct (Hearly eq_refl) as (err & -> & Herr). c_steps. by apply Hfail. }
  specialize (Hout r1 eq_refl).
  assert (Hdone : may_commit (t_Version topology) next term (seen t1) /\
      committed next (Some (mkSessionMigration m failed standbyID)) (seen t1) r1 -> handed_over c t m failed next t1 r1).
  { intros [? ?]. by exists topology, cp, standbyID, term, updated. }
  destruct result as [err|[]].
  - c_steps. split; [done|]. cbn [failover_outcome ct]. destruct err; cbn [cas_outcome] in Hout;
      try (subst r1; by apply reads_step).
    destruct Hout as [->|Hout]; [left; by apply reads_step|right]. exists next, t1, r1. by split; [apply Hdone|].
  - cbn [cas_outcome] in Hout. specialize (Hdone Hout). c_steps. unfold PublishTopologyChanged.
    assert (Hv0 : t_Version next =? 0 = false).
    { apply Z.eqb_neq. destruct Hout as [[_ Hm] _]. rewrite Hnext. destruct (ex_topology _ Hxs _ Ht) as (? & _ & _).
      cbn. rewrite u64_small; lia. }
    rewrite Hv0. c_steps. apply wp_cmd; intros _; (split; [done|]); cbn [failover_outcome ct fst snd].
    + right. by exists next, t1, r1.
    + exists next, t1, r1. by split; [|left].
    + exists next, t1, r1. by split; [|right].
Qed.

Lemma promoted_handover c t t1 m failed topology standby standbyID info cfg cp p p' :
  default "" (t_Owners topology !! m) = failed -> valid_topology None topology ->
  default 0 (t_MapEpochs topology !! m) <> 0 -> 0 <= default 0 (t_MapEpochs topology !! m) < 10^14 - 1 ->
  reads t t1 -> registered t1 info -> eligible c m failed info -> nr_ID info = standbyID ->
  healthyNode c standbyID = Some standby -> mapConfig c m = Some cfg ->
  cp_MapID cp = m /\ cp_NodeID cp = failed /\ cp_MapEpoch cp = default 0 (t_MapEpochs topology !! m) /\ 0 < cp_Version cp ->
  PromoteRPC standby m cfg cp (u64 (default 0 (t_MapEpochs topology !! m) + 1)) p = Some (true, p') ->
  handover c t m failed topology cp standbyID.
Proof.
  intros ? ? ? ? Hr Hreg ? ? ? ? ? Hp. rewrite u64_small in Hp by lia.
  constructor; [done|done|done|exists info; split_and!; [by eapply registered_later|done|done]|done|].
  exists standby, cfg, p, p'. rewrite u64_small by lia. by split_and!.
Qed.


End coordinator_props.

(** ** A small concrete control plane used by the witnesses *)

(** Nodes that answer every call. *)
#[export] Instance obliging : CoordinatorNodeClient unit := {
  Dial _ _ := mret true;
  Ping _ := mret true;
  PromoteRPC _ _ _ _ _ := mret true;
  CloseClient _ := mret tt
}.

Definition demo_control_redis : Redis :=
  set_r_checkpoints {["demo" := Good (demo_checkpoint 3)]}
    (set_r_nodes {["node-c" := (Good (mkNodeRegistryInfo "node-c" "10.0.0.3:1" "demo" false), 200)]} demo_redis).
Definition demo_coordinator : Coordinator :=
  mkCoordinator {["demo" := demo_cfg]} {["node-c" := mkNodeConnection (mkClient "node-c" "10.0.0.3:1") true]} ∅ true false [].
Definition demo_inputs : Inputs := mkInputs (fun _ => 2) (fun _ => true) 0 (fun _ l => l) 0.
Definition demo_control : CoordSt unit :=
  mkCoordSt demo_coordinator (quiet demo_control_redis) demo_env demo_inputs tt.

Lemma demo_exact : exact_net (quiet demo_control_redis).
Proof.
  split; [|done]. constructor.
  - intros cur [= <-]. cbn [demo_topology t_Version t_LeaderTerm t_MapEpochs].
    split; [lia|]. split; [lia|]. apply (map_Forall_pair (fun _ e => 0 <= e < 10^14 - 1)); lia.
  - intros term [= <-]. lia.
  - apply Nat.leb_le. vm_compute. reflexivity.
Qed.

(** In this run the handover succeeds. *)
Lemma demo_failover_succeeds :
  match failoverMap "demo" "node-a" demo_control with
  | Some (inr tt, s) =>
      match r_topology (n_redis (ct s)) with
      | Some (Good t) => bool_decide (t_Owners t !! "demo" = Some "node-c") && (t_Version t =? 8)
      | _ => false
      end
  | _ => false
  end = true.
Proof. vm_compute. reflexivity. Qed.

