(* ===== verification/CoordinatorRuns.v ===== *)
(** * Runs of the coordinator

    Everything a coordinator does as one operation type, and a generic rule for
    invariants of its runs, used by [CoordinatorLost] and [Leadership]. *)

From Stdlib Require Import ZArith Lia String.
From stdpp Require Import base sorting gmap strings list option relations.
From S2P Require Import Prelude Protocol Config Maps World WorldOps Topology Redis Store StoreProps Coordinator.

Open Scope Z_scope.
Open Scope go_scope.

(** Everything the coordinator does: one round of each loop, a started goroutine,
    and its life cycle. *)
Inductive coord_op :=
  | CoordDiscover
  | CoordHeartbeat
  | CoordEnsureBoss
  | CoordRestoreBoss
  | CoordJob (i : nat)
  | CoordStart
  | CoordClose.

Section coordinator_runs.
Context {S : Type} {clients : CoordinatorNodeClient S}.

Definition run_coord_op (op : coord_op) : ST (CoordSt S) unit :=
  match op with
  | CoordDiscover => discoverOnce
  | CoordHeartbeat => heartbeatOnce
  | CoordEnsureBoss => _ ← ensureBoss; mret tt
  | CoordRestoreBoss => restoreBossIfDue
  | CoordJob i => run_job i
  | CoordStart => _ ← StartCoordinator; mret tt
  | CoordClose => CloseCoordinator
  end.

Inductive coord_step : CoordSt S -> CoordSt S -> Prop :=
  | cs_op op s s' : run_coord_op op s = Some (tt, s') -> coord_step s s'.

(** ** A generic invariant of runs

    [inv] speaks of the coordinator's own state, [pred] of the server, [asked] of
    the terms the elector answers. *)
Section invariant.
Context (inv : Coordinator -> Prop) (pred : Redis -> Prop) (asked : (nat -> Z) -> Prop).

Definition server_keeps (t : Net) : Prop := pred (n_redis t) /\ forall k r, pred r -> pred (n_other t k r).
Definition holds (s : CoordSt S) : Prop := inv (co s) /\ server_keeps (ct s) /\ asked (in_Term (ci s)).

(** From a good state the operation, if it returns, ends in a good state with a
    result in [Q]. *)
Definition safe {A} (m : ST (CoordSt S) A) (Q : A -> Prop) : Prop :=
  forall s a s', holds s -> m s = Some (a, s') -> holds s' /\ Q a.
Definition safeR {A} (m : RM A) (Q : A -> Prop) : Prop :=
  forall t a t', server_keeps t -> m t = Some (a, t') -> server_keeps t' /\ Q a.

Lemma safe_ret {A} (a : A) (Q : A -> Prop) : Q a -> safe (mret a) Q.
Proof. by intros HQ s ? ? Hs [= <- <-]. Qed.

Lemma safe_weaken {A} (m : ST (CoordSt S) A) (Q R : A -> Prop) : safe m Q -> (forall a, Q a -> R a) -> safe m R.
Proof. intros H HQR s a s' Hs Hm. destruct (H _ _ _ Hs Hm). auto. Qed.

Lemma safe_bind {A B} (m : ST (CoordSt S) A) (f : A -> ST (CoordSt S) B) Q R :
  safe m Q -> (forall a, Q a -> safe (f a) R) -> safe (m ≫= f) R.
Proof.
  intros Hm Hf s b s' Hs. unfold mbind, st_bind. destruct (m s) as [[a s1]|] eqn:E; [|done].
  destruct (Hm _ _ _ Hs E) as [Hs1 Ha]. by apply Hf.
Qed.

Lemma safe_try {A B E} (m : ST (CoordSt S) (E + A)) (k : A -> ST (CoordSt S) (E + B)) Q (R : E + B -> Prop) :
  safe m Q -> (forall err, Q (inl err) -> R (inl err)) -> (forall a, Q (inr a) -> safe (k a) R) -> safe (try m k) R.
Proof. intros Hm He Hk. eapply safe_bind; [exact Hm|]. intros [err|a] HQ; [apply safe_ret; auto|auto]. Qed.

Lemma safe_selfC : safe (selfC id) inv.
Proof. intros s ? ? Hs [= <- <-]. split; [done|apply Hs]. Qed.

Lemma safe_modCo f : (forall c, inv c -> inv (f c)) -> safe (modCo f) (fun _ => True).
Proof. intros Hf s ? ? [Hi Ht] [= <- <-]. split; [split; [by apply Hf|done]|done]. Qed.

Lemma safe_pure {A} (m : ST (CoordSt S) A) (Q : A -> Prop) :
  (forall s a s', asked (in_Term (ci s)) -> m s = Some (a, s') ->
     co s' = co s /\ ct s' = ct s /\ in_Term (ci s') = in_Term (ci s) /\ Q a) -> safe m Q.
Proof.
  intros H s a s' (Hi & Ht & Ha) (Hc & Hn & Hi' & HQ)%H; [|done]. split; [|done]. unfold holds. by rewrite Hc, Hn, Hi'.
Qed.

Lemma safe_ask {A} (f : Inputs -> nat -> A) : safe (ask f) (fun _ => True).
Proof. apply safe_pure. by intros s a s' _ [= _ <-]. Qed.

Lemma safe_ask_term : safe (ask in_Term) (fun term => exists answers n, asked answers /\ term = answers n).
Proof. apply safe_pure. intros s a s' Ha [= <- <-]. split_and!; [done..|]. eauto. Qed.

Lemma safe_scan : safe scan_order (fun _ => True).
Proof. apply safe_pure. by intros s a s' _ [= _ <-]. Qed.

Lemma safe_nowCo : safe nowCo (fun _ => True).
Proof. apply safe_pure. by intros s a s' _ [= _ <-]. Qed.

Lemma safe_range {A} (l : list A) : safe (rangeCo l) (fun l' => l' ≡ₚ l).
Proof. apply safe_pure. intros s a s' _ [= <- <-]. split_and!; [done..|apply arrange_Permutation]. Qed.

Lemma safe_onPeers {A} (m : ST S A) (Q : A -> Prop) :
  (forall p a p', m p = Some (a, p') -> Q a) -> safe (onPeers m) Q.
Proof.
  intros HQ. apply safe_pure. intros s a s' _. unfold onPeers, zoom. destruct (m (peers s)) as [[x p']|] eqn:E; [|done].
  intros [= <- <-]. split_and!; [done..|by eapply HQ].
Qed.

Lemma safe_onRedis {A} (m : RM A) Q : safeR m Q -> safe (onRedis m) Q.
Proof.
  intros Hm s a s' (Hi & Ht & Ha). unfold onRedis, zoom. destruct (m (ct s)) as [[x t']|] eqn:E; [|done].
  intros [= <- <-]. destruct (Hm _ _ _ Ht E). by split.
Qed.

Lemma safe_storeErr {A} wrap (m : RM (store_err + A)) (Q : A -> Prop) :
  safeR m (fun r => match r with inr a => Q a | inl _ => True end) ->
  safe (storeErr wrap m) (fun r => match r with inr a => Q a | inl _ => True end).
Proof.
  intros Hm. unfold storeErr. eapply safe_bind; [by apply safe_onRedis|]. intros [err|a] HQ; by apply safe_ret.
Qed.

Lemma safe_foldM {A} (f : unit -> A -> ST (CoordSt S) unit) l :
  (forall x, x ∈ l -> safe (f tt x) (fun _ => True)) -> safe (foldM f tt l) (fun _ => True).
Proof.
  induction l as [|x l IH]; intros Hf; [by apply safe_ret|]. cbn [foldM].
  eapply safe_bind; [apply Hf; left|]. intros [] _. apply IH. intros; apply Hf; by right.
Qed.

Lemma safe_currentLeaderTerm :
  safe currentLeaderTerm (fun o => forall term, o = Some term -> 0 < term /\ exists answers n, asked answers /\ term = answers n).
Proof.
  unfold currentLeaderTerm. eapply safe_bind; [apply safe_ask_term|]. intros term Ht.
  destruct (Z.ltb_spec 0 term); cbn [negb]; [|by apply safe_ret].
  eapply safe_bind; [apply safe_ask|]. intros [] _; apply safe_ret; [|done]. by intros ? [= <-].
Qed.

Lemma safe_hasLeaderTerm term : safe (hasLeaderTerm term) (fun _ => True).
Proof.
  unfold hasLeaderTerm. case_match; [by apply safe_ret|]. eapply safe_bind; [apply safe_ask|]. intros b _.
  case_match; [by apply safe_ret|]. eapply safe_bind; [apply safe_ask|]. intros; by apply safe_ret.
Qed.

Lemma safe_when_leader {A} (absent : A) m (Q : A -> Prop) : Q absent -> safe m Q -> safe (when_leader absent m) Q.
Proof.
  intros Ha Hm. unfold when_leader. eapply safe_bind; [apply safe_currentLeaderTerm|].
  intros [term|] _; [done|by apply safe_ret].
Qed.

(** Commands. *)
Lemma safeR_ret {A} (a : A) (Q : A -> Prop) : Q a -> safeR (mret a) Q.
Proof. by intros HQ t ? ? Ht [= <- <-]. Qed.

Lemma safeR_bind {A B} (m : RM A) (f : A -> RM B) Q R :
  safeR m Q -> (forall a, Q a -> safeR (f a) R) -> safeR (m ≫= f) R.
Proof.
  intros Hm Hf t b t' Ht. unfold mbind, st_bind. destruct (m t) as [[a t1]|] eqn:E; [|done].
  destruct (Hm _ _ _ Ht E) as [Ht1 Ha]. by apply Hf.
Qed.

Lemma safeR_cmd {A} (f : Redis -> A * Redis) (Q : option A -> Prop) :
  (forall r, pred r -> pred (f r).2) -> Q None -> (forall r, pred r -> Q (Some (f r).1)) -> safeR (cmd f) Q.
Proof.
  intros Hf HN HS t a t' [Hr Ho]. unfold cmd. pose proof (Ho (n_pos t) _ Hr) as Hs.
  pose proof (Hf _ Hs) as Hf'. pose proof (HS _ Hs) as HS'.
  destruct (n_fault t (n_pos t)); [destruct (f _)| |destruct (f _)]; intros [= <- <-]; by split.
Qed.

Lemma safeR_orErr {A} (err : store_err) (m : RM (option A)) (Q : A -> Prop) :
  safeR m (fun o => match o with Some a => Q a | None => True end) ->
  safeR (orErr err m) (fun r => match r with inr a => Q a | inl _ => True end).
Proof. intros Hm. unfold orErr. eapply safeR_bind; [exact Hm|]. intros [a|] HQ; by apply safeR_ret. Qed.

(** A command that changes something [pred] does not look at. *)
Lemma safeR_write f : (forall r, pred r -> pred (f r)) -> safeR (orErr ErrRedis (write f)) (fun _ => True).
Proof.
  intros Hf t a t' Ht Hm. split; [|done].
  eapply (safeR_orErr ErrRedis _ (fun _ => True)); [|exact Ht|exact Hm]. by apply safeR_cmd.
Qed.
End invariant.
End coordinator_runs.
