(* ===== verification/CoordinatorLost.v ===== *)
(** * The coordinator: what it never repairs

    Failover starts only when a node of the connection pool turns from healthy to
    unhealthy, or when a registered node is draining.  This file follows a node
    that is gone and not (or no longer) in that position, through every operation
    of the coordinator; and a boss whose killer never reported back. *)

From Stdlib Require Import ZArith Lia String.
From stdpp Require Import base sorting gmap strings list option relations.
From S2P Require Import Prelude Protocol Config Maps World WorldOps WorldProps Topology Redis Store StoreProps Authority Node NodeProps Coordinator CoordinatorProps CoordinatorRuns.

Open Scope Z_scope.
Open Scope go_scope.

Section coordinator_lost.
Context {S : Type} {clients : CoordinatorNodeClient S}.

(** ** A node that is gone *)

Section dead.
Context (m X : string).
(** The node does not answer. *)
Hypothesis Hping : forall cl p b p', Ping cl p = Some (b, p') -> cl_NodeID cl = X -> b = false.

(** The node is not in the pool, or known to be unhealthy; nobody is about to
    connect to it or to fail it over. *)
Record given_up (c : Coordinator) : Prop := {
  gu_node : forall conn, co_nodes c !! X = Some conn -> nc_healthy conn = false;
  gu_names : forall k conn, co_nodes c !! k = Some conn -> cl_NodeID (nc_client conn) = k;
  gu_jobs : forall j, j ∈ co_jobs c -> match j with JobConnect info => nr_ID info <> X | JobFailover y => y <> X end
}.

(** It is not registered, and the stored topology still gives it the map. *)
Record orphaned (r : Redis) : Prop := {
  or_nodes : forall k info, live r (r_nodes r !! k) = Some (Good info) -> nr_ID info <> X;
  or_owner : exists topology, r_topology r = Some (Good topology) /\ t_Owners topology !! m = Some X
}.

Abbreviation safe' := (safe (S:=S) given_up orphaned (fun _ => True)).
Abbreviation safeR' := (safeR orphaned).

Lemma orphaned_same r r' :
  r_nodes r' = r_nodes r -> r_clock r' = r_clock r -> r_topology r' = r_topology r -> orphaned r -> orphaned r'.
Proof.
  intros Hn Hc Ht [H1 H2]. constructor; [|by rewrite Ht].
  intros k info. rewrite Hn. unfold live. rewrite Hc. apply H1.
Qed.

Lemma script_registry ver next mig term ids r :
  let r' := (compareAndSetTopology ver next mig term ids r).2 in r_nodes r' = r_nodes r /\ r_clock r' = r_clock r.
Proof. cbn zeta. unfold compareAndSetTopology. by repeat case_match. Qed.

(** An initial topology is refused while there is one. *)
Lemma cas_guard_initial next term r topology : r_topology r = Some (Good topology) -> cas_guard 0 next term r <> None.
Proof.
  intros Ht. unfold cas_guard. case_match; [done|]. rewrite Ht.
  destruct (Z.ltb_spec (f64 (t_Version topology)) 1); [done|]. change (f64 0) with 0.
  destruct (Z.eqb_spec (f64 (t_Version topology)) 0); [lia|done].
Qed.

Lemma orphaned_script ver next mig term ids r :
  orphaned r -> ver = 0 \/ t_Owners next !! m = Some X -> orphaned (compareAndSetTopology ver next mig term ids r).2.
Proof.
  intros Ho Hnext. destruct (script_registry ver next mig term ids r) as [Hn Hc].
  destruct (script_shape ver next mig term ids r) as [Hsame|(Hg & Ht & _)]; [by rewrite Hsame|].
  destruct Ho as [H1 (tp & Htp & Hown)]. destruct Hnext as [->|Hnext]; [by destruct (cas_guard_initial next term r tp)|].
  constructor; [|by eexists]. intros k info. rewrite Hn. unfold live. rewrite Hc. apply H1.
Qed.

Lemma safeR_read {A} (f : Redis -> A) (Q : option A -> Prop) :
  Q None -> (forall r, orphaned r -> Q (Some (f r))) -> safeR' (read f) Q.
Proof. intros. by apply safeR_cmd. Qed.

Lemma safeR_LoadTopology :
  safeR' LoadTopology (fun r => match r with inr (Some tp) => t_Owners tp !! m = Some X | _ => True end).
Proof.
  unfold LoadTopology, try. eapply safeR_bind.
  - apply (safeR_orErr _ _ _ (fun d => forall tp, d = Some (Good tp) -> t_Owners tp !! m = Some X)).
    apply safeR_read; [done|]. intros r [_ (tp & Ht & Ho)] tp' Heq. congruence.
  - intros [err|d] Hd; [by apply safeR_ret|]. destruct d as [[tp|]|]; [|by apply safeR_ret..].
    case_match; [by apply safeR_ret|]. apply safeR_ret. rewrite Normalize_id. by apply Hd.
Qed.

Lemma safeR_any {A} (mm : RM A) (Q : A -> Prop) : safeR' mm Q -> safeR' mm (fun _ => True).
Proof. intros H t a t' Ht Hm. by destruct (H _ _ _ Ht Hm). Qed.

Lemma safeR_GetActiveNodes scan :
  safeR' (GetActiveNodes scan) (fun r => match r with inr nodes => forall info, info ∈ nodes -> nr_ID info <> X | inl _ => True end).
Proof.
  unfold GetActiveNodes, try. eapply safeR_bind.
  - apply (safeR_orErr _ _ _ (fun _ => True)). by apply safeR_read.
  - intros [err|ks] _; [by apply safeR_ret|].
    eapply (safeR_bind _ _ _ (fun nodes => forall info, info ∈ nodes -> nr_ID info <> X)); [|intros; by apply safeR_ret].
    assert (H : forall acc, (forall info, info ∈ acc -> nr_ID info <> X) ->
      safeR' (foldM (fun (nodes : list NodeRegistryInfo) k => o ← read (fun r => live r (r_nodes r !! k));
          mret match o with Some (Some (Good info)) => (nodes ++ [info])%list | _ => nodes end) acc ks)
        (fun nodes => forall info, info ∈ nodes -> nr_ID info <> X)); [|apply H; by intros ? ?%elem_of_nil].
    induction ks as [|k ks IH]; intros acc Hacc; [by apply safeR_ret|]. cbn [foldM].
    eapply (safeR_bind _ _ _ (fun nodes => forall info, info ∈ nodes -> nr_ID info <> X)); [|exact IH].
    eapply (safeR_bind _ _ _ (fun o => forall info, o = Some (Some (Good info)) -> nr_ID info <> X)).
    + apply safeR_read; [done|]. intros r [Hr _] info [= Heq]. by eapply Hr.
    + intros o Ho. apply safeR_ret. destruct o as [[[info|]|]|]; [|done..].
      intros i [Hi|Hi]%elem_of_app; [by apply Hacc|]. apply list_elem_of_singleton in Hi as ->. by apply Ho.
Qed.

Lemma safeR_cas ver next mig term :
  ver = 0 \/ t_Owners next !! m = Some X -> safeR' (compareAndSaveTopology ver next mig term) (fun _ => True).
Proof.
  intros Hn. unfold compareAndSaveTopology. destruct (prepareTopology next) as [err|p] eqn:Hp; [by apply safeR_ret|].
  apply prepareTopology_inr in Hp as [-> _]. case_match; [by apply safeR_ret|]. case_match; [by apply safeR_ret|].
  unfold try. eapply safeR_bind; [apply (safeR_orErr _ _ _ (fun _ => True)), safeR_cmd|].
  - intros r Hr. by apply orphaned_script.
  - done.
  - done.
  - intros [err|code] _; by apply safeR_ret.
Qed.

(** The remaining commands touch neither the registry nor the topology. *)
Ltac other_command := apply safeR_write; intros r Hr; by apply (orphaned_same r).

Lemma safeR_others :
  (forall mapID, safeR' (LoadCheckpoint mapID) (fun _ => True)) /\ (forall v, safeR' (PublishTopologyChanged v) (fun _ => True)) /\
  safeR' LoadGlobalBoss (fun _ => True) /\ (forall hp st, safeR' (InitGlobalBoss hp st) (fun _ => True)) /\
  safeR' TryLockBossRespawn (fun _ => True) /\ (forall ch e, safeR' (PublishEvent ch e) (fun _ => True)).
Proof.
  split_and!.
  - intros mapID. unfold LoadCheckpoint. eapply safeR_bind; [by apply (safeR_read _ (fun _ => True))|]. intros; by apply safeR_ret.
  - intros v. unfold PublishTopologyChanged. case_match; [by apply safeR_ret|other_command].
  - unfold LoadGlobalBoss, try. eapply safeR_bind; [apply (safeR_orErr _ _ _ (fun _ => True)); by apply safeR_read|].
    intros [err|[hp|]] _; [by apply safeR_ret| |by apply safeR_ret]. case_match; [by apply safeR_ret|].
    eapply safeR_bind; [apply (safeR_orErr _ _ _ (fun _ => True)); by apply safeR_read|].
    intros [err|[[st|]|]] _; by apply safeR_ret.
  - intros hp st. unfold InitGlobalBoss. other_command.
  - unfold TryLockBossRespawn. eapply safeR_bind; [|intros; by apply safeR_ret]. apply (safeR_cmd _ _ (fun _ => True)); [|done..].
    intros r Hr. case_match; [done|by apply (orphaned_same r)].
  - intros ch e. unfold PublishEvent. other_command.
Qed.

Lemma given_up_jobs c j :
  match j with JobConnect info => nr_ID info <> X | JobFailover y => y <> X end -> given_up c ->
  given_up (set_co_jobs (co_jobs c ++ [j]) c).
Proof.
  intros Hj [H1 H2 H3]. constructor; [done..|]. cbn [set_co_jobs co_jobs]. intros j' [Hj'|Hj']%elem_of_app; [by apply H3|].
  apply list_elem_of_singleton in Hj' as ->. exact Hj.
Qed.

Lemma given_up_connecting c v : given_up c -> given_up (set_co_connecting v c).
Proof. intros [H1 H2 H3]. by constructor. Qed.

Lemma given_up_discover c nodes :
  (forall info, info ∈ nodes -> nr_ID info <> X) -> given_up c -> given_up (foldl discoverNode c nodes).
Proof.
  revert c. induction nodes as [|info nodes IH]; intros c Hn Hc; [done|]. cbn [foldl].
  apply IH; [intros; apply Hn; by right|]. unfold discoverNode. repeat (case_match; [done|]).
  apply (given_up_jobs (set_co_connecting ({[nr_ID info]} ∪ co_connecting c) c)); [apply Hn; left|by apply given_up_connecting].
Qed.

Lemma given_up_connect c k cl healthy :
  cl_NodeID cl = k -> (k = X -> healthy = false) -> given_up c ->
  given_up (set_co_nodes (<[k := mkNodeConnection cl healthy]> (co_nodes c)) c).
Proof.
  intros Hk Hx [H1 H2 H3]. constructor; cbn [set_co_nodes co_nodes co_jobs]; [| |done].
  - intros conn. rewrite lookup_insert_Some. intros [[-> <-]|[_ Hc]]; [by apply Hx|by apply H1].
  - intros k' conn. rewrite lookup_insert_Some. intros [[<- <-]|[_ Hc]]; [done|by apply H2].
Qed.

Lemma safe_activeNodes :
  safe' activeNodes (fun r => match r with inr nodes => forall info, info ∈ nodes -> nr_ID info <> X | inl _ => True end).
Proof.
  unfold activeNodes. eapply safe_bind; [apply safe_scan|]. intros scan _. apply safe_storeErr, safeR_GetActiveNodes.
Qed.

Lemma safe_peers {A} (mm : ST S A) : safe' (onPeers mm) (fun _ => True).
Proof. by apply safe_onPeers. Qed.

Lemma safe_any_store {A} wrap (mm : RM (store_err + A)) : safeR' mm (fun _ => True) -> safe' (storeErr wrap mm) (fun _ => True).
Proof.
  intros H. eapply safe_weaken; [apply (safe_storeErr _ _ _ _ _ (fun _ => True))|done].
  intros t a t' Ht Hm. destruct (H _ _ _ Ht Hm). split; [done|by destruct a].
Qed.

Lemma safe_connect info : nr_ID info <> X -> safe' (connectDiscoveredNode info) (fun _ => True).
Proof.
  intros Hi. unfold connectDiscoveredNode.
  assert (Hfin : safe' (finishNodeConnection (nr_ID info)) (fun _ => True))
    by (apply safe_modCo; intros; by apply given_up_connecting).
  eapply safe_bind; [apply safe_peers|]. intros [] _; cbn [negb]; [|exact Hfin].
  eapply safe_bind; [apply safe_peers|]. intros [] _; cbn [negb]; [|eapply safe_bind; [apply safe_peers|intros; exact Hfin]].
  eapply safe_bind; [exact Hfin|]. intros _ _. eapply safe_bind; [apply safe_selfC|]. intros c _.
  case_match; [apply safe_peers|]. case_match; [apply safe_peers|].
  apply safe_modCo. intros c' Hc. by apply given_up_connect.
Qed.

Lemma safe_bootstrap nodes : safe' (bootstrapTopologyIfAbsent nodes) (fun _ => True).
Proof.
  unfold bootstrapTopologyIfAbsent. eapply safe_bind; [apply safe_currentLeaderTerm|]. intros [term|] _; [|by apply safe_ret].
  eapply safe_try; [apply safe_any_store; eapply safeR_any, safeR_LoadTopology|done|].
  intros [tp|] _; [by apply safe_ret|]. eapply safe_bind; [apply safe_nowCo|]. intros t _.
  eapply safe_bind; [apply safe_selfC|]. intros c _. case_match; [by apply safe_ret|]. case_match; [|by apply safe_ret].
  eapply safe_bind; [apply safe_hasLeaderTerm|]. intros [] _; cbn [negb]; [|by apply safe_ret].
  eapply safe_bind; [apply (safe_onRedis _ _ _ _ (fun _ => True))|].
  - unfold CompareAndSaveTopologyForLeader. case_match; [by apply safeR_ret|]. apply safeR_cas. by left.
  - intros [err|[]] _; [destruct err; by apply safe_ret|]. apply safe_any_store, safeR_others.
Qed.

Lemma safe_failoverMap mapID Y : Y <> X -> safe' (failoverMap mapID Y) (fun _ => True).
Proof.
  intros HY. unfold failoverMap. eapply safe_bind; [apply safe_currentLeaderTerm|]. intros [term|] _; [|by apply safe_ret].
  eapply safe_try; [apply safe_storeErr, safeR_LoadTopology|done|]. intros [tp|] Htp; [|by apply safe_ret].
  destruct (bool_decide_reflect (default "" (t_Owners tp !! mapID) = Y)) as [Hown|]; cbn [negb]; [|by apply safe_ret].
  cbv zeta. case_match; [by apply safe_ret|].
  eapply (safe_try _ _ _ _ _ (fun _ => True)); [|done|].
  { unfold selectStandby. eapply safe_try; [apply safe_activeNodes|done|]. intros nodes _.
    eapply safe_bind; [apply safe_selfC|]. intros c _. case_match; [by apply safe_ret|].
    eapply safe_bind; [apply safe_selfC|]. intros; by apply safe_ret. }
  intros [standbyID standby] _.
  eapply safe_bind; [apply safe_onRedis, safeR_others|]. intros loaded _. case_match; [|by apply safe_ret].
  eapply safe_bind; [apply safe_selfC|]. intros c _. case_match; [|by apply safe_ret]. cbv zeta. destruct standby as [cl|]; [|by intros s].
  eapply safe_bind; [apply safe_peers|]. intros [] _; cbn [negb]; [|by apply safe_ret].
  eapply safe_bind; [apply safe_nowCo|]. intros t _. cbv zeta.
  eapply safe_bind; [apply safe_hasLeaderTerm|]. intros [] _; cbn [negb]; [|by apply safe_ret].
  eapply safe_try; [apply safe_any_store|done|intros; apply safe_any_store, safeR_others].
  unfold CompareAndSaveTopologyAndMigrateSessionsForLeader. case_match; [by apply safeR_ret|]. case_match; [by apply safeR_ret|].
  apply safeR_cas. right. cbn [moved_topology t_Owners]. rewrite Clone_id, lookup_insert_ne; [done|].
  intros ->. rewrite Htp in Hown. cbn in Hown. congruence.
Qed.

Lemma safe_failoverNode Y : Y <> X -> safe' (failoverNode Y) (fun _ => True).
Proof.
  intros HY. unfold failoverNode. apply safe_when_leader; [done|].
  eapply safe_bind; [apply safe_any_store; eapply safeR_any, safeR_LoadTopology|].
  intros [err|[tp|]] _; [by apply safe_ret| |by apply safe_ret]. apply safe_foldM. intros mapID _.
  eapply safe_bind; [by apply safe_failoverMap|]. intros; by apply safe_ret.
Qed.

Lemma safe_setNodeHealth nodeID healthy : (nodeID = X -> healthy = false) -> safe' (setNodeHealth nodeID healthy) (fun _ => True).
Proof.
  intros Hx. unfold setNodeHealth. apply safe_when_leader; [done|]. eapply safe_bind; [apply safe_selfC|]. intros c Hc.
  destruct (co_nodes c !! nodeID) as [conn|] eqn:E; [|by apply safe_ret].
  destruct (bool_decide_reflect (nc_healthy conn = healthy)) as [|Hne]; [by apply safe_ret|].
  eapply safe_bind; [apply safe_modCo; intros; apply given_up_connect; [by apply Hc|done|done]|]. intros _ _.
  destruct healthy; [by apply safe_ret|]. apply safe_modCo. intros c' Hc'. apply given_up_jobs; [|done].
  intros ->. destruct Hne. by apply (gu_node _ Hc).
Qed.

Lemma safe_heartbeat : safe' heartbeatOnce (fun _ => True).
Proof.
  unfold heartbeatOnce. apply safe_when_leader; [done|]. eapply safe_bind; [apply safe_selfC|]. intros c Hc.
  eapply safe_bind; [apply safe_range|]. intros nodes Hn. apply safe_foldM. intros conn _.
  eapply (safe_bind _ _ _ _ _ (fun b => cl_NodeID (nc_client conn) = X -> b = false)).
  - apply safe_onPeers. intros p b p' Hp Hx. by eapply Hping.
  - intros b Hb. by apply safe_setNodeHealth.
Qed.

Lemma safe_reconcile nodes : (forall info, info ∈ nodes -> nr_ID info <> X) -> safe' (reconcileDrainingNodes nodes) (fun _ => True).
Proof.
  intros Hn. unfold reconcileDrainingNodes. apply safe_when_leader; [done|].
  eapply safe_bind; [apply safe_any_store; eapply safeR_any, safeR_LoadTopology|].
  intros [err|[tp|]] _; [by apply safe_ret| |by apply safe_ret]. cbv zeta. case_match; [by apply safe_ret|].
  eapply safe_bind; [apply safe_range|]. intros mapIDs _. apply safe_foldM. intros mapID _. cbv zeta.
  destruct (bool_decide_reflect (default "" (t_Owners tp !! mapID) ∈ nr_ID <$> filter (fun info => nr_Draining info = true) nodes)) as [Hin|];
    [|by apply safe_ret].
  apply safe_modCo. intros c Hc. apply given_up_jobs; [|done].
  apply list_elem_of_fmap in Hin as (info & -> & [_ Hin]%list_elem_of_filter). by apply Hn.
Qed.

Lemma safe_discover : safe' discoverOnce (fun _ => True).
Proof.
  unfold discoverOnce. apply safe_when_leader; [done|]. eapply safe_bind; [apply safe_activeNodes|].
  intros [err|nodes] Hn; [by apply safe_ret|].
  eapply safe_bind; [apply safe_modCo; intros c Hc; case_match; [done|by apply given_up_discover]|]. intros _ _.
  eapply safe_bind; [by apply safe_reconcile|]. intros _ _. eapply safe_bind; [apply safe_selfC|]. intros c _.
  eapply safe_bind; [apply safe_bootstrap|]. intros; by apply safe_ret.
Qed.

Lemma safe_job i : safe' (run_job i) (fun _ => True).
Proof.
  unfold run_job. eapply safe_bind; [apply safe_selfC|]. intros c Hc. destruct (co_jobs c !! i) as [j|] eqn:E; [|by apply safe_ret].
  assert (Hj : match j with JobConnect info => nr_ID info <> X | JobFailover y => y <> X end)
    by (apply (gu_jobs _ Hc); by eapply list_elem_of_lookup_2).
  eapply safe_bind; [apply safe_modCo|].
  - intros c' [H1 H2 H3]. constructor; [done..|]. cbn [set_co_jobs co_jobs]. intros j' Hj'. apply (gu_jobs _ Hc).
    apply elem_of_app in Hj' as [Hj'|Hj']; [by eapply elem_of_take in Hj' as (? & ? & _); eapply list_elem_of_lookup_2|].
    apply list_elem_of_lookup_1 in Hj' as [k Hk]. rewrite lookup_drop in Hk. by eapply list_elem_of_lookup_2.
  - intros _ _. destruct j; [by apply safe_connect|by apply safe_failoverNode].
Qed.

Lemma safe_boss : safe' ensureBoss (fun _ => True) /\ safe' restoreBossIfDue (fun _ => True).
Proof.
  assert (Hload : safe' (onRedis LoadGlobalBoss) (fun _ => True)) by apply safe_onRedis, safeR_others.
  assert (Hwait : forall st, safe' (boss_not_due st) (fun _ => True)).
  { intros st. unfold boss_not_due. case_match; [by apply safe_ret|]. eapply safe_bind; [apply safe_nowCo|]. intros; by apply safe_ret. }
  split.
  - unfold ensureBoss. apply safe_when_leader; [done|]. eapply safe_bind; [exact Hload|].
    intros [err|b] _; [|by apply safe_ret]. destruct err; try by apply safe_ret.
    eapply safe_bind; [apply safe_selfC|]. intros c _. apply safe_any_store, safeR_others.
  - unfold restoreBossIfDue. apply safe_when_leader; [done|]. eapply safe_bind; [exact Hload|].
    intros [err|[st hp]] _; [by apply safe_ret|]. eapply safe_bind; [apply Hwait|]. intros [] _; [by apply safe_ret|].
    eapply safe_bind; [apply safe_onRedis, safeR_others|]. intros [] _; cbn [negb]; [|by apply safe_ret].
    eapply safe_bind; [exact Hload|]. intros [err|[st' hp']] _; [by apply safe_ret|].
    eapply safe_bind; [apply Hwait|]. intros [] _; [by apply safe_ret|]. cbv zeta.
    eapply safe_bind; [apply safe_onRedis, safeR_others|]. intros [err|[]] _; [by apply safe_ret|].
    eapply safe_bind; [apply safe_onRedis, safeR_others|]. intros; by apply safe_ret.
Qed.

Lemma safe_life : safe' StartCoordinator (fun _ => True) /\ safe' CloseCoordinator (fun _ => True).
Proof.
  split.
  - unfold StartCoordinator. eapply safe_bind; [apply safe_selfC|]. intros c _. case_match; [by apply safe_ret|].
    case_match; [by apply safe_ret|]. eapply safe_bind; [apply safe_modCo|intros; by apply safe_ret].
    intros c' [H1 H2 H3]. by constructor.
  - unfold CloseCoordinator. eapply safe_bind; [apply safe_selfC|]. intros c _. case_match; [by apply safe_ret|].
    eapply safe_bind; [apply safe_range|]. intros l _. eapply safe_bind; [apply safe_modCo|].
    + intros c' [H1 H2 H3]. constructor; cbn [co_nodes co_jobs]; [intros conn|intros k conn|done]; by rewrite lookup_empty.
    + intros _ _. apply safe_foldM. intros; apply safe_peers.
Qed.

Lemma safe_op op : safe' (run_coord_op op) (fun _ => True).
Proof.
  destruct op; cbn [run_coord_op].
  - apply safe_discover.
  - apply safe_heartbeat.
  - eapply safe_bind; [apply safe_boss|intros; by apply safe_ret].
  - apply safe_boss.
  - apply safe_job.
  - eapply safe_bind; [apply safe_life|intros; by apply safe_ret].
  - apply safe_life.
Qed.
End dead.

(** C26. A failover that was missed is never made up for.  Let the stored topology
    give a map to a node that does not answer and is not registered, and let the
    coordinator either not have it in its pool (a new leader starts with an empty
    one) or already have marked it unhealthy (its one attempt to fail it over is
    past).  Then however long the coordinator goes on, with whatever standbys and
    checkpoints, no failover of that node is ever started and the map stays with
    it. *)
Theorem dead_owner_never_replaced m X (s s' : CoordSt S) :
  (forall cl p b p', Ping cl p = Some (b, p') -> cl_NodeID cl = X -> b = false) ->
  given_up X (co s) -> server_keeps (orphaned m X) (ct s) -> rtc coord_step s s' ->
  given_up X (co s') /\ orphaned m X (n_redis (ct s')).
Proof.
  intros Hping Hc Ht Hs. enough (H : holds (given_up X) (orphaned m X) (fun _ => True) s') by (split; apply H).
  assert (H0 : holds (given_up X) (orphaned m X) (fun _ => True) s) by by split. clear Hc Ht.
  induction Hs as [s|s1 s2 s3 [op s1' s2' Hrun] _ IH]; [done|]. apply IH.
  by apply (safe_op m X Hping op _ _ _ H0 Hrun).
Qed.
End coordinator_lost.

(** ** A witness: a healthy standby and a valid checkpoint do not help *)

(** Nodes of which [node-a] does not answer. *)
Definition deaf : CoordinatorNodeClient unit := {|
  Dial _ _ := mret true;
  Ping cl := mret (negb (bool_decide (cl_NodeID cl = "node-a")));
  PromoteRPC _ _ _ _ _ := mret true;
  CloseClient _ := mret tt
|}.

(** A new leader: it has connected to [node-c] only. *)
Lemma demo_orphaned : orphaned "demo" "node-a" demo_control_redis.
Proof.
  constructor.
  - intros k info. cbn [demo_control_redis set_r_checkpoints set_r_nodes r_nodes].
    destruct (decide (k = "node-c")) as [->|Hne]; [rewrite lookup_singleton_eq|by rewrite lookup_singleton_ne].
    cbn. intros [= <-]. done.
  - exists demo_topology. split; reflexivity.
Qed.

Lemma demo_given_up : given_up "node-a" demo_coordinator.
Proof.
  constructor; cbn [demo_coordinator co_nodes co_jobs].
  - intros conn. by rewrite lookup_singleton_ne.
  - intros k conn. rewrite lookup_singleton_Some. by intros [<- <-].
  - by intros j ?%elem_of_nil.
Qed.

Definition demo_heartbeat : option (unit * CoordSt unit) :=
  @run_coord_op unit deaf CoordHeartbeat demo_control.

Lemma demo_heartbeat_runs : match demo_heartbeat with Some _ => true | None => false end = true.
Proof. vm_compute. reflexivity. Qed.

Lemma dead_owner_never_replaced_witness :
  exists s', @rtc (CoordSt unit) (@coord_step unit deaf) demo_control s' /\ orphaned "demo" "node-a" (n_redis (ct s')).
Proof.
  pose proof demo_heartbeat_runs as H. destruct demo_heartbeat as [[[] s']|] eqn:E; [|discriminate H].
  exists s'. assert (Hs : @rtc (CoordSt unit) (@coord_step unit deaf) demo_control s') by by apply rtc_once, (cs_op CoordHeartbeat).
  split; [exact Hs|].
  apply (@dead_owner_never_replaced unit deaf "demo" "node-a" demo_control s').
  - intros cl p b p' [= <- <-] ->. reflexivity.
  - exact demo_given_up.
  - split; [exact demo_orphaned|done].
  - exact Hs.
Defined.

(** ** A boss that is neither alive nor dead *)

(** Hit points used up while the state document still says alive. *)
Definition boss_limbo (r : Redis) : Prop :=
  exists hp st, r_boss_hp r = Some hp /\ - 2^31 <= hp <= 0 /\ r_boss_state r = Some (Good st) /\ boss_Alive st = true.

Section limbo.
Context {S : Type} {clients : CoordinatorNodeClient S}.

Lemma limbo_load : safeR boss_limbo LoadGlobalBoss
  (fun r => match r with inr (st, _) => boss_Alive st = true | inl err => err <> ErrGlobalBossNotInitialized end).
Proof.
  unfold LoadGlobalBoss, try, orErr. eapply safeR_bind.
  - eapply (safeR_bind _ _ _ (fun o => forall x, o = Some x -> is_Some x)).
    + apply safeR_cmd; [done|done|]. intros r (hp & st & Hhp & _) x [= <-]. rewrite Hhp. eauto.
    + intros [x|] Hx; apply (safeR_ret _ _ (fun e => match e with inr x => is_Some x | inl err => err = ErrRedis end));
        [by apply Hx|done].
  - intros [err|hp] Hhp; [subst err; by apply safeR_ret|]. destruct Hhp as [hp' ->]. case_match; [by apply safeR_ret|].
    eapply safeR_bind.
    + eapply (safeR_bind _ _ _ (fun o => forall x, o = Some x -> exists st, x = Some (Good st) /\ boss_Alive st = true)).
      * apply safeR_cmd; [done|done|]. intros r (hp2 & st & _ & _ & Hst & Ha) x [= <-]. eauto.
      * intros [x|] Hx;
          apply (safeR_ret _ _ (fun e => match e with inr x => exists st, x = Some (Good st) /\ boss_Alive st = true | inl err => err = ErrRedis end));
          [by apply Hx|done].
    + intros [err|x] Hx; [subst err; by apply safeR_ret|]. destruct Hx as (st & -> & Ha). by apply safeR_ret.
Qed.

Lemma limbo_op op : op = CoordEnsureBoss \/ op = CoordRestoreBoss ->
  safe (fun _ => True) boss_limbo (fun _ => True) (run_coord_op op) (fun _ => True).
Proof.
  intros [->| ->]; cbn [run_coord_op].
  - eapply safe_bind; [|intros; by apply safe_ret]. unfold ensureBoss. apply (safe_when_leader _ _ _ _ _ (fun _ => True)); [done|].
    eapply safe_bind; [apply safe_onRedis, limbo_load|]. intros [err|b] Hb; [|by apply safe_ret]. destruct err; try by apply safe_ret. by destruct Hb.
  - unfold restoreBossIfDue. apply safe_when_leader; [done|].
    eapply safe_bind; [apply safe_onRedis, limbo_load|]. intros [err|[st hp]] Hb; [by apply safe_ret|].
    unfold boss_not_due. rewrite Hb. eapply safe_bind; [by apply (safe_ret _ _ _ _ (fun b => b = true))|].
    intros b ->. by apply safe_ret.
Qed.

(** The boss can be lost for good: if the player who deals the killing blow
    never gets to store the boss as dead (its node stops, or the answer of the
    script is lost), the boss has no hit points and is marked alive; then every
    further attack finds it down and changes nothing, and the coordinator, which
    only looks at the mark, never brings it back. *)
Theorem boss_lost_for_good damage hp st r :
  r_boss_hp r = Some hp -> 0 < hp <= damage -> damage < 2^31 -> r_boss_state r = Some (Good st) -> boss_Alive st = true ->
  let r1 := (attack_script damage r).2 in
  boss_limbo r1 /\ (forall d, attack_script d r1 = (BossDown (Some (Good st)), r1)) /\
  forall s op s', op = CoordEnsureBoss \/ op = CoordRestoreBoss -> server_keeps boss_limbo (ct s) ->
    run_coord_op op s = Some (tt, s') -> boss_limbo (n_redis (ct s')).
Proof.
  intros Hhp Hd Hd2 Hst Ha r1.
  assert (Hr1 : r_boss_hp r1 = Some 0 /\ r_boss_state r1 = Some (Good st)).
  { pose proof (attack_script_spec damage r hp Hhp ltac:(lia) ltac:(lia)) as Hs.
    assert (Hkeep : r_boss_state r1 = r_boss_state r) by (unfold r1, attack_script; by repeat case_match).
    unfold r1 in *. destruct (attack_script damage r) as [a r2]. destruct Hs as (_ & H2 & _). cbn [snd] in *.
    rewrite H2, Hkeep. split; [f_equal; lia|done]. }
  destruct Hr1 as [Hhp1 Hst1]. split_and!.
  - exists 0, st. split_and!; done || lia.
  - intros d. unfold attack_script. rewrite Hhp1, Hst1. done.
  - intros s op s' Hop Hs Hrun. destruct (limbo_op op Hop s tt s') as [(_ & [H _] & _) _]; [done|done|done].
Qed.
End limbo.

Definition demo_boss : BossState := mkBossState "王子文" true "" 0 2000 [mkBossSite "demo" 5 3] 1.
Definition demo_boss_redis : Redis := set_r_boss_state (Some (Good demo_boss)) (set_r_boss_hp (Some 20) demo_control_redis).

Lemma boss_lost_for_good_witness :
  boss_limbo (attack_script 35 demo_boss_redis).2 /\
  attack_script 35 (attack_script 35 demo_boss_redis).2 = (BossDown (Some (Good demo_boss)), (attack_script 35 demo_boss_redis).2).
Proof.
  destruct (@boss_lost_for_good unit obliging 35 20 demo_boss demo_boss_redis) as (H1 & H2 & _);
    [reflexivity|lia|lia|reflexivity|reflexivity|]. split; [exact H1|exact (H2 35)].
Defined.
