(* ===== verification/Leadership.v ===== *)
(** * The leading coordinator

    [coordinator/coordinator.go]: the goroutine that campaigns, checks its term,
    runs the three loops of a leader and joins them, with the elector of
    [Elector] and the operations of [Coordinator].  A coordinator whose lease has
    gone to another one contributes nothing to the control data any more, whatever
    its goroutines still do. *)

From Stdlib Require Import ZArith Lia String.
From stdpp Require Import base sorting gmap strings list option relations.
From S2P Require Import Prelude Protocol Config Maps World WorldOps WorldProps Topology Redis Store StoreProps Elector Coordinator CoordinatorProps CoordinatorRuns.

Open Scope Z_scope.
Open Scope go_scope.

(** ** Construction *)

(** [productionElector]: the name of the instance comes from the environment or
    from host and process; [None] is an error, [Some None] the elector of a single
    instance.  [defaults] are those of the configuration, [runtime] its lease,
    renewal and retry times, [raw] the random part of the token. *)
Definition productionElector (hasRedis : bool) (defaults runtime : Z * Z * Z) (coordinatorID : string)
    (hostname : option string) (pid : Z) (raw : string) : option (option RedisElector) :=
  if negb hasRedis then Some None else
  instanceID ← (if bool_decide (coordinatorID = "") then (fun host => host +:+ "-" +:+ itoa pid) <$> hostname
                else Some coordinatorID);
  let '(lease, renewal, retry) := runtime in
  Some <$> NewRedis defaults instanceID (mkRedisOptions "" "" lease renewal retry) raw.

(** ** The leader's goroutine *)

Inductive worker := DiscoveryLoop | HeartbeatLoop | BossLoop.
#[export] Instance worker_eq_dec : EqDecision worker.
Proof. solve_decision. Defined.

(** Where [leaderLoop] is: at the head of its loop, between the attempts of
    [Campaign], waiting after an error, elected, in [runLeader] before and after
    the workers are started, returned. *)
Inductive phase :=
  | NotStarted
  | AtHead
  | InCampaign
  | AtRetry
  | AtTerm
  | AtBoss
  | Working (running : list worker)
  | Ended.

Section control.
Context {S : Type} {clients : CoordinatorNodeClient S}.

(** A coordinator's process; [ctl_cancelled] tells whether the root context is. *)
Record Control := mkControl {
  ctl_coord : CoordSt S;
  ctl_elector : RedisElector;
  ctl_phase : phase;
  ctl_cancelled : bool
}.

Definition at_phase (p : phase) (c : Control) : Control := mkControl (ctl_coord c) (ctl_elector c) p (ctl_cancelled c).

Definition set_net (n : Net) (s : CoordSt S) : CoordSt S := mkCoordSt (co s) n (ce s) (ci s) (peers s).

(** Run an operation of the elector; [k] continues with its result. *)
Definition with_elector {A} (m : EM A) (k : A -> Control -> Control) (c : Control) : option Control :=
  match m (ctl_elector c, ct (ctl_coord c)) with
  | Some (a, (e, n)) => Some (k a (mkControl (set_net n (ctl_coord c)) e (ctl_phase c) (ctl_cancelled c)))
  | None => None
  end.

(** [LeaderStatus]: the elector reports itself. *)
Definition LeaderStatus (now : Z) (c : Control) : Status := Status_of now (ctl_elector c).

(** Under a cancelled root context every leader context is cancelled, from the
    moment it is made. *)
Definition under (cancelled : bool) (e : RedisElector) : RedisElector :=
  if cancelled then set_el_leaderCtx (cancel_ctx (el_leaderCtx e)) e else e.
Definition derived (c : Control) : Control :=
  mkControl (ctl_coord c) (under (ctl_cancelled c) (ctl_elector c)) (ctl_phase c) (ctl_cancelled c).

(** What a campaign's outcome means to the loop. *)
Definition campaigned (r : elect_err + bool) (c : Control) : Control :=
  match r with
  | inr true => at_phase AtTerm c
  | inr false => at_phase InCampaign c
  | inl _ => at_phase (if ctl_cancelled c then Ended else AtRetry) c
  end.

(** The inputs of an operation whose queries meet the elector in the states of [h]. *)
Definition asking (h : nat -> RedisElector) (s : CoordSt S) : CoordSt S :=
  mkCoordSt (co s) (ct s) (ce s)
    (mkInputs (fun n => Term (h n)) (fun n => IsLeader (h n)) 0 (in_scan (ci s)) (in_scan_pos (ci s))) (peers s).

(** Steps of the goroutine: the head of the loop, an attempt of the campaign, its
    end by the context, the timer or the context of [waitForContext], the check of
    the term, a worker that sees the leader context done, the end of [runLeader]. *)
Inductive loop_event :=
  | LoopHead
  | LoopAttempt (now : Z)
  | LoopGiveUp
  | LoopTimer
  | LoopNoTimer
  | LoopTerm (h : nat -> RedisElector)
  | LoopReturns (w : worker)
  | LoopJoin.

Definition leaderLoop_step (ev : loop_event) (c : Control) : option Control :=
  match ctl_phase c, ev with
  | AtHead, LoopHead =>
      if ctl_cancelled c then Some (at_phase Ended c) else with_elector (Campaign_begin false) campaigned c
  | InCampaign, LoopAttempt now => with_elector (Campaign_try now) (fun r c => campaigned r (derived c)) c
  | InCampaign, LoopGiveUp => if ctl_cancelled c then with_elector Campaign_cancelled campaigned c else None
  | AtRetry, LoopTimer => Some (at_phase AtHead c)
  | AtRetry, LoopNoTimer => if ctl_cancelled c then Some (at_phase Ended c) else None
  | AtTerm, LoopTerm h =>
      match currentLeaderTerm (asking h (ctl_coord c)) with
      | Some (Some _, s) => Some (mkControl s (h (in_pos (ci s))) AtBoss (ctl_cancelled c))
      | Some (None, s) => Some (mkControl s (h (in_pos (ci s))) AtHead (ctl_cancelled c))
      | None => None
      end
  | Working ws, LoopReturns w =>
      if bool_decide (w ∈ ws) && negb (ctx_alive (ctl_elector c))
      then Some (at_phase (Working (filter (fun v => v <> w) ws)) c) else None
  | Working [], LoopJoin => if negb (ctx_alive (ctl_elector c)) then Some (at_phase AtHead c) else None
  | _, _ => None
  end.

(** Which operations run in a phase: the rounds while their worker runs, [ensureBoss]
    before, jobs and the life cycle at any time. *)
Definition may_run (op : coord_op) (p : phase) : bool :=
  match op, p with
  | CoordDiscover, Working ws => bool_decide (DiscoveryLoop ∈ ws)
  | CoordHeartbeat, Working ws => bool_decide (HeartbeatLoop ∈ ws)
  | CoordRestoreBoss, Working ws => bool_decide (BossLoop ∈ ws)
  | CoordEnsureBoss, AtBoss => true
  | CoordJob _, _ | CoordStart, _ | CoordClose, _ => true
  | _, _ => false
  end.

(** The phase after an operation: [Start] launches the goroutine once. *)
Definition phase_after (op : coord_op) (before after : Coordinator) (p : phase) : phase :=
  match op with
  | CoordEnsureBoss => Working [DiscoveryLoop; HeartbeatLoop; BossLoop]
  | CoordStart => if negb (co_started before) && co_started after then AtHead else p
  | _ => p
  end.

(** The elector's other goroutines: renewal, its end with the root context, the
    resignation of [Close]. *)
Definition elector_runs (op : eop) (c : Control) : bool :=
  match op with
  | ERenew _ => true
  | ELoopEnds => ctl_cancelled c
  | EResign => co_closed (co (ctl_coord c))
  | _ => false
  end.

(** The elector as others of its goroutines move it while an operation runs; what
    they do to the server is activity between the operation's commands. *)
Definition elector_moves (cancelled : bool) (e e' : RedisElector) : Prop :=
  exists op n e1 n', run_eop op (e, n) = Some (tt, (e1, n')) /\ e' = under cancelled e1.
Definition history (cancelled : bool) (h : nat -> RedisElector) (e : RedisElector) : Prop :=
  h 0%nat = e /\ forall n, rtc (elector_moves cancelled) (h n) (h (Datatypes.S n)).

(** One step of the process, as long as its elector is not elected for a term
    above [limit]. *)
Inductive control_step (limit : Z) : Control -> Control -> Prop :=
  | ctl_op op h c s' e' :
      may_run op (ctl_phase c) = true -> history (ctl_cancelled c) h (ctl_elector c) -> (forall n, Term (h n) <= limit) ->
      run_coord_op op (asking h (ctl_coord c)) = Some (tt, s') ->
      rtc (elector_moves (ctl_cancelled c)) (h (in_pos (ci s'))) e' -> Term e' <= limit ->
      control_step limit c
        (mkControl s' e' (phase_after op (co (ctl_coord c)) (co s') (ctl_phase c)) (ctl_cancelled c))
  | ctl_renewal op c c' :
      elector_runs op c = true -> with_elector (run_eop op) (fun _ c => c) c = Some c' ->
      Term (ctl_elector c') <= limit -> control_step limit c c'
  | ctl_cancel c e' :
      co_closed (co (ctl_coord c)) = true -> e' = set_el_leaderCtx (cancel_ctx (el_leaderCtx (ctl_elector c))) (ctl_elector c) ->
      control_step limit c (mkControl (ctl_coord c) e' (ctl_phase c) true)
  | ctl_loop ev c c' :
      match ev with LoopTerm h => history (ctl_cancelled c) h (ctl_elector c) | _ => True end ->
      leaderLoop_step ev c = Some c' -> Term (ctl_elector c') <= limit -> control_step limit c c'.

(** ** What a deposed coordinator does not touch *)

(** Beyond 2^53 a double keeps an integer's order against smaller ones. *)
Lemma f64_above a b : 0 <= a < 2^53 -> a < b -> f64 a <> f64 b.
Proof.
  intros Ha Hab. rewrite (f64_exact a) by lia. destruct (Z.le_gt_cases b (2^53)) as [Hb|Hb]; [rewrite f64_exact; lia|].
  enough (2^53 <= f64 b) by lia. unfold f64. rewrite (Z.abs_eq b), (proj2 (Z.leb_gt b (2^53))) by lia. cbv zeta.
  assert (Hlog : 53 <= Z.log2 b) by (apply Z.log2_le_pow2; lia).
  set (s := Z.log2 b - 52). rewrite Z.sgn_pos, Z.mul_1_l by lia.
  assert (Hq : 2^52 <= Z.shiftr b s).
  { rewrite Z.shiftr_div_pow2 by lia. apply Z.div_le_lower_bound; [lia|]. rewrite <- Z.pow_add_r by lia.
    replace (s + 52) with (Z.log2 b) by lia. by apply Z.log2_spec; lia. }
  assert (H2 : forall q, 2^52 <= q -> 2^53 <= Z.shiftl q s).
  { intros q Hq'. rewrite Z.shiftl_mul_pow2 by lia. assert (2^1 <= 2^s) by (apply Z.pow_le_mono_r; lia). nia. }
  case_match; apply H2; lia.
Qed.

Lemma past_term_refused expectedVersion next term r :
  0 < term < 2^53 -> term < default 0 (r_term r) -> cas_guard expectedVersion next term r = Some (-4).
Proof.
  intros Ht Hlt. unfold cas_guard. rewrite (proj2 (Z.eqb_neq term 0)) by lia. cbn [negb andb].
  assert ((f64 (default 0 (r_term r)) =? f64 term) = false) as ->
    by (apply Z.eqb_neq; intros Heq; by apply (f64_above term (default 0 (r_term r))); [lia..|]).
  by rewrite orb_true_r.
Qed.

(** Everything but lease, term, boss and announcements. *)
Definition same_control (r r' : Redis) : Prop :=
  r_topology r' = r_topology r /\ r_fences r' = r_fences r /\ r_sessions r' = r_sessions r /\
  r_checkpoints r' = r_checkpoints r /\ r_hot r' = r_hot r /\ r_nodes r' = r_nodes r /\
  r_clock r' = r_clock r /\ r_unpack r' = r_unpack r.

Section deposed.
Context (P : Redis -> Prop) (limit : Z).
Hypothesis Hdata : forall r r', same_control r r' -> P r -> P r'.

(** The counter is past every term the elector may still answer. *)
Definition deposed (r : Redis) : Prop := P r /\ (0 < limit -> limit < default 0 (r_term r)).
Hypothesis Hlimit : 0 <= limit < 10^14.

Abbreviation quiet m := (safe (S:=S) (fun _ => True) deposed (fun t => forall n, t n <= limit) m (fun _ => True)).
Abbreviation quietR m := (safeR deposed m (fun _ => True)).

Lemma deposed_same r r' : same_control r r' -> default 0 (r_term r) <= default 0 (r_term r') -> deposed r -> deposed r'.
Proof. intros Hs Ht [HP HL]. split; [by eapply Hdata|lia]. Qed.

Lemma quiet_bind {A B} (m : ST (CoordSt S) A) (f : A -> ST (CoordSt S) B) :
  quiet m -> (forall a, quiet (f a)) -> quiet (m ≫= f).
Proof. intros Hm Hf. eapply safe_bind; [exact Hm|]. auto. Qed.

Lemma quiet_try {A B E} (m : ST (CoordSt S) (E + A)) (k : A -> ST (CoordSt S) (E + B)) :
  quiet m -> (forall a, quiet (k a)) -> quiet (try m k).
Proof. intros Hm Hk. eapply safe_try; [exact Hm|done|]. auto. Qed.

(** A use of the leader's term. *)
Lemma quiet_term {B} (f : option Z -> ST (CoordSt S) B) :
  quiet (f None) -> (forall term, 0 < term <= limit -> quiet (f (Some term))) -> quiet (currentLeaderTerm ≫= f).
Proof.
  intros Hn Hf. eapply safe_bind; [apply safe_currentLeaderTerm|]. intros [term|] Ht; [|done].
  destruct (Ht term eq_refl) as (H0 & h & n & Hh & ->). apply Hf. split; [done|apply Hh].
Qed.

Lemma quiet_when_leader {A} (absent : A) m : quiet m -> quiet (when_leader absent m).
Proof. apply safe_when_leader. done. Qed.

Lemma quiet_storeErr {A} wrap (m : RM (store_err + A)) : quietR m -> quiet (storeErr wrap m).
Proof.
  intros H. unfold storeErr. eapply safe_bind; [by apply safe_onRedis|]. intros [err|a] _; by apply safe_ret.
Qed.

Lemma quietR_bind {A B} (m : RM A) (f : A -> RM B) : quietR m -> (forall a, quietR (f a)) -> quietR (m ≫= f).
Proof. intros Hm Hf. eapply safeR_bind; [exact Hm|]. auto. Qed.

Lemma quietR_cmd {A} (f : Redis -> A * Redis) : (forall r, deposed r -> deposed (f r).2) -> quietR (cmd f).
Proof. intros Hf. by apply safeR_cmd. Qed.

Lemma quietR_orErr {A} (err : store_err) (m : RM (option A)) : quietR m -> quietR (orErr err m).
Proof. intros Hm. unfold orErr. apply quietR_bind; [done|]. intros [a|]; by apply safeR_ret. Qed.

(** ** Its commands *)

Lemma quietR_read {A} (f : Redis -> A) : quietR (read f).
Proof. by apply quietR_cmd. Qed.

(** Commands on the boss and announcements. *)
Lemma quietR_write f :
  (forall r, same_control r (f r)) -> (forall r, r_term (f r) = r_term r) -> quietR (orErr ErrRedis (write f)).
Proof.
  intros Hs Ht. apply quietR_orErr, quietR_cmd. intros r Hr. eapply deposed_same; [apply Hs|cbn; rewrite Ht; lia|done].
Qed.

Lemma quietR_try {A B} (m : RM (store_err + A)) (k : A -> RM (store_err + B)) :
  quietR m -> (forall a, quietR (k a)) -> quietR (try m k).
Proof. intros Hm Hk. unfold try. apply quietR_bind; [done|]. intros [err|a]; [by apply safeR_ret|done]. Qed.

(** The leader-term test of the script refuses the term. *)
Lemma quietR_cas ver next mig term : 0 < term <= limit -> quietR (compareAndSaveTopology ver next mig term).
Proof.
  intros Ht. unfold compareAndSaveTopology. destruct (prepareTopology next) as [err|p]; [by apply safeR_ret|].
  case_match; [by apply safeR_ret|]. case_match; [by apply safeR_ret|]. cbv zeta.
  apply quietR_try; [apply quietR_orErr, quietR_cmd|intros; by apply safeR_ret].
  intros r Hr. pose proof (proj2 Hr ltac:(lia)) as Hlt. unfold compareAndSetTopology.
  rewrite (past_term_refused ver p term r); [done|lia|lia].
Qed.

Lemma quietR_foldM {A B} (f : A -> B -> RM A) l : (forall acc x, quietR (f acc x)) -> forall acc, quietR (foldM f acc l).
Proof.
  intros Hf. induction l as [|x l IH]; intros acc; [by apply safeR_ret|]. cbn [foldM]. by apply quietR_bind.
Qed.

Lemma quietR_GetActiveNodes scan : quietR (GetActiveNodes scan).
Proof.
  unfold GetActiveNodes. apply quietR_try; [apply quietR_orErr, quietR_read|]. intros ks.
  apply quietR_bind; [|intros; by apply safeR_ret].
  apply quietR_foldM. intros. apply quietR_bind; [apply quietR_read|intros; by apply safeR_ret].
Qed.

Lemma quietR_LoadTopology : quietR LoadTopology.
Proof.
  unfold LoadTopology. apply quietR_try; [apply quietR_orErr, quietR_read|].
  intros [[tp|]|]; [case_match|..]; by apply safeR_ret.
Qed.

Lemma quietR_LoadGlobalBoss : quietR LoadGlobalBoss.
Proof.
  unfold LoadGlobalBoss. apply quietR_try; [apply quietR_orErr, quietR_read|]. intros [hp|]; [|by apply safeR_ret].
  case_match; [by apply safeR_ret|]. apply quietR_try; [apply quietR_orErr, quietR_read|].
  intros [[st|]|]; by apply safeR_ret.
Qed.

Lemma quietR_others :
  (forall mapID, quietR (LoadCheckpoint mapID)) /\ (forall v, quietR (PublishTopologyChanged v)) /\
  (forall hp st, quietR (InitGlobalBoss hp st)) /\ quietR TryLockBossRespawn /\ (forall ch e, quietR (PublishEvent ch e)).
Proof.
  split_and!.
  - intros mapID. unfold LoadCheckpoint. apply quietR_bind; [apply quietR_read|]. intros; by apply safeR_ret.
  - intros v. unfold PublishTopologyChanged. case_match; [by apply safeR_ret|]. by apply quietR_write.
  - intros hp st. by apply quietR_write.
  - unfold TryLockBossRespawn. apply quietR_bind; [|intros; by apply safeR_ret]. apply quietR_cmd.
    intros r Hr. case_match; [done|]. by apply (deposed_same r).
  - intros ch e. by apply quietR_write.
Qed.

(** ** Its operations *)

Lemma quiet_ret {A} (a : A) : quiet (mret a).
Proof. by apply safe_ret. Qed.

Lemma quiet_selfC : quiet (selfC id).
Proof. eapply safe_weaken; [apply safe_selfC|done]. Qed.

Lemma quiet_modCo f : quiet (modCo f).
Proof. by apply safe_modCo. Qed.

Lemma quiet_peers {A} (m : ST S A) : quiet (onPeers m).
Proof. by apply safe_onPeers. Qed.

Lemma quiet_range {A} (l : list A) : quiet (rangeCo l).
Proof. eapply safe_weaken; [apply safe_range|done]. Qed.

Lemma quiet_nowCo : quiet nowCo.
Proof. apply safe_nowCo. Qed.

Lemma quiet_scan : quiet scan_order.
Proof. apply safe_scan. Qed.

Lemma quiet_hasLeaderTerm term : quiet (hasLeaderTerm term).
Proof. apply safe_hasLeaderTerm. Qed.

Lemma quiet_onRedis {A} (m : RM A) : quietR m -> quiet (onRedis m).
Proof. apply safe_onRedis. Qed.

Lemma quiet_foldM {A} (f : unit -> A -> ST (CoordSt S) unit) l : (forall x, quiet (f tt x)) -> quiet (foldM f tt l).
Proof. intros Hf. apply safe_foldM. auto. Qed.

(** Steps that are quiet whatever their results. *)
Ltac hush :=
  repeat (intros; lazymatch goal with
  | |- safe _ _ _ (mret _) _ => apply quiet_ret
  | |- safe _ _ _ (ok _) _ => apply quiet_ret
  | |- safe _ _ _ (fail _) _ => apply quiet_ret
  | |- safe _ _ _ (selfC id) _ => apply quiet_selfC
  | |- safe _ _ _ (modCo _) _ => apply quiet_modCo
  | |- safe _ _ _ (onPeers _) _ => apply quiet_peers
  | |- safe _ _ _ (rangeCo _) _ => apply quiet_range
  | |- safe _ _ _ nowCo _ => apply quiet_nowCo
  | |- safe _ _ _ scan_order _ => apply quiet_scan
  | |- safe _ _ _ (hasLeaderTerm _) _ => apply quiet_hasLeaderTerm
  | |- safe _ _ _ (storeErr _ _) _ => apply quiet_storeErr
  | |- safe _ _ _ (onRedis _) _ => apply quiet_onRedis
  | |- safe _ _ _ (when_leader _ _) _ => apply quiet_when_leader
  | |- safe _ _ _ (foldM _ _ _) _ => apply quiet_foldM
  | |- safe _ _ _ (currentLeaderTerm ≫= _) _ => apply quiet_term
  | |- safe _ _ _ (try _ _) _ => apply quiet_try
  | |- safe _ _ _ (_ ≫= _) _ => apply quiet_bind
  | |- safe _ _ _ panic _ => by intros ?
  | |- safe _ _ _ (let _ := _ in _) _ => cbv zeta
  | |- safe _ _ _ (match ?x with _ => _ end) _ => destruct x
  | |- safeR _ LoadTopology _ => apply quietR_LoadTopology
  | |- safeR _ LoadGlobalBoss _ => apply quietR_LoadGlobalBoss
  | |- safeR _ (GetActiveNodes _) _ => apply quietR_GetActiveNodes
  | |- safeR _ (CompareAndSaveTopologyForLeader _ _ _) _ => unfold CompareAndSaveTopologyForLeader
  | |- safeR _ (CompareAndSaveTopologyAndMigrateSessionsForLeader _ _ _ _ _ _) _ =>
      unfold CompareAndSaveTopologyAndMigrateSessionsForLeader
  | |- safeR _ (match ?x with _ => _ end) _ => destruct x
  | |- safeR _ (compareAndSaveTopology _ _ _ _) _ => apply quietR_cas; assumption
  | |- safeR _ (fail _) _ => by apply safeR_ret
  | |- safeR _ _ _ => apply quietR_others
  end).

Lemma quiet_bootstrap nodes : quiet (bootstrapTopologyIfAbsent nodes).
Proof. unfold bootstrapTopologyIfAbsent. hush. Qed.

Lemma quiet_failoverMap mapID nodeID : quiet (failoverMap mapID nodeID).
Proof. unfold failoverMap, selectStandby, activeNodes. hush. Qed.

Lemma quiet_failoverNode nodeID : quiet (failoverNode nodeID).
Proof. unfold failoverNode. hush. apply quiet_failoverMap. Qed.

Lemma quiet_heartbeat : quiet heartbeatOnce.
Proof. unfold heartbeatOnce, setNodeHealth, spawn. hush. Qed.

Lemma quiet_discover : quiet discoverOnce.
Proof. unfold discoverOnce, activeNodes, discoverNodes, reconcileDrainingNodes, spawn. hush. apply quiet_bootstrap. Qed.

Lemma quiet_op op : quiet (run_coord_op op).
Proof.
  destruct op; cbn [run_coord_op].
  - apply quiet_discover.
  - apply quiet_heartbeat.
  - unfold ensureBoss. hush.
  - unfold restoreBossIfDue, boss_not_due. hush.
  - unfold run_job, connectDiscoveredNode, finishNodeConnection. hush. apply quiet_failoverNode.
  - unfold StartCoordinator. hush.
  - unfold CloseCoordinator. hush.
Qed.

(** ** Its elector *)

(** An operation of the elector that leaves the server deposed. *)
Definition quietE {A} (m : EM A) : Prop :=
  forall s a s', server_keeps deposed s.2 -> m s = Some (a, s') -> server_keeps deposed s'.2.

Lemma quietE_ret {A} (a : A) : quietE (mret a).
Proof. by intros s ? ? Hs [= <- <-]. Qed.

Lemma quietE_bind {A B} (m : EM A) (f : A -> EM B) : quietE m -> (forall a, quietE (f a)) -> quietE (m ≫= f).
Proof.
  intros Hm Hf s b s' Hs. unfold mbind, st_bind. destruct (m s) as [[a s1]|] eqn:E; [|done]. apply Hf. by eapply Hm.
Qed.

Lemma quietE_modE f : quietE (modE f).
Proof. by intros s ? ? Hs [= <- <-]. Qed.

Lemma quietE_getE : quietE getE.
Proof. by intros s ? ? Hs [= <- <-]. Qed.

Lemma quietE_netE {A} (m : RM A) : quietR m -> quietE (netE m).
Proof.
  intros Hm s a s' Hs. unfold netE, zoom. destruct (m s.2) as [[x n]|] eqn:E; [|done]. intros [= <- <-]. by eapply Hm.
Qed.

Lemma quietE_scripts token ttl :
  quietR (cmd (acquireLeaseAndTerm token ttl)) /\ quietR (cmd (renewIfTokenMatches token ttl)) /\
  quietR (cmd (deleteIfTokenMatches token)).
Proof.
  split_and!; apply quietR_cmd; intros r Hr.
  - unfold acquireLeaseAndTerm. repeat case_match; [done..|]. apply (deposed_same r); [done|cbn; lia|done].
  - unfold renewIfTokenMatches. repeat case_match; [by apply (deposed_same r)|done..].
  - unfold deleteIfTokenMatches. repeat case_match; [by apply (deposed_same r)|done..].
Qed.

Ltac hushE :=
  repeat (intros; lazymatch goal with
  | |- quietE (mret _) => apply quietE_ret
  | |- quietE (ok _) => apply quietE_ret
  | |- quietE (fail _) => apply quietE_ret
  | |- quietE (modE _) => apply quietE_modE
  | |- quietE getE => apply quietE_getE
  | |- quietE loseLeadership => apply quietE_modE
  | |- quietE (netE (cmd _)) => apply quietE_netE, quietE_scripts; exact 0
  | |- quietE (_ ≫= _) => apply quietE_bind
  | |- quietE (match ?x with _ => _ end) => destruct x
  end).

Lemma quietE_Campaign_begin b : quietE (Campaign_begin b).
Proof. unfold Campaign_begin. hushE. Qed.

Lemma quietE_Campaign_try now : quietE (Campaign_try now).
Proof. unfold Campaign_try, acquire. hushE. Qed.

Lemma quietE_op op : quietE (run_eop op).
Proof.
  destruct op; cbn [run_eop].
  - hushE. apply quietE_Campaign_begin.
  - hushE. apply quietE_Campaign_try.
  - unfold Campaign_cancelled. hushE.
  - unfold renewLoop_tick, renew. hushE.
  - unfold renewLoop_cancelled, releaseToken. hushE.
  - unfold Resign, releaseToken. hushE.
Qed.

(** ** Its process *)

Definition silenced (c : Control) : Prop := server_keeps deposed (ct (ctl_coord c)) /\ Term (ctl_elector c) <= limit.

Lemma silenced_campaigned r c : server_keeps deposed (ct (ctl_coord c)) -> server_keeps deposed (ct (ctl_coord (campaigned r c))).
Proof. by destruct r as [|[]]. Qed.

Lemma quiet_elector {A} (m : EM A) k c c' :
  quietE m -> (forall a c, server_keeps deposed (ct (ctl_coord c)) -> server_keeps deposed (ct (ctl_coord (k a c)))) ->
  server_keeps deposed (ct (ctl_coord c)) -> with_elector m k c = Some c' -> server_keeps deposed (ct (ctl_coord c')).
Proof.
  intros Hm Hk Hc. unfold with_elector. destruct (m _) as [[a [e n]]|] eqn:E; [|done]. intros [= <-].
  apply Hk. cbn. exact (Hm (ctl_elector c, _) a (e, n) Hc E).
Qed.

Lemma quiet_loop ev c c' :
  server_keeps deposed (ct (ctl_coord c)) -> leaderLoop_step ev c = Some c' -> server_keeps deposed (ct (ctl_coord c')).
Proof.
  intros Hc. unfold leaderLoop_step.
  destruct (ctl_phase c) as [| | | | | |[|w0 ws]|], ev; try done; try (by repeat case_match; first [discriminate|intros [= <-]]).
  - case_match; [by intros [= <-]|]. apply quiet_elector; [apply quietE_Campaign_begin|apply silenced_campaigned|done].
  - apply quiet_elector; [apply quietE_Campaign_try| |done]. intros r c0 Hc0. by apply silenced_campaigned.
  - intros Hstep. enough (H : forall o s, currentLeaderTerm (asking h (ctl_coord c)) = Some (o, s) -> ct s = ct (ctl_coord c)).
    { destruct (currentLeaderTerm _) as [[[t|] s]|]; [..|done]; injection Hstep as <-; cbn; by rewrite (H _ _ eq_refl). }
    intros o s. unfold currentLeaderTerm, ask. cbv [mbind st_bind mret st_ret]. cbn [asking ci in_Term in_pos].
    destruct (0 <? Term (h 0%nat)); cbn; by intros [= _ <-].
Qed.

Lemma silenced_step c c' : control_step limit c c' -> silenced c -> silenced c'.
Proof.
  intros [op h c0 s' e' _ _ Hh Hrun _ He'|op c0 c1 _ Hw He'|c0 e' _ ->|ev c0 c1 _ Hl He'] [Hc He].
  - split; [|done]. cbn. refine (proj1 (proj2 (proj1 (quiet_op op (asking h (ctl_coord c0)) tt s' _ Hrun)))). done.
  - split; [|done]. eapply quiet_elector; [apply quietE_op| |exact Hc|exact Hw]. done.
  - split; [done|]. cbn. revert He. unfold Term, ctx_alive. cbn. destruct (el_leader _), (el_leaderCtx _) as [[]|]; cbn; lia.
  - split; [|done]. by eapply quiet_loop.
Qed.
End deposed.

(** C6. A deposed coordinator is harmless, whatever its goroutines still do.  Let
    another coordinator hold the lease.  Then, until it is elected again, a
    coordinator may discover nodes, check them, fail maps over, bootstrap a
    topology, restore the boss, renew, campaign and close, with any delays, faults
    and interleavings: whatever the other clients maintain about topology, fences,
    sessions, checkpoints and registrations still holds. *)
Theorem deposed_coordinator_harmless r d tok x k e (P : Redis -> Prop) (c c' : Control) :
  r_lease r = None -> 0 <= default 0 (r_term r) -> rtc election_step (mkDeployment ∅ r) d ->
  r_lease (dp_redis d) = Some (tok, x) -> dp_electors d !! k = Some e -> k <> tok ->
  default 0 (r_term (dp_redis d)) < 10^14 ->
  ctl_elector c = e -> n_redis (ct (ctl_coord c)) = dp_redis d ->
  (forall r1 r2, same_control r1 r2 -> P r1 -> P r2) ->
  (forall n r1, P r1 -> let r2 := n_other (ct (ctl_coord c)) n r1 in
     P r2 /\ default 0 (r_term r1) <= default 0 (r_term r2)) ->
  P (dp_redis d) -> rtc (control_step (Term e)) c c' -> P (n_redis (ct (ctl_coord c'))).
Proof.
  intros Hl Ht Hs Hx Hk Hne Hsmall He Hr Hdata Hothers HP Hrun.
  destruct (election_reachable r d Hl Ht Hs) as [Hti Hrg Hte Hd Hls].
  assert (Hlt : 0 < Term e -> Term e < default 0 (r_term (dp_redis d))).
  { unfold Term. destruct (el_leader e) eqn:Hle, (ctx_alive e); cbn; try lia. intros _.
    specialize (Hte _ _ Hk Hle). assert (el_term e <> default 0 (r_term (dp_redis d))) by (intros Heq; apply Hne; eauto). lia. }
  assert (Hlim : 0 <= Term e < 10^14).
  { split; [|destruct (Z.lt_ge_cases 0 (Term e)); lia]. unfold Term. destruct (el_leader e) eqn:Hle; cbn; [|lia].
    specialize (Hte _ _ Hk Hle). destruct (ctx_alive e); cbn; lia. }
  enough (H : silenced P (Term e) c') by apply H.
  assert (H0 : silenced P (Term e) c).
  { split; [|by rewrite He]. split; [by rewrite Hr; split|]. intros n r1 [HP1 Hlt1].
    destruct (Hothers n r1 HP1) as [HP2 Hle]. split; [exact HP2|]. lia. }
  clear - Hrun Hdata Hlim H0. induction Hrun as [|c1 c2 c3 Hstep _ IH]; [done|]. apply IH. by eapply silenced_step.
Qed.
End control.

(** ** A concrete takeover

    "c1" is elected, its lease expires, "c2" is elected; "c1" still runs a failover
    that would succeed if its term were the current one ([demo_failover_succeeds]). *)

Definition demo_server (term : Z) (lease : option (string * Z)) (expiry clock : Z) : Redis :=
  mkRedis (Some (Good demo_topology)) demo_fences demo_sessions {["demo" := Good (demo_checkpoint 3)]} ∅ (Some term) lease
    {["node-c" := (Good (mkNodeRegistryInfo "node-c" "10.0.0.3:1" "demo" false), expiry)]} None None None [] clock 50.
Definition demo_elected (token : string) (term : Z) : RedisElector :=
  mkRedisElector token token (el_options (demo_elector token)) true term (6 * Second) (Some true) false.

Definition demo_takeover : Deployment :=
  mkDeployment (<["c2" := demo_elected "c2" 4]> (<["c2" := demo_elector "c2"]>
      (<["c1" := demo_elected "c1" 3]> (<["c1" := demo_elector "c1"]> ∅))))
    (demo_server 4 (Some ("c2", 26 * Second)) (30 * Second) (20 * Second)).

Lemma demo_takeover_reached : rtc election_step (mkDeployment ∅ (demo_server 2 None 200 100)) demo_takeover.
Proof.
  eapply rtc_l; [apply (es_start "c1" (demo_elector "c1")); reflexivity|].
  eapply rtc_l; [apply (run_step "c1" (demo_elector "c1") (ETry 0) _ (demo_elected "c1" 3)
      (demo_server 3 (Some ("c1", 6 * Second + 100)) 200 100)); [reflexivity|vm_compute; reflexivity]|].
  eapply rtc_l; [apply (es_other (demo_server 3 (Some ("c1", 6 * Second + 100)) (30 * Second) (20 * Second))); split; reflexivity|].
  eapply rtc_l; [apply (es_start "c2" (demo_elector "c2")); reflexivity|].
  eapply rtc_l; [apply (run_step "c2" (demo_elector "c2") (ETry 0) _ (demo_elected "c2" 4)
      (demo_server 4 (Some ("c2", 26 * Second)) (30 * Second) (20 * Second))); [reflexivity|vm_compute; reflexivity]|].
  apply rtc_refl.
Qed.

Definition demo_old_coordinator : CoordSt unit :=
  mkCoordSt (set_co_jobs [JobFailover "node-a"] demo_coordinator) (quiet (dp_redis demo_takeover)) demo_env demo_inputs tt.
Definition demo_old_control : Control :=
  mkControl demo_old_coordinator (demo_elected "c1" 3) (Working [DiscoveryLoop; HeartbeatLoop; BossLoop]) false.
(** A job runs while the elector stands still. *)
Lemma job_step {S} {clients : CoordinatorNodeClient S} limit i (c : Control (S := S)) s' :
  run_coord_op (CoordJob i) (asking (fun _ => ctl_elector c) (ctl_coord c)) = Some (tt, s') -> Term (ctl_elector c) <= limit ->
  control_step limit c (mkControl s' (ctl_elector c) (ctl_phase c) (ctl_cancelled c)).
Proof.
  intros Hrun Hl. apply (ctl_op limit (CoordJob i) (fun _ => ctl_elector c) c s' (ctl_elector c)); repeat split; auto using rtc_refl.
Qed.

Lemma returns_some {A T} (o : option (A * T)) : match o with Some _ => true | None => false end = true -> exists a t, o = Some (a, t).
Proof. destruct o as [[a t]|]; [eauto|discriminate]. Qed.

(** The job runs to its end. *)
Lemma demo_late_job_runs :
  exists u s', run_coord_op (CoordJob 0) (asking (fun _ => ctl_elector demo_old_control) (ctl_coord demo_old_control)) = Some (u, s').
Proof. apply returns_some. vm_compute. reflexivity. Qed.

Lemma demo_late_step : exists c', control_step (Term (ctl_elector demo_old_control)) demo_old_control c'.
Proof.
  destruct demo_late_job_runs as ([] & s' & E). eexists. exact (job_step _ 0 demo_old_control s' E (Z.le_refl _)).
Qed.

Lemma demo_old_control_others n r :
  r_topology r = Some (Good demo_topology) ->
  let r' := n_other (ct (ctl_coord demo_old_control)) n r in
  r_topology r' = Some (Good demo_topology) /\ default 0 (r_term r) <= default 0 (r_term r').
Proof. intros H. split; [exact H|apply Z.le_refl]. Qed.

Lemma deposed_coordinator_harmless_witness :
  exists c', control_step (Term (ctl_elector demo_old_control)) demo_old_control c' /\
    r_topology (n_redis (ct (ctl_coord c'))) = Some (Good demo_topology).
Proof.
  destruct demo_late_step as [c' Hstep]. exists c'. split; [exact Hstep|].
  apply (deposed_coordinator_harmless (demo_server 2 None 200 100) demo_takeover "c2" (26 * Second) "c1" (ctl_elector demo_old_control)
    (fun r => r_topology r = Some (Good demo_topology)) demo_old_control c').
  - reflexivity.
  - discriminate.
  - exact demo_takeover_reached.
  - reflexivity.
  - reflexivity.
  - discriminate.
  - reflexivity.
  - reflexivity.
  - reflexivity.
  - intros r1 r2 [Ht _] H1. rewrite Ht. exact H1.
  - exact demo_old_control_others.
  - reflexivity.
  - exact (rtc_once _ _ Hstep).
Defined.
