(* ===== verification/CoordinatorFlight.v ===== *)
(** * Commits of a coordinator that are under way

    [failoverMap] and [bootstrapTopologyIfAbsent] check the leader's term one last
    time and then send their commit.  Between the two the coordinator can be closed
    and its root context cancelled; so both are cut here at that point, into what
    they do up to and with the check, and the commit that is then under way. *)

From Stdlib Require Import ZArith Lia String.
From stdpp Require Import base sorting gmap strings list option relations.
From S2P Require Import Prelude Protocol Config Maps World WorldOps WorldProps Topology Redis Store StoreProps Elector Coordinator CoordinatorProps CoordinatorRuns Leadership.

Open Scope Z_scope.
Open Scope go_scope.

(** A commit whose sender has passed the last check of its term. *)
Inductive late_commit :=
  | LateFailover (expectedVersion : Z) (next : Topology) (term : Z) (mapID failedNodeID standbyID : string)
  | LateBootstrap (initial : Topology) (term : Z).

Section flight.
Context {S : Type} {clients : CoordinatorNodeClient S}.
Abbreviation CM := (ST (CoordSt S)).

(** [failoverMap] up to the commit. *)
Definition failover_prepare (mapID failedNodeID : string) : CM (coord_err + option late_commit) :=
  o ← currentLeaderTerm;
  match o with
  | None => fail CErrNotLeader
  | Some term =>
      found ←! storeErr CErrStore LoadTopology;
      match found with
      | None => fail CErrNoTopology
      | Some topology =>
          if negb (bool_decide (default "" (t_Owners topology !! mapID) = failedNodeID)) then ok None else
          let oldEpoch := default 0 (t_MapEpochs topology !! mapID) in
          if oldEpoch =? 0 then fail (CErrNoEpoch mapID) else
          selected ←! selectStandby mapID failedNodeID;
          let '(standbyID, standby) := selected in
          loaded ← onRedis (LoadCheckpoint mapID);
          match promotable_checkpoint mapID failedNodeID oldEpoch loaded with
          | None => fail (CErrCheckpoint standbyID)
          | Some checkpoint =>
              c ← selfC id;
              match mapConfig c mapID with
              | None => fail (CErrUnknownMap mapID)
              | Some config =>
                  let nextEpoch := oldEpoch +u 1 in
                  match standby with
                  | None => panic
                  | Some standby =>
                      promoted ← onPeers (PromoteRPC standby mapID config checkpoint nextEpoch);
                      if negb promoted then fail (CErrPromote standbyID) else
                      t ← nowCo;
                      let next := moved_topology topology mapID standbyID nextEpoch term t in
                      still ← hasLeaderTerm term;
                      if negb still then fail CErrLostLease else
                      ok (Some (LateFailover (t_Version topology) next term mapID failedNodeID standbyID))
                  end
              end
          end
      end
  end.

(** [bootstrapTopologyIfAbsent] up to the commit. *)
Definition bootstrap_prepare (nodes : list NodeRegistryInfo) : CM (coord_err + option late_commit) :=
  o ← currentLeaderTerm;
  match o with
  | None => ok None
  | Some term =>
      found ←! storeErr CErrStore LoadTopology;
      match found with
      | Some _ => ok None
      | None =>
          t ← nowCo;
          c ← selfC id;
          match BuildInitialTopology (knownMapIDs c) nodes t with
          | inl err => fail (CErrStore err)
          | inr None => ok None
          | inr (Some initial) =>
              still ← hasLeaderTerm term;
              if negb still then ok None else ok (Some (LateBootstrap initial term))
          end
      end
  end.

(** The commit, and the notification after it. *)
Definition land (l : late_commit) : CM (coord_err + unit) :=
  match l with
  | LateFailover expectedVersion next term mapID failedNodeID standbyID =>
      _ ←! storeErr CErrCommit
             (CompareAndSaveTopologyAndMigrateSessionsForLeader expectedVersion next term mapID failedNodeID standbyID);
      storeErr CErrPublish (PublishTopologyChanged (t_Version next))
  | LateBootstrap initial term =>
      r ← onRedis (CompareAndSaveTopologyForLeader 0 (set_t_LeaderTerm term initial) term);
      match r with
      | inl ErrTopologyVersionConflict => ok tt
      | inl err => fail (CErrCommit err)
      | inr _ => storeErr CErrPublish (PublishTopologyChanged (t_Version initial))
      end
  end.

Definition then_land (o : option late_commit) : CM (coord_err + unit) :=
  match o with Some l => land l | None => ok tt end.

(** ** The cut changes nothing *)

Lemma cut_bind {T A B C E} (m : ST T A) (f : A -> ST T (E + C)) (g : A -> ST T (E + B)) (k : B -> ST T (E + C)) s :
  (forall a s', f a s' = try (g a) k s') -> (m ≫= f) s = try (m ≫= g) k s.
Proof. intros H. unfold try, mbind, st_bind in *. destruct (m s) as [[a s']|]; [apply H|done]. Qed.

Lemma cut_try {T A B C E} (m : ST T (E + A)) (f : A -> ST T (E + C)) (g : A -> ST T (E + B)) (k : B -> ST T (E + C)) s :
  (forall a s', f a s' = try (g a) k s') -> try m f s = try (try m g) k s.
Proof. intros H. unfold try at 1. unfold try at 2. apply cut_bind. intros [err|a] s'; [done|apply H]. Qed.

Ltac cut :=
  repeat (intros; lazymatch goal with
  | |- _ = try (ok _) _ _ => reflexivity
  | |- (_ ≫= _) _ = _ => apply cut_bind
  | |- try _ _ _ = try (try _ _) _ _ => apply cut_try
  | |- (match ?x with _ => _ end) _ = _ => destruct x
  | |- (let _ := _ in _) _ = _ => cbv zeta
  | _ => reflexivity
  end).

Lemma failoverMap_cut mapID nodeID s : failoverMap mapID nodeID s = try (failover_prepare mapID nodeID) then_land s.
Proof. unfold failoverMap, failover_prepare. cut. Qed.

Lemma bootstrap_cut nodes s : bootstrapTopologyIfAbsent nodes s = try (bootstrap_prepare nodes) then_land s.
Proof. unfold bootstrapTopologyIfAbsent, bootstrap_prepare. cut. Qed.

(** ** What a commit does to the server *)

Definition late_args (l : late_commit) : Z * Topology * option sessionMigration * Z :=
  match l with
  | LateFailover v next term m f s => (v, next, Some (mkSessionMigration m f s), term)
  | LateBootstrap initial term => (0, set_t_LeaderTerm term initial, None, term)
  end.

(** The server after the script of the commit. *)
Definition late_effect (l : late_commit) (r : Redis) : Redis :=
  let '(v, next, migration, term) := late_args l in
  match prepareTopology next with
  | inl _ => r
  | inr prepared =>
      (compareAndSetTopology v prepared migration term (sort_strings (elements (dom (t_Owners prepared)))) r).2
  end.

(** A commit of a term that the counter has passed changes nothing. *)
Lemma late_effect_refused l r :
  0 < (late_args l).2 < 2^53 -> (late_args l).2 < default 0 (r_term r) -> late_effect l r = r.
Proof.
  unfold late_effect. destruct (late_args l) as [[[v next] mig] term]. cbn [snd]. intros Ht Hlt.
  destruct (prepareTopology next) as [|p]; [done|]. unfold compareAndSetTopology. by rewrite (past_term_refused v p term r).
Qed.

Section server.
Context (P : Redis -> Prop).
Hypothesis Hdata : forall r r', same_control r r' -> P r -> P r'.

Lemma late_cas v next mig term :
  (forall r, P r -> P (match prepareTopology next with
                       | inl _ => r
                       | inr p => (compareAndSetTopology v p mig term (sort_strings (elements (dom (t_Owners p)))) r).2
                       end)) ->
  safeR P (compareAndSaveTopology v next mig term) (fun _ => True).
Proof.
  intros HP. unfold compareAndSaveTopology. destruct (prepareTopology next) as [err|p]; [by apply safeR_ret|].
  case_match; [by apply safeR_ret|]. case_match; [by apply safeR_ret|]. cbv zeta.
  eapply (safeR_bind _ _ _ (fun _ => True)); [unfold orErr; eapply (safeR_bind _ _ _ (fun _ => True))|].
  - by apply safeR_cmd.
  - intros [a|] _; by apply safeR_ret.
  - intros [err|a] _; by apply safeR_ret.
Qed.

Lemma publish_safe v : safeR P (PublishTopologyChanged v) (fun _ => True).
Proof.
  unfold PublishTopologyChanged. case_match; [by apply safeR_ret|]. apply safeR_write. intros r. by apply Hdata.
Qed.

(** A landing commit does to the server what its script does. *)
Lemma land_safe l :
  (forall r, P r -> P (late_effect l r)) -> safe (S := S) (fun _ => True) P (fun _ => True) (land l) (fun _ => True).
Proof.
  intros Hl.
  assert (Hcas : forall v next mig term, late_args l = (v, next, mig, term) ->
    safeR P (compareAndSaveTopology v next mig term) (fun _ => True)).
  { intros v next mig term E. apply late_cas. intros r Hr. specialize (Hl r Hr). unfold late_effect in Hl. by rewrite E in Hl. }
  assert (Hpub : forall v, safe (S := S) (fun _ => True) P (fun _ => True) (storeErr CErrPublish (PublishTopologyChanged v)) (fun _ => True)).
  { intros v. unfold storeErr. eapply safe_bind; [apply safe_onRedis, publish_safe|]. intros [err|a] _; by apply safe_ret. }
  destruct l as [v next term m f s|initial term]; cbn [land].
  - eapply safe_try with (Q := fun _ => True); [|done|intros; apply Hpub]. unfold storeErr.
    eapply safe_bind with (Q := fun _ => True); [apply safe_onRedis|intros [err|a] _; by apply safe_ret].
    unfold CompareAndSaveTopologyAndMigrateSessionsForLeader. destruct (_ || _); [by apply safeR_ret|].
    destruct (migration_args_bad _ _ _); [by apply safeR_ret|]. by apply Hcas.
  - eapply safe_bind with (Q := fun _ => True); [apply safe_onRedis|].
    + unfold CompareAndSaveTopologyForLeader. destruct (_ || _); [by apply safeR_ret|]. by apply Hcas.
    + intros [[]|a] _; first [apply Hpub|by apply safe_ret].
Qed.
End server.
End flight.
