(* ===== verification/CoordinatorProcess.v ===== *)
(** * The process of a coordinator

    [cmd/coordinator/main.go] over [Leadership]: closing, by a signal or through the
    endpoint that drains it.  Once its root context is cancelled, a coordinator never
    leads again and sends no new commit; a commit that had passed its last check of
    the term may still arrive.  Between closing and that moment it may be elected once
    more. *)

From Stdlib Require Import ZArith Lia String.
From stdpp Require Import base sorting gmap strings list option relations.
From S2P Require Import Prelude Protocol Config Maps World WorldOps WorldProps Topology Redis Store StoreProps Elector Coordinator CoordinatorProps CoordinatorRuns Leadership CoordinatorFlight Lifecycle.

Open Scope Z_scope.
Open Scope go_scope.

Section process.
Context {S : Type} {clients : CoordinatorNodeClient S}.
Abbreviation CT := (Control (S := S)).

(** [Close]: what [CloseCoordinator] does and the resignation, once. *)
Definition Close : ST CT unit := fun c =>
  if co_closed (co (ctl_coord c)) then Some (tt, c) else
  '(_, s) ← run_coord_op CoordClose (asking (fun _ => ctl_elector c) (ctl_coord c));
  c' ← with_elector (run_eop EResign) (fun _ c => c) (mkControl s (ctl_elector c) (ctl_phase c) (ctl_cancelled c));
  Some (tt, c').

(** The process: its flag, its coordinator, whether [main] has been told to end, and
    the commits that are under way. *)
Record CoordProc := mkCoordProc {
  cp_draining : bool;
  cp_control : CT;
  cp_ending : bool;
  cp_flight : list late_commit
}.

Definition set_cp_draining (v : bool) (p : CoordProc) : CoordProc :=
  mkCoordProc v (cp_control p) (cp_ending p) (cp_flight p).
Definition set_cp_control (c : CT) (p : CoordProc) : CoordProc :=
  mkCoordProc (cp_draining p) c (cp_ending p) (cp_flight p).
Definition set_cp_flight (l : list late_commit) (p : CoordProc) : CoordProc :=
  mkCoordProc (cp_draining p) (cp_control p) (cp_ending p) l.

(** [serveCoordinatorLifecycle] *)
Definition coordinator_callbacks : Callbacks CoordProc Empty_set := {|
  cb_Status := Some (draining ← gets cp_draining; mret (mkLifeStatus draining 0));
  cb_Ready := Some (draining ← gets cp_draining; mret (negb draining));
  cb_Drain := Some (
    draining ← gets cp_draining;
    if (draining : bool) then ok tt else
    _ ← modify (set_cp_draining true);
    _ ← zoom cp_control set_cp_control Close;
    ok tt)
|}.

(** [main] after the first signal: the deferred [Close]. *)
Definition coordinator_signal : ST CoordProc unit :=
  _ ← modify (fun p => mkCoordProc (cp_draining p) (cp_control p) true (cp_flight p));
  zoom cp_control set_cp_control Close.

(** A request to the endpoints, a signal, a step of the coordinator. *)
Inductive coordinator_event :=
  | CoordinatorRequest (path method : string)
  | CoordinatorSignal.

Definition coordinator_life (ev : coordinator_event) : ST CoordProc (option (LifeResponse Empty_set)) :=
  match ev with
  | CoordinatorRequest path method => NewHandler coordinator_callbacks path method
  | CoordinatorSignal => _ ← coordinator_signal; mret None
  end.

(** The operations that end in a commit. *)
Inductive committing :=
  | FailsOver (mapID failedNodeID : string)
  | Bootstraps (nodes : list NodeRegistryInfo).

Definition prepare (op : committing) : ST (CoordSt S) (coord_err + option late_commit) :=
  match op with
  | FailsOver mapID failedNodeID => failover_prepare mapID failedNodeID
  | Bootstraps nodes => bootstrap_prepare nodes
  end.

(** The writes of an operation that may be under way besides a commit: to the boss,
    its lock and the channels. *)
Inductive tail_command : forall {A}, RM A -> Prop :=
  | tail_publish v : tail_command (PublishTopologyChanged v)
  | tail_boss hp st : tail_command (InitGlobalBoss hp st)
  | tail_lock : tail_command TryLockBossRespawn
  | tail_event channel text : tail_command (PublishEvent channel text).

(** A step of the process: a request or a signal; a step of the coordinator, whose
    operations run as a whole; and, since an operation can be overtaken by the
    closing, also the parts of one: a commit takes off when the operation has checked
    its term for the last time, it lands at any later time, and one of the other
    writes arrives. *)
Inductive coordinator_proc_step (limit : Z) : CoordProc -> CoordProc -> Prop :=
  | cps_event ev o p p' : coordinator_life ev p = Some (o, p') -> coordinator_proc_step limit p p'
  | cps_control c' p : control_step limit (cp_control p) c' -> coordinator_proc_step limit p (set_cp_control c' p)
  | cps_takeoff op h p l s' e' :
      let c := cp_control p in
      history (ctl_cancelled c) h (ctl_elector c) -> (forall n, Term (h n) <= limit) ->
      prepare op (asking h (ctl_coord c)) = Some (inr (Some l), s') ->
      rtc (elector_moves (ctl_cancelled c)) (h (in_pos (ci s'))) e' -> Term e' <= limit ->
      coordinator_proc_step limit p
        (set_cp_flight (cp_flight p ++ [l]) (set_cp_control (mkControl s' e' (ctl_phase c) (ctl_cancelled c)) p))
  | cps_land i l p r s' :
      let c := cp_control p in
      cp_flight p !! i = Some l -> land l (ctl_coord c) = Some (r, s') ->
      coordinator_proc_step limit p
        (set_cp_flight (delete i (cp_flight p)) (set_cp_control (mkControl s' (ctl_elector c) (ctl_phase c) (ctl_cancelled c)) p))
  | cps_tail {A} (m : RM A) p r n :
      let c := cp_control p in
      tail_command m -> m (ct (ctl_coord c)) = Some (r, n) ->
      coordinator_proc_step limit p
        (set_cp_control (mkControl (set_net n (ctl_coord c)) (ctl_elector c) (ctl_phase c) (ctl_cancelled c)) p).

(** ** Closing is a run of the coordinator *)

Lemma with_elector_run {A} (m : EM A) k (c c' : CT) :
  with_elector m k c = Some c' -> exists a e n, m (ctl_elector c, ct (ctl_coord c)) = Some (a, (e, n)) /\
    c' = k a (mkControl (set_net n (ctl_coord c)) e (ctl_phase c) (ctl_cancelled c)).
Proof. unfold with_elector. destruct (m _) as [[a [e n]]|]; [|done]. intros [= <-]. by exists a, e, n. Qed.

Lemma CloseCoordinator_closed (s : CoordSt S) : wlp CloseCoordinator (fun _ s' => co_closed (co s') = true) s.
Proof.
  unfold CloseCoordinator. apply wlp_bind, wlp_gets. unfold id. destruct (co_closed (co s)) eqn:E; [by apply wlp_ret|].
  apply wlp_bind. intros l s1 Hl. assert (co s1 = co s) as Hs1 by (unfold rangeCo, range_order in Hl; by simplify_eq).
  apply wlp_bind, wlp_modify. apply wlp_foldM; [|done]. intros [] x t _ Ht. apply wlp_zoom. by intros u q _.
Qed.

Lemma Term_dead e : ctx_alive e = false -> Term e = 0.
Proof. unfold Term. intros ->. by rewrite orb_true_r. Qed.

Lemma dead_cancelled e : ctx_alive (under true e) = false.
Proof. unfold under, ctx_alive. cbn. by destruct (el_leaderCtx e). Qed.

(** The operations of the goroutines that renew and resign never revive a context. *)
Lemma dead_stays op e n :
  match op with ERenew _ | ELoopEnds | EResign => True | _ => False end -> ctx_alive e = false ->
  wlp (run_eop op) (fun _ s => ctx_alive s.1 = false) (e, n).
Proof.
  intros Hop He. assert (Hc : forall e0 b t x, ctx_alive (set_el_lease b t x (cancel_ctx (el_leaderCtx e0)) e0) = false)
    by (intros e0 b t x; unfold ctx_alive; cbn; by destruct (el_leaderCtx e0)).
  assert (Hnet : forall {A} (m : RM A) (s : RedisElector * Net) (Q : A -> RedisElector * Net -> Prop),
    (forall a n', Q a (s.1, n')) -> wlp (netE m) Q s) by (intros A m s Q HQ; apply wlp_zoom; intros a n' _; apply HQ).
  destruct op as [| | |now| |]; try done; cbn [run_eop].
  - unfold renewLoop_tick, renew. do 2 apply wlp_bind. apply wlp_gets, wlp_bind, Hnet. intros [v|] n'; cbn [fst].
    + apply wlp_bind. destruct (v =? 1); [apply wlp_modify, wlp_ret, wlp_ret; cbn [fst]; by destruct (el_leader e)|].
      apply wlp_ret, wlp_ret, wlp_modify. apply Hc.
    + apply wlp_ret, wlp_modify. apply Hc.
  - unfold renewLoop_cancelled, releaseToken. apply wlp_bind, wlp_modify. do 2 apply wlp_bind. apply wlp_gets, wlp_bind, Hnet.
    intros o n'. apply wlp_ret, wlp_modify. apply Hc.
  - unfold Resign, releaseToken. apply wlp_bind, wlp_bind, wlp_modify. do 2 apply wlp_bind. apply wlp_gets, wlp_bind, Hnet.
    intros o n'. apply wlp_ret. destruct o; apply wlp_ret, wlp_ret; apply Hc.
Qed.

(** ** After the root context is cancelled *)

(** [rootCtx] is cancelled, and with it the leader context. *)
Definition cancel (c : CT) : CT := mkControl (ctl_coord c) (under true (ctl_elector c)) (ctl_phase c) true.

Definition dark (c : CT) : Prop := ctl_cancelled c = true /\ ctx_alive (ctl_elector c) = false.

Lemma dark_cancel c : dark (cancel c).
Proof. split; [done|apply dead_cancelled]. Qed.

Lemma dark_history h e : ctx_alive e = false -> history true h e -> forall n, ctx_alive (h n) = false.
Proof.
  intros He [H0 Hn] n. induction n as [|n IH]; [by rewrite H0|]. specialize (Hn n).
  apply rtc_inv_r in Hn as [<-|(e1 & _ & op & m & e2 & m' & _ & ->)]; [done|apply dead_cancelled].
Qed.

Lemma dark_moves e e' : ctx_alive e = false -> rtc (elector_moves true) e e' -> ctx_alive e' = false.
Proof. intros He Hm. apply rtc_inv_r in Hm as [<-|(e1 & _ & op & m & e2 & m' & _ & ->)]; [done|apply dead_cancelled]. Qed.

(** In [leaderLoop] a leader is being set up or at work. *)
Definition busy (p : phase) : bool := match p with AtBoss | Working _ => true | _ => false end.

Lemma dark_loop ev c c' :
  dark c -> match ev with LoopTerm h => history (ctl_cancelled c) h (ctl_elector c) | _ => True end ->
  leaderLoop_step ev c = Some c' -> dark c' /\ (busy (ctl_phase c') = true -> busy (ctl_phase c) = true).
Proof.
  intros [Hc He] Hh. unfold leaderLoop_step.
  destruct (ctl_phase c) as [| | | | | |[|w0 ws]|] eqn:Hp, ev as [|now| | | |h|w|]; try done.
  - rewrite Hc. by intros [= <-].
  - intros (r & e & n & _ & ->)%with_elector_run. unfold dark, derived. cbn. rewrite Hc.
    destruct r as [err|[]]; cbn; (split; [split; [done|apply (dead_cancelled e)]|by destruct (ctl_cancelled c)]).
  - rewrite Hc. intros (r & e & n & [= <- <- <-] & ->)%with_elector_run. unfold dark. cbn. by rewrite Hc.
  - by intros [= <-].
  - rewrite Hc. by intros [= <-].
  - rewrite Hc in Hh. pose proof (dark_history _ _ He Hh) as Hd.
    destruct (currentLeaderTerm _) as [[[term|] s]|] eqn:E; [|intros [= <-]; split; [split; [done|apply Hd]|done]|done].
    exfalso. unfold currentLeaderTerm, ask in E. cbv [mbind st_bind mret st_ret] in E. cbn [asking ci in_Term in_pos] in E.
    rewrite (Term_dead _ (Hd 0%nat)) in E. discriminate E.
  - case_match; [|done]. intros [= <-]. by split.
  - case_match; [|done]. intros [= <-]. by split.
Qed.

(** A step of a cancelled coordinator asks its elector in vain. *)
Lemma dark_step limit c c' :
  dark c -> control_step limit c c' ->
  control_step 0 c c' /\ dark c' /\ (busy (ctl_phase c') = true -> busy (ctl_phase c) = true).
Proof.
  intros [Hc He] Hstep. destruct Hstep as [op h c s' e' Hmay Hh Hterm Hrun Hm Hlim|op c c' Hop Hw Hlim|c e' Hcl ->|ev c c' Hh Hl Hlim].
  - rewrite Hc in Hh, Hm. pose proof (dark_history _ _ He Hh) as Hd. assert (Hd' : ctx_alive e' = false) by (eapply dark_moves; [apply Hd|done]).
    split; [|split; [by split|]].
    + apply (ctl_op 0 op h); rewrite ?Hc; auto; [intros n; by rewrite Term_dead|by rewrite Term_dead].
    + cbn [ctl_phase]. destruct op; cbn [phase_after]; try done; [|by case_match].
      intros _. cbn in Hmay. by destruct (ctl_phase c).
  - assert (Hd : ctx_alive (ctl_elector c') = false /\ ctl_cancelled c' = ctl_cancelled c /\ ctl_phase c' = ctl_phase c).
    { apply with_elector_run in Hw as (u & e & n & Hrun & ->). cbn. split; [|done].
      refine (dead_stays op (ctl_elector c) (ct (ctl_coord c)) _ He u (e, n) Hrun). by destruct op. }
    destruct Hd as (Hd & Hc' & Hp). split; [|split; [split; [congruence|done]|congruence]].
    apply (ctl_renewal 0 op); [done|done|by rewrite Term_dead].
  - split; [by apply ctl_cancel|]. split; [split; [done|apply (dead_cancelled (ctl_elector c))]|done].
  - destruct (dark_loop ev c c' (conj Hc He) Hh Hl) as [Hd Hb]. split; [|done].
    apply (ctl_loop 0 ev); [done|done|]. rewrite Term_dead; [done|apply Hd].
Qed.

Lemma Close_run limit c u c' : 0 <= limit -> Term (ctl_elector c) <= limit -> Close c = Some (u, c') -> rtc (control_step limit) c c'.
Proof.
  intros H0 Hlim. unfold Close. destruct (co_closed (co (ctl_coord c))); [intros [= _ <-]; apply rtc_refl|].
  destruct (run_coord_op CoordClose _) as [[[] s]|] eqn:Hrun; [|done]. cbn.
  destruct (with_elector _ _ _) as [c1|] eqn:Hw; [|done]. cbn. intros [= _ <-].
  assert (Hcl : co_closed (co s) = true) by (by eapply CloseCoordinator_closed).
  eapply rtc_l; [apply (ctl_op limit CoordClose (fun _ => ctl_elector c) c s (ctl_elector c)); auto using rtc_refl; by split; auto using rtc_refl|].
  apply rtc_once, (ctl_renewal limit EResign); [exact Hcl|exact Hw|].
  apply with_elector_run in Hw as (r & e & n & Hres & ->). cbn. cbn in Hres.
  assert (Hl : wlp (run_eop EResign) (fun _ s => el_leader s.1 = false) (ctl_elector c, ct s)).
  { cbn [run_eop]. unfold Resign, releaseToken. apply wlp_bind, wlp_bind, wlp_modify. do 2 apply wlp_bind. apply wlp_gets, wlp_bind, wlp_zoom.
    intros o m _. apply wlp_ret. destruct o; by apply wlp_ret, wlp_ret. }
  specialize (Hl _ _ Hres). cbn in Hl. unfold Term. by rewrite Hl.
Qed.

Lemma Close_dark c u c' : dark c -> Close c = Some (u, c') ->
  rtc (control_step 0) c c' /\ dark c' /\ (busy (ctl_phase c') = true -> busy (ctl_phase c) = true).
Proof.
  intros Hd Hcl. assert (Hrun : rtc (control_step 0) c c').
  { eapply Close_run; [done| |exact Hcl]. by rewrite Term_dead; [|apply Hd]. }
  split; [exact Hrun|]. clear Hcl. induction Hrun as [|c1 c2 c3 Hstep _ IH]; [by split|].
  destruct (dark_step _ _ _ Hd Hstep) as (_ & Hd2 & Hb). destruct (IH Hd2) as [? ?]. split; [done|auto].
Qed.

(** ** Drained coordinators *)

(** A run of the coordinator that starts no leader's work. *)
Definition darkens (c c' : CT) : Prop :=
  rtc (control_step 0) c c' /\ dark c' /\ (busy (ctl_phase c') = true -> busy (ctl_phase c) = true).

Lemma darkens_refl c : dark c -> darkens c c.
Proof. intros Hd. split; [apply rtc_refl|by split]. Qed.
Lemma darkens_trans c1 c2 c3 : darkens c1 c2 -> darkens c2 c3 -> darkens c1 c3.
Proof. intros (R1 & D1 & B1) (R2 & D2 & B2). split; [by etrans|]. split; [done|auto]. Qed.

(** Requests and signals. *)
Lemma life_darkens event o p p' :
  dark (cp_control p) -> coordinator_life event p = Some (o, p') ->
  darkens (cp_control p) (cp_control p') /\ cp_flight p' = cp_flight p.
Proof.
  intros Hd Hrun. set (R := fun q => darkens (cp_control p) (cp_control q) /\ cp_flight q = cp_flight p).
  assert (Hzoom : forall q, R q -> wlp (zoom cp_control set_cp_control Close) (fun _ q' => R q') q).
  { intros q [Hq Hf]. apply wlp_zoom. intros u c' Hc. split; [|done]. cbn. eapply darkens_trans; [exact Hq|].
    apply (Close_dark _ u); [apply Hq|exact Hc]. }
  assert (H0 : R p) by (split; [by apply darkens_refl|done]).
  enough (H : wlp (coordinator_life event) (fun _ q => R q) p) by (by eapply H).
  destruct event as [path method|]; cbn [coordinator_life].
  - apply (NewHandler_keeps _ R); [..|done]; intros f [= <-] q Hq.
    + by apply wlp_bind, wlp_gets, wlp_ret.
    + by apply wlp_bind, wlp_gets, wlp_ret.
    + apply wlp_bind, wlp_gets. case_match; [by apply wlp_ret|]. apply wlp_bind, wlp_modify, wlp_bind.
      eapply wlp_mono; [by apply Hzoom|]. intros u q' Hq'. by apply wlp_ret.
  - apply wlp_bind. unfold coordinator_signal. apply wlp_bind, wlp_modify. eapply wlp_mono; [by apply Hzoom|].
    intros u q' Hq'. by apply wlp_ret.
Qed.

(** No commit takes off without a term. *)
Lemma dark_no_takeoff op h (s : CoordSt S) l s' :
  Term (h 0%nat) = 0 -> prepare op (asking h s) <> Some (inr (Some l), s').
Proof.
  intros H0. assert (Hno : exists s1, currentLeaderTerm (asking h s) = Some (None, s1)).
  { unfold currentLeaderTerm, ask. cbv [mbind st_bind mret st_ret]. cbn [asking ci in_Term in_pos]. rewrite H0. cbn. eauto. }
  destruct Hno as [s1 Hno]. destruct op; cbn [prepare]; unfold failover_prepare, bootstrap_prepare, mbind at 1, st_bind;
    by rewrite Hno.
Qed.

(** What a cancelled coordinator has kept since [c] with the commits [fl] under way. *)
Section silent.
Context (P : Redis -> Prop) (c : CT) (fl : list late_commit).
Hypothesis Hdata : forall r1 r2, same_control r1 r2 -> P r1 -> P r2.
Hypothesis Hfl : forall l r, l ∈ fl -> P r -> P (late_effect l r).

Definition silent (p : CoordProc) : Prop :=
  silenced P 0 (cp_control p) /\ dark (cp_control p) /\ (busy (ctl_phase (cp_control p)) = true -> busy (ctl_phase c) = true)
  /\ cp_flight p ⊆+ fl.

Lemma silent_run p p' :
  silent p -> darkens (cp_control p) (cp_control p') -> cp_flight p' = cp_flight p -> silent p'.
Proof.
  intros (Hs & _ & Hb & Hf) (Hrun & Hd & Hb') Hf'. split_and!; [|done|auto|by rewrite Hf'].
  clear - Hs Hrun Hdata. induction Hrun as [|c1 c2 c3 Hstep _ IH]; [done|]. apply IH. by eapply silenced_step.
Qed.

Lemma silent_net p (s : CoordSt S) fl' :
  let c0 := cp_control p in
  silent p -> server_keeps (deposed P 0) (ct s) -> fl' ⊆+ cp_flight p ->
  silent (set_cp_flight fl' (set_cp_control (mkControl s (ctl_elector c0) (ctl_phase c0) (ctl_cancelled c0)) p)).
Proof. intros c0 ([_ Ht] & Hd & Hb & Hf) Hk Hsub. split; [by split|]. split; [exact Hd|]. split; [exact Hb|]. cbn. by etrans. Qed.

Lemma deposed_data r r' : same_control r r' -> deposed P 0 r -> deposed P 0 r'.
Proof. intros Hs [HP _]. split; [by eapply Hdata|lia]. Qed.

Lemma tail_safe {A} (m : RM A) : tail_command m -> safeR (deposed P 0) m (fun _ => True).
Proof.
  destruct (quietR_others P 0 Hdata) as (_ & H1 & H2 & H3 & H4). by intros [].
Qed.

Lemma silent_step limit p p' : coordinator_proc_step limit p p' -> silent p -> silent p'.
Proof.
  intros Hstep Hp. pose proof Hp as ((Hk & Ht) & Hd & Hb & Hf).
  destruct Hstep as [event o p p' Hrun|c' p Hstep|op h p l s' e' c0 Hh _ Hrun _ _|i l p r s' c0 Hl Hrun|A m p r n c0 Hm Hrun].
  - destruct (life_darkens event o p p' Hd Hrun). by eapply silent_run.
  - destruct (dark_step _ _ _ Hd Hstep) as (Hs & Hd' & Hb'). eapply silent_run; [exact Hp| |done].
    split; [by apply rtc_once|by split].
  - exfalso. destruct Hd as [Hc He]. subst c0. rewrite Hc in Hh. pose proof (dark_history _ _ He Hh 0%nat) as H0.
    by apply (dark_no_takeoff op h _ l s' (Term_dead _ H0)) in Hrun.
  - apply silent_net; [done| |by apply submseteq_delete].
    assert (Hin : l ∈ fl) by (eapply elem_of_submseteq; [by eapply list_elem_of_lookup_2|done]).
    refine (proj1 (proj2 (proj1 (land_safe (deposed P 0) deposed_data l _ (ctl_coord c0) r s' _ Hrun)))); [|by split_and!].
    intros r0 [HP _]. split; [by apply Hfl|lia].
  - pose proof (silent_net p (set_net n (ctl_coord c0)) (cp_flight p) Hp) as H. destruct p. apply H; [|done].
    cbn [set_net ct]. by apply (tail_safe m Hm _ _ _ Hk Hrun).
Qed.
End silent.

End process.

(** ** A concrete coordinator

    "c1" leads with a failover pending that would succeed ([demo_failover_succeeds]). *)

Definition demo_leading : Control :=
  mkControl (mkCoordSt (set_co_jobs [JobFailover "node-a"] demo_coordinator)
               (quiet (demo_server 3 (Some ("c1", 6 * Second)) (30 * Second) Second)) demo_env demo_inputs tt)
    (demo_elected "c1" 3) (Working [DiscoveryLoop; HeartbeatLoop; BossLoop]) false.

(** The failover has checked its term for the last time. *)
Definition demo_late : option (late_commit * CoordSt unit) :=
  match prepare (FailsOver "demo" "node-a") (asking (fun _ => ctl_elector demo_leading) (ctl_coord demo_leading)) with
  | Some (inr (Some l), s) => Some (l, s)
  | _ => None
  end.

Definition demo_process : CoordProc :=
  match demo_late with
  | Some (l, s) => mkCoordProc false (mkControl s (ctl_elector demo_leading) (ctl_phase demo_leading) false) false [l]
  | None => mkCoordProc false demo_leading false []
  end.

(** After the drain, closed and resigned; then with its root context cancelled. *)
Definition demo_closing : CoordProc :=
  match coordinator_life (CoordinatorRequest "/drain" MethodPost) demo_process with Some (_, p) => p | None => demo_process end.
Definition demo_drained : CoordProc := set_cp_control (cancel (cp_control demo_closing)) demo_closing.

Lemma demo_closing_others : n_other (ct (ctl_coord (cp_control demo_closing))) = fun _ r => r.
Proof. vm_compute. reflexivity. Qed.

(** The commit is under way when the context is cancelled, and it arrives. *)
Lemma demo_lands :
  match cp_flight demo_drained with
  | [l] => match land l (ctl_coord (cp_control demo_drained)) with
           | Some (inr tt, s) => bool_decide (t_Version <$> (r_topology (n_redis (ct s)) ≫= (fun d => match d with Good t => Some t | Corrupt => None end))
                                              = Some (t_Version demo_topology + 1))
           | _ => false
           end
  | _ => false
  end = true.
Proof. vm_compute. reflexivity. Qed.

Lemma late_effect_checkpoints l r : r_checkpoints (late_effect l r) = r_checkpoints r.
Proof.
  unfold late_effect. destruct (late_args l) as [[[v next] mig] term]. destruct (prepareTopology next); [done|].
  unfold compareAndSetTopology. repeat (case_match; try done).
Qed.


(** A run of the loop while the elector's other goroutines stand still, for terms of
    at most [limit]. *)
Fixpoint run_loop {S} {clients : CoordinatorNodeClient S} (limit : Z) (events : list loop_event) (c : Control (S := S))
    : option Control :=
  match events with
  | [] => Some c
  | ev :: rest =>
      let ev := match ev with LoopTerm _ => LoopTerm (fun _ => ctl_elector c) | _ => ev end in
      c' ← leaderLoop_step ev c;
      if Term (ctl_elector c') <=? limit then run_loop limit rest c' else None
  end.

Lemma run_loop_steps {S} {clients : CoordinatorNodeClient S} limit events (c c' : Control (S := S)) :
  run_loop limit events c = Some c' -> rtc (control_step limit) c c'.
Proof.
  revert c. induction events as [|ev rest IH]; intros c; cbn [run_loop]; [intros [= ->]; apply rtc_refl|].
  set (ev' := match ev with LoopTerm _ => _ | _ => _ end). destruct (leaderLoop_step ev' c) as [c1|] eqn:E; [|done].
  cbn. destruct (Z.leb_spec (Term (ctl_elector c1)) limit) as [Hl|]; [|done]. intros H.
  eapply rtc_l; [|by apply IH]. apply (ctl_loop limit ev'); [|done|done].
  by destruct ev.
Qed.

Definition demo_closed : Control := match Close demo_leading with Some (_, c) => c | None => demo_leading end.
Definition demo_again : option Control :=
  run_loop 4 [LoopReturns DiscoveryLoop; LoopReturns HeartbeatLoop; LoopReturns BossLoop; LoopJoin; LoopHead; LoopAttempt Second]
    demo_closed.
Definition demo_ended : option Control :=
  c ← demo_again; run_loop 4 [LoopTerm (fun _ => ctl_elector c); LoopHead] (cancel c).

Lemma demo_closed_run : rtc (control_step 4) demo_leading demo_closed.
Proof.
  unfold demo_closed. destruct (Close demo_leading) as [[u c]|] eqn:Ec; [|apply rtc_refl].
  refine (Close_run 4 demo_leading u c _ _ Ec); apply Z.leb_le; vm_compute; reflexivity.
Qed.

(** Closing does not end the campaign: the lease is released before the root context
    is cancelled (by another goroutine), so [leaderLoop] may come round and be elected
    once more; when the cancellation then ends it, nobody releases that lease, which
    keeps every other coordinator out until it expires. *)
Theorem closed_coordinator_keeps_lease :
  exists c1 c2, rtc (control_step 4) demo_leading c1 /\ rtc (control_step 4) c1 c2 /\
    co_closed (co (ctl_coord c1)) = true /\ IsLeader (ctl_elector c1) = true /\
    ctl_phase c2 = Ended /\ live (n_redis (ct (ctl_coord c2))) (r_lease (n_redis (ct (ctl_coord c2)))) = Some "c1".
Proof.
  assert (H : match demo_again, demo_ended with
    | Some c1, Some c2 => co_closed (co (ctl_coord c1)) && IsLeader (ctl_elector c1) && match ctl_phase c2 with Ended => true | _ => false end
        && bool_decide (live (n_redis (ct (ctl_coord c2))) (r_lease (n_redis (ct (ctl_coord c2)))) = Some "c1")
    | _, _ => false end = true) by (vm_compute; reflexivity).
  unfold demo_ended in H. destruct demo_again as [c1|] eqn:E1; [|discriminate]. cbn [mbind option_bind] in H.
  destruct (run_loop 4 _ (cancel c1)) as [c2|] eqn:E2; [|discriminate].
  apply andb_true_iff in H as [[[Hcl Hl]%andb_true_iff Hph]%andb_true_iff Hlease].
  exists c1, c2. split; [etrans; [exact demo_closed_run|exact (run_loop_steps _ _ _ _ E1)]|].
  split; [eapply rtc_l; [|exact (run_loop_steps _ _ _ _ E2)]|].
  - apply (ctl_cancel 4 c1); done.
  - split_and!; [done|done| |by apply bool_decide_eq_true in Hlease]. by destruct (ctl_phase c2).
Qed.
