(* ===== verification/Handover.v ===== *)
(** * Handing over the maps of a draining node

    The way through all the parts: a node that drains registers as draining, the
    leader's next discovery starts a failover for it, the failover moves each of its
    maps to a standby in one commit, the node reads the new topology and its drain
    succeeds.  The theorems of the single parts say that nothing wrong happens under
    any interference; here nothing interferes, and the right thing happens. *)

From Stdlib Require Import ZArith Lia String.
From stdpp Require Import base sorting gmap strings list option relations.
From S2P Require Import Prelude Protocol Config Maps World WorldOps WorldProps Topology Redis Store StoreProps Authority Node NodeProps Coordinator CoordinatorProps Lifecycle NodeProcess.

Open Scope Z_scope.
Open Scope go_scope.

(** ** Calm weather *)

(** A connection on which every command is answered and nobody else acts. *)
Definition calm (r : Redis) (k : nat) : Net := mkNet r (fun _ => F_ok) (fun _ r => r) k.

Lemma wp_calm {A} (f : Redis -> A * Redis) r k (Q : option A -> Net -> Prop) :
  Q (Some (f r).1) (calm (f r).2 (S k)) -> wp (cmd f) Q (calm r k).
Proof. intros HQ. unfold wp, cmd, calm. cbn. by destruct (f r). Qed.

Lemma wp_calm_read {A} (f : Redis -> A) r k (Q : option A -> Net -> Prop) :
  Q (Some (f r)) (calm r (S k)) -> wp (read f) Q (calm r k).
Proof. intros HQ. by apply wp_calm. Qed.

Lemma wp_calm_LoadTopology topology r k (Q : store_err + option Topology -> Net -> Prop) :
  r_topology r = Some (Good topology) -> valid_topology None topology -> Q (inr (Some topology)) (calm r (S k)) ->
  wp LoadTopology Q (calm r k).
Proof.
  intros Ht Hv HQ. unfold LoadTopology. rm_steps. apply wp_calm_read. rewrite Ht, (proj2 (Validate_None None topology) Hv).
  rm_steps. by rewrite Normalize_id.
Qed.

(** The registrations that are live. *)
Definition live_registration (r : Redis) (info : NodeRegistryInfo) : Prop :=
  exists k, live r (r_nodes r !! k) = Some (Good info).

Lemma wp_calm_GetActiveNodes scan r k (Q : store_err + list NodeRegistryInfo -> Net -> Prop) :
  (forall l x, x ∈ l -> x ∈ scan l) ->
  (forall nodes k', (forall info, live_registration r info <-> info ∈ nodes) -> Q (inr nodes) (calm r k')) ->
  wp (GetActiveNodes scan) Q (calm r k).
Proof.
  intros Hscan HQ. unfold GetActiveNodes. rm_steps. apply wp_calm_read. rm_steps.
  eapply wp_mono; [apply (wp_foldM_prefix _ (fun seen nodes t => (exists k', t = calm r k') /\
    forall info, info ∈ nodes <-> exists k, k ∈ seen /\ live r (r_nodes r !! k) = Some (Good info)))|].
  - intros pre nodes x post t _ [[k' ->] Hn]. rm_steps. apply wp_calm_read. rm_steps. split; [eauto|]. intros info.
    setoid_rewrite elem_of_app. setoid_rewrite list_elem_of_singleton.
    destruct (live r (r_nodes r !! x)) as [[info'|]|] eqn:E; rewrite ?elem_of_app, ?list_elem_of_singleton, Hn; naive_solver.
  - split; [eauto|]. intros info. split; [by intros ?%elem_of_nil|by intros (? & ?%elem_of_nil & _)].
  - intros nodes t [[k' ->] Hn]. rm_steps. apply HQ. intros info. rewrite Hn. split; [|by intros (x & _ & ?); exists x].
    intros [x Hx]. exists x. split; [|done]. apply Hscan. unfold live_nodes. apply list_elem_of_filter. split; [by rewrite Hx|].
    unfold map_keys. apply list_elem_of_fmap. unfold live in Hx. destruct (r_nodes r !! x) as [v|] eqn:E; [|done].
    exists (x, v). split; [done|]. by apply elem_of_map_to_list.
Qed.

(** ** The commit *)

Lemma bad_name_nonempty s : bad_name s = false -> s <> "".
Proof. by intros H ->. Qed.

(** A topology with one map moved is valid and may follow the one it was made from. *)
Lemma moved_valid topology m standby e term updated :
  valid_topology None topology -> t_Owners topology !! m <> None -> bad_name standby = false -> 0 < e -> updated <> 0 ->
  0 <= t_Version topology < 10^14 - 1 -> valid_topology None (moved_topology topology m standby e term updated).
Proof.
  intros [Hv Hu Hn Hk Ho He] Hm Hs Hpos Hupd Hver. unfold moved_topology. rewrite Clone_id.
  assert (Hdom : dom (<[m:=standby]> (t_Owners topology)) ∪ dom (<[m:=e]> (t_MapEpochs topology))
    = dom (t_Owners topology) ∪ dom (t_MapEpochs topology)).
  { rewrite !dom_insert_L. assert (m ∈ dom (t_Owners topology)) by (apply elem_of_dom, not_eq_None_Some, Hm). set_solver. }
  constructor; cbn; rewrite ?Hdom; auto; try done.
  - rewrite u64_small; lia.
  - intros k o. rewrite lookup_insert_Some. intros [[_ <-]|[_ ?]]; [by right|by eapply Ho].
  - intros k Hk'. destruct (decide (k = m)) as [->|]; [exists e; rewrite lookup_insert_eq; split; [done|lia]|].
    rewrite lookup_insert_ne by done. by apply He.
Qed.

Lemma moved_allowed topology m failed standby term updated e :
  t_Owners topology !! m = Some failed -> standby <> failed -> t_MapEpochs topology !! m = Some e -> t_LeaderTerm topology <= term ->
  0 <= t_Version topology < 10^14 - 1 -> allowed topology (moved_topology topology m standby (e + 1) term updated).
Proof.
  intros Ho Hne He Ht Hv. unfold moved_topology. rewrite Clone_id. constructor; cbn.
  - rewrite u64_small; lia.
  - done.
  - intros k ek Hk. destruct (decide (k = m)) as [->|Hkm].
    + exists (e + 1). rewrite !lookup_insert_eq, Ho. cbn. split; [done|]. assert (ek = e) by congruence. subst. split; [congruence|done].
    + exists ek. rewrite !lookup_insert_ne by done. split; [done|]. by split.
  - intros k e' Hk. rewrite lookup_insert_Some. intros [[-> _]|[_ ?]]; congruence.
Qed.

(** The script runs through when its guard lets it and no session is corrupt. *)
Lemma script_runs expectedVersion next migration leaderTerm mapIDs r :
  cas_guard expectedVersion next leaderTerm r = None -> (unpacked migration r <= r_unpack r)%nat ->
  session_updates migration r <> None -> (compareAndSetTopology expectedVersion next migration leaderTerm mapIDs r).1 = Reply 1.
Proof.
  intros Hg Hu Hup. unfold compareAndSetTopology. rewrite Hg. unfold unpacked in Hu.
  destruct (session_updates migration r) as [updates|]; [|done]. case_bool_decide; [done|].
  by rewrite (proj2 (Nat.leb_le _ _) Hu).
Qed.

Lemma wp_calm_cas expectedVersion next migration leaderTerm r k (Q : store_err + unit -> Net -> Prop) :
  cas_small expectedVersion next leaderTerm r -> (unpacked migration r <= r_unpack r)%nat -> 1 <= expectedVersion ->
  valid_topology None next -> may_commit expectedVersion next leaderTerm r -> session_updates migration r <> None ->
  (forall r', committed next migration r r' -> Q (inr tt) (calm r' (S k))) ->
  wp (compareAndSaveTopology expectedVersion next migration leaderTerm) Q (calm r k).
Proof.
  intros Hs Hu H1 Hv Hmay Hup HQ. pose proof (cs_version _ _ _ _ Hs) as Hver. pose proof (cs_expected _ _ _ _ Hs) as Hex.
  unfold compareAndSaveTopology. rewrite (proj2 (prepareTopology_inr next next) (conj eq_refl Hv)).
  rewrite (proj2 (Z.eqb_neq expectedVersion 0)) by lia. cbn [negb andb].
  assert ((t_Version next =? (expectedVersion +u 1)) = true)%go as -> by (apply Z.eqb_eq; rewrite u64_id; unfold in_u64; lia).
  cbn [negb]. cbv zeta. rm_steps. apply wp_calm. pose proof (script_spec _ _ migration _ _ Hs Hu) as Hspec.
  pose proof (script_runs _ _ migration _ (sort_strings (elements (dom (t_Owners next)))) _ (proj2 (cas_guard_spec _ _ _ _ Hs) Hmay) Hu Hup) as Hrun.
  destruct (compareAndSetTopology _ _ _ _ _ _) as [rep r']. cbn [fst snd] in *. subst rep. rm_steps. apply HQ.
  by apply (proj1 Hspec).
Qed.

(** ** What a failover needs *)

Section calm.
Context {S : Type} {clients : CoordinatorNodeClient S}.
Context (term : Z) (failed : string).

(** The elector confirms the term, SCAN shows every key, the clock is set. *)
Definition steady (i : Inputs) : Prop :=
  (forall k, in_Term i k = term) /\ (forall k, in_IsLeader i k = true) /\ (forall k l x, x ∈ l -> x ∈ in_scan i k l).
Definition ticking (e : Env) : Prop := forall k, clk e k <> 0.

Definition calm_at (c : Coordinator) (r : Redis) (s : CoordSt S) : Prop :=
  co s = c /\ (exists k, ct s = calm r k) /\ ticking (ce s) /\ steady (ci s).

(** A standby accepts the last checkpoint of the epoch before. *)
Definition accepting : Prop :=
  forall cl m cfg cp target q, cp_MapID cp = m -> cp_NodeID cp <> "" -> 0 < cp_Version cp -> target = cp_MapEpoch cp + 1 ->
    exists q', PromoteRPC cl m cfg cp target q = Some (true, q').

(** The server: a valid topology of an earlier term, sessions that can be read. *)
Record ready (r : Redis) (topology : Topology) : Prop := {
  rd_topology : r_topology r = Some (Good topology);
  rd_valid : valid_topology None topology;
  rd_term : r_term r = Some term /\ t_LeaderTerm topology <= term;
  rd_unpack : (2 * size (r_sessions r) <= r_unpack r)%nat;
  rd_sessions : map_Forall (fun _ d => d <> Corrupt) (r_sessions r);
  rd_names : forall info, live_registration r info -> bad_name (nr_ID info) = false
}.

(** A map that can be moved: configured, checkpointed by its owner in its epoch, with
    a healthy standby. *)
Record movable (c : Coordinator) (r : Redis) (m : string) (epoch : Z) : Prop := {
  mv_config : is_Some (mapConfig c m);
  mv_checkpoint : exists cp, r_checkpoints r !! m = Some (Good cp) /\ cp_MapID cp = m /\ cp_NodeID cp = failed /\
    cp_MapEpoch cp = epoch /\ 0 < cp_Version cp;
  mv_standby : exists info, live_registration r info /\ eligible c m failed info
}.

Hypothesis Hterm : 0 < term < 10^14.
Hypothesis Hfailed : failed <> "".
Hypothesis Haccept : accepting.

Abbreviation calmly c r m Q := (forall s, calm_at c r s -> wp m (fun a s' => Q a s') s).

Ltac calm_intro :=
  intros [c0 t e i p] (Hc & [k Hk] & He & Hi); cbn [co ct ce ci] in Hc, Hk, He, Hi; subst c0 t.

Lemma calm_term c r : calmly c r currentLeaderTerm (fun o s' => o = Some term /\ calm_at c r s').
Proof.
  calm_intro. destruct Hi as (Ht & Hl & Hs). unfold currentLeaderTerm, ask, wp.
  cbv [mbind st_bind mret st_ret]. cbn. rewrite Ht. destruct (Z.ltb_spec 0 term); [|lia]. cbn. rewrite Hl. cbn.
  split; [done|]. split_and!; try done; eauto.
Qed.

Lemma calm_has c r : calmly c r (hasLeaderTerm term) (fun b s' => b = true /\ calm_at c r s').
Proof.
  calm_intro. destruct Hi as (Ht & Hl & Hs). unfold hasLeaderTerm, ask, wp.
  cbv [mbind st_bind mret st_ret]. destruct (Z.ltb_spec 0 term); [|lia]. cbn. rewrite Hl. cbn. rewrite Ht, Z.eqb_refl.
  split; [done|]. split_and!; try done; eauto.
Qed.

Lemma calm_selfC c r : calmly c r (selfC id) (fun c' s' => c' = c /\ calm_at c r s').
Proof. intros s Hs. split; [apply Hs|done]. Qed.

Lemma calm_nowCo c r : calmly c r nowCo (fun t s' => t <> 0 /\ calm_at c r s').
Proof.
  calm_intro. apply wp_nowCo. intros e' [Hl _]. split; [apply He|].
  split; [done|]. split; [by exists k|]. split; [|done]. intros n. cbn [ce]. rewrite Hl. apply He.
Qed.

Lemma calm_onRedis {A} c r (m : RM A) (Q : A -> Redis -> Prop) :
  (forall k, wp m (fun a t => exists r' k', t = calm r' k' /\ Q a r') (calm r k)) ->
  calmly c r (onRedis m) (fun a s' => exists r', Q a r' /\ calm_at c r' s').
Proof.
  intros Hm. calm_intro. apply wp_onRedis. eapply wp_mono; [apply Hm|].
  intros a t' (r' & k' & -> & HQ). exists r'. split; [done|]. split_and!; try done; eauto.
Qed.

Lemma calm_storeErr {A} c r wrap (m : RM (store_err + A)) (Q : A -> Redis -> Prop) :
  (forall k, wp m (fun a t => exists x r' k', a = inr x /\ t = calm r' k' /\ Q x r') (calm r k)) ->
  calmly c r (storeErr wrap m) (fun a s' => exists x, a = inr x /\ exists r', Q x r' /\ calm_at c r' s').
Proof.
  intros Hm s Hs. unfold storeErr. apply wp_bind.
  eapply wp_mono; [apply (calm_onRedis c r m (fun a r' => exists x, a = inr x /\ Q x r')); [|exact Hs]|].
  - intros k. eapply wp_mono; [apply Hm|]. intros a t (x & r' & k' & -> & -> & HQ). eauto 10.
  - intros a s' (r' & (x & -> & HQ) & Hs'). rm_steps. eauto 10.
Qed.

Lemma calm_LoadTopology c r topology wrap : ready r topology ->
  calmly c r (storeErr wrap LoadTopology) (fun a s' => exists x, a = inr x /\ x = Some topology /\ calm_at c r s').
Proof.
  intros Hr s Hs. eapply wp_mono; [apply (calm_storeErr c r wrap LoadTopology (fun x r' => x = Some topology /\ r' = r)); [|exact Hs]|].
  - intros k. eapply wp_calm_LoadTopology; [apply Hr|apply Hr|]. eauto 10.
  - intros a s' (x & -> & r' & [-> ->] & Hs'). eauto.
Qed.

Lemma calm_activeNodes c r :
  calmly c r activeNodes (fun a s' => exists nodes, a = inr nodes /\ (forall info, live_registration r info <-> info ∈ nodes) /\ calm_at c r s').
Proof.
  calm_intro. unfold activeNodes. apply wp_bind. unfold wp at 1, scan_order. cbn [ci co ct ce peers].
  eapply wp_mono; [eapply (calm_storeErr c r CErrStore _ (fun nodes r' => (forall info, live_registration r info <-> info ∈ nodes) /\ r' = r))|].
  - intros k'. apply wp_calm_GetActiveNodes; [apply Hi|]. intros nodes k2 Hn. eauto 10.
  - destruct Hi as (? & ? & ?). split_and!; try done; eauto.
  - intros a s' (x & -> & r' & [Hn ->] & Hs'). eauto.
Qed.

(** ** One map *)

Lemma try_inr {A B E T} (m : ST T (E + A)) (f : A -> ST T (E + B)) (R : A -> T -> Prop) Q s :
  wp m (fun a s' => exists x, a = inr x /\ R x s') s -> (forall x s', R x s' -> wp (f x) Q s') -> wp (try m f) Q s.
Proof.
  intros Hm Hf. unfold try. apply wp_bind. eapply wp_mono; [exact Hm|]. intros a s' (x & -> & HR). by apply Hf.
Qed.

(** A step whose success is known, of [try]; of a bind. *)
Ltac calm_try lem := eapply try_inr; [eapply lem; eassumption|]; cbv beta.
Ltac calm_step lem := apply wp_bind; eapply wp_mono; [eapply lem; eassumption|]; cbv beta.

(** What a handover does to the server: the one commit, and the announcement, which
    nobody keeps. *)
Definition moved (r : Redis) (topology : Topology) (m : string) (r' : Redis) : Prop :=
  exists standby updated, standby <> failed /\ bad_name standby = false /\ updated <> 0 /\
    committed (moved_topology topology m standby (default 0 (t_MapEpochs topology !! m) + 1) term updated)
      (Some (mkSessionMigration m failed standby)) r r'.

Lemma updates_of_good migration r :
  map_Forall (fun _ d => d <> Corrupt) (r_sessions r) -> session_updates migration r <> None.
Proof.
  intros H. unfold session_updates. destruct migration; [|done]. destruct (forallb _ _) eqn:E; [done|]. exfalso.
  apply not_true_iff_false in E. apply E, forallb_forall. intros d Hd. unfold values in Hd.
  apply List.in_map_iff in Hd as ([u d'] & <- & Hin%list_elem_of_In%elem_of_map_to_list). specialize (H _ _ Hin). cbn. by destruct d'.
Qed.

Lemma calm_commit c r topology m standby updated epoch wrap :
  ready r topology -> t_Owners topology !! m = Some failed -> t_MapEpochs topology !! m = Some epoch ->
  0 < epoch < 10^14 - 1 -> 0 < t_Version topology < 10^14 - 1 -> (forall k e, t_MapEpochs topology !! k = Some e -> 0 <= e < 10^14 - 1) ->
  0 <= t_LeaderTerm topology ->
  standby <> failed -> bad_name standby = false -> updated <> 0 -> m <> "" ->
  calmly c r (storeErr wrap (CompareAndSaveTopologyAndMigrateSessionsForLeader (t_Version topology)
      (moved_topology topology m standby (u64 (epoch + 1)) term updated) term m failed standby))
    (fun a s' => exists x, a = inr x /\ exists r', moved r topology m r' /\ calm_at c r' s').
Proof.
  intros Hr Ho He Hep Hv Heps Hlt Hne Hbad Hupd Hm s Hs.
  set (next := moved_topology topology m standby (epoch + 1) term updated).
  rewrite u64_small by lia. fold next.
  assert (Hx : exact r).
  { constructor; [|intros t Ht; rewrite (proj1 (rd_term _ _ Hr)) in Ht; injection Ht as <-; lia|apply Hr].
    intros cur Hcur. rewrite (rd_topology _ _ Hr) in Hcur. injection Hcur as <-. split; [lia|]. split; [|exact Heps].
    pose proof (proj2 (rd_term _ _ Hr)). lia. }
  assert (Hsmall : cas_small (t_Version topology) next term r).
  { pose proof (cas_small_moved r r topology m standby term updated Hx (rd_topology _ _ Hr) Hx ltac:(lia)) as H.
    rewrite He in H. exact H. }
  assert (Hvalid : valid_topology None next).
  { apply moved_valid; try done; [apply Hr|by rewrite Ho|lia|lia]. }
  assert (Hmay : may_commit (t_Version topology) next term r).
  { split; [intros _; split; [apply Hr|done]|]. rewrite (rd_topology _ _ Hr). split; [done|]. split; [lia|].
    apply (moved_allowed topology m failed); try done; [apply Hr|lia]. }
  apply (calm_storeErr c r wrap _ (fun _ r' => moved r topology m r')); [|exact Hs]. intros k. unfold CompareAndSaveTopologyAndMigrateSessionsForLeader.
  rewrite (proj2 (Z.eqb_neq term 0)) by lia. cbn [orb]. rewrite Z.eqb_refl. cbn [negb].
  unfold migration_args_bad. rewrite !bool_decide_eq_false_2; [|by apply bad_name_nonempty|done|done]. cbn [orb].
  apply wp_calm_cas; [done|by apply unpacked_exact|lia|done|done|apply updates_of_good, Hr|].
  intros r' Hc. exists tt, r', (Datatypes.S k). split_and!; [done|done|]. exists standby, updated. rewrite He. by split_and!.
Qed.

(** The server when the maps of [l] are still to be handed over. *)
Record stage (c : Coordinator) (l : list string) (r : Redis) (topology : Topology) : Prop := {
  sg_ready : ready r topology;
  sg_term : 0 <= t_LeaderTerm topology;
  sg_version : 0 < t_Version topology /\ t_Version topology + Z.of_nat (List.length l) < 10^14 - 1;
  sg_epochs : forall k e, t_MapEpochs topology !! k = Some e -> 0 <= e < 10^14 - 1;
  sg_left : forall m, t_Owners topology !! m = Some failed <-> m ∈ l;
  sg_movable : forall m, m ∈ l -> exists e, t_MapEpochs topology !! m = Some e /\ e < 10^14 - 2 /\ movable c r m e
}.

Definition announced (version : Z) (r : Redis) : Redis :=
  set_r_published (r_published r ++ [(TopologyEventChannel, itoa version)]) r.

Definition handed (r : Redis) (topology : Topology) (m : string) (r' : Redis) : Prop :=
  exists r1, moved r topology m r1 /\ r' = announced (t_Version topology + 1) r1.

Lemma stage_map c m l r topology :
  stage c (m :: l) r topology -> m <> "" /\ t_Owners topology !! m = Some failed /\
  exists e, t_MapEpochs topology !! m = Some e /\ 0 < e < 10^14 - 2 /\ movable c r m e.
Proof.
  intros Hs. assert (Ho : t_Owners topology !! m = Some failed) by (apply (sg_left _ _ _ _ Hs); left).
  pose proof (rd_valid _ _ (sg_ready _ _ _ _ Hs)) as Hv.
  assert (Hd : m ∈ dom (t_Owners topology) ∪ dom (t_MapEpochs topology)) by (apply elem_of_union_l, elem_of_dom; eauto).
  split; [by apply bad_name_nonempty, (vt_names _ _ Hv)|]. split; [done|].
  destruct (sg_movable _ _ _ _ Hs m ltac:(left)) as (e & He & Hlt & Hm). exists e. split_and!; try done.
  destruct (vt_epoch _ _ Hv m Hd) as (e' & He' & Hne). pose proof (sg_epochs _ _ _ _ Hs m e He). assert (e' = e) by congruence. lia.
Qed.

Lemma calm_selectStandby c r topology m epoch :
  ready r topology -> movable c r m epoch ->
  calmly c r (selectStandby m failed) (fun a s' => exists x, a = inr x /\
    (x.1 <> failed /\ bad_name x.1 = false /\ (exists cl, x.2 = Some cl)) /\ calm_at c r s').
Proof.
  intros Hr Hm s Hs. unfold selectStandby. calm_try calm_activeNodes.
  intros nodes s1 [Hn Hs1]. calm_step calm_selfC. intros c1 s2 [-> Hs2]. pose proof (least_candidate c m failed nodes) as Hleast.
  destruct (sort_strings _) as [|standbyID l].
  { destruct (mv_standby _ _ _ _ Hm) as (info & Hi & He). by destruct (Hleast info (proj1 (Hn info) Hi)). }
  destruct Hleast as [(info & Hi & (Hne & _ & _ & [cl Hcl]) & ->) _]. calm_step calm_selfC.
  intros c2 s3 [-> Hs3]. apply wp_ok. eexists. split; [done|]. cbn. split; [|done]. split_and!; [done| |eauto].
  apply (rd_names _ _ Hr). by apply Hn.
Qed.

Lemma calm_LoadCheckpoint c r m cp : r_checkpoints r !! m = Some (Good cp) ->
  calmly c r (onRedis (LoadCheckpoint m)) (fun o s' => o = Some cp /\ calm_at c r s').
Proof.
  intros Hcp s Hs. eapply wp_mono; [apply (calm_onRedis c r _ (fun o r' => o = Some cp /\ r' = r)); [|exact Hs]|].
  - intros k. unfold LoadCheckpoint. rm_steps. apply wp_calm_read. rm_steps. rewrite Hcp. eauto.
  - intros o s' (r' & [-> ->] & Hs'). done.
Qed.

Lemma calm_publish c r version wrap : version <> 0 ->
  calmly c r (storeErr wrap (PublishTopologyChanged version)) (fun a s' => a = inr tt /\ calm_at c (announced version r) s').
Proof.
  intros Hv s Hs. eapply wp_mono; [apply (calm_storeErr c r wrap _ (fun _ r' => r' = announced version r)); [|exact Hs]|].
  - intros k. unfold PublishTopologyChanged. rewrite (proj2 (Z.eqb_neq version 0)) by done. rm_steps. apply wp_calm. cbn.
    rm_steps. eauto 10.
  - intros a s' ([] & -> & r' & -> & Hs'). done.
Qed.

Lemma calm_failoverMap c m l r topology :
  stage c (m :: l) r topology ->
  calmly c r (failoverMap m failed) (fun a s' => a = inr tt /\ exists r', handed r topology m r' /\ calm_at c r' s').
Proof.
  intros Hst s Hs. destruct (stage_map _ _ _ _ _ Hst) as (Hm & Ho & e & He & Hep & Hmv).
  pose proof (sg_ready _ _ _ _ Hst) as Hr. destruct (sg_version _ _ _ _ Hst) as [Hv1 Hv2]. cbn [List.length] in Hv2.
  unfold failoverMap. calm_step calm_term. intros o s1 [-> Hs1].
  calm_try calm_LoadTopology. intros x s2 [-> Hs2]. rewrite Ho, He. cbn [default]. unfold id.
  rewrite bool_decide_eq_true_2 by done. cbn [negb]. rewrite (proj2 (Z.eqb_neq e 0)) by lia.
  calm_try calm_selectStandby. intros [standbyID standby] s3 [(Hne & Hbad & cl & Hcl) Hs3]. cbn [fst snd] in *. subst standby.
  destruct (mv_checkpoint _ _ _ _ Hmv) as (cp & Hcp & Hcm & Hcn & Hce & Hcv).
  calm_step calm_LoadCheckpoint. intros o s4 [-> Hs4]. unfold promotable_checkpoint.
  rewrite !bool_decide_eq_true_2, (proj2 (Z.eqb_eq _ _) Hce), (proj2 (Z.leb_gt _ _) Hcv) by done. cbn [negb orb].
  calm_step calm_selfC. intros c1 s5 [-> Hs5]. destruct (mv_config _ _ _ _ Hmv) as [cfg Hcfg]. rewrite Hcfg. cbv zeta.
  apply wp_bind. destruct s5 as [c5 t5 e5 i5 p5]. apply wp_onPeers.
  destruct (Haccept cl m cfg cp (u64 (e + 1)) p5 Hcm ltac:(congruence) Hcv) as [p6 Hp6]; [rewrite u64_small by lia; lia|].
  unfold wp at 1. rewrite Hp6. cbn [negb].
  assert (Hs6 : calm_at c r (mkCoordSt c5 t5 e5 i5 p6)) by exact Hs5.
  calm_step calm_nowCo. intros t s7 [Ht Hs7]. calm_step calm_has. intros b s8 [-> Hs8]. cbn [negb].
  eapply try_inr; [eapply (calm_commit c r topology m standbyID t e); try done; try lia; [apply Hst|apply Hst]|]. cbv beta.
  intros [] s9 (r' & Hmoved & Hs9).
  assert (Hver : t_Version (moved_topology topology m standbyID (u64 (e + 1)) term t) = t_Version topology + 1)
    by (cbn; rewrite u64_small; lia).
  rewrite Hver. eapply wp_mono; [eapply (calm_publish c r' (t_Version topology + 1)); [lia|exact Hs9]|].
  intros a s' [-> Hs']. split; [done|]. exists (announced (t_Version topology + 1) r'). split; [by exists r'|done].
Qed.

(** ** All maps of a node *)

(** The topology after one handover, and after those of a list of maps. *)
Definition one_moved (m : string) (t t' : Topology) (sessions sessions' : gmap string (doc stored_session)) : Prop :=
  exists standby, standby <> failed /\ t_Owners t' = <[m := standby]> (t_Owners t) /\
    t_MapEpochs t' = <[m := default 0 (t_MapEpochs t !! m) + 1]> (t_MapEpochs t) /\
    sessions' = migrated (Some (mkSessionMigration m failed standby)) <$> sessions.

Definition all_moved (l : list string) (t t' : Topology) : Prop := forall m,
  if decide (m ∈ l) then exists standby, standby <> failed /\ t_Owners t' !! m = Some standby /\
                         t_MapEpochs t' !! m = Some (default 0 (t_MapEpochs t !! m) + 1)
  else t_Owners t' !! m = t_Owners t !! m /\ t_MapEpochs t' !! m = t_MapEpochs t !! m.

(** The sessions follow: one that named the node for a map of [l] names the map's new
    owner, with a later version; the others are as they were. *)
Definition followed (l : list string) (t' : Topology) (d : doc stored_session) (o : option (doc stored_session)) : Prop :=
  match d with
  | Good s =>
      if decide (ss_NodeID s = failed /\ ss_MapID s ∈ l)
      then exists s', o = Some (Good s') /\ ss_Username s' = ss_Username s /\ ss_MapID s' = ss_MapID s /\
             t_Owners t' !! ss_MapID s = Some (ss_NodeID s') /\ ss_NodeID s' <> failed
      else o = Some d
  | Corrupt => o = Some d
  end.

Definition follow (l : list string) (t' : Topology) (sessions sessions' : gmap string (doc stored_session)) : Prop :=
  forall u d, sessions !! u = Some d -> followed l t' d (sessions' !! u).

Lemma follow_nil t sessions : follow [] t sessions sessions.
Proof. intros u [s|] Hd; cbn; [|done]. rewrite decide_False; [done|]. by intros [_ ?%elem_of_nil]. Qed.

Lemma follow_snoc l m t1 t2 sessions sessions1 sessions2 :
  m ∉ l -> follow l t1 sessions sessions1 -> one_moved m t1 t2 sessions1 sessions2 ->
  follow (l ++ [m])%list t2 sessions sessions2.
Proof.
  intros Hm Hl (standby & Hne & Ho & _ & ->) u d Hd. specialize (Hl u d Hd). rewrite lookup_fmap. unfold followed in *.
  destruct d as [s|]; [|by rewrite Hl]. destruct (decide (ss_NodeID s = failed /\ ss_MapID s ∈ l)) as [[Hf Hin]|Hnot].
  - rewrite decide_True by (split; [done|apply elem_of_app; by left]).
    destruct Hl as (s' & -> & Hu & Hmap & Hown & Hnf). exists s'. cbn. unfold moves. cbn.
    rewrite (bool_decide_eq_false_2 (ss_NodeID s' = failed)), andb_false_r by done. split_and!; try done.
    by rewrite Ho, lookup_insert_ne by (intros E; apply Hm; by rewrite E).
  - rewrite Hl. cbn. unfold moves. cbn.
    destruct (decide (ss_NodeID s = failed /\ ss_MapID s ∈ (l ++ [m])%list)) as [[Hf Hin]|Hnot'].
    + assert (Hms : ss_MapID s = m).
      { apply elem_of_app in Hin as [Hin|Hin%list_elem_of_singleton]; [by destruct Hnot|done]. }
      rewrite !bool_decide_eq_true_2 by done. cbn. eexists. split; [done|]. cbn. rewrite Ho, Hms, lookup_insert_eq. done.
    + assert (Hboth : bool_decide (ss_MapID s = m) && bool_decide (ss_NodeID s = failed) = false).
      { apply andb_false_iff. destruct (decide (ss_NodeID s = failed)) as [Hf|Hf]; [left|right; by apply bool_decide_eq_false_2].
        apply bool_decide_eq_false_2. intros Hms. apply Hnot'. split; [done|]. apply elem_of_app. right. rewrite Hms. by left. }
      by rewrite Hboth.
Qed.

(** Every owner of the topology is the one its fence names, at the topology's epoch. *)
Definition fenced (t : Topology) (r : Redis) : Prop := forall m o, t_Owners t !! m = Some o ->
  r_fences r !! m = Some (Good (mkFence m o (Int (default 0 (t_MapEpochs t !! m))))).

Lemma all_moved_nil t : all_moved [] t t.
Proof. intros m. rewrite decide_False; [done|apply not_elem_of_nil]. Qed.

Lemma all_moved_snoc l m t t1 t2 ss1 ss2 : m ∉ l -> all_moved l t t1 -> one_moved m t1 t2 ss1 ss2 -> all_moved (l ++ [m]) t t2.
Proof.
  intros Hm Hl (standby & Hne & Ho & He & _) k. specialize (Hl k) as Hk. specialize (Hl m). rewrite decide_False in Hl by done.
  destruct Hl as [_ Hlm]. rewrite Ho, He. destruct (decide (k = m)) as [->|Hkm].
  - rewrite decide_True by (apply elem_of_app; right; by left). exists standby. by rewrite !lookup_insert_eq, Hlm.
  - rewrite !lookup_insert_ne by done. destruct (decide (k ∈ l)).
    + rewrite decide_True by (apply elem_of_app; by left). done.
    + rewrite decide_False; [done|]. rewrite elem_of_app, list_elem_of_singleton. by intros [].
Qed.

Lemma migrated_good migration (sessions : gmap string (doc stored_session)) :
  map_Forall (fun _ d => d <> Corrupt) sessions -> map_Forall (fun _ d => d <> Corrupt) (migrated migration <$> sessions).
Proof.
  intros H k d. rewrite lookup_fmap. destruct (sessions !! k) as [d'|] eqn:E; [|done]. intros [= <-]. specialize (H _ _ E).
  destruct migration as [mg|], d' as [s'|]; cbn; try done. by destruct (moves mg s').
Qed.

Lemma stage_step c m l r topology r' :
  m ∉ l -> stage c (m :: l) r topology -> handed r topology m r' ->
  exists topology', stage c l r' topology' /\ one_moved m topology topology' (r_sessions r) (r_sessions r') /\
    t_Version topology < t_Version topology' /\ fenced topology' r'.
Proof.
  intros Hm Hst (r1 & (standby & updated & Hne & Hbad & Hupd & (fences' & -> & Hfences)) & ->).
  destruct (stage_map _ _ _ _ _ Hst) as (Hm0 & Ho & e & He & Hep & Hmv). pose proof (sg_ready _ _ _ _ Hst) as Hr.
  destruct (sg_version _ _ _ _ Hst) as [Hv1 Hv2]. cbn [List.length] in Hv2. rewrite He. cbn [default]. unfold id.
  set (next := moved_topology topology m standby (e + 1) term updated).
  assert (Hver : t_Version next = t_Version topology + 1) by (cbn; rewrite u64_small; lia).
  assert (Hown : t_Owners next = <[m := standby]> (t_Owners topology)) by (unfold next, moved_topology; by rewrite Clone_id).
  assert (Hepo : t_MapEpochs next = <[m := e + 1]> (t_MapEpochs topology)) by (unfold next, moved_topology; by rewrite Clone_id).
  exists next. split; [|split; [exists standby; by rewrite He, Hown, Hepo|split; [lia|]]].
  2: { intros k o Hk. cbn. rewrite Hfences, He. cbn [default]. unfold id. fold next. by rewrite Hk. }
  constructor.
  - constructor; cbn [announced set_r_published set_r_sessions set_r_fences set_r_topology r_topology r_sessions r_unpack r_term].
    + done.
    + apply moved_valid; try done; [apply Hr|by rewrite Ho|lia|lia].
    + split; [apply Hr|done].
    + rewrite map_size_fmap. apply Hr.
    + apply migrated_good, Hr.
    + intros info Hl. by apply (rd_names _ _ Hr).
  - cbn. lia.
  - rewrite Hver. lia.
  - intros k ek. rewrite Hepo, lookup_insert_Some. intros [[_ <-]|[_ Hk]]; [lia|by apply (sg_epochs _ _ _ _ Hst k)].
  - intros k. rewrite Hown, lookup_insert_Some, (sg_left _ _ _ _ Hst), elem_of_cons. split; [by intros [[_ ->]|[Hk [->|?]]]|].
    intros Hk. right. split; [by intros ->|by right].
  - intros k Hk. destruct (sg_movable _ _ _ _ Hst k ltac:(by right)) as (ek & Hek & Hlt & Hmk).
    exists ek. rewrite Hepo, lookup_insert_ne by (by intros <-). split; [done|]. split; [done|].
    destruct Hmk as [H1 H2 H3]. by constructor.
Qed.

Lemma maps_of_spec topology m : m ∈ maps_of topology failed <-> t_Owners topology !! m = Some failed.
Proof.
  unfold maps_of. rewrite elem_of_sort_strings, list_elem_of_filter. split; [by intros []|]. intros H. split; [done|].
  apply list_elem_of_fmap. exists (m, failed). split; [done|]. by apply elem_of_map_to_list.
Qed.

Lemma maps_of_NoDup topology : NoDup (maps_of topology failed).
Proof.
  unfold maps_of. rewrite sort_strings_Permutation. apply NoDup_filter. unfold map_keys. apply NoDup_fst_map_to_list.
Qed.

Lemma calm_failoverNode c r topology :
  stage c (maps_of topology failed) r topology ->
  calmly c r (failoverNode failed) (fun _ s' => exists r' topology',
    stage c [] r' topology' /\ all_moved (maps_of topology failed) topology topology' /\
    follow (maps_of topology failed) topology' (r_sessions r) (r_sessions r') /\
    (maps_of topology failed <> [] -> fenced topology' r') /\ t_Version topology <= t_Version topology' /\ calm_at c r' s').
Proof.
  intros Hst s Hs. pose proof (sg_ready _ _ _ _ Hst) as Hr. unfold failoverNode, when_leader.
  calm_step calm_term. intros o s1 [-> Hs1]. calm_step calm_LoadTopology. intros a s2 (x & -> & -> & Hs2).
  set (l := maps_of topology failed) in *.
  eapply wp_mono; [apply (wp_foldM_prefix _ (fun (pre : list string) _ s => exists rest r' topology', l = (pre ++ rest)%list /\ stage c rest r' topology' /\
    all_moved pre topology topology' /\ follow pre topology' (r_sessions r) (r_sessions r') /\
    (pre <> [] -> fenced topology' r') /\ t_Version topology <= t_Version topology' /\ calm_at c r' s))|].
  - intros pre [] m post t Hl (rest & r' & topology' & Hl' & Hst' & Hmv & Hfo & Hfe & Hv & Ht).
    assert (rest = m :: post) as -> by (rewrite Hl' in Hl; by apply app_inv_head in Hl).
    assert (Hnd : (m ∉ pre) /\ (m ∉ post)).
    { pose proof (maps_of_NoDup topology) as Hn. fold l in Hn. rewrite Hl in Hn. apply list.NoDup_app in Hn as (_ & H1 & H2).
      apply NoDup_cons in H2 as [H2 _]. split; [|done]. intros H. apply (H1 m H). by left. }
    calm_step calm_failoverMap. intros a s' [-> (r2 & Hh & Hs')]. apply wp_ret.
    destruct (stage_step _ _ _ _ _ _ (proj2 Hnd) Hst' Hh) as (topology2 & Hst2 & Hone & Hv2 & Hfe2).
    exists post, r2, topology2. split; [by rewrite <- app_assoc|]. split; [done|]. split; [by eapply all_moved_snoc; [apply Hnd|..]|].
    split; [by eapply follow_snoc; [apply Hnd|..]|]. split; [done|].
    split; [lia|done].
  - exists l, r, topology. split_and!; [done|done|apply all_moved_nil|apply follow_nil|by intros []|lia|done].
  - intros [] s' (rest & r' & topology' & Hl & Hst' & Hmv & Hfo & Hfe & Hv & Hs').
    assert (rest = []) as -> by (apply (f_equal List.length) in Hl; rewrite List.length_app in Hl; destruct rest; [done|cbn in Hl; lia]).
    exists r', topology'. by split_and!.
Qed.

(** ** The leader's round *)

(** Discovery changes neither the pool nor the configurations, and drops no job. *)
Record same_pool (c c' : Coordinator) : Prop := {
  sp_nodes : co_nodes c' = co_nodes c;
  sp_configs : co_configs c' = co_configs c;
  sp_jobs : forall j, j ∈ co_jobs c -> j ∈ co_jobs c'
}.

#[local] Instance same_pool_preorder : PreOrder same_pool.
Proof. split; [by intros c|]. intros c1 c2 c3 [N1 C1 J1] [N2 C2 J2]. constructor; [congruence|congruence|auto]. Qed.

Lemma same_pool_jobs c jobs : (forall j, j ∈ co_jobs c -> j ∈ jobs) -> same_pool c (set_co_jobs jobs c).
Proof. by constructor. Qed.

Lemma discoverNode_pool c info : same_pool c (discoverNode c info).
Proof.
  unfold discoverNode. case_match; [done|]. case_match; [done|]. case_match; [done|].
  constructor; [done|done|]. intros j Hj. cbn. apply elem_of_app. by left.
Qed.

Lemma discover_pool infos c : same_pool c (foldl discoverNode c infos).
Proof.
  revert c. induction infos as [|info infos IH]; intros c; [done|]. cbn [foldl]. etrans; [apply discoverNode_pool|apply IH].
Qed.

Lemma stage_pool c c' l r topology : same_pool c c' -> stage c l r topology -> stage c' l r topology.
Proof.
  intros [Hn Hcf _] [H1 H2 H3 H4 H5 H6]. constructor; try done. intros m Hm. destruct (H6 m Hm) as (e & He & Hlt & Hmv).
  exists e. split; [done|]. split; [done|]. destruct Hmv as [Hc Hcp (info & Hi & Hel)]. constructor; [|done|].
  - unfold mapConfig. by rewrite Hcf.
  - exists info. split; [done|]. unfold eligible, healthyNode in *. by rewrite Hn.
Qed.

Lemma calm_modCo c r f : calmly c r (modCo f) (fun _ s' => calm_at (f c) r s').
Proof. calm_intro. apply wp_modCo. split_and!; try done. by exists k. Qed.

Lemma calm_rangeCo {A} c r (l : list A) : calmly c r (rangeCo l) (fun l' s' => l' ≡ₚ l /\ calm_at c r s').
Proof.
  calm_intro. unfold wp, rangeCo, range_order. split; [apply arrange_Permutation|]. split_and!; try done. by exists k.
Qed.

Lemma calm_spawn c r j : calmly c r (spawn j) (fun _ s' => calm_at (set_co_jobs (co_jobs c ++ [j]) c) r s').
Proof. intros s Hs. unfold spawn. eapply wp_mono; [by apply calm_modCo|]. auto. Qed.

Lemma calm_reconcile c r topology nodes info m :
  ready r topology -> info ∈ nodes -> nr_ID info = failed -> nr_Draining info = true -> t_Owners topology !! m = Some failed ->
  calmly c r (reconcileDrainingNodes nodes) (fun _ s' => exists c', same_pool c c' /\ JobFailover failed ∈ co_jobs c' /\ calm_at c' r s').
Proof.
  intros Hr Hin Hid Hd Ho s Hs. unfold reconcileDrainingNodes, when_leader. calm_step calm_term. intros o s1 [-> Hs1].
  calm_step calm_LoadTopology. intros a s2 (x & -> & -> & Hs2). cbv zeta. set (owners := nr_ID <$> _).
  assert (Hf : failed ∈ owners).
  { apply list_elem_of_fmap. exists info. split; [done|]. by apply list_elem_of_filter. }
  rewrite bool_decide_eq_false_2 by (intros E; rewrite E in Hf; by apply elem_of_nil in Hf).
  apply wp_bind. eapply wp_mono; [by apply calm_rangeCo|]. cbv beta. intros l s3 [Hl Hs3].
  assert (Hm : m ∈ l).
  { rewrite Hl. unfold map_keys. apply list_elem_of_fmap. exists (m, failed). split; [done|]. by apply elem_of_map_to_list. }
  eapply wp_mono; [apply (wp_foldM_prefix _ (fun pre _ s => exists c', same_pool c c' /\
    (m ∈ pre -> JobFailover failed ∈ co_jobs c') /\ calm_at c' r s))|].
  - intros pre [] x post t _ (c' & Hp & Hj & Ht). case_bool_decide as Hown.
    + eapply wp_mono; [by apply calm_spawn|]. intros [] t' Ht'. eexists. split; [|split; [|exact Ht']].
      * etrans; [exact Hp|]. apply same_pool_jobs. intros j Hj'. apply elem_of_app. by left.
      * cbn. rewrite elem_of_app, list_elem_of_singleton. intros [Hpre| ->]; apply elem_of_app; [left; by apply Hj|right].
        rewrite Ho. by left.
    + apply wp_ret. exists c'. split; [done|]. split; [|done]. rewrite elem_of_app, list_elem_of_singleton. intros [|<-]; [auto|].
      exfalso. apply Hown. by rewrite Ho.
  - exists c. split; [done|]. split; [by intros ?%elem_of_nil|done].
  - intros [] s' (c' & Hp & Hj & Hs'). exists c'. auto.
Qed.

Lemma calm_discoverOnce c r topology info m :
  ready r topology -> live_registration r info -> nr_ID info = failed -> nr_Draining info = true ->
  t_Owners topology !! m = Some failed ->
  calmly c r discoverOnce (fun _ s' => exists c', same_pool c c' /\ JobFailover failed ∈ co_jobs c' /\ calm_at c' r s').
Proof.
  intros Hr Hl Hid Hd Ho s Hs. unfold discoverOnce, when_leader. calm_step calm_term. intros o s1 [-> Hs1].
  calm_step calm_activeNodes. intros a s2 (nodes & -> & Hn & Hs2). unfold discoverNodes. apply wp_bind.
  eapply wp_mono; [by apply calm_modCo|]. cbv beta. set (c1 := if co_closed c then c else foldl discoverNode c nodes).
  assert (Hp1 : same_pool c c1) by (unfold c1; case_match; [done|apply discover_pool]).
  intros [] s3 Hs3. apply wp_bind. eapply wp_mono; [eapply calm_reconcile; [exact Hr|by apply Hn|exact Hid|exact Hd|exact Ho|exact Hs3]|].
  cbv beta. intros [] s4 (c2 & Hp2 & Hj & Hs4). calm_step calm_selfC. intros c3 s5 [-> Hs5]. apply wp_bind.
  unfold bootstrapTopologyIfAbsent. calm_step calm_term. intros o s6 [-> Hs6]. calm_try calm_LoadTopology.
  intros x s7 [-> Hs7]. apply wp_ok, wp_ret. exists c2. split; [by etrans|done].
Qed.

Lemma calm_run_job c r topology j :
  stage c (maps_of topology failed) r topology -> co_jobs c !! j = Some (JobFailover failed) ->
  calmly c r (run_job j) (fun _ s' => exists c' r' topology',
    stage c' [] r' topology' /\ all_moved (maps_of topology failed) topology topology' /\
    follow (maps_of topology failed) topology' (r_sessions r) (r_sessions r') /\
    (maps_of topology failed <> [] -> fenced topology' r') /\ t_Version topology <= t_Version topology' /\ calm_at c' r' s').
Proof.
  intros Hst Hj s Hs. unfold run_job. calm_step calm_selfC. intros c1 s1 [-> Hs1]. rewrite Hj. apply wp_bind.
  eapply wp_mono; [by apply calm_modCo|]. cbv beta. intros [] s2 Hs2.
  set (c2 := set_co_jobs _ c) in *. assert (Hst2 : stage c2 (maps_of topology failed) r topology).
  { destruct Hst as [H1 H2 H3 H4 H5 H6]. constructor; try done. intros m Hm. destruct (H6 m Hm) as (e & ? & ? & [? ? ?]).
    exists e. by split_and!. }
  eapply wp_mono; [by eapply calm_failoverNode|]. cbv beta. intros [] s' (r' & topology' & H). exists c2, r', topology'. exact H.
Qed.
End calm.

(** ** The node *)

(** The registration of [main] for a draining node. *)
Definition draining_info (main : NodeMain) : NodeRegistryInfo :=
  mkNodeRegistryInfo (nm_nodeID main) (nm_nodeAddr main) (nm_declaredMap main) true.
Definition registering (main : NodeMain) (r : Redis) : Redis :=
  set_r_nodes (<[nm_nodeID main := (Good (draining_info main), r_clock r + nm_LeaseTTL main)]> (r_nodes r)) r.

Lemma calm_register main n r k e :
  ns_draining n = true ->
  register main (mkNodeSt n (calm r k) e) = Some (inr tt, mkNodeSt n (calm (registering main r) (S k)) e).
Proof.
  intros Hd. unfold register, self, gets, mbind at 1, st_bind at 1. cbn [nd]. unfold IsDraining. rewrite Hd. reflexivity.
Qed.

Lemma registering_live main r : 0 < nm_LeaseTTL main -> live_registration (registering main r) (draining_info main).
Proof.
  intros Ht. exists (nm_nodeID main). cbn. rewrite lookup_insert_eq. cbn. by rewrite (proj2 (Z.ltb_lt _ _)) by lia.
Qed.

(** The environment after one reading of the clock. *)
Definition tick (e : Env) : Env := mkEnv (clk e) (clk_pos e + 1)%nat (ord e) (ord_pos e) (rfc3339 e) (rand_source e).

(** The next readings of the clock are within the grace of the node's authority. *)
Definition prompt (grace : Z) (e : Env) : Prop :=
  next_now e <> 0 /\ Sub (next_now (tick e)) (next_now e) <= grace /\ Sub (next_now (tick (tick e))) (next_now e) <= grace.

(** The node as it is after reading a topology. *)
Definition reading (topology : Topology) (t : Z) (n : NodeService) : NodeService :=
  set_ns_authority (set_ac_loaded topology t (ns_authority n)) n.

Definition gives_nothing (topology : Topology) (nodeID : string) : Prop := forall m, t_Owners topology !! m <> Some nodeID.

Lemma gives_nothing_owned topology nodeID : gives_nothing topology nodeID -> sort_strings (owned_maps nodeID topology) = [].
Proof. intros H. apply owned_nil. intros m Hm. by destruct (H m). Qed.

Lemma wp_OwnedMapIDs_fresh topology t c e (Q : option (list string) -> AS -> Prop) :
  t <> 0 -> Sub (next_now e) t <= ac_grace c ->
  Q (Some (sort_strings (owned_maps (ac_nodeID c) topology))) (set_ac_loaded topology t c, tick e) ->
  wp OwnedMapIDs Q (set_ac_loaded topology t c, e).
Proof.
  intros Ht Hs HQ. unfold OwnedMapIDs, freshLocked. a_steps. cbn [set_ac_loaded ac_topologyOK ac_loadedAt]. unfold IsZero.
  rewrite (proj2 (Z.eqb_neq t 0)) by done. cbn [negb orb]. apply wp_bind. unfold wp at 1, nowC, now. cbn [fst snd].
  apply wp_ret. unfold next_now in Hs. cbn. rewrite (proj2 (Z.leb_le _ _) Hs). cbn [negb]. a_steps. exact HQ.
Qed.

Lemma calm_refresh fuel n r k e topology :
  ns_store n = true -> r_topology r = Some (Good topology) -> valid_topology None topology ->
  (ac_topologyOK (ns_authority n) = true -> t_Version (ac_topology (ns_authority n)) <= t_Version topology) ->
  gives_nothing topology (ac_nodeID (ns_authority n)) -> prompt (ac_grace (ns_authority n)) e ->
  wp (refreshTopology fuel) (fun a s' => a = inr tt /\ s' = mkNodeSt (reading topology (next_now e) n) (calm r (S k)) (tick (tick e)))
    (mkNodeSt n (calm r k) e).
Proof.
  intros Hst Ht Hv Hver Hno (H0 & H1 & _). unfold refreshTopology. n_steps. rewrite Hst. cbn [negb]. n_steps. apply wp_onNet.
  eapply wp_calm_LoadTopology; [done|done|]. n_steps. apply wp_onCache_set. unfold refresh.
  rewrite (proj2 (Validate_None None topology) Hv). a_steps.
  assert ((ac_topologyOK (ns_authority n) && (t_Version topology <? t_Version (ac_topology (ns_authority n)))) = false) as ->.
  { destruct (ac_topologyOK (ns_authority n)); [|done]. apply Z.ltb_ge. by apply Hver. }
  apply wp_bind. unfold wp at 1, nowC, now. a_steps. cbn [fst snd]. rewrite Clone_id.
  fold (next_now e). fold (tick e). fold (reading topology (next_now e) n). unfold ensureOwnedMaps. n_steps. apply wp_onCache.
  cbn [reading set_ns_authority ns_authority]. apply wp_OwnedMapIDs_fresh; [done|done|]. split; [done|].
  rewrite gives_nothing_owned by done. cbn [each]. by apply wp_ok.
Qed.

Lemma calm_drain n t e topology :
  ns_draining n = true -> 0 < nc_DrainPollInterval (ns_runtime n) -> gives_nothing topology (ac_nodeID (ns_authority n)) ->
  prompt (ac_grace (ns_authority n)) e ->
  wp (BeginDrain []) (fun a _ => a = inr tt) (mkNodeSt (reading topology (next_now e) n) t (tick (tick e))).
Proof.
  intros Hd Hi Hno (H0 & _ & H2). unfold BeginDrain. n_steps. cbn [reading set_ns_authority ns_draining set_ns_draining ns_runtime].
  rewrite Hd. cbn [negb]. n_steps. cbn [reading set_ns_authority ns_draining set_ns_draining ns_runtime].
  destruct (Z.leb_spec (nc_DrainPollInterval (ns_runtime n)) 0); [lia|]. cbn [drain_wait]. n_steps.
  apply wp_onCache. cbn [reading set_ns_authority set_ns_draining ns_authority].
  apply wp_OwnedMapIDs_fresh; [done|done|]. split; [done|]. by rewrite gives_nothing_owned.
Qed.

(** C23. A drain comes to its end.  When nothing interferes, a node that has begun to
    drain is relieved in one round of each party: it registers as draining; the
    leader's next discovery starts a failover for it; that failover gives each of its
    maps to another node, at the next epoch, and touches no other map; the sessions of
    the players there follow to the new owners; and once the node has read the new
    topology, its drain reports success.  What it takes is a
    registered healthy standby and the owner's last checkpoint for each map. *)
Theorem drain_hands_over {S} {clients : CoordinatorNodeClient S} term fuel main n e r0 k c e1 i p k1 topology m :
  let nodeID := nm_nodeID main in
  let r := registering main r0 in
  0 < term < 10^14 -> accepting (S := S) -> nodeID <> "" -> 0 < nm_LeaseTTL main ->
  ns_draining n = true -> ns_store n = true -> ac_nodeID (ns_authority n) = nodeID -> 0 < nc_DrainPollInterval (ns_runtime n) ->
  prompt (ac_grace (ns_authority n)) e ->
  (ac_topologyOK (ns_authority n) = true -> t_Version (ac_topology (ns_authority n)) <= t_Version topology) ->
  t_Owners topology !! m = Some nodeID -> stage term nodeID c (maps_of topology nodeID) r topology ->
  ticking e1 -> steady term i ->
  register main (mkNodeSt n (calm r0 k) e) = Some (inr tt, mkNodeSt n (calm r (Datatypes.S k)) e) /\
  exists s1 j s2 topology',
    discoverOnce (mkCoordSt c (calm r k1) e1 i p) = Some (tt, s1) /\ co_jobs (co s1) !! j = Some (JobFailover nodeID) /\
    run_job j s1 = Some (tt, s2) /\ r_topology (n_redis (ct s2)) = Some (Good topology') /\
    all_moved nodeID (maps_of topology nodeID) topology topology' /\
    follow nodeID (maps_of topology nodeID) topology' (r_sessions r0) (r_sessions (n_redis (ct s2))) /\
    forall k2, exists n' e' s', refreshTopology fuel (mkNodeSt n (calm (n_redis (ct s2)) k2) e) = Some (inr tt, mkNodeSt n' (calm (n_redis (ct s2)) (Datatypes.S k2)) e') /\
      BeginDrain [] (mkNodeSt n' (calm (n_redis (ct s2)) (Datatypes.S k2)) e') = Some (inr tt, s').
Proof.
  intros nodeID r Hterm Hacc Hid Httl Hd Hst Hac Hi Hp Hver Hm Hstage Htick Hsteady.
  split; [by apply calm_register|].
  pose proof (sg_ready _ _ _ _ _ _ Hstage) as Hr.
  assert (Hs0 : calm_at term c r (mkCoordSt c (calm r k1) e1 i p)) by (split_and!; try done; by exists k1).
  assert (Hdisc : wp discoverOnce (fun _ s' => exists c', same_pool c c' /\ JobFailover nodeID ∈ co_jobs c' /\ calm_at term c' r s')
    (mkCoordSt c (calm r k1) e1 i p)).
  { apply (calm_discoverOnce term nodeID Hterm c r topology (draining_info main) m); try done. by apply registering_live. }
  apply wp_run in Hdisc as ([] & s1 & Hs1 & c1 & Hpool & Hj & Hat1).
  apply list_elem_of_lookup in Hj as [j Hj].
  pose proof (calm_run_job term nodeID Hterm Hid Hacc c1 r topology j (stage_pool _ _ _ _ _ _ _ Hpool Hstage) Hj s1 Hat1) as Hjob.
  apply wp_run in Hjob as ([] & s2 & Hs2 & c2 & r' & topology' & Hst' & Hmv & Hfo & Hfe & Hv' & Hat2).
  destruct Hat1 as [Hco1 _]. destruct Hat2 as (_ & [k3 Hct2] & _ & _).
  pose proof (sg_ready _ _ _ _ _ _ Hst') as Hr'. exists s1, j, s2, topology'. rewrite Hco1, Hct2. cbn [calm n_redis].
  split; [done|]. split; [done|]. split; [done|]. split; [apply Hr'|]. split; [done|]. split; [exact Hfo|]. intros k2.
  assert (Hno : gives_nothing topology' (ac_nodeID (ns_authority n))).
  { intros m' Hm'. rewrite Hac in Hm'. by apply (sg_left _ _ _ _ _ _ Hst'), elem_of_nil in Hm'. }
  assert (Href := calm_refresh fuel n r' k2 e topology' Hst (rd_topology _ _ _ Hr') (rd_valid _ _ _ Hr')
    (fun H => Z.le_trans _ _ _ (Hver H) Hv') Hno Hp).
  apply wp_run in Href as (a & s3 & Hs3 & -> & ->).
  assert (Hdr := calm_drain n (calm r' (Datatypes.S k2)) e topology' Hd Hi Hno Hp).
  apply wp_run in Hdr as (a & s4 & Hs4 & ->). eexists _, _, _. by split.
Qed.

(** ** A concrete drain

    node-a drains; "demo" goes to node-c ([demo_control_redis]). *)

Definition demo_drain_main : NodeMain := mkNodeMain "node-a" "10.0.0.1:1" "demo" "127.0.0.1:9411" (30 * Second) (5 * Second).
Definition demo_draining : NodeService := set_ns_draining true demo_node.

Lemma demo_live info : live_registration (registering demo_drain_main demo_control_redis) info ->
  info = draining_info demo_drain_main \/ info = mkNodeRegistryInfo "node-c" "10.0.0.3:1" "demo" false.
Proof.
  intros [k Hk]. unfold live in Hk. destruct (r_nodes _ !! k) as [[d x]|] eqn:E; [|done]. destruct (_ <? _); [|done].
  injection Hk as ->. cbn [registering set_r_nodes r_nodes demo_control_redis set_r_checkpoints] in E.
  apply lookup_insert_Some in E as [[_ E]|[_ E]]; [left; congruence|right]. apply lookup_singleton_Some in E as [_ E]. congruence.
Qed.

Lemma demo_node_c_live : live_registration (registering demo_drain_main demo_control_redis) (mkNodeRegistryInfo "node-c" "10.0.0.3:1" "demo" false).
Proof. exists "node-c". vm_compute. reflexivity. Qed.

Lemma demo_maps : maps_of demo_topology "node-a" = ["demo"].
Proof. vm_compute. reflexivity. Qed.

Lemma demo_topology_valid : valid_topology None demo_topology.
Proof. apply Validate_None. vm_compute. reflexivity. Qed.

Lemma demo_stage :
  stage 2 "node-a" demo_coordinator (maps_of demo_topology "node-a") (registering demo_drain_main demo_control_redis) demo_topology.
Proof.
  constructor.
  - constructor.
    + reflexivity.
    + exact demo_topology_valid.
    + split; [reflexivity|discriminate].
    + apply Nat.leb_le. vm_compute. reflexivity.
    + by apply (map_Forall_pair (fun _ d => d <> Corrupt)).
    + by intros info [-> | ->]%demo_live.
  - discriminate.
  - rewrite demo_maps. split; reflexivity.
  - apply (map_Forall_pair (fun _ e => 0 <= e < 10^14 - 1)); split; done.
  - intros m. by rewrite maps_of_spec.
  - rewrite demo_maps. intros m ->%list_elem_of_singleton. exists 3. split; [reflexivity|]. split; [reflexivity|]. constructor.
    + by exists demo_cfg.
    + exists (demo_checkpoint 3). by split_and!.
    + eexists. split; [exact demo_node_c_live|]. split; [done|]. split; [done|]. split; [done|]. eexists. vm_compute. reflexivity.
Qed.

Lemma drain_hands_over_witness :
  exists s1 j s2 topology', discoverOnce (mkCoordSt demo_coordinator (calm (registering demo_drain_main demo_control_redis) 0) demo_env demo_inputs tt) = Some (tt, s1) /\
    run_job j s1 = Some (tt, s2) /\ r_topology (n_redis (ct s2)) = Some (Good topology') /\
    exists n' e' s', refreshTopology 30 (mkNodeSt demo_draining (calm (n_redis (ct s2)) 0) demo_env) = Some (inr tt, mkNodeSt n' (calm (n_redis (ct s2)) 1) e') /\
      BeginDrain [] (mkNodeSt n' (calm (n_redis (ct s2)) 1) e') = Some (inr tt, s').
Proof.
  destruct (drain_hands_over 2 30 demo_drain_main demo_draining demo_env demo_control_redis 0 demo_coordinator demo_env demo_inputs tt 0
    demo_topology "demo") as (_ & s1 & j & s2 & topology' & H1 & _ & H2 & H3 & _ & _ & H4).
  - split; reflexivity.
  - intros cl m cfg cp target q _ _ _ _. by exists q.
  - discriminate.
  - reflexivity.
  - reflexivity.
  - reflexivity.
  - reflexivity.
  - reflexivity.
  - split; [discriminate|]. split; vm_compute; discriminate.
  - intros _. discriminate.
  - reflexivity.
  - exact demo_stage.
  - intros i. cbn. unfold Second. lia.
  - split; [reflexivity|]. split; [reflexivity|]. intros k l x Hx. exact Hx.
  - exists s1, j, s2, topology'. split; [exact H1|]. split; [exact H2|]. split; [exact H3|]. exact (H4 0%nat).
Defined.
