(* ===== verification/Takeover.v ===== *)
(** * Taking over the maps of a dead node

    The way of a failover in calm weather ([Handover]): a node stops answering, the
    leader's next heartbeat notices and starts a failover, and the failover gives each
    of the node's maps to a standby, with the sessions of the players there, and
    fences the dead node out. *)

From Stdlib Require Import ZArith Lia String.
From stdpp Require Import base sorting gmap strings list option relations.
From S2P Require Import Prelude Protocol Config Maps World WorldOps WorldProps Topology Redis Store StoreProps Authority Node NodeProps Coordinator CoordinatorProps Lifecycle NodeProcess Handover.

Open Scope Z_scope.
Open Scope go_scope.

Lemma seen_snoc (k : string) (l : list string) (y : string) :
  bool_decide (k ∈ (l ++ [y])%list) = bool_decide (k ∈ l) || bool_decide (y = k).
Proof.
  destruct (decide (k ∈ (l ++ [y])%list)) as [H|H]; [rewrite (bool_decide_eq_true_2 _ H)|rewrite (bool_decide_eq_false_2 _ H)]; symmetry.
  - apply orb_true_iff. rewrite !bool_decide_eq_true. apply elem_of_app in H as [H|H%list_elem_of_singleton]; auto.
  - apply orb_false_iff. rewrite !bool_decide_eq_false. rewrite elem_of_app, list_elem_of_singleton in H. split; [tauto|]. intros ->. tauto.
Qed.

Section takeover.
Context {S : Type} {clients : CoordinatorNodeClient S}.
Context (term : Z) (failed : string).

(** The node does not answer, every other one does. *)
Definition one_dead : Prop := forall cl p, exists p', Ping cl p = Some (bool_decide (cl_NodeID cl <> failed), p').

(** The pool keeps each connection under the name of its node. *)
Definition named (c : Coordinator) : Prop := forall k conn, co_nodes c !! k = Some conn -> cl_NodeID (nc_client conn) = k.

Hypothesis Hterm : 0 < term < 10^14.
Hypothesis Hfailed : failed <> "".
Hypothesis Hdead : one_dead.

Abbreviation calm_at := (calm_at (S := S)).
Abbreviation calmly c r m Q := (forall s, calm_at term c r s -> wp m (fun a s' => Q a s') s).

Lemma calm_ping c r cl : calmly c r (onPeers (Ping cl)) (fun b s' => b = bool_decide (cl_NodeID cl <> failed) /\ calm_at term c r s').
Proof.
  intros [c0 t e i p] (Hc & Hk & He & Hi). apply wp_onPeers. destruct (Hdead cl p) as [p' Hp]. unfold wp. rewrite Hp.
  split; [done|]. by split_and!.
Qed.

(** The coordinator during a heartbeat: no node but the dead one has lost its health,
    and the dead one was found so at most once. *)
Record beaten (c : Coordinator) (x : nodeConnection) (seen : bool) (c' : Coordinator) : Prop := {
  bt_configs : co_configs c' = co_configs c;
  bt_named : named c';
  bt_healthy : forall k, k <> failed -> is_Some (healthyNode c k) -> is_Some (healthyNode c' k);
  bt_dead : (seen = false /\ co_nodes c' !! failed = Some x /\ co_jobs c' = co_jobs c) \/
            (co_nodes c' !! failed = Some (mkNodeConnection (nc_client x) false) /\ co_jobs c' = (co_jobs c ++ [JobFailover failed])%list)
}.

Lemma calm_setNodeHealth c0 x seen c r k : beaten c0 x seen c -> nc_healthy x = true ->
  calmly c r (setNodeHealth k (bool_decide (k <> failed))) (fun _ s' => exists c',
    beaten c0 x (seen || bool_decide (k = failed)) c' /\ calm_at term c' r s').
Proof.
  intros [Hcf Hnm Hh Hd] Hx s Hs. unfold setNodeHealth, when_leader.
  apply wp_bind. eapply wp_mono; [eapply calm_term; eassumption|]. cbv beta. intros o s1 [-> Hs1].
  apply wp_bind. eapply wp_mono; [eapply calm_selfC; eassumption|]. cbv beta. intros c1 s2 [-> Hs2].
  destruct (decide (k = failed)) as [->|Hk].
  - rewrite (bool_decide_eq_false_2 (failed <> failed)), (bool_decide_eq_true_2 (failed = failed)), orb_true_r by naive_solver.
    destruct Hd as [(_ & Hd & Hj)|[Hd Hj]]; rewrite Hd; cbn [nc_healthy nc_client].
    + rewrite Hx. cbn. apply wp_bind. eapply wp_mono; [by eapply calm_modCo|]. cbv beta. intros [] s3 Hs3.
      eapply wp_mono; [by eapply calm_spawn|]. cbv beta. intros [] s4 Hs4. eexists. split; [|exact Hs4]. constructor; cbn.
      * done.
      * intros k' conn. cbn. rewrite lookup_insert_Some. intros [[<- <-]|[_ Hk']]; [cbn; by apply Hnm|by apply Hnm].
      * intros k' Hk' Hhk. specialize (Hh k' Hk' Hhk). unfold healthyNode in *. cbn. by rewrite lookup_insert_ne.
      * right. by rewrite lookup_insert_eq, Hj.
    + rewrite bool_decide_eq_true_2 by done. apply wp_ret. exists c. split; [|done]. constructor; [done..|]. by right.
  - rewrite (bool_decide_eq_true_2 (k <> failed)), (bool_decide_eq_false_2 (k = failed)), orb_false_r by done.
    assert (Hsame : beaten c0 x seen c) by by constructor.
    destruct (co_nodes c !! k) as [conn|] eqn:Ek; [|by apply wp_ret; exists c].
    case_bool_decide as Hhc; [by apply wp_ret; exists c|]. apply wp_bind. eapply wp_mono; [by eapply calm_modCo|].
    cbv beta. intros [] s3 Hs3. apply wp_ret. eexists. split; [|exact Hs3]. constructor; cbn.
    + done.
    + intros k' conn'. cbn. rewrite lookup_insert_Some. intros [[<- <-]|[_ Hk']]; [cbn; by apply Hnm|by apply Hnm].
    + intros k' Hk' Hhk. specialize (Hh k' Hk' Hhk). unfold healthyNode in *. cbn.
      destruct (decide (k = k')) as [->|Hne]; [rewrite lookup_insert_eq; cbn; by eexists|by rewrite lookup_insert_ne].
    + by rewrite lookup_insert_ne.
Qed.

Lemma calm_heartbeat c r x : named c -> co_nodes c !! failed = Some x -> nc_healthy x = true ->
  calmly c r heartbeatOnce (fun _ s' => exists c', beaten c x true c' /\ calm_at term c' r s').
Proof.
  intros Hnm Hx Hh s Hs. unfold heartbeatOnce, when_leader.
  apply wp_bind. eapply wp_mono; [eapply calm_term; eassumption|]. cbv beta. intros o s1 [-> Hs1].
  apply wp_bind. eapply wp_mono; [eapply calm_selfC; eassumption|]. cbv beta. intros c1 s2 [-> Hs2].
  apply wp_bind. eapply wp_mono; [eapply calm_rangeCo; eassumption|]. cbv beta. intros l s3 [Hl Hs3].
  assert (Hin : x ∈ l).
  { rewrite Hl. apply list_elem_of_fmap. exists (failed, x). split; [done|]. by apply elem_of_map_to_list. }
  eapply wp_mono; [apply (wp_foldM_prefix _ (fun pre _ s => exists c', beaten c x (bool_decide (failed ∈ (cl_NodeID ∘ nc_client) <$> pre)) c' /\
    calm_at term c' r s))|].
  - intros pre [] conn post t _ (c' & Hb & Ht). apply wp_bind. eapply wp_mono; [by eapply calm_ping|]. cbv beta.
    intros b t' [-> Ht']. eapply wp_mono; [by eapply calm_setNodeHealth|]. cbv beta. intros [] t2 (c2 & Hb2 & Ht2).
    exists c2. split; [|done]. rewrite fmap_app. cbn [fmap list_fmap compose]. by rewrite seen_snoc.
  - exists c. split; [|done]. constructor; try done. left. by split.
  - intros [] t (c' & Hb & Ht). exists c'. split; [|done]. rewrite bool_decide_eq_true_2 in Hb; [done|].
    apply list_elem_of_fmap. exists x. split; [|done]. symmetry. by apply Hnm.
Qed.

Lemma beaten_stage c x c' l r topology : beaten c x true c' -> stage term failed c l r topology -> stage term failed c' l r topology.
Proof.
  intros [Hcf _ Hh _] [H1 H2 H3 H4 H5 H6]. constructor; try done. intros m Hm. destruct (H6 m Hm) as (e & He & Hlt & Hmv).
  exists e. split; [done|]. split; [done|]. destruct Hmv as [Hc Hcp (info & Hi & Hne & Hd & Hmap & Hel)]. constructor; [|done|].
  - unfold mapConfig. by rewrite Hcf.
  - exists info. split; [done|]. split_and!; try done. by apply Hh.
Qed.
End takeover.

(** C24. A dead node is replaced.  When nothing else interferes, one heartbeat of the
    leader and the failover it starts are enough: the heartbeat finds the node that
    does not answer, marks it unhealthy, and starts the failover of that node after
    the jobs that were waiting; that failover gives each of the node's maps to another
    node, at the next epoch, and touches no other map; the sessions of the players
    there name the new owners; no map of the topology is left to the dead node, and
    every fence names the owner of the topology at its epoch, so that whatever the
    node still holds, its saves and commits are refused. *)
Theorem dead_node_replaced {S} {clients : CoordinatorNodeClient S} term failed x c r e i p k topology :
  0 < term < 10^14 -> failed <> "" -> one_dead (S := S) failed -> accepting (S := S) ->
  named c -> co_nodes c !! failed = Some x -> nc_healthy x = true ->
  stage term failed c (maps_of topology failed) r topology -> ticking e -> steady term i ->
  exists s1 s2 topology',
    heartbeatOnce (mkCoordSt c (calm r k) e i p) = Some (tt, s1) /\
    co_nodes (co s1) !! failed = Some (mkNodeConnection (nc_client x) false) /\
    co_jobs (co s1) = (co_jobs c ++ [JobFailover failed])%list /\
    run_job (List.length (co_jobs c)) s1 = Some (tt, s2) /\
    r_topology (n_redis (ct s2)) = Some (Good topology') /\
    (forall m, t_Owners topology' !! m <> Some failed) /\
    all_moved failed (maps_of topology failed) topology topology' /\
    follow failed (maps_of topology failed) topology' (r_sessions r) (r_sessions (n_redis (ct s2))) /\
    (maps_of topology failed <> [] -> fenced topology' (n_redis (ct s2))).
Proof.
  intros Hterm Hfailed Hdead Hacc Hnm Hx Hh Hstage Htick Hsteady.
  assert (Hs0 : calm_at term c r (mkCoordSt c (calm r k) e i p)) by (split_and!; try done; by exists k).
  assert (Hbeat := calm_heartbeat term failed Hterm Hdead c r x Hnm Hx Hh _ Hs0).
  apply wp_run in Hbeat as ([] & s1 & Hs1 & c1 & Hb & Hat1).
  destruct (bt_dead _ _ _ _ _ Hb) as [(? & _)|[Hd Hj]]; [done|].
  assert (Hjob : co_jobs c1 !! List.length (co_jobs c) = Some (JobFailover failed)).
  { by rewrite Hj, list_lookup_middle. }
  pose proof (calm_run_job term failed Hterm Hfailed Hacc c1 r topology _ (beaten_stage term failed _ _ _ _ _ _ Hb Hstage) Hjob s1 Hat1) as H.
  apply wp_run in H as ([] & s2 & Hs2 & c2 & r' & topology' & Hst' & Hmv & Hfo & Hfe & _ & Hat2).
  destruct Hat1 as [Hco1 _]. destruct Hat2 as (_ & [k3 Hct2] & _ & _).
  exists s1, s2, topology'. rewrite Hco1, Hct2. cbn [calm n_redis]. split_and!; try done.
  - apply (sg_ready _ _ _ _ _ _ Hst').
  - intros m Hm. by apply (sg_left _ _ _ _ _ _ Hst'), elem_of_nil in Hm.
Qed.

(** ** A concrete death

    node-a owns "demo" and no longer answers; node-c is the standby. *)

#[local] Instance one_silent : CoordinatorNodeClient unit := {
  Dial _ _ := mret true;
  Ping cl := mret (bool_decide (cl_NodeID cl <> "node-a"));
  PromoteRPC _ _ _ _ _ := mret true;
  CloseClient _ := mret tt
}.

Definition demo_pool : Coordinator :=
  set_co_nodes {["node-a" := mkNodeConnection (mkClient "node-a" "10.0.0.1:1") true;
                 "node-c" := mkNodeConnection (mkClient "node-c" "10.0.0.3:1") true]} demo_coordinator.

Lemma demo_pool_stage :
  stage 2 "node-a" demo_pool (maps_of demo_topology "node-a") demo_control_redis demo_topology.
Proof.
  destruct demo_stage as [[H1 H2 H3 H4 H5 _] T V E L M]. constructor; try done.
  - constructor; try done. intros info [k Hk]. unfold live in Hk. destruct (r_nodes demo_control_redis !! k) as [[d t]|] eqn:E'; [|done].
    destruct (_ <? _); [|done]. injection Hk as ->.
    cbn [demo_control_redis set_r_checkpoints set_r_nodes r_nodes] in E'. apply lookup_singleton_Some in E' as [_ E'].
    injection E' as <- <-. done.
  - intros m Hm. destruct (M m Hm) as (e & He & Hlt & [A B _]). rewrite demo_maps in Hm. apply list_elem_of_singleton in Hm as ->.
    exists e. split; [done|]. split; [done|]. constructor; [done|done|].
    exists (mkNodeRegistryInfo "node-c" "10.0.0.3:1" "demo" false). split; [exists "node-c"; vm_compute; reflexivity|].
    split; [done|]. split; [done|]. split; [done|]. eexists. vm_compute. reflexivity.
Qed.

Lemma dead_node_replaced_witness :
  exists s1 s2 topology', heartbeatOnce (mkCoordSt demo_pool (calm demo_control_redis 0) demo_env demo_inputs tt) = Some (tt, s1) /\
    run_job 0 s1 = Some (tt, s2) /\ r_topology (n_redis (ct s2)) = Some (Good topology') /\
    (forall m, t_Owners topology' !! m <> Some "node-a").
Proof.
  destruct (dead_node_replaced 2 "node-a" (mkNodeConnection (mkClient "node-a" "10.0.0.1:1") true) demo_pool demo_control_redis
    demo_env demo_inputs tt 0 demo_topology) as (s1 & s2 & topology' & H1 & _ & _ & H2 & H3 & H4 & _).
  - split; reflexivity.
  - discriminate.
  - intros cl q. exists q. reflexivity.
  - intros cl m cfg cp target q _ _ _ _. by exists q.
  - apply (map_Forall_pair (fun k conn => cl_NodeID (nc_client conn) = k)); reflexivity.
  - reflexivity.
  - reflexivity.
  - exact demo_pool_stage.
  - intros n. cbn. unfold Second. lia.
  - split; [reflexivity|]. split; [reflexivity|]. intros k l y Hy. exact Hy.
  - exists s1, s2, topology'. split; [exact H1|]. split; [exact H2|]. split; [exact H3|exact H4].
Defined.
