(* ===== verification/Wire.v ===== *)
(** * Messages between processes

    The protobuf messages of [pb/battle.proto] as records of what Go's generated
    structs hold ([int32] fields as integers, pointers to messages as options),
    the status codes of gRPC, and errors of remote calls.  The protobuf library
    delivers the message it was given. *)

From Stdlib Require Import ZArith Lia String.
From stdpp Require Import base strings list option.
From S2P Require Import Prelude Protocol Maps Authority.

Open Scope Z_scope.

(** ** Errors of remote calls *)

Inductive Code :=
  | OK | Canceled | Unknown | InvalidArgument | DeadlineExceeded | NotFound | AlreadyExists | PermissionDenied
  | ResourceExhausted | FailedPrecondition | Aborted | OutOfRange | Unimplemented | Internal | Unavailable
  | DataLoss | Unauthenticated.

#[export] Instance Code_eq_dec : EqDecision Code.
Proof. solve_decision. Defined.

(** Where the message of an error comes from: the transport, the test of a
    request's arguments, the test of its owner, or the node's operation. *)
Inductive rpc_cause :=
  | CauseTransport
  | CauseArgument
  | CauseOwner
  | CauseNode (err : node_err).

Record rpc_err := mkRpcErr {
  re_Code : Code;
  re_Cause : rpc_cause
}.

(** ** Messages *)

Record pb_PlayerState := mk_pb_PlayerState {
  ps_Username : string;
  ps_LastMap : string;
  ps_LastNode : string;
  ps_X : Z;
  ps_Y : Z;
  ps_Hp : Z;
  ps_MaxHp : Z;
  ps_Attack : Z;
  ps_Potions : Z;
  ps_Treasures : Z;
  ps_Kills : Z;
  ps_Deaths : Z;
  ps_Victories : Z;
  ps_Alive : bool
}.

Record pb_PlayerView := mk_pb_PlayerView {
  wpv_Username : string;
  wpv_MapId : string;
  wpv_X : Z;
  wpv_Y : Z;
  wpv_Hp : Z;
  wpv_MaxHp : Z;
  wpv_Attack : Z;
  wpv_Potions : Z;
  wpv_Treasures : Z;
  wpv_Kills : Z;
  wpv_Deaths : Z;
  wpv_Victories : Z;
  wpv_Alive : bool;
  wpv_RespawnIn : Z;
  wpv_LastUpdate : string
}.

Record pb_NPCView := mk_pb_NPCView {
  wnv_Id : string;
  wnv_Name : string;
  wnv_X : Z;
  wnv_Y : Z;
  wnv_Hp : Z;
  wnv_MaxHp : Z;
  wnv_Attack : Z;
  wnv_Alive : bool
}.

Record pb_TreasureView := mk_pb_TreasureView {
  wtv_Id : string;
  wtv_Kind : string;
  wtv_X : Z;
  wtv_Y : Z;
  wtv_Value : Z
}.

Record pb_MapBrief := mk_pb_MapBrief {
  wmb_Id : string;
  wmb_Name : string;
  wmb_NodeId : string;
  wmb_Players : Z;
  wmb_Npcs : Z;
  wmb_Treasures : Z;
  wmb_Version : Z;
  wmb_Primary : bool;
  wmb_IsCurrent : bool;
  wmb_Checkpoint : Z
}.

Record pb_NodeView := mk_pb_NodeView {
  wnode_Id : string;
  wnode_Addr : string;
  wnode_Healthy : bool;
  wnode_PrimaryMaps : list string;
  wnode_LastHeartbeat : string
}.

Record pb_BossSite := mk_pb_BossSite {
  wbs_MapId : string;
  wbs_X : Z;
  wbs_Y : Z
}.

Record pb_MapView := mk_pb_MapView {
  wmv_Id : string;
  wmv_Name : string;
  wmv_NodeId : string;
  wmv_Width : Z;
  wmv_Height : Z;
  wmv_Terrain : list string;
  wmv_Players : list (option pb_PlayerView);
  wmv_Npcs : list (option pb_NPCView);
  wmv_Treasures : list (option pb_TreasureView);
  wmv_Version : Z
}.

Record pb_BossView := mk_pb_BossView {
  wbv_Name : string;
  wbv_Hp : Z;
  wbv_MaxHp : Z;
  wbv_Alive : bool;
  wbv_LastHit : string;
  wbv_RespawnIn : Z;
  wbv_AttackGap : Z;
  wbv_Sites : list (option pb_BossSite);
  wbv_Version : Z
}.

Record pb_WorldState := mk_pb_WorldState {
  wws_Self : option pb_PlayerView;
  wws_Map : option pb_MapView;
  wws_Maps : list (option pb_MapBrief);
  wws_Nodes : list (option pb_NodeView);
  wws_Boss : option pb_BossView;
  wws_Events : list string;
  wws_SessionVersion : Z;
  wws_TopologyVersion : Z;
  wws_MapEpoch : Z
}.

Record pb_MapAuthority := mk_pb_MapAuthority {
  wma_MapId : string;
  wma_OwnerNodeId : string;
  wma_MapEpoch : Z
}.

(** An enumeration of protobuf is open. *)
Inductive pb_Direction :=
  | DIRECTION_UNSPECIFIED | DIRECTION_UP | DIRECTION_DOWN | DIRECTION_LEFT | DIRECTION_RIGHT
  | DIRECTION_OTHER (n : Z).

(** The generated getters on a message that may be nil. *)
Definition get {M A} (zero : A) (f : M -> A) (o : option M) : A := default zero (f <$> o).

Section timestamp.
(** [timestamppb.Timestamp] *)
Context (Timestamp : Type).

Record pb_NodeCheckpoint := mk_pb_NodeCheckpoint {
  wcp_MapId : string;
  wcp_NodeId : string;
  wcp_MapEpoch : Z;
  wcp_Version : Z;
  wcp_Terrain : list string;
  wcp_Players : list (option pb_PlayerView);
  wcp_Npcs : list (option pb_NPCView);
  wcp_Treasures : list (option pb_TreasureView);
  wcp_CapturedAt : option Timestamp
}.
End timestamp.

