(* ===== verification/NodeWire.v ===== *)
(** * Mapping at the nodes' boundary

    [transport/node/mapper.go]: domain values to messages and back. *)

From Stdlib Require Import ZArith Lia String.
From stdpp Require Import base strings list option.
From S2P Require Import Prelude Protocol Maps Authority Wire.

Open Scope Z_scope.

Definition NewMapAuthority (mapID ownerNodeID : string) (epoch : Z) : pb_MapAuthority :=
  mk_pb_MapAuthority mapID ownerNodeID epoch.

Definition ToPlayerState (r : UserProfile) : pb_PlayerState :=
  mk_pb_PlayerState (up_Username r) (up_LastMap r) (up_LastNode r) (i32 (up_X r)) (i32 (up_Y r)) (i32 (up_HP
    r)) (i32 (up_MaxHP r)) (i32 (up_Attack r)) (i32 (up_Potions r)) (i32 (up_Treasures r)) (i32 (up_Kills r))
    (i32 (up_Deaths r)) (i32 (up_Victories r)) (up_Alive r).

Definition FromPlayerState (o : option pb_PlayerState) : UserProfile :=
  match o with
  | None => zero_UserProfile
  | Some m => mkUserProfile (ps_Username m) "" (ps_LastMap m) (ps_LastNode m) (ps_X m) (ps_Y m) (ps_Hp m)
      (ps_MaxHp m) (ps_Attack m) (ps_Potions m) (ps_Treasures m) (ps_Kills m) (ps_Deaths m) (ps_Victories m)
      (ps_Alive m)
  end.

Definition ToPlayerView (r : PlayerView) : pb_PlayerView :=
  mk_pb_PlayerView (pv_Username r) (pv_MapID r) (i32 (pv_X r)) (i32 (pv_Y r)) (i32 (pv_HP r)) (i32 (pv_MaxHP
    r)) (i32 (pv_Attack r)) (i32 (pv_Potions r)) (i32 (pv_Treasures r)) (i32 (pv_Kills r)) (i32 (pv_Deaths r))
    (i32 (pv_Victories r)) (pv_Alive r) (i32 (pv_RespawnIn r)) (pv_LastUpdate r).

Definition FromPlayerView (o : option pb_PlayerView) : PlayerView :=
  match o with
  | None => zero_PlayerView
  | Some m => mkPlayerView (wpv_Username m) (wpv_MapId m) (wpv_X m) (wpv_Y m) (wpv_Hp m) (wpv_MaxHp m)
      (wpv_Attack m) (wpv_Potions m) (wpv_Treasures m) (wpv_Kills m) (wpv_Deaths m) (wpv_Victories m)
      (wpv_Alive m) (wpv_RespawnIn m) (wpv_LastUpdate m)
  end.

Definition ToNPCView (r : NPCView) : pb_NPCView :=
  mk_pb_NPCView (nv_ID r) (nv_Name r) (i32 (nv_X r)) (i32 (nv_Y r)) (i32 (nv_HP r)) (i32 (nv_MaxHP r)) (i32
    (nv_Attack r)) (nv_Alive r).

Definition FromNPCView (o : option pb_NPCView) : NPCView :=
  match o with
  | None => zero_NPCView
  | Some m => mkNPCView (wnv_Id m) (wnv_Name m) (wnv_X m) (wnv_Y m) (wnv_Hp m) (wnv_MaxHp m) (wnv_Attack m)
      (wnv_Alive m)
  end.

Definition ToTreasureView (r : TreasureView) : pb_TreasureView :=
  mk_pb_TreasureView (tv_ID r) (tv_Kind r) (i32 (tv_X r)) (i32 (tv_Y r)) (i32 (tv_Value r)).

Definition FromTreasureView (o : option pb_TreasureView) : TreasureView :=
  match o with
  | None => zero_TreasureView
  | Some m => mkTreasureView (wtv_Id m) (wtv_Kind m) (wtv_X m) (wtv_Y m) (wtv_Value m)
  end.

Definition ToNodeView (r : NodeView) : pb_NodeView :=
  mk_pb_NodeView (nodev_ID r) (nodev_Addr r) (nodev_Healthy r) (nodev_PrimaryMaps r) (nodev_LastHeartbeat r).

Definition FromNodeView (o : option pb_NodeView) : NodeView :=
  match o with
  | None => zero_NodeView
  | Some m => mkNodeView (wnode_Id m) (wnode_Addr m) (wnode_Healthy m) (wnode_PrimaryMaps m) (wnode_LastHeartbeat m)
  end.

Definition ToMapView (view : MapView) : pb_MapView :=
  mk_pb_MapView (mv_ID view) (mv_Name view) (mv_NodeID view) (i32 (mv_Width view)) (i32 (mv_Height view)) (mv_Terrain view)
    ((fun p => Some (ToPlayerView p)) <$> mv_Players view) ((fun n => Some (ToNPCView n)) <$> mv_NPCs view)
    ((fun t => Some (ToTreasureView t)) <$> mv_Treasures view) (mv_Version view).

Definition FromMapView (o : option pb_MapView) : MapView :=
  match o with
  | None => zero_MapView
  | Some m =>
      mkMapView (wmv_Id m) (wmv_Name m) (wmv_NodeId m) (wmv_Width m) (wmv_Height m) (wmv_Terrain m)
        (FromPlayerView <$> wmv_Players m) (FromNPCView <$> wmv_Npcs m) (FromTreasureView <$> wmv_Treasures m) (wmv_Version m)
  end.

Section checkpoints.
(** [timestamppb.New], [CheckValid] and [AsTime]. *)
Context {Timestamp : Type} (timestamp_New : Z -> Timestamp) (timestamp_valid : Timestamp -> bool)
  (timestamp_AsTime : Timestamp -> Z).

Definition ToCheckpoint (cp : MapCheckpoint) : option (pb_NodeCheckpoint Timestamp) :=
  if bool_decide (cp_MapID cp = "") then None else
  Some (mk_pb_NodeCheckpoint Timestamp (cp_MapID cp) (cp_NodeID cp) (cp_MapEpoch cp) (cp_Version cp) (cp_Terrain cp)
    ((fun p => Some (ToPlayerView p)) <$> cp_Players cp) ((fun n => Some (ToNPCView n)) <$> cp_NPCs cp)
    ((fun t => Some (ToTreasureView t)) <$> cp_Treasures cp) (Some (timestamp_New (cp_Checkpoint cp)))).

(** [None] is an error: there is no checkpoint, or no valid capture time. *)
Definition FromCheckpoint (o : option (pb_NodeCheckpoint Timestamp)) : option MapCheckpoint :=
  match o with
  | None => None
  | Some m =>
      match wcp_CapturedAt _ m with
      | None => None
      | Some capturedAt =>
          if negb (timestamp_valid capturedAt) then None else
          Some (mkMapCheckpoint (wcp_MapId _ m) (wcp_NodeId _ m) (wcp_MapEpoch _ m) (wcp_Version _ m) (wcp_Terrain _ m)
            (FromPlayerView <$> wcp_Players _ m) (FromNPCView <$> wcp_Npcs _ m) (FromTreasureView <$> wcp_Treasures _ m)
            (timestamp_AsTime capturedAt))
      end
  end.
End checkpoints.

(** [None] is the error of an invalid direction. *)
Definition DirectionFromString (direction : string) : option pb_Direction :=
  if bool_decide (direction = DirUp) then Some DIRECTION_UP else
  if bool_decide (direction = DirDown) then Some DIRECTION_DOWN else
  if bool_decide (direction = DirLeft) then Some DIRECTION_LEFT else
  if bool_decide (direction = DirRight) then Some DIRECTION_RIGHT else None.

Definition DirectionToString (direction : pb_Direction) : option string :=
  match direction with
  | DIRECTION_UP => Some DirUp
  | DIRECTION_DOWN => Some DirDown
  | DIRECTION_LEFT => Some DirLeft
  | DIRECTION_RIGHT => Some DirRight
  | _ => None
  end.
