(* ===== verification/GatewayWire.v ===== *)
(** * Mapping at the gateway's boundary

    [transport/gateway/mapper.go]: the read models a gateway sends to its clients. *)

From Stdlib Require Import ZArith Lia String.
From stdpp Require Import base strings list option.
From S2P Require Import Prelude Protocol Maps Authority Wire.

Open Scope Z_scope.

Definition ToPlayerView (r : PlayerView) : pb_PlayerView :=
  mk_pb_PlayerView (pv_Username r) (pv_MapID r) (i32 (pv_X r)) (i32 (pv_Y r)) (i32 (pv_HP r)) (i32 (pv_MaxHP
    r)) (i32 (pv_Attack r)) (i32 (pv_Potions r)) (i32 (pv_Treasures r)) (i32 (pv_Kills r)) (i32 (pv_Deaths r))
    (i32 (pv_Victories r)) (pv_Alive r) (i32 (pv_RespawnIn r)) (pv_LastUpdate r).

Definition FromPlayerView (o : option pb_PlayerView) : PlayerView :=
  match o with
  | None => zero_PlayerView
  | Some m => mkPlayerView (wpv_Username m) (wpv_MapId m) (wpv_X m) (wpv_Y m) (wpv_Hp m) (wpv_MaxHp m)
      (wpv_Attack m) (wpv_Potions m) (wpv_Treasures m) (wpv_Kills m) (wpv_Deaths m) (wpv_Victories m)
      (wpv_Alive m) (wpv_RespawnIn m) (wpv_LastUpdate m)
  end.

Definition ToNPCView (r : NPCView) : pb_NPCView :=
  mk_pb_NPCView (nv_ID r) (nv_Name r) (i32 (nv_X r)) (i32 (nv_Y r)) (i32 (nv_HP r)) (i32 (nv_MaxHP r)) (i32
    (nv_Attack r)) (nv_Alive r).

Definition FromNPCView (o : option pb_NPCView) : NPCView :=
  match o with
  | None => zero_NPCView
  | Some m => mkNPCView (wnv_Id m) (wnv_Name m) (wnv_X m) (wnv_Y m) (wnv_Hp m) (wnv_MaxHp m) (wnv_Attack m)
      (wnv_Alive m)
  end.

Definition ToTreasureView (r : TreasureView) : pb_TreasureView :=
  mk_pb_TreasureView (tv_ID r) (tv_Kind r) (i32 (tv_X r)) (i32 (tv_Y r)) (i32 (tv_Value r)).

Definition FromTreasureView (o : option pb_TreasureView) : TreasureView :=
  match o with
  | None => zero_TreasureView
  | Some m => mkTreasureView (wtv_Id m) (wtv_Kind m) (wtv_X m) (wtv_Y m) (wtv_Value m)
  end.

Definition ToMapBrief (r : MapBrief) : pb_MapBrief :=
  mk_pb_MapBrief (mb_ID r) (mb_Name r) (mb_NodeID r) (i32 (mb_Players r)) (i32 (mb_NPCs r)) (i32 (mb_Treasures
    r)) (mb_Version r) (mb_Primary r) (mb_IsCurrent r) (mb_Checkpoint r).

Definition FromMapBrief (o : option pb_MapBrief) : MapBrief :=
  match o with
  | None => zero_MapBrief
  | Some m => mkMapBrief (wmb_Id m) (wmb_Name m) (wmb_NodeId m) (wmb_Players m) (wmb_Npcs m) (wmb_Treasures m)
      (wmb_Version m) (wmb_Primary m) (wmb_IsCurrent m) (wmb_Checkpoint m)
  end.

Definition ToNodeView (r : NodeView) : pb_NodeView :=
  mk_pb_NodeView (nodev_ID r) (nodev_Addr r) (nodev_Healthy r) (nodev_PrimaryMaps r) (nodev_LastHeartbeat r).

Definition FromNodeView (o : option pb_NodeView) : NodeView :=
  match o with
  | None => zero_NodeView
  | Some m => mkNodeView (wnode_Id m) (wnode_Addr m) (wnode_Healthy m) (wnode_PrimaryMaps m) (wnode_LastHeartbeat m)
  end.

Definition ToBossSite (r : BossSite) : pb_BossSite :=
  mk_pb_BossSite (bs_MapID r) (i32 (bs_X r)) (i32 (bs_Y r)).

Definition FromBossSite (o : option pb_BossSite) : BossSite :=
  match o with
  | None => zero_BossSite
  | Some m => mkBossSite (wbs_MapId m) (wbs_X m) (wbs_Y m)
  end.

Definition ToMapView (view : MapView) : pb_MapView :=
  mk_pb_MapView (mv_ID view) (mv_Name view) (mv_NodeID view) (i32 (mv_Width view)) (i32 (mv_Height view)) (mv_Terrain view)
    ((fun p => Some (ToPlayerView p)) <$> mv_Players view) ((fun n => Some (ToNPCView n)) <$> mv_NPCs view)
    ((fun t => Some (ToTreasureView t)) <$> mv_Treasures view) (mv_Version view).

Definition FromMapView (o : option pb_MapView) : MapView :=
  match o with
  | None => zero_MapView
  | Some m =>
      mkMapView (wmv_Id m) (wmv_Name m) (wmv_NodeId m) (wmv_Width m) (wmv_Height m) (wmv_Terrain m)
        (FromPlayerView <$> wmv_Players m) (FromNPCView <$> wmv_Npcs m) (FromTreasureView <$> wmv_Treasures m) (wmv_Version m)
  end.

Definition ToBossView (view : BossView) : pb_BossView :=
  mk_pb_BossView (bv_Name view) (i32 (bv_HP view)) (i32 (bv_MaxHP view)) (bv_Alive view) (bv_LastHit view)
    (i32 (bv_RespawnIn view)) (i32 (bv_AttackGap view)) ((fun s => Some (ToBossSite s)) <$> bv_Sites view) (bv_Version view).

Definition FromBossView (o : option pb_BossView) : BossView :=
  match o with
  | None => zero_BossView
  | Some m =>
      mkBossView (wbv_Name m) (wbv_Hp m) (wbv_MaxHp m) (wbv_Alive m) (wbv_LastHit m) (wbv_RespawnIn m) (wbv_AttackGap m)
        (FromBossSite <$> wbv_Sites m) (wbv_Version m)
  end.

Definition ToWorldState (o : option WorldState) : option pb_WorldState :=
  match o with
  | None => None
  | Some s =>
      Some (mk_pb_WorldState (Some (ToPlayerView (ws_Self s))) (Some (ToMapView (ws_Map s)))
        ((fun b => Some (ToMapBrief b)) <$> ws_Maps s) ((fun n => Some (ToNodeView n)) <$> ws_Nodes s)
        (Some (ToBossView (ws_Boss s))) (ws_Events s) (ws_SessionVersion s) (ws_TopologyVersion s) (ws_MapEpoch s))
  end.

Definition FromWorldState (o : option pb_WorldState) : option WorldState :=
  match o with
  | None => None
  | Some m =>
      Some (mkWorldState (FromPlayerView (wws_Self m)) (FromMapView (wws_Map m)) (FromMapBrief <$> wws_Maps m)
        (FromNodeView <$> wws_Nodes m) (FromBossView (wws_Boss m)) (wws_Events m) (wws_SessionVersion m)
        (wws_TopologyVersion m) (wws_MapEpoch m))
  end.
