(* ===== verification/WireProps.v ===== *)
(** * Messages: round trips

    What one process sends, the other receives: the two mappers lose nothing but
    password hashes and what does not fit 32 bits, and agree with each other. *)

From Stdlib Require Import ZArith Lia String.
From stdpp Require Import base strings list option.
From S2P Require Import Prelude Protocol Maps Authority Wire NodeWire GatewayWire.

Open Scope Z_scope.

(** ** Values that fit *)

Definition fit (l : list Z) : Prop := Forall in_i32 l.

Definition profile_fits (p : UserProfile) : Prop :=
  fit [up_X p; up_Y p; up_HP p; up_MaxHP p; up_Attack p; up_Potions p; up_Treasures p; up_Kills p; up_Deaths p; up_Victories p].
Definition player_fits (v : PlayerView) : Prop :=
  fit [pv_X v; pv_Y v; pv_HP v; pv_MaxHP v; pv_Attack v; pv_Potions v; pv_Treasures v; pv_Kills v; pv_Deaths v;
       pv_Victories v; pv_RespawnIn v].
Definition npc_fits (v : NPCView) : Prop := fit [nv_X v; nv_Y v; nv_HP v; nv_MaxHP v; nv_Attack v].
Definition treasure_fits (v : TreasureView) : Prop := fit [tv_X v; tv_Y v; tv_Value v].
Definition brief_fits (b : MapBrief) : Prop := fit [mb_Players b; mb_NPCs b; mb_Treasures b].
Definition site_fits (s : BossSite) : Prop := fit [bs_X s; bs_Y s].
Definition boss_fits (b : BossView) : Prop :=
  fit [bv_HP b; bv_MaxHP b; bv_RespawnIn b; bv_AttackGap b] /\ Forall site_fits (bv_Sites b).
Definition units_fit (players : list PlayerView) (npcs : list NPCView) (treasures : list TreasureView) : Prop :=
  Forall player_fits players /\ Forall npc_fits npcs /\ Forall treasure_fits treasures.
Definition map_fits (v : MapView) : Prop :=
  fit [mv_Width v; mv_Height v] /\ units_fit (mv_Players v) (mv_NPCs v) (mv_Treasures v).
Definition checkpoint_fits (cp : MapCheckpoint) : Prop := units_fit (cp_Players cp) (cp_NPCs cp) (cp_Treasures cp).
Definition state_fits (s : WorldState) : Prop :=
  player_fits (ws_Self s) /\ map_fits (ws_Map s) /\ Forall brief_fits (ws_Maps s) /\ boss_fits (ws_Boss s).

(** A profile as the wire carries it. *)
Definition without_hash (p : UserProfile) : UserProfile :=
  mkUserProfile (up_Username p) "" (up_LastMap p) (up_LastNode p) (up_X p) (up_Y p) (up_HP p) (up_MaxHP p) (up_Attack p)
    (up_Potions p) (up_Treasures p) (up_Kills p) (up_Deaths p) (up_Victories p) (up_Alive p).

(** ** Single messages *)

(** Peel [fit] into its members and remove the truncations. *)
Ltac fit_tac :=
  repeat match goal with H : fit _ |- _ => unfold fit in H; rewrite ?list.Forall_cons in H; destruct_and! H end;
  rewrite ?i32_id by assumption; done.

Lemma through_PlayerState p : profile_fits p -> NodeWire.FromPlayerState (Some (NodeWire.ToPlayerState p)) = without_hash p.
Proof. unfold profile_fits, without_hash. intros H. destruct p; cbn in *. fit_tac. Qed.

Lemma through_PlayerView v : player_fits v -> NodeWire.FromPlayerView (Some (NodeWire.ToPlayerView v)) = v.
Proof. unfold player_fits. intros H. destruct v; cbn in *. fit_tac. Qed.

Lemma through_NPCView v : npc_fits v -> NodeWire.FromNPCView (Some (NodeWire.ToNPCView v)) = v.
Proof. unfold npc_fits. intros H. destruct v; cbn in *. fit_tac. Qed.

Lemma through_TreasureView v : treasure_fits v -> NodeWire.FromTreasureView (Some (NodeWire.ToTreasureView v)) = v.
Proof. unfold treasure_fits. intros H. destruct v; cbn in *. fit_tac. Qed.

Lemma through_MapBrief b : brief_fits b -> FromMapBrief (Some (ToMapBrief b)) = b.
Proof. unfold brief_fits. intros H. destruct b; cbn in *. fit_tac. Qed.

Lemma through_BossSite s : site_fits s -> FromBossSite (Some (ToBossSite s)) = s.
Proof. unfold site_fits. intros H. destruct s; cbn in *. fit_tac. Qed.

Lemma through_NodeView v : NodeWire.FromNodeView (Some (NodeWire.ToNodeView v)) = v.
Proof. by destruct v. Qed.

(** A repeated field. *)
Lemma through_list {A M} (fits : A -> Prop) (from : option M -> A) (to : A -> M) l :
  (forall a, fits a -> from (Some (to a)) = a) -> Forall fits l -> from <$> ((fun a => Some (to a)) <$> l) = l.
Proof.
  intros H Hl. rewrite <- list_fmap_compose. induction Hl as [|a l Ha _ IH]; [done|]. cbn. by rewrite H, IH.
Qed.

Lemma through_units players npcs treasures : units_fit players npcs treasures ->
  NodeWire.FromPlayerView <$> ((fun p => Some (NodeWire.ToPlayerView p)) <$> players) = players /\
  NodeWire.FromNPCView <$> ((fun n => Some (NodeWire.ToNPCView n)) <$> npcs) = npcs /\
  NodeWire.FromTreasureView <$> ((fun t => Some (NodeWire.ToTreasureView t)) <$> treasures) = treasures.
Proof.
  intros (Hp & Hn & Ht). split_and!;
    eauto using through_list, through_PlayerView, through_NPCView, through_TreasureView.
Qed.

Lemma through_MapView v : map_fits v -> NodeWire.FromMapView (Some (NodeWire.ToMapView v)) = v.
Proof.
  intros [H Hu]. apply through_units in Hu as (Hp & Hn & Ht). destruct v; cbn in *. rewrite Hp, Hn, Ht. fit_tac.
Qed.

Lemma through_BossView v : boss_fits v -> FromBossView (Some (ToBossView v)) = v.
Proof.
  intros [H Hs]. apply (through_list _ _ _ _ through_BossSite) in Hs. destruct v; cbn in *. rewrite Hs. fit_tac.
Qed.

Lemma through_WorldState s : state_fits s -> FromWorldState (ToWorldState (Some s)) = Some s.
Proof.
  intros (Hs & Hm & Hb & Hboss). destruct s; cbn in *.
  rewrite (through_list _ _ _ _ through_MapBrief) by done.
  rewrite (through_list (fun _ => True) GatewayWire.FromNodeView GatewayWire.ToNodeView) by (intros; apply through_NodeView || by apply Forall_true).
  f_equal. f_equal; [by apply through_PlayerView|by apply through_MapView|by apply through_BossView].
Qed.

Lemma direction_roundtrip d m : NodeWire.DirectionFromString d = Some m -> NodeWire.DirectionToString m = Some d.
Proof. unfold DirectionFromString. repeat (case_bool_decide; [intros [= <-]; by subst|]). done. Qed.

(** ** All messages *)

Section wire.
Context {Timestamp : Type} (timestamp_New : Z -> Timestamp) (timestamp_valid : Timestamp -> bool)
  (timestamp_AsTime : Timestamp -> Z).
(** [timestamppb]: every time a 64-bit count of nanoseconds reaches is valid and
    comes back. *)
Hypothesis timestamp_laws : forall t, in_i64 t -> timestamp_valid (timestamp_New t) = true /\ timestamp_AsTime (timestamp_New t) = t.

Lemma through_Checkpoint cp : cp_MapID cp <> "" -> in_i64 (cp_Checkpoint cp) -> checkpoint_fits cp ->
  FromCheckpoint timestamp_valid timestamp_AsTime (ToCheckpoint timestamp_New cp) = Some cp.
Proof.
  intros Hm Ht (Hp & Hn & Htr)%through_units. destruct (timestamp_laws _ Ht) as [Hv Ha].
  unfold ToCheckpoint. rewrite bool_decide_eq_false_2 by done. cbn. rewrite Hv, Ha. cbn [negb].
  destruct cp; cbn in *. by rewrite Hp, Hn, Htr.
Qed.

(** C32. Messages are faithful: a profile comes out of the node mapper without its
    password hash and otherwise unchanged, views, checkpoints of a named map and
    whole world states come out exactly as they went in, as long as their numbers
    fit 32 bits; a valid direction comes back, and nothing else is a direction;
    missing messages become zero values, but a missing checkpoint an error. *)
Theorem wire_roundtrip :
  (forall p, profile_fits p -> NodeWire.FromPlayerState (Some (NodeWire.ToPlayerState p)) = without_hash p) /\
  (forall v, map_fits v -> NodeWire.FromMapView (Some (NodeWire.ToMapView v)) = v) /\
  (forall cp, cp_MapID cp <> "" -> in_i64 (cp_Checkpoint cp) -> checkpoint_fits cp ->
     FromCheckpoint timestamp_valid timestamp_AsTime (ToCheckpoint timestamp_New cp) = Some cp) /\
  (forall s, state_fits s -> FromWorldState (ToWorldState (Some s)) = Some s) /\
  (forall d, (exists m, DirectionFromString d = Some m /\ DirectionToString m = Some d) \/
             (DirectionFromString d = None /\ d ∉ [DirUp; DirDown; DirLeft; DirRight])) /\
  (NodeWire.FromPlayerState None = zero_UserProfile /\ NodeWire.FromMapView None = zero_MapView /\
   FromCheckpoint timestamp_valid timestamp_AsTime None = None).
Proof.
  split_and!; try done.
  - apply through_PlayerState.
  - apply through_MapView.
  - apply through_Checkpoint.
  - apply through_WorldState.
  - intros d. destruct (DirectionFromString d) as [m|] eqn:E; [left; exists m; split; [done|by apply direction_roundtrip]|right].
    split; [done|]. unfold DirectionFromString in E. repeat (case_bool_decide; [done|]).
    rewrite !not_elem_of_cons. split_and!; try done. apply not_elem_of_nil.
Qed.
End wire.

(** Timestamps as counts of nanoseconds. *)
Lemma wire_roundtrip_witness :
  let cp := mkMapCheckpoint "demo" "node-a" 3 9 ["#.#"]
              [mkPlayerView "ann" "demo" 1 1 0 120 35 3 9 0 1 0 false 4 "t"] [] [mkTreasureView "t1" "宝箱" 2 1 3] 77 in
  FromCheckpoint (fun _ : Z => true) (fun t => t) (ToCheckpoint (fun t => t) cp) = Some cp.
Proof.
  intros cp. destruct (wire_roundtrip (fun t => t) (fun _ : Z => true) (fun t => t)) as (_ & _ & H & _); [done|].
  apply H.
  - discriminate.
  - unfold in_i64. cbn. lia.
  - unfold checkpoint_fits, units_fit. cbn. unfold player_fits, treasure_fits, fit.
    repeat match goal with
    | |- Forall _ [] => constructor
    | |- Forall _ (_ :: _) => apply list.Forall_cons
    | |- in_i32 _ => unfold in_i32; cbn; lia
    | |- _ /\ _ => split
    | |- _ => progress cbn
    end.
Defined.
