(* ===== verification/Cluster.v ===== *)
(** * The gateway's cluster view

    [cluster/*.go]: routing by the committed topology, the pool of data-plane
    clients, player sessions, the commands a gateway forwards to the nodes, the
    map cache and the event buffers.  The clients of the nodes are an interface
    ([GatewayNodeClient]).  The commands of one gateway run one at a time, a round
    of the map cache in three pieces with commands in between; the other processes
    act on Redis before each of its commands. *)

From Stdlib Require Import ZArith Lia String.
From stdpp Require Import base sorting gmap strings list option.
From S2P Require Import Prelude Protocol Config Maps World WorldOps Topology Redis Store Users Authority Wire Coordinator.

Open Scope Z_scope.
Open Scope go_scope.

(** ** The clients of the nodes *)

(** [cluster.gatewayNodeClient]; [DialGateway] is the factory. *)
Class GatewayNodeClient (S : Type) := {
  DialGateway : string -> string -> ST S bool;
  RpcAddPlayer : client -> string -> Z -> UserProfile -> ST S (rpc_err + unit);
  RpcRemovePlayer : client -> string -> string -> Z -> ST S (rpc_err + UserProfile * bool);
  RpcMovePlayer : client -> string -> string -> string -> Z -> ST S (rpc_err + string * UserProfile * bool);
  RpcAttack : client -> string -> string -> Z -> ST S (rpc_err + string * string * string * UserProfile * bool);
  RpcHeal : client -> string -> string -> Z -> ST S (rpc_err + string * UserProfile * bool);
  RpcBuyItem : client -> string -> string -> string -> Z -> ST S (rpc_err + string * UserProfile * bool);
  RpcAttackBoss : client -> string -> string -> Z -> ST S (rpc_err + string * UserProfile * bool);
  RpcProfile : client -> string -> string -> ST S (rpc_err + UserProfile * bool);
  RpcRewardPlayer : client -> string -> string -> Z -> Z -> Z -> ST S (rpc_err + UserProfile * bool);
  RpcSnapshot : client -> string -> ST S (rpc_err + MapView);
  CloseGateway : client -> ST S unit
}.

(** ** State *)

(** [cluster.MapCacheData] *)
Record MapCacheData := mkMapCacheData {
  mc_View : option MapView;
  mc_Brief : MapBrief
}.

(** [cluster.Cluster]; [cl_owners] is the read cache of the committed topology *)
Record Cluster := mkCluster {
  cl_nodes : gmap string client;
  cl_nodeAddrs : gmap string string;
  cl_nodeTargets : gmap string string;
  cl_closed : bool;
  cl_owners : gmap string string;
  cl_topology : Topology;
  cl_topologyLoaded : bool;
  cl_configs : gmap string MapConfig;
  cl_mapCache : gmap string MapCacheData;
  cl_bossCache : BossState;
  cl_bossHpCache : Z;
  cl_globalEvents : list string;
  cl_mapEvents : gmap string (list string);
  cl_userEvents : gmap string (list string);
  cl_localSessions : gmap string GlobalSession
}.

Definition set_cl_pool (nodes : gmap string client) (addrs targets : gmap string string) (c : Cluster) : Cluster :=
  mkCluster nodes addrs targets (cl_closed c) (cl_owners c) (cl_topology c) (cl_topologyLoaded c) (cl_configs c)
    (cl_mapCache c) (cl_bossCache c) (cl_bossHpCache c) (cl_globalEvents c) (cl_mapEvents c) (cl_userEvents c) (cl_localSessions c).
Definition set_cl_closed (v : bool) (c : Cluster) : Cluster :=
  mkCluster (cl_nodes c) (cl_nodeAddrs c) (cl_nodeTargets c) v (cl_owners c) (cl_topology c) (cl_topologyLoaded c) (cl_configs c)
    (cl_mapCache c) (cl_bossCache c) (cl_bossHpCache c) (cl_globalEvents c) (cl_mapEvents c) (cl_userEvents c) (cl_localSessions c).
Definition set_cl_topology (topology : Topology) (owners : gmap string string) (c : Cluster) : Cluster :=
  mkCluster (cl_nodes c) (cl_nodeAddrs c) (cl_nodeTargets c) (cl_closed c) owners topology true (cl_configs c)
    (cl_mapCache c) (cl_bossCache c) (cl_bossHpCache c) (cl_globalEvents c) (cl_mapEvents c) (cl_userEvents c) (cl_localSessions c).
Definition set_cl_mapCache (v : gmap string MapCacheData) (c : Cluster) : Cluster :=
  mkCluster (cl_nodes c) (cl_nodeAddrs c) (cl_nodeTargets c) (cl_closed c) (cl_owners c) (cl_topology c) (cl_topologyLoaded c) (cl_configs c)
    v (cl_bossCache c) (cl_bossHpCache c) (cl_globalEvents c) (cl_mapEvents c) (cl_userEvents c) (cl_localSessions c).
Definition set_cl_boss (state : BossState) (hp : Z) (c : Cluster) : Cluster :=
  mkCluster (cl_nodes c) (cl_nodeAddrs c) (cl_nodeTargets c) (cl_closed c) (cl_owners c) (cl_topology c) (cl_topologyLoaded c) (cl_configs c)
    (cl_mapCache c) state hp (cl_globalEvents c) (cl_mapEvents c) (cl_userEvents c) (cl_localSessions c).
Definition set_cl_events (global : list string) (map user : gmap string (list string)) (c : Cluster) : Cluster :=
  mkCluster (cl_nodes c) (cl_nodeAddrs c) (cl_nodeTargets c) (cl_closed c) (cl_owners c) (cl_topology c) (cl_topologyLoaded c) (cl_configs c)
    (cl_mapCache c) (cl_bossCache c) (cl_bossHpCache c) global map user (cl_localSessions c).
Definition set_cl_localSessions (v : gmap string GlobalSession) (c : Cluster) : Cluster :=
  mkCluster (cl_nodes c) (cl_nodeAddrs c) (cl_nodeTargets c) (cl_closed c) (cl_owners c) (cl_topology c) (cl_topologyLoaded c) (cl_configs c)
    (cl_mapCache c) (cl_bossCache c) (cl_bossHpCache c) (cl_globalEvents c) (cl_mapEvents c) (cl_userEvents c) v.

(** [newCluster], for a store and a factory that are not nil. *)
Definition newCluster : Cluster :=
  mkCluster ∅ ∅ ∅ false ∅ zero_Topology false (foldl (fun m cfg => <[cfg_ID cfg := cfg]> m) ∅ available_maps)
    ∅ zero_BossState 0 [] ∅ ∅ ∅.

Inductive gw_err :=
  | GErrConfirmEmpty
  | GErrConfirmMismatch
  | GErrStore (cause : store_err)
  | GErrOnline (username : string)
  | GErrRouteNotReady
  | GErrAddPlayer (cause : rpc_err)
  | GErrOffline (username : string)
  | GErrMapRoute (mapID : string)
  | GErrMove (cause : rpc_err)
  | GErrMoveRejected
  | GErrAttack (cause : rpc_err)
  | GErrAttackRejected
  | GErrHeal (cause : rpc_err)
  | GErrHealRejected
  | GErrShop (cause : rpc_err)
  | GErrShopRejected
  | GErrBoss (cause : rpc_err)
  | GErrProfile (cause : rpc_err)
  | GErrNoProfile
  | GErrFallen
  | GErrTargetRoute (mapID : string)
  | GErrTry (cause : rpc_err)
  | GErrTryRejected
  | GErrConfirm (cause : rpc_err)
  | GErrConfirmCheck
  | GErrSyncing
  | GErrRegistry (cause : store_err)
  | GErrTopology (cause : store_err).

Section cluster.
Context {S : Type} {clients : GatewayNodeClient S}.
Context (bcrypt_generate : string -> option string) (bcrypt_compare : string -> string -> bool)
  (sha256_hex : string -> string).

(** A gateway process: the cluster view, the connections to Redis and to the
    database, the environment, the pool of reusable states (with the choices the
    pool will make), what SCAN makes of the keys, and the nodes. *)
Record GwSt := mkGwSt {
  gw : Cluster;
  gt : Net;
  gdb : DB;
  ge : Env;
  gpool : list WorldState;
  gchoice : list nat;
  gscan : list string -> list string;
  gpeers : S
}.

Abbreviation GM := (ST GwSt).

Definition selfG {A} (f : Cluster -> A) : GM A := gets (fun s => f (gw s)).
Definition modG (f : Cluster -> Cluster) : GM unit :=
  modify (fun s => mkGwSt (f (gw s)) (gt s) (gdb s) (ge s) (gpool s) (gchoice s) (gscan s) (gpeers s)).
Definition onRedisG {A} (m : RM A) : GM A :=
  zoom gt (fun t s => mkGwSt (gw s) t (gdb s) (ge s) (gpool s) (gchoice s) (gscan s) (gpeers s)) m.
Definition onDB {A} (m : DM A) : GM A :=
  zoom gdb (fun d s => mkGwSt (gw s) (gt s) d (ge s) (gpool s) (gchoice s) (gscan s) (gpeers s)) m.
Definition onNodes {A} (m : ST S A) : GM A :=
  zoom gpeers (fun p s => mkGwSt (gw s) (gt s) (gdb s) (ge s) (gpool s) (gchoice s) (gscan s) p) m.
Definition set_ge (e : Env) (s : GwSt) : GwSt :=
  mkGwSt (gw s) (gt s) (gdb s) e (gpool s) (gchoice s) (gscan s) (gpeers s).
Definition nowG : GM Z := now ge set_ge.
Definition rangeG {A} (l : list A) : GM (list A) := range_order ge set_ge l.

(** [protocol.AllocWorldState] and [protocol.FreeWorldState] on the shared pool. *)
Definition allocG : GM WorldState := fun s =>
  let '(ws, pool) := AllocWorldState (default 0%nat (head (gchoice s))) (gpool s) in
  Some (ws, mkGwSt (gw s) (gt s) (gdb s) (ge s) pool (tail (gchoice s)) (gscan s) (gpeers s)).
Definition freeG (ws : WorldState) : GM unit :=
  modify (fun s => mkGwSt (gw s) (gt s) (gdb s) (ge s) (PutWorldState (Some ws) (gpool s)) (gchoice s) (gscan s) (gpeers s)).

(** A failure of [m] is reported as [wrap err]. *)
Definition wrapErr {E A} (wrap : E -> gw_err) (m : GM (E + A)) : GM (gw_err + A) :=
  r ← m;
  match r with
  | inl err => fail (wrap err)
  | inr a => ok a
  end.

(** ** The committed topology *)

Definition applyTopologyLocked (topology : Topology) (c : Cluster) : (gw_err + bool) * Cluster :=
  match Validate (Some (dom (cl_configs c))) topology with
  | Some err => (inl (GErrTopology err), c)
  | None =>
      if cl_topologyLoaded c && (t_Version topology <=? t_Version (cl_topology c)) then (inr false, c) else
      (inr true, set_cl_mapCache ∅ (set_cl_topology (Clone topology) (t_Owners (Clone topology)) c))
  end.

Definition gatewayOwnerTargets (topology : Topology) (registrations : list NodeRegistryInfo) : gmap string string :=
  foldl (fun (targets : gmap string string) registration =>
      if negb (existsb (fun o => bool_decide (o = nr_ID registration) && negb (bool_decide (o = ""))) (values (t_Owners topology)))
      then targets else
      if nr_Draining registration then targets else
      if bad_name (nr_Addr registration) then targets else
      match targets !! nr_ID registration with
      | Some _ => targets
      | None => <[nr_ID registration := nr_Addr registration]> targets
      end) ∅ registrations.

Definition gatewayNodeStillWantedLocked (c : Cluster) (nodeID addr : string) : bool :=
  cl_topologyLoaded c && bool_decide (default "" (cl_nodeTargets c !! nodeID) = addr).

(** A pooled client that is no longer wanted, or wanted at another address. *)
Definition obsolete (targets : gmap string string) (c : Cluster) (nodeID : string) : bool :=
  match targets !! nodeID with
  | None => true
  | Some addr => negb (bool_decide (default "" (cl_nodeAddrs c !! nodeID) = addr))
  end.

Definition connectGatewayNode (nodeID addr : string) : GM unit :=
  dialled ← onNodes (DialGateway nodeID addr);
  if negb dialled then mret tt else
  let cl := mkClient nodeID addr in
  c ← selfG id;
  if cl_closed c || negb (gatewayNodeStillWantedLocked c nodeID addr) then onNodes (CloseGateway cl) else
  match cl_nodes c !! nodeID with
  | Some _ => onNodes (CloseGateway cl)
  | None => modG (fun c => set_cl_pool (<[nodeID := cl]> (cl_nodes c)) (<[nodeID := addr]> (cl_nodeAddrs c)) (cl_nodeTargets c) c)
  end.

Definition reconcileGatewayNodes (topology : Topology) : GM (gw_err + unit) :=
  scan ← gets gscan;
  activeNodes ←! wrapErr GErrRegistry (onRedisG (GetActiveNodes scan));
  let targets := gatewayOwnerTargets topology activeNodes in
  c ← selfG id;
  if cl_closed c || negb (cl_topologyLoaded c) || negb (t_Version (cl_topology c) =? t_Version topology) then ok tt else
  pooled ← rangeG (map_keys (cl_nodes c));
  let dropped := filter (fun nodeID => obsolete targets c nodeID = true) pooled in
  let closing := omap (fun nodeID => cl_nodes c !! nodeID) dropped in
  let drop {A} (m : gmap string A) := foldl (fun m nodeID => delete nodeID m) m dropped in
  _ ← modG (fun c => set_cl_pool (drop (cl_nodes c)) (drop (cl_nodeAddrs c)) targets c);
  c ← selfG id;
  let pending := filter (fun p : string * string => cl_nodes c !! p.1 = None) (map_to_list targets) in
  _ ← foldM (fun _ node => onNodes (CloseGateway node)) tt closing;
  pending ← rangeG pending;
  _ ← foldM (fun _ (p : string * string) => connectGatewayNode p.1 p.2) tt pending;
  ok tt.

Definition loadTopology : GM (gw_err + bool) :=
  found ←! wrapErr GErrStore (onRedisG LoadTopology);
  match found with
  | None => ok false
  | Some topology =>
      c ← selfG id;
      let '(result, c') := applyTopologyLocked topology c in
      _ ← modG (fun _ => c');
      match result with
      | inl err => fail err
      | inr updated =>
          _ ← reconcileGatewayNodes (Clone (cl_topology c'));
          ok updated
      end
  end.

(** [Start], up to the loops it starts. *)
Definition StartCluster : GM unit := _ ← loadTopology; mret tt.

Definition CloseCluster : GM unit :=
  c ← selfG id;
  if cl_closed c then mret tt else
  nodes ← rangeG (values (cl_nodes c));
  _ ← modG (fun c => set_cl_closed true (set_cl_pool ∅ ∅ ∅ c));
  foldM (fun _ node => onNodes (CloseGateway node)) tt nodes.

(** ** Views of the routing *)

Definition add_view (c : Cluster) (views : gmap string NodeView) (mapID : string) : gmap string NodeView :=
  let nodeID := default "" (t_Owners (cl_topology c) !! mapID) in
  if bool_decide (nodeID = "") then views else
  let view := default zero_NodeView (views !! nodeID) in
  <[nodeID := mkNodeView nodeID (default "" (cl_nodeAddrs c !! nodeID)) (bool_decide (is_Some (cl_nodes c !! nodeID)))
      (nodev_PrimaryMaps view ++ [mapID]) "由 coordinator 管理"]> views.

Definition gatewayNodeViewsLocked : GM (list NodeView) :=
  c ← selfG id;
  mapIDs ← rangeG (map_keys (t_Owners (cl_topology c)));
  let viewsByID := foldl (add_view c) ∅ mapIDs in
  mret (omap (fun nodeID =>
      (fun view => mkNodeView (nodev_ID view) (nodev_Addr view) (nodev_Healthy view)
                     (sort_strings (nodev_PrimaryMaps view)) (nodev_LastHeartbeat view)) <$> viewsByID !! nodeID)
    (sort_strings (map_keys viewsByID))).

(** [strings.Join(l, "\n")] and the ["%v"] of a slice of strings. *)
Definition join (separator : string) (l : list string) : string := String.concat separator l.
Definition print_slice (l : list string) : string := "[" +:+ join " " l +:+ "]".
Definition newline : string := of_bytes [10%nat].

Definition status_line (view : NodeView) : string :=
  "- " +:+ nodev_ID view +:+ " " +:+ (if nodev_Healthy view then "数据面已连接" else "等待节点注册")
  +:+ " owner 地图=" +:+ print_slice (nodev_PrimaryMaps view).

Definition GatewayStatus_ : GM GatewayStatus :=
  c ← selfG id;
  if negb (cl_topologyLoaded c)
  then mret (mkGatewayStatus "网关路由尚未就绪：等待 coordinator 提交 Topology" false (t_Version (cl_topology c)) []) else
  nodes ← gatewayNodeViewsLocked;
  mret (mkGatewayStatus
    (join newline (("网关路由状态：Topology Version=" +:+ itoa (t_Version (cl_topology c))) :: (status_line <$> nodes)))
    true (t_Version (cl_topology c)) nodes).

(** The owner of a map, its epoch and the client to reach it; [None] when the
    route is not ready. *)
Definition route (c : Cluster) (mapID : string) : option (string * Z * client) :=
  let ownerID := default "" (cl_owners c !! mapID) in
  let epoch := default 0 (t_MapEpochs (cl_topology c) !! mapID) in
  match cl_nodes c !! ownerID with
  | Some node =>
      if negb (cl_topologyLoaded c) || bool_decide (ownerID = "") || (epoch =? 0) then None
      else Some (ownerID, epoch, node)
  | None => None
  end.

(** ** Events *)

Definition publishG (channel event : string) : GM unit := _ ← onRedisG (PublishEvent channel event); mret tt.

Definition pushEvent (username event : string) : GM unit :=
  if bool_decide (event = "") then mret tt else publishG ("events:user:" +:+ username) event.
Definition broadcastGlobalEvent (event : string) : GM unit :=
  if bool_decide (event = "") then mret tt else publishG "events:global" event.
Definition broadcastMapEvent (mapID event : string) : GM unit :=
  if bool_decide (event = "") then mret tt else publishG ("events:map:" +:+ mapID) event.

(** [buf = append(buf, x); if len(buf) > n { buf = buf[len(buf)-n:] }] *)
Definition push_last (n : nat) (buf : list string) (x : string) : list string :=
  let buf := (buf ++ [x])%list in
  if (n <? length buf)%nat then drop (length buf - n) buf else buf.

Definition buffer_event (channel payload : string) (c : Cluster) : Cluster :=
  if bool_decide (channel = "events:global")
  then set_cl_events (push_last 3 (cl_globalEvents c) payload) (cl_mapEvents c) (cl_userEvents c) c
  else if HasPrefix channel "events:map:"
  then let mapID := TrimPrefix channel "events:map:" in
       set_cl_events (cl_globalEvents c)
         (<[mapID := push_last 3 (default [] (cl_mapEvents c !! mapID)) payload]> (cl_mapEvents c)) (cl_userEvents c) c
  else if HasPrefix channel "events:user:"
  then let username := TrimPrefix channel "events:user:" in
       set_cl_events (cl_globalEvents c) (cl_mapEvents c)
         (<[username := push_last 2 (default [] (cl_userEvents c !! username)) payload]> (cl_userEvents c)) c
  else c.

(** One message of [eventLoop]. *)
Definition onMessage (channel payload : string) : GM unit :=
  if bool_decide (channel = TopologyEventChannel) then _ ← loadTopology; mret tt
  else modG (buffer_event channel payload).

(** ** Snapshots *)

(** The session with the current owner in place of its node, the client of that
    owner, and the epoch. *)
Definition sessionNode (username : string) : GM (gw_err + GlobalSession * client * Z) :=
  c ← selfG id;
  session ←! (match cl_localSessions c !! username with
    | Some cached => ok cached
    | None =>
        loaded ← onRedisG (LoadGlobalSession username);
        match loaded with
        | None => fail (GErrOffline username)
        | Some loaded =>
            _ ← modG (fun c => set_cl_localSessions (<[username := loaded]> (cl_localSessions c)) c);
            ok loaded
        end
    end);
  c ← selfG id;
  match route c (gs_MapID session) with
  | None => fail (GErrMapRoute (gs_MapID session))
  | Some (ownerID, epoch, node) =>
      ok (mkGlobalSession (gs_Username session) (gs_MapID session) ownerID (gs_Version session), node, epoch)
  end.

(** The last eight elements. *)
Definition last_events (events : list string) : list string :=
  if (8 <? length events)%nat then take 8 (drop (length events - 8) events) else events.

Definition collect_events (c : Cluster) (mapID username : string) : list string :=
  (cl_globalEvents c ++ default [] (cl_mapEvents c !! mapID) ++ default [] (cl_userEvents c !! username))%list.

(** [time.Until(t).Seconds()] as an [int]; the floating-point division is exact
    enough for times less than 2^23 seconds away. *)
Definition bossViewG : GM BossView :=
  c ← selfG id;
  let b := cl_bossCache c in
  respawnIn ← (if boss_Alive b then mret 0 else
    t ← nowG;
    let remain := Z.quot (Sub (boss_RespawnAt b) t) Second in
    mret (if remain <? 1 then 1 else remain));
  mret (mkBossView (boss_Name b) (cl_bossHpCache c) 1600 (boss_Alive b) (boss_LastHit b) respawnIn
    (boss_AttackGap b) (boss_Sites b) (boss_Version b)).

Definition own_view (mapView : MapView) (username : string) : PlayerView :=
  default zero_PlayerView (List.find (fun player => bool_decide (pv_Username player = username)) (mv_Players mapView)).

(** The briefs of the cache by map, in the order of the configured maps. *)
Definition briefs_by_ID (cache : list MapCacheData) : gmap string MapBrief :=
  foldl (fun m k => <[mb_ID (mc_Brief k) := mc_Brief k]> m) ∅ cache.

Definition current_briefs (c : Cluster) (mapID : string) (briefs : gmap string MapBrief) : list MapBrief :=
  omap (fun m => (fun brief => set_mb_IsCurrent (bool_decide (m = mapID)) brief) <$> briefs !! m)
    (sort_strings (map_keys (cl_configs c))).

(** [sessionNode] never returns a nil client, so the test [node == nil] fails. *)
Definition SnapshotFor (username : string) : GM (gw_err + WorldState) :=
  located ←! sessionNode username;
  let '(session, _, _) := located in
  c ← selfG id;
  let topologyVersion := t_Version (cl_topology c) in
  let mapEpoch := default 0 (t_MapEpochs (cl_topology c) !! gs_MapID session) in
  ws ← allocG;
  let ws := mkWorldState (ws_Self ws) (ws_Map ws) (ws_Maps ws) (ws_Nodes ws) (ws_Boss ws) (ws_Events ws)
              (gs_Version session) topologyVersion mapEpoch in
  let events := (take 0 (ws_Events ws) ++ collect_events c (gs_MapID session) username)%list in
  let ws := mkWorldState (ws_Self ws) (ws_Map ws) (ws_Maps ws) (ws_Nodes ws) (ws_Boss ws) (last_events events)
              (ws_SessionVersion ws) (ws_TopologyVersion ws) (ws_MapEpoch ws) in
  nodeViews ← gatewayNodeViewsLocked;
  bossView ← bossViewG;
  cached ← rangeG (values (cl_mapCache c));
  match cl_mapCache c !! gs_MapID session ≫= mc_View with
  | None => _ ← freeG ws; fail GErrSyncing
  | Some mapView =>
      let maps := current_briefs c (gs_MapID session) (briefs_by_ID cached) in
      ok (mkWorldState (own_view mapView username) mapView (take 0 (ws_Maps ws) ++ maps)%list
            (take 0 (ws_Nodes ws) ++ nodeViews)%list bossView (ws_Events ws)
            (ws_SessionVersion ws) (ws_TopologyVersion ws) (ws_MapEpoch ws))
  end.

(** The refreshed state that ends a command. *)
Definition refreshed (username : string) : GM (gw_err + option WorldState) :=
  ws ←! SnapshotFor username; ok (Some ws).

(** ** Accounts and sessions *)

Definition RegisterUser (username password confirm : string) : GM (gw_err + unit) :=
  if bool_decide (confirm = "") then fail GErrConfirmEmpty else
  if negb (bool_decide (password = confirm)) then fail GErrConfirmMismatch else
  wrapErr GErrStore (onDB (Register bcrypt_generate username password)).

Definition Login (username password : string) : GM (gw_err + option WorldState) :=
  profile ←! wrapErr GErrStore (onDB (Authenticate bcrypt_compare sha256_hex username password));
  online ← onRedisG (LoadGlobalSession username);
  match online with
  | Some _ => fail (GErrOnline username)
  | None =>
      c ← selfG id;
      let mapID := if bool_decide (is_Some (cl_configs c !! up_LastMap profile)) then up_LastMap profile else DefaultMapID in
      match route c mapID with
      | None => fail GErrRouteNotReady
      | Some (ownerID, epoch, owner) =>
          _ ←! wrapErr GErrAddPlayer (onNodes (RpcAddPlayer owner mapID epoch profile));
          let session := mkGlobalSession username mapID ownerID 1 in
          _ ← onRedisG (SaveGlobalSession session);
          _ ← modG (fun c => set_cl_localSessions (<[username := session]> (cl_localSessions c)) c);
          _ ← publishG ("events:user:" +:+ username) ("欢迎回来，" +:+ username);
          _ ← publishG ("events:user:" +:+ username) ("当前地图 " +:+ mapID +:+ " 由 " +:+ ownerID +:+ " 承载");
          refreshed username
      end
  end.

(** The text of an error contains ["已存在"] exactly for a user that exists: the
    texts of the libraries are not Chinese. *)
Definition user_exists (err : gw_err) : bool :=
  match err with
  | GErrStore (ErrUserExists _) => true
  | _ => false
  end.

Definition QuickEnter (username password : string) : GM (gw_err + option WorldState) :=
  r ← RegisterUser username password password;
  match r with
  | inl err => if user_exists err then Login username password else fail err
  | inr _ => Login username password
  end.

Definition Logout (username : string) : GM (gw_err + unit) :=
  found ← onRedisG (LoadGlobalSession username);
  match found with
  | None => ok tt
  | Some session =>
      c ← selfG id;
      _ ← (match route c (gs_MapID session) with
        | None => mret tt
        | Some (ownerID, epoch, node) =>
            r ← onNodes (RpcRemovePlayer node (gs_MapID session) username epoch);
            match r with
            | inr (profile, true) => _ ← onDB (SaveProfile (set_up_last (gs_MapID session) ownerID profile)); mret tt
            | _ => mret tt
            end
        end);
      _ ← onRedisG (DeleteGlobalSession username);
      _ ← modG (fun c => set_cl_localSessions (delete username (cl_localSessions c)) c);
      wrapErr GErrStore (onRedisG (DeleteHotSession username))
  end.

(** ** Commands *)

Definition Move (username dir : string) : GM (gw_err + option WorldState) :=
  located ←! sessionNode username;
  let '(session, node, epoch) := located in
  r ←! wrapErr GErrMove (onNodes (RpcMovePlayer node (gs_MapID session) username dir epoch));
  let '(_, _, accepted) := r in
  if negb accepted then fail GErrMoveRejected else ok None.

Definition AttackCmd (username : string) : GM (gw_err + option WorldState) :=
  located ←! sessionNode username;
  let '(session, node, epoch) := located in
  r ←! wrapErr GErrAttack (onNodes (RpcAttack node (gs_MapID session) username epoch));
  let '(event, targetUsername, targetEvent, _, accepted) := r in
  if negb accepted then fail GErrAttackRejected else
  _ ← pushEvent username event;
  _ ← (if negb (bool_decide (targetUsername = "")) && negb (bool_decide (targetEvent = ""))
       then pushEvent targetUsername targetEvent else mret tt);
  refreshed username.

Definition HealCmd (username : string) : GM (gw_err + option WorldState) :=
  located ←! sessionNode username;
  let '(session, node, epoch) := located in
  r ←! wrapErr GErrHeal (onNodes (RpcHeal node (gs_MapID session) username epoch));
  let '(event, _, accepted) := r in
  if negb accepted then fail GErrHealRejected else
  _ ← pushEvent username event;
  refreshed username.

Definition BuyItemCmd (username item : string) : GM (gw_err + option WorldState) :=
  located ←! sessionNode username;
  let '(session, node, epoch) := located in
  r ←! wrapErr GErrShop (onNodes (RpcBuyItem node (gs_MapID session) username item epoch));
  let '(event, profile, accepted) := r in
  if negb accepted then fail GErrShopRejected else
  _ ← pushEvent username event;
  _ ← onDB (SaveProfile (set_up_last (gs_MapID session) (gs_NodeID session) profile));
  refreshed username.

(** An attack that is not accepted returns neither a state nor an error. *)
Definition AttackBossCmd (username : string) : GM (gw_err + option WorldState) :=
  located ←! sessionNode username;
  let '(session, node, epoch) := located in
  r ←! wrapErr GErrBoss (onNodes (RpcAttackBoss node (gs_MapID session) username epoch));
  let '(event, _, accepted) := r in
  if negb accepted then ok None else
  _ ← broadcastGlobalEvent event;
  refreshed username.

(** Moving a player between nodes: remove at the source, add at the target, and
    put the player back at the source when the target fails. *)
Definition transfer (username : string) (session : GlobalSession) (srcNode : client) (srcEpoch : Z)
    (targetMap : string) (dst : client) (dstEpoch : Z) : GM (gw_err + UserProfile) :=
  r ←! wrapErr GErrTry (onNodes (RpcRemovePlayer srcNode (gs_MapID session) username srcEpoch));
  let '(profile, removed) := r in
  if negb removed then fail GErrTryRejected else
  added ← onNodes (RpcAddPlayer dst targetMap dstEpoch profile);
  match added with
  | inl err =>
      _ ← onNodes (RpcAddPlayer srcNode (gs_MapID session) srcEpoch profile);
      fail (GErrConfirm err)
  | inr _ =>
      r ← onNodes (RpcProfile dst targetMap username);
      match r with
      | inr (profile, true) => ok profile
      | _ => fail GErrConfirmCheck
      end
  end.

Definition SwitchMap (username targetMap : string) : GM (gw_err + option WorldState) :=
  located ←! sessionNode username;
  let '(session, srcNode, srcEpoch) := located in
  r ←! wrapErr GErrProfile (onNodes (RpcProfile srcNode (gs_MapID session) username));
  let '(profile, found) := r in
  if negb found then fail GErrNoProfile else
  if negb (up_Alive profile) then fail GErrFallen else
  c ← selfG id;
  match route c targetMap with
  | None => fail (GErrTargetRoute targetMap)
  | Some (dstNodeID, dstEpoch, dst) =>
      profile ←! transfer username session srcNode srcEpoch targetMap dst dstEpoch;
      found ← onRedisG (LoadGlobalSession username);
      _ ← (match found with
        | None => mret tt
        | Some session =>
            let session := mkGlobalSession (gs_Username session) targetMap (cl_NodeID dst) (gs_Version session +i 1) in
            _ ← onRedisG (SaveGlobalSession session);
            _ ← modG (fun c => set_cl_localSessions (<[username := session]> (cl_localSessions c)) c);
            pushEvent (gs_Username session) ("切换到地图 " +:+ targetMap)
        end);
      _ ← onDB (SaveProfile (set_up_last targetMap dstNodeID profile));
      refreshed username
  end.

(** ** The map cache *)

(** What a round of [mapCacheLoop] works with: the routes and the version of the
    topology when it started, and the snapshots it got. *)
Record cacheRound := mkCacheRound {
  cr_owners : gmap string string;
  cr_nodes : gmap string client;
  cr_Version : Z;
  cr_fetched : gmap string MapCacheData
}.

Definition map_brief (mapID name : string) (host : client) (v : MapView) : MapBrief :=
  mkMapBrief mapID name (cl_NodeID host) (Z.of_nat (length (mv_Players v))) (Z.of_nat (length (mv_NPCs v)))
    (Z.of_nat (length (mv_Treasures v))) (mv_Version v) true false 0.

(** The snapshot of one map, if its owner has a client and answers. *)
Definition fetch_map (owners : gmap string string) (nodes : gmap string client) (configs : gmap string MapConfig)
    (newCache : gmap string MapCacheData) (mapID : string) : GM (gmap string MapCacheData) :=
  match nodes !! default "" (owners !! mapID) with
  | None => mret newCache
  | Some host =>
      r ← onNodes (RpcSnapshot host mapID);
      match r with
      | inl _ => mret newCache
      | inr mapView =>
          mret (<[mapID := mkMapCacheData (Some mapView)
                    (map_brief mapID (default "" (cfg_Name <$> configs !! mapID)) host mapView)]> newCache)
      end
  end.

(** The first piece of a round: read the routes, refresh the boss, and take the
    snapshots (the goroutines run in the order of the map iteration). *)
Definition cache_fetch : GM cacheRound :=
  c ← selfG id;
  boss ← onRedisG LoadGlobalBoss;
  _ ← (match boss with
       | inr (state, hp) => modG (set_cl_boss state hp)
       | inl _ => mret tt
       end);
  mapIDs ← rangeG (map_keys (cl_owners c));
  fetched ← foldM (fetch_map (cl_owners c) (cl_nodes c) (cl_configs c)) ∅ mapIDs;
  mret (mkCacheRound (cl_owners c) (cl_nodes c) (t_Version (cl_topology c)) fetched).

(** The second piece: is the topology still the one the round started with? *)
Definition cache_current (round : cacheRound) : GM bool :=
  c ← selfG id;
  mret (cl_topologyLoaded c && (t_Version (cl_topology c) =? cr_Version round)).

(** The third piece, under another lock: store the snapshots. *)
Definition cache_store (round : cacheRound) : GM unit :=
  modG (fun c => set_cl_mapCache (cr_fetched round ∪ cl_mapCache c) c).

(** A round; what the other goroutines do after the snapshots, and between the two
    locks, is given. *)
Definition mapCacheRound (checking storing : GM unit) : GM unit :=
  round ← cache_fetch;
  _ ← checking;
  current ← cache_current round;
  if (current : bool) then _ ← storing; cache_store round else mret tt.
End cluster.

Arguments GwSt S : clear implicits.
