(* ===== verification/ClusterProps.v ===== *)
(** * The gateway: its invariant

    What every piece of an operation of [Cluster] does to the gateway's view, and the
    runs of a gateway, in which a round of the map cache is cut at its locks: the
    invariant of such runs, from which [ClusterRoutes] and [ClusterViews] go on. *)

From Stdlib Require Import ZArith Lia String.
From stdpp Require Import base sorting gmap strings list option relations.
From S2P Require Import Prelude Protocol Config Maps World WorldOps WorldProps Topology Redis Store StoreProps Users Authority Wire Coordinator Cluster.

Open Scope Z_scope.
Open Scope go_scope.

(** ** The invariant *)

(** A cache entry of a map: a view, under the name of the map. *)
Definition cached_as (m : string) (d : MapCacheData) : Prop := is_Some (mc_View d) /\ mb_ID (mc_Brief d) = m.

(** It came from the owner. *)
Definition cached_from (owners : gmap string string) (m : string) (d : MapCacheData) : Prop :=
  cached_as m d /\ owners !! m = Some (mb_NodeID (mc_Brief d)).

Record cluster_wf (c : Cluster) : Prop := {
  cw_valid : cl_topologyLoaded c = true -> valid_topology (Some (dom (cl_configs c))) (cl_topology c);
  cw_unloaded : cl_topologyLoaded c = false -> cl_topology c = zero_Topology;
  cw_owners : cl_owners c = t_Owners (cl_topology c);
  cw_pool : forall k cl, cl_nodes c !! k = Some cl ->
    cl_NodeID cl = k /\ cl_nodeAddrs c !! k = Some (cl_Addr cl) /\ cl_nodeTargets c !! k = Some (cl_Addr cl);
  cw_targets : forall k addr, cl_nodeTargets c !! k = Some addr -> addr <> "";
  cw_closed : cl_closed c = true -> cl_nodes c = ∅;
  cw_cache : forall m d, cl_mapCache c !! m = Some d -> cached_as m d
}.

(** The routing of a gateway only moves to later topologies. *)
Definition later_routes (c c' : Cluster) : Prop :=
  cl_configs c' = cl_configs c /\ (cl_closed c = true -> cl_closed c' = true) /\
  ((cl_topologyLoaded c' = true /\ (cl_topologyLoaded c = true -> t_Version (cl_topology c) < t_Version (cl_topology c'))) \/
   (cl_topology c' = cl_topology c /\ cl_topologyLoaded c' = cl_topologyLoaded c)).

(** The cache is emptied, or it stays and so do the owners. *)
Definition cache_rel (c c' : Cluster) : Prop :=
  cl_mapCache c' = ∅ \/ (cl_mapCache c' = cl_mapCache c /\ cl_owners c' = cl_owners c).

(** What every piece of a command does to the cluster view. *)
Definition cl_rel (c c' : Cluster) : Prop :=
  cluster_wf c -> cluster_wf c' /\ later_routes c c' /\ cache_rel c c'.

#[export] Instance later_routes_preorder : PreOrder later_routes.
Proof.
  split.
  - intros c. repeat split; auto.
  - intros c1 c2 c3 (Hc1 & Hd1 & H1) (Hc2 & Hd2 & H2). split_and!; [by etrans|auto|].
    destruct H1 as [[Hl1 H1]|[Ht1 Hl1]], H2 as [[Hl2 H2]|[Ht2 Hl2]].
    + left. split; [done|]. intros Hl. specialize (H1 Hl). specialize (H2 Hl1). lia.
    + left. rewrite Ht2, Hl2. auto.
    + left. split; [done|]. rewrite <- Hl1, <- Ht1. auto.
    + right. split; by etrans.
Qed.

#[export] Instance cache_rel_preorder : PreOrder cache_rel.
Proof.
  split; [by right|]. intros c1 c2 c3 H1 [H|[Hc Ho]]; [by left|]. destruct H1 as [H1|[Hc1 Ho1]]; [left; congruence|right].
  split; congruence.
Qed.

#[export] Instance cl_rel_preorder : PreOrder cl_rel.
Proof.
  split.
  - intros c Hc. by split_and!.
  - intros c1 c2 c3 H12 H23 Hc. destruct (H12 Hc) as (Hc2 & ? & ?). destruct (H23 Hc2) as (? & ? & ?). split_and!; [done|by etrans..].
Qed.

Lemma same_routes c c' :
  cl_configs c' = cl_configs c -> cl_closed c' = cl_closed c -> cl_topology c' = cl_topology c ->
  cl_topologyLoaded c' = cl_topologyLoaded c -> later_routes c c'.
Proof. intros ? Hc ? ?. split_and!; [done|by rewrite Hc|by right]. Qed.

(** ** The pure updates *)

Lemma rel_localSessions v c : cl_rel c (set_cl_localSessions v c).
Proof. intros []. split_and!; [by constructor|by apply same_routes|by right]. Qed.

Lemma rel_boss st hp c : cl_rel c (set_cl_boss st hp c).
Proof. intros []. split_and!; [by constructor|by apply same_routes|by right]. Qed.

Lemma rel_events g m u c : cl_rel c (set_cl_events g m u c).
Proof. intros []. split_and!; [by constructor|by apply same_routes|by right]. Qed.

Lemma rel_buffer ch payload c : cl_rel c (buffer_event ch payload c).
Proof. unfold buffer_event. repeat case_match; try apply rel_events. by intros Hc; split_and!; [| |right]. Qed.

Lemma rel_apply topology c : cl_rel c (applyTopologyLocked topology c).2.
Proof.
  intros Hc. unfold applyTopologyLocked. destruct (Validate _ topology) eqn:Hv; [by split_and!; [| |right]|].
  apply Validate_None in Hv. destruct (cl_topologyLoaded c && _) eqn:Hver; [by split_and!; [| |right]|].
  rewrite Clone_id. cbn [snd]. destruct Hc. split; [by constructor|]. split; [|by left].
  split_and!; [done|done|]. left. cbn. split; [done|]. intros Hl. rewrite Hl in Hver. cbn [andb] in Hver. lia.
Qed.

Definition drop_all {A} (dropped : list string) (m : gmap string A) : gmap string A :=
  foldl (fun m nodeID => delete nodeID m) m dropped.

Lemma lookup_drop_all {A} dropped (m : gmap string A) k v :
  drop_all dropped m !! k = Some v <-> m !! k = Some v /\ k ∉ dropped.
Proof.
  unfold drop_all. revert m. induction dropped as [|x l IH]; intros m; cbn [foldl].
  - split; [|by intros []]. split; [done|apply not_elem_of_nil].
  - rewrite IH, lookup_delete_Some, not_elem_of_cons. clear IH.
    split; [intros ((Hx & Hm) & Hl)|intros (Hm & Hx & Hl)]; repeat split; auto.
Qed.

(** Replacing the targets, and with them the clients that do not fit. *)
Lemma rel_retarget targets dropped c :
  (forall k addr, targets !! k = Some addr -> addr <> "") ->
  (forall k, k ∈ map_keys (cl_nodes c) -> obsolete targets c k = true -> k ∈ dropped) ->
  cl_rel c (set_cl_pool (drop_all dropped (cl_nodes c)) (drop_all dropped (cl_nodeAddrs c)) targets c).
Proof.
  intros Ht Hd Hc. split; [|split; [by apply same_routes|by right]]. destruct Hc. constructor; try done; cbn.
  - intros k cl [Hk Hnot]%lookup_drop_all. destruct (cw_pool0 k cl Hk) as (Hid & Ha & _).
    split_and!; [done|by apply lookup_drop_all|].
    assert (Ho : obsolete targets c k = false).
    { apply not_true_iff_false. intros Ho. apply Hnot, Hd; [|done]. apply elem_of_map_keys. eauto. }
    unfold obsolete in Ho. destruct (targets !! k) as [addr|]; [|done]. rewrite Ha in Ho. cbn in Ho.
    apply negb_false_iff, bool_decide_eq_true in Ho. by rewrite Ho.
  - intros Hcl. rewrite (cw_closed0 Hcl). apply map_empty. intros k.
    destruct (drop_all dropped ∅ !! k) eqn:E; [|done]. apply lookup_drop_all in E as [E _]. by rewrite lookup_empty in E.
Qed.

Lemma rel_connect nodeID addr c :
  addr <> "" -> cl_closed c = false -> gatewayNodeStillWantedLocked c nodeID addr = true ->
  cl_rel c (set_cl_pool (<[nodeID := mkClient nodeID addr]> (cl_nodes c)) (<[nodeID := addr]> (cl_nodeAddrs c)) (cl_nodeTargets c) c).
Proof.
  intros Ha Hcl Hw Hc. split; [|split; [by apply same_routes|by right]]. destruct Hc. constructor; try done; cbn.
  - intros k cl [[<- <-]|[Hne Hk]]%lookup_insert_Some.
    + rewrite lookup_insert_eq. split_and!; [done|done|].
      apply andb_true_iff in Hw as [_ Hw%bool_decide_eq_true]. destruct (cl_nodeTargets c !! nodeID); cbn in *; congruence.
    + rewrite lookup_insert_ne by done. by apply cw_pool0.
  - congruence.
Qed.

Lemma rel_close c : cl_rel c (set_cl_closed true (set_cl_pool ∅ ∅ ∅ c)).
Proof.
  intros []. split; [|split; [split_and!; [done|done|by right]|by right]].
  constructor; try done; cbn; intros k ?; by rewrite lookup_empty.
Qed.

Lemma targets_nonempty topology regs k addr :
  gatewayOwnerTargets topology regs !! k = Some addr -> addr <> "".
Proof.
  unfold gatewayOwnerTargets. assert (H : forall acc : gmap string string, (forall k addr, acc !! k = Some addr -> addr <> "") ->
    forall k addr, foldl (fun (targets : gmap string string) registration =>
      if negb (existsb (fun o => bool_decide (o = nr_ID registration) && negb (bool_decide (o = ""))) (values (t_Owners topology)))
      then targets else if nr_Draining registration then targets else if bad_name (nr_Addr registration) then targets else
      match targets !! nr_ID registration with Some _ => targets | None => <[nr_ID registration := nr_Addr registration]> targets end)
      acc regs !! k = Some addr -> addr <> ""); [|apply H; by intros ? ?; rewrite lookup_empty].
  induction regs as [|info regs IH]; intros acc Hacc; [done|]. cbn [foldl]. apply IH. repeat case_match; try done.
  intros k' a [[<- <-]|[_ ?]]%lookup_insert_Some; [|by eapply Hacc]. intros Hempty. rewrite Hempty in *. done.
Qed.

(** ** What the pieces of the operations respect

    A preorder on cluster views that every update of the commands and loops
    respects, the event buffers apart. *)
Class update_closed (R : relation Cluster) : Prop := {
  uc_preorder :: PreOrder R;
  uc_localSessions v c : R c (set_cl_localSessions v c);
  uc_boss st hp c : R c (set_cl_boss st hp c);
  uc_apply topology c : R c (applyTopologyLocked topology c).2;
  uc_retarget targets dropped c :
    (forall k addr, targets !! k = Some addr -> addr <> "") ->
    (forall k, k ∈ map_keys (cl_nodes c) -> obsolete targets c k = true -> k ∈ dropped) ->
    R c (set_cl_pool (drop_all dropped (cl_nodes c)) (drop_all dropped (cl_nodeAddrs c)) targets c);
  uc_connect nodeID addr c :
    addr <> "" -> cl_closed c = false -> gatewayNodeStillWantedLocked c nodeID addr = true ->
    R c (set_cl_pool (<[nodeID := mkClient nodeID addr]> (cl_nodes c)) (<[nodeID := addr]> (cl_nodeAddrs c)) (cl_nodeTargets c) c);
  uc_close c : R c (set_cl_closed true (set_cl_pool ∅ ∅ ∅ c))
}.

#[export] Instance cl_rel_closed : update_closed cl_rel.
Proof.
  constructor; [apply _|apply rel_localSessions|apply rel_boss|apply rel_apply|apply rel_retarget|apply rel_connect|apply rel_close].
Qed.

(** The event buffers stay. *)
Definition same_events (c c' : Cluster) : Prop :=
  cl_globalEvents c' = cl_globalEvents c /\ cl_mapEvents c' = cl_mapEvents c /\ cl_userEvents c' = cl_userEvents c.

#[export] Instance same_events_closed : update_closed same_events.
Proof.
  constructor; try done; [|intros topology c; unfold applyTopologyLocked; by repeat case_match].
  split; [done|]. intros c1 c2 c3 (? & ? & ?) (? & ? & ?). split_and!; by etrans.
Qed.

(** ** Every operation keeps the invariant *)

Section cluster_props.
Context {S : Type} {clients : GatewayNodeClient S}.
Context (bcrypt_generate : string -> option string) (bcrypt_compare : string -> string -> bool)
  (sha256_hex : string -> string).

Abbreviation GM := (ST (GwSt S)).

(** ** What a gateway does *)

Inductive gw_op :=
  | GwRegister (username password confirm : string)
  | GwQuickEnter (username password : string)
  | GwLogin (username password : string)
  | GwLogout (username : string)
  | GwMove (username dir : string)
  | GwAttack (username : string)
  | GwHeal (username : string)
  | GwBuyItem (username item : string)
  | GwAttackBoss (username : string)
  | GwSwitchMap (username targetMap : string)
  | GwSnapshot (username : string)
  | GwStatus
  | GwMessage (channel payload : string)
  | GwSync
  | GwStart
  | GwClose.

Definition run_gw_op (op : gw_op) : GM unit :=
  match op with
  | GwRegister u p c => _ ← RegisterUser bcrypt_generate u p c; mret tt
  | GwQuickEnter u p => _ ← QuickEnter bcrypt_generate bcrypt_compare sha256_hex u p; mret tt
  | GwLogin u p => _ ← Login bcrypt_compare sha256_hex u p; mret tt
  | GwLogout u => _ ← Logout u; mret tt
  | GwMove u d => _ ← Move u d; mret tt
  | GwAttack u => _ ← AttackCmd u; mret tt
  | GwHeal u => _ ← HealCmd u; mret tt
  | GwBuyItem u i => _ ← BuyItemCmd u i; mret tt
  | GwAttackBoss u => _ ← AttackBossCmd u; mret tt
  | GwSwitchMap u m => _ ← SwitchMap u m; mret tt
  | GwSnapshot u => _ ← SnapshotFor u; mret tt
  | GwStatus => _ ← GatewayStatus_; mret tt
  | GwMessage ch p => onMessage ch p
  | GwSync => _ ← loadTopology; mret tt
  | GwStart => StartCluster
  | GwClose => CloseCluster
  end.

Section closed.
Context (R : relation Cluster) {HR : update_closed R}.

Definition keeps {A} (m : GM A) : Prop := forall s, wlp m (fun _ s' => R (gw s) (gw s')) s.

(** The cluster view is not touched. *)
Definition steady {A} (m : GM A) : Prop := forall s, wlp m (fun _ s' => gw s' = gw s) s.

Lemma steady_keeps {A} (m : GM A) : steady m -> keeps m.
Proof. intros H s. eapply wlp_mono; [apply H|]. by intros a s' ->. Qed.

Lemma keeps_ret {A} (a : A) : keeps (mret a).
Proof. intros s. by apply wlp_ret. Qed.

Lemma keeps_bind {A B} (m : GM A) (f : A -> GM B) : keeps m -> (forall a, keeps (f a)) -> keeps (m ≫= f).
Proof.
  intros Hm Hf s. apply wlp_bind. eapply wlp_mono; [apply Hm|]. intros a s1 H1. cbn.
  eapply wlp_mono; [apply Hf|]. intros b s2 H2. etrans; [exact H1|exact H2].
Qed.

Lemma keeps_try {A B E} (m : GM (E + A)) (k : A -> GM (E + B)) : keeps m -> (forall a, keeps (k a)) -> keeps (try m k).
Proof. intros Hm Hk. apply keeps_bind; [done|]. intros [err|a]; [apply keeps_ret|apply Hk]. Qed.

Lemma keeps_self {A} (f : Cluster -> GM A) :
  (forall s, wlp (f (gw s)) (fun _ s' => R (gw s) (gw s')) s) -> keeps (c ← selfG id; f c).
Proof. intros Hf s. apply wlp_bind, wlp_gets, Hf. Qed.

Lemma keeps_read {A} (f : Cluster -> GM A) : (forall c, keeps (f c)) -> keeps (c ← selfG id; f c).
Proof. intros Hf. apply keeps_self. intros s. apply Hf. Qed.

Lemma keeps_modG f : (forall c, R c (f c)) -> keeps (modG f).
Proof. intros Hf s. apply wlp_modify, Hf. Qed.

Lemma keeps_foldM {A B} (f : A -> B -> GM A) acc l : (forall a x, keeps (f a x)) -> keeps (foldM f acc l).
Proof.
  intros Hf s. apply wlp_foldM; [|done]. intros a x t _ Ht. eapply wlp_mono; [apply Hf|]. intros a' t' Ht'. etrans; [exact Ht|exact Ht'].
Qed.

Lemma keeps_wrapErr {E A} (wrap : E -> gw_err) (m : GM (E + A)) : keeps m -> keeps (wrapErr wrap m).
Proof. intros Hm. apply keeps_bind; [done|]. intros [err|a]; apply keeps_ret. Qed.

Lemma steady_onRedisG {A} (m : RM A) : steady (onRedisG m).
Proof. intros s. by apply wlp_zoom. Qed.
Lemma steady_onDB {A} (m : DM A) : steady (onDB m).
Proof. intros s. by apply wlp_zoom. Qed.
Lemma steady_onNodes {A} (m : ST S A) : steady (onNodes m).
Proof. intros s. by apply wlp_zoom. Qed.
Lemma steady_gets {A} (f : GwSt S -> A) : steady (gets f).
Proof. intros s. by apply wlp_gets. Qed.
Lemma steady_nowG : steady nowG.
Proof. by intros s a s' [= _ <-]. Qed.
Lemma steady_rangeG {A} (l : list A) : steady (rangeG l).
Proof. by intros s a s' [= _ <-]. Qed.
Lemma steady_allocG : steady allocG.
Proof. intros s a s'. unfold allocG. destruct (AllocWorldState _ _). by intros [= _ <-]. Qed.
Lemma steady_freeG ws : steady (freeG ws).
Proof. intros s. by apply wlp_modify. Qed.

Create HintDb gw.
Hint Resolve keeps_ret keeps_bind keeps_try keeps_wrapErr keeps_foldM keeps_modG steady_keeps steady_onRedisG steady_onDB
  steady_onNodes steady_gets steady_nowG steady_rangeG steady_allocG steady_freeG : gw.
Hint Extern 1 (R _ (set_cl_localSessions _ _)) => apply uc_localSessions : gw.
Hint Extern 1 (R _ (set_cl_boss _ _ _)) => apply uc_boss : gw.
Hint Extern 1 (R _ (set_cl_closed _ _)) => apply uc_close : gw.

(** One step through the body of a command. *)
Ltac keeps_step :=
  lazymatch goal with
  | |- keeps (mret _) => apply keeps_ret
  | |- keeps (fail _) => apply keeps_ret
  | |- keeps (ok _) => apply keeps_ret
  | |- keeps (selfG id ≫= _) => apply keeps_read; intros ?
  | |- keeps (_ ≫= _) => apply keeps_bind; [|intros ?]
  | |- keeps (try _ _) => apply keeps_try; [|intros ?]
  | |- keeps (wrapErr _ _) => apply keeps_wrapErr
  | |- keeps (modG _) => apply keeps_modG; intros ?
  | |- keeps (foldM _ _ _) => apply keeps_foldM; intros ? ?
  | |- keeps (let _ := _ in _) => cbv zeta
  | |- keeps (match ?x with _ => _ end) => destruct x
  | |- _ => solve [eauto with gw]
  end.
Ltac keeps_tac := repeat keeps_step.

Lemma keeps_connect nodeID addr : addr <> "" -> keeps (connectGatewayNode nodeID addr).
Proof.
  intros Ha. unfold connectGatewayNode. apply keeps_bind; [eauto with gw|]. intros b.
  destruct (negb b); [apply keeps_ret|]. apply keeps_self. intros s.
  destruct (cl_closed (gw s)) eqn:Hcl; cbn [orb]; [by apply (steady_keeps _ (steady_onNodes _))|].
  destruct (gatewayNodeStillWantedLocked _ _ _) eqn:Hw; cbn [negb]; [|by apply (steady_keeps _ (steady_onNodes _))].
  destruct (cl_nodes (gw s) !! nodeID); [by apply (steady_keeps _ (steady_onNodes _))|].
  apply wlp_modify. by apply uc_connect.
Qed.

Lemma keeps_reconcile topology : keeps (reconcileGatewayNodes topology).
Proof.
  unfold reconcileGatewayNodes. apply keeps_bind; [eauto with gw|]. intros scan.
  apply keeps_try; [eauto with gw|]. intros regs. cbv zeta. apply keeps_self. intros s.
  destruct (_ || _); [by apply wlp_ret|].
  apply wlp_bind. intros pooled s1 [= <- <-]. apply wlp_bind, wlp_modify, wlp_bind, wlp_gets. cbn.
  match goal with |- wlp _ _ ?s => set (s1 := s) end.
  assert (H1 : R (gw s) (gw s1)).
  { apply uc_retarget; [apply targets_nonempty|]. intros k Hk Ho. apply list_elem_of_filter. split; [done|].
    by rewrite arrange_Permutation. }
  apply wlp_bind. eapply wlp_mono; [by apply (keeps_foldM (fun (_ : unit) node => onNodes (CloseGateway node))); eauto with gw|].
  intros [] s2 H2. apply wlp_bind. intros pending s3 [= <- <-].
  apply wlp_bind. eapply wlp_mono; [|intros a s4 H4; apply wlp_ret; etrans; [exact H1|etrans; [exact H2|exact H4]]].
  apply (wlp_foldM _ (fun _ s' => R (gw s2) (gw s'))); [|done]. intros [] [k addr] t Hin Ht.
  rewrite arrange_Permutation in Hin. apply list_elem_of_filter in Hin as [_ Hin%elem_of_map_to_list].
  eapply wlp_mono; [by apply keeps_connect, (targets_nonempty topology regs k)|]. intros a t' Ht'. etrans; [exact Ht|exact Ht'].
Qed.

Lemma keeps_loadTopology : keeps loadTopology.
Proof.
  unfold loadTopology. apply keeps_try; [eauto with gw|]. intros [topology|]; [|apply keeps_ret].
  apply keeps_self. intros s. destruct (applyTopologyLocked topology (gw s)) as [result c'] eqn:E.
  assert (H1 : R (gw s) c') by (pose proof (uc_apply topology (gw s)) as H; by rewrite E in H).
  apply wlp_bind, wlp_modify. destruct result as [err|updated]; [by apply wlp_ret|].
  apply wlp_bind. eapply wlp_mono; [apply keeps_reconcile|]. intros r s2 H2. apply wlp_ret. etrans; [exact H1|exact H2].
Qed.

Lemma keeps_sessionNode u : keeps (sessionNode u).
Proof. unfold sessionNode. keeps_tac. Qed.
Hint Resolve keeps_sessionNode keeps_loadTopology : gw.

Lemma keeps_views : keeps gatewayNodeViewsLocked.
Proof. unfold gatewayNodeViewsLocked. keeps_tac. Qed.

Lemma keeps_bossView : keeps bossViewG.
Proof. unfold bossViewG. keeps_tac. Qed.
Hint Resolve keeps_views keeps_bossView : gw.

Lemma keeps_SnapshotFor u : keeps (SnapshotFor u).
Proof. unfold SnapshotFor. keeps_tac. Qed.
Hint Resolve keeps_SnapshotFor : gw.

Lemma keeps_refreshed_state u : keeps (refreshed u).
Proof. unfold refreshed. keeps_tac. Qed.

Lemma keeps_pushEvent u e : keeps (pushEvent u e).
Proof. unfold pushEvent, publishG. keeps_tac. Qed.

Lemma keeps_broadcast e : keeps (broadcastGlobalEvent e).
Proof. unfold broadcastGlobalEvent, publishG. keeps_tac. Qed.
Hint Resolve keeps_refreshed_state keeps_pushEvent keeps_broadcast : gw.

Lemma keeps_publishG ch e : keeps (publishG ch e).
Proof. unfold publishG. keeps_tac. Qed.
Hint Resolve keeps_publishG : gw.

Lemma keeps_RegisterUser u p c : keeps (RegisterUser bcrypt_generate u p c).
Proof. unfold RegisterUser. keeps_tac. Qed.

Lemma keeps_Login u p : keeps (Login bcrypt_compare sha256_hex u p).
Proof. unfold Login. keeps_tac. Qed.
Hint Resolve keeps_RegisterUser keeps_Login : gw.

Lemma keeps_transfer u session src e m dst de : keeps (transfer u session src e m dst de).
Proof. unfold transfer. keeps_tac. Qed.
Hint Resolve keeps_transfer : gw.

Lemma keeps_op op : (forall channel payload, op <> GwMessage channel payload) -> keeps (run_gw_op op).
Proof.
  intros Hop. destruct op; cbn [run_gw_op]; try (by destruct (Hop channel payload));
    unfold QuickEnter, Logout, Move, AttackCmd, HealCmd, BuyItemCmd, AttackBossCmd, SwitchMap, GatewayStatus_,
      StartCluster, CloseCluster; keeps_tac.
Qed.

Lemma keeps_cache_fetch : keeps cache_fetch.
Proof. unfold cache_fetch, fetch_map. keeps_tac. Qed.

(** A message changes the buffers as [buffer_event] does. *)
Lemma keeps_message channel payload (s : GwSt S) :
  wlp (onMessage channel payload) (fun _ s' => R (buffer_event channel payload (gw s)) (gw s')) s.
Proof.
  unfold onMessage. destruct (bool_decide_reflect (channel = TopologyEventChannel)) as [->|].
  - change (buffer_event TopologyEventChannel payload (gw s)) with (gw s).
    apply (keeps_bind loadTopology (fun _ => mret tt)); [apply keeps_loadTopology|intros; apply keeps_ret].
  - apply wlp_modify. done.
Qed.
End closed.

(** ** The map cache *)

(** The snapshots of a round come from the owners of the topology it started with. *)
Definition round_ok (r : cacheRound) : Prop :=
  forall m d, cr_fetched r !! m = Some d -> cached_from (cr_owners r) m d.

(** That topology is the current one or an older one. *)
Definition round_at (c : Cluster) (r : cacheRound) : Prop :=
  cr_fetched r = ∅ \/ (cl_topologyLoaded c = true /\
    (cr_Version r < t_Version (cl_topology c) \/ (cr_Version r = t_Version (cl_topology c) /\ cr_owners r = cl_owners c))).

Lemma round_later c c' r : cluster_wf c -> cluster_wf c' -> later_routes c c' -> round_at c r -> round_at c' r.
Proof.
  intros Hc Hc' (_ & _ & Hl) [Hr|[Hload Hr]]; [by left|right]. destruct Hl as [[Hl1 Hlt]|[Ht Hl1]].
  - split; [done|left]. specialize (Hlt Hload). lia.
  - split; [congruence|]. rewrite (cw_owners c' Hc'), Ht, <- (cw_owners c Hc). done.
Qed.

Lemma wlp_fetch_map owners nodes configs (acc : gmap string MapCacheData) m s :
  (forall k cl, nodes !! k = Some cl -> cl_NodeID cl = k) -> is_Some (owners !! m) ->
  (forall k d, acc !! k = Some d -> cached_from owners k d) ->
  wlp (fetch_map owners nodes configs acc m)
    (fun acc' s' => gw s' = gw s /\ forall k d, acc' !! k = Some d -> cached_from owners k d) s.
Proof.
  intros Hn [o Ho] Hacc. unfold fetch_map. rewrite Ho. change (default "" (Some o)) with o.
  destruct (nodes !! o) as [host|] eqn:E; [|by apply wlp_ret].
  apply wlp_bind. eapply wlp_mono; [apply (steady_onNodes (RpcSnapshot host m))|]. intros [err|v] s1 Hs1; [by apply wlp_ret|].
  apply wlp_ret. split; [done|]. intros k d [[<- <-]|[_ Hk]]%lookup_insert_Some; [|by apply Hacc].
  split; [split; [by eexists|done]|]. cbn. by rewrite (Hn _ _ E).
Qed.

Lemma wlp_cache_fetch s : cluster_wf (gw s) ->
  wlp cache_fetch (fun r s' => cl_rel (gw s) (gw s') /\ round_ok r /\ round_at (gw s') r
    /\ cr_owners r = cl_owners (gw s)) s.
Proof.
  intros Hc. unfold cache_fetch. apply wlp_bind, wlp_gets. cbn.
  apply wlp_bind. eapply wlp_mono; [apply (steady_onRedisG LoadGlobalBoss)|]. intros boss s1 Hs1.
  apply wlp_bind. eapply (wlp_mono _ (fun _ s2 => cl_owners (gw s2) = cl_owners (gw s)
    /\ cl_topology (gw s2) = cl_topology (gw s) /\ cl_topologyLoaded (gw s2) = cl_topologyLoaded (gw s)
    /\ cl_rel (gw s) (gw s2))).
  { destruct boss as [err|[st hp]]; [apply wlp_ret; by rewrite Hs1|]. apply wlp_modify. cbn. rewrite Hs1.
    split_and!; [done..|apply rel_boss]. }
  intros [] s2 (Ho & Ht & Hl & Hrel). apply wlp_bind. intros mapIDs s3 Hrange.
  assert (Hkeys : forall m, m ∈ mapIDs -> is_Some (cl_owners (gw s) !! m)).
  { injection Hrange as <- _. intros m Hm. rewrite arrange_Permutation in Hm. by apply elem_of_map_keys. }
  assert (Hs3 : gw s3 = gw s2) by (by injection Hrange as _ <-).
  apply wlp_bind. eapply wlp_mono; [apply (wlp_foldM _ (fun acc s' => gw s' = gw s2 /\
    forall k d, acc !! k = Some d -> cached_from (cl_owners (gw s)) k d))|].
  - intros acc m t Hm [Ht' Hacc]. eapply wlp_mono; [apply wlp_fetch_map; [|by apply Hkeys|done]|].
    + intros k cl Hk. by apply (cw_pool _ Hc) in Hk as [? _].
    + intros acc' t' [-> ?]. by rewrite Ht'.
  - split; [done|]. intros k d. by rewrite lookup_empty.
  - intros fetched s4 [Hs4 Hf]. apply wlp_ret. rewrite Hs4. split_and!; [done|exact Hf| |done].
    unfold round_at. cbn. destruct (cl_topologyLoaded (gw s)) eqn:Hload.
    + right. split; [by rewrite Hl|]. right. by rewrite Ho, Ht.
    + left. apply map_empty. intros m. destruct (fetched !! m) as [d|] eqn:E; [|done].
      apply Hf in E as [_ E]. rewrite (cw_owners _ Hc), (cw_unloaded _ Hc Hload) in E. cbn in E. by rewrite lookup_empty in E.
Qed.

(** Storing a round is one update of the cache. *)
Lemma store_rel r c : cluster_wf c -> round_ok r ->
  let c' := set_cl_mapCache (cr_fetched r ∪ cl_mapCache c) c in cluster_wf c' /\ later_routes c c'.
Proof.
  intros Hc Hr c'. split; [|by apply same_routes]. destruct Hc. constructor; try done. cbn.
  intros m d [Hd|[_ Hd]]%lookup_union_Some_raw; [by apply Hr|by apply cw_cache0].
Qed.

(** The message an operation takes from the subscription. *)
Definition received (op : gw_op) : list (string * string) :=
  match op with
  | GwMessage channel payload => [(channel, payload)]
  | _ => []
  end.

(** Where [mapCacheLoop] is: waiting for the ticker, with the snapshots, and past the
    check, with the lock of the topology released; [version] is that of the topology
    at the check. *)
Inductive round_stage :=
  | Waiting
  | Fetched (r : cacheRound)
  | Checked (r : cacheRound) (version : Z).

(** A gateway whose loop runs a round in three pieces, between which anything else
    happens; a step is labelled with the messages it receives.  In a run that is
    [timely] no topology comes between the check of a round and its store. *)
Inductive gateway_step (timely : bool) : GwSt S * round_stage -> list (string * string) -> GwSt S * round_stage -> Prop :=
  | gstep_op op s s' r : run_gw_op op s = Some (tt, s') -> gateway_step timely (s, r) (received op) (s', r)
  | gstep_fetch s s' r : cache_fetch s = Some (r, s') -> gateway_step timely (s, Waiting) [] (s', Fetched r)
  | gstep_check r s s' current :
      cache_current r s = Some (current, s') ->
      gateway_step timely (s, Fetched r) [] (s', if (current : bool) then Checked r (t_Version (cl_topology (gw s))) else Waiting)
  | gstep_store r version s s' :
      cache_store r s = Some (tt, s') -> (timely = true -> t_Version (cl_topology (gw s)) = version) ->
      gateway_step timely (s, Checked r version) [] (s', Waiting).

Inductive gateway_run (timely : bool) : GwSt S * round_stage -> list (string * string) -> GwSt S * round_stage -> Prop :=
  | grun_done x : gateway_run timely x [] x
  | grun_more x l y l' z : gateway_step timely x l y -> gateway_run timely y l' z -> gateway_run timely x (l ++ l') z.

Lemma run_op_rel op (s s' : GwSt S) : run_gw_op op s = Some (tt, s') -> cl_rel (gw s) (gw s').
Proof.
  intros Hop. destruct op; try by eapply (keeps_op cl_rel); [|exact Hop].
  eapply transitivity; [apply rel_buffer|exact (keeps_message cl_rel _ _ _ _ _ Hop)].
Qed.

(** ** Runs of a gateway *)

Definition step_to (timely : bool) (x y : GwSt S * round_stage) : Prop := exists l, gateway_step timely x l y.

Lemma run_steps timely x l y : gateway_run timely x l y -> rtc (step_to timely) x y.
Proof. induction 1 as [x|x l y l' z Hxy _ IH]; [done|]. eapply rtc_l; [by exists l|exact IH]. Qed.

Definition round_of (r : round_stage) : option cacheRound :=
  match r with Waiting => None | Fetched r | Checked r _ => Some r end.

(** The map belonged to the node at some moment between [x] and [y]. *)
Definition was_owner (timely : bool) (x y : GwSt S * round_stage) (m nodeID : string) : Prop :=
  exists z, rtc (step_to timely) x z /\ rtc (step_to timely) z y /\ t_Owners (cl_topology (gw z.1)) !! m = Some nodeID.

Definition cache_fresh (c : Cluster) : Prop := forall m d, cl_mapCache c !! m = Some d -> cached_from (cl_owners c) m d.

(** The invariant of a run from [x]. *)
Record gateway_ok (timely : bool) (x y : GwSt S * round_stage) : Prop := {
  go_wf : cluster_wf (gw y.1);
  go_later : later_routes (gw x.1) (gw y.1);
  go_run : rtc (step_to timely) x y;
  go_cache : forall m d, cl_mapCache (gw y.1) !! m = Some d -> was_owner timely x y m (mb_NodeID (mc_Brief d));
  go_fresh : timely = true -> cache_fresh (gw y.1);
  go_round : forall r, round_of y.2 = Some r -> round_ok r /\ round_at (gw y.1) r /\
    forall m o, cr_owners r !! m = Some o -> was_owner timely x y m o;
  go_checked : forall r version, y.2 = Checked r version -> version = cr_Version r
}.

Lemma was_owner_later timely x y z m o : was_owner timely x y m o -> step_to timely y z -> was_owner timely x z m o.
Proof. intros (u & H1 & H2 & Ho) Hs. exists u. split_and!; [done|by eapply rtc_r|done]. Qed.

(** What a step that keeps or empties the cache leaves of the invariant. *)
Lemma gateway_ok_rel timely x y z :
  gateway_ok timely x y -> step_to timely y z -> cl_rel (gw y.1) (gw z.1) ->
  (forall r, round_of z.2 = Some r -> round_of y.2 = Some r \/
     round_ok r /\ round_at (gw z.1) r /\ (forall m o, cr_owners r !! m = Some o -> was_owner timely x z m o)) ->
  (forall r version, z.2 = Checked r version -> y.2 = z.2 \/ version = cr_Version r) ->
  gateway_ok timely x z.
Proof.
  intros [Hwf Hl Hrun Hc Hf Hr Hck] Hstep Hrel Hround Hchecked. destruct (Hrel Hwf) as (Hwf' & Hl' & Hcr).
  constructor; [done|by etrans|by eapply rtc_r| | | |].
  - intros m d Hd. destruct Hcr as [E|[E _]]; rewrite E in Hd; [by rewrite lookup_empty in Hd|].
    eapply was_owner_later; [by apply Hc|done].
  - intros Ht m d Hd. destruct Hcr as [E|[E Eo]]; rewrite E in Hd; [by rewrite lookup_empty in Hd|].
    rewrite Eo. by apply (Hf Ht).
  - intros r Hz. destruct (Hround r Hz) as [Hy|Hnew]; [|done]. destruct (Hr r Hy) as (? & ? & Ho). split_and!; [done|by apply (round_later (gw y.1))|].
    intros m o Hm. eapply was_owner_later; [by apply Ho|done].
  - intros r v Hz. destruct (Hchecked r v Hz) as [E|]; [|done]. apply Hck. by rewrite E.
Qed.

Lemma gateway_step_ok timely x y l z : gateway_ok timely x y -> gateway_step timely y l z -> gateway_ok timely x z.
Proof.
  intros Hok Hstep. assert (Hto : step_to timely y z) by by exists l.
  destruct Hstep as [op s s' r Hop|s s' r Hf|r s s' current Hcur|r v s s' Hst Ht].
  - eapply gateway_ok_rel; [done|done|by eapply run_op_rel|by left|by left].
  - destruct (wlp_cache_fetch s (go_wf _ _ _ Hok) _ _ Hf) as (Hrel & Hro & Hat & Ho).
    eapply gateway_ok_rel; [done|done|done| |done]. intros r' [= <-]. right. split_and!; [done|done|].
    intros m o Hm. exists (s, Waiting). split_and!; [apply Hok|by apply rtc_once|].
    pose proof (cw_owners _ (go_wf _ _ _ Hok)) as Hown. cbn in Hown |- *. by rewrite <- Hown, <- Ho.
  - injection Hcur as <- <-. eapply gateway_ok_rel; [done|done|done| |].
    + intros r'. case_match; [by left|done].
    + intros r' v. case_match eqn:Hv; [|done]. intros [= <- <-]. right. apply andb_true_iff in Hv as [_ Hv]. by apply Z.eqb_eq.
  - injection Hst as <-. destruct (go_round _ _ _ Hok r eq_refl) as (Hro & Hat & How).
    destruct (store_rel r (gw s) (go_wf _ _ _ Hok) Hro) as [Hwf Hl]. pose proof (go_checked _ _ _ Hok r v eq_refl) as ->. destruct Hok as [Hwf0 Hl0 Hrun Hc Hfr _ _]. cbn in *.
    constructor; cbn; [done|by etrans|by eapply rtc_r| | |done|done].
    + intros m d [Hd|[_ Hd]]%lookup_union_Some_raw; (eapply was_owner_later; [|done]); [|by apply Hc].
      apply How. by apply Hro.
    + intros Htm m d [Hd|[_ Hd]]%lookup_union_Some_raw; [|by apply (Hfr Htm)]. specialize (Ht Htm).
      destruct Hat as [E|[_ [Hlt|[_ E]]]]; [by rewrite E, lookup_empty in Hd|lia|].
      apply Hro in Hd. by rewrite E in Hd.
Qed.

Lemma gateway_run_ok timely x y l z : gateway_ok timely x y -> gateway_run timely y l z -> gateway_ok timely x z.
Proof. intros Hok Hrun. revert Hok. induction Hrun; [done|]. eauto using gateway_step_ok. Qed.

(** A gateway between two rounds, whose cache is fresh, starts a run. *)
Lemma gateway_ok_start timely s : cluster_wf (gw s) -> cache_fresh (gw s) -> gateway_ok timely (s, Waiting) (s, Waiting).
Proof.
  intros Hc Hf. constructor; [done|done|done| |done|done|done].
  intros m d Hd. exists (s, Waiting). split_and!; [done|done|]. cbn. rewrite <- (cw_owners _ Hc). by apply (Hf m d).
Qed.

(** What a route is made of. *)
Lemma route_Some c m o e cl : cluster_wf c -> route c m = Some (o, e, cl) ->
  cl_topologyLoaded c = true /\ cl_NodeID cl = o /\ t_Owners (cl_topology c) !! m = Some o /\ o <> "" /\
  t_MapEpochs (cl_topology c) !! m = Some e /\ e <> 0.
Proof.
  intros Hc. unfold route. destruct (cl_nodes c !! _) as [node|] eqn:Hn; [|done].
  destruct (cl_topologyLoaded c); cbn [negb orb]; [|done].
  destruct (bool_decide_reflect (default "" (cl_owners c !! m) = "")) as [|Hne]; cbn [orb]; [done|].
  destruct (Z.eqb_spec (default 0 (t_MapEpochs (cl_topology c) !! m)) 0) as [|He]; [done|]. intros [= <- <- <-].
  rewrite (cw_owners c Hc) in *. apply (cw_pool c Hc) in Hn as [Hid _].
  destruct (t_Owners (cl_topology c) !! m) as [o|] eqn:Eo; [|by destruct Hne].
  destruct (t_MapEpochs (cl_topology c) !! m) as [e|] eqn:Ee; [|by destruct He]. done.
Qed.

Lemma newCluster_wf : cluster_wf newCluster.
Proof. constructor; try done; intros k ?; by rewrite lookup_empty. Qed.
End cluster_props.

(** ** A small concrete gateway used by the witnesses *)

(** Nodes that accept everything and return fixed data. *)
Definition demo_profile (u : string) : UserProfile := mkUserProfile u "" "demo" "node-a" 1 1 120 120 35 3 9 0 0 0 true.
Definition demo_view (m : string) : MapView := mkMapView m "演示" "node-a" 7 5 [] [] [] [] 4.

#[export] Instance agreeable : GatewayNodeClient unit := {
  DialGateway _ _ := mret true;
  RpcAddPlayer _ _ _ _ := ok tt;
  RpcRemovePlayer _ _ u _ := ok (demo_profile u, true);
  RpcMovePlayer _ _ u _ _ := ok ("", demo_profile u, true);
  RpcAttack _ _ u _ := ok ("", "", "", demo_profile u, true);
  RpcHeal _ _ u _ := ok ("", demo_profile u, true);
  RpcBuyItem _ _ u _ _ := ok ("", demo_profile u, true);
  RpcAttackBoss _ _ u _ := ok ("", demo_profile u, true);
  RpcProfile _ _ u := ok (demo_profile u, true);
  RpcRewardPlayer _ _ u _ _ _ := ok (demo_profile u, true);
  RpcSnapshot _ m := ok (demo_view m);
  CloseGateway _ := mret tt
}.

Definition demo_gw_redis : Redis :=
  set_r_nodes {["node-a" := (Good (mkNodeRegistryInfo "node-a" "10.0.0.1:1" "demo" false), 200)]} demo_redis.
Definition demo_cluster : Cluster :=
  mkCluster ∅ ∅ ∅ false ∅ zero_Topology false {["demo" := demo_cfg; "cave" := demo_cfg]} ∅ zero_BossState 0 [] ∅ ∅ ∅.
Definition demo_gateway : GwSt unit :=
  mkGwSt demo_cluster (quiet demo_gw_redis) (mkDB None (fun _ => F_ok) 0) demo_env [] [] (fun l => l) tt.

Lemma demo_cluster_wf : cluster_wf demo_cluster.
Proof. constructor; try done; intros k ?; by rewrite lookup_empty. Qed.

Definition demo_gateway_op (op : gw_op) : GwSt unit -> option (unit * GwSt unit) :=
  run_gw_op (fun p => Some p) (fun h p => bool_decide (h = p)) (fun p => p) op.
Abbreviation demo_run := (gateway_run (fun p => Some p) (fun h p => bool_decide (h = p)) (fun p => p)).

(** A run of operations, with its messages. *)
Fixpoint run_ops (ops : list gw_op) (s : GwSt unit) : option (GwSt unit) :=
  match ops with
  | [] => Some s
  | op :: ops' => match demo_gateway_op op s with Some (_, s') => run_ops ops' s' | None => None end
  end.

Lemma run_ops_run timely ops s s' r : run_ops ops s = Some s' -> demo_run timely (s, r) (ops ≫= received) (s', r).
Proof.
  revert s. induction ops as [|op ops IH]; intros s; cbn [run_ops]; [intros [= <-]; apply grun_done|].
  destruct (demo_gateway_op op s) as [[[] s1]|] eqn:E; [|done]. intros H.
  rewrite bind_cons. eapply grun_more; [by apply gstep_op|by apply IH].
Qed.
