(* ===== verification/ClusterRoutes.v ===== *)
(** * The gateway: where its calls go

    Every call by which a gateway changes something on a node goes to the owner of
    the map in the committed topology, with that topology's epoch.  To state it the
    nodes are wrapped with a log of the calls. *)

From Stdlib Require Import ZArith Lia String.
From stdpp Require Import base sorting gmap strings list option relations.
From S2P Require Import Prelude Protocol Config Maps World WorldOps WorldProps Topology Redis Store StoreProps Users Authority Wire Coordinator Cluster ClusterProps.

Open Scope Z_scope.
Open Scope go_scope.

(** ** Logged calls *)

(** The client, the map and the epoch of a mutating call. *)
Record node_call := mkNodeCall {
  rq_client : client;
  rq_map : string;
  rq_epoch : Z
}.

(** A call that is entered in the log, and one that is not. *)
Definition logging {S A} (call : node_call) (m : ST S A) : ST (S * list node_call) A := fun p =>
  match m p.1 with
  | Some (a, q) => Some (a, (q, p.2 ++ [call])%list)
  | None => None
  end.
Definition passing {S A} (m : ST S A) : ST (S * list node_call) A := fun p =>
  match m p.1 with
  | Some (a, q) => Some (a, (q, p.2))
  | None => None
  end.

(** The same nodes with the log beside them. *)
#[export] Instance logged {S} (clients : GatewayNodeClient S) : GatewayNodeClient (S * list node_call) := {
  DialGateway nodeID addr := passing (DialGateway nodeID addr);
  RpcAddPlayer cl m epoch p := logging (mkNodeCall cl m epoch) (RpcAddPlayer cl m epoch p);
  RpcRemovePlayer cl m u epoch := logging (mkNodeCall cl m epoch) (RpcRemovePlayer cl m u epoch);
  RpcMovePlayer cl m u d epoch := logging (mkNodeCall cl m epoch) (RpcMovePlayer cl m u d epoch);
  RpcAttack cl m u epoch := logging (mkNodeCall cl m epoch) (RpcAttack cl m u epoch);
  RpcHeal cl m u epoch := logging (mkNodeCall cl m epoch) (RpcHeal cl m u epoch);
  RpcBuyItem cl m u i epoch := logging (mkNodeCall cl m epoch) (RpcBuyItem cl m u i epoch);
  RpcAttackBoss cl m u epoch := logging (mkNodeCall cl m epoch) (RpcAttackBoss cl m u epoch);
  RpcProfile cl m u := passing (RpcProfile cl m u);
  RpcRewardPlayer cl m u t v epoch := logging (mkNodeCall cl m epoch) (RpcRewardPlayer cl m u t v epoch);
  RpcSnapshot cl m := passing (RpcSnapshot cl m);
  CloseGateway cl := passing (CloseGateway cl)
}.

Section routes.
Context {S : Type} {clients : GatewayNodeClient S}.
Context (bcrypt_generate : string -> option string) (bcrypt_compare : string -> string -> bool)
  (sha256_hex : string -> string).

Abbreviation GS := (GwSt (S * list node_call)).
Abbreviation GM := (ST GS).
Abbreviation run_op := (run_gw_op bcrypt_generate bcrypt_compare sha256_hex).

Definition calls (s : GS) : list node_call := (gpeers s).2.

(** The call goes where the view routes its map. *)
Definition routed (c : Cluster) (call : node_call) : Prop :=
  exists o, route c (rq_map call) = Some (o, rq_epoch call, rq_client call).

(** ** Commands *)

Section command.
Context (c0 : Cluster) (l0 : list node_call).

(** While a command runs its routes stay, and its calls follow them. *)
Definition following (s : GS) : Prop :=
  (forall m, route (gw s) m = route c0 m) /\ exists new, calls s = (l0 ++ new)%list /\ Forall (routed c0) new.

Definition follows {A} (m : GM A) (Q : A -> Prop) : Prop :=
  forall s, following s -> wlp m (fun a s' => following s' /\ Q a) s.

Abbreviation obeys m := (follows m (fun _ => True)).

Lemma follows_ret {A} (a : A) (Q : A -> Prop) : Q a -> follows (mret a) Q.
Proof. intros HQ s Hs. by apply wlp_ret. Qed.

Lemma follows_bind {A B} (m : GM A) (f : A -> GM B) Q R :
  follows m Q -> (forall a, Q a -> follows (f a) R) -> follows (m ≫= f) R.
Proof.
  intros Hm Hf s Hs. apply wlp_bind. eapply wlp_mono; [by apply Hm|]. intros a s1 [H1 Ha]. by apply Hf.
Qed.

Lemma follows_try {A B E} (m : GM (E + A)) (k : A -> GM (E + B)) Q (R : E + B -> Prop) :
  follows m Q -> (forall err, R (inl err)) -> (forall a, Q (inr a) -> follows (k a) R) -> follows (try m k) R.
Proof. intros Hm HR Hk. eapply follows_bind; [exact Hm|]. intros [err|a] HQ; [by apply follows_ret|by apply Hk]. Qed.

Lemma follows_self {A} (f : Cluster -> GM A) Q :
  (forall c, (forall m, route c m = route c0 m) -> follows (f c) Q) -> follows (c ← selfG id; f c) Q.
Proof. intros Hf s Hs. apply wlp_bind, wlp_gets. by apply Hf; [apply Hs|]. Qed.

Lemma follows_modG f : (forall c m, route (f c) m = route c m) -> obeys (modG f).
Proof. intros Hf s [Hr Hl]. apply wlp_modify. split; [|done]. split; [|exact Hl]. intros m. cbn. by rewrite Hf. Qed.

(** A step that touches neither the view nor the nodes. *)
Lemma follows_aside {A} (m : GM A) :
  (forall s, wlp m (fun _ s' => gw s' = gw s /\ gpeers s' = gpeers s) s) -> obeys m.
Proof.
  intros Hm s [Hr Hl]. eapply wlp_mono; [apply Hm|]. intros a s' [Hg Hp]. split; [|done].
  unfold following, calls. by rewrite Hg, Hp.
Qed.

Lemma follows_redis {A} (m : RM A) : obeys (onRedisG m).
Proof. apply follows_aside. intros s. by apply wlp_zoom. Qed.
Lemma follows_db {A} (m : DM A) : obeys (onDB m).
Proof. apply follows_aside. intros s. by apply wlp_zoom. Qed.
Lemma follows_now : obeys nowG.
Proof. apply follows_aside. by intros s a s' [= _ <-]. Qed.
Lemma follows_range {A} (l : list A) : obeys (rangeG l).
Proof. apply follows_aside. by intros s a s' [= _ <-]. Qed.
Lemma follows_alloc : obeys allocG.
Proof. apply follows_aside. intros s a s'. unfold allocG. destruct (AllocWorldState _ _). by intros [= _ <-]. Qed.
Lemma follows_free ws : obeys (freeG ws).
Proof. apply follows_aside. intros s. by apply wlp_modify. Qed.

(** The calls. *)
Lemma follows_passing {A} (m : ST S A) : obeys (onNodes (passing m)).
Proof.
  intros s [Hr (new & Hl & Hf)]. apply wlp_zoom. intros a p. unfold passing.
  destruct (m (gpeers s).1) as [[x q]|]; [|done]. intros [= <- <-]. split; [|done]. split; [done|]. by exists new.
Qed.

Lemma follows_logging {A} call (m : ST S A) : routed c0 call -> obeys (onNodes (logging call m)).
Proof.
  intros Hc s [Hr (new & Hl & Hf)]. apply wlp_zoom. intros a p. unfold logging.
  destruct (m (gpeers s).1) as [[x q]|]; [|done]. intros [= <- <-]. split; [|done]. split; [done|].
  exists (new ++ [call])%list. cbn. unfold calls in Hl. rewrite Hl, app_assoc. split; [done|]. by apply Forall_app; split; [|constructor].
Qed.

Lemma follows_wrap {E A} (wrap : E -> gw_err) (m : GM (E + A)) : obeys m -> obeys (wrapErr wrap m).
Proof. intros Hm. eapply follows_bind; [exact Hm|]. intros [err|a] _; by apply follows_ret. Qed.

(** What [sessionNode] finds is a route. *)
Lemma follows_sessionNode u :
  follows (sessionNode u) (fun r => match r with
    | inr (session, node, epoch) => exists o, route c0 (gs_MapID session) = Some (o, epoch, node)
    | inl _ => True
    end).
Proof.
  unfold sessionNode. apply follows_self. intros c Hc.
  apply follows_try with (Q := fun _ => True); [|done|].
  - destruct (cl_localSessions c !! u); [by apply follows_ret|]. eapply follows_bind; [apply follows_redis|].
    intros [loaded|] _; [|by apply follows_ret]. eapply follows_bind; [by apply follows_modG|]. intros. by apply follows_ret.
  - intros session _. apply follows_self. intros c' Hc'. destruct (route c' (gs_MapID session)) as [[[o e] n]|] eqn:E.
    + apply follows_ret. exists o. cbn. by rewrite <- Hc'.
    + by apply follows_ret.
Qed.

Ltac follow :=
  repeat (intros; lazymatch goal with
  | |- follows (mret _) _ => by apply follows_ret
  | |- follows (fail _) _ => by apply follows_ret
  | |- follows (ok _) _ => by apply follows_ret
  | |- follows (selfG id ≫= _) _ => apply follows_self
  | |- follows (try (sessionNode _) _) _ =>
      eapply follows_try; [apply follows_sessionNode|done|intros [[? ?] ?] [? ?]]
  | |- follows (try _ _) _ => apply follows_try with (Q := fun _ => True); [|done|]
  | |- follows (_ ≫= _) _ => apply follows_bind with (Q := fun _ => True)
  | |- follows (wrapErr _ _) _ => apply follows_wrap
  | |- follows (modG _) _ => by apply follows_modG
  | |- follows (onRedisG _) _ => apply follows_redis
  | |- follows (onDB _) _ => apply follows_db
  | |- follows nowG _ => apply follows_now
  | |- follows (rangeG _) _ => apply follows_range
  | |- follows allocG _ => apply follows_alloc
  | |- follows (freeG _) _ => apply follows_free
  | |- follows (onNodes (RpcProfile _ _ _)) _ => apply follows_passing
  | |- follows (onNodes _) _ => apply follows_logging
  | |- follows (let _ := _ in _) _ => cbv zeta
  | H : forall m, route ?c m = _ |- follows (match route ?c ?m with _ => _ end) _ =>
      let E := fresh in destruct (route c m) as [[[? ?] ?]|] eqn:E; rewrite H in E
  | |- follows (match ?x with _ => _ end) _ => destruct x
  | |- routed _ _ => eexists; eassumption
  end).

Lemma follows_refreshed u : obeys (refreshed u).
Proof.
  unfold refreshed. apply follows_try with (Q := fun _ => True); [|done|follow].
  unfold SnapshotFor, gatewayNodeViewsLocked, bossViewG. follow.
Qed.

Lemma follows_transfer u session src srcEpoch m dst dstEpoch :
  (exists o, route c0 (gs_MapID session) = Some (o, srcEpoch, src)) -> (exists o, route c0 m = Some (o, dstEpoch, dst)) ->
  obeys (transfer u session src srcEpoch m dst dstEpoch).
Proof. intros [? ?] [? ?]. unfold transfer. follow. Qed.

(** The operations that players cause. *)
Lemma follows_command op :
  match op with GwMessage _ _ | GwSync | GwStart | GwClose => False | _ => True end -> obeys (run_op op).
Proof.
  intros Hop. destruct op; try done; cbn [run_gw_op]; (apply follows_bind with (Q := fun _ => True); [|intros; by apply follows_ret]).
  - unfold RegisterUser. follow.
  - unfold QuickEnter, RegisterUser, Login, publishG. follow; intros; apply follows_refreshed.
  - unfold Login, publishG. follow. intros. apply follows_refreshed.
  - unfold Logout. follow.
  - unfold Move. follow.
  - unfold AttackCmd, pushEvent, publishG. follow; intros; apply follows_refreshed.
  - unfold HealCmd, pushEvent, publishG. follow; intros; apply follows_refreshed.
  - unfold BuyItemCmd, pushEvent, publishG. follow; intros; apply follows_refreshed.
  - unfold AttackBossCmd, broadcastGlobalEvent, publishG. follow; intros; apply follows_refreshed.
  - unfold SwitchMap, pushEvent, publishG. follow; intros; first [apply follows_refreshed|apply follows_transfer; eauto].
  - unfold SnapshotFor, gatewayNodeViewsLocked, bossViewG. follow.
  - unfold GatewayStatus_, gatewayNodeViewsLocked. follow.
Qed.
End command.

(** ** What calls nothing *)

Definition uncalled {A} (m : GM A) : Prop := forall s, wlp m (fun _ s' => calls s' = calls s) s.

Lemma uncalled_ret {A} (a : A) : uncalled (mret a).
Proof. intros s. by apply wlp_ret. Qed.

Lemma uncalled_bind {A B} (m : GM A) (f : A -> GM B) : uncalled m -> (forall a, uncalled (f a)) -> uncalled (m ≫= f).
Proof.
  intros Hm Hf s. apply wlp_bind. eapply wlp_mono; [apply Hm|]. intros a s1 H1. cbn.
  eapply wlp_mono; [apply Hf|]. intros b s2 H2. cbn in *. congruence.
Qed.

Lemma uncalled_try {A B E} (m : GM (E + A)) (k : A -> GM (E + B)) : uncalled m -> (forall a, uncalled (k a)) -> uncalled (try m k).
Proof. intros Hm Hk. apply uncalled_bind; [done|]. intros [err|a]; [apply uncalled_ret|apply Hk]. Qed.

Lemma uncalled_wrap {E A} (wrap : E -> gw_err) (m : GM (E + A)) : uncalled m -> uncalled (wrapErr wrap m).
Proof. intros Hm. apply uncalled_bind; [done|]. intros [err|a]; apply uncalled_ret. Qed.

Lemma uncalled_foldM {A B} (f : A -> B -> GM A) acc l : (forall a x, uncalled (f a x)) -> uncalled (foldM f acc l).
Proof.
  intros Hf s. apply wlp_foldM; [|done]. intros a x t _ Ht. eapply wlp_mono; [apply Hf|]. intros a' t' Ht'. cbn in *. congruence.
Qed.

Lemma uncalled_passing {A} (m : ST S A) : uncalled (onNodes (passing m)).
Proof.
  intros s. apply wlp_zoom. intros a p. unfold passing. destruct (m (gpeers s).1) as [[x q]|]; [|done]. by intros [= <- <-].
Qed.

Lemma uncalled_redis {A} (m : RM A) : uncalled (onRedisG m).
Proof. intros s. by apply wlp_zoom. Qed.
Lemma uncalled_modG f : uncalled (modG f).
Proof. intros s. by apply wlp_modify. Qed.
Lemma uncalled_gets {A} (f : GS -> A) : uncalled (gets f).
Proof. intros s. by apply wlp_gets. Qed.
Lemma uncalled_range {A} (l : list A) : uncalled (rangeG l).
Proof. by intros s a s' [= _ <-]. Qed.

Ltac hushed :=
  repeat (intros; lazymatch goal with
  | |- uncalled (mret _) => apply uncalled_ret
  | |- uncalled (fail _) => apply uncalled_ret
  | |- uncalled (ok _) => apply uncalled_ret
  | |- uncalled (try _ _) => apply uncalled_try
  | |- uncalled (_ ≫= _) => apply uncalled_bind
  | |- uncalled (wrapErr _ _) => apply uncalled_wrap
  | |- uncalled (foldM _ _ _) => apply uncalled_foldM
  | |- uncalled (onNodes _) => apply uncalled_passing
  | |- uncalled (onRedisG _) => apply uncalled_redis
  | |- uncalled (modG _) => apply uncalled_modG
  | |- uncalled (selfG _) => apply uncalled_gets
  | |- uncalled (gets _) => apply uncalled_gets
  | |- uncalled (rangeG _) => apply uncalled_range
  | |- uncalled (let _ := _ in _) => cbv zeta
  | |- uncalled (match ?x with _ => _ end) => destruct x
  end).

Lemma uncalled_loadTopology : uncalled loadTopology.
Proof. unfold loadTopology, reconcileGatewayNodes, connectGatewayNode. hushed. Qed.

Lemma uncalled_fetch : uncalled cache_fetch.
Proof. unfold cache_fetch, fetch_map. hushed. Qed.

Lemma uncalled_op op : match op with GwMessage _ _ | GwSync | GwStart | GwClose => True | _ => False end -> uncalled (run_op op).
Proof.
  intros Hop. destruct op; try done; cbn [run_gw_op]; unfold onMessage, StartCluster, CloseCluster; hushed;
    apply uncalled_loadTopology.
Qed.

(** ** Runs *)

Abbreviation gstep := (gateway_step bcrypt_generate bcrypt_compare sha256_hex).
Abbreviation grun := (gateway_run bcrypt_generate bcrypt_compare sha256_hex).
Abbreviation gto := (step_to bcrypt_generate bcrypt_compare sha256_hex).

Lemma step_calls timely (x y : GS * round_stage) l : gstep timely x l y ->
  exists new, calls y.1 = (calls x.1 ++ new)%list /\ Forall (routed (gw x.1)) new.
Proof.
  assert (H0 : forall s s' : GS, calls s' = calls s -> exists new, calls s' = (calls s ++ new)%list /\ Forall (routed (gw s)) new)
    by (intros s s' ->; exists []; by rewrite app_nil_r).
  intros [op s s' r Hop|s s' r Hf|r s s' current Hc|r v s s' Hs _]; cbn [fst].
  - assert (Hfo : following (gw s) (calls s) s) by (split; [done|]; exists []; by rewrite app_nil_r).
    destruct op; try (by refine (proj2 (proj1 (follows_command (gw s) (calls s) _ _ s Hfo tt s' Hop))));
      by refine (H0 s s' (uncalled_op _ _ s tt s' Hop)).
  - exact (H0 s s' (uncalled_fetch s r s' Hf)).
  - apply H0. by injection Hc as _ <-.
  - apply H0. by injection Hs as <-.
Qed.

Lemma run_calls timely (x z : GS * round_stage) l : grun timely x l z ->
  exists new, calls z.1 = (calls x.1 ++ new)%list /\
    Forall (fun call => exists y, rtc (gto timely) x y /\ rtc (gto timely) y z /\ routed (gw y.1) call) new.
Proof.
  induction 1 as [x|x l y l' z Hxy Hyz (new & Hn & Hf)]; [exists []; by rewrite app_nil_r|].
  destruct (step_calls _ _ _ _ Hxy) as (new1 & Hn1 & Hf1). exists (new1 ++ new)%list. rewrite Hn, Hn1, app_assoc.
  assert (Hto : gto timely x y) by by exists l. apply run_steps in Hyz. split; [done|]. apply Forall_app. split.
  - eapply Forall_impl; [exact Hf1|]. intros call Hr. exists x. split_and!; [done|by eapply rtc_l|done].
  - eapply Forall_impl; [exact Hf|]. intros call (y' & ? & ? & ?). exists y'. split_and!; [by eapply rtc_l|done|done].
Qed.

Lemma steps_ok timely (x y z : GS * round_stage) :
  gateway_ok bcrypt_generate bcrypt_compare sha256_hex timely x y -> rtc (gto timely) y z ->
  gateway_ok bcrypt_generate bcrypt_compare sha256_hex timely x z.
Proof. intros Hok Hs. revert Hok. induction Hs as [|y1 y2 y3 [l Hl] _ IH]; [done|]. eauto using gateway_step_ok. Qed.

(** An operation; then another while a round of the cache is fetched, checked and
    stored. *)
Definition around (op1 op2 : gw_op) (s : GS) : option GS :=
  '(_, s1) ← run_op op1 s;
  '(r, s2) ← cache_fetch s1;
  '(_, s3) ← run_op op2 s2;
  if cl_topologyLoaded (gw s3) && (t_Version (cl_topology (gw s3)) =? cr_Version r) then snd <$> cache_store r s3 else None.

Lemma around_run op1 op2 s s' : around op1 op2 s = Some s' ->
  grun true (s, Waiting) (received op1 ++ received op2) (s', Waiting).
Proof.
  unfold around. destruct (run_op op1 s) as [[[] s1]|] eqn:E1; [|done]. cbn.
  destruct (cache_fetch s1) as [[r s2]|] eqn:E2; [|done]. cbn.
  destruct (run_op op2 s2) as [[[] s3]|] eqn:E3; [|done]. cbn.
  destruct (cl_topologyLoaded (gw s3) && (t_Version (cl_topology (gw s3)) =? cr_Version r)) eqn:E4; [|done]. intros [= <-].
  eapply grun_more; [by apply gstep_op|]. eapply (grun_more _ _ _ _ _ []); [by apply gstep_fetch|].
  match goal with |- gateway_run _ _ _ _ _ ?l _ => rewrite <- (app_nil_r l) end. eapply grun_more; [by apply gstep_op|].
  assert (Hcur : cache_current r s3 = Some (true, s3)) by (rewrite <- E4; done).
  eapply (grun_more _ _ _ _ _ [] (s3, Checked r _) []); [exact (gstep_check _ _ _ _ r s3 s3 true Hcur)|].
  eapply (grun_more _ _ _ _ _ [] _ []); [|apply grun_done]. by apply gstep_store.
Qed.

(** C27. The gateway routes by committed topologies only.  Whatever its players, its
    nodes, Redis and the database do: its topology only ever moves to higher versions;
    every client in the pool belongs to the address the targets name, and there is
    none after [Close]; every call by which a command changes something on a node
    went to a client of the node that owned the map, with the map's epoch, in the
    topology the command was routed by, one the gateway had during the run.  Every cached map came from the node that
    owned the map at some moment of the run; and from its current owner, as long as no
    round of the cache is stored after the topology has moved on since its check. *)
Theorem gateway_invariant timely (s s' : GS) log r' :
  cluster_wf (gw s) -> cache_fresh (gw s) -> grun timely (s, Waiting) log (s', r') ->
  cluster_wf (gw s') /\ later_routes (gw s) (gw s') /\
  (exists new, calls s' = (calls s ++ new)%list /\ forall call, call ∈ new -> exists y,
     rtc (gto timely) (s, Waiting) y /\ rtc (gto timely) y (s', r') /\
     t_Owners (cl_topology (gw y.1)) !! rq_map call = Some (cl_NodeID (rq_client call)) /\
     t_MapEpochs (cl_topology (gw y.1)) !! rq_map call = Some (rq_epoch call)) /\
  forall m d, cl_mapCache (gw s') !! m = Some d ->
    (exists y, rtc (gto timely) (s, Waiting) y /\ rtc (gto timely) y (s', r') /\
       t_Owners (cl_topology (gw y.1)) !! m = Some (mb_NodeID (mc_Brief d))) /\
    (timely = true -> t_Owners (cl_topology (gw s')) !! m = Some (mb_NodeID (mc_Brief d))).
Proof.
  intros Hc Hfr Hrun. pose proof (gateway_ok_start bcrypt_generate bcrypt_compare sha256_hex timely s Hc Hfr) as H0.
  pose proof (gateway_run_ok _ _ _ _ _ _ _ _ H0 Hrun) as [Hwf Hl _ Hca Hfresh _ _]. cbn in *. split_and!; [done|done| |].
  - destruct (run_calls _ _ _ _ Hrun) as (new & Hn & Hf). exists new. split; [done|]. intros call Hin.
    apply (proj1 (Forall_forall _ _) Hf) in Hin as (y & Hy & Hz & o & Hr). exists y.
    destruct (route_Some _ _ _ _ _ (go_wf _ _ _ _ _ _ (steps_ok _ _ _ _ H0 Hy)) Hr) as (_ & Hid & Ho & _ & He & _).
    rewrite Hid. by split_and!.
  - intros m d Hd. split; [by apply Hca|]. intros Ht. rewrite <- (cw_owners _ Hwf). by apply (Hfresh Ht m d).
Qed.
End routes.

(** ** A gateway with a log *)

Definition logged_gateway : GwSt (unit * list node_call) :=
  mkGwSt (set_cl_localSessions {["ann" := mkGlobalSession "ann" "demo" "node-a" 5]} demo_cluster)
    (quiet demo_gw_redis) (mkDB None (fun _ => F_ok) 0) demo_env [] [] (fun l => l) (tt, []).

Abbreviation logged_run := (gateway_run (S := unit * list node_call) (fun p => Some p) (fun h p => bool_decide (h = p)) (fun p => p)).
Abbreviation logged_to := (step_to (S := unit * list node_call) (fun p => Some p) (fun h p => bool_decide (h = p)) (fun p => p)).

(** The topology is loaded and a client connected; a player moves while a round of the
    cache is fetched, checked and stored. *)
Definition demo_routed : option (GwSt (unit * list node_call)) :=
  around (fun p => Some p) (fun h p => bool_decide (h = p)) (fun p => p) GwStart (GwMove "ann" "up") logged_gateway.

Definition shows_demo (s : GwSt (unit * list node_call)) : bool :=
  bool_decide (is_Some (cl_mapCache (gw s) !! "demo")) &&
  match calls s with [call] => bool_decide (rq_map call = "demo") | _ => false end.

Lemma gateway_invariant_witness : exists s' call,
  logged_run true (logged_gateway, Waiting) [] (s', Waiting) /\ is_Some (cl_mapCache (gw s') !! "demo") /\
  calls s' = [call] /\ rq_map call = "demo" /\
  (exists y, rtc (logged_to true) y (s', Waiting) /\ t_Owners (cl_topology (gw y.1)) !! "demo" = Some (cl_NodeID (rq_client call))) /\
  (forall d, cl_mapCache (gw s') !! "demo" = Some d -> t_Owners (cl_topology (gw s')) !! "demo" = Some (mb_NodeID (mc_Brief d))).
Proof.
  assert (Hc : cluster_wf (gw logged_gateway)) by (constructor; try done; intros k ?; by rewrite lookup_empty).
  assert (Hf : cache_fresh (gw logged_gateway)) by (intros m d; cbn; by rewrite lookup_empty).
  assert (Hx : match demo_routed with Some s => shows_demo s | None => false end = true) by (vm_compute; reflexivity).
  destruct demo_routed as [s'|] eqn:Hs'; [|discriminate Hx].
  pose proof (around_run (fun p => Some p) (fun h p => bool_decide (h = p)) (fun p => p) GwStart (GwMove "ann" "up") logged_gateway s' Hs') as Hrun.
  apply andb_true_iff in Hx as [Hcache%bool_decide_eq_true Hx]. destruct (calls s') as [|call [|]] eqn:Ecalls; try discriminate Hx.
  apply bool_decide_eq_true in Hx.
  destruct (gateway_invariant (fun p => Some p) (fun h p => bool_decide (h = p)) (fun p => p) true logged_gateway s' [] Waiting Hc Hf Hrun)
    as (_ & _ & (new & Hn & Hcalls) & Hmap).
  exists s', call. split_and!; [exact Hrun|exact Hcache|exact Ecalls|exact Hx| |].
  - rewrite Ecalls in Hn. cbn in Hn. subst new. destruct (Hcalls call) as (y & _ & Hy & Ho & _); [by apply list_elem_of_singleton|].
    exists y. split; [exact Hy|]. by rewrite Hx in Ho.
  - intros d Hd. by apply (Hmap "demo" d Hd).
Defined.
