(* ===== verification/ClusterViews.v ===== *)
(** * The gateway: what a player sees

    The answer of [SnapshotFor] as a function of the gateway's state, free of the
    recycled object, of map orders and of the pool; and the event buffers. *)

From Stdlib Require Import ZArith Lia String.
From stdpp Require Import base sorting gmap strings list option relations.
From S2P Require Import Prelude Protocol Config Maps World WorldOps WorldProps Topology Redis Store StoreProps Users Authority Wire Coordinator Cluster ClusterProps.

Open Scope Z_scope.
Open Scope go_scope.

(** ** The views of the nodes *)

(** The maps a topology gives to a node. *)
Definition owned_maps (t : Topology) (nodeID : string) : list string :=
  sort_strings (filter (fun m => t_Owners t !! m = Some nodeID) (map_keys (t_Owners t))).

Definition node_view (c : Cluster) (nodeID : string) : NodeView :=
  mkNodeView nodeID (default "" (cl_nodeAddrs c !! nodeID)) (bool_decide (is_Some (cl_nodes c !! nodeID)))
    (owned_maps (cl_topology c) nodeID) "由 coordinator 管理".

(** The owners of a topology, each once. *)
Definition owners_of (t : Topology) : list string :=
  sort_strings (elements (list_to_set (filter (fun o => o <> "") (values (t_Owners t))) : gset string)).

Definition node_views (c : Cluster) : list NodeView := node_view c <$> owners_of (cl_topology c).

Lemma foldl_add_view c ids (views : gmap string NodeView) n :
  let owner m := default "" (t_Owners (cl_topology c) !! m) in
  let mine := filter (fun m => owner m = n) ids in
  n <> "" ->
  foldl (add_view c) views ids !! n =
    match mine with
    | [] => views !! n
    | _ => Some (mkNodeView n (default "" (cl_nodeAddrs c !! n)) (bool_decide (is_Some (cl_nodes c !! n)))
             (nodev_PrimaryMaps (default zero_NodeView (views !! n)) ++ mine) "由 coordinator 管理")
    end.
Proof.
  intros owner mine Hn. unfold mine. clear mine. revert views. induction ids as [|m ids IH]; intros views; [done|].
  cbn [foldl]. rewrite IH, filter_cons. unfold add_view at 1 2. fold (owner m).
  destruct (decide (owner m = n)) as [Ho|Ho].
  - rewrite bool_decide_eq_false_2 by congruence. rewrite Ho, lookup_insert_eq. cbn [default nodev_PrimaryMaps].
    destruct (filter _ ids); [done|]. cbn. by rewrite <- app_assoc.
  - destruct (bool_decide_reflect (owner m = "")); [done|]. by rewrite lookup_insert_ne.
Qed.

Lemma add_view_empty c ids (views : gmap string NodeView) :
  views !! "" = None -> foldl (add_view c) views ids !! "" = None.
Proof.
  revert views. induction ids as [|m ids IH]; intros views Hv; [done|]. cbn [foldl]. apply IH.
  unfold add_view. destruct (bool_decide_reflect (default "" (t_Owners (cl_topology c) !! m) = "")) as [|Hne]; [done|].
  by rewrite lookup_insert_ne.
Qed.

Lemma elem_of_owners_of t n : n ∈ owners_of t <-> n <> "" /\ exists m, t_Owners t !! m = Some n.
Proof.
  unfold owners_of. rewrite elem_of_sort_strings, elem_of_elements, elem_of_list_to_set, list_elem_of_filter.
  unfold values. rewrite list_elem_of_fmap. split.
  - intros [? ([m o] & -> & Hm%elem_of_map_to_list)]. cbn in *. eauto.
  - intros [? [m Hm%elem_of_map_to_list]]. split; [done|]. by exists (m, n).
Qed.

Lemma omap_total {A B} (f : A -> option B) (g : A -> B) (l : list A) : (forall x, x ∈ l -> f x = Some (g x)) -> omap f l = g <$> l.
Proof.
  induction l as [|x l IH]; intros H; [done|]. cbn. rewrite (H x) by left. f_equal. apply IH. intros; apply H; by right.
Qed.

(** The loop over the owners in any order gives the same views. *)
Lemma views_of_order c ids : ids ≡ₚ map_keys (t_Owners (cl_topology c)) ->
  omap (fun n => (fun view => mkNodeView (nodev_ID view) (nodev_Addr view) (nodev_Healthy view)
                     (sort_strings (nodev_PrimaryMaps view)) (nodev_LastHeartbeat view)) <$> foldl (add_view c) ∅ ids !! n)
    (sort_strings (map_keys (foldl (add_view c) ∅ ids))) = node_views c.
Proof.
  intros Hids. set (views := foldl (add_view c) ∅ ids).
  assert (Hview : forall n, n <> "" -> (exists m, t_Owners (cl_topology c) !! m = Some n) <-> is_Some (views !! n)).
  { intros n Hn. unfold views. rewrite (foldl_add_view c ids ∅ n Hn), lookup_empty. split.
    - intros [m Hm]. destruct (filter _ ids) eqn:E; [|by eexists].
      assert (m ∈ @nil string) as []%elem_of_nil. rewrite <- E, list_elem_of_filter, Hids, elem_of_map_keys, Hm. eauto.
    - destruct (filter _ ids) as [|m l] eqn:E; [by intros [? [=]]|]. intros _. exists m.
      assert (m ∈ m :: l) as Hm by left. rewrite <- E, list_elem_of_filter, Hids, elem_of_map_keys in Hm.
      destruct Hm as [Hm [o Ho]]. rewrite Ho in *. cbn in Hm. congruence. }
  assert (Hempty : views !! "" = None) by by apply add_view_empty.
  assert (Hkeys : sort_strings (map_keys views) = owners_of (cl_topology c)).
  { apply sort_strings_unique, NoDup_Permutation; [apply NoDup_map_keys|apply NoDup_elements|]. intros n.
    rewrite elem_of_map_keys. rewrite <- (elem_of_sort_strings n (elements _)). fold (owners_of (cl_topology c)).
    rewrite elem_of_owners_of. split.
    - intros Hs. assert (n <> "") by (intros ->; rewrite Hempty in Hs; by destruct Hs). split; [done|]. by apply Hview.
    - intros [Hne Hm]. by apply Hview. }
  rewrite Hkeys. apply omap_total. intros n [Hn Hm]%elem_of_owners_of. apply (Hview n Hn) in Hm. revert Hm.
  unfold views. rewrite (foldl_add_view c ids ∅ n Hn), lookup_empty.
  destruct (filter _ ids) as [|m0 l0] eqn:E; [by intros [? [=]]|]. intros _.
  enough (sort_strings (m0 :: l0) = owned_maps (cl_topology c) n) as Heq
    by (unfold node_view; rewrite <- Heq; reflexivity).
  unfold owned_maps. rewrite <- E. apply sort_strings_unique. rewrite Hids.
  apply NoDup_Permutation; [apply list.NoDup_filter, NoDup_map_keys..|]. intros m. rewrite !list_elem_of_filter, elem_of_map_keys.
  destruct (t_Owners (cl_topology c) !! m); cbn; split; intros [? [? ?]]; split; eauto; congruence.
Qed.

(** ** The snapshot of a player *)

Definition boss_view (c : Cluster) (t : Z) : BossView :=
  let b := cl_bossCache c in
  mkBossView (boss_Name b) (cl_bossHpCache c) 1600 (boss_Alive b) (boss_LastHit b)
    (if boss_Alive b then 0 else Z.max 1 (Z.quot (Sub (boss_RespawnAt b) t) Second)) (boss_AttackGap b) (boss_Sites b) (boss_Version b).

(** The cached maps among the configured ones, in name order. *)
Definition map_briefs (c : Cluster) (mapID : string) : list MapBrief :=
  omap (fun m => (fun d => set_mb_IsCurrent (bool_decide (m = mapID)) (mc_Brief d)) <$> cl_mapCache c !! m)
    (sort_strings (map_keys (cl_configs c))).

(** What the player [u] sees at time [t] on the cached map view [v]. *)
Definition snapshot_state (c : Cluster) (u : string) (session : GlobalSession) (v : MapView) (t : Z) : WorldState :=
  mkWorldState (own_view v u) v (map_briefs c (gs_MapID session)) (node_views c) (boss_view c t)
    (collect_events c (gs_MapID session) u) (gs_Version session) (t_Version (cl_topology c))
    (default 0 (t_MapEpochs (cl_topology c) !! gs_MapID session)).

(** The event buffers within their limits. *)
Record events_bounded (c : Cluster) : Prop := {
  eb_global : (length (cl_globalEvents c) <= 3)%nat;
  eb_map : forall m l, cl_mapEvents c !! m = Some l -> (length l <= 3)%nat;
  eb_user : forall u l, cl_userEvents c !! u = Some l -> (length l <= 2)%nat
}.

Lemma bounded_default (m : gmap string (list string)) k n :
  (forall k l, m !! k = Some l -> (length l <= n)%nat) -> (length (default [] (m !! k)) <= n)%nat.
Proof. intros H. destruct (m !! k) eqn:E; cbn; [by eapply H|lia]. Qed.

(** The three buffers fit in a snapshot: the limit of eight never cuts. *)
Lemma last_events_all c m u : events_bounded c -> last_events (collect_events c m u) = collect_events c m u.
Proof.
  intros [Hg Hm Hu]. unfold last_events. destruct (Nat.ltb_spec 8 (length (collect_events c m u))) as [H|]; [|done].
  exfalso. unfold collect_events in H. rewrite !length_app in H.
  pose proof (bounded_default _ m 3 Hm). pose proof (bounded_default _ u 2 Hu). lia.
Qed.

Lemma foldl_briefs (cache : gmap string MapCacheData) l (acc : gmap string MapBrief) k :
  (forall d, d ∈ l -> cache !! mb_ID (mc_Brief d) = Some d) ->
  acc !! k = mc_Brief <$> cache !! k \/ (acc !! k = None /\ ((exists d, d ∈ l /\ mb_ID (mc_Brief d) = k) \/ cache !! k = None)) ->
  foldl (fun m k => <[mb_ID (mc_Brief k) := mc_Brief k]> m) acc l !! k = mc_Brief <$> cache !! k.
Proof.
  revert acc. induction l as [|d l IH]; intros acc Hl Hk; cbn [foldl].
  - destruct Hk as [?|[H [(? & ?%elem_of_nil & _)|Hn]]]; [done..|]. by rewrite Hn.
  - apply IH; [intros; apply Hl; by right|]. destruct (decide (mb_ID (mc_Brief d) = k)) as [<-|Hne].
    + left. by rewrite lookup_insert_eq, (Hl d) by left.
    + rewrite lookup_insert_ne by done. destruct Hk as [?|[? [(d' & [->|?]%elem_of_cons & ?)|?]]]; [by left|done|right|right]; eauto.
Qed.

Lemma lookup_briefs (cache : gmap string MapCacheData) l k :
  (forall m d, cache !! m = Some d -> mb_ID (mc_Brief d) = m) -> l ≡ₚ values cache ->
  briefs_by_ID l !! k = mc_Brief <$> cache !! k.
Proof.
  intros Hc Hl. assert (Hin : forall d, d ∈ l <-> exists m, cache !! m = Some d).
  { intros d. rewrite Hl. unfold values. rewrite list_elem_of_fmap. split.
    - intros ([m d'] & -> & Hm%elem_of_map_to_list). eauto.
    - intros [m Hm]. exists (m, d). split; [done|by apply elem_of_map_to_list]. }
  apply foldl_briefs.
  - intros d [m Hm]%Hin. by rewrite (Hc m d Hm).
  - right. split; [apply lookup_empty|]. destruct (cache !! k) as [d|] eqn:E; [left|by right].
    exists d. split; [apply Hin; eauto|by eapply Hc].
Qed.

Lemma current_briefs_order c m l : cluster_wf c -> l ≡ₚ values (cl_mapCache c) ->
  current_briefs c m (briefs_by_ID l) = map_briefs c m.
Proof.
  intros Hc Hl. unfold current_briefs, map_briefs. apply list_omap_ext, Forall2_same_length_lookup_2; [done|].
  intros i x y Hx Hy. assert (x = y) as -> by congruence. rewrite (lookup_briefs (cl_mapCache c)); [|by intros ? ? [_ ?]%(cw_cache c Hc)|done].
  by destruct (cl_mapCache c !! y).
Qed.

Section cluster_views.
Context {S : Type} {clients : GatewayNodeClient S}.

(** What a command leaves alone: everything but the reading positions of the
    environment and the pool. *)
Definition same_gateway (s s' : GwSt S) : Prop :=
  gw s' = gw s /\ gt s' = gt s /\ gdb s' = gdb s /\ gpeers s' = gpeers s /\ gscan s' = gscan s.

(** The clock is at the same reading. *)
Definition same_clock (s s' : GwSt S) : Prop := clk (ge s') = clk (ge s) /\ clk_pos (ge s') = clk_pos (ge s).

Lemma wp_views (Q : list NodeView -> GwSt S -> Prop) s :
  (forall s', same_gateway s s' -> same_clock s s' -> Q (node_views (gw s)) s') -> wp gatewayNodeViewsLocked Q s.
Proof.
  intros HQ. unfold gatewayNodeViewsLocked. apply wp_bind, wp_gets. cbn. apply wp_bind. unfold wp, rangeG, range_order. cbn.
  rewrite views_of_order by apply arrange_Permutation. apply HQ; by split_and!.
Qed.

Lemma wp_bossView (Q : BossView -> GwSt S -> Prop) s :
  (forall s', same_gateway s s' -> Q (boss_view (gw s) (clk (ge s) (clk_pos (ge s)))) s') -> wp bossViewG Q s.
Proof.
  intros HQ. unfold bossViewG. apply wp_bind, wp_gets. cbn. apply wp_bind. unfold boss_view in HQ.
  destruct (boss_Alive (cl_bossCache (gw s))); [by apply wp_ret, wp_ret, HQ|].
  apply wp_bind. unfold wp at 1, nowG, now. cbn. apply wp_ret, wp_ret.
  match goal with |- Q (mkBossView _ _ _ _ _ ?r _ _ _) _ => assert (Hr : r = Z.max 1 (Z.quot (Sub (boss_RespawnAt (cl_bossCache (gw s))) (clk (ge s) (clk_pos (ge s)))) Second)) end.
  { destruct (Z.ltb_spec (Z.quot (Sub (boss_RespawnAt (cl_bossCache (gw s))) (clk (ge s) (clk_pos (ge s)))) Second) 1); lia. }
  rewrite Hr. apply HQ. by split_and!.
Qed.

(** C29. A snapshot is a function of the session and of the gateway's caches: it
    shows the cached view of the session's map with the player's own entry, the
    cached maps, the owners of the topology with their maps, the boss, the session
    and topology versions, and every buffered event for the player (the limit of
    eight never cuts one).  The recycled object, the pool and all map orders make
    no difference, nothing of the gateway is changed, and a map that is not cached
    yet is reported as such. *)
Theorem SnapshotFor_spec u session node epoch (s s1 : GwSt S) :
  sessionNode u s = Some (inr (session, node, epoch), s1) -> cluster_wf (gw s1) -> events_bounded (gw s1) ->
  exists s', same_gateway s1 s' /\
    SnapshotFor u s = Some (match cl_mapCache (gw s1) !! gs_MapID session ≫= mc_View with
      | Some v => inr (snapshot_state (gw s1) u session v (clk (ge s1) (clk_pos (ge s1))))
      | None => inl GErrSyncing
      end, s').
Proof.
  intros Hsn Hc He.
  enough (H : wp (SnapshotFor u) (fun r s' => same_gateway s1 s' /\ r = match cl_mapCache (gw s1) !! gs_MapID session ≫= mc_View with
      | Some v => inr (snapshot_state (gw s1) u session v (clk (ge s1) (clk_pos (ge s1))))
      | None => inl GErrSyncing
      end) s) by (apply wp_run in H as (r & s' & H1 & H2 & ->); eauto).
  unfold SnapshotFor. apply wp_try. unfold wp at 1. rewrite Hsn. apply wp_bind, wp_gets. cbv zeta. apply wp_bind.
  unfold wp at 1, allocG. destruct (AllocWorldState _ _) as [ws pool].
  apply wp_bind, wp_views. intros s2 H2 [Hk1 Hk2]. cbn in H2, Hk1, Hk2. apply wp_bind, wp_bossView. intros s3 H3.
  apply wp_bind. unfold wp at 1, rangeG, range_order.
  assert (Hgw : gw s2 = gw s1) by apply H2. unfold id.
  assert (Hsame : same_gateway s1 s3).
  { destruct H2 as (? & ? & ? & ? & ?), H3 as (? & ? & ? & ? & ?). cbn in *. split_and!; by etrans. }
  destruct (cl_mapCache (gw s1) !! gs_MapID session ≫= mc_View) as [v|].
  - apply wp_ok. split; [exact Hsame|]. cbn [ws_Events ws_SessionVersion ws_TopologyVersion ws_MapEpoch ws_Maps ws_Nodes].
    rewrite Hgw, Hk1, Hk2, !take_0. cbn [app]. rewrite last_events_all by done.
    rewrite current_briefs_order; [done|done|apply arrange_Permutation].
  - apply wp_bind, wp_modify, wp_fail. split; [exact Hsame|done].
Qed.

(** ** The event buffers *)

Definition receive (c : Cluster) (log : list (string * string)) : Cluster :=
  foldl (fun c m => buffer_event m.1 m.2 c) c log.

#[local] Instance buffer_event_proper : Proper ((=) ==> (=) ==> same_events ==> same_events) buffer_event.
Proof.
  intros ch _ <- p _ <- c c' (Hg & Hm & Hu). unfold buffer_event. rewrite Hg, Hm, Hu.
  repeat case_match; by split_and!.
Qed.

#[local] Instance receive_proper : Proper (same_events ==> (=) ==> same_events) receive.
Proof.
  intros c c' Hc log _ <-. revert c c' Hc. induction log as [|m log IH]; intros c c' Hc; [done|].
  apply IH. by rewrite Hc.
Qed.

Context (bcrypt_generate : string -> option string) (bcrypt_compare : string -> string -> bool)
  (sha256_hex : string -> string).
Abbreviation gateway_step' := (gateway_step bcrypt_generate bcrypt_compare sha256_hex).
Abbreviation gateway_run' := (gateway_run bcrypt_generate bcrypt_compare sha256_hex).

(** A step changes the buffers by the messages it receives. *)
Lemma step_events timely (x : GwSt S * round_stage) l y :
  gateway_step' timely x l y -> same_events (receive (gw x.1) l) (gw y.1).
Proof.
  intros [op s s' r Hop|s s' r Hf|r s s' current Hc|r v s s' Hc _]; cbn [fst].
  - destruct op; try (by eapply (keeps_op bcrypt_generate bcrypt_compare sha256_hex same_events); [|exact Hop]).
    exact (keeps_message same_events channel payload s _ _ Hop).
  - exact (keeps_cache_fetch same_events s _ _ Hf).
  - by injection Hc as _ <-.
  - by injection Hc as <-.
Qed.

Lemma run_events timely (x : GwSt S * round_stage) l y : gateway_run' timely x l y -> same_events (receive (gw x.1) l) (gw y.1).
Proof.
  induction 1 as [x|x l y l' z Hxy _ IH]; [done|]. unfold receive. rewrite foldl_app. fold (receive (gw x.1) l).
  etrans; [|exact IH]. fold (receive (receive (gw x.1) l) l'). by rewrite (step_events _ _ _ _ Hxy).
Qed.
End cluster_views.

(** The payloads a channel carried. *)
Definition payloads (channel : string) (log : list (string * string)) : list string :=
  omap (fun m => if decide (m.1 = channel) then Some m.2 else None) log.

Definition last_n (n : nat) (l : list string) : list string := drop (length l - n) l.

Lemma last_n_push n l x : push_last n (last_n n l) x = last_n n (l ++ [x]).
Proof.
  unfold push_last, last_n. cbv zeta. assert (Hk : (length l - n <= length l)%nat) by lia.
  rewrite <- (drop_app_le l [x]) by done. rewrite !length_drop, !length_app. cbn [length].
  destruct (Nat.ltb_spec n (length l + 1 - (length l - n))).
  - rewrite drop_drop. f_equal. lia.
  - f_equal. lia.
Qed.

Lemma last_n_length n l : (length (last_n n l) <= n)%nat.
Proof. unfold last_n. rewrite length_drop. lia. Qed.

Lemma string_app_cancel (a b c : string) : a +:+ b = a +:+ c -> b = c.
Proof. induction a as [|x a IH]; cbn; [done|]. intros [= H]. auto. Qed.

Lemma HasPrefix_spec s p : HasPrefix s p = true <-> exists t, s = p +:+ t.
Proof.
  unfold HasPrefix. revert s. induction p as [|x p IH]; intros s.
  - split; [by exists s|by destruct s].
  - destruct s as [|y s]; [split; [done|by intros [t [=]]]|]. cbn.
    destruct (Ascii.ascii_dec x y) as [->|Hne]; [|split; [done|by intros [t [= ? _]]]].
    rewrite IH. split; intros [t H]; exists t; [by rewrite H|by injection H].
Qed.

Lemma substring_all n s : n = String.length s -> String.substring 0 n s = s.
Proof. intros ->. induction s as [|x s IH]; cbn; [done|]. by rewrite IH. Qed.

Lemma TrimPrefix_app p t : TrimPrefix (p +:+ t) p = t.
Proof.
  unfold TrimPrefix. rewrite (proj2 (HasPrefix_spec (p +:+ t) p)) by eauto. rewrite string_length_app.
  replace (String.length p + String.length t - String.length p)%nat with (String.length t) by lia.
  induction p as [|x p IH]; [by apply substring_all|]. exact IH.
Qed.

(** ** The event buffers after any run *)

Lemma payloads_app ch log m : payloads ch (log ++ [m]) = (payloads ch log ++ (if decide (m.1 = ch) then [m.2] else []))%list.
Proof. unfold payloads. rewrite omap_app. f_equal. cbn. by case_decide. Qed.

(** What the buffers hold after the messages [log]. *)
Record buffers_of (log : list (string * string)) (c : Cluster) : Prop := {
  bo_global : cl_globalEvents c = last_n 3 (payloads "events:global" log);
  bo_map : forall m, default [] (cl_mapEvents c !! m) = last_n 3 (payloads ("events:map:" +:+ m) log);
  bo_user : forall u, default [] (cl_userEvents c !! u) = last_n 2 (payloads ("events:user:" +:+ u) log)
}.

Lemma buffers_same log c c' : same_events c c' -> buffers_of log c -> buffers_of log c'.
Proof. intros (Hg & Hm & Hu) []. constructor; by rewrite ?Hg, ?Hm, ?Hu. Qed.

(** A channel that carries events is exactly one of the three kinds. *)
Lemma other_channel {A} (ch : string) p t (a b : A) : (forall t', ch <> p +:+ t') -> (if decide (ch = p +:+ t) then a else b) = b.
Proof. intros H. by rewrite decide_False. Qed.

Lemma buffers_push log c m : buffers_of log c -> buffers_of (log ++ [m]) (buffer_event m.1 m.2 c).
Proof.
  intros [Hg Hm Hu]. destruct m as [ch p]. cbn [fst snd]. unfold buffer_event.
  destruct (bool_decide_reflect (ch = "events:global")) as [->|Hng].
  { constructor; cbn -[payloads]; intros; rewrite payloads_app; cbn [fst snd].
    - by rewrite Hg, last_n_push.
    - rewrite decide_False by done. by rewrite app_nil_r.
    - rewrite decide_False by done. by rewrite app_nil_r. }
  destruct (HasPrefix ch "events:map:") eqn:Hpm.
  { apply HasPrefix_spec in Hpm as [m ->]. rewrite TrimPrefix_app. constructor; cbn -[payloads]; intros; rewrite payloads_app; cbn [fst snd].
    - rewrite decide_False by done. by rewrite app_nil_r.
    - destruct (decide (m = m0)) as [<-|Hne].
      + rewrite lookup_insert_eq, decide_True by done. cbn [default]. by rewrite Hm, last_n_push.
      + rewrite lookup_insert_ne, decide_False by (done || by intros ?%string_app_cancel). by rewrite app_nil_r.
    - rewrite decide_False by done. by rewrite app_nil_r. }
  assert (Hnm : forall t, ch <> "events:map:" +:+ t).
  { intros t ->. apply not_true_iff_false in Hpm. apply Hpm, HasPrefix_spec. eauto. }
  destruct (HasPrefix ch "events:user:") eqn:Hpu.
  { apply HasPrefix_spec in Hpu as [u ->]. rewrite TrimPrefix_app. constructor; cbn -[payloads]; intros; rewrite payloads_app; cbn [fst snd].
    - rewrite decide_False by done. by rewrite app_nil_r.
    - rewrite other_channel by done. by rewrite app_nil_r.
    - destruct (decide (u = u0)) as [<-|Hne].
      + rewrite lookup_insert_eq, decide_True by done. cbn [default]. by rewrite Hu, last_n_push.
      + rewrite lookup_insert_ne, decide_False by (done || by intros ?%string_app_cancel). by rewrite app_nil_r. }
  assert (Hnu : forall t, ch <> "events:user:" +:+ t).
  { intros t ->. apply not_true_iff_false in Hpu. apply Hpu, HasPrefix_spec. eauto. }
  constructor; intros; rewrite payloads_app; cbn [fst snd]; rewrite ?decide_False, ?app_nil_r by done; auto.
Qed.

Section event_props.
Context {S : Type} {clients : GatewayNodeClient S}.
Context (bcrypt_generate : string -> option string) (bcrypt_compare : string -> string -> bool)
  (sha256_hex : string -> string).

Lemma buffers_bounded log c : buffers_of log c -> events_bounded c.
Proof.
  intros [Hg Hm Hu]. constructor.
  - rewrite Hg. apply last_n_length.
  - intros m l Hl. specialize (Hm m). rewrite Hl in Hm. cbn in Hm. rewrite Hm. apply last_n_length.
  - intros u l Hl. specialize (Hu u). rewrite Hl in Hu. cbn in Hu. rewrite Hu. apply last_n_length.
Qed.

(** The gateway buffers events exactly: after any run of commands, rounds and
    messages from an empty start, the buffers hold the last three global events,
    the last three of each map and the last two of each player, in the order of
    their arrival; nothing but messages changes them. *)
Theorem events_kept timely (s s' : GwSt S) log r' :
  buffers_of [] (gw s) -> gateway_run bcrypt_generate bcrypt_compare sha256_hex timely (s, Waiting) log (s', r') ->
  buffers_of log (gw s') /\ events_bounded (gw s').
Proof.
  intros Hs Hrun%run_events. cbn in Hrun.
  assert (H : buffers_of log (gw s')); [|split; [done|by eapply buffers_bounded]].
  apply (buffers_same log _ _ Hrun). unfold receive. rewrite <- (app_nil_l log) at 1. generalize (@nil (string * string)) as l0, Hs.
  generalize (gw s). clear. induction log as [|m log IH]; intros c l0 Hc; [by rewrite app_nil_r|].
  cbn [foldl]. rewrite (cons_middle m l0 log), app_assoc. apply IH. by apply buffers_push.
Qed.
End event_props.

(** Four messages to one player, with a topology change in between. *)
Definition demo_log : list gw_op :=
  [GwMessage "events:user:ann" "1"; GwStart; GwMessage "events:user:ann" "2"; GwMessage TopologyEventChannel "7";
   GwMessage "events:user:bob" "x"; GwMessage "events:user:ann" "3"].

Lemma demo_log_runs : match run_ops demo_log demo_gateway with Some _ => true | None => false end = true.
Proof. vm_compute. reflexivity. Qed.

Lemma events_kept_witness :
  exists s', run_ops demo_log demo_gateway = Some s' /\ default [] (cl_userEvents (gw s') !! "ann") = ["2"; "3"].
Proof.
  pose proof demo_log_runs as H. destruct (run_ops demo_log demo_gateway) as [s'|] eqn:E; [|discriminate H].
  exists s'. split; [reflexivity|]. pose proof (run_ops_run false _ _ _ Waiting E) as Hrun.
  destruct (events_kept (fun p => Some p) (fun h p => bool_decide (h = p)) (fun p => p) false demo_gateway s'
    (demo_log ≫= received) Waiting) as [[_ _ Hu] _].
  - constructor; intros; reflexivity.
  - exact Hrun.
  - rewrite (Hu "ann"). reflexivity.
Defined.

(** A gateway that has loaded the topology and cached the map of its player. *)
Definition demo_session : GlobalSession := mkGlobalSession "ann" "demo" "node-a" 5.
Definition demo_ready : Cluster :=
  mkCluster {["node-a" := mkClient "node-a" "10.0.0.1:1"]} {["node-a" := "10.0.0.1:1"]} {["node-a" := "10.0.0.1:1"]} false
    (t_Owners demo_topology) demo_topology true {["demo" := demo_cfg; "cave" := demo_cfg]}
    {["demo" := mkMapCacheData (Some (demo_view "demo")) (mkMapBrief "demo" "演示" "node-a" 0 0 0 4 true false 0)]}
    zero_BossState 0 ["hello"] ∅ ∅ {["ann" := demo_session]}.

Lemma demo_ready_wf : cluster_wf demo_ready.
Proof.
  constructor; cbn [demo_ready cl_topologyLoaded cl_topology cl_owners cl_nodes cl_nodeAddrs cl_nodeTargets cl_closed cl_mapCache cl_configs];
    try done.
  - intros _. apply Validate_None. vm_compute. reflexivity.
  - intros k cl [<- <-]%lookup_singleton_Some. by rewrite lookup_singleton_eq.
  - intros k addr [<- <-]%lookup_singleton_Some. done.
  - intros m d [<- <-]%lookup_singleton_Some. split; [by eexists|done].
Qed.

(** The pool holds an object that still carries old data. *)
Definition demo_ready_gateway : GwSt unit :=
  mkGwSt demo_ready (quiet demo_gw_redis) (mkDB None (fun _ => F_ok) 0) demo_env
    [mkWorldState zero_PlayerView (demo_view "cave") [] [] zero_BossView ["old"] 9 9 9] [0%nat] (fun l => l) tt.

Lemma SnapshotFor_spec_witness :
  exists s', same_gateway demo_ready_gateway s' /\
    SnapshotFor "ann" demo_ready_gateway
      = Some (inr (snapshot_state demo_ready "ann" demo_session (demo_view "demo") (1000 * Second)), s').
Proof.
  apply (SnapshotFor_spec "ann" (mkGlobalSession "ann" "demo" "node-a" 5) (mkClient "node-a" "10.0.0.1:1") 3
           demo_ready_gateway demo_ready_gateway).
  - reflexivity.
  - exact demo_ready_wf.
  - constructor; [repeat constructor|intros m l; unfold demo_ready_gateway, demo_ready; cbn; by rewrite lookup_empty..].
Defined.
