(* ===== verification/ClusterSwitch.v ===== *)
(** * The gateway: moving a player between nodes, and logging out

    [SwitchMap] removes a player at the source node, adds it at the target and
    puts it back when the target fails.  What the nodes promise is an interface
    ([PlayerPlaces]): an operation that answers took effect as it says, one that
    fails may or may not have taken effect. *)

From Stdlib Require Import ZArith Lia String.
From stdpp Require Import base sorting gmap strings list option relations.
From S2P Require Import Prelude Protocol Config Maps World WorldOps WorldProps Topology Redis Store StoreProps Users Authority Wire Coordinator Cluster ClusterProps ClusterViews.

Open Scope Z_scope.
Open Scope go_scope.

(** Where a player is: the nodes (by name) and maps that hold it.  Only an addition,
    which may have to build a world first, can bring a node down. *)
Class PlayerPlaces (S : Type) {clients : GatewayNodeClient S} := {
  fleet_ok : S -> Prop;
  places : S -> string -> gset (string * string);
  add_places p cl m e prof : fleet_ok p ->
    wp (RpcAddPlayer cl m e prof) (fun r p' => fleet_ok p' /\
      (places p' (up_Username prof) = {[(cl_NodeID cl, m)]} ∪ places p (up_Username prof) \/
       (exists err, r = inl err) /\
       (places p' (up_Username prof) = places p (up_Username prof) \/
        places p' (up_Username prof) = filter (fun x => x.1 <> cl_NodeID cl) (places p (up_Username prof))))) p;
  remove_places p cl m u e : fleet_ok p ->
    wp (RpcRemovePlayer cl m u e) (fun r p' => fleet_ok p' /\
      match r with
      | inr (prof, true) => up_Username prof = u /\ places p' u = places p u ∖ {[(cl_NodeID cl, m)]}
      | inr (_, false) => places p' u = places p u
      | inl _ => places p' u = places p u \/ places p' u = places p u ∖ {[(cl_NodeID cl, m)]}
      end) p;
  profile_places p cl m u : fleet_ok p ->
    wp (RpcProfile cl m u) (fun r p' => fleet_ok p' /\ places p' u = places p u /\
      forall prof found, r = inr (prof, found) -> found = true -> up_Username prof = u) p
}.

Section switch.
Context {S : Type} {clients : GatewayNodeClient S}.

Abbreviation GM := (ST (GwSt S)).

(** ** Commands that do not talk to the nodes *)

Definition local_only {A} (m : GM A) : Prop := forall s, wp m (fun _ s' => gpeers s' = gpeers s) s.

Lemma local_ret {A} (a : A) : local_only (mret a).
Proof. done. Qed.

Lemma local_bind {A B} (m : GM A) (f : A -> GM B) : local_only m -> (forall a, local_only (f a)) -> local_only (m ≫= f).
Proof.
  intros Hm Hf s. apply wp_bind. eapply wp_mono; [apply Hm|]. intros a s1 H1.
  eapply wp_mono; [apply Hf|]. intros b s2 H2. by rewrite H2.
Qed.

Lemma local_try {A B E} (m : GM (E + A)) (k : A -> GM (E + B)) : local_only m -> (forall a, local_only (k a)) -> local_only (try m k).
Proof. intros Hm Hk. apply local_bind; [done|]. intros [err|a]; [done|apply Hk]. Qed.

Lemma local_gets {A} (f : GwSt S -> A) : local_only (gets f).
Proof. done. Qed.
Lemma local_modG f : local_only (modG f).
Proof. done. Qed.
Lemma local_nowG : local_only nowG.
Proof. done. Qed.
Lemma local_rangeG {A} (l : list A) : local_only (rangeG l).
Proof. done. Qed.
Lemma local_allocG : local_only allocG.
Proof. intros s. unfold allocG, wp. by destruct (AllocWorldState _ _). Qed.
Lemma local_freeG ws : local_only (freeG ws).
Proof. done. Qed.

(** Redis and database operations that always return. *)
Lemma local_onRedisG {A} (m : RM A) : (forall t, wp m (fun _ _ => True) t) -> local_only (onRedisG m).
Proof. intros Hm s. apply wp_zoom. eapply wp_mono; [apply Hm|done]. Qed.
Lemma local_onDB {A} (m : DM A) : (forall d, wp m (fun _ _ => True) d) -> local_only (onDB m).
Proof. intros Hm s. apply wp_zoom. eapply wp_mono; [apply Hm|done]. Qed.

Lemma local_LoadGlobalSession u : local_only (onRedisG (LoadGlobalSession u)).
Proof. apply local_onRedisG. intros t. unfold LoadGlobalSession. apply wp_bind, wp_read. done. Qed.

Lemma local_write f : local_only (onRedisG (orErr ErrRedis (write f))).
Proof. apply local_onRedisG. intros t. apply wp_orErr, wp_write; done. Qed.

Lemma local_SaveProfile p : local_only (onDB (SaveProfile p)).
Proof.
  apply local_onDB. intros d. unfold SaveProfile. apply wp_try. unfold wp at 1, database. destruct (db_users d) eqn:E; [|done].
  apply wp_orErr. unfold wp, stmt. rewrite E. by destruct (db_fault d (db_pos d)).
Qed.

Ltac local_step :=
  lazymatch goal with
  | |- local_only (mret _) => apply local_ret
  | |- local_only (fail _) => apply local_ret
  | |- local_only (ok _) => apply local_ret
  | |- local_only (selfG _) => apply local_gets
  | |- local_only (modG _) => apply local_modG
  | |- local_only nowG => apply local_nowG
  | |- local_only (rangeG _) => apply local_rangeG
  | |- local_only allocG => apply local_allocG
  | |- local_only (freeG _) => apply local_freeG
  | |- local_only (onRedisG (LoadGlobalSession _)) => apply local_LoadGlobalSession
  | |- local_only (onRedisG (SaveGlobalSession _)) => apply local_write
  | |- local_only (onRedisG (PublishEvent _ _)) => apply local_write
  | |- local_only (onDB (SaveProfile _)) => apply local_SaveProfile
  | |- local_only (_ ≫= _) => apply local_bind; [|intros ?]
  | |- local_only (try _ _) => apply local_try; [|intros ?]
  | |- local_only (let _ := _ in _) => cbv zeta
  | |- local_only (match ?x with _ => _ end) => destruct x
  end.
Ltac local_tac := repeat local_step.

Lemma local_sessionNode u : local_only (sessionNode u).
Proof. unfold sessionNode. local_tac. Qed.

Lemma local_refreshed u : local_only (refreshed u).
Proof.
  unfold refreshed, SnapshotFor, gatewayNodeViewsLocked, bossViewG. apply local_try; [|intros; apply local_ret].
  apply local_try; [apply local_sessionNode|]. intros [[session node] epoch]. local_tac.
Qed.

(** The session update that ends a successful switch. *)
Lemma local_finish u targetMap (dst : client) dstNodeID profile :
  local_only (found ← onRedisG (LoadGlobalSession u);
      _ ← (match found with
        | None => mret tt
        | Some session =>
            let session := mkGlobalSession (gs_Username session) targetMap (cl_NodeID dst) (gs_Version session +i 1) in
            _ ← onRedisG (SaveGlobalSession session);
            _ ← modG (fun c => set_cl_localSessions (<[u := session]> (cl_localSessions c)) c);
            pushEvent (gs_Username session) ("切换到地图 " +:+ targetMap)
        end);
      _ ← onDB (SaveProfile (set_up_last targetMap dstNodeID profile));
      refreshed u).
Proof.
  apply local_bind; [local_step|]. intros found. apply local_bind; [destruct found; unfold pushEvent, publishG; local_tac|].
  intros _. apply local_bind; [local_step|]. intros _. apply local_refreshed.
Qed.

(** ** The switch *)

Section laws.
Context {PP : PlayerPlaces S}.

(** Where the player can be after a transfer from [here] to [there]. *)
Definition transferred (here there : string * string) (r : gw_err + UserProfile) (after : gset (string * string)) : Prop :=
  match r with
  | inr _ => after = {[there]}
  | inl (GErrTry _) => after = {[here]} \/ after = ∅
  | inl GErrTryRejected => after = {[here]}
  | inl (GErrConfirm _) => after = {[here]} \/ after = ∅ \/ after = {[there]} \/ after = {[there; here]}
  | inl GErrConfirmCheck => after = {[there]}
  | inl _ => False
  end.

Lemma wp_onNodes {A} (m : ST S A) (Q : A -> GwSt S -> Prop) s :
  wp m (fun a p => Q a (mkGwSt (gw s) (gt s) (gdb s) (ge s) (gpool s) (gchoice s) (gscan s) p)) (gpeers s) -> wp (onNodes m) Q s.
Proof. intros H. unfold onNodes. by apply wp_zoom. Qed.

Lemma wp_transfer u session src e targetMap dst de s :
  let here := (cl_NodeID src, gs_MapID session) in
  let there := (cl_NodeID dst, targetMap) in
  fleet_ok (gpeers s) -> places (gpeers s) u = {[here]} ->
  wp (transfer u session src e targetMap dst de)
     (fun r s' => gw s' = gw s /\ fleet_ok (gpeers s') /\ transferred here there r (places (gpeers s') u)) s.
Proof.
  intros here there Hok Hp. unfold transfer, wrapErr. apply wp_try, wp_bind, wp_onNodes.
  eapply wp_mono; [by apply remove_places|]. intros [err|[profile removed]] p1 [Hok1 H1]; rewrite Hp in H1; fold here in H1.
  { rm_steps. cbn. split_and!; [done..|]. destruct H1 as [->| ->]; [by left|right; set_solver]. }
  rm_steps. destruct removed; cbn [negb]; [|rm_steps; by split_and!]. destruct H1 as [Hu H1].
  assert (Hempty : places p1 u = ∅) by set_solver. rm_steps. apply wp_onNodes.
  eapply wp_mono; [by apply add_places|]. intros [err|[]] p2 [Hok2 H2]; cbn [gpeers] in *; rewrite Hu, Hempty in H2; fold there in H2.
  - rm_steps. apply wp_onNodes. eapply wp_mono; [by apply add_places|]. intros r3 p3 [Hok3 H3].
    cbn [gpeers] in *. rewrite Hu in H3. fold here in H3. rm_steps. cbn [gpeers gw]. split_and!; [done..|]. cbn.
    assert (Hp2 : places p2 u = {[there]} \/ places p2 u = ∅) by set_solver.
    destruct Hp2 as [Hp2|Hp2]; rewrite Hp2 in H3; destruct H3 as [H3|[_ [H3|H3]]]; rewrite H3.
    + right; right; right. set_solver.
    + right; right; left. done.
    + destruct (decide (there.1 = here.1)); [right; left|right; right; left]; set_solver.
    + left. set_solver.
    + by right; left.
    + right; left. set_solver.
  - destruct H2 as [H2|[[? [=]] _]]. rm_steps. apply wp_onNodes.
    eapply wp_mono; [by apply profile_places|]. intros r3 p3 (Hok3 & H3 & _). cbn [gpeers] in *.
    destruct r3 as [err|[profile' [|]]]; rm_steps; cbn [gpeers gw]; (split_and!; [done..|]); cbn; rewrite H3, H2; set_solver.
Qed.

(** The same for the whole command, with the result it reports. *)
Record switched (here there : string * string) (r : gw_err + option WorldState) (after : gset (string * string)) : Prop := {
  sw_places : after = {[here]} \/ after = {[there]} \/ after = ∅ \/ after = {[there; here]};
  sw_done : forall ws, r = inr ws -> after = {[there]};
  sw_lost : after = ∅ -> exists err, r = inl (GErrTry err) \/ r = inl (GErrConfirm err);
  sw_twice : here <> there -> after = {[there; here]} -> exists err, r = inl (GErrConfirm err)
}.

Lemma switched_not (here there : string * string) (err : gw_err) (after : gset (string * string)) : after = {[here]} -> switched here there (inl err) after.
Proof.
  intros Ha. rewrite Ha. constructor; [by left|done|set_solver|].
  intros Hne Heq. exfalso. apply Hne. assert (there ∈ ({[here]} : gset (string * string))) by (rewrite Heq; set_solver). set_solver.
Qed.

Lemma switched_there (here there : string * string) (r : gw_err + option WorldState) (after : gset (string * string)) : after = {[there]} -> switched here there r after.
Proof.
  intros Ha. rewrite Ha. constructor; [by right; left|done|set_solver|].
  intros Hne Heq. exfalso. apply Hne. assert (here ∈ ({[there]} : gset (string * string))) by (rewrite Heq; set_solver). set_solver.
Qed.

Lemma transferred_switched (here there : string * string) (err : gw_err) (after : gset (string * string)) :
  transferred here there (inl err) after -> switched here there (inl err) after.
Proof.
  cbn. destruct err; try done; intros H; try by apply switched_not.
  - destruct H as [H|H]; [by apply switched_not|]. constructor; [by right; right; left|done|by eexists; left|].
    intros _ Heq. set_solver.
  - constructor; [naive_solver|done|by eexists; right|by eexists].
  - by apply switched_there.
Qed.

(** Switching maps keeps a player together, up to the failures it cannot
    undo.  A player held by exactly the node its session is routed to is afterwards
    at the target if the switch is reported as done; it is still where it was if
    the command is refused before the player is removed; only a removal or an
    addition that failed can leave it nowhere; and only a failed addition, reported
    as rolled back, can leave it at both nodes.  The command always returns. *)
Theorem SwitchMap_places u targetMap (s s1 : GwSt S) session src epoch :
  sessionNode u s = Some (inr (session, src, epoch), s1) ->
  let here := (cl_NodeID src, gs_MapID session) in
  fleet_ok (gpeers s) -> places (gpeers s) u = {[here]} ->
  exists r s', SwitchMap u targetMap s = Some (r, s') /\ fleet_ok (gpeers s') /\
    let after := places (gpeers s') u in
    match route (gw s1) targetMap with
    | None => after = {[here]} /\ exists err, r = inl err
    | Some (_, _, dst) =>
        let there := (cl_NodeID dst, targetMap) in
        (after = {[here]} \/ after = {[there]} \/ after = ∅ \/ after = {[there; here]}) /\
        (forall ws, r = inr ws -> after = {[there]}) /\
        (after = ∅ -> exists err, r = inl (GErrTry err) \/ r = inl (GErrConfirm err)) /\
        (here <> there -> after = {[there; here]} -> exists err, r = inl (GErrConfirm err))
    end.
Proof.
  intros Hsn here Hok Hp.
  assert (Hs1 : gpeers s1 = gpeers s) by (pose proof (local_sessionNode u s) as H; unfold wp in H; by rewrite Hsn in H).
  enough (H : wp (SwitchMap u targetMap) (fun r s' => fleet_ok (gpeers s') /\
    match route (gw s1) targetMap with
    | None => places (gpeers s') u = {[here]} /\ exists err, r = inl err
    | Some (_, _, dst) => switched here (cl_NodeID dst, targetMap) r (places (gpeers s') u)
    end) s).
  { apply wp_run in H as (r & s' & ? & ? & H). exists r, s'. split_and!; [done..|].
    destruct (route (gw s1) targetMap) as [[[o ep] dst]|]; [|done]. by destruct H. }
  unfold SwitchMap. apply wp_try. unfold wp at 1. rewrite Hsn. unfold wrapErr. rm_steps. apply wp_onNodes.
  eapply wp_mono; [apply profile_places; by rewrite Hs1|]. intros r1 p1 (Hok1 & H1 & _). rewrite Hs1, Hp in H1.
  assert (Hstay : forall err, match route (gw s1) targetMap with
    | None => places p1 u = {[here]} /\ exists err', (inl err : gw_err + option WorldState) = inl err'
    | Some (_, _, dst) => switched here (cl_NodeID dst, targetMap) (inl err) (places p1 u)
    end).
  { intros err. destruct (route (gw s1) targetMap) as [[[o ep] dst]|]; [apply switched_not|]; eauto. }
  destruct r1 as [err|[profile found]]; rm_steps; cbn [gpeers]; [split; [done|apply Hstay]|].
  destruct found; cbn [negb]; [|rm_steps; split; [done|apply Hstay]]. destruct (up_Alive profile); cbn [negb]; [|rm_steps; split; [done|apply Hstay]].
  apply wp_bind, wp_gets. cbn [gw id].
  destruct (route (gw s1) targetMap) as [[[o ep] dst]|]; [|rm_steps; split; [done|apply Hstay]].
  apply wp_try. eapply wp_mono; [by apply wp_transfer|]. intros r2 s2 (_ & Hok2 & Htr). fold here in Htr.
  destruct r2 as [err|profile2]; [split; [done|by apply transferred_switched]|].
  eapply wp_mono; [apply local_finish|]. cbn. intros r3 s3 ->. split; [done|]. cbn in Htr. by apply switched_there.
Qed.

(** The compensation can duplicate a player: if the target adds the player but
    its answer is lost, and the source takes the player back, the command reports
    that the switch was rolled back while both nodes hold the player. *)
Theorem SwitchMap_duplicates u targetMap (s s1 : GwSt S) session src epoch o ep dst prof prof' err p0 p1 p2 p3 :
  sessionNode u s = Some (inr (session, src, epoch), s1) -> route (gw s1) targetMap = Some (o, ep, dst) ->
  fleet_ok (gpeers s1) -> RpcProfile src (gs_MapID session) u (gpeers s1) = Some (inr (prof, true), p0) -> up_Alive prof = true ->
  RpcRemovePlayer src (gs_MapID session) u epoch p0 = Some (inr (prof', true), p1) ->
  RpcAddPlayer dst targetMap ep prof' p1 = Some (inl err, p2) -> (cl_NodeID dst, targetMap) ∈ places p2 u ->
  RpcAddPlayer src (gs_MapID session) epoch prof' p2 = Some (inr tt, p3) ->
  exists s', SwitchMap u targetMap s = Some (inl (GErrConfirm err), s') /\
    (cl_NodeID dst, targetMap) ∈ places (gpeers s') u /\ (cl_NodeID src, gs_MapID session) ∈ places (gpeers s') u /\
    gw s' = gw s1 /\ gt s' = gt s1.
Proof.
  intros Hsn Hroute Hok H0 Halive H1 H2 Hin H3.
  pose proof (profile_places (gpeers s1) src (gs_MapID session) u Hok) as L0. unfold wp in L0. rewrite H0 in L0. destruct L0 as [Hok0 _].
  pose proof (remove_places p0 src (gs_MapID session) u epoch Hok0) as L1. unfold wp in L1. rewrite H1 in L1. destruct L1 as (Hok1 & Hu & _).
  pose proof (add_places p1 dst targetMap ep prof' Hok1) as L2. unfold wp in L2. rewrite H2 in L2. destruct L2 as [Hok2 _].
  pose proof (add_places p2 src (gs_MapID session) epoch prof' Hok2) as L3. unfold wp in L3. rewrite H3, Hu in L3.
  destruct L3 as [_ [L3|[[? [=]] _]]].
  enough (H : wp (SwitchMap u targetMap) (fun r s' => r = inl (GErrConfirm err) /\ gpeers s' = p3 /\ gw s' = gw s1 /\ gt s' = gt s1) s).
  { apply wp_run in H as (r & s' & Hr & -> & Hp & ? & ?). exists s'. rewrite Hp, L3. split_and!; [done|set_solver..|done|done]. }
  unfold SwitchMap. apply wp_try. unfold wp at 1. rewrite Hsn. unfold wrapErr. rm_steps. apply wp_onNodes. unfold wp at 1. rewrite H0.
  rm_steps. rewrite Halive. cbn [negb]. apply wp_bind, wp_gets. cbn [gw id]. rewrite Hroute. apply wp_try.
  unfold transfer, wrapErr. apply wp_try, wp_bind, wp_onNodes. unfold wp at 1. cbn [gpeers]. rewrite H1. rm_steps. cbn [negb].
  rm_steps. apply wp_onNodes. unfold wp at 1. cbn [gpeers]. rewrite H2. rm_steps. apply wp_onNodes. unfold wp at 1. cbn [gpeers]. rewrite H3.
  rm_steps. done.
Qed.
End laws.
End switch.

(** ** Nodes whose answers can be lost *)

(** The players by their places, and the fate of the next additions. *)
Record lossyFleet := mkLossyFleet {
  lf_held : gmap string (gset (string * string));
  lf_lost : list bool
}.

Definition lossy_add (cl : client) (m : string) (e : Z) (prof : UserProfile) : ST lossyFleet (rpc_err + unit) := fun p =>
  let u := up_Username prof in
  let held := <[u := {[(cl_NodeID cl, m)]} ∪ default ∅ (lf_held p !! u)]> (lf_held p) in
  Some (if default false (head (lf_lost p)) then inl (mkRpcErr DeadlineExceeded CauseTransport) else inr tt, mkLossyFleet held (tail (lf_lost p))).

Definition lossy_remove (cl : client) (m u : string) (e : Z) : ST lossyFleet (rpc_err + UserProfile * bool) := fun p =>
  Some (inr (demo_profile u, true),
        mkLossyFleet (<[u := default ∅ (lf_held p !! u) ∖ {[(cl_NodeID cl, m)]}]> (lf_held p)) (lf_lost p)).

#[export] Instance lossy : GatewayNodeClient lossyFleet := {
  DialGateway _ _ := mret true;
  RpcAddPlayer := lossy_add;
  RpcRemovePlayer := lossy_remove;
  RpcMovePlayer _ _ u _ _ := ok ("", demo_profile u, true);
  RpcAttack _ _ u _ := ok ("", "", "", demo_profile u, true);
  RpcHeal _ _ u _ := ok ("", demo_profile u, true);
  RpcBuyItem _ _ u _ _ := ok ("", demo_profile u, true);
  RpcAttackBoss _ _ u _ := ok ("", demo_profile u, true);
  RpcProfile _ _ u := ok (demo_profile u, true);
  RpcRewardPlayer _ _ u _ _ _ := ok (demo_profile u, true);
  RpcSnapshot _ m := ok (demo_view m);
  CloseGateway _ := mret tt
}.

#[export] Instance lossy_places : PlayerPlaces lossyFleet.
Proof.
  refine {| fleet_ok _ := True; places p u := default ∅ (lf_held p !! u) |}.
  - intros p cl m e prof _. unfold wp. cbn. rewrite lookup_insert_eq. split; [done|by left].
  - intros p cl m u e _. unfold wp. cbn. rewrite lookup_insert_eq. by split.
  - intros p cl m u _. unfold wp. cbn. split_and!; [done..|]. by intros ? ? [= <- <-].
Defined.

Definition demo_two_nodes : Cluster :=
  mkCluster {["node-a" := mkClient "node-a" "10.0.0.1:1"; "node-b" := mkClient "node-b" "10.0.0.2:1"]} ∅ ∅ false
    (t_Owners demo_topology) demo_topology true {["demo" := demo_cfg; "cave" := demo_cfg]} ∅
    zero_BossState 0 [] ∅ ∅ {["ann" := demo_session]}.
Definition demo_fleet (lost : list bool) : lossyFleet := mkLossyFleet {["ann" := {[("node-a", "demo")]}]} lost.
Definition demo_switch (lost : list bool) : GwSt lossyFleet :=
  mkGwSt demo_two_nodes (quiet demo_gw_redis) (mkDB None (fun _ => F_ok) 0) demo_env [] [] (fun l => l) (demo_fleet lost).

Lemma SwitchMap_places_witness :
  exists r s', SwitchMap "ann" "cave" (demo_switch []) = Some (r, s') /\
    (places (gpeers s') "ann" = ∅ -> exists err, r = inl (GErrTry err) \/ r = inl (GErrConfirm err)).
Proof.
  destruct (SwitchMap_places "ann" "cave" (demo_switch []) (demo_switch [])
    (mkGlobalSession "ann" "demo" "node-a" 5) (mkClient "node-a" "10.0.0.1:1") 3) as (r & s' & Hr & _ & H).
  - reflexivity.
  - exact I.
  - reflexivity.
  - exists r, s'. split; [exact Hr|]. apply H.
Defined.

Lemma SwitchMap_duplicates_witness :
  exists s', SwitchMap "ann" "cave" (demo_switch [true]) = Some (inl (GErrConfirm (mkRpcErr DeadlineExceeded CauseTransport)), s') /\
    ("node-b", "cave") ∈ places (gpeers s') "ann" /\ ("node-a", "demo") ∈ places (gpeers s') "ann".
Proof.
  edestruct (SwitchMap_duplicates "ann" "cave" (demo_switch [true]) (demo_switch [true])
    (mkGlobalSession "ann" "demo" "node-a" 5) (mkClient "node-a" "10.0.0.1:1") 3 "node-b" 1 (mkClient "node-b" "10.0.0.2:1"))
    as (s' & Hr & H1 & H2 & _).
  - reflexivity.
  - reflexivity.
  - exact I.
  - reflexivity.
  - reflexivity.
  - reflexivity.
  - reflexivity.
  - cbn. rewrite lookup_insert_eq. cbn. set_solver.
  - reflexivity.
  - exists s'. split; [exact Hr|]. split; [exact H1|exact H2].
Defined.

(** ** Logging out *)

Section logout.
Context {S : Type} {clients : GatewayNodeClient S}.
Context (bcrypt_compare : string -> string -> bool) (sha256_hex : string -> string).

(** As long as Redis has a session of a user, its logins end with an error. *)
Lemma wp_login_online u d session password (s : GwSt S) :
  r_sessions (seen (gt s)) !! u = Some d -> decode_session d = Some session -> n_fault (gt s) (n_pos (gt s)) = F_ok ->
  wp (Login bcrypt_compare sha256_hex u password) (fun r s' => (exists err, r = inl err) /\ gpeers s' = gpeers s) s.
Proof.
  intros Hd Hdec Hf2. unfold Login, wrapErr. apply wp_try, wp_bind, wp_zoom.
  assert (Hauth : wp (Authenticate bcrypt_compare sha256_hex u password) (fun _ _ => True) (gdb s)).
  { unfold Authenticate, database. case_match; [done|]. apply wp_try. unfold wp at 1. destruct (db_users (gdb s)) eqn:E; [|done].
    apply wp_try, wp_orErr. unfold wp, stmt. rewrite E.
    destruct (db_fault (gdb s) (db_pos (gdb s))); [|done..]. destruct (g !! u) as [user|]; [|done]. cbn. by destruct (negb _). }
  eapply wp_mono; [exact Hauth|]. intros [err|profile] db _; rm_steps; [cbn; eauto|].
  apply wp_zoom. unfold LoadGlobalSession. apply wp_bind, wp_cmd; cbn [gt]; intros Hf; [|congruence..].
  rm_steps. cbn [fst]. rewrite Hd, Hdec. rm_steps. cbn. eauto.
Qed.

(** A logout can be lost: if the session cannot be read at that moment, the
    command reports success and does nothing at all - the player stays in its
    world, the session stays in Redis.  Sessions have no expiry, and as long as one
    is there every login of its user, through any gateway, ends with an error. *)
Theorem logout_lost u d session (s : GwSt S) :
  n_fault (gt s) (n_pos (gt s)) <> F_ok -> r_sessions (seen (gt s)) !! u = Some d -> decode_session d = Some session ->
  (exists s', Logout u s = Some (inr tt, s') /\ gw s' = gw s /\ gpeers s' = gpeers s /\ gdb s' = gdb s /\
     r_sessions (n_redis (gt s')) !! u = Some d) /\
  forall password (s2 : GwSt S), r_sessions (seen (gt s2)) !! u = Some d -> n_fault (gt s2) (n_pos (gt s2)) = F_ok ->
    exists err s3, Login bcrypt_compare sha256_hex u password s2 = Some (inl err, s3) /\ gpeers s3 = gpeers s2.
Proof.
  intros Hfault Hd Hdec. split.
  - enough (H : wp (Logout u) (fun r s' => r = inr tt /\ gw s' = gw s /\ gpeers s' = gpeers s /\ gdb s' = gdb s /\
      r_sessions (n_redis (gt s')) !! u = Some d) s) by (apply wp_run in H as (r & s' & ? & -> & ?); eauto).
    unfold Logout. apply wp_bind, wp_zoom. unfold LoadGlobalSession. apply wp_bind, wp_cmd; intros Hf; [by rewrite Hf in Hfault|..];
      rm_steps; split_and!; try reflexivity; exact Hd.
  - intros password s2 Hd2 Hf2.
    pose proof (wp_login_online u d session password s2 Hd2 Hdec Hf2) as H.
    apply wp_run in H as (r & s3 & ? & [err ->] & ?). eauto.
Qed.
End logout.

Definition demo_account : DB :=
  mkDB (Some {["ann" := toDBUser (demo_profile "ann")]}) (fun _ => F_ok) 0.
Definition demo_cut : GwSt lossyFleet :=
  mkGwSt demo_two_nodes (mkNet demo_gw_redis (fun n => if decide (n = 0)%nat then F_lost else F_ok) (fun _ r => r) 0)
    demo_account demo_env [] [] (fun l => l) (demo_fleet []).
Definition demo_again : GwSt lossyFleet :=
  mkGwSt demo_two_nodes (quiet demo_gw_redis) demo_account demo_env [] [] (fun l => l) (demo_fleet []).

Lemma logout_lost_witness :
  (exists s', Logout "ann" demo_cut = Some (inr tt, s') /\ places (gpeers s') "ann" = {[("node-a", "demo")]}) /\
  exists err s3, Login (fun _ _ => true) (fun p => p) "ann" "secret" demo_again = Some (inl err, s3).
Proof.
  destruct (logout_lost (fun _ _ => true) (fun p => p) "ann" (encode_session demo_session) demo_session demo_cut)
    as [(s' & H1 & _ & H2 & _) H3].
  - intros Hf. discriminate Hf.
  - reflexivity.
  - reflexivity.
  - split.
    + exists s'. split; [exact H1|]. rewrite H2. reflexivity.
    + destruct (H3 "secret" demo_again) as (err & s3 & H4 & _); [reflexivity|reflexivity|]. exists err, s3. exact H4.
Defined.
