(* ===== verification/NodeRPC.v ===== *)
(** * Remote calls to nodes

    [node/grpc_server.go] and [cluster/grpc_client.go]: the handlers that serve the
    operations of a node, the client that calls them, and a fleet of nodes behind a
    network that loses requests and answers.  The client is an implementation of
    both client interfaces. *)

From Stdlib Require Import ZArith Lia String.
From stdpp Require Import base sorting gmap strings list option.
From S2P Require Import Prelude Protocol Config Maps World WorldOps Topology Redis Store Users Authority Node Wire NodeWire Coordinator Cluster.

Open Scope Z_scope.
Open Scope go_scope.

(** ** The server *)

(** The errors [grpcAuthorityError] recognises, wrapped or not. *)
Fixpoint is_authority_error (err : node_err) : bool :=
  match err with
  | ErrTopologyAuthorityUnavailable | ErrMapAuthorityDenied | ErrMapPromotionDenied | ErrNodeDraining => true
  | ErrSaveFinal cause => is_authority_error cause
  | _ => false
  end.

(** A plain error of a handler arrives as [Unknown]. *)
Definition plain_error (err : node_err) : rpc_err := mkRpcErr Unknown (CauseNode err).
Definition grpcAuthorityError (err : node_err) : rpc_err :=
  if is_authority_error err then mkRpcErr FailedPrecondition (CauseNode err) else plain_error err.
Definition invalidNodeRequest : rpc_err := mkRpcErr InvalidArgument CauseArgument.

Abbreviation HM := (ST NodeSt).

(** [if err != nil { return nil, wrap(err) }; return response, nil] *)
Definition served {A B} (wrap : node_err -> rpc_err) (response : A -> B) (m : HM (node_err + A)) : HM (rpc_err + B) :=
  r ← m;
  match r with
  | inl err => fail (wrap err)
  | inr a => ok (response a)
  end.

Definition authority (request : option pb_MapAuthority) : HM (rpc_err + string * Z) :=
  match request with
  | None => fail invalidNodeRequest
  | Some a =>
      if bool_decide (wma_MapId a = "") then fail invalidNodeRequest else
      nodeID ← self ns_ID;
      if negb (bool_decide (wma_OwnerNodeId a = nodeID)) then fail (mkRpcErr FailedPrecondition CauseOwner) else
      if wma_MapEpoch a =? 0 then fail invalidNodeRequest else ok (wma_MapId a, wma_MapEpoch a)
  end.

Definition nodeMapConfig (mapID : string) : option MapConfig := FindConfig mapID.

(** The message, the player and the acceptance of an answered action. *)
Definition action_response (r : string * UserProfile * bool) : string * option pb_PlayerState * bool :=
  let '(message, profile, accepted) := r in (message, Some (ToPlayerState profile), accepted).
Definition profile_response (r : UserProfile * bool) : option pb_PlayerState * bool :=
  let '(profile, found) := r in (Some (ToPlayerState profile), found).

Section server.
Context (fuel : nat).
Context {Timestamp : Type} (timestamp_New : Z -> Timestamp) (timestamp_valid : Timestamp -> bool)
  (timestamp_AsTime : Timestamp -> Z).

Definition serve_AddPlayer (auth : option pb_MapAuthority) (player : option pb_PlayerState) : HM (rpc_err + unit) :=
  a ←! authority auth;
  if match player with None => true | Some p => bool_decide (TrimSpace (ps_Username p) = "") end
  then fail invalidNodeRequest
  else served grpcAuthorityError id (AddPlayer fuel a.1 a.2 (FromPlayerState player)).

Definition serve_RemovePlayer (auth : option pb_MapAuthority) (username : string)
    : HM (rpc_err + option pb_PlayerState * bool) :=
  a ←! authority auth;
  served grpcAuthorityError profile_response (RemovePlayer a.1 username a.2).

Definition serve_MovePlayer (auth : option pb_MapAuthority) (username : string) (dir : pb_Direction)
    : HM (rpc_err + string * option pb_PlayerState * bool) :=
  a ←! authority auth;
  match DirectionToString dir with
  | None => fail invalidNodeRequest
  | Some direction => served grpcAuthorityError action_response (MovePlayer a.1 username direction a.2)
  end.

Definition serve_Attack (auth : option pb_MapAuthority) (username : string)
    : HM (rpc_err + string * string * string * option pb_PlayerState * bool) :=
  a ←! authority auth;
  served grpcAuthorityError
    (fun r => let '(message, targetMessage, globalMessage, profile, accepted) := r in
       (message, targetMessage, globalMessage, Some (ToPlayerState profile), accepted))
    (Attack a.1 username a.2).

Definition serve_Heal (auth : option pb_MapAuthority) (username : string) : HM (rpc_err + string * option pb_PlayerState * bool) :=
  a ←! authority auth;
  served grpcAuthorityError action_response (Heal a.1 username a.2).

Definition serve_BuyItem (auth : option pb_MapAuthority) (username item : string)
    : HM (rpc_err + string * option pb_PlayerState * bool) :=
  a ←! authority auth;
  served grpcAuthorityError action_response (BuyItem a.1 username item a.2).

Definition serve_AttackBoss (auth : option pb_MapAuthority) (username : string)
    : HM (rpc_err + string * option pb_PlayerState * bool) :=
  a ←! authority auth;
  served grpcAuthorityError action_response (AttackBoss a.1 username a.2).

(** [Profile] of a node never fails. *)
Definition serve_Profile (mapID username : string) : HM (rpc_err + option pb_PlayerState * bool) :=
  r ← Profile mapID username; ok (profile_response r).

Definition serve_RewardPlayer (auth : option pb_MapAuthority) (username : string) (treasureDelta victoryDelta : Z)
    : HM (rpc_err + option pb_PlayerState * bool) :=
  a ←! authority auth;
  served grpcAuthorityError profile_response (RewardPlayer a.1 username treasureDelta victoryDelta a.2).

Definition serve_Snapshot (mapID : string) : HM (rpc_err + option pb_MapView) :=
  served plain_error (fun v => Some (ToMapView v)) (Snapshot mapID).

Definition serve_Counts (mapID : string) : HM (rpc_err + Z * Z * Z * Z) :=
  served plain_error (fun r => let '(players, npcs, treasures, version) := r in (i32 players, i32 npcs, i32 treasures, version))
    (Counts mapID).

Definition serve_Checkpoint (mapID : string) : HM (rpc_err + option (pb_NodeCheckpoint Timestamp)) :=
  served plain_error (ToCheckpoint timestamp_New) (Checkpoint mapID).

Definition serve_Promote (auth : option pb_MapAuthority) (cp : option (pb_NodeCheckpoint Timestamp)) : HM (rpc_err + unit) :=
  a ←! authority auth;
  match FromCheckpoint timestamp_valid timestamp_AsTime cp with
  | None => fail invalidNodeRequest
  | Some checkpoint =>
      match nodeMapConfig a.1 with
      | None => fail invalidNodeRequest
      | Some config => served grpcAuthorityError id (Promote fuel a.1 config checkpoint a.2)
      end
  end.

Definition serve_View : HM (rpc_err + option pb_NodeView) := v ← View; ok (Some (ToNodeView v)).
Definition serve_Ping : HM (rpc_err + unit) := ok tt.

(** ** The fleet and the client *)

(** The processes by the address they listen on, and the fate of the next calls. *)
Record Fleet := mkFleet {
  fl_nodes : gmap string NodeSt;
  fl_fault : nat -> fault;
  fl_pos : nat
}.

Definition unavailable : rpc_err := mkRpcErr Unavailable CauseTransport.
Definition deadline : rpc_err := mkRpcErr DeadlineExceeded CauseTransport.

(** One call: a handler that panics takes its process down. *)
Definition call {A} (cl : client) (h : HM (rpc_err + A)) : ST Fleet (rpc_err + A) := fun f =>
  let next nodes := mkFleet nodes (fl_fault f) (fl_pos f + 1)%nat in
  match fl_nodes f !! cl_Addr cl with
  | None => Some (inl unavailable, next (fl_nodes f))
  | Some n =>
      match fl_fault f (fl_pos f) with
      | F_lost => Some (inl unavailable, next (fl_nodes f))
      | _ =>
          match h n with
          | None => Some (inl unavailable, next (delete (cl_Addr cl) (fl_nodes f)))
          | Some (r, n') =>
              Some (match fl_fault f (fl_pos f) with F_ok => r | _ => inl deadline end,
                    next (<[cl_Addr cl := n']> (fl_nodes f)))
          end
      end
  end.

Definition auth_of (cl : client) (mapID : string) (epoch : Z) : option pb_MapAuthority :=
  Some (NewMapAuthority mapID (cl_NodeID cl) epoch).

(** What the client makes of the answers. *)
Definition decoded {A B} (f : A -> B) (m : ST Fleet (rpc_err + A)) : ST Fleet (rpc_err + B) :=
  a ←! m; ok (f a).
Definition from_action (r : string * option pb_PlayerState * bool) : string * UserProfile * bool :=
  let '(message, player, accepted) := r in (message, FromPlayerState player, accepted).
Definition from_profile (r : option pb_PlayerState * bool) : UserProfile * bool :=
  let '(player, found) := r in (FromPlayerState player, found).

Definition client_MovePlayer (cl : client) (mapID username dir : string) (epoch : Z)
    : ST Fleet (rpc_err + string * UserProfile * bool) :=
  match DirectionFromString dir with
  | None => fail (mkRpcErr Unknown CauseArgument)
  | Some d => decoded from_action (call cl (serve_MovePlayer (auth_of cl mapID epoch) username d))
  end.

(** [Promote] of the client ignores the configuration it is given. *)
Definition client_Promote (cl : client) (mapID : string) (cfg : MapConfig) (cp : MapCheckpoint) (epoch : Z) : ST Fleet bool :=
  r ← call cl (serve_Promote (auth_of cl mapID epoch) (ToCheckpoint timestamp_New cp));
  mret (match r with inr _ => true | inl _ => false end).

Definition client_Counts (cl : client) (mapID : string) : ST Fleet (rpc_err + Z * Z * Z * Z) := call cl (serve_Counts mapID).

Definition client_Checkpoint (cl : client) (mapID : string) : ST Fleet (rpc_err + option MapCheckpoint) :=
  decoded (FromCheckpoint timestamp_valid timestamp_AsTime) (call cl (serve_Checkpoint mapID)).

Definition client_View (cl : client) : ST Fleet NodeView :=
  r ← call cl serve_View;
  mret (match r with
        | inr (Some v) => FromNodeView (Some v)
        | _ => mkNodeView (cl_NodeID cl) "" false [] ""
        end).

(** [grpc.NewClient] connects lazily; it fails for addresses it cannot parse. *)
Context (parseable : string -> bool).

Definition NodeGRPCClient_gateway : GatewayNodeClient Fleet := {|
  DialGateway _ addr := mret (parseable addr);
  RpcAddPlayer cl mapID epoch profile := call cl (serve_AddPlayer (auth_of cl mapID epoch) (Some (ToPlayerState profile)));
  RpcRemovePlayer cl mapID username epoch := decoded from_profile (call cl (serve_RemovePlayer (auth_of cl mapID epoch) username));
  RpcMovePlayer := client_MovePlayer;
  RpcAttack cl mapID username epoch :=
    decoded (fun r => let '(message, targetMessage, globalMessage, player, accepted) := r in
               (message, targetMessage, globalMessage, FromPlayerState player, accepted))
      (call cl (serve_Attack (auth_of cl mapID epoch) username));
  RpcHeal cl mapID username epoch := decoded from_action (call cl (serve_Heal (auth_of cl mapID epoch) username));
  RpcBuyItem cl mapID username item epoch := decoded from_action (call cl (serve_BuyItem (auth_of cl mapID epoch) username item));
  RpcAttackBoss cl mapID username epoch := decoded from_action (call cl (serve_AttackBoss (auth_of cl mapID epoch) username));
  RpcProfile cl mapID username := decoded from_profile (call cl (serve_Profile mapID username));
  RpcRewardPlayer cl mapID username treasureDelta victoryDelta epoch :=
    decoded from_profile (call cl (serve_RewardPlayer (auth_of cl mapID epoch) username (i32 treasureDelta) (i32 victoryDelta)));
  RpcSnapshot cl mapID := decoded FromMapView (call cl (serve_Snapshot mapID));
  CloseGateway _ := mret tt
|}.

Definition NodeGRPCClient_coordinator : CoordinatorNodeClient Fleet := {|
  Dial _ addr := mret (parseable addr);
  Ping cl := r ← call cl serve_Ping; mret (match r with inr _ => true | inl _ => false end);
  PromoteRPC := client_Promote;
  CloseClient _ := mret tt
|}.
End server.
