(* ===== verification/NodeRPCProps.v ===== *)
(** * Remote calls: routes, refusals and answers

    Properties of [NodeRPC]: what a gateway's client gets from a fleet of nodes is
    what the node's operation says, and a route that is out of date changes nothing. *)

From Stdlib Require Import ZArith Lia String.
From stdpp Require Import base sorting gmap strings list option relations.
From S2P Require Import Prelude Protocol Config Maps World WorldOps WorldInv WorldSafe WorldProps Topology Redis Store StoreProps Users Authority Node NodeProps Wire NodeWire WireProps Coordinator Cluster NodeRPC.

Open Scope Z_scope.
Open Scope go_scope.

(** ** Requests through the client *)

(** Messages, profile and flag of an answer. *)
Definition reply : Type := list string * UserProfile * bool.
Definition acted (r : string * UserProfile * bool) : reply := ([r.1.1], r.1.2, r.2).
Definition attacked (r : string * string * string * UserProfile * bool) : reply :=
  ([r.1.1.1.1; r.1.1.1.2; r.1.1.2], r.1.2, r.2).
Definition found (r : UserProfile * bool) : reply := ([], r.1, r.2).
Definition added (_ : unit) : reply := ([], zero_UserProfile, true).

Definition mapped {S E A B} (f : A -> B) (m : ST S (E + A)) : ST S (E + B) := a ←! m; ok (f a).

(** What a node answers to a request. *)
Definition answer (fuel : nat) (mapID : string) (epoch : Z) (req : request) : NM (node_err + reply) :=
  match req with
  | ReqAdd p => mapped added (AddPlayer fuel mapID epoch p)
  | ReqRemove u => mapped found (RemovePlayer mapID u epoch)
  | ReqMove u d => mapped acted (MovePlayer mapID u d epoch)
  | ReqAttack u => mapped attacked (Attack mapID u epoch)
  | ReqHeal u => mapped acted (Heal mapID u epoch)
  | ReqBuy u i => mapped acted (BuyItem mapID u i epoch)
  | ReqReward u t v => mapped found (RewardPlayer mapID u t v epoch)
  | ReqBoss u => mapped acted (AttackBoss mapID u epoch)
  end.

(** What reaches the node: profiles and deltas pass through the wire. *)
Definition carried (p : UserProfile) : UserProfile := FromPlayerState (Some (ToPlayerState p)).
Definition arriving (req : request) : request :=
  match req with
  | ReqAdd p => ReqAdd (carried p)
  | ReqReward u t v => ReqReward u (i32 t) (i32 v)
  | _ => req
  end.
Definition carried_reply (r : reply) : reply := (r.1.1, carried r.1.2, r.2).

Section rpc.
Context (fuel : nat) (parseable : string -> bool).

#[local] Instance client_calls : GatewayNodeClient Fleet := NodeGRPCClient_gateway fuel parseable.

(** The same requests, sent by a gateway. *)
Definition rpc_request (cl : client) (mapID : string) (epoch : Z) (req : request) : ST Fleet (rpc_err + reply) :=
  match req with
  | ReqAdd p => mapped added (RpcAddPlayer cl mapID epoch p)
  | ReqRemove u => mapped found (RpcRemovePlayer cl mapID u epoch)
  | ReqMove u d => mapped acted (RpcMovePlayer cl mapID u d epoch)
  | ReqAttack u => mapped attacked (RpcAttack cl mapID u epoch)
  | ReqHeal u => mapped acted (RpcHeal cl mapID u epoch)
  | ReqBuy u i => mapped acted (RpcBuyItem cl mapID u i epoch)
  | ReqReward u t v => mapped found (RpcRewardPlayer cl mapID u t v epoch)
  | ReqBoss u => mapped acted (RpcAttackBoss cl mapID u epoch)
  end.

(** The fleet after one more call. *)
Definition next_call (nodes : gmap string NodeSt) (f : Fleet) : Fleet := mkFleet nodes (fl_fault f) (fl_pos f + 1)%nat.

(** A request the handlers accept at this node. *)
Definition acceptable (cl : client) (mapID : string) (epoch : Z) (req : request) (n : NodeService) : Prop :=
  mapID <> "" /\ epoch <> 0 /\ ns_ID n = cl_NodeID cl /\
  match req with
  | ReqAdd p => TrimSpace (up_Username p) <> ""
  | ReqMove _ d => is_Some (DirectionFromString d)
  | _ => True
  end.

(** ** Transparency *)

Lemma authority_accepts cl mapID epoch n :
  mapID <> "" -> epoch <> 0 -> ns_ID (nd n) = cl_NodeID cl -> authority (auth_of cl mapID epoch) n = Some (inr (mapID, epoch), n).
Proof.
  intros Hm He Hid. unfold authority, auth_of, NewMapAuthority. cbn. rewrite bool_decide_eq_false_2 by done.
  unfold mbind, st_bind, self, gets. cbn. rewrite bool_decide_eq_true_2 by done. cbn.
  by rewrite (proj2 (Z.eqb_neq _ _) He).
Qed.

(** One delivered call: the handler's answer through [conv], the errors through [wrap]. *)
Lemma delivered {A B C} (wrap : node_err -> rpc_err) (response : A -> B) (conv : B -> C) (finish : C -> reply) (direct : A -> reply)
    cl (h : HM (rpc_err + B)) (op : HM (node_err + A)) f n :
  fl_nodes f !! cl_Addr cl = Some n -> fl_fault f (fl_pos f) = F_ok ->
  h n = served wrap response op n -> (forall a, finish (conv (response a)) = carried_reply (direct a)) ->
  mapped finish (decoded conv (call cl h)) f =
    match mapped direct op n with
    | None => Some (inl unavailable, next_call (delete (cl_Addr cl) (fl_nodes f)) f)
    | Some (inl err, n') => Some (inl (wrap err), next_call (<[cl_Addr cl := n']> (fl_nodes f)) f)
    | Some (inr r, n') => Some (inr (carried_reply r), next_call (<[cl_Addr cl := n']> (fl_nodes f)) f)
    end.
Proof.
  intros Hn Hf Hh Hc. unfold mapped, decoded, try, mbind, st_bind, call. rewrite Hn, Hf, Hh.
  unfold served, mbind, st_bind. destruct (op n) as [[[err|a] n']|]; cbn; [done|by rewrite Hc|done].
Qed.

(** A handler behind the test of its authority. *)
Lemma behind_authority {A} cl mapID epoch n (k : string * Z -> HM (rpc_err + A)) :
  mapID <> "" -> epoch <> 0 -> ns_ID (nd n) = cl_NodeID cl -> try (authority (auth_of cl mapID epoch)) k n = k (mapID, epoch) n.
Proof. intros. unfold try, mbind, st_bind. by rewrite authority_accepts. Qed.

Ltac unfold_serve :=
  unfold serve_RemovePlayer, serve_Attack, serve_Heal, serve_BuyItem, serve_RewardPlayer, serve_AttackBoss.

Lemma rpc_delivered cl mapID epoch req f n :
  fl_nodes f !! cl_Addr cl = Some n -> fl_fault f (fl_pos f) = F_ok -> acceptable cl mapID epoch req (nd n) ->
  rpc_request cl mapID epoch req f =
    match answer fuel mapID epoch (arriving req) n with
    | None => Some (inl unavailable, next_call (delete (cl_Addr cl) (fl_nodes f)) f)
    | Some (inl err, n') => Some (inl (grpcAuthorityError err), next_call (<[cl_Addr cl := n']> (fl_nodes f)) f)
    | Some (inr r, n') => Some (inr (carried_reply r), next_call (<[cl_Addr cl := n']> (fl_nodes f)) f)
    end.
Proof.
  intros Hn Hf (Hm & He & Hid & Hreq).
  destruct req; cbn [rpc_request answer arriving RpcAddPlayer RpcRemovePlayer RpcMovePlayer RpcAttack RpcHeal RpcBuyItem
                     RpcRewardPlayer RpcAttackBoss client_calls NodeGRPCClient_gateway].
  - unfold mapped at 1, try at 1, mbind at 1, st_bind at 1. unfold call. rewrite Hn, Hf.
    unfold serve_AddPlayer. rewrite behind_authority by done. cbn. rewrite bool_decide_eq_false_2 by done.
    unfold served, mapped, try, mbind, st_bind.
    by destruct (AddPlayer _ _ _ _ n) as [[[err|[]] n']|].
  - apply (delivered _ profile_response); [done..|by unfold_serve; rewrite behind_authority|by intros []].
  - destruct Hreq as [d Hd]. unfold client_MovePlayer. rewrite Hd.
    apply (delivered _ action_response); [done..| |by intros [[] ?]].
    unfold serve_MovePlayer. rewrite behind_authority by done. by rewrite (direction_roundtrip _ _ Hd).
  - eapply delivered; [done..|by unfold_serve; rewrite behind_authority|by intros [[[[] ?] ?] ?]].
  - apply (delivered _ action_response); [done..|by unfold_serve; rewrite behind_authority|by intros [[] ?]].
  - apply (delivered _ action_response); [done..|by unfold_serve; rewrite behind_authority|by intros [[] ?]].
  - apply (delivered _ profile_response); [done..|by unfold_serve; rewrite behind_authority|by intros []].
  - apply (delivered _ action_response); [done..|by unfold_serve; rewrite behind_authority|by intros [[] ?]].
Qed.

(** C31. The network is transparent: a delivered request that a node accepts runs
    exactly the node's operation on what the wire carries, once, and leaves the
    other nodes alone; the gateway gets the operation's own answer, up to what the
    wire cannot carry, or its error, which is [FailedPrecondition] for a refused
    authority; an operation that panics takes the node down and reads as an
    unavailable node.  A profile that fits is carried whole but for its hash. *)
Theorem rpc_transparent cl mapID epoch req f n :
  fl_nodes f !! cl_Addr cl = Some n -> fl_fault f (fl_pos f) = F_ok -> acceptable cl mapID epoch req (nd n) ->
  rpc_request cl mapID epoch req f =
    match answer fuel mapID epoch (arriving req) n with
    | None => Some (inl unavailable, next_call (delete (cl_Addr cl) (fl_nodes f)) f)
    | Some (inl err, n') => Some (inl (grpcAuthorityError err), next_call (<[cl_Addr cl := n']> (fl_nodes f)) f)
    | Some (inr r, n') => Some (inr (carried_reply r), next_call (<[cl_Addr cl := n']> (fl_nodes f)) f)
    end /\
  (forall p, profile_fits p -> carried p = without_hash p).
Proof. intros. split; [by apply rpc_delivered|apply through_PlayerState]. Qed.

(** ** Refusals *)

(** The services of the nodes are what they were. *)
Definition unchanged (f f' : Fleet) : Prop := forall a, nd <$> fl_nodes f' !! a = nd <$> fl_nodes f !! a.

Lemma wp_authority cl mapID epoch n (Q : rpc_err + string * Z -> NodeSt -> Prop) :
  (forall err, Q (inl err) n) -> Q (inr (mapID, epoch)) n -> wp (authority (auth_of cl mapID epoch)) Q n.
Proof.
  intros Hl Hr. unfold authority, auth_of, NewMapAuthority. cbn. case_bool_decide; [apply Hl|].
  apply wp_bind. apply wp_gets. case_bool_decide; [|apply Hl]. cbn. destruct (epoch =? 0); [apply Hl|apply Hr].
Qed.

(** Nothing happens at a node: the answer is an error. *)
Definition inert {A} (n : NodeSt) (r : rpc_err + A) (n' : NodeSt) : Prop := (exists err, r = inl err) /\ nd n' = nd n.

Lemma wp_served_refused {A B} (response : A -> B) mapID epoch (k : unit -> HM (node_err + A)) n :
  ~ authorised_write (nd n) (nt n) (ev n) mapID epoch ->
  wp (served grpcAuthorityError response (try (beginWrite mapID epoch) k)) (inert n) n.
Proof.
  intros Ha. unfold served. apply wp_bind. destruct n as [n t e]. eapply wp_mono; [by apply wp_refused|].
  intros r s (err & t' & e' & -> & -> & _). apply wp_fail. split; [by eexists|done].
Qed.

Lemma wp_served_authority {A B} (response : A -> B) cl mapID epoch (k : string * Z -> unit -> HM (node_err + A)) n :
  ~ authorised_write (nd n) (nt n) (ev n) mapID epoch ->
  wp (try (authority (auth_of cl mapID epoch)) (fun a => served grpcAuthorityError response (try (beginWrite a.1 a.2) (k a))))
    (inert n) n.
Proof.
  intros Ha. apply wp_try, wp_authority; [intros err; split; [by eexists|done]|]. by apply wp_served_refused.
Qed.

Lemma wp_call_inert {A} cl (h : HM (rpc_err + A)) f :
  (forall n, fl_nodes f !! cl_Addr cl = Some n -> wp h (inert n) n) ->
  wp (call cl h) (fun r f' => (exists err, r = inl err) /\ unchanged f f') f.
Proof.
  intros H. unfold wp at 1, call. destruct (fl_nodes f !! cl_Addr cl) as [n|] eqn:Hn; [|by split; [eexists|]].
  specialize (H n eq_refl). unfold wp in H.
  assert (Hun : forall n' g p, nd n' = nd n -> unchanged f (mkFleet (<[cl_Addr cl := n']> (fl_nodes f)) g p)).
  { intros n' g p Hnd a. cbn. destruct (decide (a = cl_Addr cl)) as [->|]; [|by rewrite lookup_insert_ne].
    by rewrite lookup_insert_eq, Hn; cbn; rewrite Hnd. }
  destruct (fl_fault f (fl_pos f)); [|by split; [eexists|]|];
    (destruct (h n) as [[r n']|]; [|done]); destruct H as [[err ->] Hnd]; (split; [by eexists|by apply Hun]).
Qed.

Lemma wp_mapped_error {S E A B} (g : A -> B) (m : ST S (E + A)) (P : S -> Prop) s :
  wp m (fun r s' => (exists err, r = inl err) /\ P s') s -> wp (mapped g m) (fun r s' => (exists err, r = inl err) /\ P s') s.
Proof. intros H. apply wp_try. eapply wp_mono; [exact H|]. intros r s' [[err ->] HP]. split; [by eexists|done]. Qed.

Lemma wp_rpc_unauthorised cl mapID epoch req f :
  (forall n, fl_nodes f !! cl_Addr cl = Some n -> ~ authorised_write (nd n) (nt n) (ev n) mapID epoch) ->
  wp (rpc_request cl mapID epoch req) (fun r f' => (exists err, r = inl err) /\ unchanged f f') f.
Proof.
  intros Ha.
  assert (Hc : forall A B (response : A -> B) (k : string * Z -> unit -> HM (node_err + A)) n, fl_nodes f !! cl_Addr cl = Some n ->
    wp (try (authority (auth_of cl mapID epoch)) (fun a => served grpcAuthorityError response (try (beginWrite a.1 a.2) (k a))))
      (inert n) n) by (intros; by apply wp_served_authority, Ha).
  destruct req; cbn [rpc_request]; apply wp_mapped_error; try (apply wp_mapped_error, wp_call_inert; intros n Hn; by apply Hc).
  - apply wp_call_inert. intros n Hn. apply wp_try, wp_authority; [intros err; split; [by eexists|done]|].
    case_match; [split; [by eexists|done]|]. by apply wp_served_refused, Ha.
  - cbn. unfold client_MovePlayer. case_match; [|split; [by eexists|done]].
    apply wp_mapped_error, wp_call_inert. intros n Hn. apply wp_try, wp_authority; [intros err; split; [by eexists|done]|].
    case_match; [by apply wp_served_refused, Ha|split; [by eexists|done]].
Qed.

Lemma wp_answer_refused mapID epoch req n :
  ~ authorised_write (nd n) (nt n) (ev n) mapID epoch ->
  wp (answer fuel mapID epoch req) (fun r _ => exists err, r = inl err /\ refusal err) n.
Proof.
  intros Ha. destruct n as [n t e].
  assert (H : forall A B (g : A -> B) (k : unit -> HM (node_err + A)),
    wp (mapped g (try (beginWrite mapID epoch) k)) (fun r _ => exists err, r = inl err /\ refusal err) (mkNodeSt n t e)).
  { intros A B g k. apply wp_try. eapply wp_mono; [by apply wp_refused|].
    intros r s (err & t' & e' & -> & -> & Hr & _). by exists err. }
  destruct req; apply H.
Qed.

(** The fence the server keeps for a map is ahead of an epoch: no node is let
    through under that epoch any more. *)
Lemma behind_fence r mapID owner epoch later_epoch n :
  fences_inv r -> r_fences r !! mapID = Some (Good (mkFence mapID owner (Int later_epoch))) -> epoch < later_epoch ->
  rtc redis_step r (seen (nt n)) -> ~ authorised_write (nd n) (nt n) (ev n) mapID epoch.
Proof.
  intros Hinv Hf Hlt Hs [_ Ha%au_fence]. destruct (steps_fences _ _ Hs Hinv) as (Hinv' & Hle & _).
  apply fence_names_good in Ha; [|done]. destruct (Hle _ _ Hf) as (f' & Hf' & (a & b & Hea & Heb & _ & _ & Hab)).
  rewrite Ha in Hf'. injection Hf' as <-. cbn in Hea, Heb. injection Hea as <-. injection Heb as <-.
  destruct Hab as [|Heq]; [lia|]. injection Heq. lia.
Qed.

(** C30. Stale routes are harmless, end to end: once the topology has moved a map to
    a later epoch, a mutating request that a gateway still sends under an earlier
    one, to whichever node its routing names and whatever happened in between, ends
    in an error and changes no node; if it is delivered to a node that accepts its
    form, the error is [FailedPrecondition]. *)
Theorem stale_route_refused r owner later_epoch cl mapID epoch req f :
  fences_inv r -> r_fences r !! mapID = Some (Good (mkFence mapID owner (Int later_epoch))) -> epoch < later_epoch ->
  (forall a n, fl_nodes f !! a = Some n -> rtc redis_step r (seen (nt n))) ->
  exists err f', rpc_request cl mapID epoch req f = Some (inl err, f') /\ unchanged f f' /\
    (forall n, fl_nodes f !! cl_Addr cl = Some n -> fl_fault f (fl_pos f) = F_ok -> acceptable cl mapID epoch req (nd n) ->
       re_Code err = FailedPrecondition).
Proof.
  intros Hinv Hf Hlt Hnet.
  assert (Ha : forall n, fl_nodes f !! cl_Addr cl = Some n -> ~ authorised_write (nd n) (nt n) (ev n) mapID epoch).
  { intros n Hn. by eapply behind_fence, Hnet. }
  destruct (proj1 (wp_run _ _ _) (wp_rpc_unauthorised cl mapID epoch req f Ha)) as (o & f' & Hrun & [err ->] & Hun).
  exists err, f'. split_and!; [done|done|]. intros n Hn Hok Hacc.
  destruct (proj1 (wp_run _ _ _) (wp_answer_refused mapID epoch (arriving req) n (Ha n Hn))) as (o & n' & Hans & err' & -> & Href).
  pose proof (rpc_delivered cl mapID epoch req f n Hn Hok Hacc) as Hd. rewrite Hrun, Hans in Hd. injection Hd as -> _.
  by destruct Href as [ -> | [ -> | -> ] ].
Qed.
End rpc.

(** ** A small fleet *)

Definition demo_client : client := mkClient "node-a" "10.0.0.1:1".
Definition demo_fleet (r : Redis) : Fleet :=
  mkFleet {["10.0.0.1:1" := mkNodeSt demo_node (quiet r) demo_env]} (fun _ => F_ok) 0.

Lemma rpc_transparent_witness :
  exists message f', rpc_request 9 (fun _ => true) demo_client "demo" 3 (ReqMove "ann" "right") (demo_fleet demo_redis)
    = Some (inr message, f') /\ message.2 = true /\ carried zero_UserProfile = without_hash zero_UserProfile.
Proof.
  destruct (rpc_transparent 9 (fun _ => true) demo_client "demo" 3 (ReqMove "ann" "right") (demo_fleet demo_redis)
    (mkNodeSt demo_node (quiet demo_redis) demo_env)) as [H Hc].
  - reflexivity.
  - reflexivity.
  - by split_and!.
  - assert (Hok : match answer 9 "demo" 3 (ReqMove "ann" "right") (mkNodeSt demo_node (quiet demo_redis) demo_env) with
                  | Some (inr r, _) => r.2 | _ => false end = true) by (vm_compute; reflexivity).
    cbn [arriving] in H. destruct (answer 9 "demo" 3 (ReqMove "ann" "right") (mkNodeSt demo_node (quiet demo_redis) demo_env))
      as [[[err|a] n']|]; try discriminate Hok.
    eexists _, _. split; [exact H|]. split; [exact Hok|]. apply Hc. repeat constructor; discriminate.
Defined.

(** node-a has not seen yet that its map went to node-c, nor has the gateway. *)
Lemma stale_route_refused_witness :
  exists err f', rpc_request 9 (fun _ => true) demo_client "demo" 3 (ReqMove "ann" "right") (demo_fleet demo_failed_over)
    = Some (inl err, f') /\ unchanged (demo_fleet demo_failed_over) f' /\ re_Code err = FailedPrecondition.
Proof.
  destruct (stale_route_refused 9 (fun _ => true) demo_failed_over "node-c" 4 demo_client "demo" 3 (ReqMove "ann" "right")
    (demo_fleet demo_failed_over)) as (err & f' & H & Hu & Hc).
  - exact (proj1 (steps_fences _ _ demo_failover_steps demo_fences_inv)).
  - vm_compute. reflexivity.
  - lia.
  - intros a n Hn. cbn [demo_fleet fl_nodes] in Hn. apply lookup_singleton_Some in Hn as [_ <-]. apply rtc_refl.
  - exists err, f'. split_and!; [exact H|exact Hu|]. eapply Hc; [reflexivity..|]. by split_and!.
Defined.
