(* ===== verification/FleetPlaces.v ===== *)
(** * Players in a fleet of nodes

    What a gateway relies on when it moves a player ([PlayerPlaces]) holds of the
    fleet of [NodeRPC]: nodes that run the operations of [Node] behind a network
    that loses requests and answers.  A map switch over the real nodes follows. *)

From Stdlib Require Import ZArith Lia String.
From stdpp Require Import base sorting gmap strings list option relations.
From S2P Require Import Prelude Protocol Config Maps World WorldOps WorldInv WorldSafe WorldProps WorldBuild Topology Redis Store StoreProps Users Authority Node NodeProps Wire NodeWire WireProps Coordinator Cluster ClusterProps ClusterViews ClusterSwitch NodeRPC NodeRPCProps.

Open Scope Z_scope.
Open Scope go_scope.

(** ** Worlds *)

(** Enough to place players; a checkpoint from anywhere keeps it. *)
Record sound (w : World) : Prop := {
  so_row0 : is_Some (zlookup 0 (w_terrain w));
  so_keys : map_Forall (fun k p => pl_Username p = k) (w_players w)
}.

Lemma wf_sound w : world_wf w -> sound w.
Proof. intros H. constructor; [apply H|]. intros k p Hp. by eapply pw_key, wf_player. Qed.

Lemma sound_key w k p : sound w -> w_players w !! k = Some p -> pl_Username p = k.
Proof. intros [_ Hk]. apply Hk. Qed.

Lemma sound_insert w k p : sound w -> pl_Username p = k -> sound (set_players (<[k := p]> (w_players w)) w).
Proof. intros [H0 Hk] Hp. constructor; [done|]. by apply map_Forall_insert_2. Qed.

Lemma sound_version v w : sound w -> sound (set_version v w).
Proof. by intros []. Qed.

Lemma sound_rngPos pos w : sound w -> sound (set_rngPos pos w).
Proof. by intros []. Qed.

Lemma add_places_world w e profile :
  sound w -> wp (AddOrRestorePlayer profile)
    (fun _ s => sound s.1 /\ is_Some (w_players s.1 !! up_Username profile)) (w, e).
Proof.
  intros Hs. unfold AddOrRestorePlayer. w_steps.
  destruct (if bool_decide (up_LastMap profile = cfg_ID (w_cfg w)) then _ else _) as [x0 y0].
  assert (H : forall x y t pos e', wp (playerViewLocked (joined_player profile (cfg_ID (w_cfg w)) x y t))
    (fun _ s => sound s.1 /\ is_Some (w_players s.1 !! up_Username profile))
    (set_version (w_version (set_rngPos pos w) +i 1)
       (set_players (<[pl_Username (joined_player profile (cfg_ID (w_cfg w)) x y t) :=
                        joined_player profile (cfg_ID (w_cfg w)) x y t]> (w_players (set_rngPos pos w))) (set_rngPos pos w)), e')).
  { intros. apply wp_playerView. intros v e2 _. rewrite joined_player_username. split.
    - apply sound_version, sound_insert; [by apply sound_rngPos|apply joined_player_username].
    - cbn. rewrite lookup_insert_eq. by eexists. }
  w_steps. apply wp_findSafePosition; [apply Hs| |].
  - intros x y _ _ pos. w_steps. apply H.
  - intros _. w_steps. specialize (H (cfg_SpawnX (w_cfg w)) (cfg_SpawnY (w_cfg w)) t (w_rngPos w) e'). by destruct w.
Qed.

Lemma remove_places_world w e u :
  sound w -> wp (WorldOps.RemovePlayer u) (fun r s => sound s.1 /\ w_players s.1 = delete u (w_players w) /\
    (r.2 = true -> up_Username r.1 = u /\ is_Some (w_players w !! u)) /\ (r.2 = false -> w_players w !! u = None)) (w, e).
Proof.
  intros Hs. unfold WorldOps.RemovePlayer. w_steps. destruct (w_players w !! u) as [p|] eqn:Hp; w_steps; cbn.
  - split_and!; [|done| |done].
    + destruct Hs as [H0 Hk]. constructor; [done|]. cbn. by apply map_Forall_delete.
    + intros _. split; [|by eexists]. by apply (sound_key w).
  - split_and!; [done|by rewrite delete_id|done|done].
Qed.

Lemma profile_places_world w e u :
  sound w -> wp (ProfileOf u) (fun r s => sound s.1 /\ dom (w_players s.1) = dom (w_players w) /\
    (r.2 = true -> up_Username r.1 = u)) (w, e).
Proof.
  intros Hs. unfold ProfileOf. w_steps. destruct (w_players w !! u) as [p|] eqn:Hp; w_steps; [|done].
  apply wp_refresh; [apply Hs| |].
  - intros e'. w_steps. cbn. rewrite Hp. cbn. split_and!; [done|done|]. intros _. by apply (sound_key w).
  - intros p' x y t pos e' Hp' _ _. w_steps. cbn. rewrite lookup_insert_eq. simplify_eq. cbn. split_and!.
    + apply sound_version, (sound_insert (set_rngPos pos w)); [by apply sound_rngPos|]. exact (sound_key w u p Hs Hp).
    + rewrite dom_insert_L. apply elem_of_dom_2 in Hp. set_solver.
    + intros _. by apply (sound_key w).
Qed.

Lemma restore_sound w e cp : sound w -> wp (RestoreCheckpoint cp) (fun _ s => sound s.1) (w, e).
Proof.
  intros Hs. unfold RestoreCheckpoint. w_steps. case_match; [by w_steps|]. w_steps.
  set (w1 := if 0 <? zlen (cp_Terrain cp) then _ else w).
  assert (H1 : is_Some (zlookup 0 (w_terrain w1))).
  { unfold w1. destruct (Z.ltb_spec 0 (zlen (cp_Terrain cp))) as [Hl|]; [|apply Hs]. apply zlookup_is_Some. cbn.
    unfold stringsToGrid, zlen in *. rewrite length_fmap. lia. }
  clearbody w1. eapply wp_mono.
  - apply (wp_foldM _ (fun (m : gmap string Player) s => s.1 = w1 /\ map_Forall (fun k p => pl_Username p = k) m)); [|by split].
    intros m v [w2 e2] _ [Hw Hm]. cbn in Hw. subst w2. w_steps. split; [done|]. by apply map_Forall_insert_2.
  - intros m [w2 e2] [Hw Hm]. cbn in Hw. subst w2. w_steps. by constructor.
Qed.

Lemma built_sound fuel m cfg e w e1 :
  (5 <= fuel)%nat -> FindConfig m = Some cfg -> NewWorld fuel cfg e = Some (w, e1) -> sound w.
Proof.
  intros Hf Hc Hn. apply wf_sound. destruct stock_maps_connected as [_ Hall]. rewrite Forall_forall in Hall.
  unfold FindConfig in Hc. apply List.find_some in Hc as [Hin%list_elem_of_In _]. destruct (Hall _ Hin) as ([H0 Hsp Hop] & _).
  apply (NewWorld_built fuel cfg e (w, e1)); [|done|done]. constructor; [done|done|]. unfold MinNPCs. lia.
Qed.

(** ** Nodes *)

(** The maps at which a node holds the player. *)
Definition held (n : NodeService) (u : string) : gset string :=
  dom (filter (fun mw => is_Some (w_players mw.2 !! u)) (ns_maps n)).

Definition node_sound (n : NodeService) : Prop := map_Forall (fun _ w => sound w) (ns_maps n).

Lemma elem_of_held n u m : m ∈ held n u <-> exists w, ns_maps n !! m = Some w /\ is_Some (w_players w !! u).
Proof.
  unfold held. rewrite elem_of_dom. split.
  - intros [w [Hw Hu]%map_lookup_filter_Some]. eauto.
  - intros (w & Hw & Hu). exists w. by apply map_lookup_filter_Some.
Qed.

(** A node after an operation: the same node with sound worlds. *)
Definition same_node (n n' : NodeService) : Prop := ns_ID n' = ns_ID n /\ node_sound n'.

Definition put_map (m : string) (w : World) (n : NodeService) : NodeService := set_ns_maps (<[m := w]> (ns_maps n)) n.

Lemma same_put n m w : node_sound n -> sound w -> same_node n (put_map m w n).
Proof. intros Hn Hw. split; [done|]. by apply map_Forall_insert_2. Qed.

Lemma held_put n m w u :
  held (put_map m w n) u = if decide (is_Some (w_players w !! u)) then {[m]} ∪ held n u else held n u ∖ {[m]}.
Proof.
  apply set_eq. intros m'. rewrite elem_of_held. cbn [put_map set_ns_maps ns_maps].
  destruct (decide (m' = m)) as [->|Hne].
  - rewrite lookup_insert_eq. case_decide as Hu; [split; [set_solver|]; intros _; by exists w|].
    split; [by intros (w' & [= <-] & ?)|set_solver].
  - rewrite lookup_insert_ne by done. case_decide; [rewrite elem_of_union|rewrite elem_of_difference];
      rewrite elem_of_held, elem_of_singleton; naive_solver.
Qed.

Lemma held_absent n m w u : ns_maps n !! m = Some w -> w_players w !! u = None -> m ∉ held n u.
Proof. intros Hm Hu (w' & Hw' & [p Hp])%elem_of_held. congruence. Qed.

Lemma RemovePlayer_places m epoch u n t e :
  node_sound n ->
  wp (RemovePlayer m u epoch) (fun r s => same_node n (nd s) /\ match r with
    | inr (prof, true) => up_Username prof = u /\ held (nd s) u = held n u ∖ {[m]}
    | _ => held (nd s) u = held n u
    end) (mkNodeSt n t e).
Proof.
  intros Hn. apply wp_try, wp_beginWrite. intros [err|[]] t1 e1 _ _ _ _ _; [done|].
  apply wp_with_instance; [intros _; by apply wp_ret|].
  intros w Hw. apply wp_bind. eapply wp_mono; [apply remove_places_world, (Hn m w Hw)|].
  intros [prof found] [w' e'] (Hs' & Hd & Ht & Hf). apply wp_ret. cbn [nd fst snd] in *. fold (put_map m w' n).
  assert (Hheld : held (put_map m w' n) u = held n u ∖ {[m]}).
  { rewrite held_put, decide_False; [done|]. rewrite Hd, lookup_delete_eq. by intros [? ?]. }
  split; [by apply same_put|]. destruct found; [by split; [apply Ht|]|].
  rewrite Hheld. assert (m ∉ held n u) by (eapply held_absent; [exact Hw|by apply Hf]). set_solver.
Qed.

Lemma Profile_places m u n t e :
  node_sound n ->
  wp (Profile m u) (fun r s => same_node n (nd s) /\ held (nd s) u = held n u /\ (r.2 = true -> up_Username r.1 = u))
    (mkNodeSt n t e).
Proof.
  intros Hn. apply wp_with_instance; [intros _; by apply wp_ret|].
  intros w Hw. eapply wp_mono; [apply profile_places_world, (Hn m w Hw)|].
  intros r [w' e'] (Hs' & Hd & Hu). cbn [nd fst snd] in *. fold (put_map m w' n). split; [by apply same_put|]. split; [|done].
  rewrite held_put. assert (Hiff : is_Some (w_players w' !! u) <-> is_Some (w_players w !! u)) by (by rewrite <- !elem_of_dom, Hd).
  case_decide as H; rewrite Hiff in H.
  - assert (m ∈ held n u) by (apply elem_of_held; eauto). set_solver.
  - assert (m ∉ held n u) by (eapply held_absent; [done|by apply eq_None_not_Some]). set_solver.
Qed.
Section nodes.
Context (fuel : nat) (Hfuel : (5 <= fuel)%nat).

(** The gate only looks. *)
Lemma wp_gate {A} mapID epoch (k : unit -> NM (node_err + A)) n t e (Q : node_err + A -> NodeSt -> Prop) :
  (forall err t' e', Q (inl err) (mkNodeSt n t' e')) -> (forall t' e', wlp (k tt) Q (mkNodeSt n t' e')) ->
  wlp (try (beginWrite mapID epoch) k) Q (mkNodeSt n t e).
Proof.
  intros Hl Hr. unfold try. apply wlp_bind.
  pose proof (wp_beginWrite mapID epoch n t e (fun _ s => exists t' e', s = mkNodeSt n t' e')) as H.
  intros a s Ha. assert (exists t' e', s = mkNodeSt n t' e') as (t' & e' & ->).
  { apply (wlp_run (beginWrite mapID epoch) (fun _ s => exists t' e', s = mkNodeSt n t' e') (mkNodeSt n t e) a s); [|done].
    intros a' s' Hs'. unfold wp in H. rewrite Hs' in H. apply H. eauto. }
  destruct a as [err|[]]; [by apply wlp_ret|apply Hr].
Qed.

Lemma ensureHostedMap_places m n t e :
  node_sound n ->
  wlp (ensureHostedMap fuel m) (fun r s => same_node n (nd s) /\ match r with
    | inl _ => ns_maps (nd s) = ns_maps n
    | inr _ => is_Some (ns_maps (nd s) !! m) /\ forall m', m' <> m -> ns_maps (nd s) !! m' = ns_maps n !! m'
    end) (mkNodeSt n t e).
Proof.
  intros Hn. unfold ensureHostedMap. apply wlp_bind, wlp_gets. cbn [nd].
  destruct (ns_maps n !! m) as [w|] eqn:Hm; [apply wlp_ret; cbn; rewrite Hm; split; [done|]; split; [by eexists|done]|].
  destruct (FindConfig m) as [cfg|] eqn:Hc; [|apply wlp_ret; split; [split; [reflexivity|exact Hn]|reflexivity]].
  apply wlp_bind. intros w s Hw. unfold newWorld in Hw. cbn [ev] in Hw.
  destruct (NewWorld fuel cfg e) as [[w1 e1]|] eqn:Hnew; [|done]. injection Hw as <- <-.
  assert (Hw1 : sound w1) by by eapply built_sound. clear Hnew. unfold set_ev. cbn [nd nt].
  apply wlp_bind, wlp_gets. cbn [nd]. apply wlp_bind.
  eapply (wlp_mono _ (fun _ s => exists t', s = mkNodeSt n t' e1)).
  - intros o s. destruct (ns_store n); [|intros [= _ <-]; eauto]. unfold onNet, zoom.
    destruct (LoadCheckpoint m _) as [[o' t']|]; [|done]. intros [= _ <-]. eauto.
  - intros o s [t' ->]. apply wlp_bind.
    eapply (wlp_mono _ (fun r s => sound r.2 /\ exists t2 e2, s = mkNodeSt n t2 e2)).
    + destruct (restorable m o) as [cp|]; [|apply wlp_ret; cbn; eauto]. intros r s. unfold onWorld. cbn [ev].
      pose proof (restore_sound w1 e1 cp Hw1) as Hr. unfold wp in Hr.
      destruct (RestoreCheckpoint cp (w1, e1)) as [[[] [w2 e2]]|]; [|done]. intros [= <- <-]. split; [done|]. eexists _, _. done.
    + intros [[] w2] s (Hw2 & t2 & e2 & ->). cbn in Hw2. apply wlp_bind, wlp_gets. cbn [nd]. rewrite Hm.
      apply wlp_bind, wlp_modify, wlp_ret. cbn [nd set_nd]. split; [by apply same_put|]. cbn.
      split; [rewrite lookup_insert_eq; by eexists|]. intros m' Hne. by rewrite lookup_insert_ne.
Qed.

(** An operation of a hosted, sound world. *)
Lemma wlp_instance {A} m (absent : NM A) (op : W A) n t e (Q : A -> NodeSt -> Prop) :
  node_sound n ->
  (ns_maps n !! m = None -> wlp absent Q (mkNodeSt n t e)) ->
  (forall w, ns_maps n !! m = Some w -> sound w -> wp op (fun a we => Q a (mkNodeSt (put_map m we.1 n) t we.2)) (w, e)) ->
  wlp (with_instance m absent op) Q (mkNodeSt n t e).
Proof.
  intros Hn H0 H1. unfold with_instance. apply wlp_bind, wlp_gets. cbn [nd].
  destruct (ns_maps n !! m) as [w|] eqn:Hm; [|by apply H0]. specialize (H1 w eq_refl (Hn m w Hm)).
  apply wlp_bind. intros [a w'] s. unfold onWorld. cbn [ev]. unfold wp in H1.
  destruct (op (w, e)) as [[a1 [w1 e1]]|]; [|done]. intros [= <- <- <-]. by apply wlp_bind, wlp_modify, wlp_ret.
Qed.

Lemma AddPlayer_places m epoch p n t e :
  node_sound n ->
  wlp (AddPlayer fuel m epoch p) (fun r s => same_node n (nd s) /\ match r with
    | inl _ => held (nd s) (up_Username p) = held n (up_Username p)
    | inr _ => held (nd s) (up_Username p) = {[m]} ∪ held n (up_Username p)
    end) (mkNodeSt n t e).
Proof.
  intros Hn. unfold AddPlayer. apply wp_gate; [done|]. intros t1 e1. unfold try. apply wlp_bind.
  eapply wlp_mono; [by apply ensureHostedMap_places|]. intros [err|[]] [n1 t2 e2] [[Hid Hn1] H]; cbn [nd] in *.
  { apply wlp_ret. split; [done|]. unfold held. cbn [nd]. by rewrite H. }
  destruct H as [Hhost Hothers]. apply wlp_instance; [done|intros Habs; destruct Hhost as [? Hh]; cbn in Hh; congruence|].
  intros w Hw Hs. apply wp_bind. eapply wp_mono; [by apply add_places_world|]. intros _ [w' e'] [Hs' Hu].
  apply wp_ret. cbn [nd fst snd ok] in *. split; [split; [exact Hid|by apply map_Forall_insert_2]|].
  rewrite held_put, decide_True by done. apply set_eq. intros m'. rewrite !elem_of_union, !elem_of_held, elem_of_singleton.
  destruct (decide (m' = m)) as [->|Hne]; [naive_solver|]. by setoid_rewrite Hothers.
Qed.

End nodes.

(** ** The fleet *)

Definition fleet_places (f : Fleet) (u : string) : gset (string * string) :=
  ⋃ ((fun n => set_map (pair (ns_ID (nd n))) (held (nd n) u)) <$> (map_to_list (fl_nodes f)).*2).

(** Names are unique and worlds are sound. *)
Record fleet_sound (f : Fleet) : Prop := {
  fs_names : forall a b n n', fl_nodes f !! a = Some n -> fl_nodes f !! b = Some n' -> ns_ID (nd n) = ns_ID (nd n') -> a = b;
  fs_worlds : map_Forall (fun _ n => node_sound (nd n)) (fl_nodes f)
}.

Lemma elem_of_fleet_places f u i m :
  (i, m) ∈ fleet_places f u <-> exists a n, fl_nodes f !! a = Some n /\ ns_ID (nd n) = i /\ m ∈ held (nd n) u.
Proof.
  unfold fleet_places. rewrite elem_of_union_list. split.
  - intros (X & (n & -> & ([a n'] & -> & Ha%elem_of_map_to_list)%list_elem_of_fmap)%list_elem_of_fmap & Hx).
    apply elem_of_map in Hx as (m' & [= -> ->] & Hm). cbn in *. eauto.
  - intros (a & n & Ha & <- & Hm). exists (set_map (pair (ns_ID (nd n))) (held (nd n) u)). split; [|by apply elem_of_map_2].
    apply list_elem_of_fmap. exists n. split; [done|]. apply list_elem_of_fmap. exists (a, n). split; [done|].
    by apply elem_of_map_to_list.
Qed.

(** One node after an operation, or after it went down. *)
Section update.
Context (f : Fleet) (a : string) (n : NodeSt) (g : nat -> fault) (p : nat).
Hypothesis (Hf : fleet_sound f) (Ha : fl_nodes f !! a = Some n).

Lemma update_sound n' : same_node (nd n) (nd n') -> fleet_sound (mkFleet (<[a := n']> (fl_nodes f)) g p).
Proof.
  intros [Hid Hn']. destruct Hf as [Hnames Hworlds]. constructor; cbn [fl_nodes]; [|by apply map_Forall_insert_2].
  assert (H : forall b n1, <[a := n']> (fl_nodes f) !! b = Some n1 ->
    exists n0, fl_nodes f !! b = Some n0 /\ ns_ID (nd n0) = ns_ID (nd n1)).
  { intros b n1 [[<- <-]|[_ ?]]%lookup_insert_Some; eauto. }
  intros b c n1 n2 (m1 & H1 & E1)%H (m2 & H2 & E2)%H He. eapply Hnames; [done..|congruence].
Qed.

Lemma crash_sound : fleet_sound (mkFleet (delete a (fl_nodes f)) g p).
Proof.
  destruct Hf as [Hnames Hworlds]. constructor; cbn [fl_nodes]; [|by apply map_Forall_delete].
  intros b c n1 n2 [_ H1]%lookup_delete_Some [_ H2]%lookup_delete_Some. by eapply Hnames.
Qed.

(** Whose places change. *)
Lemma places_others f' u i m :
  (forall b, b <> a -> fl_nodes f' !! b = fl_nodes f !! b) -> (forall n', fl_nodes f' !! a = Some n' -> ns_ID (nd n') = ns_ID (nd n)) ->
  i <> ns_ID (nd n) -> (i, m) ∈ fleet_places f' u <-> (i, m) ∈ fleet_places f u.
Proof.
  intros Ho Hn Hi. rewrite !elem_of_fleet_places.
  split; intros (b & n1 & Hb & <- & Hm); exists b, n1; (split_and!; [|done..]); destruct (decide (b = a)) as [->|Hne].
  - by apply Hn in Hb.
  - by rewrite Ho in Hb.
  - congruence.
  - by rewrite Ho.
Qed.

Lemma places_own u m : (ns_ID (nd n), m) ∈ fleet_places f u <-> m ∈ held (nd n) u.
Proof.
  rewrite elem_of_fleet_places. split; [|by eauto].
  intros (b & n1 & Hb & Hid & Hm). assert (b = a) as -> by (eapply (fs_names _ Hf); eauto). congruence.
Qed.
End update.

(** The places after the operation, from the maps the node then holds the player at. *)
Lemma places_update f a n n' g p u :
  fleet_sound f -> fl_nodes f !! a = Some n -> same_node (nd n) (nd n') ->
  forall i m, (i, m) ∈ fleet_places (mkFleet (<[a := n']> (fl_nodes f)) g p) u <->
    if decide (i = ns_ID (nd n)) then m ∈ held (nd n') u else (i, m) ∈ fleet_places f u.
Proof.
  intros Hf Ha Hsame i m. destruct (decide (i = ns_ID (nd n))) as [->|Hi].
  - rewrite <- (proj1 Hsame). apply (places_own _ a); [by apply (update_sound f a n)|apply lookup_insert_eq].
  - apply (places_others f a n Ha); [|intros n1|done]; cbn [fl_nodes].
    + intros b Hb. by rewrite lookup_insert_ne.
    + rewrite lookup_insert_eq. intros [= <-]. apply Hsame.
Qed.

Lemma places_crash f a n g p u :
  fleet_sound f -> fl_nodes f !! a = Some n ->
  fleet_places (mkFleet (delete a (fl_nodes f)) g p) u = filter (fun x => x.1 <> ns_ID (nd n)) (fleet_places f u).
Proof.
  intros Hf Ha. apply set_eq. intros [i m]. rewrite elem_of_filter. cbn [fst]. destruct (decide (i = ns_ID (nd n))) as [->|Hi].
  - rewrite elem_of_fleet_places. split; [|by intros []]. intros (b & n1 & Hb & Hid & _).
    cbn [fl_nodes] in Hb. apply lookup_delete_Some in Hb as [Hne Hb]. destruct Hne. symmetry. by eapply (fs_names _ Hf).
  - rewrite (places_others f a n Ha _ u i m); [tauto| |cbn [fl_nodes]; by rewrite lookup_delete_eq|done].
    intros b Hb. cbn. by rewrite lookup_delete_ne.
Qed.

(** ** The laws *)

(** A call: nothing happens, the handler runs (and its answer may be lost), or the
    process goes down with it. *)
Lemma wp_call {A} cl (h : HM (rpc_err + A)) f (Q : rpc_err + A -> Fleet -> Prop) :
  (forall err, Q (inl err) (next_call (fl_nodes f) f)) ->
  (forall n, fl_nodes f !! cl_Addr cl = Some n ->
     wlp h (fun r n' => forall r', r' = r \/ (exists err, r' = inl err) -> Q r' (next_call (<[cl_Addr cl := n']> (fl_nodes f)) f)) n /\
     (h n = None -> forall err, Q (inl err) (next_call (delete (cl_Addr cl) (fl_nodes f)) f))) ->
  wp (call cl h) Q f.
Proof.
  intros H0 H1. unfold wp, call. destruct (fl_nodes f !! cl_Addr cl) as [n|] eqn:Hn; [|apply H0].
  destruct (H1 n eq_refl) as [Hrun Hcrash]. unfold wlp in Hrun.
  destruct (fl_fault f (fl_pos f)); [|apply H0|];
    (destruct (h n) as [[r n']|]; [apply (Hrun _ _ eq_refl); eauto|by apply Hcrash]).
Qed.

(** A request that names another node is refused. *)
Lemma wp_authority_named cl mapID epoch n (Q : rpc_err + string * Z -> NodeSt -> Prop) :
  (forall err, Q (inl err) n) -> (ns_ID (nd n) = cl_NodeID cl -> Q (inr (mapID, epoch)) n) ->
  wp (authority (auth_of cl mapID epoch)) Q n.
Proof.
  intros Hl Hr. unfold authority, auth_of, NewMapAuthority. cbn. case_bool_decide; [apply Hl|].
  apply wp_bind, wp_gets. case_bool_decide as Hid; [|apply Hl]. cbn. destruct (epoch =? 0); [apply Hl|by apply Hr].
Qed.

Section laws.
Context (f : Fleet) (cl : client) (n n' : NodeSt) (m u : string).
Hypothesis (Hf : fleet_sound f) (Hn : fl_nodes f !! cl_Addr cl = Some n) (Hsame : same_node (nd n) (nd n')).

Abbreviation f' := (next_call (<[cl_Addr cl := n']> (fl_nodes f)) f).

Lemma call_sound : fleet_sound f'.
Proof. by apply (update_sound f (cl_Addr cl) n). Qed.

Lemma call_keeps : held (nd n') u = held (nd n) u -> fleet_places f' u = fleet_places f u.
Proof.
  intros Hh. apply set_eq. intros [i m']. unfold next_call. rewrite (places_update f (cl_Addr cl) n) by done. case_decide as Hi; [|done].
  subst i. by rewrite Hh, (places_own f (cl_Addr cl) n).
Qed.

Lemma call_adds : ns_ID (nd n) = cl_NodeID cl -> held (nd n') u = {[m]} ∪ held (nd n) u ->
  fleet_places f' u = {[(cl_NodeID cl, m)]} ∪ fleet_places f u.
Proof.
  intros Hid Hh. apply set_eq. intros [i m']. unfold next_call. rewrite (places_update f (cl_Addr cl) n), elem_of_union, elem_of_singleton by done.
  case_decide as Hi; [|naive_solver]. subst i. rewrite Hh, (places_own f (cl_Addr cl) n), elem_of_union, elem_of_singleton by done.
  rewrite Hid. naive_solver.
Qed.

Lemma call_removes : ns_ID (nd n) = cl_NodeID cl -> held (nd n') u = held (nd n) u ∖ {[m]} ->
  fleet_places f' u = fleet_places f u ∖ {[(cl_NodeID cl, m)]}.
Proof.
  intros Hid Hh. apply set_eq. intros [i m']. unfold next_call. rewrite (places_update f (cl_Addr cl) n), elem_of_difference, elem_of_singleton by done.
  case_decide as Hi; [|naive_solver]. subst i. rewrite Hh, (places_own f (cl_Addr cl) n), elem_of_difference, elem_of_singleton by done.
  rewrite Hid. naive_solver.
Qed.
End laws.

Section fleet.
Context (fuel : nat) (Hfuel : (5 <= fuel)%nat) (parseable : string -> bool).

#[local] Instance fleet_calls : GatewayNodeClient Fleet := NodeGRPCClient_gateway fuel parseable.

(** What an addition at [cl] does to the places of a player. *)
Definition addition (f : Fleet) (cl : client) (m u : string) (r : rpc_err + unit) (f' : Fleet) : Prop :=
  fleet_sound f' /\
  (fleet_places f' u = {[(cl_NodeID cl, m)]} ∪ fleet_places f u \/
   (exists err, r = inl err) /\
   (fleet_places f' u = fleet_places f u \/ fleet_places f' u = filter (fun x => x.1 <> cl_NodeID cl) (fleet_places f u))).

Lemma serve_AddPlayer_places f cl m e prof n :
  fleet_sound f -> fl_nodes f !! cl_Addr cl = Some n ->
  wlp (serve_AddPlayer fuel (auth_of cl m e) (Some (ToPlayerState prof)))
    (fun r n' => forall r', r' = r \/ (exists err, r' = inl err) ->
       addition f cl m (up_Username prof) r' (next_call (<[cl_Addr cl := n']> (fl_nodes f)) f)) n.
Proof.
  intros Hf Hn. pose proof (fs_worlds _ Hf _ _ Hn) as Hs. cbn in Hs. unfold serve_AddPlayer, try. apply wlp_bind.
  assert (Hrefused : forall err r', r' = inl err \/ (exists err', r' = @inl rpc_err unit err') ->
    addition f cl m (up_Username prof) r' (next_call (<[cl_Addr cl := n]> (fl_nodes f)) f)).
  { intros err r' Hr'. split; [by apply (call_sound f cl n)|]. right. split; [naive_solver|]. left. by apply (call_keeps f cl n). }
  intros a s Ha. pose proof (wp_authority_named cl m e n (fun r s => s = n /\
    match r with inr x => x = (m, e) /\ ns_ID (nd n) = cl_NodeID cl | inl _ => True end)) as Hauth.
  unfold wp in Hauth. rewrite Ha in Hauth. destruct Hauth as [-> Hauth]; [done|done|].
  destruct a as [err|a]; [by apply wlp_ret, (Hrefused err)|]. destruct Hauth as [-> Hid].
  case_match; [by apply wlp_ret, (Hrefused invalidNodeRequest)|]. unfold served. apply wlp_bind. destruct n as [n t ev].
  eapply wlp_mono; [by apply AddPlayer_places|]. intros r n' [Hsame Hheld]. cbn [nd] in *.
  change (up_Username (FromPlayerState (Some (ToPlayerState prof)))) with (up_Username prof) in Hheld.
  destruct r as [err|[]]; apply wlp_ret; intros r' Hr'; (split; [by apply (call_sound f cl _ _ Hf Hn)|]).
  - right. split; [naive_solver|]. left. by apply (call_keeps f cl _ _ _ Hf Hn).
  - left. by apply (call_adds f cl _ _ _ _ Hf Hn).
Qed.

Lemma fleet_add f cl m e prof :
  fleet_sound f -> wp (RpcAddPlayer cl m e prof) (addition f cl m (up_Username prof)) f.
Proof.
  intros Hf. apply wp_call; [intros err; split; [by destruct Hf|right; split; [by eexists|by left]]|].
  intros n Hn. split; [by apply serve_AddPlayer_places|].
  intros Hnone err. split; [by eapply crash_sound|]. right. split; [by eexists|]. right.
  assert (Hid : ns_ID (nd n) = cl_NodeID cl).
  { destruct (decide (ns_ID (nd n) = cl_NodeID cl)) as [|Hid]; [done|]. exfalso.
    enough (H : wp (serve_AddPlayer fuel (auth_of cl m e) (Some (ToPlayerState prof))) (fun _ _ => True) n)
      by (unfold wp in H; by rewrite Hnone in H).
    apply wp_try, wp_authority_named; [done|]. intros ?. done. }
  rewrite <- Hid. by apply (places_crash f (cl_Addr cl) n).
Qed.

(** A handler that cannot panic. *)
Lemma wp_call_total {A} cl (h : HM (rpc_err + A)) f (Q : rpc_err + A -> Fleet -> Prop) :
  (forall err, Q (inl err) (next_call (fl_nodes f) f)) ->
  (forall n, fl_nodes f !! cl_Addr cl = Some n ->
     wp h (fun r n' => forall r', r' = r \/ (exists err, r' = inl err) -> Q r' (next_call (<[cl_Addr cl := n']> (fl_nodes f)) f)) n) ->
  wp (call cl h) Q f.
Proof.
  intros H0 H1. apply wp_call; [done|]. intros n Hn. specialize (H1 n Hn). apply wp_run in H1 as (r & n' & Hh & HQ).
  split; [|congruence]. intros r1 n1 Hr1. rewrite Hh in Hr1. by simplify_eq.
Qed.

Lemma fleet_remove f cl m u e : fleet_sound f ->
  wp (RpcRemovePlayer cl m u e) (fun r f' => fleet_sound f' /\
    match r with
    | inr (prof, true) => up_Username prof = u /\ fleet_places f' u = fleet_places f u ∖ {[(cl_NodeID cl, m)]}
    | inr (_, false) => fleet_places f' u = fleet_places f u
    | inl _ => fleet_places f' u = fleet_places f u \/ fleet_places f' u = fleet_places f u ∖ {[(cl_NodeID cl, m)]}
    end) f.
Proof.
  intros Hf. apply wp_try, wp_call_total; [intros err; split; [by destruct Hf|by left]|].
  intros n Hn. pose proof (fs_worlds _ Hf _ _ Hn) as Hs. cbn in Hs.
  assert (Hsound : forall n', same_node (nd n) (nd n') -> fleet_sound (next_call (<[cl_Addr cl := n']> (fl_nodes f)) f))
    by (intros; by apply (call_sound f cl n)).
  assert (Hkeep : forall n', same_node (nd n) (nd n') -> held (nd n') u = held (nd n) u ->
    fleet_places (next_call (<[cl_Addr cl := n']> (fl_nodes f)) f) u = fleet_places f u) by (intros; by apply (call_keeps f cl n)).
  assert (Hid : same_node (nd n) (nd n)) by done.
  apply wp_try, wp_authority_named; [intros err r' [->|[err' ->]]; (split; [auto|left; auto])|].
  intros Hname. unfold served. apply wp_bind. destruct n as [n t ev]. cbn [nd fst snd] in *.
  eapply wp_mono; [by apply RemovePlayer_places|]. intros r n' [Hsame H]. cbn [nd] in *.
  destruct r as [err|[prof []]]; apply wp_ret.
  - intros r' [->|[err' ->]]; (split; [auto|left; auto]).
  - destruct H as [Hu Hheld].
    assert (Hrm : fleet_places (next_call (<[cl_Addr cl := n']> (fl_nodes f)) f) u = fleet_places f u ∖ {[(cl_NodeID cl, m)]})
      by (by apply (call_removes f cl _ _ _ _ Hf Hn)).
    intros r' [->|[err' ->]]; (split; [auto|]); [by split|by right].
  - intros r' [->|[err' ->]]; (split; [auto|]); [by apply Hkeep|left; auto].
Qed.

Lemma fleet_profile f cl m u : fleet_sound f ->
  wp (RpcProfile cl m u) (fun r f' => fleet_sound f' /\ fleet_places f' u = fleet_places f u /\
    forall prof found, r = inr (prof, found) -> found = true -> up_Username prof = u) f.
Proof.
  intros Hf. apply wp_try, wp_call_total; [intros err; split; [by destruct Hf|done]|].
  intros n Hn. pose proof (fs_worlds _ Hf _ _ Hn) as Hs. cbn in Hs.
  unfold serve_Profile. apply wp_bind. destruct n as [n t ev]. eapply wp_mono; [by apply Profile_places|].
  intros [prof found] n' (Hsame & Hheld & Hu). apply wp_ret. cbn [nd fst snd] in *.
  intros r' [->|[err' ->]]; (split; [by apply (call_sound f cl _ _ Hf Hn)|]); (split; [by apply (call_keeps f cl _ _ _ Hf Hn)|]); [|done].
  intros prof' found' [= <- <-]. exact Hu.
Qed.

(** The fleet keeps what a gateway relies on. *)
#[export] Instance fleet_player_places : PlayerPlaces Fleet := {|
  fleet_ok := fleet_sound;
  places := fleet_places;
  add_places f cl m e prof := fleet_add f cl m e prof;
  remove_places f cl m u e := fleet_remove f cl m u e;
  profile_places f cl m u := fleet_profile f cl m u
|}.

(** C28. Switching maps keeps a player together, up to the failures it cannot
    undo.  Over nodes that run the program's own operations behind a network that
    loses requests and answers, a player held by exactly the node its session is
    routed to is afterwards at the target if the switch is reported as done; it is
    still where it was if the command is refused before the player is removed; only
    a removal or an addition that failed can leave it nowhere; and only a failed
    addition, reported as rolled back, can leave it at both nodes.  The command
    always returns, and the fleet stays in order. *)
Theorem switch_keeps_together u targetMap (s s1 : GwSt Fleet) session src epoch :
  sessionNode u s = Some (inr (session, src, epoch), s1) ->
  let here := (cl_NodeID src, gs_MapID session) in
  fleet_sound (gpeers s) -> fleet_places (gpeers s) u = {[here]} ->
  exists r s', SwitchMap u targetMap s = Some (r, s') /\ fleet_sound (gpeers s') /\
    let after := fleet_places (gpeers s') u in
    match route (gw s1) targetMap with
    | None => after = {[here]} /\ exists err, r = inl err
    | Some (_, _, dst) =>
        let there := (cl_NodeID dst, targetMap) in
        (after = {[here]} \/ after = {[there]} \/ after = ∅ \/ after = {[there; here]}) /\
        (forall ws, r = inr ws -> after = {[there]}) /\
        (after = ∅ -> exists err, r = inl (GErrTry err) \/ r = inl (GErrConfirm err)) /\
        (here <> there -> after = {[there; here]} -> exists err, r = inl (GErrConfirm err))
    end.
Proof. intros Hsn here Hok Hp. exact (SwitchMap_places u targetMap s s1 session src epoch Hsn Hok Hp). Qed.
End fleet.

(** ** Two nodes and a gateway *)

Definition demo_node_b : NodeService :=
  set_ns_authority (mkAuthorityCache "node-b" (2 * Second) demo_topology (999 * Second) true)
    (set_ns_maps {["cave" := set_players ∅ demo_world]} (NewNodeService "node-b" "10.0.0.2:1" true demo_node_cfg "cave" 0)).
Definition demo_two : Fleet :=
  mkFleet {["10.0.0.1:1" := mkNodeSt demo_node (quiet demo_gw_redis) demo_env;
            "10.0.0.2:1" := mkNodeSt demo_node_b (quiet demo_gw_redis) demo_env]} (fun _ => F_ok) 0.
Definition demo_crossing : GwSt Fleet :=
  mkGwSt demo_two_nodes (quiet demo_gw_redis) (mkDB None (fun _ => F_ok) 0) demo_env [] [] (fun l => l) demo_two.

Lemma demo_two_sound : fleet_sound demo_two.
Proof.
  assert (Hw : sound demo_world) by apply wf_sound, demo_wf.
  assert (Hn : forall a n, fl_nodes demo_two !! a = Some n ->
    (a = "10.0.0.1:1" /\ nd n = demo_node) \/ (a = "10.0.0.2:1" /\ nd n = demo_node_b)).
  { intros a n Ha. cbn [demo_two fl_nodes] in Ha.
    apply lookup_insert_Some in Ha as [[<- <-]|[_ [<- <-]%lookup_singleton_Some]]; auto. }
  constructor.
  - intros a b n n' [[-> H1]|[-> H1]]%Hn [[-> H2]|[-> H2]]%Hn; rewrite H1, H2; [done|discriminate|discriminate|done].
  - intros a n [[_ ->]|[_ ->]]%Hn; apply map_Forall_singleton; [done|].
    constructor; [apply Hw|]. intros k p. cbn. by rewrite lookup_empty.
Qed.

Lemma demo_two_places : fleet_places (gpeers demo_crossing) "ann" = {[("node-a", "demo")]}.
Proof. apply (bool_decide_eq_true_1 _). vm_compute. reflexivity. Qed.

(** Here the switch succeeds. *)
Lemma demo_crosses :
  match @SwitchMap Fleet (NodeGRPCClient_gateway 9 (fun _ => true)) "ann" "cave" demo_crossing with
  | Some (_, s') => bool_decide (fleet_places (gpeers s') "ann" = {[("node-b", "cave")]})
  | None => false
  end = true.
Proof. vm_compute. reflexivity. Qed.

Lemma switch_keeps_together_witness :
  exists r s', @SwitchMap Fleet (NodeGRPCClient_gateway 9 (fun _ => true)) "ann" "cave" demo_crossing = Some (r, s') /\
    fleet_sound (gpeers s') /\
    (fleet_places (gpeers s') "ann" = ∅ -> exists err, r = inl (GErrTry err) \/ r = inl (GErrConfirm err)).
Proof.
  destruct (switch_keeps_together 9 ltac:(lia) (fun _ => true) "ann" "cave" demo_crossing demo_crossing
    (mkGlobalSession "ann" "demo" "node-a" 5) (mkClient "node-a" "10.0.0.1:1") 3) as (r & s' & Hr & Hs & H).
  - reflexivity.
  - exact demo_two_sound.
  - exact demo_two_places.
  - exists r, s'. split; [exact Hr|]. split; [exact Hs|]. apply H.
Defined.
