(* ===== verification/Loops.v ===== *)
(** * The background loops

    The goroutines that wait for a ticker or for the end: [topologyRefreshLoop],
    [flushLoop] and [tickLoop] of a node, [discoveryLoop], [heartbeatLoop] and
    [bossLoop] of a coordinator, [topologySyncLoop] and [mapCacheLoop] of a gateway.
    What the other goroutines do between two rounds is part of the input.  Every such
    loop is a sequence of the operations over which the invariants of its component
    are proved, and ends at the first stop. *)

From Stdlib Require Import ZArith Lia String.
From stdpp Require Import base gmap strings list option relations.
From S2P Require Import Prelude Protocol Config Maps World WorldOps Topology Redis Store Users Authority Node NodeProps Coordinator CoordinatorProps CoordinatorRuns Cluster ClusterProps.

Open Scope Z_scope.
Open Scope go_scope.

(** What wakes a loop: a tick, before which the other goroutines have run, or the
    closed channel. *)
Inductive wake (S : Type) :=
  | Tick (between : ST S unit)
  | StopClosed.
Arguments Tick {S}.
Arguments StopClosed {S}.

(** [for { select { case <-ticker.C: round; case <-stop: return } }], with a variable
    of the loop. *)
Fixpoint ticker_loop {S A} (round : A -> ST S A) (a : A) (wakes : list (wake S)) : ST S A :=
  match wakes with
  | [] => mret a
  | Tick between :: wakes => _ ← between; a ← round a; ticker_loop round a wakes
  | StopClosed :: _ => mret a
  end.

(** After the stop nothing happens. *)
Lemma ticker_loop_stops {S A} (round : A -> ST S A) wakes rest :
  forall a s, ticker_loop round a (wakes ++ StopClosed :: rest)%list s = ticker_loop round a wakes s.
Proof.
  induction wakes as [|[between|] wakes IH]; intros a s; [done| |done]. cbn. unfold mbind, st_bind.
  destruct (between s) as [[[] s1]|]; [|done]. destruct (round a s1) as [[a2 s2]|]; [|done]. apply IH.
Qed.

(** A loop that returns has taken its state along a relation that its rounds and the
    others keep to. *)
Definition along {S A} (R : relation S) (m : ST S A) : Prop := forall s a s', m s = Some (a, s') -> R s s'.

Lemma along_ret {S A} (R : relation S) `{!Reflexive R} (a : A) : along R (mret a).
Proof. by intros s b s' [= _ <-]. Qed.

Lemma along_bind {S A B} (R : relation S) `{!Transitive R} (m : ST S A) (f : A -> ST S B) :
  along R m -> (forall a, along R (f a)) -> along R (m ≫= f).
Proof.
  intros Hm Hf s b s'. unfold mbind, st_bind. destruct (m s) as [[a s1]|] eqn:E; [|done]. intros H.
  etrans; [by eapply Hm|by eapply Hf].
Qed.

Lemma along_ticker {S A} (R : relation S) `{!PreOrder R} (round : A -> ST S A) wakes :
  (forall a, along R (round a)) -> Forall (fun w => match w with Tick between => along R between | StopClosed => True end) wakes ->
  forall a, along R (ticker_loop round a wakes).
Proof.
  intros Hr. induction 1 as [|[between|] wakes Hb _ IH]; intros a; cbn; [apply along_ret, _| |apply along_ret, _].
  apply along_bind; [apply _|done|]. intros _. apply along_bind; [apply _|apply Hr|]. intros b. apply IH.
Qed.

(** ** The loops of a node *)

Section node_loops.
Context (fuel : nat).

Definition topologyRefreshLoop (wakes : list (wake NodeSt)) : NM unit :=
  _ ← refreshTopology fuel;
  ticker_loop (fun _ => void (refreshTopology fuel)) tt wakes.

Definition flushLoop (wakes : list (wake NodeSt)) : NM unit :=
  lastFlush ← nowN;
  _ ← ticker_loop flushLoop_tick lastFlush wakes;
  mret tt.

Definition tickLoop (wakes : list (wake NodeSt)) : NM unit := ticker_loop (fun _ => tickLoop_tick) tt wakes.

Abbreviation node_run := (rtc (node_step fuel)).

Lemma along_op {A} (m : NM A) op : (forall s a s', m s = Some (a, s') -> run_node_op fuel op s = Some (tt, s')) -> along node_run m.
Proof. intros H s a s' E. eapply rtc_once, ns_op, H, E. Qed.

Lemma void_runs {A} (m : NM A) s a s' : m s = Some (a, s') -> void m s = Some (tt, s').
Proof. intros E. unfold void, mbind, st_bind. by rewrite E. Qed.

Lemma along_now : along node_run nowN.
Proof.
  intros [n t e] a s'. unfold nowN, now. cbn. intros [= _ <-]. apply rtc_once.
  apply (ns_around _ (mkNodeSt n t e) t). split_and!; [done|done|cbn; lia].
Qed.

Definition by_node (w : wake NodeSt) : Prop := match w with Tick between => along node_run between | StopClosed => True end.

(** Whatever the other goroutines of the node do between the rounds, each of its loops
    is a run of the node's operations. *)
Lemma node_loops_run wakes : Forall by_node wakes ->
  along node_run (topologyRefreshLoop wakes) /\ along node_run (flushLoop wakes) /\ along node_run (tickLoop wakes).
Proof.
  intros Hw. split_and!.
  - unfold topologyRefreshLoop. apply along_bind; [apply _|apply (along_op _ NodeRefresh); intros s a s'; apply void_runs|].
    intros _. apply along_ticker; [apply _| |done]. intros _. apply (along_op _ NodeRefresh). by intros s [] s'.
  - unfold flushLoop. apply along_bind; [apply _|apply along_now|]. intros last. apply along_bind; [apply _| |intros _; apply along_ret, _].
    apply along_ticker; [apply _| |done]. intros since. apply (along_op _ (NodeFlush since)). intros s a s'. apply void_runs.
  - apply along_ticker; [apply _| |done]. intros _. apply (along_op _ NodeTick). by intros s [] s'.
Qed.
End node_loops.

(** ** The loops of a leader *)

Section leader_loops.
Context {S : Type} {clients : CoordinatorNodeClient S}.
Abbreviation CM := (ST (CoordSt S)).

Definition discoveryLoop (wakes : list (wake (CoordSt S))) : CM unit := ticker_loop (fun _ => discoverOnce) tt wakes.
Definition heartbeatLoop (wakes : list (wake (CoordSt S))) : CM unit := ticker_loop (fun _ => heartbeatOnce) tt wakes.
Definition bossLoop (wakes : list (wake (CoordSt S))) : CM unit := ticker_loop (fun _ => restoreBossIfDue) tt wakes.

Lemma along_coord op : along (rtc coord_step) (run_coord_op (S := S) op).
Proof. intros s [] s' E. by eapply rtc_once, cs_op. Qed.

Definition by_coordinator (w : wake (CoordSt S)) : Prop :=
  match w with Tick between => along (rtc coord_step) between | StopClosed => True end.

Lemma leader_loops_run wakes : Forall by_coordinator wakes ->
  along (rtc coord_step) (discoveryLoop wakes) /\ along (rtc coord_step) (heartbeatLoop wakes) /\ along (rtc coord_step) (bossLoop wakes).
Proof.
  intros Hw. split_and!; apply along_ticker; [apply _|intros _|done|apply _|intros _|done|apply _|intros _|done].
  - apply (along_coord CoordDiscover).
  - apply (along_coord CoordHeartbeat).
  - apply (along_coord CoordRestoreBoss).
Qed.
End leader_loops.

(** ** The loops of a gateway *)

Section gateway_loops.
Context {S : Type} {clients : GatewayNodeClient S}.

Definition fallbackTopologySyncInterval : Z := 500 * Millisecond.
Definition topologySyncInterval (runtime : GatewayConfig) : Z :=
  if 0 <? gc_TopologyRefreshInterval runtime then gc_TopologyRefreshInterval runtime else fallbackTopologySyncInterval.

Definition topologySyncLoop (wakes : list (wake (GwSt S))) : ST (GwSt S) unit :=
  ticker_loop (fun _ => _ ← loadTopology; mret tt) tt wakes.

(** Inside a round the others run too: after the snapshots, and between the check of
    the version and the write of the cache. *)
Definition mapCacheLoop (breaks : list (ST (GwSt S) unit * ST (GwSt S) unit)) (wakes : list (wake (GwSt S))) : ST (GwSt S) unit :=
  _ ← ticker_loop (fun breaks => match breaks with
      | (checking, storing) :: breaks => _ ← mapCacheRound checking storing; mret breaks
      | [] => _ ← mapCacheRound (mret tt) (mret tt); mret []
      end) breaks wakes;
  mret tt.

(** A ticker is never made with an interval that would panic. *)
Lemma topologySyncInterval_positive runtime : 0 < topologySyncInterval runtime.
Proof. unfold topologySyncInterval. destruct (Z.ltb_spec 0 (gc_TopologyRefreshInterval runtime)); [done|reflexivity]. Qed.

Context (bcrypt_generate : string -> option string) (bcrypt_compare : string -> string -> bool)
  (sha256_hex : string -> string).

Abbreviation gto := (step_to bcrypt_generate bcrypt_compare sha256_hex false).

(** What the other goroutines do: operations, wherever the cache loop is. *)
Definition by_gateway (m : ST (GwSt S) unit) : Prop :=
  along (rtc (fun s s' => exists op, run_gw_op bcrypt_generate bcrypt_compare sha256_hex op s = Some (tt, s'))) m.

Lemma by_gateway_steps m s s' r : by_gateway m -> m s = Some (tt, s') -> rtc gto (s, r) (s', r).
Proof.
  intros Hm E. apply (rtc_congruence (fun s => (s, r)) (R := fun s s' => exists op, run_gw_op bcrypt_generate bcrypt_compare sha256_hex op s = Some (tt, s')));
    [|by eapply Hm]. intros x y [op Hop]. exists (received op). by apply gstep_op.
Qed.

Lemma mapCacheRound_steps checking storing s s' :
  by_gateway checking -> by_gateway storing -> mapCacheRound checking storing s = Some (tt, s') -> rtc gto (s, Waiting) (s', Waiting).
Proof.
  intros Hc Hs. unfold mapCacheRound, mbind, st_bind.
  destruct (cache_fetch s) as [[r s1]|] eqn:E1; [|done]. destruct (checking s1) as [[[] s2]|] eqn:E2; [|done].
  destruct (cache_current r s2) as [[current s3]|] eqn:E3; [|done]. intros E.
  eapply rtc_l; [by exists []; apply gstep_fetch|]. etrans; [by eapply (by_gateway_steps checking)|].
  eapply rtc_l; [by exists []; apply gstep_check|]. destruct current; [|by injection E as <-].
  destruct (storing s3) as [[[] s4]|] eqn:E4; [|done]. etrans; [by eapply (by_gateway_steps storing)|].
  apply rtc_once. by exists []; apply gstep_store.
Qed.

(** Whatever the others do, between the rounds and inside them, the cache loop is a run
    of the gateway from one wait for the ticker to another. *)
Lemma mapCacheLoop_runs breaks wakes :
  Forall (fun b => by_gateway b.1 /\ by_gateway b.2) breaks ->
  Forall (fun w => match w with Tick between => by_gateway between | StopClosed => True end) wakes ->
  along (fun s s' => rtc gto (s, Waiting) (s', Waiting)) (mapCacheLoop breaks wakes).
Proof.
  intros Hb Hw s [] s'. unfold mapCacheLoop, mbind, st_bind.
  destruct (ticker_loop _ _ _ s) as [[rest s1]|] eqn:E; [|done]. intros [= <-]. revert breaks s Hb E.
  induction Hw as [|[between|] wakes Hbetween _ IH]; intros breaks s Hb; cbn; [by intros [= _ <-]| |by intros [= _ <-]].
  unfold mbind, st_bind. destruct (between s) as [[[] s2]|] eqn:E2; [|done].
  assert (H0 : by_gateway (mret tt)) by by intros x [] y [= <-].
  destruct Hb as [|[checking storing] breaks [Hck Hst] Hb]; cbn;
    (match goal with |- context [mapCacheRound ?a ?b ?t] => destruct (mapCacheRound a b t) as [[[] s3]|] eqn:E3; [|done] end);
    intros E; (etrans; [by eapply (by_gateway_steps between)|]);
    (etrans; [eapply mapCacheRound_steps; [..|exact E3]; done|]); by eapply IH; [|exact E].
Qed.
End gateway_loops.
