(* ===== verification/Startup.v ===== *)
(** * Starting the processes

    [storage/store.go] (the connections and the subscription), the constructors of
    [coordinator/coordinator.go] and [cluster/cluster.go], [config.LoadRuntime], and
    the functions [main] of [cmd/gateway] and [cmd/coordinator] up to the point where
    they serve.  The drivers of PostgreSQL and Redis, the YAML decoder, the operating
    system's answers and the network are parameters. *)

From Stdlib Require Import ZArith Lia String Ascii.
From stdpp Require Import base gmap strings list option.
From S2P Require Import Prelude Protocol Config Maps World Topology Redis Store Users Elector Coordinator Cluster Leadership Lifecycle.

Open Scope Z_scope.
Open Scope go_scope.

(** ** The store's connections *)

(** [redis.Options] as [NewStore] fills it. *)
Record DialOptions := mkDialOptions {
  do_Addr : string;
  do_Password : string;
  do_DB : Z
}.

(** The limits of the connection pool. *)
Record PoolLimits := mkPoolLimits {
  pl_MaxIdleConns : Z;
  pl_MaxOpenConns : Z;
  pl_ConnMaxLifetime : Z
}.

Inductive start_err :=
  | ErrNoPassword
  | ErrOpen
  | ErrMigrate
  | ErrPing
  | ErrNilClient
  | ErrConfig (err : config_err)
  | ErrElector
  | ErrNilStore.

Definition Hour : Z := 3600 * Second.

Section drivers.
(** [gorm.Open], [AutoMigrate], [db.DB] (which may fail) with the limits set on it, and [Ping]. *)
Context {DB : Type} (Open : string -> option DB) (AutoMigrate : DB -> option DB)
  (limited : PoolLimits -> DB -> option DB) (Ping : DialOptions -> bool).

(** [storage.Store]; the pointer itself may be nil. *)
Record StoreConn := mkStoreConn {
  sc_db : option DB;
  sc_rdb : option DialOptions
}.

Definition RedisClient (s : option StoreConn) : option DialOptions :=
  match s with Some s => sc_rdb s | None => None end.

(** [None] is [ErrDatabaseUnavailable]. *)
Definition database (s : option StoreConn) : option DB :=
  match s with Some s => sc_db s | None => None end.

Definition TableName : string := "users".

Definition NewRedisStore (client : option DialOptions) : start_err + StoreConn :=
  match client with
  | None => inl ErrNilClient
  | Some c => if negb (Ping c) then inl ErrPing else inr (mkStoreConn None (Some c))
  end.

Section environment.
Context (Getenv : string -> string).

Definition dsn : string :=
  "host=" +:+ DBHost Getenv +:+ " user=" +:+ DBUser Getenv +:+ " password='" +:+ DBPassword Getenv +:+ "' dbname=" +:+ DBName Getenv
  +:+ " port=" +:+ DBPort Getenv +:+ " sslmode=disable TimeZone=Asia/Shanghai".

Definition pool_limits : PoolLimits := mkPoolLimits 20 100 Hour.
Definition redis_options : DialOptions := mkDialOptions (RedisAddr Getenv) (RedisPassword Getenv) (RedisDB Getenv).

Definition NewStore : start_err + StoreConn :=
  if bool_decide (DBPassword Getenv = "") then inl ErrNoPassword else
  match Open dsn with
  | None => inl ErrOpen
  | Some db =>
      match AutoMigrate db with
      | None => inl ErrMigrate
      | Some db =>
          let db := default db (limited pool_limits db) in
          if negb (Ping redis_options) then inl ErrPing else inr (mkStoreConn (Some db) (Some redis_options))
      end
  end.

Definition resolveDataRoot : string :=
  let root := TrimSpace (Getenv "LAB3_DATA_ROOT") in
  if bool_decide (root = "") then "." else root.

(** ** Configuration *)

Context (decode : RuntimeConfig -> string -> option RuntimeConfig) (tape : nat -> nat) (ReadFile : string -> file).

Definition RuntimeConfigPath : string := "config/runtime.yaml".
Definition LoadRuntime : config_err + RuntimeConfig := LoadRuntimeFile decode tape (ReadFile RuntimeConfigPath).

(** ** Constructors *)

(** The intervals of a coordinator. *)
Record Intervals := mkIntervals {
  iv_discovery : Z;
  iv_heartbeat : Z;
  iv_nodeRequest : Z;
  iv_leaderRetry : Z;
  iv_bossReconcile : Z
}.

Definition intervals (c : CoordinatorConfig) : Intervals :=
  mkIntervals (cc_DiscoveryInterval c) (cc_HealthCheckInterval c) (cc_NodePingTimeout c) (cc_LeaderRetryInterval c) (cc_BossReconcileInterval c).

(** The operating system: the host's name, if it can be read, the number of the
    process, and random bytes as hexadecimal digits. *)
Record Host := mkHost {
  ho_name : option string;
  ho_pid : Z;
  ho_random : string
}.

(** A coordinator as constructed: its elector ([None] is [AlwaysLeader]), itself, its
    intervals. *)
Record ControlPlane := mkControlPlane {
  cn_elector : option RedisElector;
  cn_coordinator : Coordinator;
  cn_intervals : Intervals
}.

Definition election_times (c : LeaderElectionConfig) : Z * Z * Z :=
  (le_LeaseTTL c, le_RenewInterval c, le_CampaignRetryInterval c).

Definition newCoordinatorWithElector (elector : option RedisElector) (configs : list MapConfig) : ControlPlane :=
  mkControlPlane elector (newCoordinator configs) (intervals (rc_Coordinator DefaultRuntime)).

(** [NewWithRuntimeConfig] for a store that is not nil. *)
Definition NewWithRuntimeConfig (host : Host) (store : StoreConn) (runtime : RuntimeConfig) : start_err + ControlPlane :=
  match ValidateRuntime tape runtime with
  | Some err => inl (ErrConfig err)
  | None =>
      match productionElector (bool_decide (is_Some (RedisClient (Some store)))) (election_times (rc_LeaderElection DefaultRuntime))
              (election_times (rc_LeaderElection runtime)) (CoordinatorID Getenv) (ho_name host) (ho_pid host) (ho_random host) with
      | None => inl ErrElector
      | Some elector => inr (mkControlPlane elector (newCoordinator available_maps) (intervals (rc_Coordinator runtime)))
      end
  end.

Definition New (host : Host) (store : StoreConn) : start_err + ControlPlane := NewWithRuntimeConfig host store DefaultRuntime.

(** [NewWithElector] takes the elector it is given. *)
Definition NewWithElector (elector : option RedisElector) : ControlPlane := newCoordinatorWithElector elector available_maps.

(** A gateway's cluster as constructed, with the channels it is subscribed to and its
    timings. *)
Record Subscription := mkSubscription {
  su_channels : list string;
  su_patterns : list string
}.

Definition SubscribeEvents : Subscription :=
  mkSubscription ["events:global"; TopologyEventChannel] ["events:map:*"; "events:user:*"].

Record Gateway := mkGateway {
  ga_cluster : Cluster;
  ga_subscription : Subscription;
  ga_runtime : GatewayConfig
}.

Definition NewClusterWithConfig (store : option StoreConn) (runtime : GatewayConfig) : start_err + Gateway :=
  match store with
  | None => inl ErrNilStore
  | Some _ => inr (mkGateway newCluster SubscribeEvents runtime)
  end.

Definition NewCluster (store : option StoreConn) : start_err + Gateway := NewClusterWithConfig store (rc_Gateway DefaultRuntime).

(** ** [main] *)

(** What a process does to the world around it, in order; [Exit] ends it at once,
    without the deferred calls. *)
Inductive action :=
  | StartPprof (addr : string)
  | CatchSignals
  | OpenStore (ok : bool)
  | StartCluster_ (g : Gateway)
  | StartControl (c : ControlPlane)
  | Listen (addr : string) (ok : bool)
  | RegisterServices (stateInterval : Z)
  | StartLifecycle (addr : string)
  | Serve
  | AwaitSignal
  | CloseListener
  | CloseCluster_
  | CloseControl
  | Exit (code : Z).

(** [main] of the gateway; [listening] is whether the port can be bound. *)
Definition gateway_main (lifecycleAddr : string) (listening : bool) : list action :=
  match LoadRuntime with
  | inl _ => [Exit 1]
  | inr runtime =>
      (if hc_PprofEnabled (rc_HTTP runtime) then [StartPprof (hc_PprofAddr (rc_HTTP runtime))] else []) ++
      CatchSignals ::
      match NewStore with
      | inl _ => [OpenStore false; Exit 1]
      | inr store =>
          OpenStore true ::
          match NewClusterWithConfig (Some store) (rc_Gateway runtime) with
          | inl _ => [Exit 1]
          | inr g =>
              StartCluster_ g :: Listen GatewayAddr listening ::
              if negb listening then [Exit 1] else
              RegisterServices (gc_StreamStateInterval (rc_Gateway runtime)) ::
              (if bool_decide (lifecycleAddr = "") then [] else [StartLifecycle lifecycleAddr]) ++
              [Serve; CloseListener; CloseCluster_]
          end
      end
  end%list.

(** [main] of the coordinator. *)
Definition coordinator_main (host : Host) (lifecycleAddr : string) : list action :=
  match NewStore with
  | inl _ => [OpenStore false; Exit 1]
  | inr store =>
      OpenStore true ::
      match LoadRuntime with
      | inl _ => [Exit 1]
      | inr runtime =>
          match NewWithRuntimeConfig host store runtime with
          | inl _ => [Exit 1]
          | inr control =>
              StartControl control ::
              (if bool_decide (lifecycleAddr = "") then [] else [StartLifecycle lifecycleAddr]) ++
              [CatchSignals; AwaitSignal; CloseControl]
          end
      end
  end%list.
End environment.
End drivers.

(** ** What is published reaches the gateway *)

(** Redis's glob patterns, as far as the subscription uses them: a star, and
    characters that stand for themselves. *)
Fixpoint glob (pattern : string) : string -> bool :=
  match pattern with
  | EmptyString => fun s => match s with EmptyString => true | _ => false end
  | String "*"%char pattern' =>
      fix star (s : string) : bool := glob pattern' s || match s with EmptyString => false | String _ s' => star s' end
  | String c pattern' => fun s => match s with String d s' => Ascii.eqb c d && glob pattern' s' | EmptyString => false end
  end.

(** The messages a subscription gets of a published event: one for each channel and
    pattern that fits. *)
Definition deliveries (su : Subscription) (event : string * string) : list (string * string) :=
  replicate (length (List.filter (String.eqb event.1) (su_channels su)) + length (List.filter (fun p => glob p event.1) (su_patterns su))) event.

(** [eventLoop]: a message, a nil message of the closed channel, or the stop. *)
Inductive loop_input :=
  | LoopMessage (event : string * string)
  | LoopNil
  | LoopStop.

Section gateway.
Context {S : Type} {clients : GatewayNodeClient S}.

Fixpoint eventLoop (inputs : list loop_input) : ST (GwSt S) unit :=
  match inputs with
  | [] => mret tt
  | LoopMessage (channel, payload) :: inputs => _ ← onMessage channel payload; eventLoop inputs
  | LoopNil :: inputs => eventLoop inputs
  | LoopStop :: _ => mret tt
  end.
End gateway.

(** ** Properties: the store *)

Lemma EnvOrAny_default Getenv def keys : def <> "" -> EnvOrAny Getenv def keys <> "".
Proof. intros H. induction keys as [|key keys IH]; cbn; [done|]. by case_bool_decide. Qed.

Section properties.
Context {DB : Type} (Open : string -> option DB) (AutoMigrate : DB -> option DB)
  (limited : PoolLimits -> DB -> option DB) (Ping : DialOptions -> bool) (Getenv : string -> string)
  (decode : RuntimeConfig -> string -> option RuntimeConfig) (tape : nat -> nat) (ReadFile : string -> file).

Abbreviation store := (NewStore Open AutoMigrate limited Ping Getenv).
Abbreviation runtime := (LoadRuntime decode tape ReadFile).

(** A store is made exactly when the database can be opened and migrated and Redis
    answers; it has both connections.  The error that asks for a password never
    occurs: there is always one. *)
Lemma NewStore_spec :
  (forall s, store = inr s <-> exists db db', Open (dsn Getenv) = Some db /\ AutoMigrate db = Some db' /\ Ping (redis_options Getenv) = true /\
     s = mkStoreConn (Some (default db' (limited pool_limits db'))) (Some (redis_options Getenv))) /\
  store <> inl ErrNoPassword.
Proof.
  assert (Hp : DBPassword Getenv <> "") by by apply EnvOrAny_default. unfold NewStore. rewrite bool_decide_eq_false_2 by done. split.
  - intros s. split.
    + destruct (Open _) as [db|] eqn:E1; [|done]. destruct (AutoMigrate db) as [db'|] eqn:E2; [|done].
      destruct (Ping _) eqn:E3; [|done]. cbn. intros [= <-]. eauto 10.
    + intros (db & db' & -> & -> & -> & ->). done.
  - destruct (Open _) as [db|]; [|done]. destruct (AutoMigrate db); [|done]. by destruct (Ping _).
Qed.

(** With a configuration that passed its validation, a coordinator on Redis is
    refused only without a name for the instance; its elector has the configured
    times, and renews its lease before it ends. *)
Lemma NewWithRuntimeConfig_ok host (s : StoreConn) c :
  is_Some (RedisClient (Some s)) -> runtime_ok c ->
  let id := if bool_decide (CoordinatorID Getenv = "") then (fun name => name +:+ "-" +:+ itoa (ho_pid host)) <$> ho_name host
            else Some (CoordinatorID Getenv) in
  match NewWithRuntimeConfig (DB := DB) Getenv tape host s c with
  | inl err => err = ErrElector /\ match id with None => True | Some id => TrimSpace id = "" end
  | inr control => exists e, cn_elector control = Some e /\ ro_TTL (el_options e) = le_LeaseTTL (rc_LeaderElection c) /\
      0 < ro_RenewInterval (el_options e) < ro_TTL (el_options e) /\ el_leader e = false /\
      cn_intervals control = intervals (rc_Coordinator c)
  end.
Proof.
  intros Hr Hc. cbv zeta. unfold NewWithRuntimeConfig. rewrite (proj2 (ValidateRuntime_None tape c) Hc).
  unfold productionElector. rewrite (bool_decide_eq_true_2 _ Hr). cbn [negb].
  destruct (if bool_decide (CoordinatorID Getenv = "") then _ else _) as [id|]; [|done]. cbn [mbind option_bind].
  assert (H1 : 0 < le_LeaseTTL (rc_LeaderElection c)) by (eapply (ro_positive _ Hc); unfold durations; left).
  assert (H2 : 0 < le_RenewInterval (rc_LeaderElection c)) by (eapply (ro_positive _ Hc); unfold durations; right; left).
  assert (H3 : 0 < le_CampaignRetryInterval (rc_LeaderElection c)) by (eapply (ro_positive _ Hc); unfold durations; right; right; left).
  pose proof (ro_renew _ Hc) as H4. unfold election_times, NewRedis. case_bool_decide as Hid; [done|].
  unfold normalized. cbn. rewrite !(proj2 (Z.eqb_neq _ 0)) by lia. cbn. rewrite !(proj2 (Z.leb_gt _ _)) by lia. cbn.
  eexists. split; [done|]. split_and!; done.
Qed.

(** ** Properties: the processes *)

Lemma NewWithRuntimeConfig_runtime host (s : StoreConn) c control :
  NewWithRuntimeConfig (DB := DB) Getenv tape host s c = inr control -> runtime_ok c.
Proof. unfold NewWithRuntimeConfig. destruct (ValidateRuntime tape c) eqn:E; [done|]. intros _. by apply ValidateRuntime_None in E. Qed.

Lemma LoadRuntime_ok c : runtime = inr c -> runtime_ok c.
Proof. apply (proj1 (LoadRuntimeFile_ok decode tape (ReadFile RuntimeConfigPath))). Qed.

(** The gateway serves exactly when its configuration is valid, the databases answer
    and the port is free; it has then started a cluster with the configured timings,
    and closes the listener before the cluster.  Otherwise it exits with code 1, and a cluster it has already
    started is not closed. *)
Lemma gateway_main_spec lifecycleAddr listening :
  let actions := gateway_main Open AutoMigrate limited Ping Getenv decode tape ReadFile lifecycleAddr listening in
  match runtime, store with
  | inr c, inr _ =>
      StartCluster_ (mkGateway newCluster SubscribeEvents (rc_Gateway c)) ∈ actions /\ runtime_ok c /\
      if listening then exists before, actions = (before ++ [Serve; CloseListener; CloseCluster_])%list /\ Exit 1 ∉ actions
      else list.last actions = Some (Exit 1) /\ Serve ∉ actions /\ CloseCluster_ ∉ actions
  | _, _ => list.last actions = Some (Exit 1) /\ Serve ∉ actions
  end.
Proof.
  cbv zeta. unfold gateway_main. destruct runtime as [err|c] eqn:Er; [split; [done|set_solver]|].
  destruct store as [err|s] eqn:Es.
  { destruct (hc_PprofEnabled _); cbn; (split; [done|set_solver]). }
  split; [destruct (hc_PprofEnabled _); set_solver|]. split; [by apply LoadRuntime_ok|].
  destruct listening; cbn [NewClusterWithConfig negb].
  - set (life := if bool_decide (lifecycleAddr = "") then [] else [StartLifecycle lifecycleAddr]). set (pprof := if hc_PprofEnabled _ then _ else _).
    eexists (pprof ++ CatchSignals :: OpenStore true :: StartCluster_ _ :: Listen GatewayAddr true :: RegisterServices _ :: life)%list.
    split; [by rewrite <- app_assoc|]. unfold life, pprof. destruct (hc_PprofEnabled _); case_bool_decide; set_solver.
  - destruct (hc_PprofEnabled _); cbn; (split; [done|]; set_solver).
Qed.

(** The coordinator waits for its signal exactly when the databases answer and it could
    be built from a valid configuration; it releases its lease when the signal comes. *)
Lemma coordinator_main_spec host lifecycleAddr :
  let actions := coordinator_main Open AutoMigrate limited Ping Getenv decode tape ReadFile host lifecycleAddr in
  (exists s c control before, store = inr s /\ runtime = inr c /\ NewWithRuntimeConfig Getenv tape host s c = inr control /\ runtime_ok c /\
     StartControl control ∈ actions /\ actions = (before ++ [CatchSignals; AwaitSignal; CloseControl])%list /\ Exit 1 ∉ actions) \/
  list.last actions = Some (Exit 1) /\ AwaitSignal ∉ actions /\ forall control, StartControl control ∉ actions.
Proof.
  cbv zeta. unfold coordinator_main. destruct store as [err|s] eqn:Es; [right; split; [done|set_solver]|].
  destruct runtime as [err|c] eqn:Er; [right; split; [done|set_solver]|].
  destruct (NewWithRuntimeConfig _ _ host s c) as [err|control] eqn:Ec; [right; split; [done|set_solver]|].
  left. eexists s, c, control, (OpenStore true :: StartControl control :: _)%list. split; [done|]. split; [done|]. split; [done|].
  split; [by apply LoadRuntime_ok|]. split; [set_solver|]. split; [done|]. case_bool_decide; set_solver.
Qed.
End properties.

(** ** Properties: events *)

(** The channels that the program publishes on. *)
Definition program_channel (channel : string) : Prop :=
  channel = "events:global" \/ channel = TopologyEventChannel \/
  (exists mapID, channel = "events:map:" +:+ mapID) \/ (exists username, channel = "events:user:" +:+ username).

Lemma glob_star s : glob "*" s = true.
Proof. cbn. induction s as [|c s IH]; [done|]. by rewrite IH, orb_true_r. Qed.

(** Every event of the program is delivered to a gateway exactly once. *)
Lemma delivered_once channel payload : program_channel channel -> deliveries SubscribeEvents (channel, payload) = [(channel, payload)].
Proof.
  intros [->|[->|[[m ->]|[u ->]]]]; unfold deliveries; try reflexivity.
  - assert (H1 : glob "events:map:*" ("events:map:" +:+ m) = true) by exact (glob_star m).
    assert (H2 : glob "events:user:*" ("events:map:" +:+ m) = false) by reflexivity.
    cbn [SubscribeEvents su_channels su_patterns fst List.filter]. rewrite H1, H2. reflexivity.
  - assert (H1 : glob "events:user:*" ("events:user:" +:+ u) = true) by exact (glob_star u).
    assert (H2 : glob "events:map:*" ("events:user:" +:+ u) = false) by reflexivity.
    cbn [SubscribeEvents su_channels su_patterns fst List.filter]. rewrite H1, H2. reflexivity.
Qed.

Lemma eventLoop_messages {S} {clients : GatewayNodeClient S} events inputs :
  forall s, eventLoop (S := S) ((LoopMessage <$> events) ++ inputs)%list s =
    (_ ← foldM (fun _ e => onMessage e.1 e.2) tt events; eventLoop inputs) s.
Proof.
  induction events as [|[channel payload] events IH]; intros s; [reflexivity|]. cbn. unfold mbind, st_bind in *.
  destruct (onMessage channel payload s) as [[[] s1]|]; [|done]. apply IH.
Qed.

(** What the event loop of a gateway does with the messages its subscription brings is
    exactly one call of the handler for each event published, in order; after the
    stop it does nothing. *)
Lemma published_events_handled {S} {clients : GatewayNodeClient S} events rest s :
  Forall (fun e => program_channel e.1) events ->
  eventLoop (S := S) ((LoopMessage <$> (events ≫= deliveries SubscribeEvents)) ++ LoopStop :: rest)%list s =
    foldM (fun _ e => onMessage e.1 e.2) tt events s.
Proof.
  intros H. rewrite eventLoop_messages. assert ((events ≫= deliveries SubscribeEvents) = events) as ->.
  { induction H as [|[channel payload] events He _ IH]; [done|].
    rewrite bind_cons, IH, delivered_once by done. reflexivity. }
  cbn [eventLoop]. unfold mbind, st_bind. by destruct (foldM _ _ _ s) as [[[] s']|].
Qed.
