(* ===== verification/Envelope.v ===== *)
(** * Frames of the game stream

    The messages of [pb/battle.proto] that travel between a gateway and a terminal
    client.  A oneof is an option of a variant; the message inside a variant may
    be nil. *)

From Stdlib Require Import ZArith Lia String.
From stdpp Require Import base strings list option.
From S2P Require Import Prelude Protocol Maps Authority Wire.

Open Scope Z_scope.

Inductive ErrorCode :=
  | ERROR_CODE_UNSPECIFIED | ERROR_CODE_INVALID_REQUEST | ERROR_CODE_AUTH_FAILED | ERROR_CODE_ROUTE_NOT_READY
  | ERROR_CODE_STALE_ROUTE | ERROR_CODE_COMMAND_REJECTED | ERROR_CODE_INTERNAL.

#[export] Instance ErrorCode_eq_dec : EqDecision ErrorCode.
Proof. solve_decision. Defined.

Record pb_ErrorResponse := mk_pb_ErrorResponse {
  er_Code : ErrorCode;
  er_Message : string;
  er_Retryable : bool
}.

(** A variant of a server frame and what its message holds. *)
Inductive ServerPayload :=
  | ServerEnvelope_Authenticated (authenticated : option (option pb_WorldState))
  | ServerEnvelope_CommandResult (message : option string)
  | ServerEnvelope_State (state : option pb_WorldState)
  | ServerEnvelope_Error (error : option pb_ErrorResponse)
  | ServerEnvelope_Notice (message : option string).

Record pb_ServerEnvelope := mk_pb_ServerEnvelope {
  sve_RequestId : Z;
  sve_Payload : option ServerPayload
}.

Record pb_LoginRequest := mk_pb_LoginRequest {
  lr_Username : string;
  lr_Password : string
}.

Record pb_RegisterRequest := mk_pb_RegisterRequest {
  rr_Username : string;
  rr_Password : string;
  rr_ConfirmPassword : string
}.

Inductive ClientPayload :=
  | ClientEnvelope_Login (login : option pb_LoginRequest)
  | ClientEnvelope_Register (register : option pb_RegisterRequest)
  | ClientEnvelope_QuickEnter (quickEnter : option pb_LoginRequest)
  | ClientEnvelope_Move (move : option pb_Direction)
  | ClientEnvelope_Attack (attack : option unit)
  | ClientEnvelope_AttackBoss (attackBoss : option unit)
  | ClientEnvelope_Heal (heal : option unit)
  | ClientEnvelope_BuyItem (buyItem : option string)
  | ClientEnvelope_SwitchMap (switchMap : option string)
  | ClientEnvelope_Logout (logout : option unit).

Record pb_ClientEnvelope := mk_pb_ClientEnvelope {
  cle_RequestId : Z;
  cle_Payload : option ClientPayload
}.

(** ** Getters of the generated code, which accept a nil frame *)

Definition sve_GetAuthenticated (e : option pb_ServerEnvelope) : option (option pb_WorldState) :=
  match e ≫= sve_Payload with Some (ServerEnvelope_Authenticated a) => a | _ => None end.
Definition sve_GetState (e : option pb_ServerEnvelope) : option pb_WorldState :=
  match e ≫= sve_Payload with Some (ServerEnvelope_State s) => s | _ => None end.
Definition sve_GetCommandResult (e : option pb_ServerEnvelope) : option string :=
  match e ≫= sve_Payload with Some (ServerEnvelope_CommandResult m) => m | _ => None end.
Definition sve_GetError (e : option pb_ServerEnvelope) : option pb_ErrorResponse :=
  match e ≫= sve_Payload with Some (ServerEnvelope_Error r) => r | _ => None end.
Definition sve_GetNotice (e : option pb_ServerEnvelope) : option string :=
  match e ≫= sve_Payload with Some (ServerEnvelope_Notice m) => m | _ => None end.
