(* ===== verification/StreamSender.v ===== *)
(** * The stream sender

    [cmd/gateway/stream_sender.go]: the mailbox between the goroutines that produce
    frames for one client and the goroutine that writes them to the stream.  Each
    method is cut at the points where goroutines can interleave (locks, channel
    operations, the call of [Send]); [sender_step] runs one such piece, and a run
    is any sequence of pieces of any number of producers, the finisher, the aborter
    and the writer. *)

From Stdlib Require Import ZArith Lia String.
From stdpp Require Import base gmap strings list option.
From S2P Require Import Prelude Protocol Maps Authority Wire Envelope.

Open Scope Z_scope.

Definition controlQueueCapacity : nat := 32.

(** ** Versions *)

Record stateVersion := mkStateVersion {
  sv_mapID : string;
  sv_sessionVersion : Z;
  sv_mapEpoch : Z;
  sv_mapVersion : Z
}.

Definition GetMapId (s : pb_WorldState) : string := get "" wmv_Id (wws_Map s).
Definition GetMapVersion (s : pb_WorldState) : Z := get 0 wmv_Version (wws_Map s).

Definition version_of (s : pb_WorldState) : stateVersion :=
  mkStateVersion (GetMapId s) (wws_SessionVersion s) (wws_MapEpoch s) (GetMapVersion s).

Definition stateRegresses (next previous : stateVersion) : bool :=
  if sv_sessionVersion next <? sv_sessionVersion previous then true else
  if sv_sessionVersion previous <? sv_sessionVersion next then false else
  if sv_mapEpoch next <? sv_mapEpoch previous then true else
  if (sv_mapEpoch previous <? sv_mapEpoch next) || negb (bool_decide (sv_mapID next = sv_mapID previous)) then false else
  sv_mapVersion next <? sv_mapVersion previous.

(** ** State *)

(** A goroutine inside a method: holding [controlMu] at the select of
    [EnqueueControl]; in [SubmitState] before its critical section and after it;
    in [Finish] after each of its steps. *)
Inductive producer :=
  | AtSelect (envelope : pb_ServerEnvelope)
  | AtStore (state : pb_WorldState)
  | AtSignal
  | AtClear
  | AtDrain
  | AtClose.

(** The writer: not started, at the three selects of its loop, having received
    the signal, at [Send] (inside [drainControls] or not), in [drainControls],
    returned. *)
Inductive writer :=
  | NotStarted
  | AtControls
  | AtShutdown
  | AtWait
  | AtTake
  | AtSend (envelope : pb_ServerEnvelope) (draining : bool)
  | Draining
  | WriterDone.

(** [streamSender]: [ss_stateReady] is the token in the one-place channel,
    [ss_finished] and [ss_done] tell whether the channels are closed, the latest
    version is there when [hasLatestState] is set. *)
Record streamSender := mkStreamSender {
  ss_controls : list pb_ServerEnvelope;
  ss_stateReady : bool;
  ss_finished : bool;
  ss_done : bool;
  ss_finishOnce : bool;
  ss_acceptingControls : bool;
  ss_pendingState : option pb_WorldState;
  ss_latestState : option stateVersion;
  ss_producers : gmap nat producer;
  ss_writer : writer
}.

Definition set_ss_controls (v : list pb_ServerEnvelope) (s : streamSender) : streamSender :=
  mkStreamSender v (ss_stateReady s) (ss_finished s) (ss_done s) (ss_finishOnce s) (ss_acceptingControls s) (ss_pendingState s) (ss_latestState s) (ss_producers s) (ss_writer s).
Definition set_ss_stateReady (v : bool) (s : streamSender) : streamSender :=
  mkStreamSender (ss_controls s) v (ss_finished s) (ss_done s) (ss_finishOnce s) (ss_acceptingControls s) (ss_pendingState s) (ss_latestState s) (ss_producers s) (ss_writer s).
Definition set_ss_finished (s : streamSender) : streamSender :=
  mkStreamSender (ss_controls s) (ss_stateReady s) true (ss_done s) (ss_finishOnce s) (ss_acceptingControls s) (ss_pendingState s) (ss_latestState s) (ss_producers s) (ss_writer s).
Definition set_ss_done (s : streamSender) : streamSender :=
  mkStreamSender (ss_controls s) (ss_stateReady s) (ss_finished s) true (ss_finishOnce s) (ss_acceptingControls s) (ss_pendingState s) (ss_latestState s) (ss_producers s) (ss_writer s).
Definition set_ss_finishing (s : streamSender) : streamSender :=
  mkStreamSender (ss_controls s) (ss_stateReady s) (ss_finished s) (ss_done s) true false (ss_pendingState s) (ss_latestState s) (ss_producers s) (ss_writer s).
Definition set_ss_pending (p : option pb_WorldState) (l : option stateVersion) (s : streamSender) : streamSender :=
  mkStreamSender (ss_controls s) (ss_stateReady s) (ss_finished s) (ss_done s) (ss_finishOnce s) (ss_acceptingControls s) p l (ss_producers s) (ss_writer s).
Definition set_ss_producers (v : gmap nat producer) (s : streamSender) : streamSender :=
  mkStreamSender (ss_controls s) (ss_stateReady s) (ss_finished s) (ss_done s) (ss_finishOnce s) (ss_acceptingControls s) (ss_pendingState s) (ss_latestState s) v (ss_writer s).
Definition set_ss_writer (v : writer) (s : streamSender) : streamSender :=
  mkStreamSender (ss_controls s) (ss_stateReady s) (ss_finished s) (ss_done s) (ss_finishOnce s) (ss_acceptingControls s) (ss_pendingState s) (ss_latestState s) (ss_producers s) v.

Definition newStreamSender : streamSender := mkStreamSender [] false false false false true None None ∅ NotStarted.

Definition goes_to (i : nat) (p : producer) (s : streamSender) : streamSender := set_ss_producers (<[i := p]> (ss_producers s)) s.
Definition returns (i : nat) (s : streamSender) : streamSender := set_ss_producers (delete i (ss_producers s)) s.

(** [controlMu] is free. *)
Definition holds_controlMu (p : producer) : bool := match p with AtSelect _ => true | _ => false end.
Definition controlMu_free (s : streamSender) : bool :=
  bool_decide (map_Forall (fun _ p => holds_controlMu p = false) (ss_producers s)).

(** ** Producers *)

Definition Start_ (s : streamSender) : streamSender :=
  match ss_writer s with NotStarted => set_ss_writer AtControls s | _ => s end.

(** [EnqueueControl] of a frame that is not nil, until its select; [false] is
    returned once the sender accepts no controls. *)
Definition EnqueueControl_lock (i : nat) (envelope : pb_ServerEnvelope) (s : streamSender) : option streamSender :=
  if negb (controlMu_free s) then None else
  if negb (ss_acceptingControls s) then Some s else Some (goes_to i (AtSelect envelope) s).

(** [case s.controls <- envelope] *)
Definition EnqueueControl_send (i : nat) (s : streamSender) : option (pb_ServerEnvelope * streamSender) :=
  match ss_producers s !! i with
  | Some (AtSelect envelope) =>
      if (length (ss_controls s) <? controlQueueCapacity)%nat
      then Some (envelope, returns i (set_ss_controls (ss_controls s ++ [envelope]) s)) else None
  | _ => None
  end.

(** [case <-s.done] *)
Definition EnqueueControl_done (i : nat) (s : streamSender) : option streamSender :=
  match ss_producers s !! i with
  | Some (AtSelect _) => if ss_done s then Some (returns i s) else None
  | _ => None
  end.

(** [SubmitState] of a converted state, until its critical section. *)
Definition SubmitState_test (i : nat) (protobufState : pb_WorldState) (s : streamSender) : streamSender :=
  if ss_done s || ss_finished s then s else goes_to i (AtStore protobufState) s.

Definition SubmitState_store (i : nat) (s : streamSender) : option (option pb_WorldState * streamSender) :=
  match ss_producers s !! i with
  | Some (AtStore protobufState) =>
      let version := version_of protobufState in
      if match ss_latestState s with Some latest => stateRegresses version latest | None => false end
      then Some (None, returns i s)
      else Some (Some protobufState, goes_to i AtSignal (set_ss_pending (Some protobufState) (Some version) s))
  | _ => None
  end.

Definition SubmitState_signal (i : nat) (s : streamSender) : option streamSender :=
  match ss_producers s !! i with
  | Some AtSignal => Some (returns i (set_ss_stateReady true s))
  | _ => None
  end.

(** [Finish]: the first caller; it waits for [controlMu]. *)
Definition Finish_controls (i : nat) (s : streamSender) : option streamSender :=
  if ss_finishOnce s || negb (controlMu_free s) then None else Some (goes_to i AtClear (set_ss_finishing s)).
Definition Finish_state (i : nat) (s : streamSender) : option streamSender :=
  match ss_producers s !! i with
  | Some AtClear => Some (goes_to i AtDrain (set_ss_pending None (ss_latestState s) s))
  | _ => None
  end.
Definition Finish_drain (i : nat) (s : streamSender) : option streamSender :=
  match ss_producers s !! i with
  | Some AtDrain => Some (goes_to i AtClose (set_ss_stateReady false s))
  | _ => None
  end.
Definition Finish_close (i : nat) (s : streamSender) : option streamSender :=
  match ss_producers s !! i with
  | Some AtClose => Some (returns i (set_ss_finished s))
  | _ => None
  end.

Definition Abort : streamSender -> streamSender := set_ss_done.

(** ** The writer *)

(** The case a select takes, or the outcome of [Send].  When several channels are
    ready the select may take any of them; the default only when none is. *)
Inductive choice :=
  | OnControl | OnDone | OnFinished | OnState | OnDefault | Sent (ok : bool).

Definition takeState (s : streamSender) : option pb_WorldState * streamSender :=
  (ss_pendingState s, set_ss_pending None (ss_latestState s) s).

Definition receive_control (draining : bool) (s : streamSender) : option streamSender :=
  match ss_controls s with
  | envelope :: rest => Some (set_ss_writer (AtSend envelope draining) (set_ss_controls rest s))
  | [] => None
  end.

Definition on_closed (closed : bool) (next : writer) (s : streamSender) : option streamSender :=
  if closed then Some (set_ss_writer next s) else None.

Definition state_frame (state : pb_WorldState) : pb_ServerEnvelope :=
  mk_pb_ServerEnvelope 0 (Some (ServerEnvelope_State (Some state))).

Definition writeLoop_step (c : choice) (s : streamSender) : option streamSender :=
  match ss_writer s, c with
  | AtControls, OnControl => receive_control false s
  | AtControls, OnDefault => match ss_controls s with [] => Some (set_ss_writer AtShutdown s) | _ => None end
  | AtShutdown, OnDone => on_closed (ss_done s) WriterDone s
  | AtShutdown, OnFinished => on_closed (ss_finished s) Draining s
  | AtShutdown, OnDefault => if ss_done s || ss_finished s then None else Some (set_ss_writer AtWait s)
  | AtWait, OnDone => on_closed (ss_done s) WriterDone s
  | AtWait, OnFinished => on_closed (ss_finished s) Draining s
  | AtWait, OnControl => receive_control false s
  | AtWait, OnState => if ss_stateReady s then Some (set_ss_writer AtTake (set_ss_stateReady false s)) else None
  | AtTake, OnDefault =>
      let '(state, s) := takeState s in
      match state with
      | Some state => Some (set_ss_writer (AtSend (state_frame state) false) s)
      | None => Some (set_ss_writer AtControls s)
      end
  | Draining, OnDone => on_closed (ss_done s) WriterDone s
  | Draining, OnControl => receive_control true s
  | Draining, OnDefault =>
      if ss_done s then None else match ss_controls s with [] => Some (set_ss_writer WriterDone s) | _ => None end
  | AtSend _ _, Sent false => Some (set_ss_writer WriterDone (Abort s))
  | AtSend _ draining, Sent true => Some (set_ss_writer (if draining then Draining else AtControls) s)
  | _, _ => None
  end.

(** ** Runs *)

(** A sender with what has happened at its ends: the controls for which
    [EnqueueControl] returned true, the states [SubmitState] kept and the frames
    the stream took, each in order. *)
Record session := mkSession {
  se_sender : streamSender;
  se_accepted : list pb_ServerEnvelope;
  se_kept : list pb_WorldState;
  se_sent : list pb_ServerEnvelope
}.

Inductive label :=
  | DoStart
  | DoEnqueue (i : nat) (envelope : pb_ServerEnvelope)
  | DoEnqueueSend (i : nat)
  | DoEnqueueDone (i : nat)
  | DoSubmit (i : nat) (state : pb_WorldState)
  | DoStore (i : nat)
  | DoSignal (i : nat)
  | DoFinish (i : nat)
  | DoFinishState (i : nat)
  | DoFinishDrain (i : nat)
  | DoFinishClose (i : nat)
  | DoAbort
  | DoWrite (c : choice).

Definition with_sender (t : session) (s : streamSender) : session := mkSession s (se_accepted t) (se_kept t) (se_sent t).

(** A call is entered by a goroutine that is in no other. *)
Definition entered (i : nat) (t : session) (o : option session) : option session :=
  match ss_producers (se_sender t) !! i with None => o | Some _ => None end.

(** The frame the stream takes with this step. *)
Definition frame_sent (c : choice) (s : streamSender) : list pb_ServerEnvelope :=
  match ss_writer s, c with AtSend envelope _, Sent true => [envelope] | _, _ => [] end.

Definition sender_step (l : label) (t : session) : option session :=
  let s := se_sender t in
  match l with
  | DoStart => Some (with_sender t (Start_ s))
  | DoEnqueue i envelope => entered i t (with_sender t <$> EnqueueControl_lock i envelope s)
  | DoEnqueueSend i =>
      match EnqueueControl_send i s with
      | Some (envelope, s') => Some (mkSession s' (se_accepted t ++ [envelope]) (se_kept t) (se_sent t))
      | None => None
      end
  | DoEnqueueDone i => with_sender t <$> EnqueueControl_done i s
  | DoSubmit i state => entered i t (Some (with_sender t (SubmitState_test i state s)))
  | DoStore i =>
      match SubmitState_store i s with
      | Some (kept, s') => Some (mkSession s' (se_accepted t) (se_kept t ++ option_list kept) (se_sent t))
      | None => None
      end
  | DoSignal i => with_sender t <$> SubmitState_signal i s
  | DoFinish i => entered i t (with_sender t <$> Finish_controls i s)
  | DoFinishState i => with_sender t <$> Finish_state i s
  | DoFinishDrain i => with_sender t <$> Finish_drain i s
  | DoFinishClose i => with_sender t <$> Finish_close i s
  | DoAbort => Some (with_sender t (Abort s))
  | DoWrite c =>
      match writeLoop_step c s with
      | Some s' => Some (mkSession s' (se_accepted t) (se_kept t) (se_sent t ++ frame_sent c s))
      | None => None
      end
  end.

Fixpoint run_sender (ls : list label) (t : session) : option session :=
  match ls with
  | [] => Some t
  | l :: ls' => sender_step l t ≫= run_sender ls'
  end.

Definition new_session : session := mkSession newStreamSender [] [] [].
