(* ===== verification/StreamSenderProps.v ===== *)
(** * The stream sender: order, coalescing, shutdown

    Properties of [StreamSender] over all interleavings of its goroutines. *)

From Stdlib Require Import ZArith Lia String.
From stdpp Require Import base sorting gmap strings list option.
From S2P Require Import Prelude Protocol Maps Authority Wire Envelope StreamSender.

Open Scope Z_scope.

#[local] Arguments Nat.ltb : simpl never.
#[local] Arguments controlQueueCapacity : simpl never.

(** ** Frames *)

Definition state_in (e : pb_ServerEnvelope) : option pb_WorldState :=
  match sve_Payload e with Some (ServerEnvelope_State s) => s | _ => None end.
Definition is_control (e : pb_ServerEnvelope) : Prop := state_in e = None.
#[export] Instance is_control_dec e : Decision (is_control e).
Proof. unfold is_control. destruct (state_in e); [by right|by left]. Defined.

Definition controls (l : list pb_ServerEnvelope) : list pb_ServerEnvelope := filter is_control l.
Definition states (l : list pb_ServerEnvelope) : list pb_WorldState := omap state_in l.

Lemma controls_app l l' : controls (l ++ l') = controls l ++ controls l'.
Proof. apply list.filter_app. Qed.
Lemma states_app l l' : states (l ++ l') = states l ++ states l'.
Proof. apply omap_app. Qed.
Lemma control_only e : is_control e -> controls [e] = [e] /\ states [e] = [].
Proof. intros H. unfold controls, states. cbn. rewrite decide_True by done. unfold is_control in H. by rewrite H. Qed.
Lemma state_only s : controls [state_frame s] = [] /\ states [state_frame s] = [s].
Proof. done. Qed.

#[local] Arguments controls : simpl never.
#[local] Arguments states : simpl never.

(** The frame the writer holds. *)
Definition in_hand (w : writer) : list pb_ServerEnvelope := match w with AtSend e _ => [e] | _ => [] end.

(** Nobody passes a frame with a state to [EnqueueControl]. *)
Definition control_label (l : label) : Prop := match l with DoEnqueue _ e => is_control e | _ => True end.

(** ** Steps *)

(** Reduce a step to what it did. *)
Ltac step_inv H :=
  unfold sender_step, entered, EnqueueControl_lock, EnqueueControl_send, EnqueueControl_done, SubmitState_store,
    SubmitState_signal, Finish_controls, Finish_state, Finish_drain, Finish_close, writeLoop_step, receive_control, on_closed, Start_,
    SubmitState_test, Abort, takeState in H;
  cbn in H; repeat (case_match; try discriminate H); cbn in H; simplify_option_eq.

(** What runs keep, for a property kept by each step. *)
Lemma run_keeps (P : session -> Prop) (ok : label -> Prop) :
  (forall l t t', ok l -> P t -> sender_step l t = Some t' -> P t') ->
  forall ls t t', Forall ok ls -> P t -> run_sender ls t = Some t' -> P t'.
Proof.
  intros Hstep. induction ls as [|l ls IH]; intros t t' Hok HP Hrun; cbn in Hrun; [by simplify_eq|].
  apply list.Forall_cons in Hok as [Hl Hls]. destruct (sender_step l t) as [t1|] eqn:Hs; [|done]. eauto.
Qed.

(** ** Shutdown *)

Lemma free_spec s : controlMu_free s = true <-> forall i e, ss_producers s !! i <> Some (AtSelect e).
Proof.
  unfold controlMu_free. rewrite bool_decide_eq_true. split.
  - intros H i e Hi. specialize (H i _ Hi). done.
  - intros H i p Hi. destruct p; try done. by destruct (H i envelope).
Qed.

(** Where goroutines can be, given whether controls are accepted. *)
Definition producer_ok (accepting : bool) (p : producer) : Prop :=
  match p with
  | AtSelect _ => accepting = true
  | AtClear | AtDrain | AtClose => accepting = false
  | AtStore _ | AtSignal => True
  end.

Record shutdown_inv (s : streamSender) : Prop := {
  sh_once : ss_finishOnce s = negb (ss_acceptingControls s);
  sh_producers : map_Forall (fun _ => producer_ok (ss_acceptingControls s)) (ss_producers s);
  sh_finished : ss_finished s = true -> ss_acceptingControls s = false;
  sh_draining : match ss_writer s with Draining | AtSend _ true => ss_finished s = true | _ => True end;
  sh_over : ss_writer s = WriterDone -> ss_done s = false -> ss_finished s = true /\ ss_controls s = [];
  sh_room : (length (ss_controls s) <= controlQueueCapacity)%nat
}.

Lemma sh_new : shutdown_inv newStreamSender.
Proof. by split; cbn; try lia. Qed.

Lemma producers_insert a i p m :
  map_Forall (fun _ => producer_ok a) m -> producer_ok a p -> map_Forall (fun _ => producer_ok a) (<[i := p]> m : gmap nat producer).
Proof. intros. by apply map_Forall_insert_2. Qed.

Lemma producers_delete a i m :
  map_Forall (fun _ => producer_ok a) m -> map_Forall (fun _ => producer_ok a) (delete i m : gmap nat producer).
Proof. intros. by apply map_Forall_delete. Qed.

(** With [controlMu] free and no [Finish] under way, everybody fits a closed queue too. *)
Lemma producers_close m :
  map_Forall (fun _ => producer_ok true) m -> map_Forall (fun _ p => holds_controlMu p = false) m ->
  map_Forall (fun _ => producer_ok false) (m : gmap nat producer).
Proof. intros H1 H2 i p Hi. specialize (H1 i p Hi). specialize (H2 i p Hi). by destruct p. Qed.

Lemma at_select_open s i e : shutdown_inv s -> ss_producers s !! i = Some (AtSelect e) -> ss_acceptingControls s = true.
Proof. intros H Hi. apply (sh_producers s H i _ Hi). Qed.

(** The mailbox is open exactly until [Finish] is entered. *)
Lemma open_not_over s : shutdown_inv s -> ss_acceptingControls s = true -> ss_writer s = WriterDone -> ss_done s = true.
Proof.
  intros H Ha Hw. destruct (ss_done s) eqn:Hd; [done|]. destruct (sh_over s H Hw Hd) as [Hf _].
  apply (sh_finished s H) in Hf. congruence.
Qed.

Ltac flags :=
  repeat match goal with
  | H : _ && _ = true |- _ => apply andb_true_iff in H as [? ?]
  | H : _ || _ = false |- _ => apply orb_false_iff in H as [? ?]
  | H : negb _ = false |- _ => apply negb_false_iff in H
  | H : negb _ = true |- _ => apply negb_true_iff in H
  | H : controlMu_free _ = true |- _ => apply bool_decide_eq_true in H
  | H : (_ <? _)%nat = true |- _ => apply Nat.ltb_lt in H
  end.

Lemma shutdown_step l t t' :
  sender_step l t = Some t' -> shutdown_inv (se_sender t) -> shutdown_inv (se_sender t').
Proof.
  intros Hs Hi. pose proof (fun i e => at_select_open _ i e Hi) as Hsel. pose proof (open_not_over _ Hi) as Hopen.
  destruct Hi as [H1 H2 H3 H4 H5 H6]. destruct t as [[queue ready finished done_ once accepting pending latest ps w] acc kept sent].
  cbn in *. destruct l; step_inv Hs; cbn in *; flags; subst; try (by split);
    repeat match goal with H : ps !! _ = Some _ |- _ => pose proof (H2 _ _ H); revert H end; intros; cbn in *;
    split; cbn; try done; try (apply producers_insert; [assumption || by apply producers_close|done]);
    try (by apply producers_delete); try (rewrite length_app; cbn; lia); try (cbn in *; lia);
    try (intros; intuition congruence).
Qed.

Lemma shutdown_run ls t : Forall control_label ls -> run_sender ls new_session = Some t -> shutdown_inv (se_sender t).
Proof.
  intros Hls. apply (run_keeps (fun t => shutdown_inv (se_sender t)) control_label); [|done|exact sh_new].
  intros l t1 t2 _ H1 H2. by eapply shutdown_step.
Qed.

(** ** Controls *)

(** Everything accepted is sent, in the writer's hand, or in the queue; once the
    writer has stopped after an abort, what is not sent is lost. *)
Record order_inv (t : session) : Prop := {
  or_queue : Forall is_control (ss_controls (se_sender t));
  or_select : map_Forall (fun _ p => match p with AtSelect e => is_control e | _ => True end) (ss_producers (se_sender t));
  or_order : exists rest, se_accepted t = controls (se_sent t) ++ rest /\
    (ss_writer (se_sender t) <> WriterDone \/ ss_done (se_sender t) = false ->
     rest = controls (in_hand (ss_writer (se_sender t))) ++ ss_controls (se_sender t))
}.

Lemma or_new : order_inv new_session.
Proof. split; cbn; [constructor|done|by exists []]. Qed.

Lemma order_step l t t' :
  control_label l -> shutdown_inv (se_sender t) -> order_inv t -> sender_step l t = Some t' -> order_inv t'.
Proof.
  intros Hl Hi [H1 H2 (rest & H3 & H4)] Hs. pose proof (fun i e => at_select_open _ i e Hi) as Hsel.
  pose proof (open_not_over _ Hi) as Hopen. clear Hi.
  destruct t as [[queue ready finished done_ once accepting pending latest ps w] acc kept sent].
  cbn in *. destruct l; step_inv Hs; cbn in *; flags; subst; cbn in *;
    try (split; cbn; [done|done|by exists rest]);
    try (split; cbn; [done|by apply map_Forall_insert_2|by exists rest]);
    try (split; cbn; [done|by apply map_Forall_delete|by exists rest]);
    try (apply list.Forall_cons in H1 as [Hp H1]; destruct (control_only _ Hp) as [Hc _]).
  all: try (split; cbn; [done|done|]; exists rest; rewrite ?app_nil_r; split; [done|intros [|]; try done;
              rewrite H4 by (by left); by rewrite ?Hc]).
  - split; cbn; [by apply list.Forall_app_2; [|constructor; [apply (H2 _ _ H5)|]]|by apply map_Forall_delete|].
    exists (rest ++ [p0]). split; [by rewrite app_assoc|]. intros Hx. by rewrite (H4 Hx), app_assoc.
  - split; cbn; [done..|]. exists queue. split; [|done]. rewrite controls_app, H4 by (by left). by rewrite app_assoc.
  - split; cbn; [done..|]. exists queue. split; [|done]. rewrite controls_app, H4 by (by left). by rewrite app_assoc.
Qed.

Lemma order_run ls t : Forall control_label ls -> run_sender ls new_session = Some t ->
  shutdown_inv (se_sender t) /\ order_inv t.
Proof.
  intros Hls. apply (run_keeps (fun t => shutdown_inv (se_sender t) /\ order_inv t) control_label);
    [|done|by split; [exact sh_new|exact or_new]].
  intros l t1 t2 Hl [H1 H2] Hs. split; [by eapply shutdown_step|by eapply order_step].
Qed.

(** Controls are reliable: under any interleaving of producers, finisher,
    aborter and writer, the controls the stream has taken are a prefix of those
    [EnqueueControl] accepted, in the same order; nothing accepted is missing
    except the frame the writer holds and the queue, which never exceeds its
    capacity, as long as the writer runs; and a writer that ends without an abort
    has sent every accepted control, after which none can be accepted any more. *)
Theorem controls_delivered ls t :
  Forall control_label ls -> run_sender ls new_session = Some t ->
  let s := se_sender t in
  (exists rest, se_accepted t = controls (se_sent t) ++ rest /\
     (ss_writer s <> WriterDone -> rest = controls (in_hand (ss_writer s)) ++ ss_controls s)) /\
  (length (ss_controls s) <= controlQueueCapacity)%nat /\
  (ss_writer s = WriterDone -> ss_done s = false ->
     se_accepted t = controls (se_sent t) /\ ss_acceptingControls s = false /\
     forall i e, ss_producers s !! i <> Some (AtSelect e)).
Proof.
  intros Hls Hrun s. destruct (order_run ls t Hls Hrun) as [Hi [_ _ (rest & Hacc & Hrest)]].
  split_and!; [exists rest; eauto|apply (sh_room s Hi)|]. intros Hw Hd. destruct (sh_over s Hi Hw Hd) as [Hf Hq].
  apply (sh_finished s Hi) in Hf as Ha. split_and!; [|done|].
  - rewrite Hacc, Hrest by (by right). fold s. rewrite Hw, Hq. by rewrite app_nil_r.
  - intros i e He. apply (at_select_open s i e Hi) in He. congruence.
Qed.

(** Two commands are answered while a third arrives during the shutdown. *)
Definition demo_result (id : Z) : pb_ServerEnvelope := mk_pb_ServerEnvelope id (Some (ServerEnvelope_CommandResult (Some "ok"))).
Definition demo_run : list label :=
  [DoStart; DoEnqueue 0 (demo_result 1); DoEnqueueSend 0; DoEnqueue 1 (demo_result 2); DoEnqueueSend 1; DoWrite OnControl;
   DoFinish 0; DoEnqueue 1 (demo_result 3); DoFinishState 0; DoFinishDrain 0; DoFinishClose 0; DoWrite (Sent true);
   DoWrite OnControl; DoWrite (Sent true); DoWrite OnDefault; DoWrite OnFinished; DoWrite OnDefault].

Lemma controls_delivered_witness :
  exists t, run_sender demo_run new_session = Some t /\ se_accepted t = [demo_result 1; demo_result 2] /\
    controls (se_sent t) = [demo_result 1; demo_result 2].
Proof.
  destruct (run_sender demo_run new_session) as [t|] eqn:Hrun; [|vm_compute in Hrun; discriminate Hrun].
  destruct (controls_delivered demo_run t) as (_ & _ & H); [by repeat constructor|exact Hrun|].
  vm_compute in Hrun. injection Hrun as <-. destruct H as [H _]; [reflexivity..|].
  eexists. split; [reflexivity|]. split; [reflexivity|]. rewrite <- H. reflexivity.
Defined.

(** ** States *)

(** A state the sender keeps after another. *)
Definition follows (a b : pb_WorldState) : Prop := stateRegresses (version_of b) (version_of a) = false.

(** What is kept is in order, what is pending is the newest of it, what has been
    taken are some of the rest, and somebody will wake the writer for it. *)
Record state_inv (t : session) : Prop := {
  si_pending : forall p, ss_pendingState (se_sender t) = Some p -> list.last (se_kept t) = Some p;
  si_latest : ss_latestState (se_sender t) = version_of <$> list.last (se_kept t);
  si_order : Sorted follows (se_kept t);
  si_taken : states (se_sent t) ++ states (in_hand (ss_writer (se_sender t))) ++ option_list (ss_pendingState (se_sender t))
             `sublist_of` se_kept t;
  si_wake : is_Some (ss_pendingState (se_sender t)) -> ss_finishOnce (se_sender t) = false ->
    ss_stateReady (se_sender t) = true \/ (exists i, ss_producers (se_sender t) !! i = Some AtSignal)
    \/ ss_writer (se_sender t) = AtTake;
  si_newest : ss_pendingState (se_sender t) = None -> ss_finishOnce (se_sender t) = false ->
    ss_writer (se_sender t) <> WriterDone ->
    list.last (se_kept t) = list.last (states (se_sent t) ++ states (in_hand (ss_writer (se_sender t))))
}.

Lemma si_new : state_inv new_session.
Proof. split; cbn; done. Qed.

Lemma last_snoc_inv {A} (l : list A) a : list.last l = Some a -> exists l', l = l' ++ [a].
Proof. intros H. apply last_Some in H as [l' ->]. eauto. Qed.

Lemma sorted_keep kept p :
  Sorted follows kept -> (forall a, list.last kept = Some a -> follows a p) -> Sorted follows (kept ++ [p]).
Proof.
  intros Hs Hl. apply Sorted_snoc; [done|]. destruct (list.last kept) as [a|] eqn:Hlast.
  - apply last_snoc_inv in Hlast as [l' ->]. constructor. by apply Hl.
  - apply last_None in Hlast as ->. constructor.
Qed.

Lemma sublist_drop_last {A} (a b c l : list A) : a ++ b ++ c `sublist_of` l -> a ++ b `sublist_of` l.
Proof. intros H. etrans; [|exact H]. rewrite app_assoc. apply sublist_inserts_r. done. Qed.

(** The signal of another producer is still there. *)
Lemma wake_insert (ps : gmap nat producer) i p :
  ps !! i = None \/ (exists q, ps !! i = Some q /\ q <> AtSignal) -> (exists j, ps !! j = Some AtSignal) ->
  exists j, <[i := p]> ps !! j = Some AtSignal.
Proof.
  intros Hi [j Hj]. exists j. rewrite lookup_insert_ne; [done|]. intros ->. destruct Hi as [|(q & ? & ?)]; congruence.
Qed.

Lemma wake_delete (ps : gmap nat producer) i q :
  ps !! i = Some q -> q <> AtSignal -> (exists j, ps !! j = Some AtSignal) -> exists j, delete i ps !! j = Some AtSignal.
Proof. intros Hi Hq [j Hj]. exists j. rewrite lookup_delete_ne; [done|]. intros ->. congruence. Qed.

Lemma sublist_drop_mid {A} (a b c l : list A) : a ++ b ++ c `sublist_of` l -> a ++ c `sublist_of` l.
Proof. intros H. etrans; [|exact H]. apply sublist_app; [done|by apply sublist_inserts_l]. Qed.

(** The critical section of [SubmitState], when it keeps the state. *)
Lemma state_store s acc kept sent i p :
  state_inv (mkSession s acc kept sent) ->
  match ss_latestState s with Some latest => stateRegresses (version_of p) latest | None => false end = false ->
  state_inv (mkSession (goes_to i AtSignal (set_ss_pending (Some p) (Some (version_of p)) s)) acc (kept ++ [p]) sent).
Proof.
  intros [H1 H2 H3 H4 H5 _] Hr. cbn in *. split; cbn; [..|done].
  - intros ? [= <-]. by rewrite last_snoc.
  - by rewrite last_snoc.
  - apply sorted_keep; [done|]. intros a Ha. rewrite H2, Ha in Hr. exact Hr.
  - rewrite app_assoc. apply sublist_app; [|done]. by eapply sublist_drop_last.
  - intros _ _. right. left. exists i. by rewrite lookup_insert_eq.
Qed.

Lemma state_step l t t' :
  shutdown_inv (se_sender t) -> order_inv t -> state_inv t -> sender_step l t = Some t' -> state_inv t'.
Proof.
  intros Hi [Hq _ _] Ht Hs. pose proof (sh_once _ Hi) as Honce. pose proof (sh_producers _ Hi) as Hps. clear Hi.
  pose proof Ht as [H1 H2 H3 H4 H5 H6'].
  destruct t as [[queue ready finished done_ once accepting pending latest ps w] acc kept sent].
  cbn in *. destruct l; step_inv Hs; cbn in *; flags; subst; cbn in *;
    try (split; cbn; [done..|intros Hp Ho; destruct (H5 Hp Ho) as [?|[?|?]]; try done; by eauto using wake_insert, wake_delete|intros; by apply H6']);
    try (by apply state_store; [exact Ht|]);
    repeat match goal with H : ps !! _ = Some _ |- _ => pose proof (Hps _ _ H); revert H end; intros; cbn in *; subst.
  all: rewrite ?app_nil_r in *.
  all: try (apply list.Forall_cons in Hq as [Hp Hq]; destruct (control_only _ Hp) as [_ Hc]).
  all: try (split; cbn; [done..|rewrite ?Hc, ?states_app, <- ?app_assoc, ?app_nil_r; first [exact H4 | by eapply sublist_drop_mid | by eapply sublist_drop_last]|
    intros Hx Ho; destruct (H5 Hx Ho) as [?|[?|?]]; try done; eauto|
    intros; try done; rewrite ?Hc, ?states_app, ?app_nil_r in *; by apply H6']).
  - split; cbn; [intros; rewrite Heqo; auto|by rewrite Heqo|done|done| |intros; rewrite Heqo; auto].
    intros Hx Ho. destruct (H5 Hx Ho) as [?|[?|?]]; eauto using wake_delete.
  - split; cbn; done.
  - split; cbn; [done..| |by intros []|done]. rewrite !app_nil_r. by eapply sublist_drop_last.
  - split; cbn; [done|by rewrite (H1 _ eq_refl)|done|by rewrite (proj2 (state_only p))|by intros []|].
    intros. by rewrite (H1 _ eq_refl), (proj2 (state_only p)), last_snoc.
Qed.

Lemma state_run ls t : Forall control_label ls -> run_sender ls new_session = Some t -> state_inv t.
Proof.
  intros Hls Hrun. eapply (run_keeps (fun t => shutdown_inv (se_sender t) /\ order_inv t /\ state_inv t) control_label);
    [|exact Hls| |exact Hrun]; [|by split; [exact sh_new|split; [exact or_new|exact si_new]]].
  intros l t1 t2 Hl (H1 & H2 & H3) Hs. split_and!; [by eapply shutdown_step|by eapply order_step|by eapply state_step].
Qed.

(** The order by session, epoch and map version, which is total and transitive;
    [stateRegresses] follows it as long as a session stays on one map. *)
Definition key_le (a b : pb_WorldState) : Prop :=
  wws_SessionVersion a < wws_SessionVersion b \/
  (wws_SessionVersion a = wws_SessionVersion b /\
   (wws_MapEpoch a < wws_MapEpoch b \/ (wws_MapEpoch a = wws_MapEpoch b /\ GetMapVersion a <= GetMapVersion b))).

#[export] Instance key_le_trans : Transitive key_le.
Proof. unfold Transitive, key_le. intros. lia. Qed.

Definition one_map_per_session (l : list pb_WorldState) : Prop :=
  forall a b, a ∈ l -> b ∈ l -> wws_SessionVersion a = wws_SessionVersion b -> GetMapId a = GetMapId b.

Lemma follows_key a b : (wws_SessionVersion a = wws_SessionVersion b -> GetMapId a = GetMapId b) -> follows a b -> key_le a b.
Proof.
  unfold follows, stateRegresses, key_le, version_of. cbn. intros Hm H.
  repeat (case_match; try discriminate H); rewrite ?Z.ltb_lt, ?Z.ltb_ge in *; try lia.
  apply orb_true_iff in H3 as [H3|H3]; [apply Z.ltb_lt in H3; lia|].
  apply negb_true_iff, bool_decide_eq_false in H3. destruct H3. symmetry. apply Hm. lia.
Qed.

Lemma key_follows a b : (wws_SessionVersion a = wws_SessionVersion b -> GetMapId a = GetMapId b) -> key_le a b -> follows a b.
Proof.
  unfold follows, stateRegresses, key_le, version_of. cbn. intros Hm H.
  repeat case_match; rewrite ?Z.ltb_lt, ?Z.ltb_ge in *; try done; lia.
Qed.

Lemma kept_sorted l : one_map_per_session l -> Sorted follows l -> StronglySorted key_le l.
Proof.
  intros Hm Hs. apply Sorted_StronglySorted; [exact key_le_trans|].
  induction Hs as [|a l Hs IH Hhd]; [constructor|]. constructor; [apply IH; intros x y ? ?; apply Hm; by right|].
  destruct Hhd as [|b l Hab]; [constructor|]. constructor. apply follows_key; [apply Hm; [by left|right; by left]|done].
Qed.

Lemma sublist_sorted {A} (R : A -> A -> Prop) l l' : l' `sublist_of` l -> StronglySorted R l -> StronglySorted R l'.
Proof.
  induction 1 as [|x l1 l2 Hsub IH|x l1 l2 Hsub IH]; intros Hs; [done|..].
  - apply StronglySorted_cons in Hs as [Hx Hs]. apply StronglySorted_cons. split; [|by apply IH].
    rewrite list.Forall_forall in *. intros y Hy. apply Hx. eapply elem_of_submseteq; [exact Hy|by apply sublist_submseteq].
  - apply StronglySorted_cons in Hs as [_ Hs]. by apply IH.
Qed.

(** C35. States are merged, never reordered: under any interleaving, the states sent
    are some of those kept, in the same order, each once; the pending state is the
    newest kept, and while nobody finishes, somebody is about to wake the writer
    for it; with nothing pending, the newest kept state is the last one taken.  As
    long as a session version belongs to one map, what is sent never regresses. *)
Theorem states_merged ls t :
  Forall control_label ls -> run_sender ls new_session = Some t ->
  let s := se_sender t in let taken := states (se_sent t) ++ states (in_hand (ss_writer s)) in
  taken `sublist_of` se_kept t /\
  (forall p, ss_pendingState s = Some p -> list.last (se_kept t) = Some p /\
     (ss_finishOnce s = false -> ss_stateReady s = true \/ (exists i, ss_producers s !! i = Some AtSignal) \/ ss_writer s = AtTake)) /\
  (ss_pendingState s = None -> ss_finishOnce s = false -> ss_writer s <> WriterDone ->
     list.last (se_kept t) = list.last taken) /\
  (one_map_per_session (se_kept t) -> StronglySorted follows taken).
Proof.
  intros Hls Hrun s taken. destruct (state_run ls t Hls Hrun) as [H1 H2 H3 H4 H5 H6].
  assert (Hsub : taken `sublist_of` se_kept t) by (by eapply sublist_drop_last).
  split_and!; [done|intros p Hp; split; [by apply H1|intros; apply H5; by eauto]|done|].
  intros Hm. pose proof (sublist_sorted _ _ _ Hsub (kept_sorted _ Hm H3)) as Hs.
  assert (Hin : forall a, a ∈ taken -> a ∈ se_kept t).
  { intros a Ha. eapply elem_of_submseteq; [exact Ha|by apply sublist_submseteq]. }
  clear Hsub. induction Hs as [|a l Hs IH Hall]; [constructor|]. constructor; [apply IH; intros; apply Hin; by right|].
  rewrite list.Forall_forall in *. intros b Hb. apply key_follows; [|by apply Hall].
  apply Hm; apply Hin; [by left|by right].
Qed.

Definition demo_view (v : Z) : pb_WorldState :=
  mk_pb_WorldState None (Some (mk_pb_MapView "cave" "" "" 0 0 [] [] [] [] v)) [] [] None [] 1 5 2.
(** The second state arrives before the first is taken, the third is old. *)
Definition demo_states : list label :=
  [DoStart; DoSubmit 0 (demo_view 7); DoStore 0; DoSubmit 1 (demo_view 8); DoSignal 0; DoStore 1; DoSubmit 2 (demo_view 6);
   DoStore 2; DoSignal 1; DoWrite OnDefault; DoWrite OnDefault; DoWrite OnState; DoWrite OnDefault; DoWrite (Sent true)].

Lemma states_merged_witness :
  exists t, run_sender demo_states new_session = Some t /\ se_kept t = [demo_view 7; demo_view 8] /\
    states (se_sent t) ++ states (in_hand (ss_writer (se_sender t))) `sublist_of` se_kept t /\
    list.last (se_kept t) = list.last (states (se_sent t) ++ states (in_hand (ss_writer (se_sender t)))).
Proof.
  destruct (run_sender demo_states new_session) as [t|] eqn:Hrun; [|vm_compute in Hrun; discriminate Hrun].
  destruct (states_merged demo_states t) as (H1 & _ & H2 & _); [by repeat constructor|exact Hrun|].
  exists t. vm_compute in Hrun. injection Hrun as <-.
  split; [reflexivity|]. split; [reflexivity|]. split; [exact H1|]. apply H2; [reflexivity|reflexivity|discriminate].
Defined.

(** ** The end of the writer *)

(** Steps the writer has left at most, once the sender is finished. *)
Definition writer_rank (w : writer) : nat :=
  match w with
  | NotStarted => 7 | AtWait => 6 | AtTake => 5 | AtSend _ false => 4 | AtControls => 3
  | AtShutdown => 2 | AtSend _ true => 2 | Draining => 1 | WriterDone => 0
  end.
Definition work (s : streamSender) : nat := (writer_rank (ss_writer s) + 2 * length (ss_controls s))%nat.

Definition is_write (l : label) : Prop := match l with DoWrite _ => True | _ => False end.
#[export] Instance is_write_dec l : Decision (is_write l).
Proof. destruct l; first [left; exact I | right; intros []]. Defined.

Lemma finished_step l t t' :
  shutdown_inv (se_sender t) -> ss_finished (se_sender t) = true -> sender_step l t = Some t' ->
  ss_finished (se_sender t') = true /\
  (work (se_sender t') + (if decide (is_write l) then 1 else 0) <= work (se_sender t))%nat.
Proof.
  intros Hi Hf Hs. pose proof (fun i e => at_select_open _ i e Hi) as Hsel. pose proof (sh_finished _ Hi Hf) as Ha.
  pose proof (sh_draining _ Hi) as Hd. clear Hi.
  destruct t as [[queue ready finished done_ once accepting pending latest ps w] acc kept sent]. unfold work.
  cbn in *. subst. destruct l; step_inv Hs; cbn in *; flags; subst; cbn; try (split; [done|lia]); try done.
  all: match goal with H : _ !! _ = Some (AtSelect _) |- _ => by apply Hsel in H end.
Qed.

(** A finished sender's writer always has a next step. *)
Lemma finished_not_stuck t :
  ss_finished (se_sender t) = true -> ss_writer (se_sender t) <> NotStarted -> ss_writer (se_sender t) <> WriterDone ->
  exists c t', sender_step (DoWrite c) t = Some t'.
Proof.
  destruct t as [[queue ready finished done_ once accepting pending latest ps w] acc kept sent].
  cbn. intros -> H1 H2. unfold sender_step, writeLoop_step. cbn.
  destruct w; try done.
  - destruct queue; [exists OnDefault|exists OnControl]; by eexists.
  - exists OnFinished; by eexists.
  - exists OnFinished; by eexists.
  - exists OnDefault; destruct pending; by eexists.
  - exists (Sent true); by eexists.
  - destruct done_; [exists OnDone; by eexists|]. destruct queue; [exists OnDefault|exists OnControl]; by eexists.
Qed.

(** Finishing ends the writer: once [Finish] has closed the sender, whatever
    the other goroutines still do, the writer takes at most as many further steps
    as [work] says (71 at most), and it is never blocked before it returns. *)
Theorem finished_writer_ends ls t ls' t' :
  Forall control_label ls -> run_sender ls new_session = Some t -> ss_finished (se_sender t) = true ->
  run_sender ls' t = Some t' ->
  (length (filter is_write ls') + work (se_sender t') <= work (se_sender t) <= 71)%nat /\
  (ss_writer (se_sender t') <> NotStarted -> ss_writer (se_sender t') <> WriterDone ->
   exists c t'', sender_step (DoWrite c) t' = Some t'').
Proof.
  intros Hls Hrun Hf Hrun'. pose proof (shutdown_run ls t Hls Hrun) as Hi.
  assert (H : ss_finished (se_sender t') = true /\ (length (filter is_write ls') + work (se_sender t') <= work (se_sender t))%nat).
  { clear Hrun Hls. revert t Hi Hf Hrun'. induction ls' as [|l ls' IH]; intros t Hi Hf Hrun'; cbn in Hrun'.
    - simplify_eq. split; [done|]. cbn. lia.
    - destruct (sender_step l t) as [t1|] eqn:Hs; [|done]. cbn in Hrun'.
      destruct (finished_step l t t1 Hi Hf Hs) as [Hf1 Hw]. destruct (IH t1 (shutdown_step _ _ _ Hs Hi) Hf1 Hrun') as [H1 H2].
      split; [done|]. rewrite filter_cons. destruct (decide (is_write l)); cbn; lia. }
  destruct H as [Hf' Hw]. split; [|by apply finished_not_stuck]. split; [done|].
  unfold work. pose proof (sh_room _ Hi) as Hr. unfold controlQueueCapacity in Hr.
  assert (writer_rank (ss_writer (se_sender t)) <= 7)%nat by (destruct (ss_writer (se_sender t)) as [| | | | |? []| |]; cbn; lia). lia.
Qed.

(** After the eleventh step of [demo_run] the sender is finished; the rest is the writer's. *)
Lemma finished_writer_ends_witness :
  exists t t', run_sender (take 11 demo_run) new_session = Some t /\ run_sender (drop 11 demo_run) t = Some t' /\
    (length (filter is_write (drop 11 demo_run)) + work (se_sender t') <= work (se_sender t) <= 71)%nat.
Proof.
  destruct (run_sender (take 11 demo_run) new_session) as [t|] eqn:H1; [|vm_compute in H1; discriminate H1].
  destruct (run_sender (drop 11 demo_run) t) as [t'|] eqn:H2;
    [|vm_compute in H1; injection H1 as <-; vm_compute in H2; discriminate H2].
  exists t, t'. split; [reflexivity|]. split; [exact H2|].
  destruct (finished_writer_ends (take 11 demo_run) t (drop 11 demo_run) t') as [H _];
    [by repeat constructor|exact H1| |exact H2|exact H].
  vm_compute in H1. injection H1 as <-. reflexivity.
Defined.

(** ** Aborting *)

(** The steps that send the whole queue. *)
Definition send_all (l : list pb_ServerEnvelope) : list label := l ≫= (fun _ => [DoWrite OnControl; DoWrite (Sent true)]).

Lemma run_app ls ls' t : run_sender (ls ++ ls') t = run_sender ls t ≫= run_sender ls'.
Proof.
  revert t. induction ls as [|l ls IH]; intros t; [done|]. cbn. destruct (sender_step l t); cbn; [apply IH|done].
Qed.

Lemma run_send_all l : forall t, ss_controls (se_sender t) = l -> ss_writer (se_sender t) = AtControls ->
  exists t', run_sender (send_all l) t = Some t' /\ se_sent t' = se_sent t ++ l.
Proof.
  induction l as [|e l IH]; intros t Hl Hw; [exists t; by rewrite app_nil_r|].
  destruct t as [[queue ready finished done_ once accepting pending latest ps w] acc kept sent]. cbn in *. subst.
  edestruct (IH (mkSession (mkStreamSender l ready finished done_ once accepting pending latest ps AtControls) acc kept (sent ++ [e])))
    as (t' & Hrun & Hsent); [done|done|].
  exists t'. unfold writeLoop_step, receive_control. cbn. rewrite app_nil_r. split; [exact Hrun|].
  rewrite Hsent. cbn. by rewrite <- app_assoc.
Qed.

(** Aborting does not stop the writer at once: when [Abort] is called while the
    writer is at the top of its loop and controls are queued, the only step the
    writer can take is to send the next of them, and with a stream that still takes
    frames the whole queue is sent before the writer looks at [done]. *)
Theorem abort_still_sends t e rest :
  ss_writer (se_sender t) = AtControls -> ss_controls (se_sender t) = e :: rest ->
  exists aborted, sender_step DoAbort t = Some aborted /\ ss_done (se_sender aborted) = true /\
    (forall c t', sender_step (DoWrite c) aborted = Some t' -> c = OnControl /\ ss_writer (se_sender t') = AtSend e false) /\
    exists t', run_sender (send_all (e :: rest)) aborted = Some t' /\ se_sent t' = se_sent t ++ e :: rest.
Proof.
  intros Hw Hq. destruct t as [[queue ready finished done_ once accepting pending latest ps w] acc kept sent].
  cbn in Hw, Hq. subst.
  exists (mkSession (mkStreamSender (e :: rest) ready finished true once accepting pending latest ps AtControls) acc kept sent).
  split; [reflexivity|]. split; [reflexivity|]. split.
  - intros c t' Hs. step_inv Hs. done.
  - by apply (run_send_all (e :: rest) (mkSession (mkStreamSender (e :: rest) ready finished true once accepting pending latest ps AtControls) acc kept sent)).
Qed.

Lemma abort_still_sends_witness :
  exists t aborted t', run_sender [DoStart; DoEnqueue 0 (demo_result 1); DoEnqueueSend 0] new_session = Some t /\
    sender_step DoAbort t = Some aborted /\
    run_sender (send_all [demo_result 1]) aborted = Some t' /\ se_sent t' = [demo_result 1].
Proof.
  destruct (abort_still_sends (mkSession (mkStreamSender [demo_result 1] false false false false true None None
    (delete 0%nat (<[0%nat := AtSelect (demo_result 1)]> ∅)) AtControls) [demo_result 1] [] [])
    (demo_result 1) []) as (aborted & Ha & _ & _ & t' & Hrun & Hsent); [reflexivity..|].
  eexists _, aborted, t'. split; [reflexivity|]. split; [exact Ha|]. split; [exact Hrun|exact Hsent].
Defined.
