(* ===== verification/Client.v ===== *)
(** * The terminal client

    [cmd/client/ui.go] and [client.go]: which states are applied, what the keys send
    and how frames are handled.  The package's variables are a record; the screen is
    in [ClientScreen], the process around it in [ClientMain]. *)

From Stdlib Require Import ZArith Lia String Ascii.
From stdpp Require Import base gmap strings list option.
From S2P Require Import Prelude Protocol Maps Authority Wire NodeWire Envelope StreamSender.

Open Scope Z_scope.
Open Scope go_scope.

(** ** Colours *)

Definition esc (s : string) : string := String (ascii_of_nat 27) s.
Definition colorReset : string := esc "[0m".
Definition colorBold : string := esc "[1m".
Definition colorDim : string := esc "[2m".
Definition colorCyan : string := esc "[38;5;51m".
Definition colorGold : string := esc "[38;5;220m".
Definition colorOrange : string := esc "[38;5;208m".
Definition colorRed : string := esc "[38;5;196m".
Definition colorGreen : string := esc "[38;5;82m".
Definition colorGray : string := esc "[38;5;245m".
Definition colorBlue : string := esc "[38;5;39m".
Definition bgPanel : string := esc "[48;5;235m".

(** ** State *)

(** The variables guarded by [uiMu]. *)
Record UI := mkUI {
  ui_current : option pb_WorldState;
  ui_clientNotes : list string;
  ui_shopOpen : bool
}.

Definition initial_UI : UI := mkUI None [] false.

(** ** Which states are applied *)

Definition shouldApplyState (current next : option pb_WorldState) : bool :=
  match next with
  | None => false
  | Some n =>
      match current with
      | None => true
      | Some c =>
          if negb (wws_SessionVersion n =? wws_SessionVersion c) then wws_SessionVersion c <? wws_SessionVersion n else
          if negb (wws_TopologyVersion n =? wws_TopologyVersion c) then wws_TopologyVersion c <? wws_TopologyVersion n else
          if negb (wws_MapEpoch n =? wws_MapEpoch c) then wws_MapEpoch c <? wws_MapEpoch n else
          if negb (bool_decide (GetMapId n = GetMapId c)) then true else
          GetMapVersion c <=? GetMapVersion n
      end
  end.

Definition setState (state : option pb_WorldState) (u : UI) : UI := mkUI state (ui_clientNotes u) (ui_shopOpen u).
Definition applyState (state : option pb_WorldState) (u : UI) : bool * UI :=
  if negb (shouldApplyState (ui_current u) state) then (false, u) else (true, setState state u).
Definition setShopOpen (open : bool) (u : UI) : UI := mkUI (ui_current u) (ui_clientNotes u) open.

Definition shouldSuppressClientNote (text : string) : bool :=
  existsb (fun note => bool_decide (text = note))
    ["向上移动"; "向下移动"; "向左移动"; "向右移动"; "发起近战攻击"; "使用药剂"; "挑战世界首领";
     "切换到青岚要塞"; "切换到玄矿地窟"; "切换到残星遗迹"; "购买药剂"; "强化武器"].

Definition addClientNote (text : string) (u : UI) : UI :=
  if shouldSuppressClientNote text then u else
  let clientNotes := ui_clientNotes u ++ [text] in
  mkUI (ui_current u)
    (if (5 <? length clientNotes)%nat then drop (length clientNotes - 5) clientNotes else clientNotes) (ui_shopOpen u).

(** ** Frames from the gateway *)

(** The generated [String] method of the enumeration. *)
Definition code_name (code : ErrorCode) : string :=
  match code with
  | ERROR_CODE_UNSPECIFIED => "ERROR_CODE_UNSPECIFIED"
  | ERROR_CODE_INVALID_REQUEST => "ERROR_CODE_INVALID_REQUEST"
  | ERROR_CODE_AUTH_FAILED => "ERROR_CODE_AUTH_FAILED"
  | ERROR_CODE_ROUTE_NOT_READY => "ERROR_CODE_ROUTE_NOT_READY"
  | ERROR_CODE_STALE_ROUTE => "ERROR_CODE_STALE_ROUTE"
  | ERROR_CODE_COMMAND_REJECTED => "ERROR_CODE_COMMAND_REJECTED"
  | ERROR_CODE_INTERNAL => "ERROR_CODE_INTERNAL"
  end.

Definition formatGatewayError (requestID : Z) (responseError : option pb_ErrorResponse) : string :=
  match responseError with
  | None => "网关返回未知错误"
  | Some e =>
      let prefix := if requestID =? 0 then "网关错误" else "指令 #" +:+ itoa requestID in
      let message := if bool_decide (er_Message e = "") then code_name (er_Code e) else er_Message e in
      if er_Retryable e then prefix +:+ "：" +:+ message +:+ "（可重试）" else prefix +:+ "：" +:+ message
  end.

Definition handleServerEnvelope (envelope : option pb_ServerEnvelope) (u : UI) : UI :=
  match envelope with
  | None => u
  | Some e =>
      match sve_GetAuthenticated envelope with
      | Some authenticated => (applyState authenticated u).2
      | None =>
      match sve_GetState envelope with
      | Some state => (applyState (Some state) u).2
      | None =>
      match sve_GetCommandResult envelope with
      | Some message => addClientNote ("指令 #" +:+ itoa (sve_RequestId e) +:+ " 已确认：" +:+ message) u
      | None =>
      match sve_GetError envelope with
      | Some responseError => addClientNote (formatGatewayError (sve_RequestId e) (Some responseError)) u
      | None =>
      match sve_GetNotice envelope with
      | Some message => addClientNote message u
      | None => u
      end end end end end
  end.

(** ** Commands *)

Definition moveCommand (direction : pb_Direction) : ClientPayload := ClientEnvelope_Move (Some direction).
Definition attackCommand : ClientPayload := ClientEnvelope_Attack (Some tt).
Definition attackBossCommand : ClientPayload := ClientEnvelope_AttackBoss (Some tt).
Definition healCommand : ClientPayload := ClientEnvelope_Heal (Some tt).
Definition buyItemCommand (item : string) : ClientPayload := ClientEnvelope_BuyItem (Some item).
Definition switchMapCommand (mapID : string) : ClientPayload := ClientEnvelope_SwitchMap (Some mapID).
Definition logoutCommand : ClientPayload := ClientEnvelope_Logout (Some tt).

Definition key_in (key : Z) (keys : string) : bool :=
  existsb (fun c => key =? Z.of_nat (nat_of_ascii c)) (list_ascii_of_string keys).

(** The command (none for closing the shop), its note, and whether the key means
    anything. *)
Definition commandForKey (key : Z) (shop : bool) : option ClientPayload * string * bool :=
  if shop then
    if key_in key "pP" || (key =? 27) then (None, "", true) else
    if key_in key "1" then (Some (buyItemCommand "potion"), "购买药剂", true) else
    if key_in key "2" then (Some (buyItemCommand "weapon"), "强化武器", true) else
    (None, "", false)
  else
    if key_in key "wW" then (Some (moveCommand DIRECTION_UP), "向上移动", true) else
    if key_in key "sS" then (Some (moveCommand DIRECTION_DOWN), "向下移动", true) else
    if key_in key "aA" then (Some (moveCommand DIRECTION_LEFT), "向左移动", true) else
    if key_in key "dD" then (Some (moveCommand DIRECTION_RIGHT), "向右移动", true) else
    if key_in key "jJfF" then (Some attackCommand, "发起近战攻击", true) else
    if key_in key "kKhH" then (Some healCommand, "使用药剂", true) else
    if key_in key "bB" then (Some attackBossCommand, "挑战世界首领", true) else
    if key_in key "1" then (Some (switchMapCommand "green"), "切换到青岚要塞", true) else
    if key_in key "2" then (Some (switchMapCommand "cave"), "切换到玄矿地窟", true) else
    if key_in key "3" then (Some (switchMapCommand "ruins"), "切换到残星遗迹", true) else
    (None, "", false).

Definition sendPlayerCommand (nextRequestID : Z) (command : ClientPayload) : pb_ClientEnvelope * Z :=
  let requestID := nextRequestID +u 1 in (mk_pb_ClientEnvelope requestID (Some command), requestID).

Definition authModeLogin : string := "login".
Definition authModeRegister : string := "register".

Definition authRequest (requestID : Z) (mode username password confirm : string) : pb_ClientEnvelope :=
  mk_pb_ClientEnvelope requestID (Some
    (if bool_decide (mode = authModeRegister)
     then ClientEnvelope_Register (Some (mk_pb_RegisterRequest username password confirm))
     else ClientEnvelope_Login (Some (mk_pb_LoginRequest username password)))).

(** What [auth] makes of the reply: the state, or the text of an error. *)
Definition auth_reply (reply : option pb_ServerEnvelope) : string + pb_WorldState :=
  match sve_GetError reply with
  | Some responseError => inl (formatGatewayError (get 0 sve_RequestId reply) (Some responseError))
  | None =>
      match sve_GetAuthenticated reply with
      | Some (Some state) => inr state
      | _ => inl "网关返回了无效认证响应"
      end
  end.
