(* ===== verification/ClientScreen.v ===== *)
(** * The client's screen

    [cmd/client/ui.go]: the lines drawn from a state.  [None] is a run-time panic:
    an assignment outside the grid, or a negative count given to [strings.Repeat]. *)

From Stdlib Require Import ZArith Lia String Ascii.
From stdpp Require Import base gmap strings list option.
From S2P Require Import Prelude Protocol Maps Authority Wire NodeWire Envelope StreamSender Client.

Open Scope Z_scope.
Open Scope go_scope.

(** ** [fmt] and [strings] *)

Definition spaces (n : nat) : string := String.string_of_list_ascii (replicate n " "%char).
Definition rune_count (s : string) : nat := length (runes s).
(** [%-ns] and [%ns] of a string; numbers are padded the same way. *)
Definition pad_right (n : nat) (s : string) : string := s +:+ spaces (n - rune_count s).
Definition pad_left (n : nat) (s : string) : string := spaces (n - rune_count s) +:+ s.

Fixpoint copies (n : nat) (s : string) : string := match n with O => "" | S n => s +:+ copies n s end.
(** [strings.Repeat] *)
Definition Repeat (s : string) (count : Z) : option string := if count <? 0 then None else Some (copies (Z.to_nat count) s).

(** ** Panels *)

Definition panelTitle (title : string) : string := bgPanel +:+ colorBold +:+ " " +:+ title +:+ " " +:+ colorReset.
Definition panelLine (label value : string) : string := colorDim +:+ pad_right 6 (label +:+ "：") +:+ colorReset +:+ " " +:+ value.

Definition hpBar (hp maxHP width : Z) (color : string) : option string :=
  let maxHP := if maxHP <=? 0 then 1 else maxHP in
  let hp := if hp <? 0 then 0 else hp in
  let filled := Z.quot (hp *i width) maxHP in
  full ← Repeat "█" filled;
  empty ← Repeat "░" (width -i filled);
  Some ("[" +:+ color +:+ full +:+ colorGray +:+ empty +:+ colorReset +:+ "] " +:+ pad_left 4 (itoa hp) +:+ "/"
          +:+ pad_right 4 (itoa maxHP) +:+ colorReset).

Definition paintCell (cell : rune) : string :=
  if cell =? 35 then colorGray +:+ "▓" +:+ colorReset else
  if cell =? 36 then colorGold +:+ "✦" +:+ colorReset else
  if cell =? 110 then colorOrange +:+ "♞" +:+ colorReset else
  if cell =? 98 then colorRed +:+ colorBold +:+ "♛" +:+ colorReset else
  if cell =? 111 then colorDim +:+ "◉" +:+ colorReset else
  if cell =? 64 then colorCyan +:+ colorBold +:+ "◆" +:+ colorReset else
  if cell =? 112 then colorBlue +:+ "◎" +:+ colorReset else
  if cell =? 120 then colorDim +:+ "☓" +:+ colorReset else
  colorDim +:+ "·" +:+ colorReset.

Definition renderBanner (title subtitle : string) : string :=
  let newline := String (ascii_of_nat 10) "" in
  let fill s := spaces (Z.to_nat (Z.max 0 (74 - Z.of_nat (rune_count s)))) in
  colorBold +:+ colorGold +:+ "╔══════════════════════════════════════════════════════════════════════════════╗" +:+ newline +:+
  "║ " +:+ title +:+ fill title +:+ "║" +:+ newline +:+
  "║ " +:+ colorReset +:+ colorDim +:+ subtitle +:+ colorGold +:+ fill subtitle +:+ "║" +:+ newline +:+
  "╚══════════════════════════════════════════════════════════════════════════════╝" +:+ colorReset.

(** ** The map *)

Definition bossSiteOnMap (state : pb_WorldState) : option (option pb_BossSite) :=
  List.find (fun site => bool_decide (get "" wbs_MapId site = GetMapId state)) (get [] wbv_Sites (wws_Boss state)).

Definition inBounds (g : grid) (x y : Z) : bool :=
  (0 <=? y) && (y <? zlen g) && (0 <=? x) && match row_len g y with Some n => x <? n | None => false end.

(** [if inBounds(grid, x, y) { grid[y][x] = c }] *)
Definition plot (x y : Z) (c : rune) (g : grid) : option grid := if inBounds g x y then set_cell y x c g else Some g.

Definition boss_alive (state : pb_WorldState) : bool := get false wbv_Alive (wws_Boss state).
Definition self_name (state : pb_WorldState) : string := get "" wpv_Username (wws_Self state).

Definition plot_boss (state : pb_WorldState) (g : grid) : option grid :=
  match bossSiteOnMap state with
  | Some site => plot (get 0 wbs_X site) (get 0 wbs_Y site) (if boss_alive state then 98 else 111) g
  | None => Some g
  end.

Definition player_cell (state : pb_WorldState) (player : option pb_PlayerView) : rune :=
  if bool_decide (get "" wpv_Username player = self_name state) then 64 else
  if negb (get false wpv_Alive player) then 120 else 112.

Definition plot_units (state : pb_WorldState) : option grid :=
  let mapView := wws_Map state in
  let g := runes <$> get [] wmv_Terrain mapView in
  g ← foldO (fun g t => plot (get 0 wtv_X t) (get 0 wtv_Y t) 36 g) g (get [] wmv_Treasures mapView);
  g ← foldO (fun g n => plot (get 0 wnv_X n) (get 0 wnv_Y n) 110 g) g (get [] wmv_Npcs mapView);
  g ← plot_boss state g;
  foldO (fun g p => plot (get 0 wpv_X p) (get 0 wpv_Y p) (player_cell state p) g) g (get [] wmv_Players mapView).

Definition buildMapLines (state : pb_WorldState) : option (list string) :=
  let mapView := wws_Map state in
  g ← plot_units state;
  Some (
    [colorGold +:+ "┏━━━━━━━━━━━━━━━━━━━━━━━━━━━━━━━━━━━━━━━━━━━━━━━━━━━━━━━━━━┓" +:+ colorReset;
     colorGold +:+ "┃ 地图：" +:+ pad_right 12 (get "" wmv_Name mapView) +:+ " 节点：" +:+ pad_right 8 (get "" wmv_NodeId mapView)
       +:+ " 版本：" +:+ pad_right 6 (itoa (get 0 wmv_Version mapView)) +:+ " ┃" +:+ colorReset;
     colorGold +:+ "┣━━━━━━━━━━━━━━━━━━━━━━━━━━━━━━━━━━━━━━━━━━━━━━━━━━━━━━━━━━┫" +:+ colorReset]
    ++ ((fun row => colorGold +:+ "┃" +:+ colorReset +:+ String.concat "" (paintCell <$> row) +:+ colorGold +:+ "┃" +:+ colorReset) <$> g)
    ++ [colorGold +:+ "┗━━━━━━━━━━━━━━━━━━━━━━━━━━━━━━━━━━━━━━━━━━━━━━━━━━━━━━━━━━┛" +:+ colorReset]).

(** ** The side panel *)

Definition manhattan (ax ay bx by_ : Z) : Z :=
  let dx := ax -i bx in
  let dx := if dx <? 0 then 0 -i dx else dx in
  let dy := ay -i by_ in
  let dy := if dy <? 0 then 0 -i dy else dy in
  dx +i dy.

Definition point (x y : Z) : string := "(" +:+ itoa x +:+ "," +:+ itoa y +:+ ")".

Definition self_lines (state : pb_WorldState) : option (list string) :=
  let self := wws_Self state in
  bar ← hpBar (get 0 wpv_Hp self) (get 0 wpv_MaxHp self) 18 colorGreen;
  Some ([panelTitle "勇士面板";
         panelLine "角色" (colorCyan +:+ colorBold +:+ get "" wpv_Username self +:+ colorReset);
         panelLine "位置" (point (get 0 wpv_X self) (get 0 wpv_Y self));
         panelLine "生命" bar;
         panelLine "攻击" (itoa (get 0 wpv_Attack self));
         panelLine "药剂" (itoa (get 0 wpv_Potions self));
         panelLine "战利品" (itoa (get 0 wpv_Treasures self));
         panelLine "击杀" (itoa (get 0 wpv_Kills self));
         panelLine "阵亡" (itoa (get 0 wpv_Deaths self));
         panelLine "胜场" (itoa (get 0 wpv_Victories self))]
        ++ if negb (get false wpv_Alive self)
           then [panelLine "复活" (colorOrange +:+ itoa (get 0 wpv_RespawnIn self) +:+ " 秒" +:+ colorReset)] else []).

Definition shop_lines (shopOpen : bool) : list string :=
  panelTitle "战备商店" ::
  if shopOpen then
    [panelLine "1号商品" ("药剂 +1  价格 " +:+ itoa PotionPrice);
     panelLine "2号商品" ("武器强化 +" +:+ itoa WeaponBoost +:+ "  价格 " +:+ itoa WeaponPrice);
     panelLine "提示" (colorGold +:+ "按 1/2 立即购买" +:+ colorReset)]
  else [panelLine "入口" (colorGold +:+ "按 P 打开战备商店" +:+ colorReset)].

Definition boss_lines (state : pb_WorldState) : option (list string) :=
  let self := wws_Self state in
  let boss := wws_Boss state in
  let bossStatus :=
    if negb (boss_alive state) then colorGray +:+ "重组中 " +:+ itoa (get 0 wbv_RespawnIn boss) +:+ "s" +:+ colorReset
    else colorRed +:+ "征战中" +:+ colorReset in
  let '(siteText, distText) :=
    match bossSiteOnMap state with
    | Some site =>
        (point (get 0 wbs_X site) (get 0 wbs_Y site),
         itoa (manhattan (get 0 wpv_X self) (get 0 wpv_Y self) (get 0 wbs_X site) (get 0 wbs_Y site)))
    | None => ("当前地图无投影", "-")
    end in
  let lastHit := if bool_decide (get "" wbv_LastHit boss = "") then "暂无" else get "" wbv_LastHit boss in
  bar ← hpBar (get 0 wbv_Hp boss) (get 0 wbv_MaxHp boss) 18 colorRed;
  Some [panelTitle "世界首领";
        panelLine "首领" (colorOrange +:+ colorBold +:+ get "" wbv_Name boss +:+ colorReset);
        panelLine "状态" bossStatus;
        panelLine "生命" bar;
        panelLine "投影" siteText;
        panelLine "距离" distText;
        panelLine "开战线" (itoa (get 0 wbv_AttackGap boss) +:+ " 格");
        panelLine "终结" lastHit;
        panelTitle "地图并行"].

Definition brief_line (brief : option pb_MapBrief) : string :=
  let marker := if get false wmb_IsCurrent brief then colorGold +:+ "◆" +:+ colorReset else colorDim +:+ "○" +:+ colorReset in
  marker +:+ " " +:+ pad_right 5 (get "" wmb_Name brief) +:+ " " +:+ pad_right 8 (get "" wmb_NodeId brief)
    +:+ " 玩家:" +:+ itoa (get 0 wmb_Players brief) +:+ " 怪:" +:+ itoa (get 0 wmb_Npcs brief)
    +:+ " 宝:" +:+ itoa (get 0 wmb_Treasures brief).

Definition node_line (node : option pb_NodeView) : string :=
  let status := if get false wnode_Healthy node then colorGreen +:+ "在线" +:+ colorReset else colorRed +:+ "离线" +:+ colorReset in
  "• " +:+ pad_right 8 (get "" wnode_Id node) +:+ " " +:+ status +:+ " Owner:"
    +:+ itoa (Z.of_nat (length (get [] wnode_PrimaryMaps node))).

Definition buildSideLines (shopOpen : bool) (state : pb_WorldState) : option (list string) :=
  self ← self_lines state;
  boss ← boss_lines state;
  Some (self ++ shop_lines shopOpen ++ boss ++ (brief_line <$> wws_Maps state)
        ++ [panelTitle "节点心跳"] ++ (node_line <$> wws_Nodes state)).

Definition buildEventLines (clientNotes : list string) (state : pb_WorldState) : list string :=
  let events := wws_Events state ++ clientNotes in
  let start := if (8 <? length events)%nat then (length events - 8)%nat else O in
  panelTitle "战场播报" :: ((fun event => colorGray +:+ "│ " +:+ colorReset +:+ event) <$> drop start events).

(** ** The screen *)

Definition eol : string := String (ascii_of_nat 10) "".
Definition side_by_side (mapLines sideLines : list string) (i : nat) : string :=
  default "" (mapLines !! i) +:+ "  " +:+ default "" (sideLines !! i) +:+ esc "[K" +:+ eol.

Definition drawUI (u : UI) : option string :=
  match ui_current u with
  | None => Some ""
  | Some state =>
      mapLines ← buildMapLines state;
      sideLines ← buildSideLines (ui_shopOpen u) state;
      let eventLines := buildEventLines (ui_clientNotes u) state in
      let height := Nat.max (length mapLines) (length sideLines) in
      Some (esc "[H" +:+ String.concat "" (side_by_side mapLines sideLines <$> seq 0 height) +:+ eol
            +:+ String.concat "" ((fun line => line +:+ esc "[K" +:+ eol) <$> eventLines)
            +:+ (if ui_shopOpen u
                 then colorGold +:+ "商店模式：" +:+ colorReset +:+ colorDim +:+ "1 购买药剂  2 强化武器  P/Esc 关闭商店" +:+ colorReset +:+ eol
                 else colorDim +:+ "按键：W/A/S/D 移动  J 攻击  K 治疗  B 世界首领  P 商店  1/2/3 切图  R 刷新  Q 退出" +:+ colorReset +:+ eol)
            +:+ esc "[J")
  end.
