(* ===== verification/ClientProps.v ===== *)
(** * The terminal client: states and the screen

    What the client makes of the states a gateway's sender lets through, and when
    the screen can be drawn. *)

From Stdlib Require Import ZArith Lia String Ascii.
From stdpp Require Import base sorting gmap strings list option.
From S2P Require Import Prelude Protocol Maps Authority Wire NodeWire Envelope StreamSender StreamSenderProps Client ClientScreen.

Open Scope Z_scope.
Open Scope go_scope.

(** ** From the sender to the client *)

Definition topology_le (a b : pb_WorldState) : Prop := wws_TopologyVersion a <= wws_TopologyVersion b.

Lemma applied_after a b :
  (wws_SessionVersion a = wws_SessionVersion b -> GetMapId a = GetMapId b) -> topology_le a b -> key_le a b ->
  shouldApplyState (Some a) (Some b) = true.
Proof.
  unfold topology_le, key_le, shouldApplyState. intros Hm Ht H.
  repeat case_match; rewrite ?negb_true_iff, ?negb_false_iff, ?Z.eqb_eq, ?Z.eqb_neq, ?Z.ltb_lt, ?Z.leb_le in *; try done; lia.
Qed.

(** The client after a sequence of states. *)
Definition receive_states (l : list pb_WorldState) (u : UI) : UI := foldl (fun u s => (applyState (Some s) u).2) u l.

(** Each state is applied when it comes after all before it. *)
Lemma receive_sorted l : forall u a,
  ui_current u = Some a -> StronglySorted (fun a b => shouldApplyState (Some a) (Some b) = true) (a :: l) ->
  ui_current (receive_states l u) = list.last (a :: l).
Proof.
  induction l as [|b l IH]; intros u a Hu Hs; [done|]. apply StronglySorted_cons in Hs as [Ha Hs].
  apply list.Forall_cons in Ha as [Hab _]. unfold receive_states in *. cbn [foldl].
  rewrite (IH _ b); [done| |done]. unfold applyState. by rewrite Hu, Hab.
Qed.

(** C36. What the sender sends, the client shows: if the gateway's topology versions
    never decrease over the kept states and a session version belongs to one map,
    the client applies every state the sender has sent, in order, whatever was
    merged or dropped on the way, and shows the last of them. *)
Theorem sent_states_applied ls t :
  Forall control_label ls -> run_sender ls new_session = Some t ->
  StronglySorted topology_le (se_kept t) -> one_map_per_session (se_kept t) ->
  let sent := states (se_sent t) in
  StronglySorted (fun a b => shouldApplyState (Some a) (Some b) = true) sent /\
  ui_current (receive_states sent initial_UI) = list.last sent.
Proof.
  intros Hls Hrun Ht Hm sent. pose proof (state_run ls t Hls Hrun) as Hi.
  assert (Hsub : sent `sublist_of` se_kept t).
  { etrans; [|exact (si_taken t Hi)]. by apply sublist_inserts_r. }
  pose proof (sublist_sorted _ _ _ Hsub (kept_sorted _ Hm (si_order t Hi))) as Hk.
  apply (sublist_sorted _ _ _ Hsub) in Ht.
  assert (Hs : StronglySorted (fun a b => shouldApplyState (Some a) (Some b) = true) sent).
  { assert (Hin : forall a, a ∈ sent -> a ∈ se_kept t) by (intros a Ha; eapply elem_of_submseteq; [exact Ha|by apply sublist_submseteq]).
    clear Hsub. induction sent as [|a l IH]; [constructor|].
    apply StronglySorted_cons in Hk as [Hk1 Hk2]. apply StronglySorted_cons in Ht as [Ht1 Ht2].
    constructor; [apply IH; try done; intros; apply Hin; by right|].
    rewrite list.Forall_forall in *. intros b Hb. apply applied_after; [|by apply Ht1|by apply Hk1].
    apply Hm; apply Hin; [by left|by right]. }
  split; [done|]. destruct sent as [|a l]; [done|]. unfold receive_states. cbn [foldl]. by apply receive_sorted.
Qed.

Lemma sent_states_applied_witness :
  exists t, run_sender demo_states new_session = Some t /\ states (se_sent t) = [demo_view 8] /\
    ui_current (receive_states (states (se_sent t)) initial_UI) = Some (demo_view 8).
Proof.
  destruct (run_sender demo_states new_session) as [t|] eqn:Hrun; [|vm_compute in Hrun; discriminate Hrun].
  pose proof (sent_states_applied demo_states t) as H.
  exists t. vm_compute in Hrun. injection Hrun as <-. split; [reflexivity|]. split; [reflexivity|].
  refine (proj2 (H _ _ _ _)).
  - by repeat constructor.
  - vm_compute. reflexivity.
  - repeat constructor; unfold topology_le; cbn; lia.
  - intros a b Ha Hb _. assert (H8 : forall c, c ∈ [demo_view 7; demo_view 8] -> GetMapId c = "cave").
    { intros c Hc. repeat (apply elem_of_cons in Hc as [-> | Hc]; [reflexivity|]). by apply not_elem_of_nil in Hc. }
    by rewrite (H8 a Ha), (H8 b Hb).
Defined.

Definition demo_state (topologyVersion mapEpoch mapVersion : Z) : pb_WorldState :=
  mk_pb_WorldState None (Some (mk_pb_MapView "cave" "" "" 0 0 [] [] [] [] mapVersion)) [] [] None [] 1 topologyVersion mapEpoch.

(** Two states one after the other, each taken as soon as it is there. *)
Definition one_by_one (a b : pb_WorldState) : list label :=
  let take := [DoWrite OnDefault; DoWrite OnDefault; DoWrite OnState; DoWrite OnDefault; DoWrite (Sent true)] in
  [DoStart; DoSubmit 0 a; DoStore 0; DoSignal 0] ++ take ++ [DoSubmit 0 b; DoStore 0].

(** The sender's order is not the client's: with an older topology but a newer
    map version a state is kept and sent by the sender and refused by the client,
    which orders states by topology version first; and with a newer topology but an
    older map epoch a state that the client would apply is dropped by the sender. *)
Theorem sender_and_client_differ :
  (exists t b, run_sender (one_by_one (demo_state 6 2 7) b ++ [DoSignal 0; DoWrite OnDefault; DoWrite OnDefault; DoWrite OnState;
                 DoWrite OnDefault; DoWrite (Sent true)]) new_session = Some t /\
     states (se_sent t) = [demo_state 6 2 7; b] /\
     ui_current (receive_states (states (se_sent t)) initial_UI) = Some (demo_state 6 2 7)) /\
  (exists t b, run_sender (one_by_one (demo_state 6 2 7) b) new_session = Some t /\
     se_kept t = [demo_state 6 2 7] /\ shouldApplyState (Some (demo_state 6 2 7)) (Some b) = true).
Proof.
  split; eexists _; [exists (demo_state 5 2 8)|exists (demo_state 7 1 8)]; (split; [vm_compute; reflexivity|]);
    split; vm_compute; reflexivity.
Qed.

(** ** The screen *)

(** The bar's filled part does not exceed its width. *)
Definition bar_fits (hp maxHP : Z) : Prop := hp * 18 < 19 * Z.max 1 maxHP.

Lemma hpBar_total hp maxHP color : in_i32 hp -> in_i32 maxHP -> is_Some (hpBar hp maxHP 18 color) <-> bar_fits hp maxHP.
Proof.
  unfold in_i32. intros Hh Hm. unfold hpBar, bar_fits.
  set (m := if maxHP <=? 0 then 1 else maxHP). set (h := if hp <? 0 then 0 else hp).
  assert (Hmv : m = Z.max 1 maxHP) by (unfold m; destruct (Z.leb_spec maxHP 0); lia).
  assert (Hhv : h = Z.max 0 hp) by (unfold h; destruct (Z.ltb_spec hp 0); lia).
  rewrite (i64_id (h * 18)) by (unfold in_i64; lia).
  assert (Hq : 0 <= Z.quot (h * 18) m <= h * 18).
  { split; [apply Z.quot_pos; lia|]. apply Z.quot_le_upper_bound; nia. }
  assert (Hlt : Z.quot (h * 18) m <= 18 <-> h * 18 < 19 * m).
  { rewrite Z.quot_div_nonneg by lia. pose proof (Z.div_mod (h * 18) m ltac:(lia)). pose proof (Z.mod_pos_bound (h * 18) m ltac:(lia)).
    split; intros; nia. }
  set (filled := Z.quot (h * 18) m) in *. clearbody m h filled.
  unfold Repeat. rewrite (i64_id (18 - filled)) by (unfold in_i64; lia).
  destruct (Z.ltb_spec filled 0); [lia|]. cbn [mbind option_bind].
  destruct (Z.ltb_spec (18 - filled) 0); cbn [mbind option_bind]; split; intros Hx.
  - by destruct Hx.
  - exfalso. lia.
  - lia.
  - by eexists.
Qed.

Lemma bar_within hp maxHP : hp <= maxHP -> bar_fits hp maxHP.
Proof. unfold bar_fits. lia. Qed.

Lemma foldO_total {A B} (f : A -> B -> option A) l : (forall a b, is_Some (f a b)) -> forall a, is_Some (foldO f a l).
Proof.
  intros Hf. induction l as [|b l IH]; intros a; [by eexists|]. cbn. destruct (Hf a b) as [a' ->]. apply IH.
Qed.

Lemma zlookup_in {A} i (l : list A) : 0 <= i < zlen l -> is_Some (zlookup i l).
Proof. unfold zlookup, zlen. intros H. destruct (Z.ltb_spec i 0); [lia|]. apply lookup_lt_is_Some. lia. Qed.

Lemma plot_total x y c g : is_Some (plot x y c g).
Proof.
  unfold plot, inBounds. destruct (_ && _) eqn:Hb; [|by eexists]. apply andb_true_iff in Hb as [Hb Hx].
  repeat (apply andb_true_iff in Hb as [Hb ?]). rewrite ?Z.leb_le, ?Z.ltb_lt in *.
  unfold row_len in Hx. destruct (zlookup_in y g) as [row Hrow]; [lia|]. rewrite Hrow in Hx. cbn in Hx. apply Z.ltb_lt in Hx.
  destruct (zlookup_in x row) as [v Hv]; [lia|]. unfold set_cell. rewrite Hrow. cbn. rewrite Hv. by eexists.
Qed.

Lemma buildMapLines_total state : is_Some (buildMapLines state).
Proof.
  unfold buildMapLines, plot_units, plot_boss.
  destruct (foldO_total (fun g t => plot (get 0 wtv_X t) (get 0 wtv_Y t) 36 g) (get [] wmv_Treasures (wws_Map state))
    (fun g t => plot_total _ _ _ _) (runes <$> get [] wmv_Terrain (wws_Map state))) as [g1 ->]. cbn [mbind option_bind].
  destruct (foldO_total (fun g n => plot (get 0 wnv_X n) (get 0 wnv_Y n) 110 g) (get [] wmv_Npcs (wws_Map state))
    (fun g n => plot_total _ _ _ _) g1) as [g2 ->]. cbn [mbind option_bind].
  assert (Hb : is_Some (match bossSiteOnMap state with
    | Some site => plot (get 0 wbs_X site) (get 0 wbs_Y site) (if boss_alive state then 98 else 111) g2 | None => Some g2 end))
    by (destruct (bossSiteOnMap state); [apply plot_total|by eexists]).
  destruct Hb as [g3 ->]. cbn [mbind option_bind].
  destruct (foldO_total (fun g p => plot (get 0 wpv_X p) (get 0 wpv_Y p) (player_cell state p) g) (get [] wmv_Players (wws_Map state))
    (fun g p => plot_total _ _ _ _) g3) as [g4 ->]. by eexists.
Qed.

Lemma bind_total {A B} (o : option A) (f : A -> B) : is_Some (a ← o; Some (f a)) <-> is_Some o.
Proof. destruct o; cbn; split; intros H; try done; by eexists. Qed.

(** The numbers of the two bars of a state. *)
Definition self_bar (s : pb_WorldState) : Z * Z := (get 0 wpv_Hp (wws_Self s), get 0 wpv_MaxHp (wws_Self s)).
Definition boss_bar (s : pb_WorldState) : Z * Z := (get 0 wbv_Hp (wws_Boss s), get 0 wbv_MaxHp (wws_Boss s)).
Definition wire_bar (b : Z * Z) : Prop := in_i32 b.1 /\ in_i32 b.2.

Lemma buildSideLines_total shop s : wire_bar (self_bar s) -> wire_bar (boss_bar s) ->
  is_Some (buildSideLines shop s) <-> bar_fits (self_bar s).1 (self_bar s).2 /\ bar_fits (boss_bar s).1 (boss_bar s).2.
Proof.
  intros [H1 H2] [H3 H4]. rewrite <- (hpBar_total _ _ colorGreen), <- (hpBar_total _ _ colorRed) by done.
  assert (Hs : is_Some (self_lines s) <-> is_Some (hpBar (self_bar s).1 (self_bar s).2 18 colorGreen)) by apply bind_total.
  assert (Hb : is_Some (boss_lines s) <-> is_Some (hpBar (boss_bar s).1 (boss_bar s).2 18 colorRed)).
  { unfold boss_lines. destruct (match bossSiteOnMap s with Some _ => _ | None => _ end). apply bind_total. }
  rewrite <- Hs, <- Hb. unfold buildSideLines. destruct (self_lines s); cbn; [|split; [by intros []|by intros [[] _]]].
  rewrite bind_total. split; [intros H; split; [by eexists|done]|by intros [_ H]].
Qed.

Lemma drawUI_total u s : wire_bar (self_bar s) -> wire_bar (boss_bar s) ->
  is_Some (drawUI (setState (Some s) u)) <-> bar_fits (self_bar s).1 (self_bar s).2 /\ bar_fits (boss_bar s).1 (boss_bar s).2.
Proof.
  intros H1 H2. rewrite <- (buildSideLines_total (ui_shopOpen u) s H1 H2).
  unfold drawUI. cbn [setState ui_current ui_shopOpen ui_clientNotes].
  destruct (buildMapLines_total s) as [mapLines ->]. cbn [mbind option_bind]. apply bind_total.
Qed.

(** Hit points within their maximum, as worlds keep them, are always drawn. *)
Lemma worlds_are_drawn u s : wire_bar (self_bar s) -> wire_bar (boss_bar s) ->
  (self_bar s).1 <= (self_bar s).2 -> (boss_bar s).1 <= (boss_bar s).2 -> is_Some (drawUI (setState (Some s) u)).
Proof. intros ? ? ? ?. apply drawUI_total; [done..|]. split; by apply bar_within. Qed.

(** C40. When the screen can be drawn: for any state a frame can carry, drawing
    panics only in [strings.Repeat] of a bar of eighteen cells, that is, exactly if
    the hit points of the player or of the boss reach nineteen eighteenths of their
    maximum, where a maximum that is not positive counts as 1. *)
Theorem screen_draws u s :
  wire_bar (self_bar s) -> wire_bar (boss_bar s) ->
  is_Some (drawUI (setState (Some s) u)) <->
  (self_bar s).1 * 18 < 19 * Z.max 1 (self_bar s).2 /\ (boss_bar s).1 * 18 < 19 * Z.max 1 (boss_bar s).2.
Proof. apply drawUI_total. Qed.

Lemma screen_draws_witness :
  let s := mk_pb_WorldState (Some (mk_pb_PlayerView "ann" "cave" 1 0 90 120 35 3 9 0 1 0 true 0 ""))
             (Some (mk_pb_MapView "cave" "c" "node-a" 3 1 ["#.#"] [] [] [] 4)) [] [] None [] 1 2 3 in
  is_Some (drawUI (setState (Some s) initial_UI)).
Proof.
  intros s. apply (screen_draws initial_UI s); [split; unfold in_i32; cbn; lia..|].
  split; cbn; lia.
Defined.
