(* ===== verification/ClientMain.v ===== *)
(** * The process of the terminal client

    [cmd/client/main.go], [prompt.go], [client.go] ([auth], [receiveGameUpdates]) and
    the raw modes of [raw_mode_*.go]: from the first prompt to the end of the
    process.  What a terminal delivers, what the connection answers and in which
    order the two goroutines run are inputs. *)

From Stdlib Require Import ZArith Lia String Ascii.
From stdpp Require Import base gmap strings list option.
From S2P Require Import Prelude Protocol Maps Authority Wire NodeWire Envelope StreamSender Client ClientScreen.

Open Scope Z_scope.
Open Scope go_scope.

(** ** Standard input *)

(** The bytes the [bufio.Reader] of the prompts holds, the answers of the [Read]s of
    standard input still to come (end of file after the last), and what was
    printed. *)
Record TTY := mkTTY {
  tt_buffer : string;
  tt_reads : list string;
  tt_output : list string
}.

Definition newline : ascii := ascii_of_nat 10.

(** The first line of [s], with its newline, and the rest. *)
Fixpoint split_line (s : string) : option (string * string) :=
  match s with
  | EmptyString => None
  | String c s =>
      if Ascii.eqb c newline then Some (String c "", s)
      else match split_line s with Some (line, rest) => Some (String c line, rest) | None => None end
  end.

(** [bufio.Reader.ReadString] at a newline: the text (all there is, at the end of the
    file), the new buffer and the answers left. *)
Fixpoint ReadString (buffer : string) (reads : list string) : string * string * list string :=
  match split_line buffer with
  | Some (line, rest) => (line, rest, reads)
  | None =>
      match reads with
      | [] => (buffer, "", [])
      | answer :: reads => ReadString (buffer +:+ answer) reads
      end
  end.

Definition Print (text : string) : ST TTY unit :=
  modify (fun t => mkTTY (tt_buffer t) (tt_reads t) (tt_output t ++ [text])).

Definition readLine : ST TTY string := fun t =>
  let '(text, buffer, reads) := ReadString (tt_buffer t) (tt_reads t) in
  Some (TrimSpace text, mkTTY buffer reads (tt_output t)).

(** [net.JoinHostPort]. *)
Definition JoinHostPort (host port : string) : string :=
  if Contains host ":" then "[" +:+ host +:+ "]:" +:+ port else host +:+ ":" +:+ port.


Definition or_default (text otherwise : string) : string := if bool_decide (text = "") then otherwise else text.

(** ** The prompts *)

Definition ask (text : string) : ST TTY string := _ ← Print text; readLine.
Definition complain (text : string) : ST TTY unit := Print (colorRed +:+ text +:+ colorReset +:+ eol).
Definition banner (title subtitle : string) : ST TTY unit :=
  _ ← Print (esc "[2J" +:+ esc "[H"); Print (renderBanner title subtitle +:+ eol).

(** The loops take fuel for their repetitions; [None] is out of fuel. *)
Fixpoint chooseGateway (fuel : nat) : ST TTY (option string) :=
  match fuel with
  | O => mret None
  | S fuel =>
      _ ← banner "战场入口" "1. 单机测试  2. 连接指定网关";
      choice ← ask (colorGold +:+ "[1/2] 请选择连接方式：" +:+ colorReset);
      if bool_decide (choice = "1") || bool_decide (choice = "") then mret (Some GatewayAddr) else
      if bool_decide (choice = "2") then
        host ← ask (colorCyan +:+ "请输入网关 IP：" +:+ colorReset);
        port ← ask (colorCyan +:+ "请输入网关端口：" +:+ colorReset);
        mret (Some (JoinHostPort (or_default host "127.0.0.1") (or_default port "9310")))
      else
        _ ← complain "无效选择，请重新输入。";
        chooseGateway fuel
  end.

Record Credentials := mkCredentials {
  cr_mode : string;
  cr_username : string;
  cr_password : string;
  cr_confirm : string
}.

Fixpoint chooseAuth (fuel : nat) : ST TTY (option Credentials) :=
  match fuel with
  | O => mret None
  | S fuel =>
      _ ← banner "身份验证" "1. 登录  2. 注册";
      choice ← ask (colorGold +:+ "[1/2] 请选择：" +:+ colorReset);
      let chosen :=
        if bool_decide (choice = "1") || bool_decide (choice = "") then Some authModeLogin
        else if bool_decide (choice = "2") then Some authModeRegister else None in
      match chosen with
      | None => _ ← complain "无效选择，请重新输入。"; chooseAuth fuel
      | Some mode =>
          username ← ask (colorCyan +:+ "用户名：" +:+ colorReset);
          password ← ask (colorCyan +:+ "密码：" +:+ colorReset);
          if bool_decide (mode = authModeRegister) then
            confirm ← ask (colorCyan +:+ "确认密码：" +:+ colorReset);
            if negb (bool_decide (password = confirm)) then
              _ ← complain "两次输入的密码不一致，请重新输入。"; chooseAuth fuel
            else mret (Some (mkCredentials mode username password confirm))
          else mret (Some (mkCredentials mode username password ""))
      end
  end.

(** ** Connecting *)

(** What the gRPC library answers to the calls of [auth]: the text of an error, or
    success. *)
Record Dial := mkDial {
  di_NewClient : option string;
  di_GameStream : option string;
  di_Send : option string;
  di_Recv : string + option pb_ServerEnvelope
}.

Inductive NetCall := Connected (addr : string) | Opened | SentFirst (frame : pb_ClientEnvelope) | Received | SendClosed | Closed.

(** [gameClient.Close] *)
Definition Close : list NetCall := [SendClosed; Closed].

Definition auth (net : Dial) (addr : string) (c : Credentials) : list NetCall * (string + pb_WorldState) :=
  match di_NewClient net with
  | Some err => ([], inl ("连接网关失败：" +:+ err))
  | None =>
  match di_GameStream net with
  | Some err => ([Connected addr; Closed], inl ("打开游戏流失败：" +:+ err))
  | None =>
  let requestID := 1 in
  let first := authRequest requestID (cr_mode c) (cr_username c) (cr_password c) (cr_confirm c) in
  match di_Send net with
  | Some err => ([Connected addr; Opened; SentFirst first] ++ Close, inl ("发送认证消息失败：" +:+ err))
  | None =>
  match di_Recv net with
  | inl err => ([Connected addr; Opened; SentFirst first] ++ Close, inl ("接收认证结果失败：" +:+ err))
  | inr reply =>
      let calls := [Connected addr; Opened; SentFirst first; Received] in
      match auth_reply reply with
      | inl text => (calls ++ Close, inl text)
      | inr state => (calls, inr state)
      end
  end end end end.

(** The first loop of [main]: prompt and connect until one attempt succeeds.
    [nets] are the answers of the network, attempt by attempt; the loop is cut where
    they end.  The result is the credentials and the state of the attempt that
    succeeded; the frames of failed attempts went to streams that are closed. *)
Fixpoint authLoop (fuel : nat) (addr : string) (nets : list Dial) : ST TTY (option (Credentials * pb_WorldState)) :=
  match nets with
  | [] => mret None
  | net :: nets =>
      chosen ← chooseAuth fuel;
      match chosen with
      | None => mret None
      | Some c =>
          match (auth net addr c).2 with
          | inr state => mret (Some (c, state))
          | inl err => _ ← Print (colorRed +:+ "进入失败：" +:+ err +:+ colorReset +:+ eol); authLoop fuel addr nets
          end
      end
  end.

(** ** Raw terminal modes *)

(** [v &^ mask] on an unsigned integer. *)
Definition bit_clear (v mask : Z) : Z := Z.ldiff v mask.

Record Termios := mkTermios {
  tm_Iflag : Z;
  tm_Oflag : Z;
  tm_Cflag : Z;
  tm_Lflag : Z;
  tm_Cc : list Z;
  tm_Ispeed : Z;
  tm_Ospeed : Z
}.

(** [get] and [set] are the errors of the two calls of [ioctl]; the result is an error
    or the function that restores the terminal, whose call may fail. *)
Definition ioctl_set (failed : option string) (termios : Termios) : ST Termios (option string) :=
  match failed with
  | Some err => mret (Some err)
  | None => _ ← modify (fun _ => termios); mret None
  end.

Definition restorer : Type := option string -> ST Termios unit.

Definition enter_raw (raw_of : Termios -> Termios) (get set : option string) : ST Termios (string + restorer) :=
  original ← gets id;
  match get with
  | Some err => mret (inl ("读取终端模式失败: " +:+ err))
  | None =>
      failed ← ioctl_set set (raw_of original);
      match failed with
      | Some err => mret (inl ("设置终端模式失败: " +:+ err))
      | None => mret (inr (fun failed => _ ← ioctl_set failed original; mret tt))
      end
  end.

Definition raw_termios (ICANON ECHO : Z) (VMIN VTIME : nat) (original : Termios) : Termios :=
  mkTermios (tm_Iflag original) (tm_Oflag original) (tm_Cflag original)
    (bit_clear (tm_Lflag original) (Z.lor ICANON ECHO))
    (<[VTIME := 0]> (<[VMIN := 1]> (tm_Cc original))) (tm_Ispeed original) (tm_Ospeed original).

(** The constants of package [syscall], [raw] and [enterRawMode] of each system. *)
Definition linux_ISIG : Z := 1.
Definition linux_raw : Termios -> Termios := raw_termios 2 8 6 5.
Definition linux_enterRawMode : option string -> option string -> ST Termios (string + restorer) := enter_raw linux_raw.

Definition darwin_ISIG : Z := 128.
Definition darwin_raw : Termios -> Termios := raw_termios 256 8 16 17.
Definition darwin_enterRawMode : option string -> option string -> ST Termios (string + restorer) := enter_raw darwin_raw.

(** On Windows the state is the 32-bit mode of the console. *)
Definition enableProcessedInput : Z := 1.
Definition enableLineInput : Z := 2.
Definition enableEchoInput : Z := 4.
Definition windows_raw (original : Z) : Z := bit_clear original (Z.lor enableLineInput enableEchoInput).

Definition setConsoleMode (failed : option string) (mode : Z) : ST Z (option string) :=
  match failed with
  | Some err => mret (Some err)
  | None => _ ← modify (fun _ => mode); mret None
  end.

Definition windows_enterRawMode (get set : option string) : ST Z (string + (option string -> ST Z unit)) :=
  original ← gets id;
  match get with
  | Some err => mret (inl ("读取控制台模式失败: " +:+ err))
  | None =>
      failed ← setConsoleMode set (windows_raw original);
      match failed with
      | Some err => mret (inl ("设置控制台模式失败: " +:+ err))
      | None => mret (inr (fun failed => _ ← setConsoleMode failed original; mret tt))
      end
  end.

(** On other systems the terminal stays as it is. *)
Definition other_enterRawMode {T} : ST T (string + ST T unit) := mret (inr (mret tt)).

(** ** The game *)

(** The process after a successful [auth]: the package's variables, the counter of
    request numbers, what keys are still to come (the end of the input after them),
    the frames given to [Send] and the screens drawn; whether [receiveGameUpdates] has
    closed [done], and whether [main] has returned. *)
Record ClientProc := mkClientProc {
  cp_ui : UI;
  cp_nextRequestID : Z;
  cp_keys : string;
  cp_sent : list pb_ClientEnvelope;
  cp_screens : list string;
  cp_done : bool;
  cp_returned : bool
}.

Definition on_ui (f : UI -> UI) : ST ClientProc unit :=
  modify (fun p => mkClientProc (f (cp_ui p)) (cp_nextRequestID p) (cp_keys p) (cp_sent p) (cp_screens p) (cp_done p) (cp_returned p)).

(** [drawUI], which may panic. *)
Definition draw : ST ClientProc unit := fun p =>
  match drawUI (cp_ui p) with
  | None => None
  | Some text => Some (tt, mkClientProc (cp_ui p) (cp_nextRequestID p) (cp_keys p) (cp_sent p) (cp_screens p ++ [text]) (cp_done p) (cp_returned p))
  end.

(** [sendPlayerCommand], up to what [Send] answers. *)
Definition send (command : ClientPayload) : ST ClientProc unit :=
  modify (fun p =>
    let '(frame, nextRequestID) := sendPlayerCommand (cp_nextRequestID p) command in
    mkClientProc (cp_ui p) nextRequestID (cp_keys p) (cp_sent p ++ [frame]) (cp_screens p) (cp_done p) (cp_returned p)).

(** [return] in [main]: the deferred calls close the stream and restore the
    terminal, and the process ends. *)
Definition return_main : ST ClientProc unit :=
  modify (fun p => mkClientProc (cp_ui p) (cp_nextRequestID p) (cp_keys p) (cp_sent p) (cp_screens p) (cp_done p) true).

(** [close(done)] *)
Definition close_done : ST ClientProc unit :=
  modify (fun p => mkClientProc (cp_ui p) (cp_nextRequestID p) (cp_keys p) (cp_sent p) (cp_screens p) true (cp_returned p)).

(** The head of the loop: with [done] closed [main] returns, otherwise it waits for
    a key. *)
Definition next_round : ST ClientProc unit :=
  closed ← gets cp_done; if closed : bool then return_main else mret tt.

Definition ReadByte : ST ClientProc (option Z) := fun p =>
  match cp_keys p with
  | EmptyString => Some (None, p)
  | String c keys =>
      Some (Some (Z.of_nat (nat_of_ascii c)),
            mkClientProc (cp_ui p) (cp_nextRequestID p) keys (cp_sent p) (cp_screens p) (cp_done p) (cp_returned p))
  end.

(** The rest of a round of [main] once the key is there; [failed] is the error of
    [Send]. *)
Definition handleKey (failed : option string) (key : Z) : ST ClientProc unit :=
  if key =? 3 then _ ← send logoutCommand; return_main else
  u ← gets cp_ui;
  let '(command, note, ok) := commandForKey key (ui_shopOpen u) in
  if negb ok then
    if key_in key "pP" then _ ← on_ui (setShopOpen true); _ ← draw; next_round else
    if key_in key "rR" then _ ← on_ui (addClientNote "已刷新界面"); _ ← draw; next_round else
    if key_in key "qQ" then _ ← send logoutCommand; return_main else next_round
  else
    match command with
    | None => _ ← on_ui (setShopOpen false); _ ← draw; next_round
    | Some command =>
        _ ← on_ui (addClientNote note);
        _ ← send command;
        match failed with
        | Some err => _ ← on_ui (addClientNote ("指令发送失败：" +:+ err)); _ ← draw; return_main
        | None => _ ← draw; next_round
        end
    end.

Definition key_round (failed : option string) : ST ClientProc unit :=
  key ← ReadByte;
  match key with
  | None => return_main
  | Some key => handleKey failed key
  end.

(** One turn of [receiveGameUpdates]; [None] is a failed [Recv]. *)
Definition receiveGameUpdate (received : option (option pb_ServerEnvelope)) : ST ClientProc unit :=
  match received with
  | None => _ ← on_ui (addClientNote "与网关连接已断开"); _ ← draw; close_done
  | Some envelope => _ ← on_ui (handleServerEnvelope envelope); draw
  end.

(** What happens to the process: the answer to the [ReadByte] in which [main] waits,
    with what the [Send] of its key meets, or an answer to [Recv]. *)
Inductive client_event :=
  | KeyRead (failed : option string)
  | FrameReceived (received : option (option pb_ServerEnvelope)).

Definition client_step (e : client_event) : ST ClientProc unit :=
  p ← gets id;
  if cp_returned p then mret tt else
  match e with
  | KeyRead failed => key_round failed
  | FrameReceived received => if cp_done p then mret tt else receiveGameUpdate received
  end.

Fixpoint client_run (events : list client_event) : ST ClientProc unit :=
  match events with
  | [] => mret tt
  | e :: events => _ ← client_step e; client_run events
  end.

(** [main] between [auth] and its loop.  The keys come from a second reader on the
    standard input, so that what the prompts' reader has buffered is not among
    them. *)
Definition start_game (c : Credentials) (state : pb_WorldState) (t : TTY) : option ClientProc :=
  match draw (mkClientProc (setState (Some state) initial_UI) 1 (String.concat "" (tt_reads t))
                [authRequest 1 (cr_mode c) (cr_username c) (cr_password c) (cr_confirm c)] [] false false) with
  | Some (_, p) => Some p
  | None => None
  end.

(** The part of [main] before the terminal is switched: [nets] are the answers of the
    network to its attempts. *)
Definition enter (fuel : nat) (nets : list Dial) : ST TTY (option (Credentials * pb_WorldState)) :=
  chosen ← chooseGateway fuel;
  match chosen with
  | Some addr => authLoop fuel addr nets
  | None => mret None
  end.

(** [main]; [raw_failed] is the error of [enterRawMode].  [None] is a crash; a process
    that has not reached its loop has no [ClientProc]. *)
Definition main (fuel : nat) (nets : list Dial) (raw_failed : option string) (events : list client_event) (reads : list string)
    : option (option ClientProc) :=
  match enter fuel nets (mkTTY "" reads []) with
  | Some (Some (c, state), t) =>
      match raw_failed with
      | Some _ => Some None
      | None =>
          match start_game c state t with
          | Some p => match client_run events p with Some (_, p) => Some (Some p) | None => None end
          | None => None
          end
      end
  | Some _ => Some None
  | None => None
  end.
