(* ===== verification/ClientMainProps.v ===== *)
(** * What the terminal client does

    The prompts end, a failed attempt leaves no connection open, the raw mode can be
    undone, and the frames of a session are well formed and numbered. *)

From Stdlib Require Import ZArith Lia String Ascii.
From stdpp Require Import base gmap strings list option.
From S2P Require Import Prelude Protocol Maps Authority Wire NodeWire Envelope StreamSender Client ClientScreen ClientMain.

Open Scope Z_scope.
Open Scope go_scope.

(** ** The prompts *)

(** The bytes not yet read. *)
Fixpoint total_length (l : list string) : nat := match l with [] => O | s :: l => (String.length s + total_length l)%nat end.
Definition pending (t : TTY) : nat := (String.length (tt_buffer t) + total_length (tt_reads t))%nat.

Lemma split_line_length s line rest : split_line s = Some (line, rest) ->
  (String.length s = String.length line + String.length rest)%nat /\ line <> "".
Proof.
  revert line. induction s as [|c s IH]; intros line; [done|]. cbn [split_line].
  destruct (Ascii.eqb c newline); [by intros [= <- <-]|].
  destruct (split_line s) as [[l r]|]; [|done]. intros [= <- <-]. destruct (IH l eq_refl). split; [cbn [String.length]; lia|done].
Qed.

(** Reading a line uses up what it returns. *)
Lemma ReadString_length reads : forall buffer,
  let r := ReadString buffer reads in
  (String.length r.1.1 + (String.length r.1.2 + total_length r.2) = String.length buffer + total_length reads)%nat.
Proof.
  induction reads as [|a reads IH]; intros buffer; cbn [ReadString]; destruct (split_line buffer) as [[line rest]|] eqn:E.
  1,3: apply split_line_length in E as [E _]; cbn; lia.
  - cbn. lia.
  - specialize (IH (buffer +:+ a)). cbn zeta in IH |- *. rewrite IH, string_length_app. cbn. lia.
Qed.

(** Reading at the prompt: less is pending, unless the answer is empty. *)
Lemma wp_readLine t (Q : string -> TTY -> Prop) :
  (forall text t', (pending t' <= pending t)%nat -> (text <> "" -> (pending t' < pending t)%nat) -> Q text t') -> wp readLine Q t.
Proof.
  intros HQ. unfold readLine, wp. pose proof (ReadString_length (tt_reads t) (tt_buffer t)) as H. cbn zeta in H.
  destruct (ReadString _ _) as [[text buffer] reads]. cbn in H. apply HQ; unfold pending; cbn; [lia|].
  intros Ht. destruct text; [done|]. cbn in H. lia.
Qed.

Lemma wp_Print text t (Q : unit -> TTY -> Prop) : (forall t', pending t' = pending t -> Q tt t') -> wp (Print text) Q t.
Proof. intros HQ. apply wp_modify. by apply HQ. Qed.

Lemma wp_prompt text t (Q : string -> TTY -> Prop) :
  (forall answer t', (pending t' <= pending t)%nat -> (answer <> "" -> (pending t' < pending t)%nat) -> Q answer t') ->
  wp (ask text) Q t.
Proof.
  intros HQ. unfold ask. apply wp_bind, wp_Print. intros t1 H1. apply wp_readLine. rewrite H1. exact HQ.
Qed.

Lemma wp_banner title subtitle t (Q : unit -> TTY -> Prop) : (forall t', pending t' = pending t -> Q tt t') -> wp (banner title subtitle) Q t.
Proof.
  intros HQ. unfold banner. apply wp_bind, wp_Print. intros t1 H1. apply wp_Print. intros t2 H2. apply HQ. congruence.
Qed.

Lemma wp_complain text t (Q : unit -> TTY -> Prop) : (forall t', pending t' = pending t -> Q tt t') -> wp (complain text) Q t.
Proof. apply wp_Print. Qed.

(** What the two prompts may answer. *)
Definition gateway_choice (addr : string) : Prop :=
  addr = GatewayAddr \/ exists host port, host <> "" /\ port <> "" /\ addr = JoinHostPort host port.

Definition auth_choice (c : Credentials) : Prop :=
  (cr_mode c = authModeLogin /\ cr_confirm c = "") \/ (cr_mode c = authModeRegister /\ cr_confirm c = cr_password c).

Lemma or_default_ne text otherwise : otherwise <> "" -> or_default text otherwise <> "".
Proof. unfold or_default. intros. by case_bool_decide. Qed.

Lemma chooseGateway_ends fuel : forall t, (pending t < fuel)%nat ->
  wp (chooseGateway fuel) (fun r t' => (pending t' <= pending t)%nat /\ exists addr, r = Some addr /\ gateway_choice addr) t.
Proof.
  induction fuel as [|fuel IH]; intros t Hf; [lia|]. cbn [chooseGateway].
  apply wp_bind, wp_banner. intros t1 H1. apply wp_bind, wp_prompt. intros choice t2 H2 Hne.
  destruct (_ || _) eqn:E1; [apply wp_ret; split; [lia|]; eexists; split; [done|by left]|].
  apply orb_false_iff in E1 as [_ E1]. apply bool_decide_eq_false in E1. specialize (Hne E1).
  case_bool_decide.
  - apply wp_bind, wp_prompt. intros host t3 H3 _. apply wp_bind, wp_prompt. intros port t4 H4 _. apply wp_ret. split; [lia|].
    eexists. split; [done|]. right. eexists _, _. split; [|split; [|done]]; by apply or_default_ne.
  - apply wp_bind, wp_complain. intros t3 H3. eapply wp_mono; [apply IH; lia|]. intros r t4 [? ?]. split; [lia|done].
Qed.

Lemma chooseAuth_ends fuel : forall t, (pending t < fuel)%nat ->
  wp (chooseAuth fuel) (fun r t' => (pending t' <= pending t)%nat /\ exists c, r = Some c /\ auth_choice c) t.
Proof.
  induction fuel as [|fuel IH]; intros t Hf; [lia|]. cbn [chooseAuth].
  apply wp_bind, wp_banner. intros t1 H1. apply wp_bind, wp_prompt. intros choice t2 H2 Hne.
  assert (Hagain : forall t', choice <> "" -> (pending t' <= pending t2)%nat ->
    wp (chooseAuth fuel) (fun r t' => (pending t' <= pending t)%nat /\ exists c, r = Some c /\ auth_choice c) t').
  { intros t' Hc Ht'. specialize (Hne Hc). eapply wp_mono; [apply IH; lia|]. intros r t'' [? ?]. split; [lia|done]. }
  destruct (_ || _) eqn:E1.
  - apply wp_bind, wp_prompt. intros username t3 H3 _. apply wp_bind, wp_prompt. intros password t4 H4 _. cbn.
    apply wp_ret. split; [lia|]. eexists. split; [done|by left].
  - apply orb_false_iff in E1 as [_ E1]. apply bool_decide_eq_false in E1. case_bool_decide.
    + apply wp_bind, wp_prompt. intros username t3 H3 _. apply wp_bind, wp_prompt. intros password t4 H4 _. cbn.
      apply wp_bind, wp_prompt. intros confirm t5 H5 _. case_bool_decide; cbn [negb].
      * subst. apply wp_ret. split; [lia|]. eexists. split; [done|by right].
      * apply wp_bind, wp_complain. intros t6 H6. apply Hagain; [done|lia].
    + apply wp_bind, wp_complain. intros t3 H3. apply Hagain; [done|lia].
Qed.

(** The first part of [main]: it ends with the first attempt that succeeds. *)
Definition entered (nets : list Dial) (r : option (Credentials * pb_WorldState)) : Prop :=
  match r with
  | Some (c, state) => auth_choice c /\ exists net addr, net ∈ nets /\ (auth net addr c).2 = inr state
  | None => Forall (fun net => exists addr c err, auth_choice c /\ (auth net addr c).2 = inl err) nets
  end.

Lemma authLoop_ends fuel addr nets : forall t, (pending t < fuel)%nat ->
  wp (authLoop fuel addr nets) (fun r t' => (pending t' <= pending t)%nat /\ entered nets r) t.
Proof.
  induction nets as [|net nets IH]; intros t Hf; [apply wp_ret; split; [done|constructor]|]. cbn [authLoop].
  apply wp_bind. eapply wp_mono; [by apply chooseAuth_ends|]. intros r t1 (H1 & c & -> & Hc).
  destruct (auth net addr c) as [calls [err|state]] eqn:E; cbn [snd].
  - apply wp_bind, wp_Print. intros t2 H2. eapply wp_mono; [apply IH; lia|]. intros [[c' state]|] t3 [H3 H4]; (split; [lia|]).
    + destruct H4 as (? & net' & addr' & ? & ?). split; [done|]. exists net', addr'. split; [by right|done].
    + constructor; [|done]. exists addr, c, err. by rewrite E.
  - apply wp_ret. split; [lia|]. split; [done|]. exists net, addr. rewrite E. split; [by left|done].
Qed.

(** ** Connecting *)

Definition connects (c : NetCall) : bool := match c with Connected _ => true | _ => false end.
Definition closes (c : NetCall) : bool := match c with Closed => true | _ => false end.
Definition opened (calls : list NetCall) : Z := Z.of_nat (length (filter connects calls)) - Z.of_nat (length (filter closes calls)).

(** A failed attempt leaves no connection, a successful one leaves its own. *)
Lemma auth_closes net addr c :
  let '(calls, result) := auth net addr c in opened calls = match result with inl _ => 0 | inr _ => 1 end.
Proof.
  unfold auth. destruct (di_NewClient net); [done|]. destruct (di_GameStream net); [done|].
  destruct (di_Send net); [done|]. destruct (di_Recv net) as [|reply]; [done|].
  unfold opened. by destruct (auth_reply reply).
Qed.

(** ** Raw modes *)

(** What [raw] does to the flags: line editing and echo are off, every other bit -
    that of the signals too - is kept. *)
Lemma bit_clear_spec v mask n : 0 <= n -> Z.testbit (bit_clear v mask) n = Z.testbit v n && negb (Z.testbit mask n).
Proof. intros. unfold bit_clear. by rewrite Z.ldiff_spec. Qed.

(** The terminal is as before once the restoring function has run, and an error
    leaves it as it is. *)
Lemma enter_raw_restores raw_of get set t :
  wp (enter_raw raw_of get set) (fun r t' =>
    match r with
    | inl _ => t' = t
    | inr restore => t' = raw_of t /\ wp (restore None) (fun _ t'' => t'' = t) t'
    end) t.
Proof. unfold enter_raw, ioctl_set. destruct get, set; by repeat (split || wp_step). Qed.

(** ** The frames of a session *)

(** The commands that keys stand for, besides [logoutCommand]. *)
Definition game_commands : list ClientPayload :=
  [moveCommand DIRECTION_UP; moveCommand DIRECTION_DOWN; moveCommand DIRECTION_LEFT; moveCommand DIRECTION_RIGHT;
   attackCommand; attackBossCommand; healCommand; buyItemCommand "potion"; buyItemCommand "weapon";
   switchMapCommand "green"; switchMapCommand "cave"; switchMapCommand "ruins"].

Lemma commandForKey_game key shop c note ok : commandForKey key shop = (Some c, note, ok) -> c ∈ game_commands.
Proof.
  unfold commandForKey. intros H.
  repeat match type of H with context [if ?b then _ else _] => destruct b end; simplify_eq; unfold game_commands; set_solver.
Qed.

(** The frames with consecutive numbers from [n] on. *)
Fixpoint numbered (n : Z) (commands : list ClientPayload) : list pb_ClientEnvelope :=
  match commands with
  | [] => []
  | c :: commands => mk_pb_ClientEnvelope (u64 n) (Some c) :: numbered (n + 1) commands
  end.

Lemma numbered_snoc commands c : forall n,
  numbered n (commands ++ [c]) = numbered n commands ++ [mk_pb_ClientEnvelope (u64 (n + Z.of_nat (length commands))) (Some c)].
Proof.
  induction commands as [|d commands IH]; intros n; cbn [numbered app length].
  - by replace (n + Z.of_nat 0) with n by lia.
  - rewrite IH. do 3 f_equal. by replace (n + 1 + Z.of_nat (length commands)) with (n + Z.of_nat (S (length commands))) by lia.
Qed.

(** What a client has sent on its stream: the first frame, then game commands in
    the order of their numbers, and a logout at most as its last frame, after which
    the process ends. *)
Definition speaks (first : pb_ClientEnvelope) (p : ClientProc) : Prop :=
  exists commands ending,
    cp_sent p = first :: numbered 2 (commands ++ ending) /\
    cp_nextRequestID p = u64 (1 + Z.of_nat (length (commands ++ ending))) /\
    Forall (fun c => c ∈ game_commands) commands /\
    (ending = [] \/ ending = [logoutCommand] /\ cp_returned p = true).

(** Everything but sending keeps the frames. *)
Definition same_frames (p q : ClientProc) : Prop :=
  cp_sent q = cp_sent p /\ cp_nextRequestID q = cp_nextRequestID p /\ (cp_returned p = true -> cp_returned q = true).

Lemma speaks_same first p q : speaks first p -> same_frames p q -> speaks first q.
Proof.
  intros (commands & ending & H1 & H2 & H3 & H4) (E1 & E2 & E3). exists commands, ending.
  rewrite E1, E2. repeat split; try done. destruct H4 as [|[]]; [by left|right; auto].
Qed.

Lemma same_refl p : same_frames p p.
Proof. by repeat split. Qed.

Lemma same_trans p q r : same_frames p q -> same_frames q r -> same_frames p r.
Proof. intros (? & ? & ?) (? & ? & ?). repeat split; [congruence..|auto]. Qed.

(** [silent m]: [m] sends nothing. *)
Definition silent {A} (m : ST ClientProc A) : Prop := forall p, wlp m (fun _ => same_frames p) p.

Lemma silent_bind {A B} (m : ST ClientProc A) (f : A -> ST ClientProc B) : silent m -> (forall a, silent (f a)) -> silent (m ≫= f).
Proof.
  intros Hm Hf p. apply wlp_bind. eapply wlp_mono; [apply Hm|]. intros a q Hq.
  eapply wlp_mono; [apply Hf|]. intros b r Hr. exact (same_trans _ _ _ Hq Hr).
Qed.

Lemma silent_ret {A} (a : A) : silent (mret a).
Proof. intros p. apply wlp_ret, same_refl. Qed.

Lemma silent_modify f : (forall p, same_frames p (f p)) -> silent (modify f).
Proof. intros Hf p. by apply wlp_modify. Qed.

Lemma silent_gets {A} (f : ClientProc -> A) : silent (gets f).
Proof. intros p. apply wlp_gets, same_refl. Qed.

Lemma silent_on_ui f : silent (on_ui f).
Proof. by apply silent_modify; intros; repeat split. Qed.

Lemma silent_draw : silent draw.
Proof. intros p a q. unfold draw. destruct (drawUI (cp_ui p)); [|done]. intros [= <- <-]. by repeat split. Qed.

Lemma silent_return : silent return_main.
Proof. by apply silent_modify; intros; repeat split. Qed.

Lemma silent_next : silent next_round.
Proof. apply silent_bind; [apply silent_gets|]. intros []; [apply silent_return|apply silent_ret]. Qed.

#[local] Create HintDb silent.
#[local] Hint Resolve silent_ret silent_on_ui silent_draw silent_return silent_next silent_gets : silent.
#[local] Hint Extern 1 (silent (_ ≫= _)) => apply silent_bind; [|intros ?] : silent.

Lemma silent_receive received : silent (receiveGameUpdate received).
Proof.
  unfold receiveGameUpdate. destruct received; eauto with silent.
  apply silent_bind; [eauto with silent|intros _]. apply silent_bind; [eauto with silent|intros _].
  by apply silent_modify; intros; repeat split.
Qed.

(** While the loop of [main] runs, no logout has been sent. *)
Definition running (first : pb_ClientEnvelope) (p : ClientProc) : Prop := speaks first p /\ cp_returned p = false.

Lemma send_speaks first c p : running first p -> c ∈ game_commands -> wlp (send c) (fun _ q => speaks first q) p.
Proof.
  intros [(commands & ending & H1 & H2 & H3 & H4) Hr] Hc. destruct H4 as [->|[_ H4]]; [|congruence].
  rewrite app_nil_r in H1, H2. apply wlp_modify. exists (commands ++ [c]), []. cbn [sendPlayerCommand cp_sent cp_nextRequestID].
  rewrite app_nil_r, H1, H2, numbered_snoc, length_app. cbn [app length]. unfold u64. rewrite Zplus_mod_idemp_l.
  split; [|split; [|split; [apply Forall_app; split; [done|by constructor]|by left]]].
  - do 4 f_equal. f_equal. lia.
  - f_equal. lia.
Qed.

Lemma logout_speaks first p : running first p -> wlp (_ ← send logoutCommand; return_main) (fun _ q => speaks first q) p.
Proof.
  intros [(commands & ending & H1 & H2 & H3 & H4) Hr]. destruct H4 as [->|[_ H4]]; [|congruence].
  rewrite app_nil_r in H1, H2. apply wlp_bind, wlp_modify, wlp_modify. exists commands, [logoutCommand].
  cbn [sendPlayerCommand cp_sent cp_nextRequestID cp_returned].
  rewrite H1, H2, numbered_snoc, length_app. cbn [app length]. unfold u64. rewrite Zplus_mod_idemp_l.
  split; [|split; [|split; [done|by right]]].
  - do 4 f_equal. f_equal. lia.
  - f_equal. lia.
Qed.

Lemma wlp_quiet {A} first (m : ST ClientProc A) p : silent m -> speaks first p -> wlp m (fun _ q => speaks first q) p.
Proof. intros Hm Hp. eapply wlp_mono; [apply Hm|]. intros ? q. by apply speaks_same. Qed.

Lemma handleKey_speaks first failed key p : running first p -> wlp (handleKey failed key) (fun _ q => speaks first q) p.
Proof.
  intros Hp. pose proof Hp as [Hs _]. unfold handleKey. destruct (key =? 3); [by apply logout_speaks|].
  apply wlp_bind, wlp_gets. destruct (commandForKey _ _) as [[command note] ok] eqn:E.
  destruct (negb ok).
  - destruct (key_in key "pP"); [apply wlp_quiet; eauto with silent|].
    destruct (key_in key "rR"); [apply wlp_quiet; eauto with silent|].
    destruct (key_in key "qQ"); [by apply logout_speaks|apply wlp_quiet; eauto with silent].
  - destruct command as [c|]; [|apply wlp_quiet; eauto with silent].
    apply wlp_bind, wlp_modify, wlp_bind. eapply wlp_mono; [apply send_speaks; [|by eapply commandForKey_game]|].
    + split; [eapply speaks_same; [exact Hs|by repeat split]|apply Hp].
    + intros [] q Hq. destruct failed; apply wlp_quiet; eauto with silent.
Qed.

Lemma client_step_speaks first e p : speaks first p -> wlp (client_step e) (fun _ q => speaks first q) p.
Proof.
  intros Hp. unfold client_step. apply wlp_bind, wlp_gets. unfold id. destruct (cp_returned p) eqn:Hr; [by apply wlp_ret|].
  destruct e as [failed|received].
  - unfold key_round. apply wlp_bind. intros key q. unfold ReadByte. destruct (cp_keys p) as [|c keys]; intros E; injection E as E1 E2; subst key q.
    + apply wlp_quiet; [apply silent_return|done].
    + apply handleKey_speaks. split; [eapply speaks_same; [exact Hp|by repeat split]|done].
  - destruct (cp_done p); [by apply wlp_ret|]. apply wlp_quiet; [apply silent_receive|done].
Qed.

Lemma client_run_speaks first events : forall p, speaks first p -> wlp (client_run events) (fun _ q => speaks first q) p.
Proof.
  induction events as [|e events IH]; intros p Hp; [by apply wlp_ret|]. cbn [client_run].
  apply wlp_bind. eapply wlp_mono; [by apply client_step_speaks|]. intros [] q. apply IH.
Qed.

Lemma start_game_speaks c state t p :
  start_game c state t = Some p -> speaks (authRequest 1 (cr_mode c) (cr_username c) (cr_password c) (cr_confirm c)) p.
Proof.
  unfold start_game. destruct (draw _) as [[[] q]|] eqn:E; [|done]. intros [= <-].
  pose proof (silent_draw (mkClientProc (setState (Some state) initial_UI) 1 (String.concat "" (tt_reads t))
                [authRequest 1 (cr_mode c) (cr_username c) (cr_password c) (cr_confirm c)] [] false false)) as H.
  specialize (H _ _ E). eapply speaks_same; [|exact H]. exists [], []. repeat split; [constructor|by left].
Qed.

(** ** The whole process *)

(** Entering the game: with fuel for the bytes that the terminal delivers, the
    prompts end whatever is typed - also at the end of the input - and never ask
    for a connection with differing passwords; [main] goes on with the first attempt
    that the gateway accepts, or all attempts have failed.  A failed attempt has
    closed every connection it opened, the successful one keeps exactly one. *)
Theorem client_enters fuel nets reads :
  (total_length reads < fuel)%nat ->
  wp (enter fuel nets) (fun r _ => entered nets r) (mkTTY "" reads []) /\
  (forall net addr c, opened (auth net addr c).1 = match (auth net addr c).2 with inl _ => 0 | inr _ => 1 end).
Proof.
  intros Hf. split.
  - unfold enter. apply wp_bind. eapply wp_mono; [apply chooseGateway_ends; exact Hf|]. intros r t (H1 & addr & -> & Ha).
    eapply wp_mono; [apply authLoop_ends; unfold pending in H1 at 2; cbn in H1; lia|]. by intros r t' [_ H].
  - intros net addr c. pose proof (auth_closes net addr c) as H. by destruct (auth net addr c).
Qed.

(** A session of [main] that reached its loop. *)
Lemma main_speaks fuel nets raw_failed events reads p : (total_length reads < fuel)%nat ->
  main fuel nets raw_failed events reads = Some (Some p) ->
  exists c, auth_choice c /\ speaks (authRequest 1 (cr_mode c) (cr_username c) (cr_password c) (cr_confirm c)) p.
Proof.
  intros Hf. unfold main. destruct (client_enters fuel nets reads Hf) as [H _]. unfold wp in H.
  destruct (enter fuel nets _) as [[[[c state]|] t]|]; try done. destruct raw_failed; [done|].
  destruct (start_game c state t) as [q|] eqn:Es; [|done]. destruct (client_run events q) as [[[] q']|] eqn:Er; [|done].
  intros [= <-]. exists c. split; [apply H|]. apply start_game_speaks in Es. exact (client_run_speaks _ events q Es _ _ Er).
Qed.

(** *** Concrete sessions *)

Definition line (s : string) : string := s +:+ String newline "".

Definition demo_start : pb_WorldState :=
  mk_pb_WorldState (Some (mk_pb_PlayerView "ann" "cave" 1 0 90 120 35 3 9 0 1 0 true 0 ""))
    (Some (mk_pb_MapView "cave" "c" "node-a" 3 1 ["#.#"] [] [] [] 4)) [] [] None [] 1 2 3.

Definition refusing : Dial :=
  mkDial None None None (inr (Some (mk_pb_ServerEnvelope 1 (Some (ServerEnvelope_Error
    (Some (mk_pb_ErrorResponse ERROR_CODE_AUTH_FAILED "密码错误" false))))))).
Definition greeting : Dial :=
  mkDial None None None (inr (Some (mk_pb_ServerEnvelope 1 (Some (ServerEnvelope_Authenticated (Some (Some demo_start))))))).

(** A wrong choice, a registration whose passwords differ, a refused login and one
    that succeeds. *)
Definition demo_lines : list string :=
  line <$> ["3"; "2"; "10.0.0.7"; ""; "2"; "ann"; "pw"; "pq"; "1"; "ann"; "no"; ""; "ann"; " pw "].

Lemma client_enters_witness :
  exists t, enter 100 [refusing; greeting] (mkTTY "" demo_lines []) =
      Some (Some (mkCredentials authModeLogin "ann" "pw" "", demo_start), t) /\
    entered [refusing; greeting] (Some (mkCredentials authModeLogin "ann" "pw" "", demo_start)).
Proof.
  destruct (client_enters 100 [refusing; greeting] demo_lines ltac:(apply Nat.ltb_lt; vm_compute; reflexivity)) as [H _].
  destruct (enter 100 [refusing; greeting] (mkTTY "" demo_lines [])) as [[r t]|] eqn:E; [|vm_compute in E; discriminate E].
  unfold wp in H. rewrite E in H. exists t.
  assert (Hr : r = Some (mkCredentials authModeLogin "ann" "pw" "", demo_start)) by (vm_compute in E; injection E as <- _; reflexivity).
  rewrite <- Hr. by split.
Defined.

(** ** Two ways to stay *)

(** At the end of the input (Ctrl-D at a prompt) the answers are empty, which stand for
    a login without name and password: the loop of [main] repeats it for as long as
    the gateway refuses it, six lines of output each time. *)
Theorem end_of_input_retries addr n out :
  exists out', authLoop 1 addr (replicate n refusing) (mkTTY "" [] out) = Some (None, mkTTY "" [] out') /\
    length out' = (length out + 6 * n)%nat.
Proof.
  revert out. induction n as [|n IH]; intros out; [exists out; split; [done|lia]|].
  cbn [replicate authLoop]. unfold mbind, st_bind.
  destruct (chooseAuth 1 (mkTTY "" [] out)) as [[r t]|] eqn:E; cbn in E; [|discriminate E]. injection E as <- <-.
  assert (Ha : exists err, (auth refusing addr (mkCredentials authModeLogin "" "" "")).2 = inl err) by (by eexists).
  destruct Ha as [err Ha]. change (TrimSpace "") with "". rewrite Ha. unfold Print, modify.
  cbn [tt_buffer tt_reads tt_output]. destruct (IH (((((((out ++ [esc "[2J" +:+ esc "[H"]) ++ [renderBanner "身份验证" "1. 登录  2. 注册" +:+ eol]) ++
    [colorGold +:+ "[1/2] 请选择：" +:+ colorReset]) ++ [colorCyan +:+ "用户名：" +:+ colorReset]) ++ [colorCyan +:+ "密码：" +:+ colorReset]) ++
    [colorRed +:+ "进入失败：" +:+ err +:+ colorReset +:+ eol]))%list) as (out' & H1 & H2).
  exists out'. split; [exact H1|]. rewrite H2, !length_app. cbn. lia.
Qed.

(** In the raw modes the bit that turns Ctrl-C into a signal keeps its value, so that
    where it is set, as terminals have it, byte 3 never reaches [handleKey]. *)
Theorem raw_keeps_signals t mode :
  Z.land (tm_Lflag (linux_raw t)) linux_ISIG = Z.land (tm_Lflag t) linux_ISIG /\
  Z.land (tm_Lflag (darwin_raw t)) darwin_ISIG = Z.land (tm_Lflag t) darwin_ISIG /\
  Z.land (windows_raw mode) enableProcessedInput = Z.land mode enableProcessedInput.
Proof.
  assert (H : forall v mask bit, Z.land mask bit = 0 -> Z.land (bit_clear v mask) bit = Z.land v bit).
  { intros v mask bit Hm. apply Z.bits_inj'. intros n Hn. rewrite !Z.land_spec, bit_clear_spec by done.
    assert (E : Z.testbit mask n && Z.testbit bit n = false) by (by rewrite <- Z.land_spec, Hm, Z.bits_0).
    destruct (Z.testbit v n), (Z.testbit mask n), (Z.testbit bit n); done. }
  repeat split; by apply H.
Qed.
