(* ===== verification/GatewayServer.v ===== *)
(** * The gateway's service

    [cmd/gateway/gateway_errors.go], [gateway_handlers.go] and [gateway.go]: error
    codes, the handlers of the game stream, and the stream as a whole, over any
    implementation of the backend interface.  A handler's effects on the sender are
    its outputs; whether the sender still accepts controls is an input. *)

From Stdlib Require Import ZArith Lia String.
From stdpp Require Import base gmap strings list option.
From S2P Require Import Prelude Protocol Config Maps World WorldOps Topology Redis Store Users Authority Wire NodeWire GatewayWire Envelope.

Open Scope Z_scope.
Open Scope go_scope.

(** ** Errors *)

(** A Go error: what [status.Code] and [Error] say of it. *)
Record go_error := mkGoError {
  ge_Code : Code;
  ge_Text : string
}.

(** [errors.New] and [fmt.Errorf] without a wrapped error. *)
Definition plain (text : string) : go_error := mkGoError Unknown text.

Inductive errorKind := authError | commandError | stateError.
#[export] Instance errorKind_eq_dec : EqDecision errorKind.
Proof. solve_decision. Defined.

Definition containsAny (message : string) (fragments : list string) : bool := existsb (Contains message) fragments.

(** The first two tests of [mapError]: the status code, then the texts of
    statuses inside other errors. *)
Definition map_code (code : Code) : option (ErrorCode * bool) :=
  match code with
  | FailedPrecondition => Some (ERROR_CODE_STALE_ROUTE, true)
  | Unavailable | DeadlineExceeded => Some (ERROR_CODE_ROUTE_NOT_READY, true)
  | InvalidArgument => Some (ERROR_CODE_INVALID_REQUEST, false)
  | _ => None
  end.

Definition map_status_text (message : string) : option (ErrorCode * bool) :=
  if containsAny message ["code = FailedPrecondition"; "code = FAILED_PRECONDITION"] then Some (ERROR_CODE_STALE_ROUTE, true) else
  if containsAny message ["code = Unavailable"; "code = DeadlineExceeded"] then Some (ERROR_CODE_ROUTE_NOT_READY, true) else
  if containsAny message ["code = InvalidArgument"] then Some (ERROR_CODE_INVALID_REQUEST, false) else None.

Definition map_auth_text (message : string) : option (ErrorCode * bool) :=
  if containsAny message ["不能为空"; "不一致"; "请求不能为空"; "首条消息"] then Some (ERROR_CODE_INVALID_REQUEST, false) else
  if containsAny message ["不存在"; "密码"; "已经在线"] then Some (ERROR_CODE_AUTH_FAILED, Contains message "已经在线") else None.

Definition map_text (message : string) (kind : errorKind) : ErrorCode * bool :=
  if containsAny message ["路由"; "同步中"; "承载节点"; "topology authority unavailable"] then (ERROR_CODE_ROUTE_NOT_READY, true) else
  if containsAny message ["authority denied"; "stale topology"; "当前 epoch"; "epoch"] then (ERROR_CODE_STALE_ROUTE, true) else
  match kind with
  | stateError => (ERROR_CODE_ROUTE_NOT_READY, true)
  | commandError =>
      if containsAny message ["不能为空"; "不允许"; "缺少可识别"; "无效"] then (ERROR_CODE_INVALID_REQUEST, false)
      else (ERROR_CODE_COMMAND_REJECTED, false)
  | authError => (ERROR_CODE_INTERNAL, true)
  end.

(** [a] if it is there, else [b]. *)
Definition first_of {A} (a : option A) (b : A) : A := match a with Some x => x | None => b end.

Definition mapError (err : option go_error) (kind : errorKind) : ErrorCode * bool :=
  match err with
  | None => (ERROR_CODE_INTERNAL, true)
  | Some e =>
      first_of (map_code (ge_Code e))
        (first_of (map_status_text (ge_Text e))
          (first_of (if bool_decide (kind = authError) then map_auth_text (ge_Text e) else None)
            (map_text (ge_Text e) kind)))
  end.

Definition errorEnvelope (requestID : Z) (code : ErrorCode) (message : string) (retryable : bool) : pb_ServerEnvelope :=
  mk_pb_ServerEnvelope requestID (Some (ServerEnvelope_Error (Some (mk_pb_ErrorResponse code message retryable)))).

Definition gatewayError (requestID : Z) (err : go_error) (kind : errorKind) : pb_ServerEnvelope :=
  let '(code, retryable) := mapError (Some err) kind in errorEnvelope requestID code (ge_Text err) retryable.

(** ** The backend *)

(** [gatewayBackend]: a state or an error, or neither; [be_Free] returns a state to
    the shared pool. *)
Class gatewayBackend (S : Type) := {
  be_Register : string -> string -> string -> ST S (option go_error);
  be_Login : string -> string -> ST S (option WorldState * option go_error);
  be_QuickEnter : string -> string -> ST S (option WorldState * option go_error);
  be_Logout : string -> ST S (option go_error);
  be_SnapshotFor : string -> ST S (option WorldState * option go_error);
  be_Move : string -> string -> ST S (option WorldState * option go_error);
  be_Attack : string -> ST S (option WorldState * option go_error);
  be_AttackBoss : string -> ST S (option WorldState * option go_error);
  be_Heal : string -> ST S (option WorldState * option go_error);
  be_BuyItem : string -> string -> ST S (option WorldState * option go_error);
  be_SwitchMap : string -> string -> ST S (option WorldState * option go_error);
  be_GatewayStatus : ST S GatewayStatus;
  be_Free : WorldState -> ST S unit
}.

(** What a handler does to the stream and its sender. *)
Inductive output :=
  | OutSend (frame : pb_ServerEnvelope)
  | OutEnqueue (frame : pb_ServerEnvelope)
  | OutSubmit (state : pb_WorldState)
  | OutFinish.

Section server.
Context {S : Type} {backend : gatewayBackend S}.

Definition defaultGameStreamStateInterval : Z := 100 * Millisecond.
Definition gameStreamStateInterval (stateInterval : Z) : Z :=
  if 0 <? stateInterval then stateInterval else defaultGameStreamStateInterval.

Definition GetGatewayStatus : ST S (bool * Z * string * list pb_NodeView) :=
  status ← be_GatewayStatus;
  mret (gs_RoutingReady status, gs_TopologyVersion status, gs_Summary status, GatewayWire.ToNodeView <$> gs_Nodes status).

(** The text of an invalid direction goes through the enumeration's [String]. *)
Context (direction_name : pb_Direction -> string).

Definition parseDirection (direction : pb_Direction) : go_error + string :=
  match direction with
  | DIRECTION_UP => inr DirUp
  | DIRECTION_DOWN => inr DirDown
  | DIRECTION_LEFT => inr DirLeft
  | DIRECTION_RIGHT => inr DirRight
  | _ => inl (plain ("无效移动方向：" +:+ direction_name direction))
  end.

(** ** Authentication *)

Definition authenticateStream (request : option pb_ClientEnvelope) : ST S (string * option WorldState * option go_error) :=
  match request ≫= cle_Payload with
  | Some (ClientEnvelope_Login None) => mret ("", None, Some (plain "登录请求不能为空"))
  | Some (ClientEnvelope_Login (Some r)) =>
      '(state, err) ← be_Login (lr_Username r) (lr_Password r);
      mret (lr_Username r, state, err)
  | Some (ClientEnvelope_Register None) => mret ("", None, Some (plain "注册请求不能为空"))
  | Some (ClientEnvelope_Register (Some r)) =>
      failed ← be_Register (rr_Username r) (rr_Password r) (rr_ConfirmPassword r);
      match failed with
      | Some err => mret (rr_Username r, None, Some err)
      | None =>
          '(state, err) ← be_Login (rr_Username r) (rr_Password r);
          mret (rr_Username r, state, err)
      end
  | Some (ClientEnvelope_QuickEnter None) => mret ("", None, Some (plain "快速进入请求不能为空"))
  | Some (ClientEnvelope_QuickEnter (Some r)) =>
      '(state, err) ← be_QuickEnter (lr_Username r) (lr_Password r);
      mret (lr_Username r, state, err)
  | _ => mret ("", None, Some (plain "首条消息必须是登录、注册或快速进入请求"))
  end.

(** ** Commands *)

(** The backend and the [sync.Once] of the stream's logout. *)
Record StreamSt := mkStreamSt {
  sv_backend : S;
  sv_loggedOut : bool
}.

Definition onBackend {A} (m : ST S A) : ST StreamSt A :=
  zoom sv_backend (fun b s => mkStreamSt b (sv_loggedOut s)) m.

Definition logout (username : string) : ST StreamSt (option go_error) :=
  s ← gets id;
  if sv_loggedOut s then mret None else
  _ ← modify (fun s => mkStreamSt (sv_backend s) true);
  onBackend (be_Logout username).

(** The switch of [handleCommand]: the next state, the error, the confirmation
    and whether the stream is to be closed. *)
Definition acts (m : ST S (option WorldState * option go_error)) (message : string)
    : ST StreamSt (option WorldState * option go_error * string * bool) :=
  '(next, err) ← onBackend m; mret (next, err, message, false).
Definition refuses (text : string) : ST StreamSt (option WorldState * option go_error * string * bool) :=
  mret (None, Some (plain text), "", false).

Definition execute (username : string) (payload : option ClientPayload)
    : ST StreamSt (option WorldState * option go_error * string * bool) :=
  match payload with
  | Some (ClientEnvelope_Move None) => refuses "移动请求不能为空"
  | Some (ClientEnvelope_Move (Some d)) =>
      match parseDirection d with
      | inl err => mret (None, Some err, "", false)
      | inr direction => acts (be_Move username direction) "移动指令已接受"
      end
  | Some (ClientEnvelope_Attack None) => refuses "攻击请求不能为空"
  | Some (ClientEnvelope_Attack (Some _)) => acts (be_Attack username) "攻击指令已接受"
  | Some (ClientEnvelope_AttackBoss None) => refuses "首领攻击请求不能为空"
  | Some (ClientEnvelope_AttackBoss (Some _)) => acts (be_AttackBoss username) "首领攻击指令已接受"
  | Some (ClientEnvelope_Heal None) => refuses "治疗请求不能为空"
  | Some (ClientEnvelope_Heal (Some _)) => acts (be_Heal username) "治疗指令已接受"
  | Some (ClientEnvelope_BuyItem item) =>
      match item with
      | Some i => if bool_decide (TrimSpace i = "") then refuses "商品不能为空" else acts (be_BuyItem username i) "购买指令已接受"
      | None => refuses "商品不能为空"
      end
  | Some (ClientEnvelope_SwitchMap mapID) =>
      match mapID with
      | Some m => if bool_decide (TrimSpace m = "") then refuses "目标地图不能为空" else acts (be_SwitchMap username m) "切换地图指令已接受"
      | None => refuses "目标地图不能为空"
      end
  | Some (ClientEnvelope_Logout None) => refuses "退出请求不能为空"
  | Some (ClientEnvelope_Logout (Some _)) =>
      err ← logout username;
      match err with
      | None => mret (None, None, "已退出游戏", true)
      | Some e => mret (None, Some e, "", false)
      end
  | Some (ClientEnvelope_Login _) | Some (ClientEnvelope_Register _) | Some (ClientEnvelope_QuickEnter _) =>
      refuses "认证完成后不允许再次发送认证请求"
  | None => refuses "请求缺少可识别的命令 payload"
  end.

Definition free_next (next : option WorldState) : ST StreamSt unit :=
  match next with Some ws => onBackend (be_Free ws) | None => mret tt end.

(** [SubmitState] as far as its caller goes: convert, return to the pool. *)
Definition submit (next : option WorldState) : ST StreamSt (list output) :=
  match next with
  | Some ws => _ ← onBackend (be_Free ws); mret (OutSubmit <$> option_list (ToWorldState (Some ws)))
  | None => mret []
  end.

Definition command_result (requestID : Z) (message : string) : pb_ServerEnvelope :=
  mk_pb_ServerEnvelope requestID (Some (ServerEnvelope_CommandResult (Some message))).

(** [accepted] is what [EnqueueControl] answers.  The results are those of the
    code: close the stream, and whether the control was enqueued. *)
Definition handleCommand (accepted : bool) (username : string) (request : option pb_ClientEnvelope)
    : ST StreamSt (list output * bool * bool) :=
  let requestID := get 0 cle_RequestId request in
  if bool_decide (request = None) || (requestID =? 0) then
    mret ([OutEnqueue (errorEnvelope requestID ERROR_CODE_INVALID_REQUEST "request_id 必须为非零值" false)], false, accepted)
  else
  '(next, err, message, shouldClose) ← execute username (request ≫= cle_Payload);
  match err with
  | Some e => _ ← free_next next; mret ([OutEnqueue (gatewayError requestID e commandError)], false, accepted)
  | None =>
      let result := OutEnqueue (command_result requestID message) in
      if negb accepted then _ ← free_next next; mret ([result], false, false) else
      submitted ← submit next;
      mret (result :: submitted, shouldClose, true)
  end.

(** ** The state pump *)

(** One tick of [pumpStates]: the outputs, the last error, and whether the pump
    goes on. *)
Definition pumpTick (accepted : bool) (username lastError : string) : ST StreamSt (list output * string * bool) :=
  '(state, err) ← onBackend (be_SnapshotFor username);
  match err with
  | None => submitted ← submit state; mret (submitted, "", true)
  | Some e =>
      if bool_decide (ge_Text e = lastError) then mret ([], lastError, true) else
      mret ([OutEnqueue (gatewayError 0 e stateError)], ge_Text e, accepted)
  end.

(** ** The stream *)

(** What the goroutines of a stream meet, in the order they get to run: a tick of
    the pump, a received request, the end of the client's side, a failed [Recv],
    the sender being done, or the channel of requests being closed. *)
Inductive stream_event :=
  | EvTick (accepted : bool)
  | EvRequest (request : option pb_ClientEnvelope) (accepted : bool)
  | EvEOF
  | EvRecvError (err : go_error)
  | EvDone
  | EvInboundClosed.

(** The loop of [GameStream] and the pump beside it, up to the event that ends the
    loop; the result is what [GameStream] returns.  A list that ends without such an
    event is ended by the sender being done. *)
Fixpoint stream_loop (username : string) (lastError : string) (pumping : bool) (events : list stream_event)
    : ST StreamSt (list output * option go_error) :=
  match events with
  | [] => mret ([], None)
  | EvTick accepted :: events =>
      if negb pumping then stream_loop username lastError pumping events else
      '(outs, lastError, pumping) ← pumpTick accepted username lastError;
      '(rest, result) ← stream_loop username lastError pumping events;
      mret ((outs ++ rest)%list, result)
  | EvRequest request accepted :: events =>
      '(outs, shouldClose, enqueued) ← handleCommand accepted username request;
      if negb enqueued then mret (outs, None) else
      if shouldClose : bool then mret ((outs ++ [OutFinish])%list, None) else
      '(rest, result) ← stream_loop username lastError pumping events;
      mret ((outs ++ rest)%list, result)
  | EvEOF :: _ => mret ([OutFinish], None)
  | EvRecvError err :: _ => mret ([], Some err)
  | EvDone :: _ | EvInboundClosed :: _ => mret ([], None)
  end.

Definition initialError (requestID : Z) (code : ErrorCode) (message : string) (retryable : bool) (send_err : option go_error)
    : list output * option go_error :=
  ([OutSend (errorEnvelope requestID code message retryable)], Some (first_of send_err (plain message))).

(** [GameStream]: [first] is the first [Recv], [send_err] the error of the first
    [Send].  The deferred function logs the user out. *)
Definition GameStream (first : go_error + option pb_ClientEnvelope) (send_err : option go_error) (events : list stream_event)
    : ST S (list output * option go_error) :=
  match first with
  | inl err => mret ([], Some err)
  | inr request =>
      if get 0 cle_RequestId request =? 0
      then mret (initialError 0 ERROR_CODE_INVALID_REQUEST "request_id 必须为非零值" false send_err) else
      let requestID := get 0 cle_RequestId request in
      '(username, initialState, err) ← authenticateStream request;
      match err with
      | Some e => mret ([OutSend (gatewayError requestID e authError)], Some e)
      | None =>
          match initialState with
          | None => mret (initialError requestID ERROR_CODE_INTERNAL "认证成功但未返回世界状态" true send_err)
          | Some ws =>
              _ ← be_Free ws;
              let greeting := OutSend (mk_pb_ServerEnvelope requestID
                                 (Some (ServerEnvelope_Authenticated (Some (ToWorldState (Some ws)))))) in
              match send_err with
              | Some e => _ ← be_Logout username; mret ([greeting], Some e)
              | None =>
                  fun s =>
                    match (r ← stream_loop username "" true events; _ ← logout username; mret r) (mkStreamSt s false) with
                    | Some (outs, result, s') => Some ((greeting :: outs, result), sv_backend s')
                    | None => None
                    end
              end
          end
      end
  end.
End server.
