(* ===== verification/GatewayServerProps.v ===== *)
(** * The gateway's service: error codes and the life of a stream

    Properties of [GatewayServer] over any backend: what the error codes say, and
    that a stream logs its user out exactly once. *)

From Stdlib Require Import ZArith Lia String.
From stdpp Require Import base gmap strings list option.
From S2P Require Import Prelude Protocol Config Maps World WorldOps Topology Redis Store Users Authority Wire NodeWire GatewayWire Envelope GatewayServer.

Open Scope Z_scope.
Open Scope go_scope.

(** ** One logout per stream *)

(** A backend that records the logouts it is asked for. *)
Section counting.
Context {S : Type} (b : gatewayBackend S).

Definition lift {A} (m : ST S A) : ST (S * list string) A := zoom fst (fun s p => (s, p.2)) m.

#[local] Instance counted : gatewayBackend (S * list string) := {|
  be_Register u p c := lift (be_Register u p c);
  be_Login u p := lift (be_Login u p);
  be_QuickEnter u p := lift (be_QuickEnter u p);
  be_Logout u := _ ← modify (fun p => (p.1, (p.2 ++ [u])%list)); lift (be_Logout u);
  be_SnapshotFor u := lift (be_SnapshotFor u);
  be_Move u d := lift (be_Move u d);
  be_Attack u := lift (be_Attack u);
  be_AttackBoss u := lift (be_AttackBoss u);
  be_Heal u := lift (be_Heal u);
  be_BuyItem u i := lift (be_BuyItem u i);
  be_SwitchMap u m := lift (be_SwitchMap u m);
  be_GatewayStatus := lift be_GatewayStatus;
  be_Free ws := lift (be_Free ws)
|}.

Context (direction_name : pb_Direction -> string).

(** The logouts so far: none, or the stream's user once. *)
Definition once (u : string) (s : @StreamSt (S * list string)) : Prop :=
  (sv_backend s).2 = if sv_loggedOut s then [u] else [].

Lemma wlp_onBackend_lift {A} (m : ST S A) u (s : @StreamSt (S * list string)) (Q : A -> StreamSt -> Prop) :
  once u s -> (forall a s', once u s' -> sv_loggedOut s' = sv_loggedOut s -> Q a s') -> wlp (onBackend (lift m)) Q s.
Proof. intros Hs HQ. apply wlp_zoom, wlp_zoom. intros a s1 _. by apply HQ. Qed.

Lemma wlp_logout u (s : @StreamSt (S * list string)) :
  once u s -> wlp (logout u) (fun _ s' => once u s' /\ sv_loggedOut s' = true) s.
Proof.
  unfold once. intros Hs. unfold logout. apply wlp_bind, wlp_gets. unfold id. destruct (sv_loggedOut s) eqn:Hl.
  - apply wlp_ret. by rewrite Hl.
  - apply wlp_bind, wlp_modify, wlp_zoom. cbn [be_Logout counted]. apply wlp_bind, wlp_modify, wlp_zoom.
    intros a s1 _. cbn. by rewrite Hs.
Qed.

(** [m] keeps the count. *)
Definition logs_once {A} (u : string) (m : ST (@StreamSt (S * list string)) A) : Prop :=
  forall s, once u s -> wlp m (fun _ => once u) s.

Lemma logs_ret {A} u (a : A) : logs_once u (mret a).
Proof. intros s Hs. by apply wlp_ret. Qed.

Lemma logs_bind {A B} u (m : ST StreamSt A) (f : A -> ST StreamSt B) :
  logs_once u m -> (forall a, logs_once u (f a)) -> logs_once u (m ≫= f).
Proof. intros Hm Hf s Hs. apply wlp_bind. eapply wlp_mono; [by apply Hm|]. intros a s1. apply Hf. Qed.

Lemma logs_lift {A} u (m : ST S A) : logs_once u (onBackend (lift m)).
Proof. intros s Hs. by eapply wlp_onBackend_lift; [exact Hs|]. Qed.

Lemma logs_logout u : logs_once u (logout u).
Proof. intros s Hs. eapply wlp_mono; [by apply wlp_logout|]. by intros ? ? [? _]. Qed.

(** Every piece of a handler keeps the count. *)
Ltac keeps :=
  repeat first
    [ apply logs_ret | apply logs_logout | apply logs_lift
    | apply logs_bind; [|intros ?]
    | match goal with
      | |- logs_once _ (match ?x with _ => _ end) => destruct x
      | |- logs_once _ (if ?x then _ else _) => destruct x
      | |- logs_once _ (let '(_, _) := ?x in _) => destruct x
      end ].

Lemma logs_execute u payload : logs_once u (execute direction_name u payload).
Proof. unfold execute, acts, refuses. keeps. Qed.

Lemma logs_free u next : logs_once u (free_next next).
Proof. unfold free_next. keeps. Qed.

Lemma logs_submit u next : logs_once u (submit next).
Proof. unfold submit. keeps. Qed.

Lemma logs_handleCommand u accepted request : logs_once u (handleCommand direction_name accepted u request).
Proof.
  unfold handleCommand. destruct (_ || _); [apply logs_ret|]. apply logs_bind; [apply logs_execute|].
  intros [[[next [e|]] message] shouldClose]; [apply logs_bind; [apply logs_free|intros; apply logs_ret]|].
  destruct accepted; cbn [negb]; (apply logs_bind; [apply logs_submit || apply logs_free|intros; apply logs_ret]).
Qed.

Lemma logs_pumpTick u accepted lastError : logs_once u (pumpTick accepted u lastError).
Proof.
  unfold pumpTick. apply logs_bind; [apply logs_lift|]. intros [state [e|]]; [keeps|].
  apply logs_bind; [apply logs_submit|intros; apply logs_ret].
Qed.

Lemma logs_loop u events : forall lastError pumping, logs_once u (stream_loop direction_name u lastError pumping events).
Proof.
  induction events as [|ev events IH]; intros lastError pumping; [apply logs_ret|]. cbn [stream_loop].
  destruct ev; try apply logs_ret.
  - destruct pumping; cbn [negb]; [|apply IH]. apply logs_bind; [apply logs_pumpTick|]. intros [[outs le] p].
    apply logs_bind; [apply IH|]. intros [rest result]. apply logs_ret.
  - apply logs_bind; [apply logs_handleCommand|]. intros [[outs shouldClose] enqueued].
    destruct enqueued; cbn [negb]; [|apply logs_ret]. destruct shouldClose; [apply logs_ret|].
    apply logs_bind; [apply IH|]. intros [rest result]. apply logs_ret.
Qed.

(** The user an authentication request names. *)
Definition named_user (request : option pb_ClientEnvelope) : string :=
  match request ≫= cle_Payload with
  | Some (ClientEnvelope_Login (Some r)) | Some (ClientEnvelope_QuickEnter (Some r)) => lr_Username r
  | Some (ClientEnvelope_Register (Some r)) => rr_Username r
  | _ => ""
  end.

Lemma wlp_authenticate request s l :
  wlp (authenticateStream request) (fun r s' => s'.2 = l /\ r.1.1 = named_user request) ((s, l) : S * list string).
Proof.
  assert (Hl : forall A (m : ST S A) (Q : A -> S * list string -> Prop), (forall a s', Q a (s', l)) -> wlp (lift m) Q (s, l)).
  { intros A m Q HQ. apply wlp_zoom. intros a s' _. apply HQ. }
  unfold authenticateStream, named_user. destruct (request ≫= cle_Payload) as [[[r|]|[r|]|[r|]| | | | | | |]|];
    try (by apply wlp_ret).
  - apply wlp_bind, Hl. intros [state err] s'. by apply wlp_ret.
  - apply wlp_bind, wlp_zoom. intros [e|] s1 _; [by apply wlp_ret|].
    apply wlp_bind, wlp_zoom. intros [state err] s2 _. by apply wlp_ret.
  - apply wlp_bind, Hl. intros [state err] s'. by apply wlp_ret.
Qed.

(** The stream greeted its user. *)
Definition greets (o : output) : bool :=
  match o with OutSend f => bool_decide (is_Some (sve_GetAuthenticated (Some f))) | _ => false end.

(** C38. One logout per stream: whatever the backend answers and whatever happens
    on the stream (commands, ticks, a logout command, the client's end, a failed
    [Recv] or [Send], an abort), once [GameStream] has greeted its user it asks the
    backend exactly once to log that user out before it returns; without a greeting
    it never does. *)
Theorem stream_logs_out first send_err events s outs result s' log :
  GameStream direction_name first send_err events (s, []) = Some ((outs, result), (s', log)) ->
  match first, outs with
  | inr request, o :: _ => log = if greets o then [named_user request] else []
  | _, _ => log = []
  end.
Proof.
  intros Hrun. enough (H : wlp (GameStream direction_name first send_err events) (fun r p =>
    match first, r.1 with inr request, o :: _ => p.2 = if greets o then [named_user request] else [] | _, _ => p.2 = [] end)
    (s, [])) by exact (H _ _ Hrun).
  clear Hrun. unfold GameStream. destruct first as [err|request]; [by apply wlp_ret|].
  destruct (_ =? 0); [by apply wlp_ret|]. apply wlp_bind. eapply wlp_mono; [apply wlp_authenticate|].
  intros [[username state] err] [s1 l1]. cbn. intros [-> ->].
  destruct err as [e|]; [apply wlp_ret; cbn; unfold gatewayError; by destruct (mapError _ _)|].
  destruct state as [ws|]; [|by apply wlp_ret].
  apply wlp_bind, wlp_zoom. intros [] s2 _. destruct send_err as [e|].
  - apply wlp_bind. cbn [be_Logout counted]. apply wlp_bind, wlp_modify, wlp_zoom. intros a s3 _. by apply wlp_ret.
  - intros [outs2 result2] [s4 log4] H. cbn in H.
    pose proof (logs_loop (named_user request) events "" true (mkStreamSt (s2, []) false) eq_refl) as Hk.
    unfold mbind, st_bind in H.
    destruct (stream_loop direction_name (named_user request) "" true events (mkStreamSt (s2, []) false)) as [[r t]|] eqn:Hl; [|done].
    specialize (Hk _ _ Hl). cbn beta in Hk.
    destruct (logout (named_user request) t) as [[o t2]|] eqn:Ho; [|done].
    destruct (wlp_logout (named_user request) t Hk _ _ Ho) as [Hc Hd].
    destruct r as [outs3 result3]. cbn in H. injection H as <- <- Hs. cbn.
    unfold once in Hc. rewrite Hd in Hc. rewrite Hs in Hc. exact Hc.
Qed.
End counting.

(** A backend that always answers the same. *)
Definition demo_world_state : WorldState := mkWorldState zero_PlayerView zero_MapView [] [] zero_BossView [] 1 1 1.
Definition demo_backend : gatewayBackend unit := {|
  be_Register _ _ _ := mret None;
  be_Login _ _ := mret (Some demo_world_state, None);
  be_QuickEnter _ _ := mret (Some demo_world_state, None);
  be_Logout _ := mret None;
  be_SnapshotFor _ := mret (None, Some (plain "地图状态正在同步中，请稍候"));
  be_Move _ _ := mret (Some demo_world_state, None);
  be_Attack _ := mret (None, Some (plain "攻击请求被拒绝"));
  be_AttackBoss _ := mret (None, None);
  be_Heal _ := mret (Some demo_world_state, None);
  be_BuyItem _ _ := mret (Some demo_world_state, None);
  be_SwitchMap _ _ := mret (Some demo_world_state, None);
  be_GatewayStatus := mret (mkGatewayStatus "" true 1 []);
  be_Free _ := mret tt
|}.

(** A move, a tick, then a logout command. *)
Definition demo_login : pb_ClientEnvelope := mk_pb_ClientEnvelope 1 (Some (ClientEnvelope_Login (Some (mk_pb_LoginRequest "ann" "pw")))).
Definition demo_events : list stream_event :=
  [EvRequest (Some (mk_pb_ClientEnvelope 2 (Some (ClientEnvelope_Move (Some DIRECTION_UP))))) true; EvTick true;
   EvRequest (Some (mk_pb_ClientEnvelope 3 (Some (ClientEnvelope_Logout (Some tt))))) true].

Lemma stream_logs_out_witness :
  exists outs result s', GameStream (backend := counted demo_backend) (fun _ => "") (inr (Some demo_login)) None demo_events (tt, [])
    = Some ((outs, result), (s', ["ann"])) /\ length outs = 6%nat.
Proof.
  destruct (GameStream (backend := counted demo_backend) (fun _ => "") (inr (Some demo_login)) None demo_events (tt, []))
    as [[[outs result] [s' log]]|] eqn:E; [|vm_compute in E; discriminate E].
  pose proof (stream_logs_out demo_backend (fun _ => "") _ _ _ _ _ _ _ _ E) as H.
  exists outs, result, s'. split; [|vm_compute in E; injection E as <- <- <- <-; reflexivity].
  destruct outs as [|o outs]; [vm_compute in E; discriminate E|]. rewrite H. vm_compute in E. injection E as <- <- <- <- <-. reflexivity.
Defined.

(** ** Error codes *)

(** The error of registering a user that exists is reported as an internal error
    that may be retried, though it is the caller's and permanent. *)
Lemma existing_user_internal :
  mapError (Some (plain ("用户 " +:+ of_bytes [34%nat] +:+ "ann" +:+ of_bytes [34%nat] +:+ " 已存在"))) authError = (ERROR_CODE_INTERNAL, true).
Proof. vm_compute. reflexivity. Qed.

Lemma Contains_prefix fragment rest : Contains (fragment +:+ rest) fragment = true.
Proof.
  assert (H : forall a b, String.prefix a (a +:+ b) = true).
  { induction a as [|c a IH]; intros b; [by destruct b|].
    change (String.prefix (String c a) (String c (a +:+ b)) = true). cbn [String.prefix].
    destruct (Ascii.ascii_dec c c); [apply IH|done]. }
  specialize (H fragment rest). destruct (fragment +:+ rest); cbn [Contains]; by rewrite H.
Qed.

Lemma Contains_app before fragment rest : Contains (before +:+ fragment +:+ rest) fragment = true.
Proof.
  induction before as [|c before IH]; [exact (Contains_prefix fragment rest)|].
  change (String c before +:+ fragment +:+ rest) with (String c (before +:+ fragment +:+ rest)). cbn [Contains].
  rewrite IH. apply orb_true_r.
Qed.
