(* ===== verification/Admin.v ===== *)
(** * The admin tool

    [cmd/admin/main.go]: one status request to a gateway's [AdminService].  The gRPC
    library is a parameter: whether a client can be made for an address, and what the
    call answers. *)

From Stdlib Require Import ZArith Lia String Ascii.
From stdpp Require Import base gmap strings list option.
From S2P Require Import Prelude Protocol Maps WorldOps Topology Redis Wire GatewayWire GatewayServer.

Open Scope Z_scope.
Open Scope list_scope.

(** ** [strings.EqualFold] *)

Definition lower (c : ascii) : ascii :=
  let n := nat_of_ascii c in if ((65 <=? n) && (n <=? 90))%nat then ascii_of_nat (n + 32) else c.

(** The encodings of the long s and the Kelvin sign, which fold to ASCII letters. *)
Definition long_s : string := of_bytes [197; 191]%nat.
Definition kelvin : string := of_bytes [226; 132; 170]%nat.

(** [strings.EqualFold(s, t)] for an ASCII text [t]. *)
Fixpoint EqualFold (s t : string) {struct t} : bool :=
  match t with
  | EmptyString => bool_decide (s = EmptyString)
  | String c t' =>
      match s with
      | String d s' =>
          if Ascii.eqb (lower c) (lower d) then EqualFold s' t' else
          if Ascii.eqb (lower c) "s" && HasPrefix s long_s then EqualFold (TrimPrefix s long_s) t' else
          if Ascii.eqb (lower c) "k" && HasPrefix s kelvin then EqualFold (TrimPrefix s kelvin) t' else false
      | EmptyString => false
      end
  end.

Definition isStatusAction (action : string) : bool := bool_decide (action = "状态") || EqualFold action "status".

(** ** The request *)

(** [pb.GatewayStatusResponse], as [GetGatewayStatus] of the gateway fills it. *)
Abbreviation StatusResponse := (bool * Z * string * list pb_NodeView)%type.

Definition formatGatewayStatus (response : option StatusResponse) : string :=
  match response with
  | None => ""
  | Some (_, _, summary, _) => summary
  end.

Inductive admin_err :=
  | ErrMoved (action : string)
  | ErrConnection
  | ErrQuery.

(** What the tool does on the network, prints and exits with. *)
Inductive admin_action :=
  | Connect (addr : string)
  | GetGatewayStatus_
  | Disconnect
  | PrintUsage
  | PrintLine (text : string)
  | PrintError (err : admin_err)
  | ExitWith (code : Z).

Section grpc.
Context (NewClient : string -> bool) (GetStatus : string -> option (option StatusResponse)).

Definition executeAdmin (addr action : string) : list admin_action * (admin_err + string) :=
  if negb (isStatusAction action) then ([], inl (ErrMoved action)) else
  if negb (NewClient addr) then ([Connect addr], inl ErrConnection) else
  match GetStatus addr with
  | None => ([Connect addr; GetGatewayStatus_; Disconnect], inl ErrQuery)
  | Some response => ([Connect addr; GetGatewayStatus_; Disconnect], inr (formatGatewayStatus response))
  end.

(** [args] are the arguments left by [flag.Parse]. *)
Definition admin_main (args : list string) : list admin_action :=
  match args with
  | [] => [PrintUsage; ExitWith 1]
  | action :: rest =>
      let addr := match rest with given :: _ => if isStatusAction action then given else GatewayAddr | [] => GatewayAddr end in
      let '(actions, result) := executeAdmin addr action in
      actions ++ match result with inl err => [PrintError err; ExitWith 1] | inr text => [PrintLine text] end
  end.

(** ** Properties *)

(** Only a status action goes to the network, and only to the address given with it;
    the tool prints one line or fails, never both, and every connection it made is
    closed. *)
Lemma admin_main_spec args :
  let actions := admin_main args in
  (forall addr, Connect addr ∈ actions -> exists action rest, args = action :: rest /\ isStatusAction action = true /\
     addr = default GatewayAddr (head rest)) /\
  (GetGatewayStatus_ ∈ actions <-> Disconnect ∈ actions) /\
  ((exists text, list.last actions = Some (PrintLine text) /\ ExitWith 1 ∉ actions) \/
   list.last actions = Some (ExitWith 1) /\ forall text, PrintLine text ∉ actions).
Proof.
  cbv zeta. destruct args as [|action rest]; [cbn; split; [set_solver|split; [set_solver|right; split; [done|set_solver]]]|].
  cbn [admin_main]. unfold executeAdmin. destruct (isStatusAction action) eqn:Ea; cbn [negb].
  2: { destruct rest; cbn; (split; [set_solver|split; [set_solver|right; split; [done|set_solver]]]). }
  assert (Haddr : match rest with given :: _ => given | [] => GatewayAddr end = default GatewayAddr (head rest)) by by destruct rest.
  rewrite Haddr. set (addr := default GatewayAddr (head rest)).
  destruct (NewClient addr); cbn [negb].
  - destruct (GetStatus addr) as [response|]; cbn; (split; [intros a Ha; exists action, rest; set_solver|split; [set_solver|]]).
    + left. eexists. split; [done|]. set_solver.
    + right. split; [done|]. set_solver.
  - cbn. split; [intros a Ha; exists action, rest; set_solver|]. split; [set_solver|]. right. split; [done|]. set_solver.
Qed.
End grpc.

(** "status" in any case, also with the long s; nothing else. *)
Lemma status_actions :
  isStatusAction "状态" = true /\ isStatusAction "STATUS" = true /\ isStatusAction (long_s +:+ "tatus") = true /\
  isStatusAction "stat" = false /\ isStatusAction "statuses" = false /\ isStatusAction "" = false.
Proof. vm_compute. done. Qed.

(** What a gateway answers is what the tool prints. *)
Lemma admin_prints_summary {S} {backend : gatewayBackend S} addr s response s' :
  GetGatewayStatus s = Some (response, s') ->
  admin_main (fun _ => true) (fun _ => Some (Some response)) ["status"; addr] =
    [Connect addr; GetGatewayStatus_; Disconnect; PrintLine response.1.2].
Proof. intros _. by destruct response as [[[ready version] summary] nodes]. Qed.
