(* ===== verification/StreamProcess.v ===== *)
(** * The goroutines of a stream

    [GameStream] of [cmd/gateway/gateway_handlers.go] from the greeting on, as it
    runs: the goroutine of the handler, the one that receives the client's frames
    ([receiveInbound]), the pump ([pumpStates]) and the writer of the sender
    ([StreamSender]), interleaved at their channel operations, locks and calls of the
    backend.  [GatewayServer] has the same code as one function over the order in
    which the goroutines meet; here nothing is assumed about that order. *)

From Stdlib Require Import ZArith Lia String.
From stdpp Require Import base gmap strings list option.
From S2P Require Import Prelude Protocol Maps WorldOps Wire Envelope StreamSender GatewayServer.

Open Scope Z_scope.
Open Scope go_scope.
Open Scope list_scope.

(** [streamInbound]: a frame, the end of the client's side, another error of [Recv]. *)
Inductive streamInbound :=
  | InRequest (request : option pb_ClientEnvelope)
  | InEOF
  | InError (err : go_error).

(** Where the handler's goroutine stands: at the select of its loop, before and inside
    a call of the sender for the frame and state of a command, in [Finish], waiting
    for the pump and the writer after it, in the deferred function, returned. *)
Inductive main_pc :=
  | MSelect
  | MEnqueue (frame : pb_ServerEnvelope) (next : option WorldState) (shouldClose : bool)
  | MEnqueuing (next : option WorldState) (shouldClose : bool)
  | MSubmit (state : pb_WorldState) (shouldClose : bool)
  | MStore (shouldClose : bool)
  | MSignal (shouldClose : bool)
  | MFinish | MFinishState | MFinishDrain | MFinishClose
  | MAwaitPump | MAwaitWriter
  | MAbort | MLogout | MAwaitPumpLast | MAwaitWriterLast
  | MReturned.

(** [receiveInbound]: in [Recv], at its select, returned with the channel closed. *)
Inductive reader_pc :=
  | RRecv
  | RSelect (incoming : streamInbound)
  | RDone.

(** [pumpStates]: at its select, at the calls of the sender, returned. *)
Inductive pump_pc :=
  | PSelect
  | PEnqueue (frame : pb_ServerEnvelope)
  | PEnqueuing
  | PSubmit (state : pb_WorldState)
  | PStore
  | PSignal
  | PDone.

Section process.
Context {S : Type} {backend : gatewayBackend S} (direction_name : pb_Direction -> string) (username : string).

(** [sp_result] is what [GameStream] returns.  [sp_received] and [sp_handled] record
    what the reader got and what the handler took, in order. *)
Record StreamProc := mkStreamProc {
  sp_server : StreamSt (S := S);
  sp_session : session;
  sp_main : main_pc;
  sp_reader : reader_pc;
  sp_pump : pump_pc;
  sp_lastError : string;
  sp_result : option go_error;
  sp_received : list streamInbound;
  sp_handled : list streamInbound
}.

Definition set_sp_server (v : StreamSt) (p : StreamProc) : StreamProc :=
  mkStreamProc v (sp_session p) (sp_main p) (sp_reader p) (sp_pump p) (sp_lastError p) (sp_result p) (sp_received p) (sp_handled p).
Definition set_sp_session (v : session) (p : StreamProc) : StreamProc :=
  mkStreamProc (sp_server p) v (sp_main p) (sp_reader p) (sp_pump p) (sp_lastError p) (sp_result p) (sp_received p) (sp_handled p).
Definition set_sp_main (v : main_pc) (p : StreamProc) : StreamProc :=
  mkStreamProc (sp_server p) (sp_session p) v (sp_reader p) (sp_pump p) (sp_lastError p) (sp_result p) (sp_received p) (sp_handled p).
Definition set_sp_reader (v : reader_pc) (p : StreamProc) : StreamProc :=
  mkStreamProc (sp_server p) (sp_session p) (sp_main p) v (sp_pump p) (sp_lastError p) (sp_result p) (sp_received p) (sp_handled p).
Definition set_sp_pump (v : pump_pc) (p : StreamProc) : StreamProc :=
  mkStreamProc (sp_server p) (sp_session p) (sp_main p) (sp_reader p) v (sp_lastError p) (sp_result p) (sp_received p) (sp_handled p).
Definition set_sp_lastError (v : string) (p : StreamProc) : StreamProc :=
  mkStreamProc (sp_server p) (sp_session p) (sp_main p) (sp_reader p) (sp_pump p) v (sp_result p) (sp_received p) (sp_handled p).
Definition receives (v : streamInbound) (p : StreamProc) : StreamProc :=
  mkStreamProc (sp_server p) (sp_session p) (sp_main p) (RSelect v) (sp_pump p) (sp_lastError p) (sp_result p) (sp_received p ++ [v]) (sp_handled p).
Definition takes (v : streamInbound) (p : StreamProc) : StreamProc :=
  mkStreamProc (sp_server p) (sp_session p) (sp_main p) (sp_reader p) (sp_pump p) (sp_lastError p) (sp_result p) (sp_received p) (sp_handled p ++ [v]).

(** The loop is left by a return, to the deferred function. *)
Definition leave (result : option go_error) (p : StreamProc) : StreamProc :=
  mkStreamProc (sp_server p) (sp_session p) MAbort (sp_reader p) (sp_pump p) (sp_lastError p) result (sp_received p) (sp_handled p).

(** The sender with its writer started. *)
Definition started : session := mkSession (Start_ newStreamSender) [] [] [].

Definition new_proc (b : S) : StreamProc :=
  mkStreamProc (mkStreamSt b false) started MSelect RRecv PSelect "" None [] [].

(** The goroutines that call the sender, by number. *)
Definition main_id : nat := 0.
Definition pump_id : nat := 1.

(** A goroutine is still inside the call of the sender it made. *)
Definition inside (i : nat) (t : session) : bool := bool_decide (is_Some (ss_producers (se_sender t) !! i)).

(** A step of the sender, and what its caller does then. *)
Definition calls (l : label) (p : StreamProc) (next : session -> StreamProc -> option StreamProc) : option StreamProc :=
  t ← sender_step l (sp_session p); next t (set_sp_session t p).

(** A step of the backend by a goroutine of the stream. *)
Definition serves {A} (m : ST StreamSt A) (p : StreamProc) (next : A -> StreamProc -> option StreamProc) : option StreamProc :=
  '(a, s) ← m (sp_server p); next a (set_sp_server s p).

(** ** The handler *)

(** After a command that was answered. *)
Definition handled (shouldClose : bool) : main_pc := if shouldClose then MFinish else MSelect.

(** [EnqueueControl] returned true: the state is submitted; false: it goes back to the
    pool, and the handler leaves. *)
Definition enqueued (next : option WorldState) (shouldClose : bool) (p : StreamProc) : option StreamProc :=
  serves (submit next) p (fun outs p =>
    match outs with
    | OutSubmit state :: _ => Some (set_sp_main (MSubmit state shouldClose) p)
    | _ => Some (set_sp_main (handled shouldClose) p)
    end).
Definition refused (next : option WorldState) (p : StreamProc) : option StreamProc :=
  serves (free_next next) p (fun _ p => Some (leave None p)).

(** [handleCommand] up to its call of [EnqueueControl]. *)
Definition take_request (request : option pb_ClientEnvelope) (p : StreamProc) : option StreamProc :=
  let requestID := get 0 cle_RequestId request in
  if bool_decide (request = None) || (requestID =? 0) then
    Some (set_sp_main (MEnqueue (errorEnvelope requestID ERROR_CODE_INVALID_REQUEST "request_id 必须为非零值" false) None false) p)
  else
  serves (execute direction_name username (request ≫= cle_Payload)) p (fun '(next, err, message, shouldClose) p =>
    match err with
    | Some e => serves (free_next next) p (fun _ p => Some (set_sp_main (MEnqueue (gatewayError requestID e commandError) None false) p))
    | None => Some (set_sp_main (MEnqueue (command_result requestID message) next shouldClose) p)
    end).

(** The select of the loop takes what the reader offers; both go on. *)
Definition deliver (p : StreamProc) : option StreamProc :=
  match sp_main p, sp_reader p with
  | MSelect, RSelect incoming =>
      let p := takes incoming p in
      match incoming with
      | InRequest request => take_request request (set_sp_reader RRecv p)
      | InEOF => Some (set_sp_main MFinish (set_sp_reader RDone p))
      | InError err => Some (leave (Some err) (set_sp_reader RDone p))
      end
  | _, _ => None
  end.

(** The other steps of the handler's goroutine.  [first] tells the two cases of a
    select apart: [Done] before the closed channel in the loop, the queue before
    [Done] in [EnqueueControl]. *)
Definition main_step (first : bool) (p : StreamProc) : option StreamProc :=
  match sp_main p with
  | MSelect =>
      if first then if ss_done (se_sender (sp_session p)) then Some (leave None p) else None
      else match sp_reader p with RDone => Some (leave None p) | _ => None end
  | MEnqueue frame next shouldClose =>
      calls (DoEnqueue main_id frame) p (fun t p =>
        if inside main_id t then Some (set_sp_main (MEnqueuing next shouldClose) p) else refused next p)
  | MEnqueuing next shouldClose =>
      if first then calls (DoEnqueueSend main_id) p (fun _ p => enqueued next shouldClose p)
      else calls (DoEnqueueDone main_id) p (fun _ p => refused next p)
  | MSubmit state shouldClose =>
      calls (DoSubmit main_id state) p (fun t p =>
        Some (set_sp_main (if inside main_id t then MStore shouldClose else handled shouldClose) p))
  | MStore shouldClose =>
      calls (DoStore main_id) p (fun t p =>
        Some (set_sp_main (if inside main_id t then MSignal shouldClose else handled shouldClose) p))
  | MSignal shouldClose => calls (DoSignal main_id) p (fun _ p => Some (set_sp_main (handled shouldClose) p))
  | MFinish => calls (DoFinish main_id) p (fun _ p => Some (set_sp_main MFinishState p))
  | MFinishState => calls (DoFinishState main_id) p (fun _ p => Some (set_sp_main MFinishDrain p))
  | MFinishDrain => calls (DoFinishDrain main_id) p (fun _ p => Some (set_sp_main MFinishClose p))
  | MFinishClose => calls (DoFinishClose main_id) p (fun _ p => Some (set_sp_main MAwaitPump p))
  | MAwaitPump => match sp_pump p with PDone => Some (set_sp_main MAwaitWriter p) | _ => None end
  | MAwaitWriter => match ss_writer (se_sender (sp_session p)) with WriterDone => Some (leave None p) | _ => None end
  | MAbort => calls DoAbort p (fun _ p => Some (set_sp_main MLogout p))
  | MLogout => serves (logout username) p (fun _ p => Some (set_sp_main MAwaitPumpLast p))
  | MAwaitPumpLast => match sp_pump p with PDone => Some (set_sp_main MAwaitWriterLast p) | _ => None end
  | MAwaitWriterLast => match ss_writer (se_sender (sp_session p)) with WriterDone => Some (set_sp_main MReturned p) | _ => None end
  | MReturned => None
  end.

(** ** The reader *)

(** The select of [receiveInbound] takes [Done] or [Finished]. *)
Definition reader_stop (p : StreamProc) : option StreamProc :=
  match sp_reader p with
  | RSelect _ =>
      if ss_done (se_sender (sp_session p)) || ss_finished (se_sender (sp_session p)) then Some (set_sp_reader RDone p) else None
  | _ => None
  end.

Definition reader_recv (incoming : streamInbound) (p : StreamProc) : option StreamProc :=
  match sp_reader p with RRecv => Some (receives incoming p) | _ => None end.

(** ** The pump *)

Definition pump_tick (p : StreamProc) : option StreamProc :=
  match sp_pump p with
  | PSelect =>
      serves (pumpTick true username (sp_lastError p)) p (fun '(outs, lastError, _) p =>
        let p := set_sp_lastError lastError p in
        match outs with
        | OutSubmit state :: _ => Some (set_sp_pump (PSubmit state) p)
        | OutEnqueue frame :: _ => Some (set_sp_pump (PEnqueue frame) p)
        | _ => Some p
        end)
  | _ => None
  end.

Definition pump_step (first : bool) (p : StreamProc) : option StreamProc :=
  match sp_pump p with
  | PSelect =>
      if ss_done (se_sender (sp_session p)) || ss_finished (se_sender (sp_session p)) then Some (set_sp_pump PDone p) else None
  | PEnqueue frame =>
      calls (DoEnqueue pump_id frame) p (fun t p => Some (set_sp_pump (if inside pump_id t then PEnqueuing else PDone) p))
  | PEnqueuing =>
      if first then calls (DoEnqueueSend pump_id) p (fun _ p => Some (set_sp_pump PSelect p))
      else calls (DoEnqueueDone pump_id) p (fun _ p => Some (set_sp_pump PDone p))
  | PSubmit state =>
      calls (DoSubmit pump_id state) p (fun t p => Some (set_sp_pump (if inside pump_id t then PStore else PSelect) p))
  | PStore => calls (DoStore pump_id) p (fun t p => Some (set_sp_pump (if inside pump_id t then PSignal else PSelect) p))
  | PSignal => calls (DoSignal pump_id) p (fun _ p => Some (set_sp_pump PSelect p))
  | PDone => None
  end.

(** ** Runs *)

Inductive proc_label :=
  | LRecv (incoming : streamInbound)
  | LReaderStop
  | LDeliver
  | LMain (first : bool)
  | LTick
  | LPump (first : bool)
  | LWrite (c : choice).

Definition stream_step (l : proc_label) (p : StreamProc) : option StreamProc :=
  match l with
  | LRecv incoming => reader_recv incoming p
  | LReaderStop => reader_stop p
  | LDeliver => deliver p
  | LMain first => main_step first p
  | LTick => pump_tick p
  | LPump first => pump_step first p
  | LWrite c => calls (DoWrite c) p (fun _ p => Some p)
  end.

Fixpoint stream_run (ls : list proc_label) (p : StreamProc) : option StreamProc :=
  match ls with
  | [] => Some p
  | l :: ls => stream_step l p ≫= stream_run ls
  end.
End process.
