(* ===== verification/StreamProcessProps.v ===== *)
(** * The goroutines of a stream: answers, and the end

    Properties of [StreamProcess] over all interleavings: every request is answered
    once and in order, and once the handler has left its loop everything ends. *)

From Stdlib Require Import ZArith Lia String.
From stdpp Require Import base gmap strings list option.
From S2P Require Import Prelude Protocol Maps WorldOps Wire Envelope StreamSender StreamSenderProps GatewayServer StreamProcess.

Open Scope Z_scope.
Open Scope list_scope.

#[local] Arguments sender_step : simpl never.
#[local] Arguments inside : simpl never.
#[local] Arguments main_id : simpl never.
#[local] Arguments pump_id : simpl never.

(** ** What a step of the sender leaves alone *)

(** The goroutine a step belongs to. *)
Definition caller (l : label) : option nat :=
  match l with
  | DoEnqueue i _ | DoEnqueueSend i | DoEnqueueDone i | DoSubmit i _ | DoStore i | DoSignal i
  | DoFinish i | DoFinishState i | DoFinishDrain i | DoFinishClose i => Some i
  | DoStart | DoAbort | DoWrite _ => None
  end.

Definition is_finish (l : label) : Prop := match l with DoFinish _ => True | _ => False end.
#[local] Instance is_finish_dec l : Decision (is_finish l).
Proof. destruct l; first [left; exact I|right; intros []]. Defined.

Record undisturbed (l : label) (s s' : streamSender) : Prop := {
  un_producers : forall j, caller l <> Some j -> ss_producers s' !! j = ss_producers s !! j;
  un_done : ss_done s = true -> ss_done s' = true;
  un_finished : ss_finished s = true -> ss_finished s' = true;
  un_accepting : ~ is_finish l -> ss_acceptingControls s' = ss_acceptingControls s;
  un_over : ss_writer s = WriterDone -> ss_writer s' = WriterDone;
  un_started : ss_writer s <> NotStarted -> ss_writer s' <> NotStarted
}.

Ltac other_producer :=
  intros j Hj; first [done | apply lookup_insert_ne; congruence | apply lookup_delete_ne; congruence].

Lemma step_undisturbed l t t' : sender_step l t = Some t' -> undisturbed l (se_sender t) (se_sender t').
Proof.
  intros Hs. destruct t as [[queue ready finished done_ once accepting pending latest ps w] acc kept sent].
  destruct l; step_inv Hs; cbn in *; subst; split; cbn; try done; try other_producer; try (intros H; by destruct H).
Qed.

(** ** Where the caller is after its step *)

Definition now_inside (i : nat) (t : session) : option producer := ss_producers (se_sender t) !! i.

#[local] Arguments now_inside : simpl never.

Lemma inside_spec i t : inside i t = true <-> is_Some (now_inside i t).
Proof. unfold inside, now_inside. apply bool_decide_eq_true. Qed.

(** The effect of a call's piece on the goroutine that runs it. *)
Definition leads (l : label) (t t' : session) : Prop :=
  match l with
  | DoEnqueue i e => now_inside i t = None /\
      (ss_acceptingControls (se_sender t) = true /\ now_inside i t' = Some (AtSelect e) \/
       ss_acceptingControls (se_sender t) = false /\ now_inside i t' = None)
  | DoEnqueueSend i => exists e, now_inside i t = Some (AtSelect e) /\ now_inside i t' = None /\ se_accepted t' = se_accepted t ++ [e]
  | DoEnqueueDone i => (exists e, now_inside i t = Some (AtSelect e)) /\ now_inside i t' = None
  | DoSubmit i st => now_inside i t = None /\ (now_inside i t' = Some (AtStore st) \/ now_inside i t' = None)
  | DoStore i => (exists st, now_inside i t = Some (AtStore st)) /\ (now_inside i t' = Some AtSignal \/ now_inside i t' = None)
  | DoSignal i => now_inside i t = Some AtSignal /\ now_inside i t' = None
  | DoFinish i => now_inside i t = None /\ now_inside i t' = Some AtClear /\ ss_acceptingControls (se_sender t') = false
  | DoFinishState i => now_inside i t = Some AtClear /\ now_inside i t' = Some AtDrain
  | DoFinishDrain i => now_inside i t = Some AtDrain /\ now_inside i t' = Some AtClose
  | DoFinishClose i => now_inside i t = Some AtClose /\ now_inside i t' = None /\ ss_finished (se_sender t') = true
  | DoAbort => ss_done (se_sender t') = true
  | DoStart | DoWrite _ => True
  end.

Lemma step_leads l t t' : sender_step l t = Some t' -> leads l t t'.
Proof.
  intros Hs. destruct t as [[queue ready finished done_ once accepting pending latest ps w] acc kept sent].
  unfold leads, now_inside. destruct l; step_inv Hs; cbn in *; flags; subst; cbn; rewrite ?lookup_insert_eq, ?lookup_delete_eq;
    repeat first [done | split | by eexists | by left | by right | eexists].
Qed.

Lemma other_inside l t t' i : sender_step l t = Some t' -> caller l <> Some i -> now_inside i t' = now_inside i t.
Proof. intros Hs. apply (un_producers _ _ _ (step_undisturbed _ _ _ Hs)). Qed.

(** What the stream is told is accepted. *)
Lemma step_accepted l t t' : sender_step l t = Some t' ->
  match l with DoEnqueueSend _ => True | _ => se_accepted t' = se_accepted t end.
Proof.
  intros Hs. destruct t as [[queue ready finished done_ once accepting pending latest ps w] acc kept sent].
  destruct l; step_inv Hs; cbn in *; subst; done.
Qed.

(** ** What the writer has left to do *)

Definition wrank (w : writer) : nat :=
  match w with
  | NotStarted | WriterDone => 0 | Draining => 1 | AtSend _ true => 2 | AtWait => 2 | AtShutdown => 3
  | AtControls => 4 | AtSend _ false => 5 | AtTake => 6
  end.

Definition pending_work (s : streamSender) : nat :=
  (4 * length (ss_controls s) + (if ss_stateReady s then 5 else 0) + wrank (ss_writer s))%nat.

Definition brings (l : label) : nat := match l with DoEnqueueSend _ => 4 | DoSignal _ => 5 | _ => 0 end.

Lemma step_pending_work l t t' : l <> DoStart -> sender_step l t = Some t' ->
  (pending_work (se_sender t') + (if decide (is_write l) then 1 else 0) <= pending_work (se_sender t) + brings l)%nat.
Proof.
  intros Hl Hs. destruct t as [[queue ready finished done_ once accepting pending latest ps w] acc kept sent]. unfold pending_work.
  destruct l; step_inv Hs; cbn in *; flags; subst; cbn; rewrite ?length_app; cbn; try lia; repeat case_match; lia.
Qed.

Lemma pending_work_bound s : shutdown_inv s -> (pending_work s <= 139)%nat.
Proof.
  intros H. pose proof (sh_room s H). unfold pending_work, controlQueueCapacity in *.
  assert (wrank (ss_writer s) <= 6)%nat by (destruct (ss_writer s) as [| | | | |e []| |]; cbn; lia).
  destruct (ss_stateReady s); lia.
Qed.

#[local] Arguments pending_work : simpl never.

(** A writer with something to do can do it. *)
Lemma writer_not_stuck s acc kept sent : ss_writer s <> NotStarted -> ss_writer s <> WriterDone ->
  ss_done s = true \/ ss_finished s = true \/ ss_controls s <> [] ->
  exists c t', sender_step (DoWrite c) (mkSession s acc kept sent) = Some t'.
Proof.
  destruct s as [queue ready finished done_ once accepting pending latest ps w]. cbn. intros H1 H2 H3.
  unfold sender_step, writeLoop_step. cbn. destruct w; try done.
  - destruct queue; [exists OnDefault|exists OnControl]; by eexists.
  - destruct done_; [exists OnDone; by eexists|]. destruct finished; [exists OnFinished; by eexists|exists OnDefault; by eexists].
  - destruct done_; [exists OnDone; by eexists|]. destruct finished; [exists OnFinished; by eexists|].
    exists OnControl. destruct queue; [naive_solver|by eexists].
  - exists OnDefault; destruct pending; by eexists.
  - exists (Sent true); by eexists.
  - destruct done_; [exists OnDone; by eexists|]. destruct queue; [exists OnDefault|exists OnControl]; by eexists.
Qed.

#[local] Instance writer_done_dec w : Decision (w = WriterDone).
Proof. destruct w; first [by left|by right]. Defined.
#[local] Instance pump_done_dec m : Decision (m = PDone).
Proof. destruct m; first [by left|by right]. Defined.

(** ** The goroutines and the sender *)

Definition main_inside (m : main_pc) (o : option producer) : Prop :=
  match m with
  | MEnqueuing _ _ => exists e, o = Some (AtSelect e)
  | MStore _ => exists st, o = Some (AtStore st)
  | MSignal _ => o = Some AtSignal
  | MFinishState => o = Some AtClear
  | MFinishDrain => o = Some AtDrain
  | MFinishClose => o = Some AtClose
  | _ => o = None
  end.

Definition pump_inside (m : pump_pc) (o : option producer) : Prop :=
  match m with
  | PEnqueuing => exists e, o = Some (AtSelect e)
  | PStore => exists st, o = Some (AtStore st)
  | PSignal => o = Some AtSignal
  | _ => o = None
  end.

(** What the handler has reached with the sender and the pump. *)
Definition stage_of (m : main_pc) (s : streamSender) (pump : pump_pc) (loggedOut : bool) : Prop :=
  match m with
  | MSelect | MEnqueue _ _ _ | MEnqueuing _ _ | MSubmit _ _ | MStore _ | MSignal _ | MFinish => ss_acceptingControls s = true
  | MFinishState | MFinishDrain | MFinishClose => ss_acceptingControls s = false
  | MAwaitPump => ss_finished s = true
  | MAwaitWriter => ss_finished s = true /\ pump = PDone
  | MAbort => True
  | MLogout => ss_done s = true
  | MAwaitPumpLast => ss_done s = true /\ loggedOut = true
  | MAwaitWriterLast => ss_done s = true /\ loggedOut = true /\ pump = PDone
  | MReturned => ss_done s = true /\ loggedOut = true /\ pump = PDone /\ ss_writer s = WriterDone
  end.

(** The request numbers of what came in, and of the frames that went out; 0 is the
    number of frames nobody asked for. *)
Definition ids (l : list Z) : list Z := filter (fun z => z <> 0) l.
Definition request_id (i : streamInbound) : Z := match i with InRequest r => get 0 cle_RequestId r | _ => 0 end.
Definition asked (l : list streamInbound) : list Z := ids (request_id <$> l).
Definition answered (l : list pb_ServerEnvelope) : list Z := ids (sve_RequestId <$> l).

Lemma asked_app l l' : asked (l ++ l') = asked l ++ asked l'.
Proof. unfold asked, ids. by rewrite fmap_app, list.filter_app. Qed.
Lemma answered_app l l' : answered (l ++ l') = answered l ++ answered l'.
Proof. unfold answered, ids. by rewrite fmap_app, list.filter_app. Qed.
Lemma answered_none e : sve_RequestId e = 0 -> answered [e] = [].
Proof. intros H. unfold answered, ids. cbn. by rewrite H. Qed.
Lemma answered_one i e : sve_RequestId e = request_id i -> answered [e] = asked [i].
Proof. intros H. unfold answered, asked, ids. cbn. by rewrite H. Qed.
Lemma asked_short i : (length (asked [i]) <= 1)%nat.
Proof. unfold asked, ids. cbn. destruct (decide _); cbn; lia. Qed.
Lemma answered_short e : (length (answered [e]) <= 1)%nat.
Proof. unfold answered, ids. cbn. destruct (decide _); cbn; lia. Qed.

#[local] Arguments asked : simpl never.
#[local] Arguments answered : simpl never.

(** What the handler has taken and not answered. *)
Definition open_of (m : main_pc) (o : option producer) (open : list Z) : Prop :=
  match m with
  | MEnqueue frame _ _ => open = answered [frame]
  | MEnqueuing _ _ => exists e, o = Some (AtSelect e) /\ open = answered [e]
  | MAbort | MLogout | MAwaitPumpLast | MAwaitWriterLast | MReturned => (length open <= 1)%nat
  | _ => open = []
  end.

(** The frames of the pump answer nobody. *)
Definition unasked (m : pump_pc) (o : option producer) : Prop :=
  match m with
  | PEnqueue frame => is_control frame /\ sve_RequestId frame = 0
  | PEnqueuing => forall e, o = Some (AtSelect e) -> sve_RequestId e = 0
  | _ => True
  end.

(** What the reader has received and not passed on. *)
Definition held_of (r : reader_pc) (held : list streamInbound) : Prop :=
  match r with RRecv => held = [] | RSelect i => held = [i] | RDone => (length held <= 1)%nat end.

Section props.
Context {S : Type} {backend : gatewayBackend S} (direction_name : pb_Direction -> string) (username : string).

Abbreviation Proc := (StreamProc (S := S)).
Abbreviation sender p := (se_sender (sp_session p)).
Abbreviation step := (stream_step direction_name username).
Abbreviation run := (stream_run direction_name username).

Record proc_inv (p : Proc) : Prop := {
  pi_shutdown : shutdown_inv (sender p);
  pi_main : main_inside (sp_main p) (now_inside main_id (sp_session p));
  pi_pump : pump_inside (sp_pump p) (now_inside pump_id (sp_session p));
  pi_others : forall i, i <> main_id -> i <> pump_id -> now_inside i (sp_session p) = None;
  pi_stage : stage_of (sp_main p) (sender p) (sp_pump p) (sv_loggedOut (sp_server p));
  pi_started : ss_writer (sender p) <> NotStarted
}.

Lemma calls_inv l (p : Proc) next p' : calls l p next = Some p' ->
  exists t, sender_step l (sp_session p) = Some t /\ next t (set_sp_session t p) = Some p'.
Proof. unfold calls. destruct (sender_step _ _) as [t|]; [|done]. eauto. Qed.

Lemma serves_inv {A} (m : ST StreamSt A) (p : Proc) next p' : serves m p next = Some p' ->
  exists a s, m (sp_server p) = Some (a, s) /\ next a (set_sp_server s p) = Some p'.
Proof. unfold serves. destruct (m _) as [[a s]|]; [|done]. eauto. Qed.

(** Reduce a step of the stream to the step of the sender or the backend in it. *)
Ltac proc_inv H :=
  cbn [stream_step] in H; unfold reader_recv, reader_stop, deliver, main_step, pump_tick, pump_step, take_request, enqueued, refused in H;
  repeat first
    [ match type of H with
      | calls _ _ _ = Some _ => let t := fresh "t" in let Hs := fresh "Hs" in apply calls_inv in H as (t & Hs & H)
      | serves _ _ _ = Some _ => let a := fresh "a" in let s := fresh "s" in let Hb := fresh "Hb" in apply serves_inv in H as (a & s & Hb & H)
      | Some _ = Some _ => injection H as <-
      | None = Some _ => discriminate H
      | context [match ?x with _ => _ end] => let E := fresh "E" in destruct x eqn:E
      end ].

(** The steps that only change what no invariant speaks of. *)
Lemma proc_inv_other l p t : proc_inv p -> sender_step l (sp_session p) = Some t -> caller l = None -> proc_inv (set_sp_session t p).
Proof.
  intros [H1 H2 H3 H4 H5 H6] Hs Hc. destruct (step_undisturbed _ _ _ Hs) as [U1 U2 U3 U4 U5 U6].
  assert (Hn : forall i, now_inside i t = now_inside i (sp_session p)) by (intros i; apply U1; congruence).
  constructor; cbn.
  - by eapply shutdown_step.
  - by rewrite Hn.
  - by rewrite Hn.
  - intros i. rewrite Hn. apply H4.
  - assert (Ha : ss_acceptingControls (se_sender t) = ss_acceptingControls (sender p)) by (apply U4; destruct l; first [done|intros []]).
    destruct (sp_main p); cbn in *; rewrite ?Ha; naive_solver.
  - auto.
Qed.

(** The backend's calls other than the logout leave the logout alone. *)
Definition keeps_logout {A} (m : ST StreamSt A) : Prop := forall s a s', m s = Some (a, s') -> sv_loggedOut s' = sv_loggedOut (S := S) s.

Lemma keeps_onBackend {A} (m : ST S A) : keeps_logout (onBackend m).
Proof. intros s a s'. unfold onBackend, zoom. destruct (m _) as [[x b]|]; [|done]. by intros [= _ <-]. Qed.

Lemma keeps_logout_ret {A} (a : A) : keeps_logout (mret a).
Proof. by intros s b s' [= _ <-]. Qed.

Lemma keeps_logout_bind {A B} (m : ST StreamSt A) (f : A -> ST StreamSt B) : keeps_logout m -> (forall a, keeps_logout (f a)) -> keeps_logout (m ≫= f).
Proof.
  intros Hm Hf s b s'. unfold mbind, st_bind. destruct (m s) as [[a s1]|] eqn:E; [|done]. intros H.
  rewrite (Hf _ _ _ _ H). by eapply Hm.
Qed.

Lemma keeps_submit next : keeps_logout (submit next).
Proof.
  destruct next; cbn [submit]; [|apply keeps_logout_ret]. apply keeps_logout_bind; [apply keeps_onBackend|]. intros; apply keeps_logout_ret.
Qed.

Lemma keeps_free next : keeps_logout (free_next next).
Proof. destruct next; [apply keeps_onBackend|apply keeps_logout_ret]. Qed.

Lemma keeps_pumpTick accepted lastError : keeps_logout (pumpTick accepted username lastError).
Proof.
  unfold pumpTick. apply keeps_logout_bind; [apply keeps_onBackend|]. intros [state [e|]]; [case_bool_decide; apply keeps_logout_ret|].
  apply keeps_logout_bind; [apply keeps_submit|]. intros; apply keeps_logout_ret.
Qed.

Lemma logout_logs_out s a s' : logout username s = Some (a, s') -> sv_loggedOut (S := S) s' = true.
Proof.
  unfold logout, gets, modify, mbind, st_bind, mret, st_ret. cbn. destruct (sv_loggedOut s) eqn:E; [by intros [= _ <-]|].
  intros H. by rewrite (keeps_onBackend _ _ _ _ H).
Qed.

(** The handler and the pump move, through the sender or without it. *)
Lemma proc_inv_main l p t p' : proc_inv p -> sender_step l (sp_session p) = Some t -> caller l = Some main_id ->
  sp_session p' = t -> sp_pump p' = sp_pump p -> main_inside (sp_main p') (now_inside main_id t) ->
  stage_of (sp_main p') (se_sender t) (sp_pump p) (sv_loggedOut (sp_server p')) -> proc_inv p'.
Proof.
  intros [H1 H2 H3 H4 H5 H6] Hs Hc <- Hpu Hm Hst. destruct (step_undisturbed _ _ _ Hs) as [U1 U2 U3 U4 U5 U6].
  constructor; rewrite ?Hpu; [by eapply shutdown_step|done| | |done|auto].
  - unfold now_inside. rewrite U1; [apply H3|rewrite Hc; intros [=]].
  - intros i Hi Hj. unfold now_inside. rewrite U1; [by apply H4|congruence].
Qed.

Lemma proc_inv_moves p p' : proc_inv p -> sp_session p' = sp_session p -> sp_pump p' = sp_pump p ->
  main_inside (sp_main p') (now_inside main_id (sp_session p)) ->
  stage_of (sp_main p') (sender p) (sp_pump p) (sv_loggedOut (sp_server p')) -> proc_inv p'.
Proof. intros [H1 H2 H3 H4 H5 H6] E1 E2 E3 E4. constructor; rewrite ?E1, ?E2; done. Qed.

Lemma proc_inv_pump l p t p' : proc_inv p -> sender_step l (sp_session p) = Some t -> caller l = Some pump_id -> ~ is_finish l ->
  sp_pump p <> PDone -> sp_session p' = t -> sp_main p' = sp_main p -> sp_server p' = sp_server p ->
  pump_inside (sp_pump p') (now_inside pump_id t) -> proc_inv p'.
Proof.
  intros [H1 H2 H3 H4 H5 H6] Hs Hc Hf Hp <- Hma Hsv Hm. destruct (step_undisturbed _ _ _ Hs) as [U1 U2 U3 U4 U5 U6].
  constructor; rewrite ?Hma, ?Hsv; [by eapply shutdown_step| |done| | |auto].
  - unfold now_inside. rewrite U1; [apply H2|rewrite Hc; intros [=]].
  - intros i Hi Hj. unfold now_inside. rewrite U1; [by apply H4|congruence].
  - specialize (U4 Hf). destruct (sp_main p); cbn in *; rewrite ?U4; naive_solver.
Qed.

Lemma proc_inv_pump_moves p p' : proc_inv p -> sp_session p' = sp_session p -> sp_main p' = sp_main p -> sp_pump p <> PDone ->
  sv_loggedOut (sp_server p') = sv_loggedOut (sp_server p) -> pump_inside (sp_pump p') (now_inside pump_id (sp_session p)) -> proc_inv p'.
Proof.
  intros [H1 H2 H3 H4 H5 H6] E1 E2 E3 E4 E5. constructor; rewrite ?E1, ?E2, ?E4; try done. destruct (sp_main p); cbn in *; naive_solver.
Qed.

Lemma inside_true i t : inside i t = true -> exists q, now_inside i t = Some q.
Proof. intros [q Hq]%inside_spec. by exists q. Qed.
Lemma inside_false i t : inside i t = false -> now_inside i t = None.
Proof. intros H. destruct (now_inside i t) eqn:E; [|done]. assert (inside i t = true) by (apply inside_spec; by eexists). congruence. Qed.

(** Close what is left of a step: the place of the goroutine, and its stage. *)
Ltac settle :=
  repeat match goal with
  | H : _ /\ _ |- _ => destruct H
  | H : _ \/ _ |- _ => destruct H
  | H : exists _, _ |- _ => destruct H
  | |- _ /\ _ => split
  end; first [done | congruence | by eexists | by eauto].

Lemma proc_inv_abort p t : proc_inv p -> sp_main p = MAbort -> sender_step DoAbort (sp_session p) = Some t ->
  proc_inv (set_sp_main MLogout (set_sp_session t p)).
Proof.
  intros Hp Hm Hs. pose proof (proc_inv_other _ _ _ Hp Hs eq_refl) as Ht. apply (proc_inv_moves _ _ Ht); [reflexivity..| |].
  - pose proof (pi_main _ Ht) as H. cbn [set_sp_session sp_main] in H. by rewrite Hm in H.
  - exact (step_leads _ _ _ Hs).
Qed.

Lemma proc_step_inv l p p' : step l p = Some p' -> proc_inv p -> proc_inv p'.
Proof.
  intros Hs0 Hp. pose proof Hp as [H1 H2 H3 H4 H5 H6]. destruct l as [incoming| | |first| |first|c]; proc_inv Hs0;
    try match goal with Hs : sender_step _ _ = Some _ |- _ =>
      pose proof (step_leads _ _ _ Hs) as Hl; pose proof (un_accepting _ _ _ (step_undisturbed _ _ _ Hs)) as Ha end.
  all: try match goal with E : sp_main ?p = _ |- _ => rewrite E in H2, H5 | E : sp_pump ?p = _ |- _ => rewrite E in H3 end;
    cbn [main_inside pump_inside stage_of] in *.
  all: try (by apply (proc_inv_moves p)).
  all: try (by eapply proc_inv_other).
  all: try (by apply proc_inv_abort).
  all: try match goal with Hs : sender_step _ _ = Some _, E : sp_main ?p = _ |- _ =>
    eapply (proc_inv_main _ p); [exact Hp|exact Hs|reflexivity|reflexivity|reflexivity|..] end.
  all: try match goal with Hs : sender_step _ _ = Some _, E : sp_pump ?p = _ |- _ =>
    eapply (proc_inv_pump _ p); [exact Hp|exact Hs|reflexivity|intros []|congruence|reflexivity|reflexivity|reflexivity|..] end.
  all: try match goal with E : sp_main ?p = _ |- proc_inv _ => apply (proc_inv_moves p); [exact Hp|reflexivity|reflexivity|..] end.
  all: try match goal with E : sp_pump ?p = _ |- proc_inv _ => apply (proc_inv_pump_moves p); [exact Hp|reflexivity|reflexivity|congruence|..] end.
  all: clear H1 H4 H6 Hp; cbn; try match goal with |- context [inside ?i ?t] => destruct (inside i t) eqn:? end.
  all: repeat match goal with E : inside _ _ = true |- _ => apply inside_true in E as [? E] | E : inside _ _ = false |- _ => apply inside_false in E end.
  all: try match goal with Ha : ~ is_finish _ -> _ |- stage_of _ _ _ _ => try rewrite <- (Ha ltac:(intros [])) in H5 end.
  all: try match goal with |- context [handled ?b] => destruct b end; cbn [handled main_inside pump_inside stage_of leads] in *; try settle.
  all: try (by split; [|eapply logout_logs_out]).
  all: try (by eapply keeps_pumpTick).
  all: match goal with E : sp_pump ?p = _ |- _ => cbn; by rewrite ?E end.
Qed.

Lemma proc_inv_new b : proc_inv (new_proc b).
Proof. constructor; cbn; try done. split; cbn; try done; lia. Qed.

Lemma proc_run_inv ls p p' : run ls p = Some p' -> proc_inv p -> proc_inv p'.
Proof.
  revert p. induction ls as [|l ls IH]; intros p; cbn; [by intros [= <-]|].
  destruct (step l p) as [p1|] eqn:E; [|done]. intros H Hp. eapply IH; [exact H|by eapply proc_step_inv].
Qed.

(** ** Answers *)

Record answers_inv (p : Proc) : Prop := {
  ai_order : order_inv (sp_session p);
  ai_received : exists held, sp_received p = sp_handled p ++ held /\ held_of (sp_reader p) held;
  ai_asked : exists open, asked (sp_handled p) = answered (se_accepted (sp_session p)) ++ open /\
    open_of (sp_main p) (now_inside main_id (sp_session p)) open;
  ai_main : match sp_main p with MEnqueue frame _ _ => is_control frame | _ => True end;
  ai_pump : unasked (sp_pump p) (now_inside pump_id (sp_session p))
}.

Lemma gatewayError_frame id err kind : is_control (gatewayError id err kind) /\ sve_RequestId (gatewayError id err kind) = id.
Proof. unfold gatewayError. by destruct (mapError _ _). Qed.

Lemma submit_outs next s outs s' : submit next s = Some (outs, s') -> forall frame, OutEnqueue frame ∉ outs.
Proof.
  destruct next as [ws|]; cbn [submit]; unfold mbind, st_bind, mret, st_ret.
  - destruct (onBackend _ s) as [[[] s1]|]; [|done]. intros [= <- _] frame. by intros ?%list_elem_of_singleton.
  - intros [= <- _] frame. by intros ?%elem_of_nil.
Qed.

Lemma pumpTick_frame accepted lastError s frame outs lastError' more s' :
  pumpTick accepted username lastError s = Some (OutEnqueue frame :: outs, lastError', more, s') -> is_control frame /\ sve_RequestId frame = 0.
Proof.
  unfold pumpTick, mbind, st_bind, mret, st_ret. destruct (onBackend _ s) as [[[state [e|]] s1]|]; [|..|done].
  - case_bool_decide; [done|]. intros [= <- _ _ _]. apply gatewayError_frame.
  - destruct (submit state s1) as [[outs' s2]|] eqn:E; [|done]. intros [= -> _ _ _]. destruct (submit_outs _ _ _ _ E frame). by left.
Qed.

Lemma answers_new b : answers_inv (new_proc b).
Proof.
  constructor; cbn; try done; [|by exists []..]. split; cbn; [constructor|done|by exists []].
Qed.

(** The part of the sender's steps. *)
Lemma order_after l p t : proc_inv p -> answers_inv p -> sender_step l (sp_session p) = Some t -> control_label l -> order_inv t.
Proof. intros Hp Ha Hs Hl. eapply order_step; [exact Hl|apply Hp|apply Ha|exact Hs]. Qed.

Lemma answers_intro (p : Proc) held open : order_inv (sp_session p) -> sp_received p = sp_handled p ++ held -> held_of (sp_reader p) held ->
  asked (sp_handled p) = answered (se_accepted (sp_session p)) ++ open -> open_of (sp_main p) (now_inside main_id (sp_session p)) open ->
  match sp_main p with MEnqueue frame _ _ => is_control frame | _ => True end ->
  unasked (sp_pump p) (now_inside pump_id (sp_session p)) -> answers_inv p.
Proof. intros. constructor; eauto. Qed.

(** The sides of [answers_intro] when the handler has taken what the reader held. *)
Ltac took Hr Hq :=
  cbn; rewrite ?app_nil_r in *; rewrite ?asked_app, ?Hq, ?app_nil_r;
  first [ done | lia | exact Hr | by apply gatewayError_frame | symmetry; apply answered_one; first [done | by apply gatewayError_frame] ].

(** [EnqueueControl] takes the handler's frame. *)
Ltac answer Hopen Hl held Ho Hpn :=
  let e := fresh "e" in let e' := fresh "e'" in let He := fresh in let He' := fresh in let Hacc := fresh in
  destruct Hopen as (e & He & ->); destruct Hl as (e' & He' & _ & Hacc); assert (e' = e) as -> by congruence;
  apply (answers_intro _ held []); cbn; try match goal with |- context [handled ?b] => destruct b end; cbn; rewrite ?Hacc, ?Hpn;
  first [done | by apply Ho | by rewrite answered_app, app_nil_r].

(** A step that neither takes nor answers a frame. *)
Ltac carry :=
  match goal with Hr : sp_received _ = _ ++ ?held, Hq : asked _ = _ ++ ?open |- _ => apply (answers_intro _ held open) end;
  cbn; try match goal with |- context [inside ?i ?t] => destruct (inside i t) end;
  try match goal with |- context [handled ?b] => destruct b end; cbn;
  repeat match goal with
  | H : now_inside _ ?t = now_inside _ _ |- context [now_inside _ ?t] => rewrite H
  | H : se_accepted ?t = se_accepted _ |- context [se_accepted ?t] => rewrite H
  end;
  try first [done | match goal with H : _ -> order_inv _ |- _ => by apply H end | by subst; cbn; lia
    | match goal with E : sp_pump ?p = _ |- context [sp_pump ?p] => by rewrite E end ].

Lemma answers_step l p p' : step l p = Some p' -> proc_inv p -> answers_inv p -> answers_inv p'.
Proof.
  intros Hs0 Hp Hai. pose proof Hai as [Hord (held & Hr & Hheld) (open & Hq & Hopen) Hm Hpu]. pose proof (pi_main _ Hp) as Hin.
  pose proof (pi_pump _ Hp) as Hpin. destruct l as [incoming| | |first| |first|c]; proc_inv Hs0;
    try match goal with Hs : sender_step _ _ = Some _ |- _ =>
      pose proof (order_after _ _ _ Hp Hai Hs) as Ho; pose proof (step_leads _ _ _ Hs) as Hl;
      pose proof (step_accepted _ _ _ Hs) as Hacc; 
      try (assert (Hpn := other_inside _ _ _ pump_id Hs ltac:(intros [=]))); try (assert (Hmn := other_inside _ _ _ main_id Hs ltac:(intros [=])));
      cbn [leads control_label] in Ho, Hl, Hacc end.
  all: try match goal with E : sp_main ?p = _ |- _ => rewrite E in Hm, Hopen, Hin | E : sp_pump ?p = _ |- _ => rewrite E in Hpu, Hpin end;
    try match goal with E : sp_reader ?p = _ |- _ => rewrite E in Hheld end; cbn [open_of held_of main_inside pump_inside] in *.
  (* the reader *)
  { subst held. apply (answers_intro _ [incoming] open); cbn; try done. by rewrite Hr, app_nil_r. }
  { apply (answers_intro _ held open); cbn; try done. by subst. }
  (* the handler takes a frame *)
  { subst held open. apply (answers_intro _ [] (asked [InRequest request])); took Hr Hq. }
  { subst held open. apply (answers_intro _ [] (asked [InRequest request])); took Hr Hq. }
  { subst held open. apply (answers_intro _ [] (asked [InRequest request])); took Hr Hq. }
  { subst held open. apply (answers_intro _ [] []); took Hr Hq. }
  { subst held open. apply (answers_intro _ [] []); took Hr Hq. }
  (* the handler leaves *)
  { subst open. apply (answers_intro _ held []); cbn; first [done|lia]. }
  { subst open. apply (answers_intro _ held []); cbn; first [done|lia|match goal with E : sp_reader p = _ |- _ => by rewrite E end]. }
  (* the calls of the sender *)
  { subst open. apply (answers_intro _ held (answered [frame])); cbn; rewrite ?Hacc, ?Hpn; first [done|by apply Ho|idtac].
    cbn. destruct Hl as [_ [[_ Hl]|[_ Hl]]]; [by exists frame|]. match goal with E : inside _ _ = true |- _ => apply inside_true in E as [? E]; congruence end. }
  { subst open. apply (answers_intro _ held (answered [frame])); cbn; rewrite ?Hacc, ?Hpn; first [done|by apply Ho|apply answered_short]. }
  { answer Hopen Hl held Ho Hpn. }
  { answer Hopen Hl held Ho Hpn. }
  { answer Hopen Hl held Ho Hpn. }
  { answer Hopen Hl held Ho Hpn. }
  { answer Hopen Hl held Ho Hpn. }
  { destruct Hopen as (e & _ & ->). apply (answers_intro _ held (answered [e])); cbn; rewrite ?Hacc, ?Hpn; first [done|by apply Ho|apply answered_short]. }
  (* the rest leaves the requests alone *)
  all: carry.
  - by eapply pumpTick_frame.
  - exact (Ho (proj1 Hpu)).
  - destruct Hl as [_ [[_ Hl]|[_ Hl]]]; intros e He; rewrite Hl in He; [|done]. injection He as <-. exact (proj2 Hpu).
  - destruct Hl as (e & He & _ & Hl). rewrite Hl, answered_app, (answered_none e), app_nil_r; [done|exact (Hpu _ He)].
Qed.

Lemma answers_run ls p p' : run ls p = Some p' -> proc_inv p -> answers_inv p -> answers_inv p'.
Proof.
  revert p. induction ls as [|l ls IH]; intros p; cbn; [by intros [= <-]|].
  destruct (step l p) as [p1|] eqn:E; [|done]. intros H Hp Ha.
  eapply IH; [exact H|by eapply proc_step_inv|by eapply answers_step].
Qed.

(** C33. Every request is answered once, and in order, whatever the goroutines of the
    stream do and however they are interleaved.  The handler takes the frames in the order in which
    the reader received them, and at most one that was received is not taken; the
    numbers on the frames the sender accepted are the numbers of the requests taken,
    except for the last one, and without exception while the handler waits for the
    next; the stream has been sent an initial part of what the sender accepted; and
    when the writer has ended without an abort, all of it. *)
Theorem requests_answered b ls p :
  run ls (new_proc b) = Some p ->
  (exists held, sp_received p = sp_handled p ++ held /\ (length held <= 1)%nat) /\
  (exists open, asked (sp_handled p) = answered (se_accepted (sp_session p)) ++ open /\ (length open <= 1)%nat /\
     (sp_main p = MSelect -> open = [])) /\
  (exists rest, se_accepted (sp_session p) = controls (se_sent (sp_session p)) ++ rest /\
     (ss_writer (sender p) = WriterDone -> ss_done (sender p) = false -> rest = [])).
Proof.
  intros Hrun. pose proof (proc_run_inv _ _ _ Hrun (proc_inv_new b)) as Hp.
  destruct (answers_run _ _ _ Hrun (proc_inv_new b) (answers_new b)) as [[_ _ (rest & Hrest & Hend)] (held & Hr & Hheld) (open & Hq & Hopen) _ _].
  split; [|split].
  - exists held. split; [done|]. destruct (sp_reader p); cbn in Hheld; subst; cbn; lia.
  - exists open. split; [done|]. split; [|by intros Hm; rewrite Hm in Hopen].
    destruct (sp_main p); cbn in Hopen; try (by subst; cbn; lia); try (by subst; apply answered_short).
    destruct Hopen as (e & _ & ->). apply answered_short.
  - exists rest. split; [done|]. intros Hw Hd. rewrite Hend by (by right). rewrite Hw. cbn. by apply (sh_over _ (pi_shutdown _ Hp)).
Qed.

(** ** The end *)

(** The handler has left its loop. *)
Definition left_loop (m : main_pc) : bool :=
  match m with
  | MSelect | MEnqueue _ _ _ | MEnqueuing _ _ | MSubmit _ _ | MStore _ | MSignal _ => false
  | _ => true
  end.

Definition main_rank (m : main_pc) : nat :=
  match m with
  | MFinish => 10 | MFinishState => 9 | MFinishDrain => 8 | MFinishClose => 7 | MAwaitPump => 6 | MAwaitWriter => 5
  | MAbort => 4 | MLogout => 3 | MAwaitPumpLast => 2 | MAwaitWriterLast => 1 | _ => 0
  end.
Definition reader_rank (r : reader_pc) : nat := match r with RRecv => 2 | RSelect _ => 1 | RDone => 0 end.
Definition pump_rank (m : pump_pc) : nat :=
  match m with PSubmit _ => 9 | PStore => 8 | PSignal => 7 | PEnqueue _ => 7 | PEnqueuing => 6 | PSelect => 1 | PDone => 0 end.
Definition steps_left (p : Proc) : nat :=
  (pending_work (sender p) + main_rank (sp_main p) + reader_rank (sp_reader p) + pump_rank (sp_pump p))%nat.

Definition is_tick (l : proc_label) : bool := match l with LTick => true | _ => false end.
Definition ticks (ls : list proc_label) : nat := length (List.filter is_tick ls).

Lemma ending_step l p p' : step l p = Some p' -> left_loop (sp_main p) = true ->
  left_loop (sp_main p') = true /\ (steps_left p' + 1 <= steps_left p + (if is_tick l then 9 else 0))%nat.
Proof.
  intros Hs0 Hl. unfold steps_left. destruct l as [incoming| | |first| |first|c]; proc_inv Hs0;
    try match goal with E : sp_main ?p = _ |- _ => rewrite E in *; try discriminate Hl end;
    try match goal with E : sp_pump ?p = _ |- _ => rewrite E in * end; try match goal with E : sp_reader ?p = _ |- _ => rewrite E in * end;
    try match goal with Hs : sender_step _ _ = Some _ |- _ => apply step_pending_work in Hs; [|done]; cbn [brings is_write decide] in Hs end;
    cbn in *; split; try done; try match goal with |- context [inside ?i ?t] => destruct (inside i t) end; cbn; try lia.
  all: first [match goal with E : sp_pump ?p = _ |- context [sp_pump ?p] => rewrite E; cbn; lia end | destruct (decide _) as [|[]]; [lia|exact I]].
Qed.

Lemma ending_run ls p p' : run ls p = Some p' -> left_loop (sp_main p) = true ->
  left_loop (sp_main p') = true /\ (length ls + steps_left p' <= steps_left p + 9 * ticks ls)%nat.
Proof.
  revert p. induction ls as [|l ls IH]; intros p; cbn [stream_run]; [intros [= <-]; cbn; split; [done|lia]|].
  destruct (step l p) as [p1|] eqn:E; [|done]. intros H Hl. destruct (ending_step _ _ _ E Hl) as [Hl1 H1].
  destruct (IH _ H Hl1) as [Hl' H2]. split; [done|]. unfold ticks in *. cbn. destruct (is_tick l); cbn in *; lia.
Qed.

Lemma steps_left_bound p : shutdown_inv (sender p) -> (steps_left p <= 160)%nat.
Proof.
  intros H%pending_work_bound. unfold steps_left.
  assert (main_rank (sp_main p) <= 10)%nat by (destruct (sp_main p); cbn; lia).
  assert (reader_rank (sp_reader p) <= 2)%nat by (destruct (sp_reader p); cbn; lia).
  assert (pump_rank (sp_pump p) <= 9)%nat by (destruct (sp_pump p); cbn; lia). lia.
Qed.

(** A step of a goroutine that waits for nobody outside. *)
Definition internal (l : proc_label) : Prop := match l with LRecv _ | LTick => False | _ => True end.
Definition can_step (p : Proc) : Prop := exists l p', internal l /\ step l p = Some p'.

Lemma calls_step l (p : Proc) next t p' : sender_step l (sp_session p) = Some t -> next t (set_sp_session t p) = Some p' ->
  calls l p next = Some p'.
Proof. intros Hs Hn. unfold calls. by rewrite Hs. Qed.

Lemma writer_can_step p : proc_inv p -> ss_writer (sender p) <> WriterDone ->
  ss_done (sender p) = true \/ ss_finished (sender p) = true \/ ss_controls (sender p) <> [] -> can_step p.
Proof.
  intros Hp Hw Hd. destruct p as [sv [s acc kept sent] m r pu le res rc hd]. cbn in *.
  destruct (writer_not_stuck s acc kept sent (pi_started _ Hp) Hw Hd) as (c & t & Hs).
  exists (LWrite c). eexists. split; [exact I|]. cbn [stream_step]. by eapply calls_step.
Qed.

Lemma lock_free p : proc_inv p -> left_loop (sp_main p) = true -> (forall e, now_inside pump_id (sp_session p) <> Some (AtSelect e)) ->
  controlMu_free (sender p) = true.
Proof.
  intros Hp Hl Hpu. apply free_spec. intros i e Hi. destruct (decide (i = pump_id)) as [->|Hip]; [by apply (Hpu e)|].
  destruct (decide (i = main_id)) as [->|Him].
  - pose proof (pi_main _ Hp) as H. unfold now_inside in H. rewrite Hi in H. destruct (sp_main p); cbn in *; try done; naive_solver.
  - pose proof (pi_others _ Hp i Him Hip) as H. unfold now_inside in H. congruence.
Qed.

Lemma pump_can_step p : proc_inv p -> left_loop (sp_main p) = true -> ss_done (sender p) || ss_finished (sender p) = true ->
  sp_pump p <> PDone -> can_step p.
Proof.
  intros Hp Hl Hd Hpu. pose proof (pi_pump _ Hp) as Hin. pose proof (lock_free p Hp Hl) as Hfree.
  assert (Hend : ss_done (sender p) = true \/ ss_finished (sender p) = true) by (apply orb_true_iff in Hd; tauto).
  destruct (sp_pump p) eqn:E; [..|done]; cbn [pump_inside] in Hin.
  - exists (LPump true). eexists. split; [exact I|]. cbn [stream_step]. unfold pump_step. by rewrite E, Hd.
  - exists (LPump true). cbn [stream_step]. unfold pump_step, calls, sender_step, entered, EnqueueControl_lock. rewrite E.
    unfold now_inside in *. rewrite Hin, Hfree by (intros e; congruence). cbn. destruct (ss_acceptingControls _); cbn; eauto.
  - destruct Hin as [e Hin]. assert (Ha : ss_acceptingControls (sender p) = true) by exact (at_select_open _ _ _ (pi_shutdown _ Hp) Hin).
    destruct Hend as [Hdone|Hf]; [|pose proof (sh_finished _ (pi_shutdown _ Hp) Hf); congruence].
    exists (LPump false). cbn [stream_step]. unfold pump_step, calls, sender_step, EnqueueControl_done. rewrite E.
    unfold now_inside in *. rewrite Hin, Hdone. cbn. eauto.
  - exists (LPump true). cbn [stream_step]. unfold pump_step, calls, sender_step, entered. rewrite E.
    unfold now_inside in *. rewrite Hin. cbn. eauto.
  - destruct Hin as [st Hin]. exists (LPump true). cbn [stream_step]. unfold pump_step, calls, sender_step, SubmitState_store. rewrite E.
    unfold now_inside in *. rewrite Hin. destruct (match ss_latestState (sender p) with Some latest => _ | None => _ end); cbn; eauto.
  - exists (LPump true). cbn [stream_step]. unfold pump_step, calls, sender_step, SubmitState_signal. rewrite E.
    unfold now_inside in *. rewrite Hin. cbn. eauto.
Qed.

Hypothesis Hlogout : forall s, is_Some (be_Logout username s).

Lemma logout_returns s : exists a s', logout (S := S) username s = Some (a, s').
Proof.
  unfold logout, gets, modify, mbind, st_bind, mret, st_ret. cbn. destruct (sv_loggedOut s); [eauto|].
  unfold onBackend, zoom. destruct (Hlogout (sv_backend s)) as [[a b] H]. cbn. rewrite H. eauto.
Qed.

Lemma main_can_step p : proc_inv p -> left_loop (sp_main p) = true -> sp_main p <> MReturned -> can_step p.
Proof.
  intros Hp Hl Hm. pose proof (pi_main _ Hp) as Hin. pose proof (pi_stage _ Hp) as Hst. pose proof (pi_shutdown _ Hp) as Hsh.
  destruct (sp_main p) eqn:E; try done; cbn [main_inside stage_of] in *;
    try (by exists (LMain true); cbn [stream_step]; unfold main_step, calls, sender_step, Finish_state, Finish_drain, Finish_close;
         rewrite E; unfold now_inside in *; rewrite ?Hin; cbn; eauto).
  - assert (Hpu : (exists e, now_inside pump_id (sp_session p) = Some (AtSelect e)) \/ forall e, now_inside pump_id (sp_session p) <> Some (AtSelect e)).
    { destruct (now_inside pump_id (sp_session p)) as [[e| | | | |]|]; [left; by exists e|right; by intros e'..]. }
    destruct Hpu as [[e He]|Hno].
    + assert (Epu : sp_pump p = PEnqueuing).
      { pose proof (pi_pump _ Hp) as H. rewrite He in H. destruct (sp_pump p); cbn in H; naive_solver. }
      destruct (decide (ss_writer (sender p) = WriterDone)) as [Hw|Hw].
      * pose proof (open_not_over _ Hsh Hst Hw) as Hdone. exists (LPump false). cbn [stream_step].
        unfold pump_step, calls, sender_step, EnqueueControl_done. rewrite Epu. unfold now_inside in He. rewrite He, Hdone. cbn. eauto.
      * destruct (ss_controls (sender p)) as [|c cs] eqn:Eq; [|apply writer_can_step; [done|done|right; right; congruence]].
        exists (LPump true). cbn [stream_step]. unfold pump_step, calls, sender_step, EnqueueControl_send. rewrite Epu.
        unfold now_inside in He. rewrite He, Eq. cbn. eauto.
    + exists (LMain true). cbn [stream_step]. unfold main_step, calls, sender_step, entered, Finish_controls. rewrite E.
      unfold now_inside in Hin. rewrite Hin, (sh_once _ Hsh), Hst, (lock_free p Hp); [cbn; eauto|by rewrite E|done].
  - destruct (decide (sp_pump p = PDone)) as [Hpu|Hpu]; [|apply pump_can_step; [done|by rewrite E|by rewrite Hst, orb_true_r|done]].
    exists (LMain true). cbn [stream_step]. unfold main_step. rewrite E, Hpu. cbn; eauto.
  - destruct Hst as [Hf Hpu]. destruct (decide (ss_writer (sender p) = WriterDone)) as [Hw|Hw]; [|apply writer_can_step; [done|done|tauto]].
    exists (LMain true). cbn [stream_step]. unfold main_step. rewrite E, Hw. cbn; eauto.
  - destruct (logout_returns (sp_server p)) as (a & s' & Hs). exists (LMain true). cbn [stream_step]. unfold main_step, serves.
    rewrite E, Hs. cbn; eauto.
  - destruct Hst as [Hd _]. destruct (decide (sp_pump p = PDone)) as [Hpu|Hpu]; [|apply pump_can_step; [done|by rewrite E|by rewrite Hd|done]].
    exists (LMain true). cbn [stream_step]. unfold main_step. rewrite E, Hpu. cbn; eauto.
  - destruct Hst as (Hd & _ & Hpu). destruct (decide (ss_writer (sender p) = WriterDone)) as [Hw|Hw]; [|apply writer_can_step; [done|done|tauto]].
    exists (LMain true). cbn [stream_step]. unfold main_step. rewrite E, Hw. cbn; eauto.
Qed.

(** C34. Every stream comes to its end.  Once the handler has left its loop - on the end of
    the client's frames, a logout, a failed [Recv] or a failed [Send], at any moment of
    the other goroutines - at most 160 more steps are taken by all of them, and nine
    for every tick the pump still takes; until the handler has returned, one of them
    can take a step that waits neither for the client nor for a tick; and when it has
    returned, the user is logged out, the pump and the writer have returned, and the
    reader is in [Recv], or returns at its select. *)
Theorem stream_ends b ls p ls' p' :
  run ls (new_proc b) = Some p -> left_loop (sp_main p) = true -> run ls' p = Some p' ->
  (length ls' <= 160 + 9 * ticks ls')%nat /\
  (sp_main p' <> MReturned -> can_step p') /\
  (sp_main p' = MReturned -> sv_loggedOut (sp_server p') = true /\ sp_pump p' = PDone /\ ss_writer (sender p') = WriterDone /\
     forall incoming, sp_reader p' = RSelect incoming -> exists p'', step LReaderStop p' = Some p'' /\ sp_reader p'' = RDone).
Proof.
  intros Hrun Hl Hrun'. pose proof (proc_run_inv _ _ _ Hrun (proc_inv_new b)) as Hp.
  destruct (ending_run _ _ _ Hrun' Hl) as [Hl' Hle]. pose proof (proc_run_inv _ _ _ Hrun' Hp) as Hp'.
  pose proof (steps_left_bound p (pi_shutdown _ Hp)). split; [lia|]. split; [by apply main_can_step|].
  intros Hm. pose proof (pi_stage _ Hp') as Hst. rewrite Hm in Hst. destruct Hst as (Hd & Hlo & Hpu & Hw). split_and!; try done.
  intros incoming Hr. cbn [stream_step]. unfold reader_stop. rewrite Hr, Hd. cbn. eauto.
Qed.
End props.

(** ** A concrete stream

    The backend confirms everything and has no state to show, so the pump reports an
    error; the client attacks once and ends its side. *)

#[local] Instance empty_backend : gatewayBackend unit := {|
  be_Register _ _ _ := mret None; be_Login _ _ := mret (None, None); be_QuickEnter _ _ := mret (None, None);
  be_Logout _ := mret None; be_SnapshotFor _ := mret (None, Some (plain "路由同步中"));
  be_Move _ _ := mret (None, None); be_Attack _ := mret (None, None); be_AttackBoss _ := mret (None, None);
  be_Heal _ := mret (None, None); be_BuyItem _ _ := mret (None, None); be_SwitchMap _ _ := mret (None, None);
  be_GatewayStatus := fun _ => None; be_Free _ := mret tt
|}.

#[local] Notation demo_stream ls p := (stream_run (fun _ => "") "alice" ls p).
Definition demo_attack : streamInbound := InRequest (Some (mk_pb_ClientEnvelope 7 (Some (ClientEnvelope_Attack (Some tt))))).
Definition attack_steps : list proc_label :=
  [LRecv demo_attack; LTick; LPump true; LDeliver; LPump true; LMain true; LWrite OnControl; LMain true; LWrite (Sent true);
   LWrite OnControl; LWrite (Sent true)].
Definition leaving_steps : list proc_label := attack_steps ++ [LRecv InEOF; LTick; LDeliver].
Definition ending_steps : list proc_label :=
  [LMain true; LMain true; LMain true; LMain true; LPump true; LMain true; LWrite OnDefault; LWrite OnFinished; LWrite OnDefault;
   LMain true; LMain true; LMain true; LMain true; LMain true].

Lemma requests_answered_witness :
  exists p, demo_stream attack_steps (new_proc tt) = Some p /\ asked (sp_handled p) = answered (se_accepted (sp_session p)).
Proof.
  destruct (demo_stream attack_steps (new_proc tt)) as [p|] eqn:E; [|vm_compute in E; discriminate E]. exists p. split; [reflexivity|].
  destruct (requests_answered (fun _ => "") "alice" tt attack_steps p E) as (_ & (open & H1 & _ & H2) & _).
  assert (Hm : (sp_main <$> demo_stream attack_steps (new_proc tt)) = Some MSelect) by (vm_compute; reflexivity).
  rewrite E in Hm. injection Hm as Hm. rewrite H1, (H2 Hm), app_nil_r. reflexivity.
Defined.

Lemma stream_ends_witness :
  exists p p', demo_stream leaving_steps (new_proc tt) = Some p /\ demo_stream ending_steps p = Some p' /\ sp_main p' = MReturned /\
    sv_loggedOut (sp_server p') = true /\ sp_pump p' = PDone.
Proof.
  destruct (demo_stream leaving_steps (new_proc tt)) as [p|] eqn:E; [|vm_compute in E; discriminate E].
  assert (Hm : (sp_main <$> demo_stream leaving_steps (new_proc tt)) = Some MFinish) by (vm_compute; reflexivity).
  assert (Hr : (sp_main <$> (demo_stream leaving_steps (new_proc tt) ≫= stream_run (fun _ => "") "alice" ending_steps)) = Some MReturned)
    by (vm_compute; reflexivity).
  rewrite E in Hm, Hr. injection Hm as Hm. cbn [mbind option_bind] in Hr.
  destruct (demo_stream ending_steps p) as [p'|] eqn:E'; [|discriminate Hr]. injection Hr as Hr. exists p, p'.
  assert (Hlog : forall s : unit, is_Some (be_Logout "alice" s)) by (intros s; eexists; reflexivity).
  destruct (stream_ends (fun _ => "") "alice" Hlog tt leaving_steps p ending_steps p' E) as (_ & _ & H).
  - by rewrite Hm.
  - exact E'.
  - destruct (H Hr) as (H1 & H2 & _). split; [reflexivity|]. split; [exact E'|]. split; [exact Hr|]. split; [exact H1|exact H2].
Defined.
