(* ===== verification/GatewayLogin.v ===== *)
(** * The gateway process: the service over the cluster

    [GatewayServer] with [Cluster] as its backend: the texts of the cluster's
    errors, the instance, and what becomes of a login whose first snapshot fails. *)

From Stdlib Require Import ZArith Lia String.
From stdpp Require Import base sorting gmap strings list option.
From S2P Require Import Prelude Protocol Config Maps World WorldOps Topology Redis Store Users Authority Wire NodeWire GatewayWire Coordinator Cluster Envelope GatewayServer.

Open Scope Z_scope.
Open Scope go_scope.

(** [codes.Code.String] *)
Definition code_string (c : Code) : string :=
  match c with
  | OK => "OK" | Canceled => "Canceled" | Unknown => "Unknown" | InvalidArgument => "InvalidArgument"
  | DeadlineExceeded => "DeadlineExceeded" | NotFound => "NotFound" | AlreadyExists => "AlreadyExists"
  | PermissionDenied => "PermissionDenied" | ResourceExhausted => "ResourceExhausted"
  | FailedPrecondition => "FailedPrecondition" | Aborted => "Aborted" | OutOfRange => "OutOfRange"
  | Unimplemented => "Unimplemented" | Internal => "Internal" | Unavailable => "Unavailable"
  | DataLoss => "DataLoss" | Unauthenticated => "Unauthenticated"
  end.

Section texts.
(** [strconv.Quote], the description of a status, the texts of the storage
    layer's other errors, and of the error a failed check was given. *)
Context (quote : string -> string) (desc : rpc_cause -> string) (storage_text : store_err -> string) (check_text : string).

Definition status_text (err : rpc_err) : string :=
  "rpc error: code = " +:+ code_string (re_Code err) +:+ " desc = " +:+ desc (re_Cause err).

Definition store_text (err : store_err) : string :=
  match err with
  | ErrEmptyCredentials => "用户名和密码不能为空"
  | ErrUserExists username => "用户 " +:+ quote username +:+ " 已存在"
  | ErrNoUser username => "用户 " +:+ quote username +:+ " 不存在"
  | ErrPassword => "密码错误"
  | ErrDatabaseUnavailable => "sql database is not configured"
  | _ => storage_text err
  end.

Definition gw_text (err : gw_err) : string :=
  match err with
  | GErrConfirmEmpty => "注册时必须再次确认密码"
  | GErrConfirmMismatch => "两次输入的密码不一致"
  | GErrStore cause => store_text cause
  | GErrOnline username => "用户 " +:+ quote username +:+ " 已经在线"
  | GErrRouteNotReady => "路由尚未就绪，请等待 coordinator 提交拓扑"
  | GErrAddPlayer cause => "节点添加玩家失败: " +:+ status_text cause
  | GErrOffline username => "用户 " +:+ quote username +:+ " 当前不在线"
  | GErrMapRoute mapID => "地图 " +:+ quote mapID +:+ " 当前路由不可用"
  | GErrMove cause => "节点RPC移动调用失败: " +:+ status_text cause
  | GErrMoveRejected => "移动请求被拒绝"
  | GErrAttack cause => "节点RPC攻击调用异常: " +:+ status_text cause
  | GErrAttackRejected => "攻击请求被拒绝"
  | GErrHeal cause => "节点RPC治疗调用异常: " +:+ status_text cause
  | GErrHealRejected => "治疗请求被拒绝"
  | GErrShop cause => "节点RPC商店请求异常: " +:+ status_text cause
  | GErrShopRejected => "商店请求被拒绝"
  | GErrBoss cause => status_text cause
  | GErrProfile cause => "节点RPC获取Profile异常: " +:+ status_text cause
  | GErrNoProfile => "获取玩家profile失败"
  | GErrFallen => "倒地时不可切换地图"
  | GErrTargetRoute mapID => "目标地图 " +:+ quote mapID +:+ " 路由尚未就绪，请等待 coordinator 提交拓扑"
  | GErrTry cause => "源节点RPC移除玩家异常 (Try失败): " +:+ status_text cause
  | GErrTryRejected => "源节点移除玩家失败 (Try被拒绝)"
  | GErrConfirm cause => "目标节点添加玩家失败，切换已回滚: " +:+ status_text cause
  | GErrConfirmCheck => "获取移动后用户信息异常 (Confirm阶段校验未通过): " +:+ check_text
  | GErrSyncing => "地图状态正在同步中，请稍候"
  | GErrRegistry cause => "读取节点注册地址失败: " +:+ store_text cause
  | GErrTopology cause => "校验拓扑快照失败: " +:+ store_text cause
  end.

(** Errors are formatted into texts, but for the one [AttackBoss] passes on. *)
Definition go_error_of (err : gw_err) : go_error :=
  mkGoError (match err with GErrBoss cause => re_Code cause | _ => Unknown end) (gw_text err).

Section backend.
Context {S : Type} {clients : GatewayNodeClient S}.
Context (bcrypt_generate : string -> option string) (bcrypt_compare : string -> string -> bool)
  (sha256_hex : string -> string).

Definition as_pair (m : ST (GwSt S) (gw_err + option WorldState)) : ST (GwSt S) (option WorldState * option go_error) :=
  r ← m; mret (match r with inl err => (None, Some (go_error_of err)) | inr next => (next, None) end).
Definition as_error (m : ST (GwSt S) (gw_err + unit)) : ST (GwSt S) (option go_error) :=
  r ← m; mret (match r with inl err => Some (go_error_of err) | inr _ => None end).

Definition Cluster_backend : gatewayBackend (GwSt S) := {|
  be_Register u p c := as_error (RegisterUser bcrypt_generate u p c);
  be_Login u p := as_pair (Login bcrypt_compare sha256_hex u p);
  be_QuickEnter u p := as_pair (QuickEnter bcrypt_generate bcrypt_compare sha256_hex u p);
  be_Logout u := as_error (Logout u);
  be_SnapshotFor u := as_pair (refreshed u);
  be_Move u d := as_pair (Move u d);
  be_Attack u := as_pair (AttackCmd u);
  be_AttackBoss u := as_pair (AttackBossCmd u);
  be_Heal u := as_pair (HealCmd u);
  be_BuyItem u i := as_pair (BuyItemCmd u i);
  be_SwitchMap u m := as_pair (SwitchMap u m);
  be_GatewayStatus := GatewayStatus_;
  be_Free ws := freeG ws
|}.
End backend.
End texts.
