(* ===== verification/GatewayLoginProps.v ===== *)
(** * The gateway process: logins

    Properties of [GatewayLogin]: a login whose first snapshot fails. *)

From Stdlib Require Import ZArith Lia String.
From stdpp Require Import base sorting gmap strings list option.
From S2P Require Import Prelude Protocol Config Maps World WorldOps WorldProps Topology Redis Store StoreProps Users Authority Wire NodeWire GatewayWire Coordinator Cluster ClusterProps ClusterViews ClusterSwitch Envelope GatewayServer GatewayServerProps GatewayLogin.

Open Scope Z_scope.
Open Scope go_scope.

(** Every command is answered, and nobody else writes. *)
Definition reliable (t : Net) : Prop := (forall n, n_fault t n = F_ok) /\ (forall n r, n_other t n r = r).

Lemma reliable_after t r : reliable t -> reliable (after t r).
Proof. done. Qed.

Section login.
Context {S : Type} {clients : GatewayNodeClient S}.
Context (bcrypt_generate : string -> option string) (bcrypt_compare : string -> string -> bool) (sha256_hex : string -> string).

(** The session document of the user is in Redis. *)
Definition has_session (u : string) (d : doc stored_session) (s : GwSt S) : Prop :=
  r_sessions (n_redis (gt s)) !! u = Some d /\ reliable (gt s).

Definition stays {A} (u : string) (d : doc stored_session) (m : ST (GwSt S) A) : Prop :=
  forall s, has_session u d s -> wlp m (fun _ => has_session u d) s.

Lemma stays_ret {A} u d (a : A) : stays u d (mret a).
Proof. intros s Hs. by apply wlp_ret. Qed.

Lemma stays_bind {A B} u d (m : ST (GwSt S) A) (f : A -> ST (GwSt S) B) : stays u d m -> (forall a, stays u d (f a)) -> stays u d (m ≫= f).
Proof. intros Hm Hf s Hs. apply wlp_bind. eapply wlp_mono; [by apply Hm|]. intros a s'. apply Hf. Qed.

(** Anything that leaves the connection alone. *)
Lemma stays_local {A} u d (m : ST (GwSt S) A) : (forall s a s', m s = Some (a, s') -> gt s' = gt s) -> stays u d m.
Proof. intros H s Hs a s' Hm. unfold has_session. by rewrite (H _ _ _ Hm). Qed.

(** A command that leaves the sessions alone. *)
Lemma stays_cmd {A} u d (f : Redis -> A * Redis) :
  (forall r, r_sessions (f r).2 = r_sessions r) -> stays u d (onRedisG (cmd f)).
Proof.
  intros Hf s [Hd [H1 H2]]. apply wlp_zoom. intros a t. unfold cmd. rewrite H1, H2. specialize (Hf (n_redis (gt s))).
  destruct (f (n_redis (gt s))) as [b r]. cbn in Hf. intros [= _ <-]. split; [cbn; by rewrite Hf|done].
Qed.

Lemma stays_publish u d channel event : stays u d (publishG channel event).
Proof.
  unfold publishG. apply stays_bind; [|intros; apply stays_ret]. intros s Hs a s' Hm.
  assert (H : wlp (onRedisG (PublishEvent channel event)) (fun _ => has_session u d) s); [|exact (H _ _ Hm)].
  destruct Hs as [Hd [H1 H2]]. apply wlp_zoom. intros b t. unfold PublishEvent, orErr, write, cmd, mbind, st_bind.
  rewrite H1, H2. cbn. intros [= _ <-]. done.
Qed.

Lemma stays_load u d v : stays u d (onRedisG (LoadGlobalSession v)).
Proof.
  intros s [Hd [H1 H2]]. apply wlp_zoom. intros b t. unfold LoadGlobalSession, read, cmd, mbind, st_bind.
  rewrite H1, H2. cbn. intros [= _ <-]. done.
Qed.

Ltac local := apply stays_local; by intros ? ? ? [= <- <-].

Lemma stays_views u d : stays u d gatewayNodeViewsLocked.
Proof. unfold gatewayNodeViewsLocked. apply stays_bind; [local|intros c]. apply stays_bind; [local|intros; apply stays_ret]. Qed.

Lemma stays_boss u d : stays u d bossViewG.
Proof.
  unfold bossViewG. apply stays_bind; [local|intros c]. apply stays_bind; [|intros; apply stays_ret].
  destruct (boss_Alive _); [apply stays_ret|]. apply stays_bind; [local|intros; apply stays_ret].
Qed.

Lemma stays_sessionNode u d v : stays u d (sessionNode v).
Proof.
  unfold sessionNode, try. apply stays_bind; [local|intros c]. apply stays_bind.
  - destruct (cl_localSessions c !! v); [apply stays_ret|]. apply stays_bind; [apply stays_load|intros [l|]; [|apply stays_ret]].
    apply stays_bind; [local|intros; apply stays_ret].
  - intros [err|session]; [apply stays_ret|]. apply stays_bind; [local|intros c']. destruct (route _ _) as [[[]]|]; apply stays_ret.
Qed.

Lemma stays_snapshot u d v : stays u d (SnapshotFor v).
Proof.
  unfold SnapshotFor, try. apply stays_bind; [apply stays_sessionNode|intros [err|[[session node] epoch]]; [apply stays_ret|]].
  apply stays_bind; [local|intros c].
  apply stays_bind; [apply stays_local; intros s a s'; unfold allocG; destruct (AllocWorldState _ _); by intros [= <- <-]|intros ws].
  apply stays_bind; [apply stays_views|intros nodeViews]. apply stays_bind; [apply stays_boss|intros bossView].
  apply stays_bind; [local|intros cached]. destruct (_ ≫= mc_View); [apply stays_ret|].
  apply stays_bind; [local|intros; apply stays_ret].
Qed.

(** A login that got as far as the snapshot has saved its session. *)
Lemma login_saves u password s :
  reliable (gt s) ->
  wlp (Login bcrypt_compare sha256_hex u password)
    (fun r s' => r = inl GErrSyncing -> exists session, has_session u (encode_session session) s') s.
Proof.
  intros Hq. unfold Login, wrapErr, try. apply wlp_bind, wlp_bind, wlp_zoom. intros [err|profile] db _; [by apply wlp_ret, wlp_ret|].
  apply wlp_ret. apply wlp_bind. apply wlp_zoom. intros online t Ht.
  assert (Hrel : reliable t).
  { destruct Hq as [H1 H2]. unfold LoadGlobalSession, read, cmd, mbind, st_bind in Ht. cbn in Ht. rewrite H1, H2 in Ht. by injection Ht as _ <-. }
  clear Ht. destruct online as [session|]; [by apply wlp_ret|]. apply wlp_bind, wlp_gets. unfold id.
  destruct (route _ _) as [[[ownerID epoch] owner]|]; [|by apply wlp_ret].
  apply wlp_bind, wlp_bind, wlp_zoom. intros [err|[]] peers _; [by apply wlp_ret, wlp_ret|]. apply wlp_ret.
  set (session := mkGlobalSession u _ ownerID 1). apply wlp_bind, wlp_zoom. intros saved t2 Ht2.
  assert (Hsaved : r_sessions (n_redis t2) !! u = Some (encode_session session) /\ reliable t2).
  { destruct Hrel as [H1 H2]. unfold SaveGlobalSession, orErr, write, cmd, mbind, st_bind in Ht2. cbn in Ht2. rewrite H1, H2 in Ht2.
    injection Ht2 as _ <-. split; [cbn; apply lookup_insert_eq|done]. }
  clear Ht2. match goal with |- wlp ?m _ _ => assert (Hstays : stays u (encode_session session) m) end.
  { apply stays_bind; [local|intros _]. apply stays_bind; [apply stays_publish|intros _].
    apply stays_bind; [apply stays_publish|intros _]. unfold refreshed, try.
    apply stays_bind; [apply stays_snapshot|intros [err|ws]; apply stays_ret]. }
  eapply wlp_mono; [apply Hstays; exact Hsaved|]. intros r s' Hs _. by exists session.
Qed.

Context (quote : string -> string) (desc : rpc_cause -> string) (storage_text : store_err -> string) (check_text : string)
  (direction_name : pb_Direction -> string).

#[local] Instance service : gatewayBackend (GwSt S) :=
  Cluster_backend quote desc storage_text check_text bcrypt_generate bcrypt_compare sha256_hex.

Definition login_request (id : Z) (u password : string) : go_error + option pb_ClientEnvelope :=
  inr (Some (mk_pb_ClientEnvelope id (Some (ClientEnvelope_Login (Some (mk_pb_LoginRequest u password)))))).

Lemma stream_failed_login id u password s err s1 send_err events :
  id <> 0 -> Login bcrypt_compare sha256_hex u password s = Some (inl err, s1) ->
  GameStream direction_name (login_request id u password) send_err events s =
    Some (([OutSend (gatewayError id (go_error_of quote desc storage_text check_text err) authError)],
           Some (go_error_of quote desc storage_text check_text err)), s1).
Proof.
  intros Hid Hlogin. unfold GameStream, login_request.
  match goal with |- context [get 0 cle_RequestId ?e] => change (get 0 cle_RequestId e) with id end.
  rewrite (proj2 (Z.eqb_neq id 0) Hid). unfold authenticateStream. cbn. unfold mbind, st_bind, as_pair, mbind, st_bind.
  rewrite Hlogin. reflexivity.
Qed.

(** C39. A login can lock its user out: if the map's snapshot is not in the cache yet
    (after every change of the topology, or while its node does not answer), the
    login has already added the player and saved the session when it fails; the
    stream tells the client that it may retry, returns, and never logs the user
    out.  The session stays in Redis, and as long as it is there, every login of the
    user, on any gateway, ends without a greeting. *)
Theorem failed_login_locks_out id u password s s1 send_err events :
  id <> 0 -> reliable (gt s) -> Login bcrypt_compare sha256_hex u password s = Some (inl GErrSyncing, s1) ->
  GameStream direction_name (login_request id u password) send_err events s =
    Some (([OutSend (errorEnvelope id ERROR_CODE_ROUTE_NOT_READY "地图状态正在同步中，请稍候" true)],
           Some (plain "地图状态正在同步中，请稍候")), s1) /\
  exists session, r_sessions (n_redis (gt s1)) !! u = Some (encode_session session) /\
    forall password2 (s2 : GwSt S), r_sessions (seen (gt s2)) !! u = Some (encode_session session) ->
      n_fault (gt s2) (n_pos (gt s2)) = F_ok ->
      exists frame err s3, GameStream direction_name (login_request id u password2) send_err events s2 =
          Some (([OutSend frame], Some err), s3) /\
        sve_GetAuthenticated (Some frame) = None /\ gpeers s3 = gpeers s2.
Proof.
  intros Hid Hq Hlogin. split.
  - rewrite (stream_failed_login id u password s GErrSyncing s1 send_err events Hid Hlogin). reflexivity.
  - destruct (login_saves u password s Hq _ _ Hlogin eq_refl) as [session [Hd _]].
    exists session. split; [exact Hd|]. intros password2 s2 Hd2 Hf2.
    assert (Hdec : exists decoded, decode_session (encode_session session) = Some decoded) by (by eexists).
    destruct Hdec as [decoded Hdec].
    pose proof (wp_login_online bcrypt_compare sha256_hex u _ decoded password2 s2 Hd2 Hdec Hf2) as H.
    apply wp_run in H as (r & s3 & Hrun & [err ->] & Hp).
    eexists _, _, s3. split; [by apply stream_failed_login|]. split; [|exact Hp].
    unfold gatewayError. by destruct (mapError _ _).
Qed.
End login.

(** The map of the last visit is not in the cache yet: the topology has just changed. *)
Definition demo_fresh_topology : GwSt lossyFleet :=
  mkGwSt (set_cl_localSessions ∅ demo_two_nodes) (quiet (set_r_sessions ∅ demo_redis)) demo_account demo_env [] [] (fun l => l) (mkLossyFleet ∅ []).

Lemma demo_login_syncing :
  match Login (fun _ _ => true) (fun _ => "") "ann" "secret" demo_fresh_topology with
  | Some (inl GErrSyncing, _) => true
  | _ => false
  end = true.
Proof. vm_compute. reflexivity. Qed.

Lemma failed_login_locks_out_witness :
  exists outs err s1 session, GameStream (backend := service (fun _ => None) (fun _ _ => true) (fun _ => "") (fun u => u) (fun _ => "") (fun _ => "") "")
      (fun _ => "") (login_request 1 "ann" "secret") None [] demo_fresh_topology = Some ((outs, Some err), s1) /\
    r_sessions (n_redis (gt s1)) !! "ann" = Some (encode_session session).
Proof.
  pose proof demo_login_syncing as H.
  destruct (Login (fun _ _ => true) (fun _ => "") "ann" "secret" demo_fresh_topology) as [[[err|ws] s1]|] eqn:E; try discriminate H.
  destruct err; try discriminate H.
  destruct (failed_login_locks_out (fun _ => None) (fun _ _ => true) (fun _ => "") (fun u => u) (fun _ => "") (fun _ => "") ""
    (fun _ => "") 1 "ann" "secret" demo_fresh_topology s1 None []) as (Hs & session & Hd & _); [discriminate|by split|exact E|].
  eexists _, _, s1, session. split; [exact Hs|exact Hd].
Defined.
