(* ===== verification/Conversation.v ===== *)
(** * A client and its gateway

    The frames of a terminal client ([ClientMain]) on a stream of the gateway's
    service ([GatewayServer]), over any backend: which calls they cause and which
    answers come back. *)

From Stdlib Require Import ZArith Lia String.
From stdpp Require Import base gmap strings list option.
From S2P Require Import Prelude Protocol Config Maps World WorldOps Topology Redis Store Users Authority Wire NodeWire GatewayWire Envelope StreamSender Client ClientScreen ClientMain ClientMainProps GatewayServer GatewayServerProps.

Open Scope Z_scope.
Open Scope go_scope.
Open Scope list_scope.

#[export] Instance pb_Direction_eq_dec : EqDecision pb_Direction.
Proof. solve_decision. Defined.
#[export] Instance pb_LoginRequest_eq_dec : EqDecision pb_LoginRequest.
Proof. solve_decision. Defined.
#[export] Instance pb_RegisterRequest_eq_dec : EqDecision pb_RegisterRequest.
Proof. solve_decision. Defined.
#[export] Instance ClientPayload_eq_dec : EqDecision ClientPayload.
Proof. solve_decision. Defined.

(** ** A backend that keeps a journal *)

(** The calls that act for a user. *)
Inductive call :=
  | CRegister (username password confirm : string)
  | CLogin (username password : string)
  | CQuickEnter (username password : string)
  | CLogout (username : string)
  | CMove (username direction : string)
  | CAttack (username : string)
  | CAttackBoss (username : string)
  | CHeal (username : string)
  | CBuyItem (username item : string)
  | CSwitchMap (username mapID : string).

Section conversation.
Context {S : Type} (b : gatewayBackend S).

Definition through {A} (m : ST S A) : ST (S * list call) A := zoom fst (fun s p => (s, p.2)) m.
Definition noted {A} (c : call) (m : ST S A) : ST (S * list call) A :=
  _ ← modify (fun p => (p.1, (p.2 ++ [c])%list)); through m.

#[local] Instance journal : gatewayBackend (S * list call) := {|
  be_Register u p c := noted (CRegister u p c) (be_Register u p c);
  be_Login u p := noted (CLogin u p) (be_Login u p);
  be_QuickEnter u p := noted (CQuickEnter u p) (be_QuickEnter u p);
  be_Logout u := noted (CLogout u) (be_Logout u);
  be_SnapshotFor u := through (be_SnapshotFor u);
  be_Move u d := noted (CMove u d) (be_Move u d);
  be_Attack u := noted (CAttack u) (be_Attack u);
  be_AttackBoss u := noted (CAttackBoss u) (be_AttackBoss u);
  be_Heal u := noted (CHeal u) (be_Heal u);
  be_BuyItem u i := noted (CBuyItem u i) (be_BuyItem u i);
  be_SwitchMap u m := noted (CSwitchMap u m) (be_SwitchMap u m);
  be_GatewayStatus := through be_GatewayStatus;
  be_Free ws := through (be_Free ws)
|}.

Context (direction_name : pb_Direction -> string).

Definition journaled (s : @StreamSt (S * list call)) : list call := (sv_backend s).2.

Lemma wlp_noted {A} c (m : ST S A) (Q : A -> StreamSt -> Prop) s :
  (forall a s', journaled s' = journaled s ++ [c] -> sv_loggedOut s' = sv_loggedOut s -> Q a s') ->
  wlp (onBackend (noted c m)) Q s.
Proof. intros HQ. apply wlp_zoom, wlp_bind, wlp_modify, wlp_zoom. intros a s1 _. by apply HQ. Qed.

Lemma wlp_through {A} (m : ST S A) (Q : A -> StreamSt -> Prop) s :
  (forall a s', journaled s' = journaled s -> sv_loggedOut s' = sv_loggedOut s -> Q a s') ->
  wlp (onBackend (through m)) Q s.
Proof. intros HQ. apply wlp_zoom, wlp_zoom. intros a s1 _. by apply HQ. Qed.

(** ** One command *)

(** The call a command of a client stands for. *)
Definition call_of (u : string) (c : ClientPayload) : list call :=
  match c with
  | ClientEnvelope_Move (Some d) => match parseDirection direction_name d with inr direction => [CMove u direction] | inl _ => [] end
  | ClientEnvelope_Attack (Some _) => [CAttack u]
  | ClientEnvelope_AttackBoss (Some _) => [CAttackBoss u]
  | ClientEnvelope_Heal (Some _) => [CHeal u]
  | ClientEnvelope_BuyItem (Some item) => [CBuyItem u item]
  | ClientEnvelope_SwitchMap (Some mapID) => [CSwitchMap u mapID]
  | ClientEnvelope_Logout (Some _) => [CLogout u]
  | _ => []
  end.

Lemma execute_game u c s : c ∈ game_commands ->
  wlp (execute direction_name u (Some c)) (fun r s' =>
    journaled s' = journaled s ++ call_of u c /\ sv_loggedOut s' = sv_loggedOut s /\ r.2 = false) s.
Proof.
  assert (Hacts : forall cl m message, wlp (acts (noted cl m) message)
    (fun r s' => journaled s' = journaled s ++ [cl] /\ sv_loggedOut s' = sv_loggedOut s /\ r.2 = false) s).
  { intros cl m message. unfold acts. apply wlp_bind, wlp_noted. intros [next err] s' H1 H2. by apply wlp_ret. }
  unfold game_commands. rewrite !elem_of_cons, elem_of_nil. intros Hc.
  repeat destruct Hc as [->|Hc]; [apply Hacts..|done].
Qed.

Lemma execute_logout u s : sv_loggedOut s = false ->
  wlp (execute direction_name u (Some logoutCommand)) (fun r s' => journaled s' = journaled s ++ [CLogout u] /\ sv_loggedOut s' = true) s.
Proof.
  intros Hs. unfold execute, logoutCommand. apply wlp_bind. unfold logout. apply wlp_bind, wlp_gets. unfold id. rewrite Hs.
  apply wlp_bind, wlp_modify, wlp_noted. intros [e|] s' H1 H2; by apply wlp_ret.
Qed.

(** ** Answers *)

(** The numbers of the controls that answer a request; the pump's errors have
    number 0. *)
Definition answer_number (o : output) : option Z :=
  match o with OutEnqueue f => if sve_RequestId f =? 0 then None else Some (sve_RequestId f) | _ => None end.
Definition answers (outs : list output) : list Z := omap answer_number outs.

Lemma answers_app a c : answers (a ++ c) = answers a ++ answers c.
Proof. apply omap_app. Qed.

Lemma gatewayError_number n e kind : sve_RequestId (gatewayError n e kind) = n.
Proof. unfold gatewayError. by destruct (mapError _ _). Qed.

Lemma wlp_free_next next s : wlp (free_next next) (fun _ s' => journaled s' = journaled s /\ sv_loggedOut s' = sv_loggedOut s) s.
Proof. unfold free_next. destruct next; [|by apply wlp_ret]. by apply wlp_through. Qed.

Lemma wlp_submit next s :
  wlp (submit next) (fun outs s' => journaled s' = journaled s /\ sv_loggedOut s' = sv_loggedOut s /\ answers outs = []) s.
Proof.
  unfold submit. destruct next as [ws|]; [|by apply wlp_ret]. apply wlp_bind, wlp_through. intros [] s' H1 H2.
  by apply wlp_ret.
Qed.

(** A command with its number, on a sender that accepts controls: whatever it does to
    the backend, exactly one answer, under its number. *)
Lemma handleCommand_answers u n c s (Q : bool -> StreamSt -> Prop) : n <> 0 ->
  wlp (execute direction_name u (Some c)) (fun r s' => forall s'',
    journaled s'' = journaled s' -> sv_loggedOut s'' = sv_loggedOut s' -> Q false s'' /\ Q r.2 s'') s ->
  wlp (handleCommand direction_name true u (Some (mk_pb_ClientEnvelope n (Some c))))
    (fun r s' => Q r.1.2 s' /\ answers r.1.1 = [n] /\ r.2 = true) s.
Proof.
  intros Hn He. unfold handleCommand.
  change (get 0 cle_RequestId (Some (mk_pb_ClientEnvelope n (Some c)))) with n.
  replace (n =? 0) with false by lia. rewrite bool_decide_eq_false_2 by done. cbn [orb mbind option_bind cle_Payload].
  apply wlp_bind. eapply wlp_mono; [exact He|]. intros [[[next [e|]] message] shouldClose] s1 HQ; cbn beta in HQ.
  - apply wlp_bind. eapply wlp_mono; [apply wlp_free_next|]. intros [] s2 [H1 H2]. apply wlp_ret.
    split; [by apply HQ|]. split; [|done]. cbn. rewrite gatewayError_number. by replace (n =? 0) with false by lia.
  - cbn [negb]. apply wlp_bind. eapply wlp_mono; [apply wlp_submit|]. intros outs s2 (H1 & H2 & H3). apply wlp_ret.
    split; [by apply HQ|]. split; [|done]. cbn. replace (n =? 0) with false by lia. unfold answers in H3. by rewrite H3.
Qed.

(** ** A stream *)

(** Streams on which the frames of a client arrive, in order, between ticks, until
    the events end or something else ends the stream; controls are accepted. *)
Inductive carries : list pb_ClientEnvelope -> list stream_event -> Prop :=
  | carries_nil : carries [] []
  | carries_end e events : e = EvEOF \/ (exists err, e = EvRecvError err) \/ e = EvDone \/ e = EvInboundClosed -> carries [] (e :: events)
  | carries_tick frames accepted events : carries frames events -> carries frames (EvTick accepted :: events)
  | carries_frame frame frames events : carries frames events -> carries (frame :: frames) (EvRequest (Some frame) true :: events).

Definition served (u : string) (n : Z) (commands : list ClientPayload) (s : @StreamSt (S * list call))
    (r : list output * option go_error) (s' : @StreamSt (S * list call)) : Prop :=
  answers r.1 = cle_RequestId <$> numbered n commands /\
  journaled s' = journaled s ++ (commands ≫= call_of u) /\
  sv_loggedOut s' = sv_loggedOut s || bool_decide (logoutCommand ∈ commands).

(** What a client may send: game commands, then perhaps a logout. *)
Definition dialogue (commands : list ClientPayload) : Prop :=
  exists game ending, commands = game ++ ending /\ Forall (fun c => c ∈ game_commands) game /\ (ending = [] \/ ending = [logoutCommand]).

Lemma game_not_logout c : c ∈ game_commands -> c <> logoutCommand.
Proof.
  intros Hc ->. unfold game_commands in Hc. rewrite !elem_of_cons, elem_of_nil in Hc. by repeat destruct Hc as [Hc|Hc].
Qed.

Lemma dialogue_cons c commands : dialogue (c :: commands) ->
  (c ∈ game_commands /\ dialogue commands) \/ (c = logoutCommand /\ commands = []).
Proof.
  intros ([|g game] & ending & H & Hg & He); cbn in H.
  - destruct He as [->| ->]; [done|]. injection H as -> ->. by right.
  - injection H as -> ->. apply list.Forall_cons in Hg as [Hc Hg]. left. split; [done|]. by exists game, ending.
Qed.

Lemma wlp_tick u accepted lastError s :
  wlp (pumpTick accepted u lastError) (fun r s' => journaled s' = journaled s /\ sv_loggedOut s' = sv_loggedOut s /\ answers r.1.1 = []) s.
Proof.
  unfold pumpTick. apply wlp_bind, wlp_through. intros [state [e|]] s1 H1 H2.
  - case_bool_decide; apply wlp_ret; [done|]. repeat split; try done. cbn. by rewrite gatewayError_number.
  - apply wlp_bind. eapply wlp_mono; [apply wlp_submit|]. intros outs s2 (H3 & H4 & H5). apply wlp_ret.
    repeat split; [congruence..|done].
Qed.

Lemma loop_serves u frames events : carries frames events -> forall n commands s lastError pumping,
  frames = numbered n commands -> dialogue commands -> 1 <= n -> n + Z.of_nat (length commands) <= 2^64 ->
  (logoutCommand ∈ commands -> sv_loggedOut s = false) ->
  wlp (stream_loop direction_name u lastError pumping events) (served u n commands s) s.
Proof.
  induction 1 as [|e events He|frames accepted events Hc IH|frame frames events Hc IH];
    intros n commands s lastError pumping Hf Hd Hn Hb Hl.
  - destruct commands; [|done]. apply wlp_ret. unfold served. rewrite app_nil_r, orb_false_r. done.
  - destruct commands; [|done].
    assert (Hs : forall outs result, answers outs = [] -> served u n [] s (outs, result) s)
      by (intros; unfold served; rewrite app_nil_r, orb_false_r; done).
    destruct He as [->|[[err ->]|[-> | ->]]]; by apply wlp_ret, Hs.
  - cbn [stream_loop]. destruct pumping; cbn [negb]; [|by apply IH]. apply wlp_bind. eapply wlp_mono; [apply wlp_tick|].
    intros [[outs le] p] s1 (H1 & H2 & H3). apply wlp_bind. eapply wlp_mono; [apply (IH n commands); try done; by rewrite H2|].
    intros [rest result] s2 (G1 & G2 & G3). apply wlp_ret. unfold served. cbn [fst] in *. rewrite answers_app, H3, G1, G2, G3, H1, H2. done.
  - destruct commands as [|c commands]; [done|]. cbn [numbered] in Hf. injection Hf as -> Hf. cbn [stream_loop].
    cbn [length] in Hb. assert (Hu : u64 n = n) by (apply u64_id; unfold in_u64; lia). rewrite Hu.
    apply wlp_bind. apply dialogue_cons in Hd as [[Hg Hd]|[-> ->]].
    + eapply wlp_mono; [apply (handleCommand_answers u n c s (fun close s' =>
        close = false /\ journaled s' = journaled s ++ call_of u c /\ sv_loggedOut s' = sv_loggedOut s)); [lia|]|].
      { eapply wlp_mono; [by apply execute_game|]. intros r s' (H1 & H2 & H3) s'' E1 E2. rewrite E1, E2, H1, H2, H3. done. }
      intros [[outs close] enqueued] s1 ((E & H1 & H2) & H3 & H4). cbn [fst snd] in *. subst close enqueued. cbn [negb].
      apply wlp_bind. eapply wlp_mono; [apply (IH (n + 1) commands); try done; try lia|].
      { intros Hin. rewrite H2. apply Hl, elem_of_cons. by right. }
      intros [rest result] s2 (G1 & G2 & G3). apply wlp_ret. unfold served. cbn [fst] in *.
      rewrite answers_app, H3, G1, G2, G3, H1, H2. cbn [numbered fmap list_fmap cle_RequestId]. rewrite Hu.
      split; [done|]. split; [by rewrite <- app_assoc|]. f_equal. apply bool_decide_ext. apply game_not_logout in Hg. rewrite elem_of_cons.
      split; [by right|by intros [?|?]; [congruence|]].
    + specialize (Hl ltac:(apply elem_of_cons; by left)).
      eapply wlp_mono; [apply (handleCommand_answers u n logoutCommand s (fun _ s' =>
        journaled s' = journaled s ++ [CLogout u] /\ sv_loggedOut s' = true)); [lia|]|].
      { eapply wlp_mono; [by apply execute_logout|]. intros r s' (H1 & H2) s'' E1 E2. rewrite E1, E2, H1, H2. done. }
      intros [[outs close] enqueued] s1 ((H1 & H2) & H3 & H4). cbn [fst snd] in *. subst enqueued. cbn [negb].
      assert (Hfin : forall rest s2 result, answers rest = [] -> journaled s2 = journaled s1 -> sv_loggedOut s2 = true ->
        served u n [logoutCommand] s (outs ++ rest, result) s2).
      { intros rest s2 result E1 E2 E3. unfold served. cbn [fst]. rewrite answers_app, H3, E1, E2, E3, H1. cbn. rewrite Hu, Hl. done. }
      destruct close; [by apply wlp_ret, Hfin|]. apply wlp_bind.
      eapply wlp_mono; [apply (IH (n + 1) []); try done; try lia|].
      { exists [], []. repeat split; [constructor|by left]. } { by rewrite elem_of_nil. }
      intros [rest result] s2 (G1 & G2 & G3). apply wlp_ret. apply Hfin; [done|by rewrite G2, app_nil_r|by rewrite G3, H2].
Qed.
(** ** The whole stream *)

(** The calls of an authentication request. *)
Definition auth_calls (c : Credentials) : list call :=
  if bool_decide (cr_mode c = authModeRegister)
  then [CRegister (cr_username c) (cr_password c) (cr_confirm c); CLogin (cr_username c) (cr_password c)]
  else [CLogin (cr_username c) (cr_password c)].

Definition first_frame (c : Credentials) : pb_ClientEnvelope :=
  authRequest 1 (cr_mode c) (cr_username c) (cr_password c) (cr_confirm c).

Lemma wlp_jnoted {A} cl (m : ST S A) (Q : A -> S * list call -> Prop) s l :
  (forall a s', Q a (s', l ++ [cl])) -> wlp (noted cl m) Q (s, l).
Proof. intros HQ. apply wlp_bind, wlp_modify, wlp_zoom. intros a s' _. apply HQ. Qed.

Lemma wlp_auth c s :
  wlp (authenticateStream (Some (first_frame c))) (fun r s' =>
    r.1.1 = cr_username c /\ s'.2 `prefix_of` auth_calls c /\ (r.2 = None -> s'.2 = auth_calls c)) (s, [] : list call).
Proof.
  unfold first_frame, authRequest, auth_calls, authenticateStream. cbn [mbind option_bind cle_Payload]. case_bool_decide.
  - apply wlp_bind, wlp_jnoted. intros [e|] s1.
    + apply wlp_ret. split; [done|]. split; [by exists [CLogin (cr_username c) (cr_password c)]|done].
    + apply wlp_bind, wlp_jnoted. intros [state err] s2. by apply wlp_ret.
  - apply wlp_bind, wlp_jnoted. intros [state err] s1. by apply wlp_ret.
Qed.

Lemma wlp_logout_once u (s : @StreamSt (S * list call)) :
  wlp (logout u) (fun _ s' => journaled s' = journaled s ++ (if sv_loggedOut s then [] else [CLogout u])) s.
Proof.
  unfold logout. apply wlp_bind, wlp_gets. unfold id. destruct (sv_loggedOut s); [by apply wlp_ret; rewrite app_nil_r|].
  apply wlp_bind, wlp_modify, wlp_noted. by intros a s' H1 H2.
Qed.

(** What the gateway has done for a client that sent [commands] after its first
    frame: the authentication, each command once and in order, and one logout; and
    each command is answered once, in order. *)
Definition conversation_of (c : Credentials) (commands : list ClientPayload) (outs : list output) (calls : list call) : Prop :=
  answers outs = cle_RequestId <$> numbered 2 commands /\
  calls = auth_calls c ++ (commands ≫= call_of (cr_username c)) ++
            (if bool_decide (logoutCommand ∈ commands) then [] else [CLogout (cr_username c)]).

Lemma stream_serves c commands events s outs result s' calls :
  dialogue commands -> 2 + Z.of_nat (length commands) <= 2^64 -> carries (numbered 2 commands) events ->
  GameStream direction_name (inr (Some (first_frame c))) None events (s, []) = Some ((outs, result), (s', calls)) ->
  match outs with
  | o :: outs => if greets o then conversation_of c commands outs calls else outs = [] /\ calls `prefix_of` auth_calls c
  | [] => False
  end.
Proof.
  intros Hd Hb Hc Hrun. enough (H : wlp (GameStream direction_name (inr (Some (first_frame c))) None events) (fun r p =>
    match r.1 with
    | o :: outs => if greets o then conversation_of c commands outs p.2 else outs = [] /\ p.2 `prefix_of` auth_calls c
    | [] => False
    end) (s, [])) by exact (H _ _ Hrun).
  clear Hrun. unfold GameStream. change (get 0 cle_RequestId (Some (first_frame c))) with 1. change (1 =? 0) with false. cbn [negb].
  apply wlp_bind. eapply wlp_mono; [apply wlp_auth|]. intros [[username state] err] [s1 l1] (Hu & Hp & Hl). cbn [fst snd] in *. subst username.
  destruct err as [e|]; [apply wlp_ret; cbn; unfold gatewayError; by destruct (mapError _ _)|]. specialize (Hl eq_refl). subst l1.
  destruct state as [ws|]; [|by apply wlp_ret].
  apply wlp_bind, wlp_zoom. intros [] s2 _. intros [outs2 result2] [s4 log4] H. cbn beta in H.
  match type of H with match ?m ?st with _ => _ end = _ => destruct (m st) as [[[outs3 result3] t2]|] eqn:Hm; [|done] end.
  injection H as <- <- Hs. cbn.
  enough (Hq : answers outs3 = cle_RequestId <$> numbered 2 commands /\ journaled t2 =
      auth_calls c ++ (commands ≫= call_of (cr_username c)) ++ (if bool_decide (logoutCommand ∈ commands) then [] else [CLogout (cr_username c)])).
  { unfold journaled in Hq. rewrite Hs in Hq. exact Hq. }
  refine (wlp_run _ (fun r t => answers r.1 = _ /\ journaled t = _) _ _ _ _ Hm).
  apply wlp_bind. eapply wlp_mono; [apply (loop_serves (cr_username c) _ _ Hc 2 commands); try done; lia|].
  intros [rest result4] s5 (G1 & G2 & G3). apply wlp_bind. eapply wlp_mono; [apply wlp_logout_once|].
  intros o s6 G4. apply wlp_ret. split; [exact G1|]. rewrite G4, G2, G3, <- app_assoc. done.
Qed.
End conversation.

(** A part of consecutively numbered frames. *)
Lemma numbered_prefix delivered commands : forall n, delivered `prefix_of` numbered n commands ->
  exists first rest, commands = first ++ rest /\ delivered = numbered n first.
Proof.
  revert delivered. induction commands as [|c commands IH]; intros delivered n [more H]; cbn [numbered] in H.
  - symmetry in H. apply app_nil in H as [-> _]. by exists [], [].
  - destruct delivered as [|f delivered]; [by exists [], (c :: commands)|]. injection H as <- H.
    destruct (IH delivered (n + 1)) as (first & rest & -> & ->); [by exists more|]. by exists (c :: first), rest.
Qed.

Lemma dialogue_part first rest : dialogue (first ++ rest) -> dialogue first.
Proof.
  revert rest. induction first as [|c first IH]; intros rest Hd; [by exists [], []; repeat split; [constructor|left]|].
  apply dialogue_cons in Hd as [[Hg Hd]|[-> Hn]].
  - destruct (IH _ Hd) as (game & ending & -> & ? & ?). exists (c :: game), ending. repeat split; [by constructor|done].
  - apply app_nil in Hn as [-> _]. exists [], [logoutCommand]. repeat split; [constructor|by right].
Qed.

Lemma numbered_length commands : forall n, length (numbered n commands) = length commands.
Proof. induction commands as [|c commands IH]; intros n; cbn; [done|by rewrite IH]. Qed.

(** C37. A session of the terminal client, served: whatever is typed at the prompts and
    in the game, the client's first frame authenticates and the others are commands
    with the numbers 2, 3, ... and at most a last logout.  When the gateway has
    received any part of them, on a stream that accepts its controls, then over any
    backend either the stream never greeted and only the authentication was tried,
    or the backend was called exactly for these commands, in order, and for one
    logout, and the answers bear exactly the numbers of these commands, in order:
    no key is lost, repeated or refused by the gateway itself. *)
Theorem client_served {S} (b : gatewayBackend S) direction_name fuel nets raw_failed events reads p :
  (total_length reads < fuel)%nat ->
  main fuel nets raw_failed events reads = Some (Some p) -> Z.of_nat (length (cp_sent p)) < 2^64 ->
  exists c frames, auth_choice c /\ cp_sent p = first_frame c :: frames /\
    forall delivered stream_events s outs result s' calls,
      delivered `prefix_of` frames -> carries delivered stream_events ->
      GameStream (backend := journal b) direction_name (inr (Some (first_frame c))) None stream_events (s, [])
        = Some ((outs, result), (s', calls)) ->
      exists commands, delivered = numbered 2 commands /\ dialogue commands /\
        match outs with
        | greeting :: outs =>
            if greets greeting then conversation_of direction_name c commands outs calls
            else outs = [] /\ calls `prefix_of` auth_calls c
        | [] => False
        end.
Proof.
  intros Hf Hm Hlen. destruct (main_speaks _ _ _ _ _ _ Hf Hm) as (c & Hc & game & ending & Hs & _ & Hg & He).
  exists c, (numbered 2 (game ++ ending)). split; [done|]. split; [exact Hs|].
  intros delivered sevents s outs result s' calls Hp Hcar Hrun.
  apply numbered_prefix in Hp as (commands & rest & Hsplit & ->). exists commands. split; [done|].
  assert (Hd : dialogue commands).
  { apply (dialogue_part commands rest). rewrite <- Hsplit. exists game, ending. repeat split; [done|]. destruct He as [->|[-> _]]; auto. }
  split; [done|]. refine (stream_serves b direction_name c commands _ _ _ _ _ _ Hd _ Hcar Hrun).
  rewrite Hs, Hsplit in Hlen. cbn [length] in Hlen. rewrite numbered_length, length_app in Hlen. lia.
Qed.

(** Three keys - a step, a blow, the end - and a state in between. *)
Definition demo_typed : list string := line <$> ["1"; "1"; "ann"; "pw"].
#[local] Notation demo_session :=
  (main 100 [greeting] None [KeyRead None; FrameReceived (Some None); KeyRead None; KeyRead None] (demo_typed ++ ["w"; "jq"])).

Definition demo_client : ClientProc :=
  match demo_session with Some (Some p) => p | _ => mkClientProc initial_UI 0 "" [] [] true true end.

Definition demo_commands : list ClientPayload := [moveCommand DIRECTION_UP; attackCommand; logoutCommand].
Definition demo_frames : list pb_ClientEnvelope :=
  mk_pb_ClientEnvelope 1 (Some (ClientEnvelope_Login (Some (mk_pb_LoginRequest "ann" "pw")))) :: numbered 2 demo_commands.

#[local] Notation demo_stream first frames :=
  (GameStream (backend := journal demo_backend) (fun _ => "") (inr first) None ((fun f => EvRequest (Some f) true) <$> frames) (tt, [])).

Definition demo_outs : list output :=
  match demo_stream (head demo_frames) (tail demo_frames) with Some (r, _) => r.1 | None => [] end.

Lemma client_served_witness :
  exists p c frames, demo_session = Some (Some p) /\ cp_sent p = first_frame c :: frames /\
    demo_stream (Some (first_frame c)) frames
      = Some ((demo_outs, None), (tt, [CLogin "ann" "pw"; CMove "ann" DirUp; CAttack "ann"; CLogout "ann"])) /\
    exists commands, frames = numbered 2 commands /\ answers (tail demo_outs) = cle_RequestId <$> frames.
Proof.
  assert (E : demo_session = Some (Some demo_client)) by (vm_compute; reflexivity).
  assert (Hp : cp_sent demo_client = demo_frames) by (vm_compute; reflexivity).
  assert (Er : demo_stream (head demo_frames) (tail demo_frames)
    = Some ((demo_outs, None), (tt, [CLogin "ann" "pw"; CMove "ann" DirUp; CAttack "ann"; CLogout "ann"]))) by (vm_compute; reflexivity).
  assert (Hlen : Z.of_nat (length (cp_sent demo_client)) < 2^64) by (rewrite Hp; reflexivity).
  assert (Hfuel : (total_length (demo_typed ++ ["w"; "jq"]) < 100)%nat) by (apply Nat.ltb_lt; vm_compute; reflexivity).
  destruct (client_served demo_backend (fun _ => "") 100 [greeting] None
    [KeyRead None; FrameReceived (Some None); KeyRead None; KeyRead None] (demo_typed ++ ["w"; "jq"]) demo_client
    Hfuel E Hlen) as (c & frames & _ & Hs & H).
  clear Hlen Hfuel. rewrite Hs in Hp. rewrite <- Hp in Er. cbn [head tail] in Er.
  assert (Hcar : carries frames ((fun f => EvRequest (Some f) true) <$> frames)) by (clear; induction frames; constructor; done).
  destruct (H frames _ tt demo_outs None tt _ ltac:(by exists []; rewrite app_nil_r) Hcar Er) as (commands & Hn & _ & Hout).
  exists demo_client, c, frames. split; [exact E|]. split; [exact Hs|]. split; [exact Er|].
  exists commands. split; [exact Hn|]. rewrite Hn.
  assert (Hg : exists rest, demo_outs = OutSend (mk_pb_ServerEnvelope 1
    (Some (ServerEnvelope_Authenticated (Some (ToWorldState (Some demo_world_state)))))) :: rest) by (eexists; vm_compute; reflexivity).
  destruct Hg as [rest Hg]. rewrite Hg in Hout |- *. destruct Hout as [Ha _]. exact Ha.
Defined.
