(* ===== verification/Benchmark.v ===== *)
(** * The benchmark tool

    [cmd/benchmark/main.go]: the goroutines of its users over the shared counters, cut
    at their atomic operations, locks and library calls, and the report.  What the
    library answers, the clock and random numbers are inputs. *)

From Stdlib Require Import ZArith Lia String.
From stdpp Require Import base gmap sorting strings list option relations.
From S2P Require Import Prelude Protocol Maps Authority Wire NodeWire Envelope.

Open Scope Z_scope.
Open Scope go_scope.
Open Scope list_scope.

(** ** The state *)

(** [metrics], [peakUsers] and [currentUsers]. *)
Record Shared := mkShared {
  sh_commandConfirmed : Z;
  sh_commandRejected : Z;
  sh_transportErrors : Z;
  sh_stateUpdates : Z;
  sh_latencies : list Z;
  sh_peakUsers : Z;
  sh_currentUsers : Z
}.

Definition no_metrics : Shared := mkShared 0 0 0 0 [] 0 0.

Definition add_confirmed (s : Shared) : Shared :=
  mkShared (sh_commandConfirmed s +i 1) (sh_commandRejected s) (sh_transportErrors s) (sh_stateUpdates s) (sh_latencies s) (sh_peakUsers s) (sh_currentUsers s).
Definition add_rejected (s : Shared) : Shared :=
  mkShared (sh_commandConfirmed s) (sh_commandRejected s +i 1) (sh_transportErrors s) (sh_stateUpdates s) (sh_latencies s) (sh_peakUsers s) (sh_currentUsers s).
Definition add_transport (s : Shared) : Shared :=
  mkShared (sh_commandConfirmed s) (sh_commandRejected s) (sh_transportErrors s +i 1) (sh_stateUpdates s) (sh_latencies s) (sh_peakUsers s) (sh_currentUsers s).
Definition add_state (s : Shared) : Shared :=
  mkShared (sh_commandConfirmed s) (sh_commandRejected s) (sh_transportErrors s) (sh_stateUpdates s +i 1) (sh_latencies s) (sh_peakUsers s) (sh_currentUsers s).
Definition addLatency (latency : Z) (s : Shared) : Shared :=
  mkShared (sh_commandConfirmed s) (sh_commandRejected s) (sh_transportErrors s) (sh_stateUpdates s) (sh_latencies s ++ [latency]) (sh_peakUsers s) (sh_currentUsers s).
Definition set_peak (peak : Z) (s : Shared) : Shared :=
  mkShared (sh_commandConfirmed s) (sh_commandRejected s) (sh_transportErrors s) (sh_stateUpdates s) (sh_latencies s) peak (sh_currentUsers s).
Definition add_current (d : Z) (s : Shared) : Shared :=
  mkShared (sh_commandConfirmed s) (sh_commandRejected s) (sh_transportErrors s) (sh_stateUpdates s) (sh_latencies s) (sh_peakUsers s) (sh_currentUsers s +i d).

(** [pendingCommands]: when each open request was sent. *)
Abbreviation pendingCommands := (gmap Z Z).
Definition newPendingCommands : pendingCommands := ∅.
Definition start (requestID startedAt : Z) (p : pendingCommands) : pendingCommands := <[requestID := startedAt]> p.
Definition resolve (requestID : Z) (p : pendingCommands) : option Z * pendingCommands := (p !! requestID, delete requestID p).
Definition forget (requestID : Z) (p : pendingCommands) : pendingCommands := delete requestID p.

(** Where [runGatewayUser] stands: before a call of the library, before an atomic
    operation of [updatePeak], before an operation on the open requests, waiting in
    [select], failing, leaving through the deferred calls, or finished. *)
Inductive user_pc :=
  | AtNewClient | AtGameStream | AtSendAuth | AtRecvAuth
  | AtJoin | AtLoadCurrent | AtLoadPeak (current : Z) | AtCompareAndSwap (current peak : Z)
  | AtSpawn | AtStart (request : pb_ClientEnvelope) | AtSend (request : pb_ClientEnvelope) | AtForget (requestID : Z)
  | AtSelect | AtFail | AtLeave | Finished.

(** Where the receiving goroutine of a user stands. *)
Inductive receiver_pc :=
  | NotStarted | AtRecv
  | AtCountState | AtResolveResult (requestID : Z) | AtCountConfirmed (startedAt : Z) | AtAddLatency (startedAt : Z)
  | AtResolveError (requestID : Z) | AtCountRejected
  | Ended.

Record BenchUser := mkBenchUser {
  bu_id : Z;
  bu_pc : user_pc;
  bu_receiver : receiver_pc;
  bu_pending : pendingCommands;
  bu_requestID : Z
}.

Definition set_pc (pc : user_pc) (u : BenchUser) : BenchUser :=
  mkBenchUser (bu_id u) pc (bu_receiver u) (bu_pending u) (bu_requestID u).
Definition set_receiver (pc : receiver_pc) (u : BenchUser) : BenchUser :=
  mkBenchUser (bu_id u) (bu_pc u) pc (bu_pending u) (bu_requestID u).
Definition set_pending (p : pendingCommands) (u : BenchUser) : BenchUser :=
  mkBenchUser (bu_id u) (bu_pc u) (bu_receiver u) p (bu_requestID u).
Definition next_request (u : BenchUser) : BenchUser :=
  mkBenchUser (bu_id u) (bu_pc u) (bu_receiver u) (bu_pending u) (bu_requestID u +u 1).

(** ** A user *)

Definition bench_maps : list string := ["green"; "cave"; "ruins"].
Definition bench_dirs : list pb_Direction := [DIRECTION_UP; DIRECTION_DOWN; DIRECTION_LEFT; DIRECTION_RIGHT].

Definition quick_enter (id now : Z) : pb_ClientEnvelope :=
  mk_pb_ClientEnvelope 1 (Some (ClientEnvelope_QuickEnter (Some (mk_pb_LoginRequest
    ("bench_user_" +:+ itoa id +:+ "_" +:+ itoa now) "password")))).
Definition switch_request (u : BenchUser) : pb_ClientEnvelope :=
  mk_pb_ClientEnvelope (bu_requestID u) (Some (ClientEnvelope_SwitchMap (bench_maps !! Z.to_nat (Z.rem (bu_id u) 3)))).
Definition move_request (dir : nat) (u : BenchUser) : pb_ClientEnvelope :=
  mk_pb_ClientEnvelope (bu_requestID u) (Some (ClientEnvelope_Move (bench_dirs !! dir))).

(** The test of the reply to the first frame. *)
Definition welcomed (reply : option pb_ServerEnvelope) : bool :=
  match sve_GetAuthenticated reply with
  | Some (Some _) => match reply with Some e => sve_RequestId e =? 1 | None => false end
  | _ => false
  end.

(** What a step meets: a call that works or fails, a message, the clock, or the branch
    that [select] takes. *)
Inductive bench_input :=
  | CallWorks | CallFails | Message (reply : option pb_ServerEnvelope) | Now (t : Z)
  | ContextDone | ReceiveDone | TickerFires (dir : nat).

Definition receive_done (u : BenchUser) : bool := match bu_receiver u with Ended => true | _ => false end.

(** One iteration of [updatePeak] takes three steps: the two loads, and the comparison
    with the swap. *)
Definition updatePeak_step (s : Shared) (u : BenchUser) : option (Shared * BenchUser) :=
  match bu_pc u with
  | AtLoadCurrent => Some (s, set_pc (AtLoadPeak (sh_currentUsers s)) u)
  | AtLoadPeak current => Some (s, set_pc (AtCompareAndSwap current (sh_peakUsers s)) u)
  | AtCompareAndSwap current peak =>
      if current <=? peak then Some (s, set_pc AtSpawn u) else
      if sh_peakUsers s =? peak then Some (set_peak current s, set_pc AtSpawn u) else
      Some (s, set_pc AtLoadCurrent u)
  | _ => None
  end.

Definition runGatewayUser_step (i : bench_input) (s : Shared) (u : BenchUser) : option (Shared * BenchUser) :=
  match bu_pc u, i with
  | AtNewClient, CallWorks => Some (s, set_pc AtGameStream u)
  | AtGameStream, CallWorks => Some (s, set_pc AtSendAuth u)
  | AtSendAuth, CallWorks => Some (s, set_pc AtRecvAuth u)
  | AtNewClient, CallFails | AtGameStream, CallFails | AtSendAuth, CallFails | AtRecvAuth, CallFails => Some (add_transport s, set_pc Finished u)
  | AtRecvAuth, Message reply =>
      if welcomed reply then Some (s, set_pc AtJoin u) else Some (add_rejected s, set_pc Finished u)
  | AtJoin, CallWorks => Some (add_current 1 s, set_pc AtLoadCurrent u)
  | AtLoadCurrent, CallWorks | AtLoadPeak _, CallWorks | AtCompareAndSwap _ _, CallWorks => updatePeak_step s u
  | AtSpawn, CallWorks =>
      let u := next_request (set_pending newPendingCommands (set_receiver AtRecv u)) in
      Some (s, set_pc (AtStart (switch_request u)) u)
  | AtStart request, Now t => Some (s, set_pc (AtSend request) (set_pending (start (cle_RequestId request) t (bu_pending u)) u))
  | AtSend request, CallWorks => Some (s, set_pc AtSelect u)
  | AtSend request, CallFails => Some (s, set_pc (AtForget (cle_RequestId request)) u)
  | AtForget requestID, CallWorks => Some (s, set_pc AtFail (set_pending (forget requestID (bu_pending u)) u))
  | AtSelect, ContextDone => Some (s, set_pc AtLeave u)
  | AtSelect, ReceiveDone => if receive_done u then Some (s, set_pc AtFail u) else None
  | AtSelect, TickerFires dir =>
      if (dir <? length bench_dirs)%nat then let u := next_request u in Some (s, set_pc (AtStart (move_request dir u)) u) else None
  | AtFail, CallWorks => Some (add_transport s, set_pc AtLeave u)
  | AtLeave, CallWorks => Some (add_current (-1) s, set_pc Finished u)
  | _, _ => None
  end.

(** The receiving goroutine. *)
Definition received (reply : option pb_ServerEnvelope) : receiver_pc :=
  let id := match reply with Some e => sve_RequestId e | None => 0 end in
  match sve_GetState reply with
  | Some _ => AtCountState
  | None =>
      match sve_GetCommandResult reply with
      | Some _ => AtResolveResult id
      | None => match sve_GetError reply with Some _ => AtResolveError id | None => AtRecv end
      end
  end.

Definition receiver_step (i : bench_input) (s : Shared) (u : BenchUser) : option (Shared * BenchUser) :=
  match bu_receiver u, i with
  | AtRecv, CallFails => Some (s, set_receiver Ended u)
  | AtRecv, Message reply => Some (s, set_receiver (received reply) u)
  | AtCountState, CallWorks => Some (add_state s, set_receiver AtRecv u)
  | AtResolveResult id, CallWorks =>
      let '(startedAt, pending) := resolve id (bu_pending u) in
      Some (s, set_receiver (match startedAt with Some t => AtCountConfirmed t | None => AtRecv end) (set_pending pending u))
  | AtCountConfirmed t, CallWorks => Some (add_confirmed s, set_receiver (AtAddLatency t) u)
  | AtAddLatency t, Now t' => Some (addLatency (Sub t' t) s, set_receiver AtRecv u)
  | AtResolveError id, CallWorks =>
      let '(startedAt, pending) := resolve id (bu_pending u) in
      let counts := match startedAt with Some _ => true | None => negb (id =? 0) end in
      Some (s, set_receiver (if counts then AtCountRejected else AtRecv) (set_pending pending u))
  | AtCountRejected, CallWorks => Some (add_rejected s, set_receiver AtRecv u)
  | _, _ => None
  end.

(** ** The benchmark *)

Record Bench := mkBench {
  be_shared : Shared;
  be_users : list BenchUser
}.

Definition new_user (id : nat) : BenchUser := mkBenchUser (Z.of_nat id) AtNewClient NotStarted newPendingCommands 1.
(** [main] after its loop has started the goroutines of the users. *)
Definition new_bench (users : nat) : Bench := mkBench no_metrics (new_user <$> seq 0 users).

(** A step of user [k]: of its own goroutine, or of its receiver. *)
Definition bench_step (k : nat) (receiver : bool) (i : bench_input) (b : Bench) : option Bench :=
  u ← be_users b !! k;
  '(s, u) ← (if receiver then receiver_step i (be_shared b) u else runGatewayUser_step i (be_shared b) u);
  Some (mkBench s (<[k := u]> (be_users b))).

(** ** The report *)

(** The index [int(float64(len(latencies)-1) * percent)] for the double
    [mantissa * 2^-scale]: the product, rounded to 53 bits, without its fraction. *)
Definition percentile_index (mantissa scale : Z) (count : nat) : Z :=
  f64 ((Z.of_nat count - 1) * mantissa) / 2^scale.

(** The doubles nearest to 0.50, 0.95 and 0.99. *)
Definition percent50 : Z * Z := (1, 1).
Definition percent95 : Z * Z := (4278419646001971, 52).
Definition percent99 : Z * Z := (4458563631096791, 52).

Record Report := mkReport {
  re_total : Z;
  re_average : option Z;
  re_percentiles : option (list (option Z))
}.

Definition percentile (latencies : list Z) (percent : Z * Z) : option Z :=
  latencies !! Z.to_nat (percentile_index percent.1 percent.2 (length latencies)).

(** [printMetrics], its figures: the number of outcomes, and the average and the
    percentiles of the sorted latencies where there are any; an index out of range
    would be a panic. *)
Definition printMetrics (s : Shared) : Report :=
  let latencies := merge_sort Z.le (sh_latencies s) in
  let total := (sh_commandConfirmed s +i sh_commandRejected s) +i sh_transportErrors s in
  if (0 <? length latencies)%nat then
    let totalLatency := foldl (fun a l => a +i l) 0 latencies in
    mkReport total (Some (Z.quot totalLatency (Z.of_nat (length latencies))))
      (Some (percentile latencies <$> [percent50; percent95; percent99]))
  else mkReport total None None.
