(* ===== verification/BenchmarkProps.v ===== *)
(** * What the benchmark measures

    Under any interleaving of the users' goroutines: every command is confirmed at
    most once, the peak never exceeds the number of users that were online at once,
    [updatePeak] is wait-free, and the percentiles are read within the latencies. *)

From Stdlib Require Import ZArith Lia String.
From stdpp Require Import base gmap sorting strings list option relations.
From S2P Require Import Prelude Protocol Maps Authority Wire NodeWire Envelope Benchmark.

Open Scope Z_scope.
Open Scope go_scope.
Open Scope list_scope.

(** ** Sums over the users *)

Fixpoint total {A} (f : A -> Z) (l : list A) : Z := match l with [] => 0 | u :: l => f u + total f l end.

Lemma total_insert {A} (f : A -> Z) l : forall k u u', l !! k = Some u -> total f (<[k := u']> l) = total f l - f u + f u'.
Proof.
  induction l as [|v l IH]; intros k u u' H; [done|]. destruct k as [|k]; cbn [total insert list_insert lookup list_lookup] in *; [injection H as ->; lia|].
  change (f v + total f (<[k := u']> l) = f v + total f l - f u + f u'). rewrite (IH k u u' H). lia.
Qed.

Lemma total_bounds {A} (f : A -> Z) lo hi l : Forall (fun u => lo <= f u <= hi) l ->
  lo * Z.of_nat (length l) <= total f l <= hi * Z.of_nat (length l).
Proof. induction 1 as [|u l Hu _ IH]; cbn [total length] in *; lia. Qed.

Lemma total_0 {A} (f : A -> Z) l : Forall (fun u => f u = 0) l -> total f l = 0.
Proof. induction 1 as [|u l Hu _ IH]; cbn [total] in *; lia. Qed.

(** ** Runs *)

(** A run of [n] steps in which at most [m] users were online at once. *)
Inductive bench_run (users : nat) : nat -> Z -> Bench -> Prop :=
  | bench_start : bench_run users 0 0 (new_bench users)
  | bench_next n m b k receiver i b' : bench_run users n m b -> bench_step k receiver i b = Some b' ->
      bench_run users (S n) (Z.max m (sh_currentUsers (be_shared b'))) b'.

(** ** The invariant of a user *)

Definition online (u : BenchUser) : Z :=
  match bu_pc u with
  | AtNewClient | AtGameStream | AtSendAuth | AtRecvAuth | AtJoin | Finished => 0
  | _ => 1
  end.

(** The receiver between the two halves of a confirmation. *)
Definition confirming (u : BenchUser) : Z := match bu_receiver u with AtCountConfirmed _ => 1 | _ => 0 end.
Definition timing (u : BenchUser) : Z := match bu_receiver u with AtAddLatency _ => 1 | _ => 0 end.

(** The commands of a user whose start has been noted. *)
Definition commands_sent (u : BenchUser) : Z :=
  bu_requestID u - 1 - match bu_pc u with AtStart _ => 1 | _ => 0 end.

Definition open_commands (u : BenchUser) : Z := Z.of_nat (size (bu_pending u)) + confirming u.

(** Before the receiver is started nothing is open; afterwards the open requests have
    numbers up to the last one that was started. *)
Definition user_ok (n : nat) (u : BenchUser) : Prop :=
  1 <= bu_requestID u <= 1 + Z.of_nat n /\
  match bu_pc u with
  | AtNewClient | AtGameStream | AtSendAuth | AtRecvAuth | AtJoin | AtLoadCurrent | AtLoadPeak _ | AtCompareAndSwap _ _ | AtSpawn =>
      bu_requestID u = 1 /\ bu_receiver u = NotStarted /\ bu_pending u = ∅
  | AtStart request => cle_RequestId request = bu_requestID u /\ forall id, is_Some (bu_pending u !! id) -> id < bu_requestID u
  | _ => forall id, is_Some (bu_pending u !! id) -> id <= bu_requestID u
  end.

(** What a user has loaded in [updatePeak]: at most [m] users, and a peak that has
    been the peak. *)
Definition loaded (m peak : Z) (u : BenchUser) : Prop :=
  match bu_pc u with AtLoadPeak c => c <= m | AtCompareAndSwap c p => c <= m /\ 0 <= p <= peak | _ => True end.

Lemma loaded_mono m m' peak peak' u : m <= m' -> peak <= peak' -> loaded m peak u -> loaded m' peak' u.
Proof. unfold loaded. case_match; lia || done. Qed.

Definition bench_ok (n : nat) (m : Z) (b : Bench) : Prop :=
  let s := be_shared b in let l := be_users b in
  Forall (user_ok n) l /\
  sh_currentUsers s = total online l /\
  sh_commandConfirmed s + total open_commands l <= total commands_sent l /\
  0 <= sh_commandConfirmed s <= Z.of_nat n /\
  Z.of_nat (length (sh_latencies s)) + total timing l = sh_commandConfirmed s /\
  0 <= sh_peakUsers s <= m /\ sh_currentUsers s <= m /\
  Forall (loaded m (sh_peakUsers s)) l.

Lemma online_bounds u : 0 <= online u <= 1.
Proof. unfold online. destruct (bu_pc u); lia. Qed.

Lemma total_online l : 0 <= total online l <= Z.of_nat (length l).
Proof. pose proof (total_bounds online 0 1 l ltac:(apply Forall_true, online_bounds)). lia. Qed.

Lemma user_ok_mono n u : user_ok n u -> user_ok (S n) u.
Proof. unfold user_ok. intros [H1 H2]. split; [lia|done]. Qed.

Lemma size_delete_le (p : gmap Z Z) id : Z.of_nat (size (delete id p)) <= Z.of_nat (size p).
Proof.
  destruct (p !! id) as [t|] eqn:E; [|by rewrite delete_id].
  rewrite map_size_delete_Some by (by eexists). lia.
Qed.

(** ** One step *)

Lemma bench_ok_start users : bench_ok 0 0 (new_bench users).
Proof.
  assert (Hz : forall f, (forall k, f (new_user k) = 0) -> total f (new_user <$> seq 0 users) = 0).
  { intros f Hf. apply total_0, Forall_fmap, Forall_true. exact Hf. }
  unfold bench_ok, new_bench. cbn [be_shared be_users no_metrics sh_currentUsers sh_commandConfirmed sh_latencies sh_peakUsers length].
  rewrite (Hz online), (Hz open_commands), (Hz commands_sent), (Hz timing) by done.
  split_and!; try lia; apply Forall_fmap, Forall_true; intros k; [|done]. unfold user_ok. cbn. split; [lia|done].
Qed.

(** What one step of a user, or of its receiver, changes. *)
Record step_ok (n : nat) (s : Shared) (u : BenchUser) (s' : Shared) (u' : BenchUser) : Prop := {
  so_user : user_ok (S n) u';
  so_current : sh_currentUsers s' - online u' = sh_currentUsers s - online u;
  so_open : sh_commandConfirmed s' + open_commands u' - commands_sent u' <= sh_commandConfirmed s + open_commands u - commands_sent u;
  so_confirmed : sh_commandConfirmed s <= sh_commandConfirmed s' <= sh_commandConfirmed s + 1;
  so_timing : Z.of_nat (length (sh_latencies s')) + timing u' - sh_commandConfirmed s'
              = Z.of_nat (length (sh_latencies s)) + timing u - sh_commandConfirmed s
}.

Definition roomy (n : nat) (s : Shared) (u : BenchUser) : Prop :=
  Z.of_nat n < 2^62 /\ 0 <= sh_commandConfirmed s <= Z.of_nat n /\ 0 <= sh_currentUsers s - online u < 2^62.

Lemma size_start (p : gmap Z Z) id t : Z.of_nat (size (<[id := t]> p)) <= Z.of_nat (size p) + 1.
Proof.
  destruct (p !! id) as [t0|] eqn:E; [rewrite map_size_insert_Some by (by eexists); lia|].
  rewrite map_size_insert_None by done. lia.
Qed.

Ltac expose :=
  unfold user_ok, online, open_commands, commands_sent, confirming, timing, start, forget, newPendingCommands in *;
  cbn [set_pc set_receiver set_pending next_request bu_id bu_pc bu_receiver bu_pending bu_requestID
       add_confirmed add_rejected add_transport add_state addLatency set_peak add_current
       sh_commandConfirmed sh_commandRejected sh_transportErrors sh_stateUpdates sh_latencies sh_peakUsers sh_currentUsers
       cle_RequestId move_request switch_request] in *.

Ltac machine := rewrite ?i64_id, ?u64_id by (unfold in_i64, in_u64; lia).

(** The numbers of open requests are bounded by [hi]. *)
Lemma open_none (hi : Z) id : is_Some ((∅ : gmap Z Z) !! id) -> id <= hi.
Proof. rewrite lookup_empty. by intros []. Qed.

Lemma open_started p n t hi id : (forall j, is_Some (p !! j) -> j <= hi) -> n <= hi -> is_Some (<[n := t]> (p : gmap Z Z) !! id) -> id <= hi.
Proof. intros Hp Hn. rewrite lookup_insert_is_Some. intros [->|[_ H]]; [done|by apply Hp]. Qed.

Lemma open_deleted p n hi id : (forall j, is_Some (p !! j) -> j <= hi) -> is_Some (delete n (p : gmap Z Z) !! id) -> id <= hi.
Proof. intros Hp. rewrite lookup_delete_is_Some. intros [_ H]. by apply Hp. Qed.

Lemma below (p : gmap Z Z) hi : (forall j, is_Some (p !! j) -> j < hi) -> forall j, is_Some (p !! j) -> j <= hi.
Proof. intros Hp j Hj. specialize (Hp j Hj). lia. Qed.

Lemma runGatewayUser_step_ok n i s u s' u' : user_ok n u -> roomy n s u ->
  runGatewayUser_step i s u = Some (s', u') -> step_ok n s u s' u'.
Proof.
  destruct u as [id pc receiver pending req]. intros Hok (Hn & Hc & Hu).
  destruct pc, i; try done; cbn [runGatewayUser_step updatePeak_step bu_pc]; intros H;
    repeat (case_match; try done); injection H as <- <-; constructor; expose; machine; try lia; destruct Hok as [Hr Hp];
    try (split; [lia|]); try (repeat split; (done || lia)); try done; try (destruct Hp as (_ & -> & ->));
    try exact (open_none _); try (split; [done|]); try done.
  - intros j Hj. rewrite lookup_empty in Hj. by destruct Hj.
  - change (size (∅ : gmap Z Z)) with 0%nat. lia.
  - intros j. apply open_started; [apply below, Hp|destruct Hp; lia].
  - pose proof (size_start pending (cle_RequestId request) t). lia.
  - intros j. by apply open_deleted.
  - pose proof (size_delete_le pending requestID). lia.
  - intros j Hj. specialize (Hp j Hj). lia.
Qed.

Lemma received_idle reply :
  match received reply with AtCountConfirmed _ => 1 | _ => 0 end = 0 /\ match received reply with AtAddLatency _ => 1 | _ => 0 end = 0.
Proof. unfold received. by repeat case_match. Qed.

Lemma size_resolve (p : gmap Z Z) id t : p !! id = Some t -> Z.of_nat (size (delete id p)) + 1 <= Z.of_nat (size p).
Proof.
  intros E. rewrite map_size_delete_Some by (by eexists). enough (size p <> 0%nat) by lia.
  intros ->%map_size_empty_iff. by rewrite lookup_empty in E.
Qed.

Lemma receiver_step_ok n i s u s' u' : user_ok n u -> roomy n s u ->
  receiver_step i s u = Some (s', u') -> step_ok n s u s' u'.
Proof.
  destruct u as [id pc receiver pending req]. intros Hok (Hn & Hc & Hu).
  assert (Hs : receiver <> NotStarted -> 1 <= req <= 1 + Z.of_nat n /\ match pc with
    | AtNewClient | AtGameStream | AtSendAuth | AtRecvAuth | AtJoin | AtLoadCurrent | AtLoadPeak _ | AtCompareAndSwap _ _ | AtSpawn => False
    | AtStart request => cle_RequestId request = req /\ forall id, is_Some (pending !! id) -> id < req
    | _ => forall id, is_Some (pending !! id) -> id <= req
    end) by (intros Hr; destruct Hok as [H1 H2]; split; [done|]; cbn in H2; destruct pc; try done; by destruct H2 as (_ & ? & _)).
  assert (Hd : forall p' r', receiver <> NotStarted -> (forall j, is_Some (p' !! j) -> is_Some (pending !! j)) ->
    user_ok (S n) (mkBenchUser id pc r' p' req)).
  { intros p' r' Hr Hsub. specialize (Hs Hr) as [H1 H2]. split; [cbn; lia|]. cbn. destruct pc; try done; try (intros j Hj; by apply H2, Hsub).
    destruct H2 as [H2 H3]. split; [done|]. intros j Hj. by apply H3, Hsub. }
  assert (Hdel : forall n0 j, is_Some (delete n0 pending !! j) -> is_Some (pending !! j))
    by (intros n0 j [_ ?]%lookup_delete_is_Some; done).
  destruct receiver, i; try done; cbn [receiver_step bu_receiver bu_pending resolve]; intros H.
  4, 7: destruct (pending !! requestID) as [t0|] eqn:E; try destruct (negb _).
  all: simplify_eq; constructor; try (apply Hd; [done|first [done|exact (Hdel _)]]); expose; machine; rewrite ?length_app; cbn [length]; try lia.
  all: try (destruct (received_idle reply); lia).
  all: try (pose proof (size_resolve pending requestID _ E); lia).
  all: try (pose proof (size_delete_le pending requestID); lia).
Qed.

(** ** All steps *)

(** What a step does to the peak, and what the user has loaded. *)
Lemma step_peak (receiver : bool) i s u s' u' m :
  (if receiver then receiver_step i s u else runGatewayUser_step i s u) = Some (s', u') ->
  sh_currentUsers s <= m -> 0 <= sh_peakUsers s <= m -> loaded m (sh_peakUsers s) u ->
  sh_peakUsers s' <= m /\ loaded m (sh_peakUsers s') u' /\ sh_peakUsers s <= sh_peakUsers s'.
Proof.
  destruct u as [id pc r pending req]. unfold loaded. intros H Hc Hp Hl. destruct receiver.
  - destruct r, i; try done; cbn [receiver_step bu_receiver bu_pending resolve] in H.
    4, 7: destruct (pending !! requestID) as [t0|]; try destruct (negb _).
    all: simplify_eq; cbn; done || (split; [lia|split; [done|lia]]).
  - destruct pc, i; try done; cbn [runGatewayUser_step updatePeak_step bu_pc] in *;
      repeat match type of H with context [if ?b then _ else _] => destruct b eqn:? end; simplify_eq; cbn in *; split_and?; try done; lia.
Qed.

Lemma bench_step_ok users n m k receiver i b b' : Z.of_nat users < 2^62 -> Z.of_nat n < 2^62 ->
  length (be_users b) = users -> bench_ok n m b -> bench_step k receiver i b = Some b' ->
  length (be_users b') = users /\ bench_ok (S n) (Z.max m (sh_currentUsers (be_shared b'))) b'.
Proof.
  intros Hus Hn Hlen (Hu & Hcur & Hopen & Hconf & Hlat & Hpeak & Hmax & Hload) Hstep. unfold bench_step in Hstep.
  destruct (be_users b !! k) as [u|] eqn:Ek; [|done]. cbn [mbind option_bind] in Hstep.
  destruct (if receiver then _ else _) as [[s' u']|] eqn:Es; [|done]. cbn in Hstep. injection Hstep as <-. cbn [be_users be_shared].
  assert (Huk : user_ok n u) by (by eapply Forall_lookup_1 in Hu).
  assert (Hroom : roomy n (be_shared b) u).
  { pose proof (total_online (<[k := set_pc Finished u]> (be_users b))) as Hoff.
    rewrite (total_insert online _ k u), length_insert in Hoff by done. change (online (set_pc Finished u)) with 0 in Hoff.
    unfold roomy. lia. }
  assert (Hok : step_ok n (be_shared b) u s' u') by (destruct receiver; [by eapply receiver_step_ok|by eapply runGatewayUser_step_ok]).
  destruct Hok as [H1 H2 H3 H4 H5].
  destruct (step_peak receiver i (be_shared b) u s' u' m Es Hmax Hpeak ltac:(by eapply Forall_lookup_1 in Hload)) as (P1 & P2 & P3).
  split; [by rewrite length_insert|]. unfold bench_ok. cbn [be_users be_shared].
  rewrite !(total_insert _ _ k u) by done. split_and!; try lia.
  - apply Forall_insert; [|done]. eapply Forall_impl; [exact Hu|]. apply user_ok_mono.
  - apply Forall_insert; [|by eapply loaded_mono; [..|exact P2]; lia].
    eapply Forall_impl; [exact Hload|]. intros v Hv. eapply loaded_mono; [..|exact Hv]; lia.
Qed.

Lemma bench_run_ok users n m b : Z.of_nat users < 2^62 -> Z.of_nat n < 2^62 -> bench_run users n m b ->
  length (be_users b) = users /\ bench_ok n m b.
Proof.
  intros Hus Hn Hrun. induction Hrun as [|n m b k receiver i b' Hrun IH Hstep].
  - split; [by cbn; rewrite length_fmap, length_seq|apply bench_ok_start].
  - destruct IH as [Hlen Hok]; [lia|]. eapply bench_step_ok; [done| |done|done|done]. lia.
Qed.

Lemma online_at_most users n m b : Z.of_nat users < 2^62 -> Z.of_nat n < 2^62 -> bench_run users n m b -> 0 <= m <= Z.of_nat users.
Proof.
  intros Hus Hn Hrun. induction Hrun as [|n m b k receiver i b' Hrun IH Hstep]; [lia|].
  destruct (bench_run_ok users (S n) _ b' Hus Hn (bench_next _ _ _ _ _ _ _ _ Hrun Hstep)) as [Hlen (_ & Hcur & _)].
  pose proof (total_online (be_users b')). lia.
Qed.

(** ** [updatePeak] *)

(** In every run of fewer than 2^62 steps, however the goroutines of the users and
    their receivers interleave, each command is confirmed at most once: the confirmed
    ones and those still open are no more than were sent; every confirmation has
    left one latency, up to those just being measured; and the recorded peak is
    a number of users that has not exceeded those really online at one time. *)
Theorem benchmark_counts users n m b :
  Z.of_nat users < 2^62 -> Z.of_nat n < 2^62 -> bench_run users n m b ->
  let s := be_shared b in
  sh_commandConfirmed s + total open_commands (be_users b) <= total commands_sent (be_users b) /\
  sh_commandConfirmed s = Z.of_nat (length (sh_latencies s)) + total timing (be_users b) /\
  sh_currentUsers s = total online (be_users b) /\
  0 <= sh_peakUsers s <= m /\ m <= Z.of_nat users.
Proof.
  intros Hus Hn Hrun. pose proof (online_at_most _ _ _ _ Hus Hn Hrun).
  destruct (bench_run_ok _ _ _ _ Hus Hn Hrun) as [_ (_ & H1 & H2 & _ & H3 & H4 & _)]. split_and!; [done|lia|done|lia..].
Qed.

(** User [k] is in [updatePeak]. *)
Definition updating (k : nat) (b : Bench) : Prop :=
  exists u, be_users b !! k = Some u /\
    match bu_pc u with AtLoadCurrent | AtLoadPeak _ | AtCompareAndSwap _ _ => True | _ => False end.

(** [spins k c t b b']: in [t] steps from [b] to [b'], [c] of them its own, user [k]
    has not left [updatePeak]. *)
Inductive spins (k : nat) : nat -> nat -> Bench -> Bench -> Prop :=
  | spins_here b : updating k b -> spins k 0 0 b b
  | spins_other c t b b1 b2 j receiver i : spins k c t b b1 -> j <> k \/ receiver = true ->
      bench_step j receiver i b1 = Some b2 -> spins k c (S t) b b2
  | spins_own c t b b1 b2 i : spins k c t b b1 -> bench_step k false i b1 = Some b2 -> updating k b2 ->
      spins k (S c) (S t) b b2.

(** What is left of the loop: three steps for each value the peak may still take. *)
Definition spin_left (users : nat) (b : Bench) (u : BenchUser) : Z :=
  match bu_pc u with
  | AtLoadCurrent => 3 * (Z.of_nat users - sh_peakUsers (be_shared b)) + 3
  | AtLoadPeak _ => 3 * (Z.of_nat users - sh_peakUsers (be_shared b)) + 2
  | AtCompareAndSwap _ peak => 3 * (Z.of_nat users - peak) + 1
  | _ => 0
  end.

Lemma bench_step_peak n m b k receiver i b' : bench_ok n m b -> bench_step k receiver i b = Some b' ->
  sh_peakUsers (be_shared b) <= sh_peakUsers (be_shared b').
Proof.
  intros (_ & _ & _ & _ & _ & Hpeak & Hmax & Hload) Hstep. unfold bench_step in Hstep.
  destruct (be_users b !! k) as [u|] eqn:Ek; [|done]. cbn [mbind option_bind] in Hstep.
  destruct (if receiver then _ else _) as [[s' u']|] eqn:Es; [|done]. cbn in Hstep. injection Hstep as <-.
  by destruct (step_peak receiver i (be_shared b) u s' u' m Es Hmax Hpeak ltac:(by eapply Forall_lookup_1 in Hload)) as (_ & _ & ?).
Qed.

(** Steps of others, and of the user's own receiver, do not move the user. *)
Lemma other_step_pc k j receiver i b b' u : j <> k \/ receiver = true -> bench_step j receiver i b = Some b' ->
  be_users b !! k = Some u -> exists u', be_users b' !! k = Some u' /\ bu_pc u' = bu_pc u.
Proof.
  intros Hj Hstep Hu. unfold bench_step in Hstep. destruct (be_users b !! j) as [v|] eqn:Ej; [|done].
  cbn [mbind option_bind] in Hstep.
  destruct (if receiver then _ else _) as [[s' v']|] eqn:Es; [|done]. cbn in Hstep. injection Hstep as <-. cbn [be_users].
  destruct (decide (j = k)) as [->|Hne]; [|exists u; by rewrite list_lookup_insert_ne].
  destruct Hj as [Hj| ->]; [done|]. simplify_eq. exists v'. split; [apply list_lookup_insert_eq; by eapply lookup_lt_Some|].
  destruct v as [id pc r pending req]. destruct r, i; try done; cbn [receiver_step bu_receiver bu_pending resolve] in Es.
  4, 7: destruct (pending !! requestID) as [t0|]; try destruct (negb _).
  all: by simplify_eq.
Qed.

(** An own step that stays in the loop uses up one of the steps left. *)
Lemma own_step_left users n m k i b b' u : bench_ok n m b -> m <= Z.of_nat users ->
  be_users b !! k = Some u -> updating k b -> bench_step k false i b = Some b' -> updating k b' ->
  exists u', be_users b' !! k = Some u' /\ spin_left users b' u' < spin_left users b u.
Proof.
  intros (_ & _ & _ & _ & _ & Hpeak & Hmax & Hload) Hm Hu [v [Hv Hup]] Hstep [w [Hw Hup']]. rewrite Hu in Hv. injection Hv as <-.
  assert (Hl : loaded m (sh_peakUsers (be_shared b)) u) by (by eapply Forall_lookup_1 in Hload).
  unfold bench_step in Hstep. rewrite Hu in Hstep. cbn [mbind option_bind] in Hstep.
  destruct (runGatewayUser_step i (be_shared b) u) as [[s' u']|] eqn:Es; [|done]. cbn in Hstep. injection Hstep as <-. cbn [be_users] in *.
  rewrite list_lookup_insert_eq in Hw by (by eapply lookup_lt_Some). injection Hw as <-.
  exists u'. split; [apply list_lookup_insert_eq; by eapply lookup_lt_Some|].
  destruct u as [id pc r pending req]. unfold loaded in Hl. cbn [bu_pc] in *.
  destruct pc, i; try done; cbn [runGatewayUser_step updatePeak_step bu_pc] in Es;
    repeat match type of Es with context [if ?x then _ else _] => destruct x eqn:? end; simplify_eq; try done;
    unfold spin_left, set_pc, set_peak in *; cbn [bu_pc be_shared sh_peakUsers] in *; lia.
Qed.

Lemma spins_run users n m k c t b b' : Z.of_nat users < 2^62 -> Z.of_nat (n + t) < 2^62 -> bench_run users n m b -> spins k c t b b' ->
  updating k b' /\ (exists m', bench_run users (n + t) m' b') /\
  exists u u', be_users b !! k = Some u /\ be_users b' !! k = Some u' /\ Z.of_nat c + spin_left users b' u' <= spin_left users b u.
Proof.
  intros Hus Hn Hrun Hs. induction Hs as [b Hu|c t b b1 b2 j receiver i Hs IH Hj Hstep|c t b b1 b2 i Hs IH Hstep Hup].
  - split; [done|]. rewrite Nat.add_0_r. split; [by exists m|]. destruct Hu as [u [Hu _]]. exists u, u. split_and!; [done..|lia].
  - destruct IH as (Hup1 & [m' Hrun1] & u & u1 & Hu & Hu1 & Hle); [lia|done|].
    destruct (bench_run_ok users (n + t) m' b1 Hus ltac:(lia) Hrun1) as [_ Hok].
    destruct (other_step_pc _ _ _ _ _ _ _ Hj Hstep Hu1) as (u2 & Hu2 & Hpc).
    pose proof (bench_step_peak _ _ _ _ _ _ _ Hok Hstep) as Hpk.
    split; [|split].
    + exists u2. split; [done|]. destruct Hup1 as (v & Hv & Hup1). rewrite Hu1 in Hv. injection Hv as <-. by rewrite Hpc.
    + eexists. rewrite Nat.add_succ_r. by econstructor.
    + exists u, u2. split_and!; [done..|]. unfold spin_left in *. rewrite Hpc. destruct (bu_pc u1); lia.
  - destruct IH as (Hup1 & [m' Hrun1] & u & u1 & Hu & Hu1 & Hle); [lia|done|].
    destruct (bench_run_ok users (n + t) m' b1 Hus ltac:(lia) Hrun1) as [_ Hok].
    pose proof (online_at_most users (n + t) m' b1 Hus ltac:(lia) Hrun1) as Hm.
    destruct (own_step_left users _ _ _ _ _ _ _ Hok ltac:(lia) Hu1 Hup1 Hstep Hup) as (u2 & Hu2 & Hlt).
    split; [done|]. split; [eexists; rewrite Nat.add_succ_r; by econstructor|]. exists u, u2. split_and!; [done..|lia].
Qed.

(** [updatePeak] is wait-free: whatever the other users do - also if they win every
    race for the swap - a user leaves the loop after at most [3 * users + 3] own
    steps: each failed swap has seen the peak rise, and the peak never exceeds the
    number of users. *)
Theorem updatePeak_wait_free users n m k c t b b' :
  Z.of_nat users < 2^62 -> Z.of_nat (n + t) < 2^62 -> bench_run users n m b -> spins k c t b b' ->
  Z.of_nat c <= 3 * Z.of_nat users + 3.
Proof.
  intros Hus Hn Hrun Hs. destruct (spins_run _ _ _ _ _ _ _ _ Hus Hn Hrun Hs) as (_ & [m' Hrun'] & u & u' & Hu & Hu' & Hle).
  destruct (bench_run_ok users n m b Hus ltac:(lia) Hrun) as [_ (_ & _ & _ & _ & _ & Hp & _ & Hl)].
  destruct (bench_run_ok _ _ _ _ Hus Hn Hrun') as [_ (_ & _ & _ & _ & _ & Hp' & _ & Hl')].
  pose proof (online_at_most users n m b Hus ltac:(lia) Hrun) as Hm. pose proof (online_at_most _ _ _ _ Hus Hn Hrun') as Hm'.
  eapply Forall_lookup_1 in Hl, Hl'; [|done..]. unfold loaded in Hl, Hl'. unfold spin_left in Hle.
  destruct (bu_pc u), (bu_pc u'); lia.
Qed.

(** ** The report *)

(** Rounding to 53 bits does not pass a multiple of 2^52 below 2^105. *)
Lemma f64_below n z : 0 <= z <= n * 2^52 -> n < 2^53 -> 0 <= f64 z <= n * 2^52.
Proof.
  intros Hz Hn. unfold f64. rewrite Z.abs_eq by lia. destruct (Z.leb_spec z (2^53)) as [|Hbig]; [lia|].
  rewrite Z.sgn_pos by lia. set (s := Z.log2 z - 52).
  assert (Hlog : 53 <= Z.log2 z) by (apply Z.log2_le_pow2; lia).
  assert (Hs : 1 <= s <= 52).
  { assert (Z.log2 z < 105) by (apply Z.log2_lt_pow2; [lia|]; change (2^105) with (2^53 * 2^52); nia). lia. }
  assert (Hp : 0 < 2^s) by (apply Z.pow_pos_nonneg; lia).
  rewrite Z.shiftr_div_pow2, !Z.shiftl_mul_pow2 by lia.
  set (q := z / 2^s). assert (Hq : 2^s * q <= z < 2^s * (q + 1)).
  { pose proof (Z.div_mod z (2^s) ltac:(lia)) as Hd. pose proof (Z.mod_pos_bound z (2^s) Hp). fold q in Hd. lia. }
  assert (H52 : 2^52 = 2^(52 - s) * 2^s) by (rewrite <- Z.pow_add_r by lia; f_equal; lia).
  assert (Hp' : 0 < 2^(52 - s)) by (apply Z.pow_pos_nonneg; lia).
  assert (H0 : 0 <= q) by (apply Z.div_pos; lia).
  destruct (_ || _) eqn:Hr; [|nia].
  assert (Hlt : q * 2^s < z).
  { assert (Hh : 0 < 1 * 2^(s - 1)) by (rewrite Z.mul_1_l; apply Z.pow_pos_nonneg; lia).
    apply orb_true_iff in Hr as [Hr|Hr]; [apply Z.ltb_lt in Hr; lia|]. apply andb_true_iff in Hr as [Hr _]. apply Z.eqb_eq in Hr. lia. }
  assert (Hm : (q + 1) <= n * 2^(52 - s)) by (rewrite H52 in Hz; nia).
  rewrite H52. nia.
Qed.

Lemma percentile_index_range mantissa scale count : (0 < count)%nat -> Z.of_nat count <= 2^53 ->
  (scale = 52 /\ 0 <= mantissa <= 2^52) \/ (scale, mantissa) = (1, 1) ->
  0 <= percentile_index mantissa scale count < Z.of_nat count.
Proof.
  intros Hc Hb [[-> Hm]|[= -> ->]]; unfold percentile_index.
  - pose proof (f64_below (Z.of_nat count - 1) ((Z.of_nat count - 1) * mantissa) ltac:(nia) ltac:(lia)) as [H1 H2].
    split; [apply Z.div_pos; lia|]. enough (f64 ((Z.of_nat count - 1) * mantissa) / 2^52 <= Z.of_nat count - 1) by lia.
    apply Z.div_le_upper_bound; lia.
  - rewrite f64_exact, Z.mul_1_r by lia. change (2^1) with 2. pose proof (Z.div_mod (Z.of_nat count - 1) 2 ltac:(lia)).
    pose proof (Z.mod_pos_bound (Z.of_nat count - 1) 2 ltac:(lia)). lia.
Qed.

Lemma percentile_Some l percent : (0 < length l)%nat -> Z.of_nat (length l) <= 2^53 ->
  percent ∈ [percent50; percent95; percent99] -> exists x, percentile l percent = Some x /\ x ∈ l.
Proof.
  intros Hl Hb Hp. unfold percentile.
  assert (Hr : 0 <= percentile_index percent.1 percent.2 (length l) < Z.of_nat (length l)).
  { apply percentile_index_range; [done..|]. rewrite !elem_of_cons, elem_of_nil in Hp.
    destruct Hp as [->|[->|[->|[]]]]; [by right|left; cbn; lia..]. }
  destruct (l !! Z.to_nat _) as [x|] eqn:E; [exists x; split; [done|by eapply list_elem_of_lookup_2]|].
  apply lookup_ge_None in E. lia.
Qed.

(** The report never panics: with up to 2^53 latencies - zero included - the index of
    every percentile, computed in doubles, is one of the sorted latencies. *)
Theorem report_in_range s : Z.of_nat (length (sh_latencies s)) <= 2^53 ->
  match re_percentiles (printMetrics s) with
  | Some l => sh_latencies s <> [] /\ Forall (fun o => exists x, o = Some x /\ x ∈ sh_latencies s) l
  | None => sh_latencies s = []
  end.
Proof.
  intros Hb. unfold printMetrics. pose proof (merge_sort_Permutation Z.le (sh_latencies s)) as Hperm.
  assert (Hlen : length (merge_sort Z.le (sh_latencies s)) = length (sh_latencies s)) by by rewrite Hperm.
  destruct (0 <? length (merge_sort Z.le (sh_latencies s)))%nat eqn:E; cbn [re_percentiles].
  - apply Nat.ltb_lt in E. split; [intros H; rewrite Hlen, H in E; cbn in E; lia|].
    apply Forall_fmap, list.Forall_forall. intros percent Hp. destruct (percentile_Some (merge_sort Z.le (sh_latencies s)) percent) as (x & Hx & Hin); [done|by rewrite Hlen|done|].
    exists x. split; [exact Hx|]. by rewrite <- Hperm.
  - apply Nat.ltb_ge in E. rewrite Hlen in E. destruct (sh_latencies s); [done|cbn in E; lia].
Qed.

(** ** Concrete runs *)

Fixpoint exec (steps : list (nat * bool * bench_input)) (m : Z) (b : Bench) : option (Z * Bench) :=
  match steps with
  | [] => Some (m, b)
  | (k, receiver, i) :: steps =>
      b ← bench_step k receiver i b; exec steps (Z.max m (sh_currentUsers (be_shared b))) b
  end.

Lemma exec_run users steps : forall n m b m' b', bench_run users n m b -> exec steps m b = Some (m', b') ->
  bench_run users (n + length steps) m' b'.
Proof.
  induction steps as [|[[k receiver] i] steps IH]; intros n m b m' b' Hrun; cbn [exec length].
  - intros [= <- <-]. by rewrite Nat.add_0_r.
  - destruct (bench_step k receiver i b) as [b1|] eqn:E; [|done]. cbn [mbind option_bind]. intros H.
    rewrite Nat.add_succ_r. apply (IH (S n)) in H; [done|]. by econstructor.
Qed.

Definition welcome : option pb_ServerEnvelope :=
  Some (mk_pb_ServerEnvelope 1 (Some (ServerEnvelope_Authenticated (Some (Some
    (mk_pb_WorldState None None [] [] None [] 1 1 1)))))).
Definition joins (k : nat) : list (nat * bool * bench_input) :=
  (fun i => (k, false, i)) <$> [CallWorks; CallWorks; CallWorks; Message welcome; CallWorks].
Definition own (k n : nat) : list (nat * bool * bench_input) := replicate n (k, false, CallWorks).

(** Two users are online at once, but the first has left when the second looks: the
    peak is one.  The first command could not be sent. *)
Definition peak_missed_steps : list (nat * bool * bench_input) :=
  joins 0 ++ own 0 4 ++ [(0%nat, false, Now 5); (0%nat, false, CallFails)] ++ own 0 2 ++ joins 1 ++ own 0 1 ++ own 1 4.

Definition shared_after (o : option (Z * Bench)) : option (Z * Shared) := p ← o; Some (p.1, be_shared p.2).

Lemma peak_missed : shared_after (exec peak_missed_steps 0 (new_bench 2)) = Some (2, mkShared 0 0 1 0 [] 1 1).
Proof. vm_compute. reflexivity. Qed.

(** The context of the stream ends: [Recv] fails because of it, and [select] may take the
    branch of the ended receiver: an ordinary end counts as a transport error. *)
Definition deadline_steps : list (nat * bool * bench_input) :=
  joins 0 ++ own 0 4 ++ [(0%nat, false, Now 5); (0%nat, false, CallWorks);
    (0%nat, true, Message (Some (mk_pb_ServerEnvelope 2 (Some (ServerEnvelope_CommandResult (Some "切换地图指令已接受"))))));
    (0%nat, true, CallWorks); (0%nat, true, CallWorks); (0%nat, true, Now 9);
    (0%nat, true, CallFails); (0%nat, false, ReceiveDone)] ++ own 0 2.

Lemma deadline_counts_error : shared_after (exec deadline_steps 0 (new_bench 1)) = Some (1, mkShared 1 0 1 0 [4] 1 0).
Proof. vm_compute. reflexivity. Qed.

Lemma benchmark_counts_witness :
  exists m b, exec deadline_steps 0 (new_bench 1) = Some (m, b) /\ sh_commandConfirmed (be_shared b) = 1 /\
    sh_commandConfirmed (be_shared b) = Z.of_nat (length (sh_latencies (be_shared b))) + total timing (be_users b).
Proof.
  destruct (exec deadline_steps 0 (new_bench 1)) as [[m b]|] eqn:E; [|vm_compute in E; discriminate E]. exists m, b.
  assert (Hc : 1 = sh_commandConfirmed (be_shared b)) by (pose proof deadline_counts_error as H; rewrite E in H; cbn in H; by injection H as _ ->).
  split; [done|]. split; [done|].
  destruct (benchmark_counts 1 (0 + length deadline_steps) m b ltac:(lia) ltac:(vm_compute; reflexivity)
    (exec_run 1 deadline_steps 0 0 (new_bench 1) m b (bench_start 1) E)) as (_ & H & _). exact H.
Defined.

(** User 1 wins the race for the swap; user 0 has to start again. *)
Definition race : list (nat * bool * bench_input) := own 0 2 ++ own 1 3 ++ own 0 1.
Definition race_state (n : nat) : Bench :=
  match exec (joins 0 ++ joins 1 ++ take n race) 0 (new_bench 2) with Some (_, b) => b | None => new_bench 0 end.

Lemma updatePeak_wait_free_witness :
  spins 0 3 6 (race_state 0) (race_state 6) /\ updating 0 (race_state 6) /\ Z.of_nat 3 <= 3 * Z.of_nat 2 + 3.
Proof.
  assert (Hup : forall n, In n [0; 1; 2; 3; 4; 5; 6]%nat -> updating 0 (race_state n)).
  { intros n Hn. repeat destruct Hn as [<-|Hn]; [eexists; (split; [vm_compute; reflexivity|exact I])..|destruct Hn]. }
  assert (Hs : spins 0 3 6 (race_state 0) (race_state 6)).
  { apply (spins_own 0 2 5 _ (race_state 5) _ CallWorks); [|vm_compute; reflexivity|apply Hup; cbn; tauto].
    apply (spins_other 0 2 4 _ (race_state 4) _ 1 false CallWorks); [|by left|vm_compute; reflexivity].
    apply (spins_other 0 2 3 _ (race_state 3) _ 1 false CallWorks); [|by left|vm_compute; reflexivity].
    apply (spins_other 0 2 2 _ (race_state 2) _ 1 false CallWorks); [|by left|vm_compute; reflexivity].
    apply (spins_own 0 1 1 _ (race_state 1) _ CallWorks); [|vm_compute; reflexivity|apply Hup; cbn; tauto].
    apply (spins_own 0 0 0 _ (race_state 0) _ CallWorks); [|vm_compute; reflexivity|apply Hup; cbn; tauto].
    apply spins_here, Hup. by left. }
  split; [exact Hs|]. split; [apply Hup; cbn; tauto|].
  apply (updatePeak_wait_free 2 10 2 0 3 6 (race_state 0) (race_state 6)); [lia|lia| |exact Hs].
  apply (exec_run 2 (joins 0 ++ joins 1) 0 0 (new_bench 2)); [constructor|vm_compute; reflexivity].
Defined.

Lemma report_in_range_witness :
  re_percentiles (printMetrics (mkShared 3 0 0 0 [9; 2; 4] 0 0)) = Some [Some 4; Some 4; Some 4] /\
  Forall (fun o => exists x, o = Some x /\ x ∈ [9; 2; 4]) [Some 4; Some 4; Some 4].
Proof.
  assert (E : re_percentiles (printMetrics (mkShared 3 0 0 0 [9; 2; 4] 0 0)) = Some [Some 4; Some 4; Some 4]) by (vm_compute; reflexivity).
  split; [exact E|]. pose proof (report_in_range (mkShared 3 0 0 0 [9; 2; 4] 0 0) ltac:(vm_compute; discriminate)) as H.
  rewrite E in H. exact (proj2 H).
Defined.
